(* ===== verification/_CoqProject ===== *)
-Q . S2P
Prelude.v
HBase.v
Base64.v
Varint.v
BlockHash.v
Sha1.v
Md5.v
Unpack.v
WriteQueue.v
Heap.v
Cron.v
EventLoop.v
IoWatcher.v
RbTree.v
Rudp.v
WebSocketParser.v
WebSocketClient.v
Interaction.v
SwitchCore.v
Threads.v
WebSocketChannel.v
WebSocketSession.v
AliyunTts.v
FunAsr.v
AudioQueue.v
EnergyDetect.v
PhraseMacro.v
SpeakText.v
FileCalls.v
RecordFile.v
GenTones.v
PlaySpeed.v
PlayFile.v
CollectInput.v
DigitInput.v
