(* ===== verification/Prelude.v ===== *)
(** * Verification of the easycallcenter365 FreeSWITCH modules and libraries

    The repository extends FreeSWITCH for call centres.  Its own code has three
    layers: a replacement of [src/switch_ivr_play_say.c] (prompts, phrases, speech
    and digits on a call), two modules that connect a call to speech servers over
    WebSocket ([src/mod/asr_tts/mod_aliyun_tts], text to speech, and
    [src/mod/asr_tts/mod_funasr], speech recognition, on top of the audio queue of
    [src/include/audio_queue.h]), and the network library libhv ([libs/libhv]) that
    carries these connections.  The modules call the WebSocket client of libhv,
    whose frames are parsed and built by [http/websocket_parser.c] on streams that
    the event layer reads; the core of FreeSWITCH, which all of this calls, is not
    part of the repository.

    ** The files

    Common parts:
    - Prelude.v (this file): machine integers, bytes, buffers read and written by
      index, the normal forms and tactics for bit operations.
    - Interaction.v: a handler is a tree of the calls it makes of code outside of
      the repository; [exec] gives its traces, [wp] a weakest precondition over a
      ghost state, [run] its execution against an environment.  A theorem holds of
      every trace, that is, whatever the called code answers; where it relies on
      documented answers they are a predicate ([legal_trace]).  A call that does
      not return is a partial run ([held], and [follows] to prove of it).
    - Threads.v: several such handlers on a shared state, one call a step; [safe]
      is the precondition under rely and guarantee, [pool_sound] and [pool_keeps]
      compose it over all threads, [play] executes a schedule.
    - SwitchCore.v: the statuses, C strings and calls of the FreeSWITCH core.

    libhv:
    - HBase.v, [base/hbase.c]: string functions, wildcards, numbers with units, the
      URL parser.  A URL printed from its parts is parsed into them and all spans
      of any URL lie in the string; wildcard matching is a relation on strings.
    - Base64.v, [util/base64.c]: the encoder is RFC 4648, the decoder inverts it.
    - Varint.v, [base/hmath.h]: the round trip of variable-length integers, and the
      powers of two next to a number.
    - BlockHash.v, Sha1.v and Md5.v, [util/sha1.c] and [util/md5.c]: hashes that take a
      message in pieces through a block of 64 bytes.  The unrolled rounds are the
      steps of FIPS 180 and of RFC 1321, and the digest does not depend on the
      pieces ([sha1_any_pieces], [md5_any_pieces]).
    - Unpack.v, [event/unpack.c] and the reading part of [event/hevent.c]: the three
      ways to split a stream satisfy one contract (the class [Framing]), so the packages
      delivered do not depend on how the stream arrives; a length field that wraps
      round makes the loop spin.
    - WriteQueue.v, [base/queue.h] and the writing part of [event/nio.c]: what cannot
      be sent at once is queued on an interface (the class [Fifo], implemented by
      the growing array) and sent in order; no buffer is freed twice unless the
      write callback closes an io that is being closed, which is shown to fail.
    - Heap.v, [base/heap.h]: the heap of the timers, whose nodes are linked by
      pointers, implements a set with a least element at the root (the class
      [MinSet]).
    - Cron.v, [cron_next_timeout] of [base/htime.c]: the next time of a pattern, over
      the calendar of the C library, is later, within a period and on the pattern.
    - EventLoop.v, the timers and idle events of [event/hloop.c], over any [MinSet]:
      events live in a store of allocated addresses and hang on the lists of pending
      events by pointers.  The due timers fire, each once; from any reachable state
      an iteration uses no freed event and leaves nothing pending, unless a callback
      resets and then deletes a pending event, which is shown to fail.
    - IoWatcher.v, the ios of [event/hloop.c] over the back ends of the loop: what
      [hio_add], [hio_del] and polling need of a back end is the class
      [IoWatcherLaws], which [event/epoll.c] and [event/poll.c] satisfy for kernels
      that answer as documented.  Over any such back end the calls, in any order,
      watch and report exactly what they mean ([io_calls_refine]); [event/select.c]
      and [event/kqueue.c] are shown not to.
    - RbTree.v, [base/rbtree.c]: a pointer into a red-black tree is a position in a
      tree with a hole.  Every operation keeps the colour rules and does to the
      nodes, in order, what it is for ([rb_tree_operations]).
    - Rudp.v, [event/rudp.c] on it: the peers of a datagram socket are a map from
      addresses to entries ([rudp_refines]), searched in logarithmic time
      ([rudp_search_rounds]); closing a peer twice, or one that is unknown, is
      shown to use an entry that is freed or without an io.
    - WebSocketParser.v, [http/websocket_parser.c]: parsing a stream in any pieces
      calls back as the frames of an abstract reader ([websocket_execute_chunks]),
      for callbacks that keep a law (a class); sizes; a wrap of the length.
    - WebSocketClient.v, [http/WebSocketParser.cpp]: the callbacks that make messages
      of frames satisfy that law; a frame built is read back.
    - WebSocketChannel.v, [http/wsdef.c] and [http/WebSocketChannel.cpp]: the key of the
      handshake is that of RFC 6455; several threads send messages, cut into
      fragments under a mutex, and every message reaches the reader of the peer
      once and uncut ([channel_delivers]).
    - WebSocketSession.v, [http/client/WebSocketClient.cpp] on [evpp/TcpClient.h] and
      [evpp/Channel.h]: the client of the modules, a state machine driven by its
      loop, over an interface of HTTP parsers (the class [HttpParser]).  From the
      handshake on, what the threads of a server send is what the client gives
      to its callbacks ([session_delivers]); the delays between attempts to
      reconnect ([reconnect_delays]).

    The call and its modules:
    - AudioQueue.v, [src/include/audio_queue.h]: the operations on a buffer with
      laws (a class with an instance), and the threads as a step relation; what is
      read is what was written, in order.
    - EnergyDetect.v, PhraseMacro.v, SpeakText.v, CollectInput.v and DigitInput.v,
      [src/switch_ivr_play_say.c]: waiting for silence and detecting audio; phrase
      macros; speaking text with a cached engine; collecting digits or speech, and
      soft hold; reading and validating digits.  Their theorems say what a handler
      returns on every branch, that it releases what it acquired, and that loops
      with a timeout end.
    - FileCalls.v, RecordFile.v, GenTones.v, PlaySpeed.v and PlayFile.v, the rest of
      [src/switch_ivr_play_say.c]: the calls on file handles, codecs and buffers, and
      the parts of the loops that are shared; recording a call; tones and the handle
      of a playback; the change of speed; playing a list of files.  A recording is
      the frames of the call, with packets for its comfort noise, a playback the bytes of the file, each in order; both
      are reported by pairs of events and give back what they opened, with the
      exceptions that are shown.  What is expected is computed from the answers
      of the core alone (the frames read, the files opened), and compared with what
      the code writes and fires ([record_is_the_call], [play_reported]).
    - AliyunTts.v, [mod_aliyun_tts.cpp]: an instance and its threads.  The playback
      events pair up and the queued texts go out in order under every interleaving;
      a read is bounded; what opening keeps when it fails.
    - FunAsr.v, [mod_funasr.cpp]: an instance and its threads.  The sending threads
      end and destroy the instance once, unless the last is held in its wait for the
      end of the call ([connections_end]; the signal can be lost, [lost_wakeup]); exactly the whole frames are sent; nothing
      reaches a second connection.

    ** Conventions

    A definition has the name of the C function or variable it models; a helper is
    named after the part of the function it is.  A C integer is a [Z], with the
    wrap of its type written out where it can matter.  A pointer into a buffer is an
    offset; an access out of bounds is [None].  A [volatile] or atomic variable of a
    module is read and written by calls of its own.  Log output is left out.
    Theorems about races exhibit a schedule with [play], that is, by computation.

    ** Fuel

    Loops that are not structural take fuel.  The loops over a stream (Unpack.v,
    WebSocketParser.v), over a text and over a buffer are given as much fuel as
    there are bytes, which the theorems show is enough.  The loops of a call have no
    bound of their own in C: [detect_terminates], [collect_input_terminates] and
    [connections_end] show that a timeout, or the end of the call, bounds them, and
    how much fuel that takes (for a thread that is not held in a wait), and [record_limit_ends] that a recording with a limit
    takes as many rounds as a clock needs to pass it; the loops of tones and
    playbacks wait for the call alone, and the safety theorems about these hold of
    every run, finished or out of fuel.  [speed_loop] is given the samples to write
    and one more, which [change_speed_ok] shows to be enough; [param_groups] the
    length of the path and one more, since every round drops a character.  [read_blocking] of AliyunTts.v is used with 101
    iterations, of which it can use at most 101 (2000 ms in steps of 20 and the last
    test).  [path_loop] and the walks and sifts of Heap.v are given the bits and the
    number of the elements; the loops of EventLoop.v over timers and lists take any
    fuel above the number of allocated events, and [advance] one more than the time
    to make up.  The loops of the hashes take a round for every block, and 64 for the
    padding; [log_loop] takes 64, the bits of a number; [send_rest] more than there
    are bytes to send; the loops of [select] a round for every descriptor up to
    [max_fd]; the loops of a red-black tree two rounds more than there are nodes
    ([fuel_of]), and [cleanup_loop] one more than there are entries.

    ** Not modelled

    - Third-party code that the repository includes: [json.hpp], [http_parser.c],
      [multipart_parser.c], wepoll, kcp (so [WITH_KCP] is off), cJSON and rapidjson.
    - libhv outside of the files above: the Solaris and Windows back ends of the event
      loop, its posted events, reading, accepting and connecting sockets, TLS, the HTTP server
      and client, MQTT and the other protocols, the other C++ wrappers, threads and logs.
      They are system calls, callbacks and containers of the C++ library; the modules
      use none of the other protocols.
    - [AccessToken.hpp] and [AliyunToken.hpp], which request a token over HTTP; the
      token is an answer of the environment ([token_apply]).
    - The registration of the modules, the XML configuration of the TTS module, the
      configuration files, sounds, SQL and documentation. *)

From stdpp Require Export base list list_numbers gmap strings.
From Stdlib Require Export ZArith Lia.

#[global] Open Scope Z_scope.

(** ** Machine integers

    A C integer is a [Z]; the wrap-around of an unsigned type is written out by
    these functions, and [wrap_i32] is the two's complement reading the
    implementation gives to a conversion to [int]. *)

Definition u8 (z : Z) : Z := z mod 2 ^ 8.
Definition u16 (z : Z) : Z := z mod 2 ^ 16.
Definition u32 (z : Z) : Z := z mod 2 ^ 32.
Definition u64 (z : Z) : Z := z mod 2 ^ 64.
Definition i32 (z : Z) : Z := (z + 2 ^ 31) mod 2 ^ 32 - 2 ^ 31.

(** A byte, and a buffer of bytes. *)
Definition is_byte (b : Z) : Prop := 0 <= b < 256.
Notation bytes_ok := (Forall is_byte).

Create HintDb cdev.

Lemma u8_byte z : is_byte (u8 z).
Proof. unfold is_byte, u8. pose proof (Z.mod_pos_bound z (2 ^ 8)). lia. Qed.

Lemma u8_small z : is_byte z -> u8 z = z.
Proof. intros [? ?]. apply Z.mod_small. lia. Qed.

Lemma u32_range z : 0 <= u32 z < 2 ^ 32.
Proof. apply Z.mod_pos_bound. lia. Qed.

Lemma u32_small z : 0 <= z < 2 ^ 32 -> u32 z = z.
Proof. apply Z.mod_small. Qed.

Lemma u64_small z : 0 <= z < 2 ^ 64 -> u64 z = z.
Proof. apply Z.mod_small. Qed.

Lemma i32_small z : - 2 ^ 31 <= z < 2 ^ 31 -> i32 z = z.
Proof. intros ?. unfold i32. rewrite Z.mod_small; lia. Qed.

#[export] Hint Resolve u8_byte u32_range : cdev.
#[export] Hint Rewrite u8_small u32_small u64_small using lia : cdev.

(** Normal forms for shifts and masks by constants: they turn bit operations
    into the division and modulo that [lia] understands. *)
Lemma shiftr_div a n : 0 <= n -> Z.shiftr a n = a / 2 ^ n.
Proof. apply Z.shiftr_div_pow2. Qed.

Lemma shiftl_mul a n : 0 <= n -> Z.shiftl a n = a * 2 ^ n.
Proof. apply Z.shiftl_mul_pow2. Qed.

Lemma land_mask a n : 0 <= n -> Z.land a (2 ^ n - 1) = a mod 2 ^ n.
Proof. intros. rewrite <- Z.land_ones by lia. by rewrite Z.ones_equiv. Qed.

(** Two numbers whose bits do not overlap: bitwise or is addition. *)
Lemma lor_add_low a b n : 0 <= n -> 0 <= b < 2 ^ n ->
  Z.lor (a * 2 ^ n) b = a * 2 ^ n + b.
Proof.
  intros Hn Hb. rewrite <- Z.add_lor_land.
  assert (Z.land (a * 2 ^ n) b = 0) as ->; [|lia].
  apply Z.bits_inj'. intros i Hi. rewrite Z.land_spec, Z.bits_0.
  destruct (Z.lt_ge_cases i n).
  - by rewrite Z.mul_pow2_bits_low.
  - rewrite <- (Z.mod_small b (2 ^ n)) by lia.
    rewrite Z.mod_pow2_bits_high by lia. apply andb_false_r.
Qed.

Lemma land_byte z : is_byte (Z.land z 0xFF).
Proof. change 255 with (2 ^ 8 - 1). rewrite land_mask by lia. apply u8_byte. Qed.

Lemma lxor_byte a b : is_byte a -> is_byte b -> is_byte (Z.lxor a b).
Proof.
  intros Ha Hb. rewrite <- (u8_small a), <- (u8_small b) by done. unfold u8.
  assert (Z.lxor (a mod 2 ^ 8) (b mod 2 ^ 8) = Z.lxor a b mod 2 ^ 8) as ->; [|apply u8_byte].
  apply Z.bits_inj'. intros i Hi. rewrite Z.lxor_spec. destruct (Z.lt_ge_cases i 8).
  - by rewrite !Z.mod_pow2_bits_low, Z.lxor_spec.
  - by rewrite !Z.mod_pow2_bits_high by lia.
Qed.
#[export] Hint Resolve land_byte lxor_byte : cdev.

(** [bitsimpl] rewrites the shifts and masks by literal constants. *)
Ltac bitsimpl_mask m n :=
  match goal with |- context [Z.land ?a m] =>
    change (Z.land a m) with (Z.land a (2 ^ n - 1)); rewrite (land_mask a n) by lia
  end.
Ltac bitsimpl :=
  rewrite ?shiftr_div, ?shiftl_mul by lia;
  repeat first
    [ bitsimpl_mask 1 1 | bitsimpl_mask 3 2 | bitsimpl_mask 7 3
    | bitsimpl_mask 15 4 | bitsimpl_mask 31 5 | bitsimpl_mask 63 6
    | bitsimpl_mask 127 7 | bitsimpl_mask 255 8 | bitsimpl_mask 65535 16 ].

(** [div_lia]: linear arithmetic with division and modulo by constants. *)
Ltac pow_consts :=
  repeat match goal with
    | |- context [2 ^ Zpos ?n] => let v := eval vm_compute in (2 ^ Zpos n) in
                                  change (2 ^ Zpos n) with v
    | H : context [2 ^ Zpos ?n] |- _ => let v := eval vm_compute in (2 ^ Zpos n) in
                                  change (2 ^ Zpos n) with v in H
    end.
Ltac div_lia := pow_consts; Z.to_euclidean_division_equations; lia.

(** ** Lists *)

Lemma lookup_app_at {A} (l k : list A) (n : nat) (x : A) :
  n = length l -> (l ++ x :: k) !! n = Some x.
Proof. intros ->. rewrite lookup_app_r, Nat.sub_diag; [done|lia]. Qed.

Lemma Forall_bytes_app (l k : list Z) : bytes_ok l -> bytes_ok k -> bytes_ok (l ++ k).
Proof. intros. by apply Forall_app. Qed.
#[export] Hint Resolve Forall_bytes_app : cdev.

(** Induction three elements at a time. *)
Lemma list_ind3 {A} (P : list A -> Prop) :
  P [] -> (forall a, P [a]) -> (forall a b, P [a; b]) ->
  (forall a b c l, P l -> P (a :: b :: c :: l)) -> forall l, P l.
Proof.
  intros H0 H1 H2 H3.
  assert (forall l, P l /\ (forall a, P (a :: l)) /\ (forall a b, P (a :: b :: l))) as H.
  { induction l as [|x l (IH & IH1 & IH2)]; eauto 10. }
  intros l. apply H.
Qed.

(** [rd l i]: the read [l[i]] at a machine index; [None] is a read out of range. *)
Definition rd {A} (l : list A) (i : Z) : option A :=
  if decide (0 <= i) then l !! Z.to_nat i else None.

Lemma rd_nat {A} (l : list A) i : 0 <= i -> rd l i = l !! Z.to_nat i.
Proof. intros. unfold rd. by rewrite decide_True. Qed.

Lemma rd_app {A} (l k : list A) n i :
  n = Z.of_nat (length l) -> 0 <= i -> rd (l ++ k) (n + i) = rd k i.
Proof.
  intros -> ?. rewrite !rd_nat, lookup_app_r by lia. f_equal. lia.
Qed.

Lemma rd_app_here {A} (l k : list A) x i :
  i = Z.of_nat (length l) -> rd (l ++ x :: k) i = Some x.
Proof. intros ->. rewrite rd_nat by lia. apply lookup_app_at. lia. Qed.

Lemma rd_oob {A} (l : list A) i : Z.of_nat (length l) <= i -> rd l i = None.
Proof. intros. rewrite rd_nat by lia. apply lookup_ge_None. lia. Qed.

Lemma rd_cons {A} (l : list A) x i : 0 < i -> rd (x :: l) i = rd l (i - 1).
Proof.
  intros. rewrite !rd_nat by lia.
  by replace (Z.to_nat i) with (S (Z.to_nat (i - 1))) by lia.
Qed.

Lemma rd_zero {A} (l : list A) x : rd (x :: l) 0 = Some x.
Proof. reflexivity. Qed.

(** Writing a list of values at an offset of a buffer (C's [memcpy] to
    [&buf[n]]); [None] when a byte would fall outside of the buffer. *)
Definition splice {A} (buf : list A) (n : nat) (src : list A) : option (list A) :=
  if decide (n + length src <= length buf)%nat
  then Some (take n buf ++ src ++ drop (n + length src) buf) else None.

Lemma length_splice {A} (buf : list A) n src r :
  splice buf n src = Some r -> length r = length buf.
Proof.
  unfold splice. case_decide; [|done]. intros [= <-].
  rewrite !length_app, length_take, length_drop. lia.
Qed.

(** Setting one cell of an array; [None] out of range. *)
Definition store {A} (buf : list A) (n : nat) (x : A) : option (list A) :=
  if decide (n < length buf)%nat then Some (<[n:=x]> buf) else None.

Lemma store_app_at {A} (l k : list A) n x y :
  n = length l -> store (l ++ x :: k) n y = Some (l ++ y :: k).
Proof.
  intros ->. unfold store. rewrite decide_True.
  - by rewrite insert_app_r_alt, Nat.sub_diag by lia.
  - rewrite length_app. simpl. lia.
Qed.

(** ** The option monad's reasoning steps *)

Lemma bind_Some_inv {A B} (f : A -> option B) (m : option A) (r : B) :
  m ≫= f = Some r -> exists a, m = Some a /\ f a = Some r.
Proof. destruct m; [eauto|done]. Qed.
