(* ===== verification/HBase.v ===== *)
(** * String and URL utilities of libhv: [src/libs/libhv/base/hbase.c]

    A C string is the list of its characters before the NUL; a pointer into a
    string is an offset, or the suffix it points to. *)

From Stdlib Require Import Ascii String.
From S2P Require Import Prelude.

#[local] Open Scope list_scope.
#[local] Open Scope Z_scope.

Notation cstring := (list ascii).
Notation "'lit' s" := (list_ascii_of_string s) (at level 9, only parsing).
Notation NUL := "000"%char.

(** The value of a [char]: signed. *)
Definition char_code (c : ascii) : Z := Z.of_N (N_of_ascii c).
Definition schar (c : ascii) : Z := if decide (char_code c < 128) then char_code c else char_code c - 256.

(** ** Case and order *)

Definition is_lower (c : ascii) : bool := bool_decide (97 <= schar c <= 122).
Definition is_upper (c : ascii) : bool := bool_decide (65 <= schar c <= 90).

(** [*p &= ~0x20] and [*p |= 0x20] *)
Definition clear_case (c : ascii) : ascii := ascii_of_N (N.ldiff (N_of_ascii c) 32).
Definition set_case (c : ascii) : ascii := ascii_of_N (N.lor (N_of_ascii c) 32).

Fixpoint hv_strupper (s : cstring) : cstring :=
  match s with [] => [] | c :: s' => (if is_lower c then clear_case c else c) :: hv_strupper s' end.
Fixpoint hv_strlower (s : cstring) : cstring :=
  match s with [] => [] | c :: s' => (if is_upper c then set_case c else c) :: hv_strlower s' end.

(** The loop of [hv_strreverse]: [b] and [e] are offsets, [e] may be -1. *)
Fixpoint reverse_loop (fuel : nat) (s : cstring) (b e : Z) : cstring :=
  match fuel with
  | O => s
  | S fuel' =>
      if decide (e > b) then
        match rd s e, rd s b with
        | Some ce, Some cb => reverse_loop fuel' (<[Z.to_nat b := ce]> (<[Z.to_nat e := cb]> s)) (b + 1) (e - 1)
        | _, _ => s
        end
      else s
  end.
Definition hv_strreverse (s : cstring) : cstring := reverse_loop (length s) s 0 (Z.of_nat (length s) - 1).

(** ** Bounded copies: [dest] is the memory from the pointer on *)

(** [while ( *src != 0 && --n > 0) *dest++ = *src++;]: [None] is a store
    outside of the memory.  [n] is a [size_t]. *)
Fixpoint copy_loop (dest : list ascii) (pos : nat) (src : cstring) (n : Z) : option (list ascii * nat) :=
  match src with
  | [] => Some (dest, pos)
  | c :: src' =>
      let n := u64 (n - 1) in
      if decide (n > 0) then dest ← store dest pos c; copy_loop dest (S pos) src' n
      else Some (dest, pos)
  end.

Definition hv_strncpy (dest : list ascii) (src : cstring) (n : Z) : option (list ascii) :=
  '(dest, pos) ← copy_loop dest 0 src n; store dest pos NUL.

(** The length of the C string in a buffer. *)
Fixpoint buf_strlen (buf : list ascii) : option nat :=
  match buf with
  | [] => None
  | c :: b => if decide (c = NUL) then Some 0%nat else option_map S (buf_strlen b)
  end.

Definition hv_strncat (dest : list ascii) (src : cstring) (n : Z) : option (list ascii) :=
  len ← buf_strlen dest;
  '(dest, pos) ← copy_loop dest len src (u64 (n - Z.of_nat len)); store dest pos NUL.

(** ** Tests *)

Fixpoint hv_strstartswith (str start : cstring) : bool :=
  match str, start with
  | c :: str', d :: start' => if decide (c = d) then hv_strstartswith str' start' else false
  | _, [] => true
  | _, _ => false
  end.

(** The loop compares backwards from both ends. *)
Fixpoint ends_loop (str end_ : cstring) (len1 len2 : nat) {struct len2} : bool :=
  match len2 with
  | O => true
  | S k =>
      match len1 with
      | O => false
      | S j => if decide (str !! j = end_ !! k) then ends_loop str end_ j k else false
      end
  end.
Definition hv_strendswith (str end_ : cstring) : bool :=
  if decide (length str < length end_)%nat then false else ends_loop str end_ (length str) (length end_).

(** [strstr]: the offset of the first occurrence. *)
Fixpoint strstr (str sub : cstring) : option nat :=
  if hv_strstartswith str sub then Some 0%nat
  else match str with [] => None | _ :: str' => option_map S (strstr str' sub) end.
Definition hv_strcontains (str sub : cstring) : bool := match strstr str sub with Some _ => true | None => false end.

(** [hv_wildcard_match]: the loop and the last line. *)
Fixpoint hv_wildcard_match (str pattern : cstring) : bool :=
  match str, pattern with
  | c :: str', d :: pattern' =>
      if decide (d = "*"%char) then hv_strendswith str pattern'
      else if decide (c <> d) then false
      else hv_wildcard_match str' pattern'
  | [], [] => true
  | _, _ => false
  end.

(** ** Positions *)

(** [strchr]: the offset of the first occurrence. *)
Fixpoint strchr (s : cstring) (c : ascii) : option nat :=
  match s with [] => None | d :: s' => if decide (d = c) then Some 0%nat else option_map S (strchr s' c) end.

(** [hv_strnchr]: [n] is decremented only for characters other than NUL. *)
Fixpoint hv_strnchr (s : cstring) (c : ascii) (n : nat) : option nat :=
  match s, n with
  | d :: s', S n' => if decide (d = c) then Some 0%nat else option_map S (hv_strnchr s' c n')
  | _, _ => None
  end.

(** [hv_strrchr_dir] and [strrchr]: the offset of the last occurrence. *)
Fixpoint strrchr (s : cstring) (c : ascii) : option nat :=
  match s with
  | [] => None
  | d :: s' =>
      match strrchr s' c with Some i => Some (S i) | None => if decide (d = c) then Some 0%nat else None end
  end.
Definition hv_strrchr_dir (filepath : cstring) : option nat := strrchr filepath "/"%char.
Definition hv_basename (filepath : cstring) : cstring :=
  match hv_strrchr_dir filepath with Some i => drop (i + 1) filepath | None => filepath end.
Definition hv_suffixname (filename : cstring) : cstring :=
  match strrchr filename "."%char with Some i => drop (i + 1) filename | None => [] end.

(** ** Numbers *)

(** [hv_rand] after [rand()] answered [r]: the products of [double]s are exact
    for ranges below 2^22. *)
Definition RAND_MAX : Z := 2 ^ 31 - 1.
Definition hv_rand (min max r : Z) : Z := min + (max - min + 1) * r / (RAND_MAX + 1).

Definition s_characters : cstring := lit "ABCDEFGHIJKLMNOPQRSTUVWXYZabcdefghijklmnopqrstuvwxyz0123456789".
(** [hv_random_string] with the answers of [rand]. *)
Definition hv_random_string (rands : list Z) : list (option ascii) :=
  map (fun r => rd s_characters (hv_rand 0 (Z.of_nat (length s_characters) - 1) r)) rands.

Definition stricmp_eq (a : cstring) (b : string) : bool := bool_decide (hv_strlower a = lit b).
Definition hv_getboolean (str : option cstring) : bool :=
  match str with
  | None => false
  | Some s =>
      match length s with
      | 1%nat => bool_decide (s = lit "1" \/ s = lit "y" \/ s = lit "Y")
      | 2%nat => stricmp_eq s "on"
      | 3%nat => stricmp_eq s "yes"
      | 4%nat => stricmp_eq s "true"
      | 6%nat => stricmp_eq s "enable"
      | _ => false
      end
  end.

Definition is_digit (c : ascii) : bool := bool_decide (48 <= schar c <= 57).

(** The factors of the units; any other character has the factor 1. *)
Definition size_unit (c : ascii) (n : Z) : Z :=
  if decide (c = "K"%char \/ c = "k"%char) then u64 (Z.shiftl n 10)
  else if decide (c = "M"%char \/ c = "m"%char) then u64 (Z.shiftl n 20)
  else if decide (c = "G"%char \/ c = "g"%char) then u64 (Z.shiftl n 30)
  else if decide (c = "T"%char \/ c = "t"%char) then u64 (Z.shiftl n 40)
  else n.

Fixpoint parse_size_loop (s : cstring) (size n : Z) : Z :=
  match s with
  | [] => u64 (size + n)
  | c :: s' =>
      if is_digit c then parse_size_loop s' size (u64 (n * 10 + (schar c - 48)))
      else parse_size_loop s' (u64 (size + size_unit c n)) 0
  end.
Definition hv_parse_size (s : cstring) : Z := parse_size_loop s 0 0.

(** [time_t] is signed: the values are those of the code as long as they fit. *)
Definition time_unit (c : ascii) : Z :=
  if decide (c = "m"%char) then 60 else if decide (c = "h"%char) then 3600
  else if decide (c = "d"%char) then 86400 else if decide (c = "w"%char) then 604800 else 1.

Fixpoint parse_time_loop (s : cstring) (time n : Z) : Z :=
  match s with
  | [] => time + n
  | c :: s' =>
      if is_digit c then parse_time_loop s' time (n * 10 + (schar c - 48))
      else parse_time_loop s' (time + n * time_unit c) 0
  end.
Definition hv_parse_time (s : cstring) : Z := parse_time_loop s 0 0.

(** ** URLs *)

Inductive hurl_field_e :=
| HV_URL_SCHEME | HV_URL_USERNAME | HV_URL_PASSWORD | HV_URL_HOST
| HV_URL_PORT | HV_URL_PATH | HV_URL_QUERY | HV_URL_FRAGMENT.
#[export] Instance hurl_field_eq : EqDecision hurl_field_e.
Proof. solve_decision. Defined.

(** [off] and [len] of each field, and the port: [unsigned short]s. *)
Record hurl_t := mkHurl { fields : hurl_field_e -> Z * Z; url_port : Z }.

Definition no_url : hurl_t := mkHurl (fun _ => (0, 0)) 0.
Definition set_field (u : hurl_t) (f : hurl_field_e) (off len : nat) : hurl_t :=
  mkHurl (fun g => if decide (g = f) then (u16 (Z.of_nat off), u16 (Z.of_nat len)) else fields u g) (url_port u).
Definition set_port (u : hurl_t) (p : Z) : hurl_t := mkHurl (fields u) p.

(** The offset of the first [c] from [sp] on, [end] when there is none. *)
Definition strchr_from (s : cstring) (sp : nat) (c : ascii) : nat :=
  match strchr (drop sp s) c with Some i => (sp + i)%nat | None => length s end.
(** [hv_strnchr(sp, c, ep - sp)] *)
Definition strnchr_from (s : cstring) (sp ep : nat) (c : ascii) : option nat :=
  option_map (Nat.add sp) (hv_strnchr (drop sp s) c (ep - sp)).

(** [stURL->port = stURL->port * 10 + (port[i] - '0')] *)
Definition port_digits (ds : cstring) : Z := fold_left (fun p c => u16 (p * 10 + (schar c - 48))) ds 0.

(** [user:pswd@]: the start of the host. *)
Definition parse_user (s : cstring) (sp ep : nat) (u : hurl_t) : hurl_t * nat :=
  match strnchr_from s sp ep "@"%char with
  | None => (u, sp)
  | Some pos =>
      let '(u, pswd) :=
        match strnchr_from s sp pos ":"%char with
        | Some pswd => (set_field u HV_URL_PASSWORD (pswd + 1) (pos - pswd - 1), pswd)
        | None => (u, pos)
        end in
      (set_field u HV_URL_USERNAME sp (pswd - sp), (pos + 1)%nat)
  end.

(** [host:port] *)
Definition parse_host (s : cstring) (host ep : nat) (u : hurl_t) : hurl_t :=
  let '(u, port) :=
    match strnchr_from s host ep ":"%char with
    | Some port =>
        (set_port (set_field u HV_URL_PORT (port + 1) (ep - port - 1))
           (port_digits (take (ep - port - 1) (drop (port + 1) s))), port)
    | None =>
        (set_port u (if bool_decide ((fields u HV_URL_SCHEME).2 > 0) && hv_strstartswith s (lit "https://") then 443 else 80), ep)
    end in
  set_field u HV_URL_HOST host (port - host).

(** [/path?query#fragment], from the end of the host on. *)
Definition parse_path (s : cstring) (ep : nat) (u : hurl_t) : hurl_t :=
  if decide (ep = length s) then u
  else
    let ep1 := strchr_from s ep "?"%char in
    let u := set_field u HV_URL_PATH ep (ep1 - ep) in
    if decide (ep1 = length s) then u
    else
      let sp := (ep1 + 1)%nat in
      let ep2 := strchr_from s sp "#"%char in
      let u := set_field u HV_URL_QUERY sp (ep2 - sp) in
      if decide (ep2 = length s) then u
      else set_field u HV_URL_FRAGMENT (ep2 + 1) (length s - (ep2 + 1)).

Definition hv_parse_url (s : cstring) : Z * hurl_t :=
  if decide (65535 < Z.of_nat (length s)) then (-2, no_url)
  else
    let '(u, sp) :=
      match strstr s (lit "://") with
      | Some i => (set_field no_url HV_URL_SCHEME 0 i, (i + 3)%nat)
      | None => (no_url, 0%nat)
      end in
    let ep := strchr_from s sp "/"%char in
    let '(u, host) := parse_user s sp ep u in
    (0, parse_path s ep (parse_host s host ep u)).

(** ** Copies stay in their buffer *)

Lemma u64_pred n : 1 <= n < 2 ^ 64 -> u64 (n - 1) = n - 1.
Proof. intros Hn. apply u64_small. lia. Qed.

(** The loop stores as much of [src] as fits before the last place. *)
Lemma copy_loop_ok src : forall done old n, 1 <= n < 2 ^ 64 -> n <= Z.of_nat (length old) ->
  let k := length (take (Z.to_nat (n - 1)) src) in
  copy_loop (done ++ old) (length done) src n =
    Some (done ++ take (Z.to_nat (n - 1)) src ++ drop k old, (length done + k)%nat).
Proof.
  induction src as [|c src IH]; intros done old n Hn Hl; cbn zeta; cbn [copy_loop].
  - rewrite take_nil. cbn. by rewrite drop_0, Nat.add_0_r.
  - rewrite u64_pred by done. case_decide as Hd.
    + destruct old as [|x old]; [cbn in Hl; lia|]. rewrite store_app_at by done. cbn [mbind option_bind].
      replace (done ++ c :: old) with ((done ++ [c]) ++ old) by by rewrite <- app_assoc.
      replace (S (length done)) with (length (done ++ [c])) by (rewrite length_app; cbn; lia).
      rewrite IH by (cbn in Hl; lia). replace (Z.to_nat (n - 1)) with (S (Z.to_nat (n - 1 - 1))) by lia.
      cbn [take length drop]. rewrite <- app_assoc. do 2 f_equal. rewrite length_app. cbn. lia.
    + replace (Z.to_nat (n - 1)) with 0%nat by lia. cbn. by rewrite drop_0, Nat.add_0_r.
Qed.

Lemma store_nul (done old : list ascii) : old <> [] ->
  store (done ++ old) (length done) NUL = Some (done ++ NUL :: drop 1 old).
Proof. intros Ho. destruct old as [|x old]; [done|]. by rewrite store_app_at. Qed.

Lemma buf_strlen_ok s rest : NUL ∉ s -> buf_strlen (s ++ NUL :: rest) = Some (length s).
Proof.
  induction s as [|c s IH]; intros Hs; cbn; [done|]. rewrite not_elem_of_cons in Hs. destruct Hs as [Hc Hs].
  rewrite decide_False by done. by rewrite IH.
Qed.

(** [hv_strncpy] and [hv_strncat] with the size of the buffer, and for the
    latter with a string shorter than the size, write only inside of the
    buffer: the result is the (first) string, as much of [src] as fits, a NUL,
    and the old contents after it. *)
Theorem bounded_copies dest src n :
  1 <= n < 2 ^ 64 -> n <= Z.of_nat (length dest) ->
  let copied := take (Z.to_nat (n - 1)) src in
  hv_strncpy dest src n = Some (copied ++ NUL :: drop (length copied + 1) dest) /\
  (forall s rest, dest = s ++ NUL :: rest -> NUL ∉ s -> Z.of_nat (length s) < n ->
   let copied := take (Z.to_nat (n - Z.of_nat (length s) - 1)) src in
   hv_strncat dest src n = Some (s ++ copied ++ NUL :: drop (length s + length copied + 1) dest)).
Proof.
  intros Hn Hl. split.
  - unfold hv_strncpy. pose proof (copy_loop_ok src [] dest n Hn Hl) as E. cbn zeta in E. cbn [app length] in E.
    rewrite E. cbn [mbind option_bind plus]. set (copied := take (Z.to_nat (n - 1)) src).
    rewrite store_nul, drop_drop; [done|]. intros Hd. apply (f_equal length) in Hd. subst copied.
    rewrite length_drop, length_take in Hd. cbn in Hd. lia.
  - intros s rest -> Hs Hsn. cbn zeta. unfold hv_strncat. rewrite buf_strlen_ok by done. cbn [mbind option_bind].
    rewrite u64_small by lia. set (m := n - Z.of_nat (length s)).
    assert (Hm : 1 <= m <= Z.of_nat (length (NUL :: rest))) by (rewrite length_app in Hl; subst m; lia).
    rewrite copy_loop_ok by lia. cbn [mbind option_bind]. set (copied := take (Z.to_nat (m - 1)) src).
    rewrite app_assoc, <- (length_app s), store_nul.
    + rewrite <- app_assoc, drop_drop. do 3 f_equal. f_equal.
      rewrite length_app, drop_app_ge by lia. f_equal. lia.
    + intros Hd. apply (f_equal length) in Hd. subst copied. rewrite length_drop, length_take in Hd. cbn in *. lia.
Qed.

(** ** The reverse *)

Lemma reverse_loop_ok : forall fuel pre mid post, (length mid <= fuel)%nat ->
  reverse_loop fuel (pre ++ mid ++ post) (Z.of_nat (length pre)) (Z.of_nat (length pre + length mid) - 1) =
  pre ++ rev mid ++ post.
Proof.
  induction fuel as [|fuel IH]; intros pre mid post Hf; [destruct mid; [done|cbn in Hf; lia]|].
  cbn [reverse_loop]. case_decide as Hd.
  - destruct mid as [|x mid]; [cbn in Hd; lia|].
    destruct mid as [|y mid _] using rev_ind; [cbn in Hd; lia|].
    assert (Hlen : length (x :: mid ++ [y]) = S (S (length mid))) by (cbn; rewrite length_app; cbn; lia).
    rewrite Hlen in *.
    replace (pre ++ (x :: mid ++ [y]) ++ post) with ((pre ++ x :: mid) ++ y :: post) by by rewrite <- !app_assoc; cbn; rewrite <- app_assoc.
    replace (Z.of_nat (length pre + S (S (length mid))) - 1) with (Z.of_nat (length (pre ++ x :: mid))) by (rewrite length_app; cbn; lia).
    rewrite !rd_nat, !Nat2Z.id by lia. rewrite lookup_app_at by done.
    rewrite <- (app_assoc pre). cbn [app]. rewrite lookup_app_at by done.
    replace (length (pre ++ x :: mid)) with (length (pre ++ x :: mid) + 0)%nat at 1 by lia.
    rewrite (app_assoc pre (x :: mid) (y :: post) : pre ++ x :: mid ++ y :: post = _), insert_app_r.
    cbn [list_insert insert]. rewrite <- app_assoc. replace (length pre) with (length pre + 0)%nat at 1 by lia.
    rewrite insert_app_r. cbn [app]. specialize (IH (pre ++ [y]) mid (x :: post)).
    rewrite length_app in IH. cbn [length] in IH. rewrite <- !app_assoc in IH. cbn [app] in IH.
    cbn [rev]. rewrite rev_app_distr. cbn [rev app]. rewrite <- app_assoc. cbn [app] in *.
    rewrite <- IH by lia. f_equal; rewrite ?length_app; cbn; lia.
  - destruct mid as [|x [|y mid]]; [done..|cbn in Hd; lia].
Qed.

(** [hv_strreverse] reverses; the fuel is enough. *)
Lemma hv_strreverse_rev s : hv_strreverse s = rev s.
Proof.
  unfold hv_strreverse. pose proof (reverse_loop_ok (length s) [] s [] ltac:(done)) as E.
  rewrite !app_nil_r in E. exact E.
Qed.

(** ** Wildcards *)

Lemma startswith_prefix str start : hv_strstartswith str start = true <-> start `prefix_of` str.
Proof.
  revert start. induction str as [|c str IH]; intros [|d start]; cbn.
  - split; [intros _; apply prefix_nil | done].
  - split; [done|]. by intros H%prefix_nil_inv.
  - split; [intros _; apply prefix_nil | done].
  - case_decide as Hc.
    + subst d. rewrite IH. split; [apply prefix_cons | apply prefix_cons_inv_2].
    + split; [done|]. intros H%prefix_cons_inv_1. congruence.
Qed.

Lemma ends_loop_suffix str end_ : forall k j, (k <= length end_)%nat -> (j <= length str)%nat -> (k <= j)%nat ->
  ends_loop str end_ j k = true <-> take k end_ `suffix_of` take j str.
Proof.
  induction k as [|k IH]; intros j Hk Hj Hkj; cbn.
  - split; [intros _; apply suffix_nil | done].
  - destruct j as [|j]; [lia|].
    destruct (lookup_lt_is_Some_2 end_ k) as [d Hd]; [lia|]. destruct (lookup_lt_is_Some_2 str j) as [c Hc]; [lia|].
    rewrite Hc, Hd, (take_S_r _ _ _ Hd), (take_S_r _ _ _ Hc). case_decide as E.
    + injection E as ->. rewrite IH by lia. split; [apply suffix_app | apply suffix_app_inv].
    + split; [done|]. intros H. apply suffix_snoc_inv_1 in H. congruence.
Qed.

Lemma endswith_suffix str end_ : hv_strendswith str end_ = true <-> end_ `suffix_of` str.
Proof.
  unfold hv_strendswith. case_decide as Hl.
  - split; [done|]. intros H. apply suffix_length in H. lia.
  - rewrite ends_loop_suffix by lia. by rewrite !firstn_all.
Qed.

(** A pattern with a star matches what is before the star, then at least one
    character in all, then what is after the star, where a further star is an
    ordinary character. *)
Definition wildcard_spec (str pattern : cstring) : Prop :=
  ("*"%char ∉ pattern /\ str = pattern) \/
  exists before after rest, pattern = before ++ "*"%char :: after /\ "*"%char ∉ before /\
    str = before ++ rest /\ rest <> [] /\ after `suffix_of` rest.

(** [hv_wildcard_match] is that relation. *)
Theorem wildcard_match_spec str pattern : hv_wildcard_match str pattern = true <-> wildcard_spec str pattern.
Proof.
  revert pattern. induction str as [|c str IH]; intros pattern; cbn.
  - split.
    + destruct pattern; [|done]. intros _. left. split; [apply not_elem_of_nil | done].
    + intros [[_ <-]|(b & a & r & -> & _ & E & Hr & _)]; [done|]. by destruct b, r.
  - destruct pattern as [|d pattern].
    { split; [done|]. intros [[_ ?]|(b & a & r & E & _)]; [done|]. by destruct b. }
    case_decide as Hd; [|case_decide as Hc].
    + subst d. rewrite endswith_suffix. split.
      * intros Hs. right. exists [], pattern, (c :: str). split_and!; try done. apply not_elem_of_nil.
      * intros [[Hn _]|([|x b] & a & r & E & Hb & E2 & Hr & Hs)].
        -- rewrite not_elem_of_cons in Hn. by destruct Hn.
        -- injection E as ->. cbn in E2. by subst r.
        -- injection E as <- ->. rewrite not_elem_of_cons in Hb. by destruct Hb.
    + split; [done|]. intros [[_ E]|([|x b] & a & r & E & Hb & E2 & Hr & Hs)]; [congruence | cbn in E; congruence |].
      injection E as <- _. injection E2. congruence.
    + assert (d = c) as -> by (by destruct (decide (c = d))). rewrite IH. split.
      * intros [[Hn ->]|(b & a & r & -> & Hb & -> & Hr & Hs)]; [left | right].
        -- split; [|done]. rewrite not_elem_of_cons. split; [congruence | done].
        -- exists (c :: b), a, r. split_and!; try done. rewrite not_elem_of_cons. split; [congruence | done].
      * intros [[Hn E]|([|x b] & a & r & E & Hb & E2 & Hr & Hs)]; [left | cbn in E; congruence | right].
        -- rewrite not_elem_of_cons in Hn. split; [by destruct Hn | by injection E].
        -- injection E as <- ->. injection E2 as ->. rewrite not_elem_of_cons in Hb. destruct Hb. by exists b, a, r.
Qed.

(** ** Sizes and times *)

Definition dec (ds : cstring) : Z := fold_left (fun n c => n * 10 + (schar c - 48)) ds 0.

Definition size_factor (c : ascii) : Z :=
  if decide (c = "K"%char \/ c = "k"%char) then 2 ^ 10 else if decide (c = "M"%char \/ c = "m"%char) then 2 ^ 20
  else if decide (c = "G"%char \/ c = "g"%char) then 2 ^ 30 else if decide (c = "T"%char \/ c = "t"%char) then 2 ^ 40 else 1.

(** Numbers each followed by its unit. *)
Definition segments (segs : list (cstring * ascii)) : cstring := concat (map (fun '(ds, c) => ds ++ [c]) segs).
Definition total (factor : ascii -> Z) (segs : list (cstring * ascii)) : Z :=
  foldr (fun '(ds, c) t => dec ds * factor c + t) 0 segs.
Definition segments_ok (segs : list (cstring * ascii)) : Prop :=
  Forall (fun '(ds, c) => Forall (fun d => is_digit d = true) ds /\ is_digit c = false) segs.

Lemma u64_mod_add a b : u64 (u64 a + b) = u64 (a + b).
Proof. unfold u64. by rewrite Zplus_mod_idemp_l. Qed.

Lemma size_unit_factor c n : size_unit c (u64 n) = u64 (n * size_factor c).
Proof.
  unfold size_unit, size_factor. repeat case_decide; rewrite ?shiftl_mul by lia; unfold u64;
    rewrite ?Zmult_mod_idemp_l; try done. by rewrite Z.mul_1_r.
Qed.

Lemma parse_size_digits ds s size : forall n, Forall (fun d => is_digit d = true) ds ->
  parse_size_loop (ds ++ s) size (u64 n) =
  parse_size_loop s size (u64 (fold_left (fun n c => n * 10 + (schar c - 48)) ds n)).
Proof.
  intros n Hds. revert n. induction Hds as [|c ds Hc Hds IH]; intros n; [done|].
  cbn [app parse_size_loop fold_left]. rewrite Hc, <- IH. f_equal. unfold u64.
  by rewrite <- Zplus_mod_idemp_l, Zmult_mod_idemp_l, Zplus_mod_idemp_l.
Qed.

Lemma parse_size_segments segs s : forall size, segments_ok segs ->
  parse_size_loop (segments segs ++ s) (u64 size) 0 = parse_size_loop s (u64 (size + total size_factor segs)) 0.
Proof.
  intros size Hsegs. revert size. induction Hsegs as [|[ds c] segs [Hds Hc] Hsegs IH]; intros size.
  - cbn. by rewrite Z.add_0_r.
  - unfold segments. cbn [map concat total foldr]. rewrite <- !app_assoc.
    rewrite (parse_size_digits ds _ _ 0) by done. cbn [app parse_size_loop]. rewrite Hc, size_unit_factor.
    fold (segments segs). fold (dec ds). rewrite u64_mod_add.
    replace (u64 (size + u64 (dec ds * size_factor c))) with (u64 (size + dec ds * size_factor c))
      by (unfold u64; by rewrite Zplus_mod_idemp_r).
    rewrite IH. f_equal. f_equal. unfold total. lia.
Qed.

Lemma parse_time_digits ds s time : forall n, Forall (fun d => is_digit d = true) ds ->
  parse_time_loop (ds ++ s) time n = parse_time_loop s time (fold_left (fun n c => n * 10 + (schar c - 48)) ds n).
Proof.
  intros n Hds. revert n. induction Hds as [|c ds Hc Hds IH]; intros n; [done|].
  cbn [app parse_time_loop fold_left]. by rewrite Hc, <- IH.
Qed.

(** [hv_parse_size] and [hv_parse_time] of numbers with units, and of a
    last number without one, are the sums of the numbers times their units; the
    size modulo 2^64. *)
Theorem parse_sums segs last :
  segments_ok segs -> Forall (fun d => is_digit d = true) last ->
  hv_parse_size (segments segs ++ last) = u64 (total size_factor segs + dec last) /\
  hv_parse_time (segments segs ++ last) = total time_unit segs + dec last.
Proof.
  intros Hsegs Hlast. split.
  - unfold hv_parse_size. change 0 with (u64 0) at 1. rewrite parse_size_segments by done. cbn [Z.add].
    rewrite <- (app_nil_r last), (parse_size_digits last [] _ 0) by done. cbn. rewrite app_nil_r. fold (dec last).
    rewrite u64_mod_add. unfold u64. by rewrite Zplus_mod_idemp_r.
  - unfold hv_parse_time. replace (total time_unit segs) with (0 + total time_unit segs) by lia. generalize 0 at 1 3.
    induction Hsegs as [|[ds c] segs [Hds Hc] Hsegs IH]; intros t.
    + cbn. rewrite <- (app_nil_r last) at 1. rewrite parse_time_digits by done. cbn. fold (dec last). lia.
    + unfold segments. cbn [map concat total foldr]. rewrite <- !app_assoc, parse_time_digits by done.
      cbn [app parse_time_loop]. rewrite Hc. fold (dec ds). fold (segments segs). rewrite IH. unfold total. lia.
Qed.

(** ** URLs round trip *)

(** The parts of a URL; a query needs a path and a fragment a query, as the code
    reads them (the path without its '/'). *)
Record url := mkUrl {
  scheme : option cstring;
  user : option (cstring * option cstring);
  host : cstring;
  port : option cstring;
  path : option (cstring * option (cstring * option cstring));
}.

Definition print_scheme (o : option cstring) : cstring := match o with Some sc => sc ++ lit "://" | None => [] end.
Definition print_user (o : option (cstring * option cstring)) : cstring :=
  match o with
  | Some (n, Some w) => n ++ ":"%char :: w ++ ["@"%char]
  | Some (n, None) => n ++ ["@"%char]
  | None => []
  end.
Definition print_port (o : option cstring) : cstring := match o with Some ds => ":"%char :: ds | None => [] end.
Definition print_query (o : option (cstring * option cstring)) : cstring :=
  match o with
  | Some (q, Some f) => "?"%char :: q ++ "#"%char :: f
  | Some (q, None) => "?"%char :: q
  | None => []
  end.
Definition print_path (o : option (cstring * option (cstring * option cstring))) : cstring :=
  match o with Some (p, q) => "/"%char :: p ++ print_query q | None => [] end.
Definition authority (u : url) : cstring := print_user (user u) ++ host u ++ print_port (port u).
Definition print_url (u : url) : cstring := print_scheme (scheme u) ++ authority u ++ print_path (path u).

Definition without (cs : list ascii) (s : cstring) : Prop := Forall (fun c => c ∉ cs) s.

(** No part holds a character that ends it. *)
Record url_ok (u : url) : Prop := {
  ok_scheme : match scheme u with Some sc => without [":"%char] sc | None => strstr (print_url u) (lit "://") = None end;
  ok_user : match user u with
            | Some (n, w) => without ["/"; "@"; ":"]%char n /\ without ["/"; "@"]%char (default [] w)
            | None => True
            end;
  ok_host : without ["/"; "@"; ":"]%char (host u);
  ok_port : Forall (fun c => is_digit c = true) (default [] (port u));
  ok_path : match path u with
            | Some (p, q) => without ["?"%char] p /\
                match q with Some (q, _) => without ["#"%char] q | None => True end
            | None => True
            end;
}.

(** The text of a field. *)
Definition field_text (s : cstring) (h : hurl_t) (f : hurl_field_e) : cstring :=
  take (Z.to_nat (fields h f).2) (drop (Z.to_nat (fields h f).1) s).

Definition url_part (u : url) (f : hurl_field_e) : cstring :=
  match f with
  | HV_URL_SCHEME => default [] (scheme u)
  | HV_URL_USERNAME => match user u with Some (n, _) => n | None => [] end
  | HV_URL_PASSWORD => match user u with Some (_, Some w) => w | _ => [] end
  | HV_URL_HOST => host u
  | HV_URL_PORT => default [] (port u)
  | HV_URL_PATH => match path u with Some (p, _) => "/"%char :: p | None => [] end
  | HV_URL_QUERY => match path u with Some (_, Some (q, _)) => q | _ => [] end
  | HV_URL_FRAGMENT => match path u with Some (_, Some (_, Some f)) => f | _ => [] end
  end.

Definition url_port_of (u : url) : Z :=
  match port u with
  | Some ds => u16 (dec ds)
  | None => match scheme u with Some sc => if decide (sc = lit "https") then 443 else 80 | None => 80 end
  end.

Lemma without_elem cs c s : without cs s -> c ∈ cs -> c ∉ s.
Proof. intros Hs Hc Hin. unfold without in Hs; rewrite list.Forall_forall in Hs. by apply (Hs c). Qed.

Lemma without_app cs a b : without cs a -> without cs b -> without cs (a ++ b).
Proof. apply Forall_app_2. Qed.

Lemma strchr_app a c b : c ∉ a -> strchr (a ++ c :: b) c = Some (length a).
Proof.
  induction a as [|x a IH]; intros Ha; cbn; [by rewrite decide_True|].
  rewrite not_elem_of_cons in Ha. destruct Ha as [Hx Ha]. rewrite decide_False by congruence. by rewrite IH.
Qed.

Lemma strchr_none a c : c ∉ a -> strchr a c = None.
Proof.
  induction a as [|x a IH]; intros Ha; cbn; [done|].
  rewrite not_elem_of_cons in Ha. destruct Ha as [Hx Ha]. rewrite decide_False by congruence. by rewrite IH.
Qed.

Lemma strnchr_take s c n : hv_strnchr s c n = strchr (take n s) c.
Proof. revert n. induction s as [|d s IH]; intros [|n]; cbn; [done..|]. by rewrite IH. Qed.

(** Searching in the middle of a string. *)
Lemma strchr_from_app pre a c b : c ∉ a ->
  strchr_from (pre ++ a ++ c :: b) (length pre) c = (length pre + length a)%nat.
Proof. intros Ha. unfold strchr_from. by rewrite drop_app_length, strchr_app. Qed.

Lemma strchr_from_none pre a c : c ∉ a -> strchr_from (pre ++ a) (length pre) c = length (pre ++ a).
Proof. intros Ha. unfold strchr_from. by rewrite drop_app_length, strchr_none. Qed.

Lemma strnchr_from_app pre a c b post : c ∉ a ->
  strnchr_from (pre ++ (a ++ c :: b) ++ post) (length pre) (length pre + length (a ++ c :: b)) c =
    Some (length pre + length a)%nat.
Proof.
  intros Ha. unfold strnchr_from. rewrite drop_app_length, strnchr_take.
  replace (length pre + length (a ++ c :: b) - length pre)%nat with (length (a ++ c :: b)) by lia.
  by rewrite take_app_length, strchr_app.
Qed.

Lemma strnchr_from_none pre a c post : c ∉ a ->
  strnchr_from (pre ++ a ++ post) (length pre) (length pre + length a) c = None.
Proof.
  intros Ha. unfold strnchr_from. rewrite drop_app_length, strnchr_take.
  replace (length pre + length a - length pre)%nat with (length a) by lia.
  by rewrite take_app_length, strchr_none.
Qed.

(** A field set to the place of a text has that text. *)
Lemma field_same pre t post u f : Z.of_nat (length (pre ++ t ++ post)) <= 65535 ->
  field_text (pre ++ t ++ post) (set_field u f (length pre) (length t)) f = t.
Proof.
  rewrite !length_app. intros Hl. unfold field_text, set_field. cbn. rewrite decide_True by done. cbn.
  unfold u16; rewrite (Z.mod_small (Z.of_nat (length pre))), (Z.mod_small (Z.of_nat (length t))) by lia.
  by rewrite !Nat2Z.id, drop_app_length, take_app_length.
Qed.

Lemma field_other s u f g off len : g <> f -> field_text s (set_field u f off len) g = field_text s u g.
Proof. intros Hg. unfold field_text, set_field. cbn. by rewrite decide_False. Qed.

Lemma field_port s u p f : field_text s (set_port u p) f = field_text s u f.
Proof. done. Qed.

Lemma field_none s f : field_text s no_url f = [].
Proof. done. Qed.

(** *** The stages *)

Lemma strstr_here s sub : hv_strstartswith s sub = true -> strstr s sub = Some 0%nat.
Proof. intros Hs. destruct s; cbn [strstr]; by rewrite Hs. Qed.

Lemma strstr_app a b : ":"%char ∉ a -> strstr (a ++ lit "://" ++ b) (lit "://") = Some (length a).
Proof.
  induction a as [|x a IH]; intros Ha.
  { apply strstr_here, startswith_prefix. by exists b. }
  rewrite not_elem_of_cons in Ha. destruct Ha as [Hx Ha]. cbn [app strstr length]. rewrite IH by done.
  destruct (hv_strstartswith _ _) eqn:E; [|done]. apply startswith_prefix, prefix_cons_inv_1 in E. congruence.
Qed.

Lemma digit_not c ds : Forall (fun c => is_digit c = true) ds -> is_digit c = false -> c ∉ ds.
Proof. intros Hds Hc Hin. rewrite list.Forall_forall in Hds. rewrite (Hds c Hin) in Hc. done. Qed.

Lemma port_digits_dec ds : port_digits ds = u16 (dec ds).
Proof.
  unfold port_digits, dec. change 0 with (u16 0) at 1. generalize 0. induction ds as [|c ds IH]; intros n; [done|].
  cbn [fold_left]. rewrite <- IH. f_equal. unfold u16.
  by rewrite <- Zplus_mod_idemp_l, Zmult_mod_idemp_l, Zplus_mod_idemp_l.
Qed.

(** Equal fields up to the arithmetic of their offsets. *)
Ltac offsets :=
  repeat first
    [ reflexivity
    | match goal with |- @eq nat _ _ => repeat (rewrite ?length_app; cbn [length]); lia end
    | match goal with
      | |- (_, _) = (_, _) => f_equal
      | |- set_field _ _ _ _ = set_field _ _ _ _ => f_equal
      | |- set_port _ _ = set_port _ _ => f_equal
      end ].

Definition with_user (pre : cstring) (o : option (cstring * option cstring)) (h : hurl_t) : hurl_t :=
  match o with
  | Some (n, Some w) =>
      set_field (set_field h HV_URL_PASSWORD (length (pre ++ n ++ [":"%char])) (length w)) HV_URL_USERNAME (length pre) (length n)
  | Some (n, None) => set_field h HV_URL_USERNAME (length pre) (length n)
  | None => h
  end.

Lemma parse_user_ok pre o r post h :
  match o with Some (n, w) => without ["/"; "@"; ":"]%char n /\ without ["/"; "@"]%char (default [] w) | None => True end ->
  "@"%char ∉ r ->
  parse_user (pre ++ (print_user o ++ r) ++ post) (length pre) (length pre + length (print_user o ++ r)) h =
    (with_user pre o h, (length pre + length (print_user o))%nat).
Proof.
  intros Ho Hr. unfold parse_user. destruct o as [[n [w|]]|]; cbn [print_user with_user default] in *.
  - destruct Ho as [Hn Hw].
    replace ((n ++ ":"%char :: w ++ ["@"%char]) ++ r) with ((n ++ ":"%char :: w) ++ "@"%char :: r)
      by (rewrite <- !app_assoc; cbn; by rewrite <- app_assoc).
    rewrite strnchr_from_app.
    2: { rewrite not_elem_of_app, not_elem_of_cons. split_and!; [eapply without_elem; [exact Hn|set_solver] | done |
         eapply without_elem; [exact Hw|set_solver]]. }
    replace (pre ++ ((n ++ ":"%char :: w) ++ "@"%char :: r) ++ post) with
      (pre ++ (n ++ ":"%char :: w) ++ ("@"%char :: r ++ post)) by by rewrite <- !app_assoc.
    rewrite strnchr_from_app by (eapply without_elem; [exact Hn|set_solver]).
    offsets.
  - destruct Ho as [Hn _]. replace ((n ++ ["@"%char]) ++ r) with (n ++ "@"%char :: r) by by rewrite <- app_assoc.
    rewrite strnchr_from_app by (eapply without_elem; [exact Hn|set_solver]).
    replace (pre ++ (n ++ "@"%char :: r) ++ post) with (pre ++ n ++ ("@"%char :: r ++ post)) by by rewrite <- !app_assoc.
    rewrite strnchr_from_none by (eapply without_elem; [exact Hn|set_solver]).
    offsets.
  - cbn [app]. rewrite strnchr_from_none by done. by rewrite Nat.add_0_r.
Qed.

Definition with_host (pre hst : cstring) (o : option cstring) (dflt : Z) (h : hurl_t) : hurl_t :=
  set_field
    match o with
    | Some ds => set_port (set_field h HV_URL_PORT (length (pre ++ hst ++ [":"%char])) (length ds)) (u16 (dec ds))
    | None => set_port h dflt
    end HV_URL_HOST (length pre) (length hst).

Lemma parse_host_ok pre hst o post h : ":"%char ∉ hst ->
  let s := pre ++ (hst ++ print_port o) ++ post in
  parse_host s (length pre) (length pre + length (hst ++ print_port o)) h =
    with_host pre hst o
      (if bool_decide ((fields h HV_URL_SCHEME).2 > 0) && hv_strstartswith s (lit "https://") then 443 else 80) h.
Proof.
  intros Hh s. subst s. unfold parse_host, with_host. destruct o as [ds|]; cbn [print_port].
  - rewrite strnchr_from_app by done. cbn zeta.
    replace (length pre + length hst + 1)%nat with (length (pre ++ hst ++ [":"%char])) by (rewrite !length_app; cbn; lia).
    replace (length pre + length (hst ++ ":"%char :: ds) - (length pre + length hst) - 1)%nat with (length ds)
      by (rewrite !length_app; cbn; lia).
    replace (pre ++ (hst ++ ":"%char :: ds) ++ post) with ((pre ++ hst ++ [":"%char]) ++ ds ++ post)
      by (rewrite <- !app_assoc; done).
    rewrite drop_app_length, take_app_length, port_digits_dec. offsets.
  - rewrite app_nil_r, strnchr_from_none by done. cbn zeta. offsets.
Qed.

Definition with_path (pre : cstring) (o : option (cstring * option (cstring * option cstring))) (h : hurl_t) : hurl_t :=
  match o with
  | None => h
  | Some (p, q) =>
      let pre1 := pre ++ "/"%char :: p in
      let h := set_field h HV_URL_PATH (length pre) (length ("/"%char :: p)) in
      match q with
      | None => h
      | Some (q, f) =>
          let h := set_field h HV_URL_QUERY (length (pre1 ++ ["?"%char])) (length q) in
          match f with
          | None => h
          | Some f => set_field h HV_URL_FRAGMENT (length (pre1 ++ "?"%char :: q ++ ["#"%char])) (length f)
          end
      end
  end.

Lemma parse_path_ok pre o h :
  match o with
  | Some (p, q) => without ["?"%char] p /\ match q with Some (q, _) => without ["#"%char] q | None => True end
  | None => True
  end ->
  parse_path (pre ++ print_path o) (length pre) h = with_path pre o h.
Proof.
  intros Ho. unfold parse_path. destruct o as [[p q]|]; cbn [print_path with_path].
  2: { rewrite app_nil_r. by rewrite decide_True. }
  destruct Ho as [Hp Hq]. rewrite decide_False by (rewrite length_app; cbn; lia).
  assert (Hp' : "?"%char ∉ "/"%char :: p).
  { rewrite not_elem_of_cons. split; [done|]. eapply without_elem; [exact Hp|set_solver]. }
  destruct q as [[q f]|]; cbn [print_query].
  2: { rewrite app_nil_r, strchr_from_none by done. rewrite decide_True by done. offsets. }
  assert (Hq' : "#"%char ∉ q) by (eapply without_elem; [exact Hq|set_solver]).
  set (pre1 := pre ++ "/"%char :: p).
  assert (Hgen : forall tail, strchr_from (pre ++ "/"%char :: p ++ "?"%char :: tail) (length pre) "?"%char = length pre1 /\
     pre ++ "/"%char :: p ++ "?"%char :: tail = (pre1 ++ ["?"%char]) ++ tail /\ length pre1 <> length (pre ++ "/"%char :: p ++ "?"%char :: tail) /\
     (length pre1 - length pre = length ("/"%char :: p))%nat /\ (length pre1 + 1 = length (pre1 ++ ["?"%char]))%nat).
  { intros tail. subst pre1. split_and!.
    - change ("/"%char :: p ++ "?"%char :: tail) with (("/"%char :: p) ++ "?"%char :: tail).
      rewrite strchr_from_app by done. by rewrite length_app.
    - rewrite <- !app_assoc. done.
    - rewrite !length_app. cbn. rewrite length_app. cbn. lia.
    - rewrite length_app. lia.
    - rewrite (length_app _ ["?"%char]). done. }
  destruct f as [f|]; cbn [print_query].
  - destruct (Hgen (q ++ "#"%char :: f)) as (E1 & E2 & E3 & E4 & E5). rewrite E1, decide_False by done.
    rewrite E2, E4, E5, strchr_from_app by done.
    rewrite decide_False by (rewrite !length_app; cbn; lia). subst pre1. offsets.
  - destruct (Hgen q) as (E1 & E2 & E3 & E4 & E5). rewrite E1, decide_False by done.
    rewrite E2, E4, E5, strchr_from_none by done. rewrite decide_True by done. offsets.
Qed.

Definition with_scheme (o : option cstring) : hurl_t :=
  match o with Some sc => set_field no_url HV_URL_SCHEME 0 (length sc) | None => no_url end.

Lemma https_scheme o t : match o with Some sc => without [":"%char] sc | None => True end ->
  Z.of_nat (length (print_scheme o)) <= 65535 ->
  (if bool_decide ((fields (with_scheme o) HV_URL_SCHEME).2 > 0) && hv_strstartswith (print_scheme o ++ t) (lit "https://")
   then 443 else 80) = match o with Some sc => if decide (sc = lit "https") then 443 else 80 | None => 80 end.
Proof.
  intros Ho Hl. destruct o as [sc|]; [|done]. cbn [print_scheme with_scheme] in *.
  assert (Hf : (fields (set_field no_url HV_URL_SCHEME 0 (length sc)) HV_URL_SCHEME).2 = Z.of_nat (length sc)).
  { cbn. rewrite length_app in Hl. cbn in Hl. apply Z.mod_small. lia. }
  rewrite Hf. destruct (decide (sc = lit "https")) as [->|Hsc].
  - rewrite (proj2 (startswith_prefix _ _)); [done|]. rewrite <- app_assoc. exists t. by rewrite app_assoc.
  - destruct (hv_strstartswith _ _) eqn:E; [|by rewrite andb_false_r]. exfalso. apply Hsc.
    apply startswith_prefix in E as [k E]. rewrite <- app_assoc in E.
    change (lit "https://") with (lit "https" ++ ":"%char :: lit "//") in E.
    change (lit "://") with (":"%char :: lit "//") in E. rewrite <- app_assoc in E. cbn [app] in E.
    assert (Hsp : ":"%char ∉ sc) by (eapply without_elem; [exact Ho|set_solver]).
    clear -E Hsp. assert (Hh : ":"%char ∉ lit "https") by (cbn; set_solver).
    apply (f_equal (fun s => strchr s ":"%char)) in E as E2. rewrite !strchr_app in E2 by done. injection E2 as E2.
    apply (f_equal (take (length sc))) in E. rewrite take_app_length, E2 in E. exact E.
Qed.

Lemma colon_at_not u : url_ok u -> "@"%char ∉ host u ++ print_port (port u) /\ "/"%char ∉ authority u.
Proof.
  intros [_ Hu Hh Hp _]. assert (Hpp : forall c, is_digit c = false -> c <> ":"%char -> c ∉ print_port (port u)).
  { intros c Hc Hn. destruct (port u) as [ds|]; cbn [print_port] in *; [|apply not_elem_of_nil].
    rewrite not_elem_of_cons. split; [done | by apply digit_not]. }
  split; [|unfold authority]; rewrite !not_elem_of_app; split_and!; try (by apply Hpp);
    try (eapply without_elem; [exact Hh|set_solver]).
  destruct (user u) as [[n [w|]]|]; cbn [print_user default] in *; [destruct Hu as [Hn Hw].. | apply not_elem_of_nil].
  - rewrite not_elem_of_app, not_elem_of_cons, not_elem_of_app, list_elem_of_singleton.
    split_and!; try done; eapply without_elem; eauto; set_solver.
  - rewrite not_elem_of_app, list_elem_of_singleton. split; [|done]. eapply without_elem; eauto; set_solver.
Qed.

(** The whole parse, stage by stage. *)
Lemma parse_url_print u : url_ok u -> Z.of_nat (length (print_url u)) <= 65535 ->
  let pre1 := print_scheme (scheme u) in
  let pre2 := pre1 ++ print_user (user u) in
  let pre3 := pre1 ++ authority u in
  hv_parse_url (print_url u) =
    (0, with_path pre3 (path u) (with_host pre2 (host u) (port u)
          (match scheme u with Some sc => if decide (sc = lit "https") then 443 else 80 | None => 80 end)
          (with_user pre1 (user u) (with_scheme (scheme u))))).
Proof.
  intros Hok Hl pre1 pre2 pre3. destruct (colon_at_not u Hok) as [Hat Hslash]. destruct Hok as [Hs Hu Hh Hp Hpath].
  assert (Hcolon : ":"%char ∉ host u) by (eapply without_elem; [exact Hh|set_solver]).
  unfold hv_parse_url. rewrite decide_False by lia.
  assert (Esc : match strstr (print_url u) (lit "://") with
                | Some i => (set_field no_url HV_URL_SCHEME 0 i, (i + 3)%nat)
                | None => (no_url, 0%nat) end = (with_scheme (scheme u), length pre1)).
  { destruct (scheme u) as [sc|] eqn:Esch; cbn [with_scheme].
    - unfold print_url. rewrite Esch. cbn [print_scheme]. rewrite <- app_assoc, strstr_app.
      + subst pre1. cbn [print_scheme]. by rewrite length_app.
      + eapply without_elem; [exact Hs|set_solver].
    - by rewrite Hs. }
  rewrite Esc. change (print_url u) with (pre1 ++ authority u ++ print_path (path u)).
  assert (Eep : strchr_from (pre1 ++ authority u ++ print_path (path u)) (length pre1) "/"%char = (length pre1 + length (authority u))%nat).
  { destruct (path u) as [[p q]|]; cbn [print_path]; [by apply strchr_from_app|].
    rewrite app_nil_r, strchr_from_none by done. by rewrite length_app. }
  rewrite Eep. unfold authority at 1 2. rewrite parse_user_ok by done.
  replace (length pre1 + length (print_user (user u)))%nat with (length pre2) by (subst pre2; by rewrite length_app).
  replace (length pre1 + length (authority u))%nat with (length pre2 + length (host u ++ print_port (port u)))%nat
    by (subst pre2; unfold authority; rewrite !length_app; lia).
  replace (pre1 ++ authority u ++ print_path (path u)) with (pre2 ++ (host u ++ print_port (port u)) ++ print_path (path u))
    by (subst pre2; unfold authority; by rewrite <- !app_assoc).
  rewrite parse_host_ok by done.
  replace (length pre2 + length (host u ++ print_port (port u)))%nat with (length pre3)
    by (subst pre2 pre3; unfold authority; rewrite !length_app; lia).
  replace (pre2 ++ (host u ++ print_port (port u)) ++ print_path (path u)) with (pre3 ++ print_path (path u))
    by (subst pre2 pre3; unfold authority; by rewrite <- !app_assoc).
  rewrite parse_path_ok by done. do 2 f_equal. f_equal.
  replace (fields (with_user pre1 (user u) (with_scheme (scheme u))) HV_URL_SCHEME) with
    (fields (with_scheme (scheme u)) HV_URL_SCHEME) by by destruct (user u) as [[n [w|]]|].
  subst pre3. rewrite <- app_assoc. apply https_scheme.
  - destruct (scheme u); [exact Hs | done].
  - unfold print_url in Hl. rewrite length_app in Hl. lia.
Qed.

Lemma field_at s pre t post u f : s = pre ++ t ++ post -> Z.of_nat (length s) <= 65535 ->
  field_text s (set_field u f (length pre) (length t)) f = t.
Proof. intros -> Hl. by apply field_same. Qed.

Ltac field_walk := repeat first [rewrite field_other by done | rewrite field_port].

(** The field [f] is found in [print_url u] at the end of [pre]. *)
Ltac field_here pre post :=
  apply (field_at _ pre _ post); [|done]; cbn [print_query print_user print_port print_path];
  repeat (rewrite <- ?app_assoc; cbn [app]); rewrite ?app_nil_r; reflexivity.

Lemma scheme_text u s : Z.of_nat (length s) <= 65535 -> (exists t, s = print_scheme u ++ t) ->
  field_text s (with_scheme u) HV_URL_SCHEME = default [] u.
Proof.
  intros Hl [t ->]. destruct u as [sc|]; [|done]. cbn [with_scheme print_scheme default].
  apply (field_at _ [] sc (lit "://" ++ t)); [by rewrite <- app_assoc | done].
Qed.

Lemma path_other s pre o h f : f <> HV_URL_PATH -> f <> HV_URL_QUERY -> f <> HV_URL_FRAGMENT ->
  field_text s (with_path pre o h) f = field_text s h f.
Proof. intros. destruct o as [[p [[q [fr|]]|]]|]; cbn [with_path]; by field_walk. Qed.

Lemma host_other s pre hst o d h f : f <> HV_URL_HOST -> f <> HV_URL_PORT ->
  field_text s (with_host pre hst o d h) f = field_text s h f.
Proof. intros. unfold with_host. destruct o; by field_walk. Qed.

Lemma user_other s pre o h f : f <> HV_URL_USERNAME -> f <> HV_URL_PASSWORD ->
  field_text s (with_user pre o h) f = field_text s h f.
Proof. intros. destruct o as [[n [w|]]|]; cbn [with_user]; by field_walk. Qed.

Lemma scheme_other s o f : f <> HV_URL_SCHEME -> field_text s (with_scheme o) f = [].
Proof. intros. destruct o; cbn [with_scheme]; by field_walk. Qed.

Ltac other_stages := rewrite ?path_other, ?host_other, ?user_other, ?scheme_other by done.

Lemma parse_url_field u f : Z.of_nat (length (print_url u)) <= 65535 ->
  let pre1 := print_scheme (scheme u) in
  let pre2 := pre1 ++ print_user (user u) in
  let pre3 := pre1 ++ authority u in
  forall d, field_text (print_url u)
    (with_path pre3 (path u) (with_host pre2 (host u) (port u) d (with_user pre1 (user u) (with_scheme (scheme u))))) f =
  url_part u f.
Proof.
  intros Hl pre1 pre2 pre3 d. unfold print_url, authority in *. subst pre1 pre2 pre3.
  destruct u as [sc us hs po pa]; cbn [scheme user host port path] in *. destruct f; other_stages; cbn [url_part].
  - apply scheme_text; [done | by eexists].
  - destruct us as [[n [w|]]|]; cbn [with_user]; field_walk; other_stages; try done.
    + field_here (print_scheme sc) (":"%char :: w ++ "@"%char :: (hs ++ print_port po) ++ print_path pa).
    + field_here (print_scheme sc) ("@"%char :: (hs ++ print_port po) ++ print_path pa).
  - destruct us as [[n [w|]]|]; cbn [with_user]; field_walk; other_stages; try done.
    field_here (print_scheme sc ++ n ++ [":"%char]) ("@"%char :: (hs ++ print_port po) ++ print_path pa).
  - unfold with_host. field_here (print_scheme sc ++ print_user us) (print_port po ++ print_path pa).
  - unfold with_host. destruct po as [ds|]; field_walk; other_stages; try done.
    field_here ((print_scheme sc ++ print_user us) ++ hs ++ [":"%char]) (print_path pa).
  - destruct pa as [[p [[q [fr|]]|]]|]; cbn [with_path]; field_walk; other_stages; try done.
    + field_here (print_scheme sc ++ print_user us ++ hs ++ print_port po) ("?"%char :: q ++ "#"%char :: fr).
    + field_here (print_scheme sc ++ print_user us ++ hs ++ print_port po) ("?"%char :: q).
    + field_here (print_scheme sc ++ print_user us ++ hs ++ print_port po) (@nil ascii).
  - destruct pa as [[p [[q [fr|]]|]]|]; cbn [with_path]; field_walk; other_stages; try done.
    + field_here (((print_scheme sc ++ print_user us ++ hs ++ print_port po) ++ "/"%char :: p) ++ ["?"%char]) ("#"%char :: fr).
    + field_here (((print_scheme sc ++ print_user us ++ hs ++ print_port po) ++ "/"%char :: p) ++ ["?"%char]) (@nil ascii).
  - destruct pa as [[p [[q [fr|]]|]]|]; cbn [with_path]; field_walk; other_stages; try done.
    field_here (((print_scheme sc ++ print_user us ++ hs ++ print_port po) ++ "/"%char :: p) ++ "?"%char :: q ++ ["#"%char])
      (@nil ascii).
Qed.

(** [C31] A URL printed from its parts is parsed into these parts: each field is
    the text of the part (empty when there is none), and the port is the number
    that is given, or else 443 for https and 80 otherwise. *)
Theorem parse_url_roundtrip u f : url_ok u -> Z.of_nat (length (print_url u)) <= 65535 ->
  let (r, h) := hv_parse_url (print_url u) in
  r = 0 /\ field_text (print_url u) h f = url_part u f /\ url_port h = url_port_of u.
Proof.
  intros Hok Hl. rewrite (parse_url_print u Hok Hl). split_and!; [done | by apply parse_url_field |].
  unfold url_port_of, with_path, with_host, with_user, with_scheme, set_field, set_port.
  destruct (port u), (path u) as [[p [[q [fr|]]|]]|]; done.
Qed.

(** *** Any string *)

(** The span of every field lies in the string. *)
Definition spans_ok (s : cstring) (h : hurl_t) : Prop :=
  forall f, let (off, len) := fields h f in 0 <= off /\ 0 <= len /\ off + len <= Z.of_nat (length s).

Lemma spans_set s h f off len : Z.of_nat (length s) <= 65535 -> spans_ok s h -> (off + len <= length s)%nat ->
  spans_ok s (set_field h f off len).
Proof.
  intros Hl Hs Ho g. specialize (Hs g). unfold set_field. cbn [fields]. case_decide; [|exact Hs].
  unfold u16. rewrite !Z.mod_small by lia. lia.
Qed.

Lemma strchr_lt s c i : strchr s c = Some i -> (i < length s)%nat.
Proof.
  revert i. induction s as [|d s IH]; intros i; cbn; [done|]. case_decide; [intros [= <-]; lia|].
  destruct (strchr s c) as [j|]; [|done]. intros [= <-]. specialize (IH j eq_refl). lia.
Qed.

Lemma strchr_from_range s sp c : (sp <= length s)%nat -> (sp <= strchr_from s sp c <= length s)%nat.
Proof.
  intros Hsp. unfold strchr_from. destruct (strchr (drop sp s) c) as [i|] eqn:E; [|lia].
  apply strchr_lt in E. rewrite length_drop in E. lia.
Qed.

Lemma strnchr_from_range s sp ep c p : strnchr_from s sp ep c = Some p -> (ep <= length s)%nat ->
  (sp <= p < ep)%nat.
Proof.
  unfold strnchr_from. rewrite strnchr_take. destruct (strchr _ _) as [i|] eqn:E; [|done]. intros [= <-] Hep.
  apply strchr_lt in E. rewrite length_take, length_drop in E. lia.
Qed.

Lemma strstr_range s sub i : strstr s sub = Some i -> (i + length sub <= length s)%nat.
Proof.
  revert i. induction s as [|c s IH]; intros i; cbn [strstr].
  - destruct (hv_strstartswith [] sub) eqn:E; [|done]. intros [= <-].
    apply startswith_prefix, prefix_length in E. done.
  - destruct (hv_strstartswith (c :: s) sub) eqn:E.
    + intros [= <-]. apply startswith_prefix, prefix_length in E. done.
    + destruct (strstr s sub) as [j|]; [|done]. intros [= <-]. specialize (IH j eq_refl). cbn. lia.
Qed.

(** Solves the bounds of the places found by the searches. *)
Ltac places :=
  repeat match goal with
  | H : strnchr_from _ _ _ _ = Some _ |- _ => apply strnchr_from_range in H; [|lia]
  | |- spans_ok _ (set_field _ _ _ _) => apply spans_set; [done| |lia]
  | |- spans_ok ?s (set_port ?h _) => change (spans_ok s h)
  end; try done.

Lemma parse_user_spans s sp ep h : Z.of_nat (length s) <= 65535 -> (sp <= ep <= length s)%nat -> spans_ok s h ->
  spans_ok s (parse_user s sp ep h).1 /\ (sp <= (parse_user s sp ep h).2 <= ep)%nat.
Proof.
  intros Hl Hsp Hs. unfold parse_user. destruct (strnchr_from s sp ep "@"%char) as [pos|] eqn:E1; [|cbn; split; [done|lia]].
  apply strnchr_from_range in E1; [|lia].
  destruct (strnchr_from s sp pos ":"%char) as [pswd|] eqn:E2; cbn [fst snd]; (split; [places | lia]).
Qed.

(** [C37] Whatever the string, the offsets and lengths of all the fields lie
    within it, and the port is an unsigned short; only a string longer than
    65535 is refused. *)
Theorem parse_url_well_formed s :
  let (r, h) := hv_parse_url s in
  spans_ok s h /\ 0 <= url_port h < 65536 /\ (r = 0 <-> Z.of_nat (length s) <= 65535) /\ (r <> 0 -> r = -2).
Proof.
  unfold hv_parse_url. case_decide as Hlen.
  { split_and!; try done; try lia. intros f. cbn. lia. }
  set (start := match strstr s (lit "://") with Some i => _ | None => _ end).
  assert (Hst : spans_ok s start.1 /\ (start.2 <= length s)%nat).
  { subst start. assert (H0 : spans_ok s no_url) by (intros f; cbn; lia).
    destruct (strstr s (lit "://")) as [i|] eqn:E; cbn [fst snd]; [|split; [done|lia]].
    apply strstr_range in E. cbn in E. split; [|lia]. apply spans_set; [lia|done|lia]. }
  destruct start as [u0 sp]. cbn [fst snd] in Hst. destruct Hst as [Hs0 Hsp].
  pose proof (strchr_from_range s sp "/"%char Hsp) as Hep. set (ep := strchr_from s sp "/"%char) in *.
  pose proof (parse_user_spans s sp ep u0 ltac:(lia) ltac:(lia) Hs0) as Hu.
  destruct (parse_user s sp ep u0) as [u1 h1]. cbn [fst snd] in Hu. destruct Hu as [Hs1 Hh].
  assert (H2 : spans_ok s (parse_host s h1 ep u1) /\ 0 <= url_port (parse_host s h1 ep u1) < 65536).
  { unfold parse_host. destruct (strnchr_from s h1 ep ":"%char) as [p|] eqn:E.
    - apply strnchr_from_range in E; [|lia]. split; [apply spans_set; [lia| |lia];
        match goal with |- spans_ok ?s (set_port ?h _) => change (spans_ok s h) end; apply spans_set; [lia|done|lia]|].
      cbn. rewrite port_digits_dec. apply Z.mod_pos_bound. lia.
    - split; [apply spans_set; [lia|exact Hs1|lia]|]. cbn. by destruct (_ && _). }
  destruct H2 as [Hs2 Hp2]. set (u2 := parse_host s h1 ep u1) in *.
  assert (Hport : url_port (parse_path s ep u2) = url_port u2) by (unfold parse_path; by repeat case_decide).
  rewrite Hport. split; [|split_and!; try done; lia].
  unfold parse_path. case_decide; [exact Hs2|].
  pose proof (strchr_from_range s ep "?"%char ltac:(lia)) as H1. set (ep1 := strchr_from s ep "?"%char) in *.
  case_decide; [apply spans_set; [lia|done|lia]|].
  pose proof (strchr_from_range s (ep1 + 1) "#"%char ltac:(lia)) as H2. set (ep2 := strchr_from s (ep1 + 1) "#"%char) in *.
  case_decide; repeat (apply spans_set; [lia| |lia]); done.
Qed.

(** Without a path the query and the fragment are taken for the host. *)
Lemma query_without_path hst q : without ["/"; "@"; ":"]%char hst -> without ["/"; "@"; ":"]%char q ->
  Z.of_nat (length (lit "http://" ++ hst ++ "?"%char :: q)) <= 65535 ->
  let s := lit "http://" ++ hst ++ "?"%char :: q in
  field_text s (hv_parse_url s).2 HV_URL_HOST = hst ++ "?"%char :: q /\
  field_text s (hv_parse_url s).2 HV_URL_QUERY = [].
Proof.
  intros Hh Hq Hl s. set (u := mkUrl (Some (lit "http")) None (hst ++ "?"%char :: q) None None).
  assert (Es : s = print_url u).
  { subst s. unfold print_url, authority, u. cbn [scheme user host port path print_scheme print_user print_port print_path].
    rewrite !app_nil_r. reflexivity. }
  rewrite Es in *. clear Es s.
  assert (Hok : url_ok u).
  { split; cbn [scheme user host port path default]; try done.
    - repeat (constructor; [set_solver|]). constructor.
    - apply Forall_app_2; [done|]. constructor; [set_solver|done]. }
  assert (Hl' : Z.of_nat (length (print_url u)) <= 65535).
  { unfold print_url, authority, u. cbn [scheme user host port path print_scheme print_user print_port print_path].
    rewrite !app_nil_r. exact Hl. }
  rewrite (parse_url_print u Hok Hl'). cbn [snd].
  split; by rewrite parse_url_field.
Qed.

(** ** Witnesses *)

Lemma bounded_copies_witness :
  hv_strncpy (lit "xxxx") (lit "abcdef") 4 = Some (lit "abc" ++ [NUL]) /\
  (forall s rest, lit "xxxx" = s ++ NUL :: rest -> NUL ∉ s -> Z.of_nat (length s) < 4 ->
   let copied := take (Z.to_nat (4 - Z.of_nat (length s) - 1)) (lit "abcdef") in
   hv_strncat (lit "xxxx") (lit "abcdef") 4 = Some (s ++ copied ++ NUL :: drop (length s + length copied + 1) (lit "xxxx"))).
Proof. apply (bounded_copies (lit "xxxx") (lit "abcdef") 4); [lia | cbn; lia]. Defined.

Lemma parse_sums_witness :
  hv_parse_size (segments [(lit "1", "G"%char); (lit "2", "M"%char); (lit "3", "K"%char)] ++ lit "4") =
    u64 (total size_factor [(lit "1", "G"%char); (lit "2", "M"%char); (lit "3", "K"%char)] + dec (lit "4")) /\
  hv_parse_time (segments [(lit "1", "G"%char); (lit "2", "M"%char); (lit "3", "K"%char)] ++ lit "4") =
    total time_unit [(lit "1", "G"%char); (lit "2", "M"%char); (lit "3", "K"%char)] + dec (lit "4").
Proof. apply (parse_sums [(lit "1", "G"%char); (lit "2", "M"%char); (lit "3", "K"%char)] (lit "4")); repeat constructor. Defined.

Definition sample_url : url :=
  mkUrl (Some (lit "https")) (Some (lit "admin", Some (lit "123"))) (lit "127.0.0.1") (Some (lit "8443"))
    (Some (lit "v1/api", Some (lit "query=1", Some (lit "frag")))).

Lemma parse_url_roundtrip_witness :
  let (r, h) := hv_parse_url (print_url sample_url) in
  r = 0 /\ field_text (print_url sample_url) h HV_URL_PASSWORD = url_part sample_url HV_URL_PASSWORD /\
  url_port h = url_port_of sample_url.
Proof.
  apply (parse_url_roundtrip sample_url HV_URL_PASSWORD).
  - split; cbn; repeat split; repeat constructor; set_solver.
  - vm_compute. congruence.
Defined.
