(* ===== verification/Base64.v ===== *)
(** * Base64: [libs/libhv/util/base64.c]

    [hv_base64_encode] and [hv_base64_decode] with their tables, the input as
    a byte buffer read by index and the output as an array written by index. *)

From S2P Require Import Prelude.

Module Base64.

(** [base64en]: the alphabet, as character codes. *)
Definition base64en : list Z :=
  [ 65;66;67;68;69;70;71;72;      73;74;75;76;77;78;79;80;
    81;82;83;84;85;86;87;88;      89;90;97;98;99;100;101;102;
    103;104;105;106;107;108;109;110; 111;112;113;114;115;116;117;118;
    119;120;121;122;48;49;50;51;  52;53;54;55;56;57;43;47 ].

Definition BASE64_PAD : Z := 61.
Definition BASE64DE_FIRST : Z := 43.
Definition BASE64DE_LAST : Z := 122.

(** [base64de]: the inverse table from ['+'] to ['z'], -1 where unused. *)
Definition base64de : list Z :=
  [ 62; -1; -1; -1; 63; 52; 53; 54;
    55; 56; 57; 58; 59; 60; 61; -1;
    -1; -1; -1; -1; -1; -1;  0;  1;
     2;  3;  4;  5;  6;  7;  8;  9;
    10; 11; 12; 13; 14; 15; 16; 17;
    18; 19; 20; 21; 22; 23; 24; 25;
    -1; -1; -1; -1; -1; -1; 26; 27;
    28; 29; 30; 31; 32; 33; 34; 35;
    36; 37; 38; 39; 40; 41; 42; 43;
    44; 45; 46; 47; 48; 49; 50; 51 ].

(** The read [base64en[k]]: [None] is an access out of the array. *)
Definition en (k : Z) : option Z := rd base64en k.

(** One iteration of the encoding loop, for the index [i]. *)
Definition encode_step (inp : list Z) (i : Z) (out : list Z) : option (list Z) :=
  let s := i mod 3 in
  if decide (s = 0) then
    c ← rd inp i;
    e ← en (Z.land (Z.shiftr c 2) 0x3F);
    Some (out ++ [e])
  else if decide (s = 1) then
    p ← rd inp (i - 1); c ← rd inp i;
    e ← en (Z.shiftl (Z.land p 0x3) 4 + Z.land (Z.shiftr c 4) 0xF);
    Some (out ++ [e])
  else
    p ← rd inp (i - 1); c ← rd inp i;
    e ← en (Z.shiftl (Z.land p 0xF) 2 + Z.land (Z.shiftr c 6) 0x3);
    f ← en (Z.land c 0x3F);
    Some (out ++ [e] ++ [f]).

(** [for (; i < inlen; i++)], with [n] iterations left. *)
Fixpoint encode_loop (inp : list Z) (n : nat) (i : Z) (out : list Z) : option (list Z) :=
  match n with
  | O => Some out
  | S n' => out' ← encode_step inp i out; encode_loop inp n' (i + 1) out'
  end.

(** The padding after the loop; [i] has been decremented as an [unsigned int]. *)
Definition encode_pad (inp : list Z) (i : Z) (out : list Z) : option (list Z) :=
  if decide (i mod 3 = 0) then
    c ← rd inp i;
    e ← en (Z.shiftl (Z.land c 0x3) 4);
    Some (out ++ [e] ++ [BASE64_PAD] ++ [BASE64_PAD])
  else if decide (i mod 3 = 1) then
    c ← rd inp i;
    e ← en (Z.shiftl (Z.land c 0xF) 2);
    Some (out ++ [e] ++ [BASE64_PAD])
  else Some out.

(** [hv_base64_encode]: the characters written to [out] ([j] is their number);
    [None] when the code reads outside of [in]. *)
Definition hv_base64_encode (inp : list Z) (inlen : Z) : option (list Z) :=
  out ← encode_loop inp (Z.to_nat inlen) 0 [];
  encode_pad inp (u32 (inlen - 1)) out.

(** [out[j] += v] on an [unsigned char] cell. *)
Definition add_cell (out : list Z) (j : nat) (v : Z) : option (list Z) :=
  o ← out !! j; store out j (u8 (o + v)).

Inductive decode_result :=
| DecGo (j : nat) (out : list Z)
| DecRet (ret : Z) (out : list Z).

(** The cell after the one just completed is started, unless the padding
    follows: [i < inlen - k || in[inlen - (k - 1)] != '=']. *)
Definition start_next (inp : list Z) (inlen i k : Z) (j : nat) (v : Z) (out : list Z)
  : option (list Z) :=
  if decide (i < u32 (inlen - k)) then store out j v
  else
    l ← rd inp (u32 (inlen - (k - 1)));
    if decide (l ≠ BASE64_PAD) then store out j v else Some out.

(** One iteration of the decoding loop. *)
Definition decode_step (inp : list Z) (inlen i : Z) (j : nat) (out : list Z)
  : option decode_result :=
  ch ← rd inp i;
  if decide (ch = BASE64_PAD) then Some (DecRet (Z.of_nat j) out)
  else if decide (ch < BASE64DE_FIRST ∨ ch > BASE64DE_LAST) then Some (DecRet (-1) out)
  else
    c ← rd base64de (ch - BASE64DE_FIRST);
    if decide (c = -1) then Some (DecRet (-1) out)
    else
      let s := i mod 4 in
      if decide (s = 0) then
        out1 ← store out j (Z.land (Z.shiftl c 2) 0xFF);
        Some (DecGo j out1)
      else if decide (s = 1) then
        out1 ← add_cell out j (Z.land (Z.shiftr c 4) 0x3);
        out2 ← start_next inp inlen i 3 (S j) (u8 (Z.shiftl (Z.land c 0xF) 4)) out1;
        Some (DecGo (S j) out2)
      else if decide (s = 2) then
        out1 ← add_cell out j (Z.land (Z.shiftr c 2) 0xF);
        out2 ← start_next inp inlen i 2 (S j) (u8 (Z.shiftl (Z.land c 0x3) 6)) out1;
        Some (DecGo (S j) out2)
      else
        out1 ← add_cell out j c;
        Some (DecGo (S j) out1).

Fixpoint decode_loop (inp : list Z) (inlen : Z) (n : nat) (i : Z) (j : nat) (out : list Z)
  : option (Z * list Z) :=
  match n with
  | O => Some (Z.of_nat j, out)
  | S n' =>
      r ← decode_step inp inlen i j out;
      match r with
      | DecRet v out' => Some (v, out')
      | DecGo j' out' => decode_loop inp inlen n' (i + 1) j' out'
      end
  end.

(** [hv_base64_decode]: the returned [int] and the array [out] after the call;
    [None] when the code reads outside of [in] or writes outside of [out]. *)
Definition hv_base64_decode (inp : list Z) (inlen : Z) (out : list Z) : option (Z * list Z) :=
  decode_loop inp inlen (Z.to_nat inlen) 0 0 out.

Example encode_man : hv_base64_encode [77;97;110] 3 = Some [84;87;70;117].
Proof. vm_compute. reflexivity. Qed.
Example decode_man : hv_base64_decode [84;87;69;61] 4 [0;0] = Some (2, [77;97]).
Proof. vm_compute. reflexivity. Qed.


(** ** Reference encoding: RFC 4648 on 24-bit groups *)

Definition digit (k : Z) : Z := default 0 (base64en !! Z.to_nat k).

(** The four 6-bit digits of a 24-bit group, most significant first. *)
Definition sextets (n : Z) : list Z :=
  [digit (n / 2 ^ 18); digit (n / 2 ^ 12 mod 64); digit (n / 2 ^ 6 mod 64); digit (n mod 64)].

Fixpoint rfc_encode (l : list Z) : list Z :=
  match l with
  | [] => []
  | [a] => take 2 (sextets (a * 2 ^ 16)) ++ [BASE64_PAD; BASE64_PAD]
  | [a; b] => take 3 (sextets (a * 2 ^ 16 + b * 2 ^ 8)) ++ [BASE64_PAD]
  | a :: b :: c :: r => sextets (a * 2 ^ 16 + b * 2 ^ 8 + c) ++ rfc_encode r
  end.

Lemma en_digit k : 0 <= k < 64 -> en k = Some (digit k).
Proof.
  intros Hk. unfold en, digit. rewrite rd_nat by lia.
  destruct (base64en !! Z.to_nat k) eqn:E; [done|].
  apply lookup_ge_None in E. change (length base64en) with 64%nat in E. lia.
Qed.

Definition table_row_ok (n : nat) : bool :=
  let k := Z.of_nat n in
  (negb (digit k =? BASE64_PAD) && (BASE64DE_FIRST <=? digit k) && (digit k <=? BASE64DE_LAST)
   && match rd base64de (digit k - BASE64DE_FIRST) with Some v => v =? k | None => false end)%Z.

(** The decoding table inverts the encoding table. *)
Lemma digit_decodes k : 0 <= k < 64 ->
  digit k <> BASE64_PAD /\ ~ (digit k < BASE64DE_FIRST ∨ digit k > BASE64DE_LAST)
  /\ rd base64de (digit k - BASE64DE_FIRST) = Some k.
Proof.
  intros Hk.
  assert (forallb table_row_ok (seq 0 64) = true) as H by (vm_compute; reflexivity).
  rewrite forallb_forall in H. specialize (H (Z.to_nat k)).
  rewrite in_seq in H. specialize (H ltac:(lia)). unfold table_row_ok in H.
  rewrite Z2Nat.id in H by lia. destruct (rd base64de _) eqn:E; [|lia].
  repeat split; [lia | lia | f_equal; lia].
Qed.

(** ** The encoder computes the reference encoding *)

Section EncodeSteps.
Context (inp out : list Z) (i : Z).

Lemma encode_step_0 a : i mod 3 = 0 -> rd inp i = Some a -> is_byte a ->
  encode_step inp i out = Some (out ++ [digit (a / 4)]).
Proof.
  intros Hi Ha [??]. unfold encode_step. rewrite decide_True, Ha by done. cbn -[en].
  bitsimpl. rewrite en_digit by div_lia. cbn. do 4 f_equal. div_lia.
Qed.

Lemma encode_step_1 a b : i mod 3 = 1 ->
  rd inp (i - 1) = Some a -> rd inp i = Some b -> is_byte a -> is_byte b ->
  encode_step inp i out = Some (out ++ [digit (a mod 4 * 16 + b / 16)]).
Proof.
  intros Hi Ha Hb [??] [??]. unfold encode_step.
  rewrite decide_False, decide_True, Ha, Hb by lia. cbn -[en].
  bitsimpl. rewrite en_digit by div_lia. cbn. do 4 f_equal. div_lia.
Qed.

Lemma encode_step_2 b c : i mod 3 = 2 ->
  rd inp (i - 1) = Some b -> rd inp i = Some c -> is_byte b -> is_byte c ->
  encode_step inp i out = Some (out ++ [digit (b mod 16 * 4 + c / 64)] ++ [digit (c mod 64)]).
Proof.
  intros Hi Hb Hc [??] [??]. unfold encode_step.
  rewrite !decide_False, Hb, Hc by lia. cbn -[en].
  bitsimpl. rewrite !en_digit by div_lia. cbn. do 5 f_equal; div_lia.
Qed.
End EncodeSteps.

(** Equality of lists of digits, cell by cell. *)
Ltac digits_eq :=
  repeat match goal with
    | |- Some _ = Some _ => f_equal
    | |- _ ++ _ = _ ++ _ => f_equal
    | |- _ :: _ = _ :: _ => f_equal
    end; try done; try (apply (f_equal digit); div_lia).

Lemma sextets_3 a b c : is_byte a -> is_byte b -> is_byte c ->
  sextets (a * 2 ^ 16 + b * 2 ^ 8 + c)
  = [digit (a / 4); digit (a mod 4 * 16 + b / 16);
     digit (b mod 16 * 4 + c / 64); digit (c mod 64)].
Proof. intros [??] [??] [??]. unfold sextets. digits_eq. Qed.

Lemma encode_pad_none inp i out : i mod 3 = 2 -> encode_pad inp i out = Some out.
Proof. intros. unfold encode_pad. by rewrite !decide_False by lia. Qed.

Lemma encode_pad_0 inp i out a : i mod 3 = 0 -> rd inp i = Some a -> is_byte a ->
  encode_pad inp i out = Some (out ++ [digit (a mod 4 * 16); BASE64_PAD; BASE64_PAD]).
Proof.
  intros Hi Ha [??]. unfold encode_pad. rewrite decide_True, Ha by done. cbn -[en].
  bitsimpl. rewrite en_digit by div_lia. cbn. do 4 f_equal.
Qed.

Lemma encode_pad_1 inp i out a : i mod 3 = 1 -> rd inp i = Some a -> is_byte a ->
  encode_pad inp i out = Some (out ++ [digit (a mod 16 * 4); BASE64_PAD]).
Proof.
  intros Hi Ha [??]. unfold encode_pad. rewrite decide_False, decide_True, Ha by lia.
  cbn -[en]. bitsimpl. rewrite en_digit by div_lia. cbn. do 4 f_equal.
Qed.

Lemma encode_pad_oob inp i out : i mod 3 = 0 -> Z.of_nat (length inp) <= i ->
  encode_pad inp i out = None.
Proof. intros. unfold encode_pad. by rewrite decide_True, rd_oob. Qed.

(** Reads at a constant distance after a prefix. *)
Ltac rd_prefix :=
  match goal with |- rd (?p ++ _) ?i = _ =>
    let go k := (replace i with (Z.of_nat (length p) + k) by lia;
                 rewrite rd_app by lia; reflexivity) in
    first [go 0 | go 1 | go 2 | go 3]
  end.

(** The loop and the padding, on the suffix [l] of the input that starts at a
    multiple of three. *)
Lemma encode_suffix l : forall pre rest out,
  Z.of_nat (length pre) mod 3 = 0 -> bytes_ok l -> (pre ++ l) <> [] ->
  Z.of_nat (length (pre ++ l)) < 2 ^ 32 ->
  (o ← encode_loop (pre ++ l ++ rest) (length l) (Z.of_nat (length pre)) out;
   encode_pad (pre ++ l ++ rest) (u32 (Z.of_nat (length (pre ++ l)) - 1)) o)
  = Some (out ++ rfc_encode l).
Proof.
  induction l as [|a|a b|a b c l IH] using list_ind3; intros pre rest out Hi Hl Hne Hlen;
    rewrite !length_app in *; cbn [length encode_loop rfc_encode] in *;
    remember (Z.of_nat (length pre)) as i eqn:Ei.
  - cbn [mbind option_bind]. rewrite app_nil_r in *. rewrite encode_pad_none; [done|].
    rewrite u32_small; destruct pre; cbn [length] in *; try done; div_lia.
  - apply Forall_cons in Hl as [Ha _].
    rewrite (encode_step_0 _ _ _ a) by (auto; subst; rd_prefix). cbn [mbind option_bind].
    rewrite u32_small by lia. replace (Z.of_nat _ - 1) with i by lia.
    rewrite (encode_pad_0 _ _ _ a) by (auto; subst; rd_prefix).
    rewrite <- app_assoc. destruct Ha. unfold sextets. cbn [take app]. digits_eq.
  - apply Forall_cons in Hl as [Ha [Hb _]%Forall_cons].
    rewrite (encode_step_0 _ _ _ a) by (auto; subst; rd_prefix). cbn [mbind option_bind].
    rewrite (encode_step_1 _ _ _ a b) by (auto; subst; rd_prefix || div_lia).
    cbn [mbind option_bind]. rewrite u32_small by lia.
    replace (Z.of_nat _ - 1) with (i + 1) by lia.
    rewrite (encode_pad_1 _ _ _ b) by (auto; subst; rd_prefix || div_lia).
    rewrite <- !app_assoc. destruct Ha, Hb. unfold sextets. cbn [take app]. digits_eq.
  - apply Forall_cons in Hl as [Ha [Hb [Hc Hl]%Forall_cons]%Forall_cons].
    rewrite (encode_step_0 _ _ _ a) by (auto; subst; rd_prefix). cbn [mbind option_bind].
    rewrite (encode_step_1 _ _ _ a b) by (auto; subst; rd_prefix || div_lia).
    cbn [mbind option_bind].
    rewrite (encode_step_2 _ _ _ b c) by (auto; subst; rd_prefix || div_lia).
    cbn [mbind option_bind]. rewrite sextets_3 by done.
    specialize (IH (pre ++ [a; b; c]) rest
      ((out ++ [digit (a / 4)] ++ [digit (a mod 4 * 16 + b / 16)])
       ++ [digit (b mod 16 * 4 + c / 64)] ++ [digit (c mod 64)])).
    rewrite !length_app in IH. cbn [length] in IH.
    rewrite <- !app_assoc in *. cbn [app] in *.
    replace (i + 1 + 1 + 1) with (Z.of_nat (length pre + 3)) by lia.
    replace (length pre + S (S (S (length l))))%nat with (length pre + 3 + length l)%nat by lia.
    apply IH; auto; try lia. first [div_lia | by destruct pre].
Qed.

Lemma encode_whole l rest : l <> [] -> bytes_ok l -> Z.of_nat (length l) < 2 ^ 32 ->
  hv_base64_encode (l ++ rest) (Z.of_nat (length l)) = Some (rfc_encode l).
Proof.
  intros. unfold hv_base64_encode. rewrite Nat2Z.id.
  by apply (encode_suffix l [] rest []).
Qed.

(** [C22] For every non-empty input shorter than [2^32] bytes, the encoder
    stays inside of its input and writes the RFC 4648 encoding: the table
    lookups on [in[i-1]] and [in[i]] compute the digits of the 24-bit groups. *)
Theorem hv_base64_encode_rfc l rest : l <> [] -> bytes_ok l -> Z.of_nat (length l) < 2 ^ 32 ->
  hv_base64_encode (l ++ rest) (Z.of_nat (length l)) = Some (rfc_encode l).
Proof.
  intros. by apply encode_whole.
Qed.

Lemma hv_base64_encode_rfc_witness :
  hv_base64_encode ([77; 97; 110; 33] ++ [0]) 4 = Some (rfc_encode [77; 97; 110; 33]).
Proof.
  apply (hv_base64_encode_rfc [77; 97; 110; 33] [0]); [done | | done].
  repeat constructor; lia.
Defined.

(** The size macro of [base64.h] is exact. *)
Lemma rfc_encode_length l :
  Z.of_nat (length (rfc_encode l)) = (Z.of_nat (length l) + 2) / 3 * 4.
Proof.
  induction l as [|a|a b|a b c l IH] using list_ind3; try reflexivity.
  cbn [rfc_encode sextets app length] in *. rewrite !Nat2Z.inj_succ, IH. div_lia.
Qed.

(** ** The decoder inverts the reference encoding *)

Section DecodeSteps.
Context (inp : list Z) (inlen i k : Z) (Hk : 0 <= k < 64) (Hi : rd inp i = Some (digit k)).

Ltac decode_digit :=
  unfold decode_step; rewrite Hi; cbn [mbind option_bind];
  destruct (digit_decodes k Hk) as (Hp & Hr & Hd);
  rewrite (decide_False (P := digit k = BASE64_PAD)), (decide_False (P := _ ∨ _)) by done;
  rewrite Hd; cbn [mbind option_bind]; rewrite (decide_False (P := k = -1)) by lia.

Lemma decode_step_0 done x tail j : i mod 4 = 0 -> j = length done ->
  decode_step inp inlen i j (done ++ x :: tail)
  = Some (DecGo j (done ++ (k * 4) mod 256 :: tail)).
Proof.
  intros Hm ->. decode_digit. rewrite decide_True by done.
  rewrite store_app_at by done. cbn. bitsimpl. do 4 f_equal.
Qed.

(** Completing a cell: its low bits are zero, so [+=] does not overflow. *)
Lemma add_cell_here done x v tail j : j = length done -> 0 <= x -> 0 <= v -> x + v < 256 ->
  add_cell (done ++ x :: tail) j v = Some (done ++ (x + v) :: tail).
Proof.
  intros. unfold add_cell. rewrite lookup_app_at by done. cbn [mbind option_bind].
  rewrite u8_small by (unfold is_byte; lia). by apply store_app_at.
Qed.

Lemma decode_step_1 done x tail tail' j : i mod 4 = 1 -> j = length done ->
  0 <= x -> x + k / 16 < 256 ->
  start_next inp inlen i 3 (S j) (k mod 16 * 16) (done ++ (x + k / 16) :: tail) = Some tail' ->
  decode_step inp inlen i j (done ++ x :: tail) = Some (DecGo (S j) tail').
Proof.
  intros Hm -> Hx Hb Hs. decode_digit. rewrite decide_False, decide_True by lia.
  bitsimpl. change (2 ^ 4) with 16. rewrite (Z.mod_small (k / 16)) by div_lia.
  rewrite add_cell_here by (auto; div_lia). cbn [mbind option_bind].
  change (2 ^ 4) with 16 in *.
  rewrite u8_small by (unfold is_byte; div_lia). by rewrite Hs.
Qed.

Lemma decode_step_2 done x tail tail' j : i mod 4 = 2 -> j = length done ->
  0 <= x -> x + k / 4 < 256 ->
  start_next inp inlen i 2 (S j) (k mod 4 * 64) (done ++ (x + k / 4) :: tail) = Some tail' ->
  decode_step inp inlen i j (done ++ x :: tail) = Some (DecGo (S j) tail').
Proof.
  intros Hm -> Hx Hb Hs. decode_digit. rewrite !decide_False, decide_True by lia.
  bitsimpl. change (2 ^ 2) with 4. rewrite (Z.mod_small (k / 4)) by div_lia.
  rewrite add_cell_here by (auto; div_lia). cbn [mbind option_bind].
  change (2 ^ 2) with 4 in *. change (2 ^ 6) with 64.
  rewrite u8_small by (unfold is_byte; div_lia). by rewrite Hs.
Qed.

Lemma decode_step_3 done x tail j : i mod 4 = 3 -> j = length done ->
  0 <= x -> x + k < 256 ->
  decode_step inp inlen i j (done ++ x :: tail)
  = Some (DecGo (S j) (done ++ (x + k) :: tail)).
Proof.
  intros Hm -> Hx Hb. decode_digit. rewrite !decide_False by lia.
  by rewrite add_cell_here by (auto; lia).
Qed.
End DecodeSteps.

Lemma decode_step_pad inp inlen i j out : rd inp i = Some BASE64_PAD ->
  decode_step inp inlen i j out = Some (DecRet (Z.of_nat j) out).
Proof. intros Hi. unfold decode_step. by rewrite Hi. Qed.

(** [start_next] far from the end, or before a digit: the next cell is written. *)
Lemma start_next_writes inp inlen i k j v done x tail :
  j = length done ->
  i < u32 (inlen - k) \/ (exists l, rd inp (u32 (inlen - (k - 1))) = Some l /\ l <> BASE64_PAD) ->
  start_next inp inlen i k j v (done ++ x :: tail) = Some (done ++ v :: tail).
Proof.
  intros -> Hc. unfold start_next. case_decide; [by apply store_app_at|].
  destruct Hc as [|(l & -> & Hl)]; [done|]. cbn [mbind option_bind].
  rewrite decide_True by done. by apply store_app_at.
Qed.

(** [start_next] before the padding: nothing is written. *)
Lemma start_next_pad inp inlen i k j v out :
  u32 (inlen - k) <= i -> rd inp (u32 (inlen - (k - 1))) = Some BASE64_PAD ->
  start_next inp inlen i k j v out = Some out.
Proof.
  intros ? Hl. unfold start_next. rewrite decide_False, Hl by lia. cbn [mbind option_bind].
  by rewrite decide_False by (intros []; done).
Qed.

(** One full group: four digits become three cells. *)
Lemma decode_group pre rest k0 k1 k2 k3 n done x0 x1 x2 tail :
  let inp := pre ++ digit k0 :: digit k1 :: digit k2 :: digit k3 :: rest in
  let inlen := Z.of_nat (length inp) in
  let i := Z.of_nat (length pre) in
  i mod 4 = 0 -> inlen < 2 ^ 32 -> (length rest = 0 \/ 4 <= length rest)%nat ->
  0 <= k0 < 64 -> 0 <= k1 < 64 -> 0 <= k2 < 64 -> 0 <= k3 < 64 ->
  decode_loop inp inlen (4 + n) i (length done) (done ++ x0 :: x1 :: x2 :: tail)
  = decode_loop inp inlen n (i + 4) (length done + 3)
      (done ++ (k0 * 4 + k1 / 16) :: (k1 mod 16 * 16 + k2 / 4) :: (k2 mod 4 * 64 + k3) :: tail).
Proof.
  intros inp inlen i Hi Hlen Hrest Hk0 Hk1 Hk2 Hk3.
  assert (Hl : inlen = i + 4 + Z.of_nat (length rest))
    by (subst inlen inp i; rewrite length_app; cbn [length]; lia).
  cbn [Nat.add decode_loop].
  rewrite (decode_step_0 _ _ _ k0) by (done || (subst inp i; rd_prefix)).
  cbn [mbind option_bind]. rewrite Z.mod_small by lia.
  rewrite (decode_step_1 _ _ _ k1 Hk1) with
    (tail' := (done ++ [k0 * 4 + k1 / 16]) ++ (k1 mod 16 * 16) :: x2 :: tail);
    [ | subst inp i; rd_prefix | div_lia | done | lia | div_lia | ].
  2: { rewrite cons_middle, app_assoc. apply start_next_writes.
       - rewrite length_app. simpl. lia.
       - destruct Hrest; [right; exists (digit k2) | left; rewrite u32_small; lia].
         split; [|apply digit_decodes; lia]. rewrite u32_small by lia. subst inp i. rd_prefix. }
  cbn [mbind option_bind].
  rewrite (decode_step_2 _ _ _ k2 Hk2) with
    (tail' := (done ++ [k0 * 4 + k1 / 16; k1 mod 16 * 16 + k2 / 4]) ++ (k2 mod 4 * 64) :: tail);
    [ | subst inp i; rd_prefix | div_lia | rewrite length_app; simpl; lia | div_lia | div_lia | ].
  2: { rewrite <- app_assoc. cbn [app]. rewrite (cons_middle (k0 * 4 + k1 / 16)), app_assoc.
       rewrite (cons_middle (k1 mod 16 * 16 + k2 / 4)), app_assoc.
       rewrite <- (app_assoc done). apply start_next_writes.
       - rewrite !length_app. simpl. lia.
       - destruct Hrest; [right; exists (digit k3) | left; rewrite u32_small; lia].
         split; [|apply digit_decodes; lia]. rewrite u32_small by lia. subst inp i. rd_prefix. }
  cbn [mbind option_bind].
  rewrite (decode_step_3 _ _ _ k3 Hk3);
    [ | subst inp i; rd_prefix | div_lia | rewrite length_app; simpl; lia | div_lia | div_lia ].
  cbn [mbind option_bind]. rewrite <- app_assoc. f_equal; lia.
Qed.

Lemma rfc_encode_nonshort l : (length (rfc_encode l) = 0 \/ 4 <= length (rfc_encode l))%nat.
Proof.
  destruct l as [|a [|b [|c l]]]; cbn; [by left|right..]; lia.
Qed.

(** The last group, with one or two input bytes and the padding. *)
Section LastGroup.
Context (pre : list Z) (done : list Z) (k0 k1 k2 : Z).
Context (Hi : Z.of_nat (length pre) mod 4 = 0) (Hlen : Z.of_nat (length pre) + 4 < 2 ^ 32).
Context (Hk0 : 0 <= k0 < 64) (Hk1 : 0 <= k1 < 64) (Hk2 : 0 <= k2 < 64).

Lemma decode_last1 x :
  decode_loop (pre ++ [digit k0; digit k1; BASE64_PAD; BASE64_PAD])
    (Z.of_nat (length pre) + 4) 4 (Z.of_nat (length pre)) (length done) (done ++ [x])
  = Some (Z.of_nat (S (length done)), done ++ [k0 * 4 + k1 / 16]).
Proof.
  cbn [decode_loop].
  rewrite (decode_step_0 _ _ _ k0) by (done || rd_prefix). cbn [mbind option_bind].
  rewrite Z.mod_small by lia.
  rewrite (decode_step_1 _ _ _ k1) with (tail' := done ++ [k0 * 4 + k1 / 16]);
    [ | done | rd_prefix | div_lia | done | lia | div_lia | ].
  2: { apply start_next_pad; rewrite u32_small by lia; [lia | rd_prefix]. }
  cbn [mbind option_bind]. by rewrite decode_step_pad by rd_prefix.
Qed.

Lemma decode_last2 x y :
  decode_loop (pre ++ [digit k0; digit k1; digit k2; BASE64_PAD])
    (Z.of_nat (length pre) + 4) 4 (Z.of_nat (length pre)) (length done) (done ++ [x; y])
  = Some (Z.of_nat (S (S (length done))),
          done ++ [k0 * 4 + k1 / 16; k1 mod 16 * 16 + k2 / 4]).
Proof.
  cbn [decode_loop].
  rewrite (decode_step_0 _ _ _ k0) by (done || rd_prefix). cbn [mbind option_bind].
  rewrite Z.mod_small by lia.
  rewrite (decode_step_1 _ _ _ k1) with
    (tail' := (done ++ [k0 * 4 + k1 / 16]) ++ [k1 mod 16 * 16]);
    [ | done | rd_prefix | div_lia | done | lia | div_lia | ].
  2: { rewrite (cons_middle _ done [y]), app_assoc.
       apply start_next_writes; [rewrite length_app; simpl; lia|].
       right. exists (digit k2). split; [|by apply digit_decodes].
       rewrite u32_small by lia. rd_prefix. }
  cbn [mbind option_bind].
  rewrite (decode_step_2 _ _ _ k2) with
    (tail' := (done ++ [k0 * 4 + k1 / 16]) ++ [k1 mod 16 * 16 + k2 / 4]);
    [ | done | rd_prefix | div_lia | rewrite length_app; simpl; lia | div_lia | div_lia | ].
  2: { apply start_next_pad; rewrite u32_small by lia; [lia | rd_prefix]. }
  cbn [mbind option_bind]. rewrite decode_step_pad by rd_prefix.
  cbn [mbind option_bind]. by rewrite <- app_assoc.
Qed.
End LastGroup.

Lemma decode_suffix l : forall pre done tail,
  let inp := pre ++ rfc_encode l in
  Z.of_nat (length pre) mod 4 = 0 -> bytes_ok l -> length tail = length l ->
  Z.of_nat (length inp) < 2 ^ 32 ->
  decode_loop inp (Z.of_nat (length inp)) (length (rfc_encode l)) (Z.of_nat (length pre))
    (length done) (done ++ tail)
  = Some (Z.of_nat (length done + length l), done ++ l).
Proof.
  induction l as [|a|a b|a b c l IH] using list_ind3; intros pre done tail inp Hi Hl Ht Hlen;
    unfold inp in *; clear inp.
  - destruct tail; [|done]. cbn. by rewrite Nat.add_0_r.
  - apply Forall_cons in Hl as [[??] _]. destruct tail as [|x [|]]; try done.
    rewrite length_app in *. unfold sextets in *. cbn [rfc_encode take sextets app length] in *.
    rewrite Nat2Z.inj_add, (decode_last1 _ _ _ _ 0) by (lia || div_lia).
    do 2 f_equal; [lia | do 2 f_equal; div_lia].
  - apply Forall_cons in Hl as [[??] [[??] _]%Forall_cons].
    destruct tail as [|x [|y [|]]]; try done.
    rewrite length_app in *. unfold sextets in *. cbn [rfc_encode take sextets app length] in *.
    rewrite Nat2Z.inj_add, decode_last2 by (lia || div_lia).
    do 2 f_equal; [lia | do 2 f_equal; [|f_equal]; div_lia].
  - apply Forall_cons in Hl as [Ha [Hb [Hc Hl]%Forall_cons]%Forall_cons].
    destruct tail as [|x0 [|x1 [|x2 tail]]]; try done.
    cbn [rfc_encode] in *. rewrite sextets_3 in * by done. cbn [app] in *.
    pose proof (rfc_encode_nonshort l). destruct Ha, Hb, Hc.
    change (length (_ :: _ :: _ :: _ :: rfc_encode l)) with (4 + length (rfc_encode l))%nat.
    rewrite (decode_group pre (rfc_encode l)) by (done || div_lia).
    specialize (IH (pre ++ [digit (a / 4); digit (a mod 4 * 16 + b / 16);
      digit (b mod 16 * 4 + c / 64); digit (c mod 64)]) (done ++ [a; b; c]) tail).
    cbn zeta in IH. rewrite <- !app_assoc in IH. cbn [app] in IH.
    replace (_ * 4 + _ / 16) with a by div_lia.
    replace (_ mod 16 * 16 + _ / 4) with b by div_lia.
    replace (_ mod 4 * 64 + _) with c by div_lia.
    rewrite (length_app pre [_; _; _; _]), (length_app done [_; _; _]) in IH.
    cbn [length] in *. rewrite (Nat2Z.inj_add _ 4) in IH.
    change (Z.of_nat 4) with 4 in IH. injection Ht as Ht.
    rewrite IH by (done || div_lia). do 2 f_equal. lia.
Qed.

(** [C35] Round trip: decoding the encoding of [l] gives back [l] and its
    length, in an output array of exactly [length l] cells: on padded input the
    decoder never writes past the decoded data. *)
Theorem base64_roundtrip l enc out :
  l <> [] -> bytes_ok l -> Z.of_nat (length l) < 2 ^ 31 -> length out = length l ->
  hv_base64_encode l (Z.of_nat (length l)) = Some enc ->
  hv_base64_decode enc (Z.of_nat (length enc)) out = Some (Z.of_nat (length l), l).
Proof.
  intros Hne Hl Hlen Hout Henc.
  pose proof (encode_whole l [] Hne Hl ltac:(lia)) as E. rewrite app_nil_r in E.
  rewrite E in Henc. injection Henc as <-.
  pose proof (rfc_encode_length l).
  unfold hv_base64_decode. rewrite Nat2Z.id.
  apply (decode_suffix l [] [] out); cbn [app]; auto. div_lia.
Qed.

Lemma base64_roundtrip_witness :
  hv_base64_decode [77; 84; 73; 122; 78; 65; 61; 61] 8 [0; 0; 0; 0] = Some (4, [49; 50; 51; 52]).
Proof.
  apply (base64_roundtrip [49; 50; 51; 52] [77; 84; 73; 122; 78; 65; 61; 61]).
  - discriminate.
  - repeat constructor; lia.
  - reflexivity.
  - reflexivity.
  - vm_compute. reflexivity.
Defined.

(** An empty input makes the encoder read outside of its buffer: [i -= 1]
    wraps to [UINT_MAX], a multiple of three, so the padding code reads
    [in[UINT_MAX]] (and would write four characters that the caller's
    [BASE64_ENCODE_OUT_SIZE(0) = 0] does not reserve). *)
Theorem hv_base64_encode_empty_oob inp :
  Z.of_nat (length inp) < 2 ^ 32 -> hv_base64_encode inp 0 = None.
Proof.
  intros. apply encode_pad_oob; [done|].
  change (u32 (0 - 1)) with (2 ^ 32 - 1). lia.
Qed.

Lemma hv_base64_encode_empty_oob_witness : hv_base64_encode [1; 2; 3] 0 = None.
Proof. apply hv_base64_encode_empty_oob. reflexivity. Defined.

(** Unpadded input: the cell after the last decoded byte is started and the
    caller's [BASE64_DECODE_OUT_SIZE(3) + 1] = 1 byte buffer is overrun. *)
Example decode_unpadded_oob : hv_base64_decode [84; 87; 69] 3 [0] = None.
Proof. vm_compute. reflexivity. Qed.

End Base64.
