(* ===== verification/Varint.v ===== *)
(** * Variable-length integers and powers of two: [libs/libhv/base/hmath.h]

    [varint_encode] and [varint_decode] on [long long], used by the
    length-field unpacker and by MQTT; [floor2e] and [ceil2e] on [unsigned long],
    by which buffers grow. *)

From S2P Require Import Prelude.

(** The conversion to [long long]. *)
Definition i64 (z : Z) : Z := (z + 2 ^ 63) mod 2 ^ 64 - 2 ^ 63.

Lemma i64_small z : - 2 ^ 63 <= z < 2 ^ 63 -> i64 z = z.
Proof. intros ?. unfold i64. rewrite Z.mod_small; lia. Qed.

(** The loop of [varint_encode], one byte per iteration. *)
Fixpoint varint_encode_loop (fuel : nat) (value : Z) : option (list Z) :=
  match fuel with
  | O => None
  | S fuel' =>
      let ch := Z.land value 0x7F in
      let value' := Z.shiftr value 7 in
      let b := if decide (value' = 0) then ch else Z.lor ch 0x80 in
      if decide (value' = 0) then Some [b]
      else bs ← varint_encode_loop fuel' value'; Some (b :: bs)
  end.

(** [varint_encode]: the bytes written.  A non-negative [long long] has at
    most nine groups of seven bits. *)
Definition varint_encode (value : Z) : option (list Z) := varint_encode_loop 9 value.

(** The loop of [varint_decode] from the byte number [bytes]: the value and
    the new [*len]; [None] is a read after the end of the buffer. *)
Fixpoint varint_decode_loop (fuel : nat) (p : list Z) (len bytes bits ret : Z) : option (Z * Z) :=
  match fuel with
  | O => Some (ret, -1)
  | S fuel' =>
      if decide (len <> 0 /\ bytes = len) then Some (0, 0)
      else
        b ← head p;
        let ret := Z.lor ret (i64 (Z.shiftl (Z.land b 0x7F) bits)) in
        if decide (Z.land b 0x80 = 0) then Some (ret, bytes + 1)
        else varint_decode_loop fuel' (tail p) len (bytes + 1) (bits + 7) ret
  end.

(** [varint_decode] ([bytes < 10]); [len] is the value of [*len] on entry. *)
Definition varint_decode (buf : list Z) (len : Z) : option (Z * Z) :=
  varint_decode_loop 10 buf len 0 0 0.

(** ** Powers of two *)

(** [while (n >>= 1) ++e;] *)
Fixpoint log_loop (fuel : nat) (n e : Z) : option Z :=
  match fuel with
  | O => None
  | S fuel' => let n := Z.shiftr n 1 in if decide (n = 0) then Some e else log_loop fuel' n (e + 1)
  end.

(** [while (e--) ret <<= 1;] *)
Fixpoint shift_loop (e : nat) (ret : Z) : Z :=
  match e with O => ret | S e' => shift_loop e' (u64 (Z.shiftl ret 1)) end.

Definition floor2e (num : Z) : option Z := e ← log_loop 64 num 0; Some (shift_loop (Z.to_nat e) 1).
Definition ceil2e (num : Z) : option Z :=
  if decide (num = 0 \/ num = 1) then Some 1
  else e ← log_loop 64 (num - 1) 1; Some (shift_loop (Z.to_nat e) 1).

(** ** Lemmas *)

Lemma continuation_byte x : 0 <= x ->
  Z.land (Z.lor (Z.land x 0x7F) 0x80) 0x7F = x mod 128 /\ Z.land (Z.lor (Z.land x 0x7F) 0x80) 0x80 = 128.
Proof.
  intros Hx. assert (H : Forall (fun y => Z.land (Z.lor y 0x80) 0x7F = y /\ Z.land (Z.lor y 0x80) 0x80 = 128) (seqZ 0 128)).
  { apply (bool_decide_unpack _). vm_compute. done. }
  rewrite Forall_forall in H. assert (Z.land x 0x7F = x mod 128) as -> by by bitsimpl.
  apply H, elem_of_seqZ. div_lia.
Qed.

Lemma final_byte x : 0 <= x < 128 -> Z.land (Z.land x 0x7F) 0x7F = x /\ Z.land (Z.land x 0x7F) 0x80 = 0.
Proof.
  intros Hx. assert (H : Forall (fun y => Z.land (Z.land y 0x7F) 0x7F = y /\ Z.land (Z.land y 0x7F) 0x80 = 0) (seqZ 0 128)).
  { apply (bool_decide_unpack _). vm_compute. done. }
  rewrite Forall_forall in H. apply H, elem_of_seqZ. lia.
Qed.

(** Adding seven bits to a value that has [bits] bits already. *)
Lemma group_add ret x bits : 0 <= bits -> 0 <= ret < 2 ^ bits -> 0 <= x ->
  x * 2 ^ bits < 2 ^ 63 -> Z.lor ret (i64 (Z.shiftl x bits)) = ret + x * 2 ^ bits.
Proof.
  intros Hb Hr Hx Hlt. rewrite Z.shiftl_mul_pow2 by lia.
  rewrite i64_small by nia. rewrite Z.lor_comm, (lor_add_low x ret bits) by lia. lia.
Qed.

Lemma decode_final fuel v rest len bytes bits ret : Z.shiftr v 7 = 0 -> 0 <= v ->
  0 <= bits -> 0 <= bytes -> 0 <= ret < 2 ^ bits -> v * 2 ^ bits < 2 ^ 63 -> len = 0 \/ bytes + 1 <= len ->
  varint_decode_loop (S fuel) (Z.land v 0x7F :: rest) len bytes bits ret
  = Some (ret + v * 2 ^ bits, bytes + 1).
Proof.
  intros Hs Hv Hb Hby Hr Hlt Hl. revert Hs. bitsimpl. intros Hs.
  destruct (final_byte v) as [F1 F2]; [div_lia|].
  replace (v mod 2 ^ 7) with (Z.land v 0x7F) by by bitsimpl.
  cbn [varint_decode_loop head mbind option_bind]. rewrite decide_False by lia.
  rewrite F1, F2, group_add by (done || lia). done.
Qed.

(** The encoder's loop, read back by the decoder's. *)
Lemma varint_loop_roundtrip n : forall v fuel, 0 <= v < 2 ^ (7 * Z.of_nat (S n)) -> (n <= fuel)%nat ->
  exists bs, varint_encode_loop (S n) v = Some bs /\ (1 <= length bs <= S n)%nat /\
    (forall rest len bytes bits ret, 0 <= bits -> 0 <= bytes -> 0 <= ret < 2 ^ bits ->
       v * 2 ^ bits < 2 ^ 63 -> len = 0 \/ bytes + Z.of_nat (length bs) <= len ->
       varint_decode_loop (S fuel) (bs ++ rest) len bytes bits ret
       = Some (ret + v * 2 ^ bits, bytes + Z.of_nat (length bs))).
Proof.
  induction n as [|n IH]; intros v fuel Hv Hf; cbn [varint_encode_loop]; cbn zeta.
  - assert (Hs : Z.shiftr v 7 = 0) by (bitsimpl; cbn in Hv; div_lia).
    destruct (decide (Z.shiftr v 7 = 0)); [|done]. eexists. split; [done|]. split; [cbn; lia|].
    intros rest len bytes bits ret Hb Hby Hr Hlt Hl. apply decode_final; try done; cbn in *; lia.
  - destruct (decide (Z.shiftr v 7 = 0)) as [Hs|Hs].
    + eexists. split; [done|]. split; [cbn; lia|]. intros rest len bytes bits ret Hb Hby Hr Hlt Hl.
      apply decode_final; try done; cbn in *; lia.
    + destruct fuel as [|fuel]; [lia|].
      assert (0 <= Z.shiftr v 7 < 2 ^ (7 * Z.of_nat (S n))) as Hv'.
      { bitsimpl. split; [apply Z.div_pos; lia|]. apply Z.div_lt_upper_bound; [lia|].
        rewrite <- Z.pow_add_r by lia. replace (7 + 7 * Z.of_nat (S n)) with (7 * Z.of_nat (S (S n))) by lia. lia. }
      destruct (IH (Z.shiftr v 7) fuel Hv') as (bs & E & Hlen & Hdec); [lia|].
      cbn [varint_encode_loop] in E. rewrite E. cbn [mbind option_bind]. eexists. split; [done|]. split; [cbn; lia|].
      intros rest len bytes bits ret Hb Hby Hr Hlt Hl.
      destruct (continuation_byte v) as [C1 C2]; [lia|].
      remember (S fuel) as f1 eqn:Hf1. cbn [varint_decode_loop app head length] in *.
      rewrite decide_False by lia. cbn [mbind option_bind tail].
      rewrite C1, C2, decide_False by lia.
      assert (Hsplit : v = v / 128 * 128 + v mod 128) by div_lia.
      assert (Hv7 : Z.shiftr v 7 = v / 128) by by bitsimpl. rewrite Hv7 in *.
      assert (0 <= v mod 128 < 128) by div_lia.
      assert (0 <= v / 128) by div_lia.
      assert (H2 : 2 ^ (bits + 7) = 2 ^ bits * 128) by (rewrite Z.pow_add_r by lia; done).
      rewrite group_add by nia. rewrite Hdec; [|lia|lia|rewrite H2; nia|rewrite H2; nia|lia].
      f_equal. f_equal; [rewrite H2; nia | lia].
Qed.

(** A prefix of an encoding that is not the whole says "not enough". *)
Lemma varint_loop_prefix n : forall v fuel bs k len bytes bits ret, 0 <= v ->
  varint_encode_loop n v = Some bs -> (k < length bs)%nat -> (k < fuel)%nat -> 0 <= bytes -> len <> 0 ->
  len = bytes + Z.of_nat k ->
  varint_decode_loop fuel (take k bs) len bytes bits ret = Some (0, 0).
Proof.
  induction n as [|n IH]; intros v fuel bs k len bytes bits ret Hv E Hk Hf Hby Hl0 Hl; [done|].
  destruct fuel as [|fuel]; [lia|]. cbn [varint_encode_loop] in E. cbn zeta in E. cbn [varint_decode_loop].
  destruct k as [|k]; [by rewrite decide_True by lia|].
  rewrite decide_False by lia. case_decide as Hs.
  - injection E as <-. cbn in Hk. lia.
  - destruct (varint_encode_loop n (Z.shiftr v 7)) as [bs'|] eqn:E'; [|done]. injection E as <-.
    cbn [take head mbind option_bind tail]. destruct (continuation_byte v Hv) as [_ C2].
    rewrite C2, decide_False by lia. apply (IH (Z.shiftr v 7)); try done; try (cbn in Hk; lia).
    apply Z.shiftr_nonneg. lia.
Qed.

Lemma negative_never_ends fuel v : v < 0 -> varint_encode_loop fuel v = None.
Proof.
  revert v. induction fuel as [|fuel IH]; intros v Hv; [done|]. cbn [varint_encode_loop].
  assert (Z.shiftr v 7 < 0) by (bitsimpl; div_lia).
  rewrite decide_False by lia. by rewrite IH.
Qed.

(** The outcome of a decoding does not change when bytes follow, and only a
    buffer of less than ten bytes can be too short. *)
Lemma varint_loop_more fuel : forall p len bytes bits ret v k ext, 0 <= bytes ->
  len = bytes + Z.of_nat (length p) ->
  varint_decode_loop fuel p len bytes bits ret = Some (v, k) -> k <> 0 ->
  varint_decode_loop fuel (p ++ ext) (len + Z.of_nat (length ext)) bytes bits ret = Some (v, k).
Proof.
  induction fuel as [|fuel IH]; intros p len bytes bits ret v k ext Hb Hl; [done|].
  cbn [varint_decode_loop]. case_decide as H; [intros [= <- <-]; done|]. intros E Hk.
  destruct p as [|b p]; [done|]. rewrite decide_False by (cbn in Hl; lia).
  cbn [head app mbind option_bind tail] in *. case_decide; [done|].
  apply IH; [lia | cbn in Hl; lia | done | done].
Qed.

Lemma varint_loop_total fuel : forall p len bytes bits ret, 0 <= bytes -> len <> 0 ->
  len = bytes + Z.of_nat (length p) ->
  exists v k, varint_decode_loop fuel p len bytes bits ret = Some (v, k) /\
    (k = 0 -> Z.of_nat (length p) < Z.of_nat fuel) /\ (k = -1 \/ k = 0 \/ bytes < k <= len).
Proof.
  induction fuel as [|fuel IH]; intros p len bytes bits ret Hb H0 Hl; cbn [varint_decode_loop].
  - do 2 eexists. split; [done|]. lia.
  - case_decide as H; [do 2 eexists; split; [done|]; lia|].
    destruct p as [|b p]; [cbn in Hl; lia|]. cbn [head mbind option_bind tail] in *.
    case_decide; [do 2 eexists; split; [done|]; cbn in Hl; lia|].
    destruct (IH p len (bytes + 1) (bits + 7) (Z.lor ret (i64 (Z.shiftl (Z.land b 127) bits)))) as (v & k & E & Hz & Hr);
      [lia | done | cbn in Hl; lia |].
    exists v, k. split; [done|]. split; [intros Hk0; specialize (Hz Hk0); cbn; lia | lia].
Qed.

(** ** Properties *)

(** Every non-negative [long long] is encoded in at most nine bytes, and
    decoding them gives the value and their number, whatever follows and
    whether or not the length of the buffer is known; a proper non-empty
    prefix of the encoding decodes as "not enough bytes". *)
Theorem varint_roundtrip v : 0 <= v < 2 ^ 63 ->
  exists bs, varint_encode v = Some bs /\ (1 <= length bs <= 9)%nat /\
    (forall rest len, len = 0 \/ Z.of_nat (length bs) <= len ->
       varint_decode (bs ++ rest) len = Some (v, Z.of_nat (length bs))) /\
    (forall k, (0 < k < length bs)%nat -> varint_decode (take k bs) (Z.of_nat k) = Some (0, 0)).
Proof.
  intros Hv. destruct (varint_loop_roundtrip 8 v 9) as (bs & E & Hl & H); [cbn; lia | lia |].
  exists bs. split; [done|]. split; [lia|]. split.
  - intros rest len Hlen. unfold varint_decode. rewrite H by (cbn; lia).
    rewrite Z.pow_0_r, Z.mul_1_r. done.
  - intros k Hk. apply (varint_loop_prefix 9 v); try done; lia.
Qed.

Lemma varint_roundtrip_witness :
  exists bs, varint_encode 300 = Some bs /\ (1 <= length bs <= 9)%nat /\
    (forall rest len, len = 0 \/ Z.of_nat (length bs) <= len ->
       varint_decode (bs ++ rest) len = Some (300, Z.of_nat (length bs))) /\
    (forall k, (0 < k < length bs)%nat -> varint_decode (take k bs) (Z.of_nat k) = Some (0, 0)).
Proof. apply (varint_roundtrip 300). lia. Defined.

(** [varint_encode] of a negative number never returns: its arithmetic
    shift right does not reach 0, and it writes on after the end of any
    buffer. *)
Theorem varint_encode_negative v : v < 0 -> forall fuel, varint_encode_loop fuel v = None.
Proof. intros Hv fuel. by apply negative_never_ends. Qed.

Lemma varint_encode_negative_witness : varint_encode_loop 64 (-1) = None.
Proof. apply (varint_encode_negative (-1)). lia. Defined.

(** ** Powers of two *)

Lemma log_loop_log2 fuel : forall n e, 0 < n < 2 ^ Z.of_nat fuel -> log_loop fuel n e = Some (e + Z.log2 n).
Proof.
  induction fuel as [|fuel IH]; intros n e Hn; [cbn in Hn; lia|]. cbn [log_loop].
  rewrite Z.shiftr_div_pow2 by lia. change (2 ^ 1) with 2.
  rewrite Nat2Z.inj_succ, Z.pow_succ_r in Hn by lia.
  case_decide as Hz.
  - assert (n = 1) as -> by div_lia. cbn. f_equal. lia.
  - rewrite IH by div_lia. f_equal. replace (Z.log2 n) with (Z.succ (Z.log2 (n / 2))); [lia|].
    rewrite <- Z.div2_div. rewrite (Z.div2_odd n) at 2. destruct (Z.odd n).
    + rewrite Z.log2_succ_double; [done | rewrite Z.div2_div; div_lia].
    + rewrite Z.add_0_r, Z.log2_double; [done | rewrite Z.div2_div; div_lia].
Qed.

Lemma shift_loop_pow e : forall k, 0 <= k -> shift_loop e (u64 (2 ^ k)) = u64 (2 ^ (k + Z.of_nat e)).
Proof.
  induction e as [|e IH]; intros k Hk; cbn [shift_loop]; [f_equal; f_equal; lia|].
  assert (E : u64 (Z.shiftl (u64 (2 ^ k)) 1) = u64 (2 ^ (k + 1))).
  { rewrite Z.shiftl_mul_pow2, Z.pow_add_r by lia. unfold u64. apply Z.mul_mod_idemp_l. lia. }
  rewrite E, IH by lia. do 2 f_equal. lia.
Qed.

Lemma shift_loop_1 e : 0 <= e -> shift_loop (Z.to_nat e) 1 = u64 (2 ^ e).
Proof.
  intros He. change 1 with (u64 (2 ^ 0)) at 1. rewrite shift_loop_pow by lia. do 2 f_equal. lia.
Qed.

(** [floor2e] and [ceil2e] end and give the powers of two next to a number, from
    below and from above; above [2^63] there is none from above and the result
    is 0. *)
Theorem powers_of_two num : 1 <= num < 2 ^ 64 ->
  floor2e num = Some (2 ^ Z.log2 num) /\
  ceil2e num = Some (if decide (num <= 2 ^ 63) then 2 ^ Z.log2_up num else 0).
Proof.
  intros Hn. split.
  - unfold floor2e. rewrite log_loop_log2 by lia. cbn [mbind option_bind]. f_equal.
    rewrite shift_loop_1 by apply Z.log2_nonneg. apply u64_small. split; [apply Z.pow_nonneg; lia|].
    apply Z.pow_lt_mono_r; [lia.. |]. apply Z.log2_lt_pow2; lia.
  - unfold ceil2e. case_decide as H1; [assert (num = 1) as -> by lia; done|].
    rewrite log_loop_log2 by lia. cbn [mbind option_bind]. f_equal.
    rewrite shift_loop_1 by (pose proof (Z.log2_nonneg (num - 1)); lia).
    assert (Eu : Z.log2_up num = 1 + Z.log2 (num - 1)) by (rewrite Z.log2_up_eqn, Z.sub_1_r by lia; lia).
    rewrite <- Eu. case_decide as Hle.
    + apply u64_small. split; [apply Z.pow_nonneg; lia|]. apply Z.pow_lt_mono_r; [lia.. |].
      assert (Z.log2_up num <= 63) by (apply Z.log2_up_le_pow2; lia). lia.
    + assert (Z.log2_up num = 64) as ->; [|done].
      assert (63 < Z.log2_up num) by (apply Z.log2_up_lt_pow2; lia).
      assert (Z.log2_up num <= 64) by (apply Z.log2_up_le_pow2; lia). lia.
Qed.

(** So a buffer that grows to [ceil2e] has room, and is less than twice too big. *)
Lemma ceil2e_bounds num : 1 <= num <= 2 ^ 63 -> exists n, ceil2e num = Some n /\ num <= n < 2 * num.
Proof.
  intros Hn. destruct (powers_of_two num) as [_ E]; [lia|]. rewrite decide_True in E by lia.
  eexists. split; [exact E|]. destruct (decide (num = 1)) as [->|]; [cbn; lia|].
  destruct (Z.log2_up_spec num) as [Hlo Hhi]; [lia|]. assert (0 < Z.log2_up num) by (apply Z.log2_up_pos; lia).
  split; [done|]. rewrite <- (Z.succ_pred (Z.log2_up num)), Z.pow_succ_r by lia. lia.
Qed.

Lemma powers_of_two_witness : floor2e 100 = Some 64 /\ ceil2e 100 = Some 128 /\ ceil2e (2 ^ 63 + 1) = Some 0.
Proof.
  split_and!; [exact (proj1 (powers_of_two 100 ltac:(lia))) | exact (proj2 (powers_of_two 100 ltac:(lia))) |
    exact (proj2 (powers_of_two (2 ^ 63 + 1) ltac:(lia)))].
Defined.
