(* ===== verification/BlockHash.v ===== *)
(** * Hashing by blocks: what [util/sha1.c] and [util/md5.c] of libhv share

    Both functions take a message in pieces of any size, keep what does not fill
    a block of 64 bytes, count the bits in two words and pad the end.  This file
    has the reference: [absorb] compresses the whole blocks of a message, [pad]
    is the padding of both standards, and [holds] says what the variables of a
    context are after a message. *)

From S2P Require Import Prelude.

(** [n] bytes at [data + i]; [None] is an access outside of [data]. *)
Definition slice (data : list Z) (i n : Z) : option (list Z) :=
  if decide (0 <= i /\ 0 <= n /\ i + n <= Z.of_nat (length data))
  then Some (take (Z.to_nat n) (drop (Z.to_nat i) data)) else None.

(** 32-bit words. *)
Definition rol (value bits : Z) : Z := Z.lor (u32 (Z.shiftl value bits)) (Z.shiftr value (32 - bits)).
Definition not32 (x : Z) : Z := Z.lxor x 0xFFFFFFFF.

Definition le_word (b0 b1 b2 b3 : Z) : Z :=
  Z.lor b0 (Z.lor (Z.shiftl b1 8) (Z.lor (Z.shiftl b2 16) (Z.shiftl b3 24))).
Fixpoint le_words (l : list Z) : list Z :=
  match l with
  | b0 :: b1 :: b2 :: b3 :: l' => le_word b0 b1 b2 b3 :: le_words l'
  | _ => []
  end.
Fixpoint be_words (l : list Z) : list Z :=
  match l with
  | b0 :: b1 :: b2 :: b3 :: l' => le_word b3 b2 b1 b0 :: be_words l'
  | _ => []
  end.

(** The bytes of a word, least significant first. *)
Definition word_bytes (w : Z) : list Z :=
  [Z.land w 255; Z.land (Z.shiftr w 8) 255; Z.land (Z.shiftr w 16) 255; Z.land (Z.shiftr w 24) 255].

(** Two words count the bits: [len] more bytes, with the carry of the first word
    found by one of two comparisons. *)
Definition count_low (c0 len : Z) : Z := u32 (c0 + u32 (Z.shiftl len 3)).
Definition count_high (carry : bool) (c1 len : Z) : Z := u32 (u32 (c1 + if carry then 1 else 0) + Z.shiftr len 29).

Lemma carry_same c0 len : 0 <= c0 < 2 ^ 32 ->
  bool_decide (count_low c0 len < u32 (Z.shiftl len 3)) = bool_decide (count_low c0 len < c0).
Proof.
  intros Hc. unfold count_low, u32. bitsimpl. apply bool_decide_ext. div_lia.
Qed.

Lemma count_adds c0 c1 len : 0 <= c0 < 2 ^ 32 -> 0 <= c1 < 2 ^ 32 -> 0 <= len < 2 ^ 32 ->
  count_high (bool_decide (count_low c0 len < c0)) c1 len * 2 ^ 32 + count_low c0 len =
  u64 (c1 * 2 ^ 32 + c0 + 8 * len).
Proof.
  intros Hc0 Hc1 Hl. unfold count_high, count_low, u32, u64. bitsimpl.
  case_bool_decide; div_lia.
Qed.

(** ** The reference *)

Section Absorb.
Context {T : Type} (compress : T -> list Z -> T).

Fixpoint chunks (n : nat) (l : list Z) : list (list Z) :=
  match n with O => [] | S n' => take 64 l :: chunks n' (drop 64 l) end.

(** The blocks of a message and the bytes after them. *)
Definition blocks (l : list Z) : nat := Nat.div (length l) 64.
Definition rest (l : list Z) : list Z := drop (64 * blocks l) l.
Definition absorb (s : T) (l : list Z) : T := foldl compress s (chunks (blocks l) l).

Lemma chunks_app n m l : chunks (n + m) l = chunks n l ++ chunks m (drop (64 * n) l).
Proof using Type.
  revert l. induction n as [|n IH]; intros l; [done|]. cbn [Nat.add chunks app]. f_equal.
  rewrite IH, drop_drop. do 3 f_equal. lia.
Qed.

Lemma chunks_prefix n l k : (64 * n <= length l)%nat -> chunks n (l ++ k) = chunks n l.
Proof using Type.
  revert l. induction n as [|n IH]; intros l Hn; [done|]. cbn [chunks]. f_equal.
  - rewrite take_app_le; [done | lia].
  - rewrite drop_app_le by lia. apply IH. rewrite length_drop. lia.
Qed.

Lemma blocks_exact l n : length l = (64 * n)%nat -> blocks l = n.
Proof using Type. intros E. unfold blocks. rewrite E. rewrite Nat.mul_comm. by apply Nat.div_mul. Qed.

Lemma blocks_split l : length l = (64 * blocks l + length (rest l))%nat /\ (length (rest l) < 64)%nat.
Proof using Type.
  unfold rest, blocks. rewrite length_drop.
  pose proof (Nat.div_mod_eq (length l) 64). pose proof (Nat.mod_upper_bound (length l) 64). lia.
Qed.

Lemma rest_split l : l = take (64 * blocks l) l ++ rest l.
Proof using Type. symmetry. apply take_drop. Qed.

(** Whole blocks come off the front. *)
Lemma absorb_app l n k s : length l = (64 * n)%nat -> absorb s (l ++ k) = absorb (absorb s l) k.
Proof using Type.
  intros E. unfold absorb. rewrite (blocks_exact l n E).
  assert (Hb : blocks (l ++ k) = (n + blocks k)%nat).
  { unfold blocks. rewrite length_app, E, Nat.mul_comm, Nat.add_comm, Nat.div_add by done. lia. }
  rewrite Hb, chunks_app, foldl_app, chunks_prefix by lia. by rewrite <- E, drop_app_length.
Qed.

Lemma rest_app l n k : length l = (64 * n)%nat -> rest (l ++ k) = rest k.
Proof using Type.
  intros E. unfold rest.
  assert (Hb : blocks (l ++ k) = (n + blocks k)%nat).
  { unfold blocks. rewrite length_app, E, Nat.mul_comm, Nat.add_comm, Nat.div_add by done. lia. }
  rewrite Hb, Nat.mul_add_distr_l, <- E, <- drop_drop. by rewrite drop_app_length.
Qed.

Lemma absorb_short s l : (length l < 64)%nat -> absorb s l = s.
Proof using Type. intros Hl. unfold absorb, blocks. by rewrite Nat.div_small. Qed.

Lemma rest_short l : (length l < 64)%nat -> rest l = l.
Proof using Type. intros Hl. unfold rest, blocks. by rewrite Nat.div_small. Qed.

Lemma absorb_block s l : length l = 64%nat -> absorb s l = compress s l.
Proof using Type. intros E. unfold absorb. rewrite (blocks_exact l 1) by lia. cbn. by rewrite firstn_all2 by lia. Qed.

(** A message goes on where its last whole block ended. *)
Lemma absorb_rest l k s : absorb s (l ++ k) = absorb (absorb s l) (rest l ++ k).
Proof using Type.
  destruct (blocks_split l) as [E Hr].
  assert (Ht : length (take (64 * blocks l) l) = (64 * blocks l)%nat) by (rewrite length_take; lia).
  assert (El : absorb s l = absorb s (take (64 * blocks l) l)).
  { rewrite (rest_split l) at 1. rewrite (absorb_app _ _ _ _ Ht). by apply absorb_short. }
  rewrite El, <- (absorb_app _ _ _ _ Ht), app_assoc. by rewrite <- rest_split.
Qed.

Lemma rest_rest l k : rest (l ++ k) = rest (rest l ++ k).
Proof using Type.
  destruct (blocks_split l) as [E Hr].
  assert (Ht : length (take (64 * blocks l) l) = (64 * blocks l)%nat) by (rewrite length_take; lia).
  rewrite <- (rest_app _ _ (rest l ++ k) Ht), app_assoc. by rewrite <- rest_split.
Qed.

(** ** What a context holds *)

Record holds (s0 s : T) (c0 c1 : Z) (buf msg : list Z) : Prop := mkHolds {
  holds_state : s = absorb s0 msg;
  holds_c0 : 0 <= c0 < 2 ^ 32;
  holds_c1 : 0 <= c1 < 2 ^ 32;
  holds_count : c1 * 2 ^ 32 + c0 = u64 (8 * Z.of_nat (length msg));
  holds_room : length buf = 64%nat;
  holds_buf : take (length (rest msg)) buf = rest msg;
}.

Lemma holds_used s0 s c0 c1 buf msg : holds s0 s c0 c1 buf msg ->
  Z.land (Z.shiftr c0 3) 63 = Z.of_nat (length (rest msg)).
Proof using Type.
  intros [_ H0 H1 Hc _ _]. destruct (blocks_split msg) as [E Hr]. bitsimpl.
  rewrite E in Hc. unfold u64 in Hc. revert Hc. rewrite Nat2Z.inj_add, Nat2Z.inj_mul.
  change (Z.of_nat 64) with 64. intros Hc. div_lia.
Qed.

(** The variables after [len] more bytes: the words of the count, and state and
    buffer in the two cases of an update. *)
Lemma holds_short s0 s c0 c1 buf msg data buf' carry :
  holds s0 s c0 c1 buf msg -> (length (rest msg) + length data < 64)%nat ->
  splice buf (length (rest msg)) data = Some buf' ->
  carry = bool_decide (count_low c0 (Z.of_nat (length data)) < c0) ->
  holds s0 s (count_low c0 (Z.of_nat (length data))) (count_high carry c1 (Z.of_nat (length data))) buf' (msg ++ data).
Proof using Type.
  intros [Hs H0 H1 Hc Hb Hr] Hl Hsp ->.
  assert (E : rest (msg ++ data) = rest msg ++ data) by (rewrite rest_rest; apply rest_short; rewrite length_app; lia).
  split.
  - rewrite absorb_rest, Hs. symmetry. apply absorb_short. rewrite length_app. lia.
  - apply u32_range.
  - apply u32_range.
  - rewrite count_adds by lia. rewrite Hc. unfold u64. rewrite length_app. div_lia.
  - rewrite (length_splice _ _ _ _ Hsp). done.
  - rewrite E. unfold splice in Hsp. case_decide as Hfit; [|done]. injection Hsp as <-.
    rewrite Hr, app_assoc. apply take_app_length.
Qed.

Lemma holds_long s0 s c0 c1 buf msg first mid last buf1 buf' carry :
  holds s0 s c0 c1 buf msg -> (length (rest msg) + length first = 64)%nat ->
  (exists n, length mid = (64 * n)%nat) -> (length last < 64)%nat ->
  splice buf (length (rest msg)) first = Some buf1 -> splice buf1 0 last = Some buf' ->
  let len := Z.of_nat (length (first ++ mid ++ last)) in
  len < 2 ^ 32 -> carry = bool_decide (count_low c0 len < c0) ->
  buf1 = rest msg ++ first /\
  holds s0 (absorb (compress s buf1) mid) (count_low c0 len) (count_high carry c1 len) buf' (msg ++ first ++ mid ++ last).
Proof using Type.
  intros [Hs H0 H1 Hc Hb Hr] Hl [n Hm] Hla Hsp Hsp' len Hlen ->.
  assert (E1 : buf1 = rest msg ++ first).
  { unfold splice in Hsp. case_decide as Hfit; [|done]. injection Hsp as <-.
    rewrite Hr. rewrite drop_ge by lia. by rewrite app_nil_r. }
  split; [exact E1|].
  assert (Lb : length buf1 = (64 * 1)%nat) by (rewrite E1, length_app; lia).
  split.
  - rewrite absorb_rest, app_assoc, <- E1, (absorb_app _ _ _ _ Lb), (absorb_block _ buf1) by lia.
    rewrite (absorb_app _ _ _ _ Hm), (absorb_short _ last) by lia. by rewrite Hs.
  - apply u32_range.
  - apply u32_range.
  - rewrite count_adds by lia. rewrite Hc. subst len. unfold u64. rewrite (length_app msg). div_lia.
  - rewrite (length_splice _ _ _ _ Hsp'). lia.
  - rewrite rest_rest, app_assoc, <- E1, (rest_app _ _ _ Lb), (rest_app _ _ _ Hm), rest_short by lia.
    unfold splice in Hsp'. case_decide as Hfit; [|done]. injection Hsp' as <-. cbn. apply take_app_length.
Qed.
End Absorb.

(** ** Padding *)

(** A bit, zeros and the length in bits, which [len_bytes] writes in 8 bytes. *)
Definition pad_zeros (n : nat) : nat := Z.to_nat ((55 - Z.of_nat n) mod 64).
Definition pad (len_bytes : Z -> list Z) (msg : list Z) : list Z :=
  msg ++ [128] ++ replicate (pad_zeros (length msg)) 0 ++ len_bytes (u64 (8 * Z.of_nat (length msg))).

Lemma pad_blocks len_bytes msg : (forall n, length (len_bytes n) = 8%nat) -> exists n, length (pad len_bytes msg) = (64 * n)%nat.
Proof.
  intros H8. unfold pad, pad_zeros. rewrite !length_app, length_replicate, H8. cbn [length].
  exists (Z.to_nat ((Z.of_nat (length msg) + 9 + (55 - Z.of_nat (length msg)) mod 64) / 64)). div_lia.
Qed.

Lemma slice_Some data i n : 0 <= i -> 0 <= n -> i + n <= Z.of_nat (length data) ->
  slice data i n = Some (take (Z.to_nat n) (drop (Z.to_nat i) data)).
Proof. intros. unfold slice. by rewrite decide_True. Qed.

(** ** Words as sums *)

Lemma le_word_sum b0 b1 b2 b3 : is_byte b0 -> is_byte b1 -> is_byte b2 ->
  le_word b0 b1 b2 b3 = b0 + b1 * 2 ^ 8 + b2 * 2 ^ 16 + b3 * 2 ^ 24.
Proof.
  unfold is_byte. intros H0 H1 H2. unfold le_word. rewrite !Z.shiftl_mul_pow2 by lia.
  rewrite (Z.lor_comm (b2 * 2 ^ 16)), (lor_add_low _ _ 24) by (pow_consts; lia).
  replace (b3 * 2 ^ 24 + b2 * 2 ^ 16) with ((b3 * 2 ^ 8 + b2) * 2 ^ 16) by ring.
  rewrite (Z.lor_comm (b1 * 2 ^ 8)), (lor_add_low _ _ 16) by (pow_consts; lia).
  replace ((b3 * 2 ^ 8 + b2) * 2 ^ 16 + b1 * 2 ^ 8) with (((b3 * 2 ^ 8 + b2) * 2 ^ 8 + b1) * 2 ^ 8) by ring.
  rewrite Z.lor_comm, (lor_add_low _ _ 8) by (pow_consts; lia). ring.
Qed.

Lemma rol_sum x n : 0 < n < 32 -> 0 <= x < 2 ^ 32 ->
  rol x n = (x mod 2 ^ (32 - n)) * 2 ^ n + x / 2 ^ (32 - n).
Proof.
  intros Hn Hx. unfold rol, u32. rewrite Z.shiftl_mul_pow2, Z.shiftr_div_pow2 by lia.
  assert (0 < 2 ^ (32 - n)) by (apply Z.pow_pos_nonneg; lia).
  replace (2 ^ 32) with (2 ^ (32 - n) * 2 ^ n) by (rewrite <- Z.pow_add_r by lia; f_equal; lia).
  rewrite Z.mul_mod_distr_r by (apply Z.pow_nonzero; lia). apply lor_add_low; [lia|].
  split; [apply Z.div_pos; lia|]. apply Z.div_lt_upper_bound; [lia|].
  rewrite <- Z.pow_add_r by lia. replace (32 - n + n) with 32 by lia. lia.
Qed.

(** A mask of the bits from [k] on. *)
Lemma land_field z n k : 0 <= n -> 0 <= k -> Z.land z ((2 ^ n - 1) * 2 ^ k) = ((z / 2 ^ k) mod 2 ^ n) * 2 ^ k.
Proof.
  intros Hn Hk. rewrite <- !Z.shiftl_mul_pow2, <- Z.shiftr_div_pow2, <- land_mask by lia.
  apply Z.bits_inj'. intros i Hi. rewrite Z.land_spec, !Z.shiftl_spec by done.
  destruct (Z.lt_ge_cases i k).
  - rewrite !(Z.testbit_neg_r _ (i - k)) by lia. apply andb_false_r.
  - rewrite Z.land_spec, Z.shiftr_spec by lia. by replace (i - k + k) with i by lia.
Qed.

(** Words are closed under the bit operations. *)
Definition is_word (w : Z) : Prop := 0 <= w < 2 ^ 32.
Create HintDb words.

Lemma word_bits w : 0 <= w -> (forall i, 32 <= i -> Z.testbit w i = false) -> is_word w.
Proof.
  intros H0 Hb. assert (w = w mod 2 ^ 32) as ->; [|apply Z.mod_pos_bound; lia].
  apply Z.bits_inj'. intros i Hi. destruct (Z.lt_ge_cases i 32).
  - by rewrite Z.mod_pow2_bits_low.
  - rewrite Z.mod_pow2_bits_high by lia. by apply Hb.
Qed.

Lemma word_high w i : is_word w -> 32 <= i -> Z.testbit w i = false.
Proof. intros Hw Hi. rewrite <- (Z.mod_small w (2 ^ 32)) by apply Hw. by apply Z.mod_pow2_bits_high. Qed.

Lemma word_land a b : is_word a -> 0 <= b -> is_word (Z.land a b).
Proof.
  intros Ha Hb. apply word_bits; [apply Z.land_nonneg; left; apply Ha|].
  intros i Hi. by rewrite Z.land_spec, (word_high a).
Qed.
Lemma word_lor a b : is_word a -> is_word b -> is_word (Z.lor a b).
Proof.
  intros Ha Hb. apply word_bits; [apply Z.lor_nonneg; split; [apply Ha | apply Hb]|].
  intros i Hi. by rewrite Z.lor_spec, !word_high.
Qed.
Lemma word_lxor a b : is_word a -> is_word b -> is_word (Z.lxor a b).
Proof.
  intros Ha Hb. apply word_bits; [apply Z.lxor_nonneg; split; intros _; [apply Hb | apply Ha]|].
  intros i Hi. by rewrite Z.lxor_spec, !word_high.
Qed.
Lemma word_u32 z : is_word (u32 z).
Proof. apply u32_range. Qed.
Lemma word_shiftr z n : is_word z -> 0 <= n -> is_word (Z.shiftr z n).
Proof.
  intros Hz Hn. apply word_bits; [by apply Z.shiftr_nonneg, Hz|].
  intros i Hi. rewrite Z.shiftr_spec by lia. apply word_high; [done | lia].
Qed.
Lemma word_rol z n : is_word z -> 0 <= n <= 32 -> is_word (rol z n).
Proof. intros Hz Hn. apply word_lor; [apply word_u32 | apply word_shiftr; [done | lia]]. Qed.
Lemma word_not32 z : is_word z -> is_word (not32 z).
Proof. intros Hz. apply word_lxor; [done | split; lia]. Qed.
#[export] Hint Resolve word_lor word_lxor word_u32 word_rol word_not32 : words.

Lemma length_chunk k (l : list Z) : length l = (4 * S k)%nat -> exists b0 b1 b2 b3 l', l = b0 :: b1 :: b2 :: b3 :: l' /\ length l' = (4 * k)%nat.
Proof. intros E. do 4 (destruct l as [|? l]; [cbn in E; lia|]). eexists _, _, _, _, _. split; [done|]. cbn in E. lia. Qed.

Lemma length_words k : forall l, length l = (4 * k)%nat -> length (le_words l) = k /\ length (be_words l) = k.
Proof.
  induction k as [|k IH]; intros l E; [by destruct l|].
  destruct (length_chunk k l E) as (b0 & b1 & b2 & b3 & l' & -> & E').
  destruct (IH l' E'). cbn. lia.
Qed.

(** ** Bytes of words *)

Lemma words_are k : forall l, length l = (4 * k)%nat -> bytes_ok l -> Forall is_word (le_words l) /\ Forall is_word (be_words l).
Proof.
  induction k as [|k IH]; intros l E Hl; [by destruct l|].
  destruct (length_chunk k l E) as (b0 & b1 & b2 & b3 & l' & -> & E').
  rewrite !Forall_cons in Hl. destruct Hl as (H0 & H1 & H2 & H3 & Hl). destruct (IH l' E' Hl).
  cbn [le_words be_words]. rewrite !Forall_cons, !le_word_sum by done.
  unfold is_word, is_byte in *. split; (split; [lia | done]).
Qed.

(** ** The pieces of an update that fills a block *)

Lemma update_split data len j : (j < 64)%nat -> 64 <= Z.of_nat j + len -> 0 <= len <= Z.of_nat (length data) ->
  exists n first mid last, take (Z.to_nat len) data = first ++ mid ++ last /\
    length first = (64 - j)%nat /\ length mid = (64 * n)%nat /\ (length last < 64)%nat /\
    64 - Z.of_nat j + 64 * Z.of_nat n <= len < 64 - Z.of_nat j + 64 * Z.of_nat n + 64 /\
    slice data 0 (64 - Z.of_nat j) = Some first /\
    slice data (64 - Z.of_nat j + 64 * Z.of_nat n) (len - (64 - Z.of_nat j + 64 * Z.of_nat n)) = Some last /\
    chunks n (drop (Z.to_nat (64 - Z.of_nat j)) data) = chunks (blocks mid) mid.
Proof.
  intros Hj Hlong Hd. set (n := Z.to_nat ((len - (64 - Z.of_nat j)) / 64)).
  assert (Hn : 64 - Z.of_nat j + 64 * Z.of_nat n <= len < 64 - Z.of_nat j + 64 * Z.of_nat n + 64) by (subst n; div_lia).
  clearbody n. replace (Z.to_nat (64 - Z.of_nat j)) with (64 - j)%nat by lia.
  exists n, (take (64 - j) data), (take (64 * n) (drop (64 - j) data)),
    (take (Z.to_nat len - (64 - j) - 64 * n) (drop (64 * n) (drop (64 - j) data))).
  rewrite !take_take_drop, !length_take, !length_drop, !slice_Some by lia.
  change (Z.to_nat 0) with 0%nat. rewrite drop_0, !drop_drop.
  assert (Lm : length (take (64 * n) (drop (64 - j) data)) = (64 * n)%nat) by (rewrite length_take, length_drop; lia).
  split_and!; try lia.
  - f_equal. lia.
  - do 2 f_equal. lia.
  - do 2 f_equal; [lia | f_equal; lia].
  - rewrite (blocks_exact _ n Lm), <- (take_drop (64 * n) (drop (64 - j) data)) at 1. by rewrite chunks_prefix by lia.
Qed.

Lemma splice_fits (buf src : list Z) n : (n + length src <= length buf)%nat -> is_Some (splice buf n src).
Proof. intros Hf. unfold splice. rewrite decide_True by done. by eexists. Qed.
