(* ===== verification/Sha1.v ===== *)
(** * SHA-1: [util/sha1.c] of libhv

    The unrolled rounds on a circular block, fed by pieces of a message; the
    reference is FIPS 180: a schedule of 80 words, the round functions and the
    padding.  The host is little endian. *)

From Stdlib Require Import Ascii String.
From S2P Require Import Prelude BlockHash.

#[local] Open Scope string_scope.
#[local] Open Scope list_scope.
#[local] Open Scope Z_scope.

Module Sha1.

(** ** The rounds *)

(** The five working variables by index, and the block. *)
Definition regs : Type := list Z * list Z.

Definition a : nat := 0.
Definition b : nat := 1.
Definition c : nat := 2.
Definition d : nat := 3.
Definition e : nat := 4.

Definition blk0 (i : nat) (l : list Z) : list Z :=
  let x := l !!! i in
  <[i := Z.lor (Z.land (rol x 24) 0xFF00FF00) (Z.land (rol x 8) 0x00FF00FF)]> l.

Definition blk (i : nat) (l : list Z) : list Z :=
  let at_ k := l !!! ((i + k) mod 16)%nat in
  <[(i mod 16)%nat := rol (Z.lxor (Z.lxor (Z.lxor (at_ 13%nat) (at_ 8%nat)) (at_ 2%nat)) (at_ 0%nat)) 1]> l.

(** [z += f(w,x,y) + block[i] + K + rol(v,5); w = rol(w,30);] *)
Definition round (f : Z -> Z -> Z -> Z) (k : Z) (expander : nat -> list Z -> list Z) (v w x y z i : nat) (s : regs) : regs :=
  let '(r, l) := s in
  let l := expander i l in
  let t := u32 (r !!! z + (f (r !!! w) (r !!! x) (r !!! y) + l !!! (i mod 16)%nat + k + rol (r !!! v) 5)) in
  let r := <[z := t]> r in
  (<[w := rol (r !!! w) 30]> r, l).

Definition choose (w x y : Z) : Z := Z.lxor (Z.land w (Z.lxor x y)) y.
Definition parity (w x y : Z) : Z := Z.lxor (Z.lxor w x) y.
Definition majority (w x y : Z) : Z := Z.lor (Z.land (Z.lor w x) y) (Z.land w x).

Definition R0 := round choose 0x5A827999 blk0.
Definition R1 := round choose 0x5A827999 blk.
Definition R2 := round parity 0x6ED9EBA1 blk.
Definition R3 := round majority 0x8F1BBCDC blk.
Definition R4 := round parity 0xCA62C1D6 blk.

Definition rounds : list (regs -> regs) :=
  [R0 a b c d e 0; R0 e a b c d 1; R0 d e a b c 2; R0 c d e a b 3; R0 b c d e a 4;
   R0 a b c d e 5; R0 e a b c d 6; R0 d e a b c 7; R0 c d e a b 8; R0 b c d e a 9;
   R0 a b c d e 10; R0 e a b c d 11; R0 d e a b c 12; R0 c d e a b 13; R0 b c d e a 14;
   R0 a b c d e 15; R1 e a b c d 16; R1 d e a b c 17; R1 c d e a b 18; R1 b c d e a 19;
   R2 a b c d e 20; R2 e a b c d 21; R2 d e a b c 22; R2 c d e a b 23; R2 b c d e a 24;
   R2 a b c d e 25; R2 e a b c d 26; R2 d e a b c 27; R2 c d e a b 28; R2 b c d e a 29;
   R2 a b c d e 30; R2 e a b c d 31; R2 d e a b c 32; R2 c d e a b 33; R2 b c d e a 34;
   R2 a b c d e 35; R2 e a b c d 36; R2 d e a b c 37; R2 c d e a b 38; R2 b c d e a 39;
   R3 a b c d e 40; R3 e a b c d 41; R3 d e a b c 42; R3 c d e a b 43; R3 b c d e a 44;
   R3 a b c d e 45; R3 e a b c d 46; R3 d e a b c 47; R3 c d e a b 48; R3 b c d e a 49;
   R3 a b c d e 50; R3 e a b c d 51; R3 d e a b c 52; R3 c d e a b 53; R3 b c d e a 54;
   R3 a b c d e 55; R3 e a b c d 56; R3 d e a b c 57; R3 c d e a b 58; R3 b c d e a 59;
   R4 a b c d e 60; R4 e a b c d 61; R4 d e a b c 62; R4 c d e a b 63; R4 b c d e a 64;
   R4 a b c d e 65; R4 e a b c d 66; R4 d e a b c 67; R4 c d e a b 68; R4 b c d e a 69;
   R4 a b c d e 70; R4 e a b c d 71; R4 d e a b c 72; R4 c d e a b 73; R4 b c d e a 74;
   R4 a b c d e 75; R4 e a b c d 76; R4 d e a b c 77; R4 c d e a b 78; R4 b c d e a 79]%nat.

Definition HV_SHA1Transform (state buffer : list Z) : list Z :=
  let '(r, _) := foldl (fun s f => f s) (state, le_words buffer) rounds in
  zip_with (fun s x => u32 (s + x)) state r.

(** ** The context *)

Record HV_SHA1_CTX := mkCtx { state : list Z; count0 : Z; count1 : Z; buffer : list Z }.

Definition H0 : list Z := [0x67452301; 0xEFCDAB89; 0x98BADCFE; 0x10325476; 0xC3D2E1F0].

Definition HV_SHA1Init (ctx : HV_SHA1_CTX) : HV_SHA1_CTX := mkCtx H0 0 0 (buffer ctx).

(** [for (; i + 63 < len; i += 64)]: the state and [i]. *)
Fixpoint transform_loop (fuel : nat) (st : list Z) (data : list Z) (len i : Z) : option (list Z * Z) :=
  match fuel with
  | O => None
  | S fuel' =>
      if decide (u32 (i + 63) < len) then
        block ← slice data i 64;
        transform_loop fuel' (HV_SHA1Transform st block) data len (u32 (i + 64))
      else Some (st, i)
  end.

(** [None] is an access outside of [data] or [buffer]. *)
Definition HV_SHA1Update (ctx : HV_SHA1_CTX) (data : list Z) (len : Z) : option HV_SHA1_CTX :=
  let c0 := count_low (count0 ctx) len in
  let c1 := count_high (bool_decide (c0 < count0 ctx)) (count1 ctx) len in
  let j := Z.land (Z.shiftr (count0 ctx) 3) 63 in
  if decide (63 < u32 (j + len)) then
    first ← slice data 0 (64 - j);
    buf ← splice (buffer ctx) (Z.to_nat j) first;
    '(st, i) ← transform_loop (S (Z.to_nat (len / 64))) (HV_SHA1Transform (state ctx) buf) data len (64 - j);
    last ← slice data i (len - i);
    buf ← splice buf 0 last;
    Some (mkCtx st c0 c1 buf)
  else
    last ← slice data 0 len;
    buf ← splice (buffer ctx) (Z.to_nat j) last;
    Some (mkCtx (state ctx) c0 c1 buf).

(** [while ((count[0] & 504) != 448)]: zeros, a byte at a time. *)
Fixpoint pad_loop (fuel : nat) (ctx : HV_SHA1_CTX) : option HV_SHA1_CTX :=
  match fuel with
  | O => None
  | S fuel' =>
      if decide (Z.land (count0 ctx) 504 <> 448) then ctx ← HV_SHA1Update ctx [0] 1; pad_loop fuel' ctx
      else Some ctx
  end.

(** The bytes of a word, most significant first. *)
Definition be_bytes (w : Z) : list Z := (fun k => Z.land (Z.shiftr w (8 * (3 - Z.of_nat k))) 255) <$> seq 0 4.

Definition finalcount (ctx : HV_SHA1_CTX) : list Z := be_bytes (count1 ctx) ++ be_bytes (count0 ctx).

(** The digest; the context is wiped. *)
Definition HV_SHA1Final (ctx : HV_SHA1_CTX) : option (list Z * HV_SHA1_CTX) :=
  let count := finalcount ctx in
  ctx ← HV_SHA1Update ctx [128] 1;
  ctx ← pad_loop 64 ctx;
  ctx ← HV_SHA1Update ctx count 8;
  Some (concat (be_bytes <$> state ctx), mkCtx (replicate 5 0) 0 0 (replicate 64 0)).

(** [for (ii = 0; ii < len; ii += 1)]: [left] bytes are still to come. *)
Fixpoint update_loop (left : nat) (ctx : HV_SHA1_CTX) (str : list Z) (ii : Z) : option HV_SHA1_CTX :=
  match left with
  | O => Some ctx
  | S left' =>
      byte ← slice str ii 1;
      ctx ← HV_SHA1Update ctx byte 1;
      update_loop left' ctx str (ii + 1)
  end.

(** [ctx] is the uninitialised local variable; [hash_out] gets 21 bytes. *)
Definition HV_SHA1 (ctx : HV_SHA1_CTX) (str : list Z) (len : Z) : option (list Z) :=
  ctx ← update_loop (Z.to_nat len) (HV_SHA1Init ctx) str 0;
  '(digest, _) ← HV_SHA1Final ctx;
  Some (digest ++ [0]).

Definition hv_sha1 (ctx : HV_SHA1_CTX) (input : list Z) (inputlen : Z) : option (list Z) :=
  ctx ← HV_SHA1Update (HV_SHA1Init ctx) input inputlen;
  '(digest, _) ← HV_SHA1Final ctx;
  Some digest.

Definition i2hex (i : Z) : Z := if decide (i < 10) then i + 48 else i - 10 + 97.

(** What is written to [output]. *)
Definition hv_sha1_hex (ctx : HV_SHA1_CTX) (input : list Z) (inputlen outputlen : Z) : option (list Z) :=
  if decide (outputlen < 40) then Some []
  else
    digest ← hv_sha1 ctx input inputlen;
    Some (concat ((fun x => [i2hex (Z.shiftr x 4); i2hex (Z.land x 15)]) <$> digest) ++
          if decide (40 < outputlen) then [0] else []).

(** ** The reference: FIPS 180 *)

Definition add32 (x y : Z) : Z := u32 (x + y).

(** The function and the constant of a round. *)
Definition fips_f (t : nat) (x y z : Z) : Z :=
  if decide (t < 20)%nat then Z.lxor (Z.land x y) (Z.land (not32 x) z)
  else if decide (t < 40)%nat then Z.lxor (Z.lxor x y) z
  else if decide (t < 60)%nat then Z.lxor (Z.lxor (Z.land x y) (Z.land x z)) (Z.land y z)
  else Z.lxor (Z.lxor x y) z.
Definition fips_K (t : nat) : Z :=
  if decide (t < 20)%nat then 0x5A827999
  else if decide (t < 40)%nat then 0x6ED9EBA1
  else if decide (t < 60)%nat then 0x8F1BBCDC else 0xCA62C1D6.

(** The schedule: each word from the ones 3, 8, 14 and 16 before it. *)
Fixpoint schedule (n : nat) (w : list Z) : list Z :=
  match n with
  | O => w
  | S n' =>
      let back k := w !!! (length w - k)%nat in
      schedule n' (w ++ [rol (Z.lxor (Z.lxor (Z.lxor (back 3%nat) (back 8%nat)) (back 14%nat)) (back 16%nat)) 1])
  end.

(** A round on the five variables. *)
Definition fips_round (w : list Z) (h : list Z) (t : nat) : list Z :=
  match h with
  | [a; b; c; d; e] =>
      [add32 (add32 (add32 (add32 (rol a 5) (fips_f t b c d)) e) (fips_K t)) (w !!! t); a; rol b 30; c; d]
  | _ => h
  end.

Definition fips_compress (h block : list Z) : list Z :=
  zip_with add32 h (foldl (fips_round (schedule 64 (be_words block))) h (seq 0 80)).

(** 64 bits, most significant first. *)
Definition be_len (n : Z) : list Z := be_bytes (Z.shiftr n 32) ++ be_bytes (u32 n).

Definition fips_sha1 (msg : list Z) : list Z :=
  concat (be_bytes <$> absorb fips_compress H0 (pad be_len msg)).

Definition ascii_bytes (s : string) : list Z := (fun x => Z.of_nat (Ascii.nat_of_ascii x)) <$> list_ascii_of_string s.
Definition junk : HV_SHA1_CTX := mkCtx [1; 2; 3; 4; 5] 99 7 (replicate 64 255).

(** The test vectors of the standard. *)
Example sha1_abc : hv_sha1_hex junk [97; 98; 99] 3 41 =
  Some (ascii_bytes "a9993e364706816aba3e25717850c26c9cd0d89d" ++ [0]).
Proof. vm_compute. reflexivity. Qed.
Example sha1_two_blocks :
  let msg := ascii_bytes "abcdbcdecdefdefgefghfghighijhijkijkljklmklmnlmnomnopnopq" in
  hv_sha1_hex junk msg 56 40 = Some (ascii_bytes "84983e441c3bd26ebaae4aa1f95129e5e54670f1") /\
  hv_sha1 junk msg 56 = Some (fips_sha1 msg).
Proof. vm_compute. split; reflexivity. Qed.

(** ** The rounds compute the standard *)

Lemma choose_fips x y z : is_word y -> is_word z -> choose x y z = Z.lxor (Z.land x y) (Z.land (not32 x) z).
Proof.
  intros Hy Hz. apply Z.bits_inj'. intros i Hi. unfold choose, not32.
  rewrite !Z.lxor_spec, !Z.land_spec, !Z.lxor_spec. destruct (Z.lt_ge_cases i 32).
  - change 0xFFFFFFFF with (Z.ones 32). rewrite Z.ones_spec_low by lia.
    by destruct (Z.testbit x i), (Z.testbit y i), (Z.testbit z i).
  - rewrite !(word_high y), !(word_high z) by done. by rewrite !andb_false_r.
Qed.

Lemma majority_fips x y z : majority x y z = Z.lxor (Z.lxor (Z.land x y) (Z.land x z)) (Z.land y z).
Proof.
  apply Z.bits_inj'. intros i Hi. unfold majority.
  rewrite !Z.lxor_spec, !Z.lor_spec, !Z.land_spec, !Z.lor_spec.
  by destruct (Z.testbit x i), (Z.testbit y i), (Z.testbit z i).
Qed.

Lemma swap_word b0 b1 b2 b3 : is_byte b0 -> is_byte b1 -> is_byte b2 -> is_byte b3 ->
  let x := le_word b0 b1 b2 b3 in
  Z.lor (Z.land (rol x 24) 0xFF00FF00) (Z.land (rol x 8) 0x00FF00FF) = le_word b3 b2 b1 b0.
Proof.
  intros H0 H1 H2 H3 x. subst x. rewrite !le_word_sum by done. unfold is_byte in *.
  set (x := b0 + b1 * 2 ^ 8 + b2 * 2 ^ 16 + b3 * 2 ^ 24).
  assert (rol x 24 = b0 * 2 ^ 24 + b3 * 2 ^ 16 + b2 * 2 ^ 8 + b1) as ->.
  { subst x. rewrite rol_sum by (pow_consts; lia). div_lia. }
  assert (rol x 8 = b2 * 2 ^ 24 + b1 * 2 ^ 16 + b0 * 2 ^ 8 + b3) as ->.
  { subst x. rewrite rol_sum by (pow_consts; lia). div_lia. }
  change 0xFF00FF00 with (Z.lor ((2 ^ 8 - 1) * 2 ^ 24) ((2 ^ 8 - 1) * 2 ^ 8)).
  change 0x00FF00FF with (Z.lor ((2 ^ 8 - 1) * 2 ^ 16) ((2 ^ 8 - 1) * 2 ^ 0)).
  rewrite !Z.land_lor_distr_r, !land_field by lia.
  rewrite <- Z.lor_assoc, (Z.lor_assoc (_ * 2 ^ 8)), (Z.lor_comm (_ * 2 ^ 8)), <- Z.lor_assoc.
  replace (_ mod 2 ^ 8) with b0 by div_lia.
  replace ((_ / 2 ^ 16) mod 2 ^ 8) with b1 by div_lia.
  replace ((_ / 2 ^ 8) mod 2 ^ 8) with b2 by div_lia.
  replace ((_ / 2 ^ 0) mod 2 ^ 8) with b3 by div_lia.
  rewrite (lor_add_low _ _ 8), (lor_add_low _ _ 16), (lor_add_low _ _ 24) by (pow_consts; lia). lia.
Qed.

(** The same on blocks: the block that the rounds expand, after [t] of them. *)
Lemma length_schedule n w : length (schedule n w) = (length w + n)%nat.
Proof. revert w. induction n as [|n IH]; intros w; cbn [schedule]; [lia|]. rewrite IH, length_app. cbn. lia. Qed.

Lemma schedule_prefix n w i : (i < length w)%nat -> schedule n w !!! i = w !!! i.
Proof.
  revert w. induction n as [|n IH]; intros w Hi; cbn [schedule]; [done|].
  rewrite IH by (rewrite length_app; lia). by apply lookup_total_app_l.
Qed.

(** The recurrence of the schedule. *)
Lemma schedule_step n w t : (16 <= length w)%nat -> (length w <= t < length w + n)%nat ->
  let s := schedule n w in
  s !!! t = rol (Z.lxor (Z.lxor (Z.lxor (s !!! (t - 3)%nat) (s !!! (t - 8)%nat)) (s !!! (t - 14)%nat)) (s !!! (t - 16)%nat)) 1.
Proof.
  revert w. induction n as [|n IH]; intros w Hw Ht; [lia|]. cbn [schedule]. cbv zeta.
  destruct (decide (t = length w)) as [->|Hne].
  - rewrite !schedule_prefix by (rewrite length_app; cbn; lia).
    rewrite lookup_total_app_r, Nat.sub_diag by lia. by rewrite !(lookup_total_app_l w) by lia.
  - apply IH; rewrite length_app; cbn; lia.
Qed.

(** The unrolled rounds are one round with its variables rotated: the [k]-th
    variable of the standard is in [role k t] before round [t]. *)
Definition role (k t : nat) : nat := ((k + 4 * t) mod 5)%nat.
Definition instr (t : nat) : regs -> regs :=
  (if decide (t < 16)%nat then R0 else if decide (t < 20)%nat then R1 else if decide (t < 40)%nat then R2
   else if decide (t < 60)%nat then R3 else R4)
    (role 0 t) (role 1 t) (role 2 t) (role 3 t) (role 4 t) t.

Lemma rounds_rotate : rounds = instr <$> seq 0 80.
Proof. reflexivity. Qed.

Lemma role_next k t : role (S k) (S t) = role k t.
Proof. unfold role. replace (S k + 4 * S t)%nat with (k + 4 * t + 1 * 5)%nat by lia. apply Nat.Div0.mod_add. Qed.
Lemma role_first t : role 0 (S t) = role 4 t.
Proof. unfold role. f_equal. lia. Qed.
Lemma role_lt k t : (role k t < 5)%nat.
Proof. by apply Nat.mod_upper_bound. Qed.
Lemma role_inj i j t : (i < 5)%nat -> (j < 5)%nat -> role i t = role j t -> i = j.
Proof. unfold role. intros Hi Hj. pose proof (Nat.div_mod_eq (i + 4 * t) 5). pose proof (Nat.div_mod_eq (j + 4 * t) 5). lia. Qed.

Definition arranged (t : nat) (h r : list Z) : Prop :=
  length r = 5%nat /\ forall k, (k < 5)%nat -> r !!! role k t = h !!! k.

Lemma arranged_next t v w x y z r u rw : arranged t [v; w; x; y; z] r ->
  arranged (S t) [u; v; rw; x; y] (<[role 1 t := rw]> (<[role 4 t := u]> r)).
Proof.
  intros [Hl Hr]. split; [by rewrite !length_insert|]. intros k Hk.
  assert (Hne : forall i j, (i < 5)%nat -> (j < 5)%nat -> i <> j -> role i t <> role j t).
  { intros i j Hi Hj Hij E. apply Hij. by eapply role_inj. }
  pose proof (role_lt 1 t). pose proof (role_lt 4 t).
  destruct k as [|k]; [rewrite role_first | rewrite role_next].
  - rewrite list_lookup_total_insert_ne by (apply Hne; lia). by rewrite list_lookup_total_insert_eq by lia.
  - destruct (decide (k = 1)%nat) as [->|].
    + by rewrite list_lookup_total_insert_eq by (rewrite length_insert; lia).
    + rewrite !list_lookup_total_insert_ne by (apply Hne; lia). rewrite Hr by lia.
      do 4 (destruct k as [|k]; [done|]). lia.
Qed.

(** The block before round [t]: the last 16 words of the schedule, and those of
    the message that were not used yet. *)
Definition circular (t : nat) (raw w l : list Z) : Prop :=
  length l = 16%nat /\
  forall i, (i < 16)%nat -> l !!! i = if decide (t <= i)%nat then raw !!! i else w !!! (t - 1 - (t - 1 - i) mod 16)%nat.

Definition expander (t : nat) : nat -> list Z -> list Z := if decide (t < 16)%nat then blk0 else blk.

Lemma circular_next t raw w l : circular t raw w l -> (t < 80)%nat -> length w = 80%nat ->
  (forall i, (i < 16)%nat -> Z.lor (Z.land (rol (raw !!! i) 24) 0xFF00FF00) (Z.land (rol (raw !!! i) 8) 0x00FF00FF) = w !!! i) ->
  (forall i, (16 <= i < 80)%nat -> w !!! i =
     rol (Z.lxor (Z.lxor (Z.lxor (w !!! (i - 3)%nat) (w !!! (i - 8)%nat)) (w !!! (i - 14)%nat)) (w !!! (i - 16)%nat)) 1) ->
  expander t t l !!! (t mod 16)%nat = w !!! t /\ circular (S t) raw w (expander t t l).
Proof.
  intros [Hl Hc] Ht Hw Hraw Hrec.
  pose proof (Nat.div_mod_eq t 16) as Em. pose proof (Nat.mod_upper_bound t 16) as Hm.
  assert (E : expander t t l = <[(t mod 16)%nat := w !!! t]> l).
  { unfold expander. case_decide as Hlt.
    - unfold blk0. rewrite (Nat.mod_small t 16) by lia. f_equal. rewrite Hc by lia.
      rewrite decide_True by lia. by apply Hraw.
    - unfold blk. f_equal. rewrite (Hrec t) by lia.
      assert (Hat : forall k j, (k < 16)%nat -> (j = t - (16 - k))%nat -> l !!! ((t + k) mod 16)%nat = w !!! j).
      { intros k j Hk ->. pose proof (Nat.div_mod_eq (t + k) 16). pose proof (Nat.mod_upper_bound (t + k) 16).
        rewrite Hc by lia. rewrite decide_False by lia. f_equal.
        pose proof (Nat.div_mod_eq (t - 1 - (t + k) mod 16) 16). pose proof (Nat.mod_upper_bound (t - 1 - (t + k) mod 16) 16). lia. }
      by rewrite (Hat 13%nat (t - 3)%nat), (Hat 8%nat (t - 8)%nat), (Hat 2%nat (t - 14)%nat), (Hat 0%nat (t - 16)%nat) by lia. }
  rewrite E. split; [by rewrite list_lookup_total_insert_eq by lia|]. split; [by rewrite length_insert|].
  intros i Hi. destruct (decide (i = t mod 16)%nat) as [->|Hne].
  - rewrite list_lookup_total_insert_eq, decide_False by lia. f_equal.
    pose proof (Nat.div_mod_eq (S t - 1 - t mod 16) 16). pose proof (Nat.mod_upper_bound (S t - 1 - t mod 16) 16). lia.
  - rewrite list_lookup_total_insert_ne by done. rewrite Hc by lia.
    destruct (decide (t <= i)%nat) as [Hti|Hti].
    + rewrite decide_True; [done|]. destruct (decide (i = t)) as [->|]; [|lia]. rewrite Nat.mod_small in Hne by lia. lia.
    + rewrite decide_False by lia. f_equal.
      pose proof (Nat.div_mod_eq (S t - 1 - i) 16). pose proof (Nat.mod_upper_bound (S t - 1 - i) 16).
      pose proof (Nat.div_mod_eq (t - 1 - i) 16). pose proof (Nat.mod_upper_bound (t - 1 - i) 16). lia.
Qed.

Definition round_f (t : nat) : Z -> Z -> Z -> Z :=
  if decide (t < 20)%nat then choose else if decide (t < 40)%nat then parity
  else if decide (t < 60)%nat then majority else parity.

Lemma instr_round t : instr t =
  round (round_f t) (fips_K t) (expander t) (role 0 t) (role 1 t) (role 2 t) (role 3 t) (role 4 t) t.
Proof.
  unfold instr, round_f, fips_K, expander. repeat case_decide; try lia; reflexivity.
Qed.

Lemma add32_add x y z : add32 (add32 x y) z = add32 x (y + z).
Proof. unfold add32, u32. rewrite Zplus_mod_idemp_l. f_equal. lia. Qed.

Lemma round_f_fips t x y z : is_word y -> is_word z -> round_f t x y z = fips_f t x y z.
Proof.
  intros Hy Hz. unfold round_f, fips_f. repeat case_decide; [by apply choose_fips | done | apply majority_fips | done].
Qed.

Lemma fips_round_words w h t : length h = 5%nat -> Forall is_word h ->
  length (fips_round w h t) = 5%nat /\ Forall is_word (fips_round w h t).
Proof.
  intros Hl Hh. do 5 (destruct h as [|? h]; [done|]). destruct h; [|done]. split; [done|].
  rewrite !Forall_cons in Hh. destruct Hh as (H1 & H2 & H3 & H4 & H5 & _). cbn [fips_round].
  unfold add32. rewrite !Forall_cons, Forall_nil. split_and!; try done; [apply word_u32 | apply word_rol; [done | lia]].
Qed.

Lemma round_ok t w h r l : (t < 80)%nat -> length h = 5%nat -> Forall is_word h -> arranged t h r ->
  expander t t l !!! (t mod 16)%nat = w !!! t ->
  exists r', instr t (r, l) = (r', expander t t l) /\ arranged (S t) (fips_round w h t) r'.
Proof.
  intros Ht Hl Hh Ha Hx. rewrite instr_round. unfold round. rewrite Hx.
  do 5 (destruct h as [|? h]; [done|]). destruct h; [|done].
  destruct Ha as [Hlr Hr]. rewrite !Forall_cons in Hh. destruct Hh as (H1 & H2 & H3 & H4 & H5 & _).
  rewrite (Hr 0%nat), (Hr 1%nat), (Hr 2%nat), (Hr 3%nat), (Hr 4%nat) by lia. cbn [lookup_total list_lookup_total].
  rewrite list_lookup_total_insert_ne by (intros E; by apply role_inj in E; [|lia..]).
  rewrite (Hr 1%nat) by lia. cbn [lookup_total list_lookup_total].
  eexists. split; [reflexivity|].
  match goal with |- arranged _ (fips_round _ [?v; ?x; ?y; ?z; ?u] _) _ =>
    replace (fips_round w [v; x; y; z; u] t)
      with [u32 (u + (round_f t x y z + w !!! t + fips_K t + rol v 5)); v; rol x 30; y; z] end.
  - eapply arranged_next; by split.
  - cbn [fips_round]. f_equal. rewrite round_f_fips by done. rewrite !add32_add.
    unfold add32. f_equal. lia.
Qed.

(** All rounds. *)
Lemma rounds_ok raw w n : forall t h r l, (t + n = 80)%nat -> length h = 5%nat -> Forall is_word h ->
  arranged t h r -> circular t raw w l -> length w = 80%nat ->
  (forall i, (i < 16)%nat -> Z.lor (Z.land (rol (raw !!! i) 24) 0xFF00FF00) (Z.land (rol (raw !!! i) 8) 0x00FF00FF) = w !!! i) ->
  (forall i, (16 <= i < 80)%nat -> w !!! i =
     rol (Z.lxor (Z.lxor (Z.lxor (w !!! (i - 3)%nat) (w !!! (i - 8)%nat)) (w !!! (i - 14)%nat)) (w !!! (i - 16)%nat)) 1) ->
  arranged 80 (foldl (fips_round w) h (seq t n)) (foldl (fun s f => f s) (r, l) (instr <$> seq t n)).1 /\
  length (foldl (fips_round w) h (seq t n)) = 5%nat /\ Forall is_word (foldl (fips_round w) h (seq t n)).
Proof.
  induction n as [|n IH]; intros t h r l Ht Hl Hh Ha Hc Hw Hraw Hrec; cbn [seq foldl fmap list_fmap].
  { by replace 80%nat with t by lia. }
  destruct (circular_next t raw w l Hc ltac:(lia) Hw Hraw Hrec) as [Hx Hc'].
  destruct (round_ok t w h r l ltac:(lia) Hl Hh Ha Hx) as (r' & E & Ha'). rewrite E.
  destruct (fips_round_words w h t Hl Hh). apply IH; try done. lia.
Qed.

Lemma swap_words k : forall l, length l = (4 * k)%nat -> bytes_ok l -> forall i, (i < k)%nat ->
  let x := le_words l !!! i in
  Z.lor (Z.land (rol x 24) 0xFF00FF00) (Z.land (rol x 8) 0x00FF00FF) = be_words l !!! i.
Proof.
  induction k as [|k IH]; intros l E Hl i Hi; [lia|].
  destruct (length_chunk k l E) as (b0 & b1 & b2 & b3 & l' & -> & E').
  rewrite !Forall_cons in Hl. destruct Hl as (H0 & H1 & H2 & H3 & Hl).
  destruct i as [|i]; [by apply swap_word|]. apply (IH l'); [done.. | lia].
Qed.

Lemma transform_fips st block : length st = 5%nat -> Forall is_word st -> length block = 64%nat -> bytes_ok block ->
  HV_SHA1Transform st block = fips_compress st block.
Proof.
  intros Hl Hst Hb Hbytes. unfold HV_SHA1Transform, fips_compress. rewrite rounds_rotate.
  destruct (length_words 16 block Hb) as [Hle Hbe].
  pose proof (rounds_ok (le_words block) (schedule 64 (be_words block)) 80 0 st st (le_words block)) as H.
  destruct H as ([Hr1 Hr2] & Hh1 & Hh2); [done | done | done | | | | | |].
  - split; [done|]. intros k Hk. unfold role. by rewrite Nat.mod_small, Nat.add_0_r by lia.
  - split; [done|]. intros i Hi. by rewrite decide_True by lia.
  - rewrite length_schedule, Hbe. lia.
  - intros i Hi. rewrite schedule_prefix by lia. by apply (swap_words 16).
  - intros i Hi. apply schedule_step; rewrite Hbe; lia.
  - destruct (foldl (fun s f => f s) (st, le_words block) (instr <$> seq 0 80)) as [r l]. cbn [fst] in Hr1, Hr2.
    change (fun s x : Z => u32 (s + x)) with add32. f_equal. apply list_eq_same_length with 5%nat; [done | done|].
    intros i x y Hi Hx Hy. specialize (Hr2 i Hi). unfold role in Hr2.
    replace (i + 4 * 80)%nat with (i + 64 * 5)%nat in Hr2 by lia.
    rewrite Nat.Div0.mod_add, Nat.mod_small in Hr2 by lia.
    apply list_lookup_total_correct in Hx, Hy. congruence.
Qed.

Lemma length_rounds n : forall t h w, length h = 5%nat -> length (foldl (fips_round w) h (seq t n)) = 5%nat.
Proof.
  induction n as [|n IH]; intros t h w Hh; [done|]. cbn [seq foldl]. apply IH.
  do 5 (destruct h as [|? h]; [done|]). by destruct h.
Qed.

Lemma transform_words st block : length st = 5%nat -> Forall is_word st -> length block = 64%nat -> bytes_ok block ->
  length (fips_compress st block) = 5%nat /\ Forall is_word (fips_compress st block).
Proof.
  intros Hl Hst Hb Hbytes. unfold fips_compress.
  split; [rewrite length_zip_with, length_rounds by done; lia|].
  apply Forall_forall. intros x Hx. apply elem_of_lookup_zip_with in Hx as (i & y & z & -> & _ & _). apply word_u32.
Qed.

(** ** The context holds the message *)

Definition contains (ctx : HV_SHA1_CTX) (msg : list Z) : Prop :=
  holds HV_SHA1Transform H0 (state ctx) (count0 ctx) (count1 ctx) (buffer ctx) msg.

Lemma init_contains ctx : length (buffer ctx) = 64%nat -> contains (HV_SHA1Init ctx) [].
Proof. intros Hb. by split. Qed.

Lemma transform_loop_ok data len n : 0 <= len <= Z.of_nat (length data) -> len + 63 < 2 ^ 32 ->
  forall fuel st i, 0 <= i -> i + 64 * Z.of_nat n <= len < i + 64 * Z.of_nat n + 64 -> (n < fuel)%nat ->
  transform_loop fuel st data len i =
    Some (foldl HV_SHA1Transform st (chunks n (drop (Z.to_nat i) data)), i + 64 * Z.of_nat n).
Proof.
  intros Hd Hl. induction n as [|n IH]; intros fuel st i Hi Hn Hf; (destruct fuel as [|fuel]; [lia|]);
    cbn [transform_loop]; rewrite u32_small by lia.
  - rewrite decide_False by lia. cbn. do 2 f_equal. lia.
  - rewrite decide_True, slice_Some by lia. cbn [mbind option_bind]. rewrite u32_small by lia.
    rewrite IH by lia. cbn [chunks foldl]. rewrite drop_drop. do 2 f_equal; [|lia].
    do 2 f_equal. f_equal. lia.
Qed.

Lemma update_contains ctx msg data len : contains ctx msg -> 0 <= len <= Z.of_nat (length data) -> len + 63 < 2 ^ 32 ->
  exists ctx', HV_SHA1Update ctx data len = Some ctx' /\ contains ctx' (msg ++ take (Z.to_nat len) data).
Proof.
  intros Hc Hd Hl. pose proof Hc as [_ _ _ _ Hb _]. unfold HV_SHA1Update.
  rewrite (holds_used _ _ _ _ _ _ _ Hc). destruct (blocks_split msg) as [_ Hr].
  set (j := length (rest msg)) in *. rewrite u32_small by lia. rewrite Nat2Z.id.
  assert (Ht : length (take (Z.to_nat len) data) = Z.to_nat len) by (rewrite length_take; lia).
  case_decide as Hlong.
  - destruct (update_split data len j) as (n & first & mid & last & Hmsg & Lf & Lm & Ll & Hn & E1 & E2 & E3); [lia..|].
    rewrite E1. cbn [mbind option_bind].
    destruct (splice_fits (buffer ctx) first j) as [buf1 Eb1]; [lia|]. rewrite Eb1. cbn [mbind option_bind].
    rewrite (transform_loop_ok data len n) by (try lia; div_lia). cbn [mbind option_bind].
    rewrite E2, E3. cbn [mbind option_bind].
    destruct (splice_fits buf1 last 0) as [buf2 Eb2]; [rewrite (length_splice _ _ _ _ Eb1); lia|]. rewrite Eb2.
    cbn [mbind option_bind]. eexists. split; [reflexivity|]. unfold contains.
    cbn [state count0 count1 buffer]. rewrite Hmsg in Ht |- *.
    replace len with (Z.of_nat (length (first ++ mid ++ last))) by lia.
    exact (proj2 (holds_long HV_SHA1Transform H0 (state ctx) _ _ _ msg first mid last buf1 buf2 _ Hc
      ltac:(lia) (ex_intro _ n Lm) Ll Eb1 Eb2 ltac:(lia) eq_refl)).
  - rewrite slice_Some by lia. change (Z.to_nat 0) with 0%nat. rewrite drop_0. cbn [mbind option_bind].
    destruct (splice_fits (buffer ctx) (take (Z.to_nat len) data) j) as [buf E]; [lia|]. rewrite E.
    cbn [mbind option_bind]. eexists. split; [reflexivity|]. unfold contains. cbn [state count0 count1 buffer].
    set (piece := take (Z.to_nat len) data) in *. assert (El : len = Z.of_nat (length piece)) by lia.
    clearbody piece. rewrite El.
    eapply holds_short; [exact Hc | lia | exact E | done].
Qed.

(** A piece of almost 4 GB after an incomplete block: [j + len] wraps, and the
    piece is copied over the end of the buffer. *)
Lemma update_overruns ctx msg data len : contains ctx msg -> len <= Z.of_nat (length data) -> 0 <= len < 2 ^ 32 ->
  2 ^ 32 <= Z.of_nat (length (rest msg)) + len -> HV_SHA1Update ctx data len = None.
Proof.
  intros Hc Hd Hl Hw. pose proof Hc as [_ _ _ _ Hb _]. unfold HV_SHA1Update.
  rewrite (holds_used _ _ _ _ _ _ _ Hc). destruct (blocks_split msg) as [_ Hr].
  rewrite decide_False by (unfold u32; div_lia). rewrite slice_Some by lia. cbn [mbind option_bind].
  rewrite Nat2Z.id. unfold splice. rewrite decide_False; [done|]. change (Z.to_nat 0) with 0%nat. rewrite drop_0, length_take. lia.
Qed.

(** ** The digest *)

Lemma update_1 ctx msg x : contains ctx msg -> exists ctx', HV_SHA1Update ctx [x] 1 = Some ctx' /\ contains ctx' (msg ++ [x]).
Proof. intros Hc. by apply (update_contains ctx msg [x] 1 Hc). Qed.

Lemma contains_fill ctx msg : contains ctx msg ->
  Z.land (count0 ctx) 504 = 8 * (Z.of_nat (length msg) mod 64).
Proof.
  intros [_ H0 H1 Hc _ _]. change 504 with ((2 ^ 6 - 1) * 2 ^ 3). rewrite land_field by lia.
  unfold u64 in Hc. div_lia.
Qed.

(** The zeros of the padding are as many as the loop appends. *)
Lemma pad_loop_ok n : forall fuel ctx msg, contains ctx msg -> (n < fuel)%nat ->
  Z.of_nat n = (56 - Z.of_nat (length msg)) mod 64 ->
  exists ctx', pad_loop fuel ctx = Some ctx' /\ contains ctx' (msg ++ replicate n 0).
Proof.
  induction n as [|n IH]; intros fuel ctx msg Hc Hf Hn; (destruct fuel as [|fuel]; [lia|]);
    cbn [pad_loop]; rewrite (contains_fill _ _ Hc).
  - rewrite decide_False by div_lia. exists ctx. cbn [replicate]. by rewrite app_nil_r.
  - rewrite decide_True by div_lia. destruct (update_1 ctx msg 0 Hc) as (ctx1 & -> & Hc1). cbn [mbind option_bind].
    destruct (IH fuel ctx1 (msg ++ [0]) Hc1) as (ctx' & E & Hc'); [lia | rewrite length_app; cbn [length]; div_lia|].
    exists ctx'. split; [exact E|]. by rewrite <- app_assoc in Hc'.
Qed.

Lemma be_bytes_ok w : length (be_bytes w) = 4%nat /\ bytes_ok (be_bytes w).
Proof. split; [done|]. unfold be_bytes. cbn. repeat (constructor; [apply land_byte|]). constructor. Qed.

Lemma finalcount_len ctx msg : contains ctx msg -> finalcount ctx = be_len (u64 (8 * Z.of_nat (length msg))).
Proof.
  intros [_ H0 H1 Hc _ _]. unfold finalcount, be_len. rewrite <- Hc. f_equal; f_equal; unfold u32; bitsimpl; div_lia.
Qed.

Lemma length_be_len n : length (be_len n) = 8%nat.
Proof. reflexivity. Qed.

(** The state is one of words, and the blocks of bytes. *)
Lemma absorb_fips l : bytes_ok l -> length l = (64 * blocks l)%nat ->
  absorb HV_SHA1Transform H0 l = absorb fips_compress H0 l.
Proof.
  intros Hl E. unfold absorb. generalize (blocks l), E, Hl. clear E Hl. intros n.
  assert (Hst : length H0 = 5%nat /\ Forall is_word H0) by (split; [done|]; unfold H0, is_word; repeat constructor; lia).
  revert Hst. generalize H0. revert l. induction n as [|n IH]; intros l st [Hs Hw] E Hl; [done|]. cbn [chunks foldl].
  assert (Hb : length (take 64 l) = 64%nat) by (rewrite length_take; lia).
  assert (Hbytes : bytes_ok (take 64 l)) by by apply Forall_take.
  rewrite transform_fips by done. apply IH; [by apply transform_words | rewrite length_drop; lia | by apply Forall_drop].
Qed.

Lemma pad_bytes msg : bytes_ok msg -> bytes_ok (pad be_len msg).
Proof.
  intros Hm. unfold pad. repeat apply Forall_app_2; try apply be_bytes_ok; [done | | by apply Forall_replicate].
  by constructor.
Qed.

Lemma final_fips ctx msg : contains ctx msg -> bytes_ok msg ->
  exists ctx', HV_SHA1Final ctx = Some (fips_sha1 msg, ctx').
Proof.
  intros Hc Hm. unfold HV_SHA1Final. rewrite (finalcount_len _ _ Hc).
  destruct (update_1 ctx msg 128 Hc) as (ctx1 & -> & Hc1). cbn [mbind option_bind].
  destruct (pad_loop_ok (pad_zeros (length msg)) 64 ctx1 _ Hc1) as (ctx2 & -> & Hc2);
    [unfold pad_zeros; div_lia | unfold pad_zeros; rewrite length_app; cbn [length]; div_lia|]. cbn [mbind option_bind].
  set (bits := be_len _). destruct (update_contains ctx2 _ bits 8 Hc2) as (ctx3 & -> & Hc3); [done | lia|].
  cbn [mbind option_bind]. eexists. do 2 f_equal. f_equal. unfold fips_sha1. f_equal.
  assert (Epad : ((msg ++ [128]) ++ replicate (pad_zeros (length msg)) 0) ++ take (Z.to_nat 8) bits = pad be_len msg).
  { unfold pad. by rewrite <- !app_assoc. }
  rewrite Epad in Hc3. rewrite (holds_state _ _ _ _ _ _ _ Hc3). f_equal.
  destruct (pad_blocks be_len msg length_be_len) as [n E].
  apply absorb_fips; [by apply pad_bytes|]. by rewrite (blocks_exact _ n E).
Qed.

(** Updates of any sizes. *)
Fixpoint updates (ctx : HV_SHA1_CTX) (pieces : list (list Z)) : option HV_SHA1_CTX :=
  match pieces with
  | [] => Some ctx
  | p :: pieces' => ctx ← HV_SHA1Update ctx p (Z.of_nat (length p)); updates ctx pieces'
  end.

Lemma updates_contain pieces : forall ctx msg, contains ctx msg ->
  Forall (fun p => Z.of_nat (length p) + 63 < 2 ^ 32) pieces ->
  exists ctx', updates ctx pieces = Some ctx' /\ contains ctx' (msg ++ concat pieces).
Proof.
  induction pieces as [|p pieces IH]; intros ctx msg Hc Hp; cbn [updates concat].
  - exists ctx. by rewrite app_nil_r.
  - apply Forall_cons in Hp as [Hp Hps].
    destruct (update_contains ctx msg p (Z.of_nat (length p)) Hc) as (ctx1 & -> & Hc1); [lia | done|].
    rewrite Nat2Z.id, firstn_all in Hc1. destruct (IH ctx1 _ Hc1 Hps) as (ctx' & E & Hc').
    exists ctx'. split; [exact E|]. by rewrite <- app_assoc in Hc'.
Qed.

(** [C21] Whatever the pieces in which a message comes, each below 4 GB, the digest
    is that of the standard, for messages of any length; no access is outside of
    the data or of the buffer, whatever the context was before. *)
Theorem sha1_any_pieces ctx pieces : length (buffer ctx) = 64%nat -> bytes_ok (concat pieces) ->
  Forall (fun p => Z.of_nat (length p) + 63 < 2 ^ 32) pieces ->
  exists ctx1 ctx2, updates (HV_SHA1Init ctx) pieces = Some ctx1 /\
    HV_SHA1Final ctx1 = Some (fips_sha1 (concat pieces), ctx2).
Proof.
  intros Hb Hm Hp. destruct (updates_contain pieces _ [] (init_contains ctx Hb) Hp) as (ctx1 & E & Hc).
  destruct (final_fips ctx1 _ Hc Hm) as (ctx2 & E2). by exists ctx1, ctx2.
Qed.

Definition abc : list (list Z) := [ascii_bytes "ab"; []; ascii_bytes "c"].
Lemma sha1_any_pieces_witness :
  (exists ctx1 ctx2, updates (HV_SHA1Init junk) abc = Some ctx1 /\ HV_SHA1Final ctx1 = Some (fips_sha1 (concat abc), ctx2)) /\
  fips_sha1 (concat abc) = [0xa9; 0x99; 0x3e; 0x36; 0x47; 0x06; 0x81; 0x6a; 0xba; 0x3e;
                            0x25; 0x71; 0x78; 0x50; 0xc2; 0x6c; 0x9c; 0xd0; 0xd8; 0x9d].
Proof.
  split; [|vm_compute; reflexivity].
  apply (sha1_any_pieces junk abc); [reflexivity | |].
  - vm_compute. repeat constructor; discriminate.
  - unfold abc. repeat (apply Forall_cons; split; [cbn; lia|]). by apply Forall_nil.
Defined.

(** One piece, and a byte at a time. *)
Lemma hv_sha1_fips ctx input : length (buffer ctx) = 64%nat -> bytes_ok input -> Z.of_nat (length input) + 63 < 2 ^ 32 ->
  hv_sha1 ctx input (Z.of_nat (length input)) = Some (fips_sha1 input).
Proof.
  intros Hb Hm Hl. unfold hv_sha1.
  destruct (update_contains _ [] input (Z.of_nat (length input)) (init_contains ctx Hb)) as (ctx1 & -> & Hc); [lia | done|].
  rewrite Nat2Z.id, firstn_all in Hc. cbn [mbind option_bind app] in *.
  by destruct (final_fips ctx1 input Hc Hm) as (ctx2 & ->).
Qed.

Lemma update_loop_contains str n : forall left ctx ii, ii = Z.of_nat n -> (n + left <= length str)%nat ->
  contains ctx (take n str) -> exists ctx', update_loop left ctx str ii = Some ctx' /\ contains ctx' (take (n + left) str).
Proof.
  intros left. revert n. induction left as [|left IH]; intros n ctx ii -> Hn Hc; cbn [update_loop].
  - exists ctx. by rewrite Nat.add_0_r.
  - rewrite slice_Some by lia. cbn [mbind option_bind]. rewrite Nat2Z.id.
    destruct (update_contains ctx _ (take (Z.to_nat 1) (drop n str)) 1 Hc) as (ctx1 & -> & Hc1);
      [rewrite length_take, length_drop; lia | lia|].
    cbn [mbind option_bind]. change (Z.to_nat 1) with 1%nat in Hc1. rewrite take_take, take_take_drop in Hc1.
    destruct (IH (n + 1)%nat ctx1 (Z.of_nat n + 1) ltac:(lia) ltac:(lia) Hc1) as (ctx' & E & Hc').
    exists ctx'. split; [exact E|]. by replace (n + S left)%nat with (n + 1 + left)%nat by lia.
Qed.

(** The two interfaces agree: [HV_SHA1] also writes a terminator. *)
Lemma HV_SHA1_is_hv_sha1 ctx ctx' str : length (buffer ctx) = 64%nat -> length (buffer ctx') = 64%nat ->
  bytes_ok str -> Z.of_nat (length str) + 63 < 2 ^ 32 ->
  HV_SHA1 ctx str (Z.of_nat (length str)) = (fun d => d ++ [0]) <$> hv_sha1 ctx' str (Z.of_nat (length str)).
Proof.
  intros Hb Hb' Hm Hl. rewrite hv_sha1_fips by done. unfold HV_SHA1. rewrite Nat2Z.id.
  destruct (update_loop_contains str 0 (length str) (HV_SHA1Init ctx) 0) as (ctx1 & -> & Hc);
    [done | lia | by apply init_contains|].
  cbn [mbind option_bind]. rewrite Nat.add_0_l, firstn_all in Hc.
  by destruct (final_fips ctx1 str Hc Hm) as (ctx2 & ->).
Qed.

Lemma length_compressed n : forall st l, length st = 5%nat -> length (foldl fips_compress st (chunks n l)) = 5%nat.
Proof.
  induction n as [|n IH]; intros st l Hs; [done|]. cbn [chunks foldl]. apply IH. unfold fips_compress.
  rewrite length_zip_with, length_rounds by done. lia.
Qed.

(** A digest has twenty bytes. *)
Lemma fips_sha1_bytes msg : bytes_ok msg -> length (fips_sha1 msg) = 20%nat /\ bytes_ok (fips_sha1 msg).
Proof.
  intros Hm. unfold fips_sha1.
  assert (Hl : length (absorb fips_compress H0 (pad be_len msg)) = 5%nat) by by apply length_compressed.
  revert Hl. generalize (absorb fips_compress H0 (pad be_len msg)). intros s Hs.
  do 5 (destruct s as [|? s]; [done|]). destruct s; [|done]. split; [done|]. cbn [concat fmap list_fmap].
  repeat apply Forall_app_2; try apply be_bytes_ok. by constructor.
Qed.
End Sha1.
