(* ===== verification/Md5.v ===== *)
(** * MD5: [util/md5.c] of libhv

    The unrolled rounds, fed by pieces of a message; the reference is RFC 1321,
    its 64 steps written as one. *)

From Stdlib Require Import Ascii String.
From S2P Require Import Prelude BlockHash.

#[local] Open Scope string_scope.
#[local] Open Scope list_scope.
#[local] Open Scope Z_scope.

Module Md5.

(** ** The rounds *)

Definition F (x y z : Z) : Z := Z.lor (Z.land x y) (Z.land (not32 x) z).
Definition G (x y z : Z) : Z := Z.lor (Z.land x z) (Z.land y (not32 z)).
Definition H (x y z : Z) : Z := Z.lxor (Z.lxor x y) z.
Definition I (x y z : Z) : Z := Z.lxor y (Z.lor x (not32 z)).

(** [a], [b], [c] and [d] by index. *)
Definition a : nat := 0.
Definition b : nat := 1.
Definition c : nat := 2.
Definition d : nat := 3.

(** [a += f(b,c,d) + x + ac; a = ROTATE_LEFT(a,s); a += b;] *)
Definition round (f : Z -> Z -> Z -> Z) (a b c d : nat) (k : nat) (s ac : Z) (x r : list Z) : list Z :=
  let t := u32 (r !!! a + (f (r !!! b) (r !!! c) (r !!! d) + x !!! k + ac)) in
  <[a := u32 (rol t s + r !!! b)]> r.

Definition FF := round F.
Definition GG := round G.
Definition HH := round H.
Definition II := round I.

Definition rounds : list (list Z -> list Z -> list Z) :=
  [FF a b c d 0 7 0xd76aa478; FF d a b c 1 12 0xe8c7b756; FF c d a b 2 17 0x242070db; FF b c d a 3 22 0xc1bdceee;
   FF a b c d 4 7 0xf57c0faf; FF d a b c 5 12 0x4787c62a; FF c d a b 6 17 0xa8304613; FF b c d a 7 22 0xfd469501;
   FF a b c d 8 7 0x698098d8; FF d a b c 9 12 0x8b44f7af; FF c d a b 10 17 0xffff5bb1; FF b c d a 11 22 0x895cd7be;
   FF a b c d 12 7 0x6b901122; FF d a b c 13 12 0xfd987193; FF c d a b 14 17 0xa679438e; FF b c d a 15 22 0x49b40821;
   GG a b c d 1 5 0xf61e2562; GG d a b c 6 9 0xc040b340; GG c d a b 11 14 0x265e5a51; GG b c d a 0 20 0xe9b6c7aa;
   GG a b c d 5 5 0xd62f105d; GG d a b c 10 9 0x2441453; GG c d a b 15 14 0xd8a1e681; GG b c d a 4 20 0xe7d3fbc8;
   GG a b c d 9 5 0x21e1cde6; GG d a b c 14 9 0xc33707d6; GG c d a b 3 14 0xf4d50d87; GG b c d a 8 20 0x455a14ed;
   GG a b c d 13 5 0xa9e3e905; GG d a b c 2 9 0xfcefa3f8; GG c d a b 7 14 0x676f02d9; GG b c d a 12 20 0x8d2a4c8a;
   HH a b c d 5 4 0xfffa3942; HH d a b c 8 11 0x8771f681; HH c d a b 11 16 0x6d9d6122; HH b c d a 14 23 0xfde5380c;
   HH a b c d 1 4 0xa4beea44; HH d a b c 4 11 0x4bdecfa9; HH c d a b 7 16 0xf6bb4b60; HH b c d a 10 23 0xbebfbc70;
   HH a b c d 13 4 0x289b7ec6; HH d a b c 0 11 0xeaa127fa; HH c d a b 3 16 0xd4ef3085; HH b c d a 6 23 0x4881d05;
   HH a b c d 9 4 0xd9d4d039; HH d a b c 12 11 0xe6db99e5; HH c d a b 15 16 0x1fa27cf8; HH b c d a 2 23 0xc4ac5665;
   II a b c d 0 6 0xf4292244; II d a b c 7 10 0x432aff97; II c d a b 14 15 0xab9423a7; II b c d a 5 21 0xfc93a039;
   II a b c d 12 6 0x655b59c3; II d a b c 3 10 0x8f0ccc92; II c d a b 10 15 0xffeff47d; II b c d a 1 21 0x85845dd1;
   II a b c d 8 6 0x6fa87e4f; II d a b c 15 10 0xfe2ce6e0; II c d a b 6 15 0xa3014314; II b c d a 13 21 0x4e0811a1;
   II a b c d 4 6 0xf7537e82; II d a b c 11 10 0xbd3af235; II c d a b 2 15 0x2ad7d2bb; II b c d a 9 21 0xeb86d391]%nat.

(** [HV_MD5Decode] and [HV_MD5Encode]: little-endian words. *)
Definition HV_MD5Decode (input : list Z) : list Z := le_words input.
Definition HV_MD5Encode (input : list Z) : list Z := concat (word_bytes <$> input).

Definition HV_MD5Transform (state block : list Z) : list Z :=
  zip_with (fun s x => u32 (s + x)) state (foldl (fun r f => f (HV_MD5Decode block) r) state rounds).

(** ** The context *)

Record HV_MD5_CTX := mkCtx { count0 : Z; count1 : Z; state : list Z; buffer : list Z }.

Definition PADDING : list Z := 128 :: replicate 63 0.
Definition init_state : list Z := [0x67452301; 0xEFCDAB89; 0x98BADCFE; 0x10325476].

Definition HV_MD5Init (ctx : HV_MD5_CTX) : HV_MD5_CTX := mkCtx 0 0 init_state (buffer ctx).

(** [for (i = partlen; i + 64 <= inputlen; i += 64)] *)
Fixpoint transform_loop (fuel : nat) (st : list Z) (input : list Z) (inputlen i : Z) : option (list Z * Z) :=
  match fuel with
  | O => None
  | S fuel' =>
      if decide (u32 (i + 64) <= inputlen) then
        block ← slice input i 64;
        transform_loop fuel' (HV_MD5Transform st block) input inputlen (u32 (i + 64))
      else Some (st, i)
  end.

(** [None] is an access outside of [input] or [buffer]. *)
Definition HV_MD5Update (ctx : HV_MD5_CTX) (input : list Z) (inputlen : Z) : option HV_MD5_CTX :=
  let index := Z.land (Z.shiftr (count0 ctx) 3) 0x3F in
  let partlen := 64 - index in
  let c0 := count_low (count0 ctx) inputlen in
  let c1 := count_high (bool_decide (c0 < u32 (Z.shiftl inputlen 3))) (count1 ctx) inputlen in
  if decide (partlen <= inputlen) then
    first ← slice input 0 partlen;
    buf ← splice (buffer ctx) (Z.to_nat index) first;
    '(st, i) ← transform_loop (S (Z.to_nat (inputlen / 64))) (HV_MD5Transform (state ctx) buf) input inputlen partlen;
    last ← slice input i (inputlen - i);
    buf ← splice buf 0 last;
    Some (mkCtx c0 c1 st buf)
  else
    last ← slice input 0 inputlen;
    buf ← splice (buffer ctx) (Z.to_nat index) last;
    Some (mkCtx c0 c1 (state ctx) buf).

Definition HV_MD5Final (ctx : HV_MD5_CTX) : option (list Z * HV_MD5_CTX) :=
  let index := Z.land (Z.shiftr (count0 ctx) 3) 0x3F in
  let padlen := if decide (index < 56) then 56 - index else 120 - index in
  let bits := HV_MD5Encode [count0 ctx; count1 ctx] in
  ctx ← HV_MD5Update ctx PADDING padlen;
  ctx ← HV_MD5Update ctx bits 8;
  Some (HV_MD5Encode (state ctx), ctx).

Definition hv_md5 (ctx : HV_MD5_CTX) (input : list Z) (inputlen : Z) : option (list Z) :=
  ctx ← HV_MD5Update (HV_MD5Init ctx) input inputlen;
  '(digest, _) ← HV_MD5Final ctx;
  Some digest.

Definition i2hex (i : Z) : Z := if decide (i < 10) then i + 48 else i - 10 + 97.

(** What is written to [output]. *)
Definition hv_md5_hex (ctx : HV_MD5_CTX) (input : list Z) (inputlen outputlen : Z) : option (list Z) :=
  if decide (outputlen < 32) then Some []
  else
    digest ← hv_md5 ctx input inputlen;
    Some (concat ((fun x => [i2hex (Z.shiftr x 4); i2hex (Z.land x 15)]) <$> digest) ++
          if decide (32 < outputlen) then [0] else []).

(** ** The reference: RFC 1321 *)

Definition rfc_f (i : nat) : Z -> Z -> Z -> Z :=
  if decide (i < 16)%nat then F else if decide (i < 32)%nat then G else if decide (i < 48)%nat then H else I.
(** The word of the block. *)
Definition rfc_g (i : nat) : nat :=
  if decide (i < 16)%nat then i else if decide (i < 32)%nat then ((5 * i + 1) mod 16)%nat
  else if decide (i < 48)%nat then ((3 * i + 5) mod 16)%nat else ((7 * i) mod 16)%nat.
Definition rfc_s (i : nat) : Z :=
  [7; 12; 17; 22; 5; 9; 14; 20; 4; 11; 16; 23; 6; 10; 15; 21] !!! ((i / 16) * 4 + i mod 4)%nat.
(** [floor(2^32 * abs(sin(i + 1)))] *)
Definition rfc_T : list Z :=
  [0xd76aa478; 0xe8c7b756; 0x242070db; 0xc1bdceee; 0xf57c0faf; 0x4787c62a; 0xa8304613; 0xfd469501;
   0x698098d8; 0x8b44f7af; 0xffff5bb1; 0x895cd7be; 0x6b901122; 0xfd987193; 0xa679438e; 0x49b40821;
   0xf61e2562; 0xc040b340; 0x265e5a51; 0xe9b6c7aa; 0xd62f105d; 0x02441453; 0xd8a1e681; 0xe7d3fbc8;
   0x21e1cde6; 0xc33707d6; 0xf4d50d87; 0x455a14ed; 0xa9e3e905; 0xfcefa3f8; 0x676f02d9; 0x8d2a4c8a;
   0xfffa3942; 0x8771f681; 0x6d9d6122; 0xfde5380c; 0xa4beea44; 0x4bdecfa9; 0xf6bb4b60; 0xbebfbc70;
   0x289b7ec6; 0xeaa127fa; 0xd4ef3085; 0x04881d05; 0xd9d4d039; 0xe6db99e5; 0x1fa27cf8; 0xc4ac5665;
   0xf4292244; 0x432aff97; 0xab9423a7; 0xfc93a039; 0x655b59c3; 0x8f0ccc92; 0xffeff47d; 0x85845dd1;
   0x6fa87e4f; 0xfe2ce6e0; 0xa3014314; 0x4e0811a1; 0xf7537e82; 0xbd3af235; 0x2ad7d2bb; 0xeb86d391].

Definition rfc_round (x h : list Z) (i : nat) : list Z :=
  match h with
  | [a; b; c; d] => [d; u32 (b + rol (u32 (a + rfc_f i b c d + x !!! rfc_g i + rfc_T !!! i)) (rfc_s i)); b; c]
  | _ => h
  end.

Definition rfc_compress (h block : list Z) : list Z :=
  zip_with (fun s x => u32 (s + x)) h (foldl (rfc_round (le_words block)) h (seq 0 64)).

(** 64 bits, least significant first. *)
Definition le_len (n : Z) : list Z := word_bytes (u32 n) ++ word_bytes (Z.shiftr n 32).

Definition rfc_md5 (msg : list Z) : list Z := concat (word_bytes <$> absorb rfc_compress init_state (pad le_len msg)).

Definition ascii_bytes (s : string) : list Z := (fun x => Z.of_nat (Ascii.nat_of_ascii x)) <$> list_ascii_of_string s.
Definition junk : HV_MD5_CTX := mkCtx 99 7 [1; 2; 3; 4] (replicate 64 255).

(** Test vectors of the RFC. *)
Example md5_abc : hv_md5_hex junk (ascii_bytes "abc") 3 33 = Some (ascii_bytes "900150983cd24fb0d6963f7d28e17f72" ++ [0]).
Proof. vm_compute. reflexivity. Qed.
Example md5_two_blocks :
  let msg := ascii_bytes "12345678901234567890123456789012345678901234567890123456789012345678901234567890" in
  hv_md5_hex junk msg 80 32 = Some (ascii_bytes "57edf4a22be3c955ac49da2e2107b67a") /\ hv_md5 junk msg 80 = Some (rfc_md5 msg).
Proof. vm_compute. split; reflexivity. Qed.

(** ** The rounds compute the reference *)

(** The [k]-th variable of the reference is in [role k t] before round [t]. *)
Definition role (k t : nat) : nat := ((k + 3 * t) mod 4)%nat.
Definition instr (t : nat) : list Z -> list Z -> list Z :=
  round (rfc_f t) (role 0 t) (role 1 t) (role 2 t) (role 3 t) (rfc_g t) (rfc_s t) (rfc_T !!! t).

Lemma md5_rounds_rotate : rounds = instr <$> seq 0 64.
Proof. reflexivity. Qed.

Lemma md5_role_next k t : role (S k) (S t) = role k t.
Proof. unfold role. replace (S k + 3 * S t)%nat with (k + 3 * t + 1 * 4)%nat by lia. apply Nat.Div0.mod_add. Qed.
Lemma md5_role_first t : role 0 (S t) = role 3 t.
Proof. unfold role. f_equal. lia. Qed.
Lemma md5_role_lt k t : (role k t < 4)%nat.
Proof. by apply Nat.mod_upper_bound. Qed.
Lemma md5_role_inj i j t : (i < 4)%nat -> (j < 4)%nat -> role i t = role j t -> i = j.
Proof. unfold role. intros Hi Hj. pose proof (Nat.div_mod_eq (i + 3 * t) 4). pose proof (Nat.div_mod_eq (j + 3 * t) 4). lia. Qed.

Definition arranged (t : nat) (h r : list Z) : Prop :=
  length r = 4%nat /\ forall k, (k < 4)%nat -> r !!! role k t = h !!! k.

Lemma md5_round_ok t x h r : (t < 64)%nat -> length h = 4%nat -> arranged t h r ->
  arranged (S t) (rfc_round x h t) (instr t x r).
Proof.
  intros Ht Hl [Hlr Hr]. do 4 (destruct h as [|? h]; [done|]). destruct h; [|done].
  unfold instr, round. rewrite (Hr 0%nat), (Hr 1%nat), (Hr 2%nat), (Hr 3%nat) by lia.
  cbn [lookup_total list_lookup_total rfc_round]. split; [by rewrite length_insert|]. intros k Hk.
  pose proof (md5_role_lt 0 t).
  destruct k as [|k]; [rewrite md5_role_first | rewrite md5_role_next].
  - rewrite list_lookup_total_insert_ne by (intros E; by apply md5_role_inj in E; [|lia..]). by rewrite Hr by lia.
  - destruct k as [|k].
    + rewrite list_lookup_total_insert_eq by lia. cbn [lookup_total list_lookup_total].
      rewrite Z.add_comm. do 3 f_equal. f_equal. lia.
    + rewrite list_lookup_total_insert_ne by (intros E; by apply md5_role_inj in E; [|lia..]). rewrite Hr by lia.
      do 2 (destruct k as [|k]; [done|]). lia.
Qed.

Lemma md5_rounds_ok x n : forall t h r, (t + n = 64)%nat -> length h = 4%nat -> arranged t h r ->
  arranged 64 (foldl (rfc_round x) h (seq t n)) (foldl (fun r f => f x r) r (instr <$> seq t n)) /\
  length (foldl (rfc_round x) h (seq t n)) = 4%nat.
Proof.
  induction n as [|n IH]; intros t h r Ht Hl Ha; cbn [seq foldl fmap list_fmap].
  { by replace 64%nat with t by lia. }
  apply IH; [lia | | apply md5_round_ok; (done || lia)].
  do 4 (destruct h as [|? h]; [done|]). by destruct h.
Qed.

Lemma md5_transform_rfc st block : length st = 4%nat -> HV_MD5Transform st block = rfc_compress st block.
Proof.
  intros Hl. unfold HV_MD5Transform, rfc_compress, HV_MD5Decode. rewrite md5_rounds_rotate. f_equal.
  destruct (md5_rounds_ok (le_words block) 64 0 st st) as [[Hr1 Hr2] Hh]; [done | done | |].
  - split; [done|]. intros k Hk. unfold role. by rewrite Nat.mod_small, Nat.add_0_r by lia.
  - apply list_eq_same_length with 4%nat; [done | done|]. intros i x y Hi Hx Hy. specialize (Hr2 i Hi).
    unfold role in Hr2. replace (i + 3 * 64)%nat with (i + 48 * 4)%nat in Hr2 by lia.
    rewrite Nat.Div0.mod_add, Nat.mod_small in Hr2 by lia.
    apply list_lookup_total_correct in Hx, Hy. congruence.
Qed.

Lemma length_rfc n : forall st l, length st = 4%nat -> length (foldl rfc_compress st (chunks n l)) = 4%nat.
Proof.
  induction n as [|n IH]; intros st l Hs; [done|]. cbn [chunks foldl]. apply IH. unfold rfc_compress.
  destruct (md5_rounds_ok (le_words (take 64 l)) 64 0 st st) as [_ Hh]; [done | done | |].
  - split; [done|]. intros k Hk. unfold role. by rewrite Nat.mod_small, Nat.add_0_r by lia.
  - rewrite length_zip_with, Hh. lia.
Qed.

Lemma absorb_rfc l : absorb HV_MD5Transform init_state l = absorb rfc_compress init_state l.
Proof.
  unfold absorb. generalize (blocks l). assert (Hs : length init_state = 4%nat) by done. revert Hs.
  generalize init_state. intros st Hs n. revert l st Hs.
  induction n as [|n IH]; intros l st Hs; [done|]. cbn [chunks foldl]. rewrite md5_transform_rfc by done. apply IH.
  exact (length_rfc 1 st l Hs).
Qed.

(** ** The context holds the message *)

Definition contains (ctx : HV_MD5_CTX) (msg : list Z) : Prop :=
  holds HV_MD5Transform init_state (state ctx) (count0 ctx) (count1 ctx) (buffer ctx) msg.

Lemma md5_init_contains ctx : length (buffer ctx) = 64%nat -> contains (HV_MD5Init ctx) [].
Proof. intros Hb. by split. Qed.

Lemma md5_transform_loop_ok input len n : 0 <= len <= Z.of_nat (length input) -> len + 64 < 2 ^ 32 ->
  forall fuel st i, 0 <= i -> i + 64 * Z.of_nat n <= len < i + 64 * Z.of_nat n + 64 -> (n < fuel)%nat ->
  transform_loop fuel st input len i =
    Some (foldl HV_MD5Transform st (chunks n (drop (Z.to_nat i) input)), i + 64 * Z.of_nat n).
Proof.
  intros Hd Hl. induction n as [|n IH]; intros fuel st i Hi Hn Hf; (destruct fuel as [|fuel]; [lia|]);
    cbn [transform_loop]; rewrite u32_small by lia.
  - rewrite decide_False by lia. cbn. do 2 f_equal. lia.
  - rewrite decide_True, slice_Some by lia. cbn [mbind option_bind].
    rewrite IH by lia. cbn [chunks foldl]. rewrite drop_drop. do 2 f_equal; [|lia].
    do 2 f_equal. f_equal. lia.
Qed.

Lemma md5_update_contains ctx msg input len : contains ctx msg -> 0 <= len <= Z.of_nat (length input) -> len + 64 < 2 ^ 32 ->
  exists ctx', HV_MD5Update ctx input len = Some ctx' /\ contains ctx' (msg ++ take (Z.to_nat len) input).
Proof.
  intros Hc Hd Hl. pose proof Hc as [_ H0 _ _ Hb _]. unfold HV_MD5Update.
  rewrite (holds_used _ _ _ _ _ _ _ Hc), carry_same by done. destruct (blocks_split msg) as [_ Hr].
  set (j := length (rest msg)) in *. rewrite Nat2Z.id.
  assert (Ht : length (take (Z.to_nat len) input) = Z.to_nat len) by (rewrite length_take; lia).
  case_decide as Hlong.
  - destruct (update_split input len j) as (n & first & mid & last & Hmsg & Lf & Lm & Ll & Hn & E1 & E2 & E3); [lia..|].
    rewrite E1. cbn [mbind option_bind].
    destruct (splice_fits (buffer ctx) first j) as [buf1 Eb1]; [lia|]. rewrite Eb1. cbn [mbind option_bind].
    rewrite (md5_transform_loop_ok input len n) by (try lia; div_lia). cbn [mbind option_bind].
    rewrite E2, E3. cbn [mbind option_bind].
    destruct (splice_fits buf1 last 0) as [buf2 Eb2]; [rewrite (length_splice _ _ _ _ Eb1); lia|]. rewrite Eb2.
    cbn [mbind option_bind]. eexists. split; [reflexivity|]. unfold contains.
    cbn [state count0 count1 buffer]. rewrite Hmsg in Ht |- *.
    replace len with (Z.of_nat (length (first ++ mid ++ last))) by lia.
    exact (proj2 (holds_long HV_MD5Transform init_state (state ctx) _ _ _ msg first mid last buf1 buf2 _ Hc
      ltac:(lia) (ex_intro _ n Lm) Ll Eb1 Eb2 ltac:(lia) eq_refl)).
  - rewrite slice_Some by lia. change (Z.to_nat 0) with 0%nat. rewrite drop_0. cbn [mbind option_bind].
    destruct (splice_fits (buffer ctx) (take (Z.to_nat len) input) j) as [buf E]; [lia|]. rewrite E.
    cbn [mbind option_bind]. eexists. split; [reflexivity|]. unfold contains. cbn [state count0 count1 buffer].
    set (piece := take (Z.to_nat len) input) in *. assert (El : len = Z.of_nat (length piece)) by lia.
    clearbody piece. rewrite El.
    eapply holds_short; [exact Hc | lia | exact E | done].
Qed.

(** ** The digest *)

Lemma bits_len ctx msg : contains ctx msg ->
  HV_MD5Encode [count0 ctx; count1 ctx] = le_len (u64 (8 * Z.of_nat (length msg))).
Proof.
  intros [_ H0 H1 Hc _ _]. unfold HV_MD5Encode, le_len. rewrite <- Hc. cbn [fmap list_fmap concat]. rewrite app_nil_r.
  f_equal; f_equal; unfold u32; bitsimpl; div_lia.
Qed.

Lemma length_le_len n : length (le_len n) = 8%nat.
Proof. reflexivity. Qed.

Lemma take_padding k : (k < 64)%nat -> take (S k) PADDING = 128 :: replicate k 0.
Proof. intros Hk. unfold PADDING. cbn [take]. f_equal. rewrite take_replicate. f_equal. lia. Qed.

Lemma md5_final_rfc ctx msg : contains ctx msg -> exists ctx', HV_MD5Final ctx = Some (rfc_md5 msg, ctx').
Proof.
  intros Hc. unfold HV_MD5Final. rewrite (bits_len _ _ Hc), (holds_used _ _ _ _ _ _ _ Hc).
  destruct (blocks_split msg) as [Em Hr]. set (j := length (rest msg)) in *.
  assert (Ep : (if decide (Z.of_nat j < 56) then 56 - Z.of_nat j else 120 - Z.of_nat j) = Z.of_nat (S (pad_zeros (length msg)))).
  { unfold pad_zeros. case_decide; div_lia. }
  rewrite Ep. set (z := pad_zeros (length msg)) in *. assert (Hz : (z < 64)%nat) by (revert Ep; case_decide; lia).
  destruct (md5_update_contains ctx msg PADDING (Z.of_nat (S z)) Hc) as (ctx1 & -> & Hc1);
    [unfold PADDING; cbn [length]; rewrite length_replicate; lia | lia|].
  rewrite Nat2Z.id, take_padding in Hc1 by done. cbn [mbind option_bind].
  set (bits := le_len _). destruct (md5_update_contains ctx1 _ bits 8 Hc1) as (ctx2 & -> & Hc2); [done | lia|].
  cbn [mbind option_bind]. eexists. do 2 f_equal. unfold HV_MD5Encode, rfc_md5. do 2 f_equal.
  assert (Epad : (msg ++ 128 :: replicate z 0) ++ take (Z.to_nat 8) bits = pad le_len msg).
  { unfold pad. by rewrite <- app_assoc. }
  rewrite Epad in Hc2. rewrite (holds_state _ _ _ _ _ _ _ Hc2). apply absorb_rfc.
Qed.

Fixpoint updates (ctx : HV_MD5_CTX) (pieces : list (list Z)) : option HV_MD5_CTX :=
  match pieces with
  | [] => Some ctx
  | p :: pieces' => ctx ← HV_MD5Update ctx p (Z.of_nat (length p)); updates ctx pieces'
  end.

Lemma md5_updates_contain pieces : forall ctx msg, contains ctx msg ->
  Forall (fun p => Z.of_nat (length p) + 64 < 2 ^ 32) pieces ->
  exists ctx', updates ctx pieces = Some ctx' /\ contains ctx' (msg ++ concat pieces).
Proof.
  induction pieces as [|p pieces IH]; intros ctx msg Hc Hp; cbn [updates concat].
  - exists ctx. by rewrite app_nil_r.
  - apply Forall_cons in Hp as [Hp Hps].
    destruct (md5_update_contains ctx msg p (Z.of_nat (length p)) Hc) as (ctx1 & -> & Hc1); [lia | done|].
    rewrite Nat2Z.id, firstn_all in Hc1. destruct (IH ctx1 _ Hc1 Hps) as (ctx' & E & Hc').
    exists ctx'. split; [exact E|]. by rewrite <- app_assoc in Hc'.
Qed.

(** Whatever the pieces in which a message comes, each below 4 GB, the digest is
    that of RFC 1321. *)
Theorem md5_any_pieces ctx pieces : length (buffer ctx) = 64%nat ->
  Forall (fun p => Z.of_nat (length p) + 64 < 2 ^ 32) pieces ->
  exists ctx1 ctx2, updates (HV_MD5Init ctx) pieces = Some ctx1 /\
    HV_MD5Final ctx1 = Some (rfc_md5 (concat pieces), ctx2).
Proof.
  intros Hb Hp. destruct (md5_updates_contain pieces _ [] (md5_init_contains ctx Hb) Hp) as (ctx1 & E & Hc).
  destruct (md5_final_rfc ctx1 _ Hc) as (ctx2 & E2). by exists ctx1, ctx2.
Qed.

Lemma hv_md5_rfc ctx input : length (buffer ctx) = 64%nat -> Z.of_nat (length input) + 64 < 2 ^ 32 ->
  hv_md5 ctx input (Z.of_nat (length input)) = Some (rfc_md5 input).
Proof.
  intros Hb Hl. unfold hv_md5.
  destruct (md5_update_contains _ [] input (Z.of_nat (length input)) (md5_init_contains ctx Hb)) as (ctx1 & -> & Hc); [lia | done|].
  rewrite Nat2Z.id, firstn_all in Hc. cbn [mbind option_bind app] in *.
  by destruct (md5_final_rfc ctx1 input Hc) as (ctx2 & ->).
Qed.
End Md5.
