(* ===== verification/Unpack.v ===== *)
(** * Splitting a byte stream into packages: [libs/libhv/event/unpack.c]

    [hio_unpack] is called by [hio_handle_read] ([event/hevent.c]) each time
    bytes have been appended to the read buffer of an io; it calls the read
    callback once per complete package and keeps the rest at the start of the
    buffer.  The three modes are shown to implement the same contract, that of
    a framing function. *)

From S2P Require Import Prelude Varint.

Module Unpack.

(** ** Data *)

Inductive unpack_mode_e :=
| UNPACK_MODE_NONE | UNPACK_BY_FIXED_LENGTH | UNPACK_BY_DELIMITER | UNPACK_BY_LENGTH_FIELD.

Inductive unpack_coding_e := ENCODE_BY_VARINT | ENCODE_BY_LITTEL_ENDIAN | ENCODE_BY_BIG_ENDIAN.
#[export] Instance unpack_coding_e_eq : EqDecision unpack_coding_e.
Proof. solve_decision. Defined.

(** [delimiter] holds its first [delimiter_bytes] bytes. *)
Record unpack_setting_t := mkSetting {
  mode : unpack_mode_e;
  package_max_length : Z;
  fixed_length : Z;
  delimiter : list Z;
  body_offset : Z;
  length_field_offset : Z;
  length_field_bytes : Z;
  length_adjustment : Z;
  length_field_coding : unpack_coding_e;
}.

Definition READ_BUFSIZE_HIGH_WATER : Z := 65536.

(** What an io keeps for reading: the bytes of [readbuf] from [head] (always 0
    here) to [tail], its size, and what was given to [read_cb]. *)
Record hio_t := mkIo {
  rb_data : list Z;
  rb_len : Z;
  max_read_bufsize : Z;
  small_readbytes_cnt : Z;
  over_limit : bool;
  closed : bool;
  delivered : list (list Z);
}.

Definition set_data (io : hio_t) (d : list Z) : hio_t :=
  mkIo d (rb_len io) (max_read_bufsize io) (small_readbytes_cnt io) (over_limit io) (closed io) (delivered io).

(** [io->error = ERR_OVER_LIMIT; hio_close(io)]. *)
Definition close_over_limit (io : hio_t) : hio_t :=
  mkIo (rb_data io) (rb_len io) (max_read_bufsize io) (small_readbytes_cnt io) true true (delivered io).

(** ** The read buffer ([hevent.c]) *)

(** The length is an [int], compared as an [unsigned int].  Over the limit the io
    is closed: here at once, in the code when the loop gets to it
    ([hio_close_async]). *)
Definition hio_alloc_readbuf (io : hio_t) (len : Z) : hio_t :=
  let len := i32 len in
  if decide (max_read_bufsize io < u32 len) then close_over_limit io
  else mkIo (rb_data io) (u64 len) (max_read_bufsize io) 0 (over_limit io) (closed io) (delivered io).

(** [hio_read_cb] with the bytes [buf], in an io that has its own buffer and
    was not asked to read once. *)
Definition hio_read_cb (io : hio_t) (buf : list Z) : hio_t :=
  let cnt := if decide (READ_BUFSIZE_HIGH_WATER < rb_len io) then
               if decide (Z.of_nat (length buf) < rb_len io / 2)
               then u32 (small_readbytes_cnt io + 1) else 0
             else small_readbytes_cnt io in
  mkIo (rb_data io) (rb_len io) (max_read_bufsize io) cnt (over_limit io) (closed io) (delivered io ++ [buf]).

(** [hio_set_unpack]: the read buffer of an io that starts to unpack. *)
Definition DEFAULT_PACKAGE_MAX_LENGTH : Z := Z.shiftl 1 21.
Definition HLOOP_READ_BUFSIZE : Z := 8192.

Definition hio_set_unpack (io : hio_t) (setting : unpack_setting_t) : hio_t * unpack_setting_t :=
  let max := if decide (package_max_length setting = 0) then DEFAULT_PACKAGE_MAX_LENGTH
             else package_max_length setting in
  let setting := mkSetting (mode setting) max (fixed_length setting) (delimiter setting) (body_offset setting)
    (length_field_offset setting) (length_field_bytes setting) (length_adjustment setting)
    (length_field_coding setting) in
  let len := match mode setting with
             | UNPACK_BY_FIXED_LENGTH => fixed_length setting
             | _ => Z.min HLOOP_READ_BUFSIZE max
             end in
  (hio_alloc_readbuf (mkIo (rb_data io) len max (small_readbytes_cnt io) (over_limit io) (closed io)
     (delivered io)) len, setting).

(** ** The three modes

    [rest] is the buffer from [p] (or [sp]) on.  A loop returns the io, the
    bytes that remain and [handled]; [None] is running out of fuel (or reading
    out of the buffer). *)

Fixpoint fixed_loop (fuel : nat) (n : nat) (io : hio_t) (rest : list Z) (handled : Z)
  : option (hio_t * list Z * Z) :=
  match fuel with
  | O => None
  | S fuel' =>
      if decide (n <= length rest)%nat
      then fixed_loop fuel' n (hio_read_cb io (take n rest)) (drop n rest) (handled + Z.of_nat n)
      else Some (io, rest, handled)
  end.

Definition hio_unpack_by_fixed_length (setting : unpack_setting_t) (io : hio_t) (data : list Z)
  : option (hio_t * Z) :=
  '(io, remain, handled) ← fixed_loop (S (length data)) (Z.to_nat (fixed_length setting)) io data 0;
  Some (set_data io remain, handled).

(** The inner [for] loop: does the delimiter start here? *)
Fixpoint match_delimiter (delim rest : list Z) : bool :=
  match delim, rest with
  | [], _ => true
  | d :: delim', c :: rest' => if decide (c <> d) then false else match_delimiter delim' rest'
  | _ :: _, [] => false
  end.

(** [off] is [p - sp]. *)
Fixpoint delimiter_loop (fuel : nat) (delim : list Z) (io : hio_t) (sp : list Z) (off : nat) (handled : Z)
  : option (hio_t * list Z * Z) :=
  match fuel with
  | O => None
  | S fuel' =>
      if decide (length delim <= length sp - off)%nat then
        if match_delimiter delim (drop off sp) then
          let n := (off + length delim)%nat in
          delimiter_loop fuel' delim (hio_read_cb io (take n sp)) (drop n sp) 0 (handled + Z.of_nat n)
        else delimiter_loop fuel' delim io sp (S off) handled
      else Some (io, sp, handled)
  end.

(** The buffer grows when it is full of an incomplete package. *)
Definition delimiter_grow (setting : unpack_setting_t) (io : hio_t) (handled : Z) : hio_t * Z :=
  if decide (rb_data io <> [] /\ Z.of_nat (length (rb_data io)) = rb_len io) then
    if decide (package_max_length setting <= rb_len io) then (close_over_limit io, -1)
    else (hio_alloc_readbuf io (Z.min (rb_len io * 2) (package_max_length setting)), handled)
  else (io, handled).

(** [readbytes] bytes of [data] are new: the search starts where a delimiter
    that ends in them could start. *)
Definition hio_unpack_by_delimiter (setting : unpack_setting_t) (io : hio_t) (data : list Z) (readbytes : nat)
  : option (hio_t * Z) :=
  let delim := delimiter setting in
  let off := (length data - readbytes + 1 - length delim)%nat in
  '(io, remain, handled) ← delimiter_loop (S (length data)) delim io data off 0;
  Some (delimiter_grow setting (set_data io remain) handled).

(** The length field: the body length and the length of the head, or [None]
    when the field is not complete. *)
Definition be_field (bs : list Z) : Z :=
  fold_left (fun body_len b => Z.lor (u32 (Z.shiftl body_len 8)) b) bs 0.
Fixpoint le_field (i : Z) (bs : list Z) (body_len : Z) : Z :=
  match bs with
  | [] => body_len
  | b :: bs' => le_field (i + 1) bs' (Z.lor body_len (u32 (Z.shiftl b (i * 8))))
  end.

Inductive field_result :=
| Field (body_len head_len : Z)
| Incomplete
| TooBig.

(** [None]: the field is out of the buffer, or wider than an [unsigned int]. *)
Definition length_field (setting : unpack_setting_t) (p : list Z) : option field_result :=
  let lp := drop (Z.to_nat (length_field_offset setting)) p in
  let bs := take (Z.to_nat (length_field_bytes setting)) lp in
  match length_field_coding setting with
  | ENCODE_BY_BIG_ENDIAN =>
      if decide (Z.of_nat (length bs) = length_field_bytes setting)
      then Some (Field (be_field bs) (body_offset setting)) else None
  | ENCODE_BY_LITTEL_ENDIAN =>
      if decide (Z.of_nat (length bs) = length_field_bytes setting /\ length_field_bytes setting <= 4)
      then Some (Field (le_field 0 bs 0) (body_offset setting)) else None
  | ENCODE_BY_VARINT =>
      '(value, varint_bytes) ← varint_decode lp (Z.of_nat (length lp));
      if decide (varint_bytes = 0) then Some Incomplete
      else if decide (varint_bytes = -1) then Some TooBig
      else Some (Field (u32 value) (u32 (body_offset setting + varint_bytes - length_field_bytes setting)))
  end.

Definition package_length (setting : unpack_setting_t) (body_len head_len : Z) : Z :=
  u32 (head_len + body_len + length_adjustment setting).

(** The loop also returns the last [package_len], and whether it stopped at a
    length that is too big. *)
Fixpoint length_field_loop (fuel : nat) (setting : unpack_setting_t) (io : hio_t) (p : list Z)
    (package_len handled : Z) : option (hio_t * list Z * Z * Z * bool) :=
  match fuel with
  | O => None
  | S fuel' =>
      if decide (body_offset setting <= Z.of_nat (length p)) then
        r ← length_field setting p;
        match r with
        | Incomplete => Some (io, p, package_len, handled, false)
        | TooBig => Some (io, p, package_len, handled, true)
        | Field body_len head_len =>
            let package_len := package_length setting body_len head_len in
            if decide (package_len <= Z.of_nat (length p)) then
              let n := Z.to_nat package_len in
              length_field_loop fuel' setting (hio_read_cb io (take n p)) (drop n p) package_len
                (handled + package_len)
            else Some (io, p, package_len, handled, false)
        end
      else Some (io, p, package_len, handled, false)
  end.

Definition length_field_grow (setting : unpack_setting_t) (io : hio_t) (package_len handled : Z) : hio_t * Z :=
  if decide (rb_data io <> [] /\ rb_len io < package_len) then
    if decide (package_max_length setting < package_len) then (close_over_limit io, -1)
    else
      let newsize := if decide (rb_len io * 2 < package_len) then package_len
                     else Z.min (rb_len io * 2) (package_max_length setting) in
      (hio_alloc_readbuf io newsize, handled)
  else (io, handled).

(** When the length is too big, the io is closed with its buffer as it was. *)
Definition hio_unpack_by_length_field (setting : unpack_setting_t) (io : hio_t) (data : list Z)
  : option (hio_t * Z) :=
  '(io, remain, package_len, handled, too_big) ←
    length_field_loop (S (length data)) setting io data (body_offset setting) 0;
  if too_big : bool then Some (close_over_limit (set_data io data), -1)
  else Some (length_field_grow setting (set_data io remain) package_len handled).

(** [hio_unpack] after [readbytes] bytes, the last ones of [data], were read. *)
Definition hio_unpack (setting : unpack_setting_t) (io : hio_t) (data : list Z) (readbytes : nat)
  : option (hio_t * Z) :=
  match mode setting with
  | UNPACK_BY_FIXED_LENGTH => hio_unpack_by_fixed_length setting io data
  | UNPACK_BY_DELIMITER => hio_unpack_by_delimiter setting io data readbytes
  | UNPACK_BY_LENGTH_FIELD => hio_unpack_by_length_field setting io data
  | UNPACK_MODE_NONE => Some (hio_read_cb io (drop (length data - readbytes) data), Z.of_nat readbytes)
  end.

(** The end of [hio_handle_read]: the buffer doubles when it is full and
    shrinks after three small packages. *)
Definition autosize (io : hio_t) : hio_t :=
  if decide (Z.of_nat (length (rb_data io)) = rb_len io) then hio_alloc_readbuf io (rb_len io * 2)
  else
    let small_size := rb_len io / 2 in
    if decide (Z.of_nat (length (rb_data io)) < small_size /\ 3 <= small_readbytes_cnt io)
    then hio_alloc_readbuf io small_size else io.

(** [nio_read] puts [chunk] after the bytes kept and calls [hio_handle_read],
    for an io that unpacks.  A closed io lost its own buffer to [hio_done] and is
    not resized here; the code may still give it a new buffer, of which nothing is
    delivered. *)
Definition hio_handle_read (setting : unpack_setting_t) (io : hio_t) (chunk : list Z) : option hio_t :=
  let data := rb_data io ++ chunk in
  '(io, _) ← hio_unpack setting (set_data io data) data (length chunk);
  Some (if closed io then io else autosize io).

(** ** The contract: a framing function

    What a mode promises: a function tells from the bytes at hand whether a
    package starts them, and says the same when more bytes follow. *)

Inductive frame_result := Need | Package (n : nat) | Bad.

Class Framing (frame : list Z -> frame_result) : Prop := {
  frame_len l n : frame l = Package n -> (n <= length l)%nat;
  frame_more l k n : frame l = Package n -> frame (l ++ k) = Package n;
  frame_bad l k : frame l = Bad -> frame (l ++ k) = Bad;
}.

(** [packages frame l ps r]: the stream [l] is the packages [ps], none of them
    empty, and an incomplete rest [r]. *)
Inductive packages (frame : list Z -> frame_result) : list Z -> list (list Z) -> list Z -> Prop :=
| packages_rest l : frame l = Need -> packages frame l [] l
| packages_next l n ps r : frame l = Package n -> (0 < n)%nat ->
    packages frame (drop n l) ps r -> packages frame l (take n l :: ps) r.

Section Stream.
Context (frame : list Z -> frame_result) `{!Framing frame}.

(** A prefix of a stream of packages is one, and the stream goes on with its rest. *)
Lemma packages_split l k ps r : packages frame (l ++ k) ps r ->
  exists ps1 r1 ps2, packages frame l ps1 r1 /\ packages frame (r1 ++ k) ps2 r /\ ps = ps1 ++ ps2.
Proof.
  intros H. remember (l ++ k) as s eqn:Hs. revert l Hs.
  induction H as [s Hf|s n ps r Hf Hn H IH]; intros l ->.
  - exists [], l, []. split; [|split; [by constructor | done]].
    constructor. destruct (frame l) eqn:E; [done | |].
    + by rewrite (frame_more _ k _ E) in Hf.
    + by rewrite (frame_bad _ k E) in Hf.
  - destruct (frame l) as [|n'|] eqn:E.
    + exists [], l, (take n (l ++ k) :: ps). split; [by constructor|]. split; [|done].
      by econstructor.
    + pose proof (frame_len _ _ E) as Hle. rewrite (frame_more _ k _ E) in Hf. simplify_eq.
      rewrite drop_app_le, take_app_le in * by lia.
      destruct (IH (drop n l)) as (ps1 & r1 & ps2 & H1 & H2 & ->); [done|].
      exists (take n l :: ps1), r1, ps2. split; [by econstructor | done].
    + by rewrite (frame_bad _ k E) in Hf.
Qed.

Lemma packages_need l ps r : packages frame l ps r -> frame r = Need.
Proof. by induction 1. Qed.

(** Every stream is one when the frames are never empty nor bad. *)
Lemma packages_total : (forall l n, frame l = Package n -> (0 < n)%nat) -> (forall l, frame l <> Bad) ->
  forall l, exists ps r, packages frame l ps r.
Proof.
  intros Hpos Hbad l.
  remember (length l) as m eqn:Hm. revert l Hm.
  induction (lt_wf m) as [m _ IH]. intros l ->. destruct (frame l) as [|n|] eqn:E.
  - exists [], l. by constructor.
  - pose proof (Hpos _ _ E) as H1. pose proof (frame_len _ _ E) as H2.
    destruct (IH (length (drop n l))) with (l := drop n l) as (ps & r & H); [rewrite length_drop; lia | done |].
    exists (take n l :: ps), r. by econstructor.
  - by destruct (Hbad l).
Qed.

End Stream.

(** The effect of delivering packages. *)
Definition deliver (io : hio_t) (ps : list (list Z)) : hio_t := fold_left hio_read_cb ps io.

Definition total (ps : list (list Z)) : Z := Z.of_nat (length (concat ps)).

Lemma deliver_delivered ps : forall io, delivered (deliver io ps) = delivered io ++ ps.
Proof.
  induction ps as [|x ps IH]; intros io; [by rewrite app_nil_r|].
  change (deliver io (x :: ps)) with (deliver (hio_read_cb io x) ps). rewrite IH. cbn. by rewrite <- app_assoc.
Qed.

Lemma deliver_fields ps : forall io, rb_data (deliver io ps) = rb_data io /\ rb_len (deliver io ps) = rb_len io /\
  max_read_bufsize (deliver io ps) = max_read_bufsize io /\ closed (deliver io ps) = closed io.
Proof.
  induction ps as [|x ps IH]; intros io; [done|].
  change (deliver io (x :: ps)) with (deliver (hio_read_cb io x) ps). destruct (IH (hio_read_cb io x)) as (-> & -> & -> & ->). done.
Qed.

(** *** Fixed length *)

Definition fixed_frame (n : nat) (l : list Z) : frame_result :=
  if decide (n <= length l)%nat then Package n else Need.

#[export] Instance fixed_framing n : Framing (fixed_frame n).
Proof.
  unfold fixed_frame. split; intros l.
  - intros m ?. case_decide; by simplify_eq.
  - intros k m ?. rewrite length_app. case_decide; simplify_eq. by rewrite decide_True by lia.
  - intros k ?. by case_decide.
Qed.

Lemma fixed_loop_spec n l ps r : (0 < n)%nat -> packages (fixed_frame n) l ps r ->
  forall fuel io h, (length l < fuel)%nat ->
  fixed_loop fuel n io l h = Some (deliver io ps, r, h + total ps).
Proof.
  intros Hn H. unfold total.
  induction H as [l Hf|l m ps r Hf Hm H IH]; intros [|fuel] io h Hfuel; try lia;
    unfold fixed_frame in Hf; case_decide; simplify_eq; cbn [fixed_loop].
  - rewrite decide_False by done. cbn. do 2 f_equal. lia.
  - rewrite decide_True by done. rewrite IH by (rewrite length_drop; lia). cbn [deliver fold_left concat].
    rewrite length_app, length_take. do 2 f_equal. lia.
Qed.

(** *** Delimiter *)

Lemma match_delimiter_spec delim rest : match_delimiter delim rest = true <-> delim `prefix_of` rest.
Proof.
  revert rest. induction delim as [|d delim IH]; intros rest; cbn.
  - split; [intros _; apply prefix_nil | done].
  - destruct rest as [|c rest].
    + split; [done|]. by intros ?%prefix_nil_inv.
    + case_decide as Hc.
      * split; [done|]. intros ?%prefix_cons_inv_1. congruence.
      * subst d. rewrite IH. split; [apply prefix_cons | apply prefix_cons_inv_2].
Qed.

(** The first place where the delimiter occurs. *)
Fixpoint find_delimiter (delim l : list Z) : option nat :=
  if match_delimiter delim l then Some 0%nat
  else match l with [] => None | _ :: l' => S <$> find_delimiter delim l' end.

Definition delimiter_frame (delim : list Z) (l : list Z) : frame_result :=
  match find_delimiter delim l with Some i => Package (i + length delim) | None => Need end.

Lemma find_delimiter_Some delim l i : find_delimiter delim l = Some i <->
  (delim `prefix_of` drop i l /\ forall j, (j < i)%nat -> ~ delim `prefix_of` drop j l).
Proof.
  revert i. induction l as [|c l IH]; intros i; cbn [find_delimiter];
    destruct (match_delimiter delim _) eqn:E; try apply match_delimiter_spec in E;
    try (rewrite <- not_true_iff_false, match_delimiter_spec in E).
  - split; [intros [= <-]; split; [exact E|intros; lia] |]. intros [_ H]. destruct i; [done|].
    destruct (H 0%nat); [lia | done].
  - split; [done|]. intros [H _]. by rewrite drop_nil in H.
  - split; [intros [= <-]; split; [exact E|intros; lia] |]. intros [_ H]. destruct i; [done|].
    destruct (H 0%nat); [lia | done].
  - destruct i as [|i].
    + split; [by destruct (find_delimiter delim l)|]. by intros [H _].
    + transitivity (find_delimiter delim l = Some i); [destruct (find_delimiter delim l); cbn; split; congruence|].
      rewrite IH. cbn [drop]. split; intros [H1 H2]; (split; [done|]).
      * intros [|j] Hj; [done|]. apply H2. lia.
      * intros j Hj. apply (H2 (S j)). lia.
Qed.

Lemma find_delimiter_None delim l : find_delimiter delim l = None ->
  forall j, (j <= length l)%nat -> ~ delim `prefix_of` drop j l.
Proof.
  intros H j _ Hj. revert l H Hj. induction j as [|j IH]; intros l H Hj.
  - rewrite drop_0 in Hj. apply match_delimiter_spec in Hj.
    destruct l; cbn [find_delimiter] in H; by rewrite Hj in H.
  - destruct l as [|c l]; cbn [find_delimiter drop] in *.
    + apply match_delimiter_spec in Hj. by rewrite Hj in H.
    + destruct (match_delimiter _ _); [done|]. apply (IH l); [|done]. by destruct (find_delimiter delim l).
Qed.

Lemma find_delimiter_le delim l i : find_delimiter delim l = Some i -> (i + length delim <= length l)%nat.
Proof.
  revert i. induction l as [|c l IH]; intros i; cbn [find_delimiter];
    destruct (match_delimiter delim _) eqn:E; try apply match_delimiter_spec, prefix_length in E.
  - intros [= <-]. lia.
  - done.
  - intros [= <-]. lia.
  - destruct (find_delimiter delim l); [|done]. intros [= <-]. specialize (IH n eq_refl). cbn. lia.
Qed.

Lemma prefix_of_app_le (d l k : list Z) : d `prefix_of` l ++ k -> (length d <= length l)%nat -> d `prefix_of` l.
Proof.
  intros [q Hq] Hle. exists (drop (length d) l).
  assert (d = take (length d) l) as Hd by (rewrite <- (take_app_le l k), Hq, take_app_length; done).
  rewrite Hd at 1. symmetry. apply take_drop.
Qed.

#[export] Instance delimiter_framing delim : Framing (delimiter_frame delim).
Proof.
  unfold delimiter_frame. split; intros l.
  - intros n H. destruct (find_delimiter delim l) as [i|] eqn:E; [|done]. injection H as <-.
    by apply find_delimiter_le.
  - intros k n H. destruct (find_delimiter delim l) as [i|] eqn:E; [|done]. injection H as <-.
    pose proof (find_delimiter_le _ _ _ E). apply find_delimiter_Some in E as [H1 H2].
    assert (find_delimiter delim (l ++ k) = Some i) as ->; [|done].
    apply find_delimiter_Some. rewrite drop_app_le by lia. split; [by apply prefix_app_r|].
    intros j Hj Hp. apply (H2 j Hj). rewrite drop_app_le in Hp by lia.
    apply prefix_of_app_le in Hp; [done|]. rewrite length_drop. lia.
  - intros k H. by destruct (find_delimiter delim l).
Qed.

(** The search from [off], when the delimiter starts nowhere before it. *)
Lemma delimiter_loop_spec delim sp ps r : (0 < length delim)%nat ->
  packages (delimiter_frame delim) sp ps r ->
  forall fuel io off h, (length sp - off < fuel)%nat ->
  (forall j, (j < off)%nat -> ~ delim `prefix_of` drop j sp) ->
  delimiter_loop fuel delim io sp off h = Some (deliver io ps, r, h + total ps).
Proof.
  intros Hd H. unfold total. induction H as [sp Hf|sp n ps r Hf Hn H IH]; intros fuel io off h Hfuel Hoff;
    unfold delimiter_frame in Hf; destruct (find_delimiter delim sp) as [i|] eqn:Ei; simplify_eq.
  - revert off h Hfuel Hoff. induction fuel as [|fuel IHf]; intros off h Hfuel Hoff; [lia|].
    cbn [delimiter_loop]. case_decide as Hc; [|cbn; do 2 f_equal; lia].
    pose proof (find_delimiter_None _ _ Ei off ltac:(lia)) as Hno. rewrite <- match_delimiter_spec in Hno.
    destruct (match_delimiter delim (drop off sp)); [done|]. apply IHf; [lia|].
    intros j Hj. apply (find_delimiter_None _ _ Ei). lia.
  - pose proof (find_delimiter_le _ _ _ Ei) as Hle. apply find_delimiter_Some in Ei as [Hi Hmin].
    assert (off <= i)%nat as Hoi.
    { destruct (decide (off <= i)%nat); [done|]. destruct (Hoff i); [lia | done]. }
    clear Hoff. revert off Hfuel Hoi. induction fuel as [|fuel IHf]; intros off Hfuel Hoi; [lia|].
    cbn [delimiter_loop]. rewrite decide_True by lia.
    destruct (decide (off = i)) as [->|Hne].
    + rewrite (proj2 (match_delimiter_spec _ _) Hi). rewrite IH; [|rewrite length_drop; lia|lia].
      change (deliver io (?x :: ps)) with (deliver (hio_read_cb io x) ps). cbn [concat].
      rewrite length_app, length_take. do 2 f_equal. lia.
    + pose proof (Hmin off ltac:(lia)) as Hno. rewrite <- match_delimiter_spec in Hno.
      destruct (match_delimiter delim (drop off sp)); [done|]. apply IHf; lia.
Qed.

(** *** Length field *)

Section LengthField.
Context (setting : unpack_setting_t).

(** What [hio_set_unpack] asserts, the types of the fields, and a field to
    read. *)
Record length_field_ok : Prop := {
  lf_offset : 0 <= length_field_offset setting;
  lf_bytes : 0 < length_field_bytes setting <= 4;
  lf_body : length_field_offset setting + length_field_bytes setting <= body_offset setting < 2 ^ 16;
}.

Definition length_field_frame (l : list Z) : frame_result :=
  if decide (body_offset setting <= Z.of_nat (length l)) then
    match length_field setting l with
    | Some (Field body_len head_len) =>
        let n := package_length setting body_len head_len in
        if decide (n <= Z.of_nat (length l)) then Package (Z.to_nat n) else Need
    | Some Incomplete => Need
    | Some TooBig | None => Bad
    end
  else Need.

Context (Hok : length_field_ok).

Lemma length_field_some l : body_offset setting <= Z.of_nat (length l) -> exists r, length_field setting l = Some r /\
  (r = Incomplete -> Z.of_nat (length l) < length_field_offset setting + 10).
Proof.
  destruct Hok as [H1 H2 H3]. intros Hl. unfold length_field.
  destruct (length_field_coding setting).
  - set (lp := drop _ l). assert (length lp = length l - Z.to_nat (length_field_offset setting))%nat as Hlp
      by (subst lp; by rewrite length_drop).
    destruct (varint_loop_total 10 lp (Z.of_nat (length lp)) 0 0 0) as (v & k & E & Hk & _); [lia..|].
    unfold varint_decode. rewrite E. cbn [mbind option_bind]. 
    repeat case_decide; eexists; (split; [done|]); try done. intros _. lia.
  - rewrite decide_True; [by eexists|]. rewrite length_take, length_drop. lia.
  - rewrite decide_True; [by eexists|]. rewrite length_take, length_drop. lia.
Qed.

Lemma length_field_more l k r : body_offset setting <= Z.of_nat (length l) ->
  length_field setting l = Some r -> r <> Incomplete -> length_field setting (l ++ k) = Some r.
Proof.
  destruct Hok as [H1 H2 H3]. intros Hl. unfold length_field.
  rewrite drop_app_le by lia. set (lp := drop _ l).
  assert (length lp = length l - Z.to_nat (length_field_offset setting))%nat as Hlp
      by (subst lp; by rewrite length_drop).
  destruct (length_field_coding setting).
  - intros E Hr. destruct (varint_decode lp _) as [[v n]|] eqn:Ev; [|done]. cbn [mbind option_bind] in E.
    case_decide as Hn; [congruence|]. unfold varint_decode in *. 
    rewrite length_app, Nat2Z.inj_add. erewrite (varint_loop_more _ lp); [|lia|lia|exact Ev|done].
    cbn [mbind option_bind]. by rewrite decide_False.
  - rewrite take_app_le by lia. done.
  - rewrite take_app_le by lia. done.
Qed.

#[export] Instance length_field_framing : Framing length_field_frame.
Proof.
  unfold length_field_frame. split; intros l.
  - intros n H. case_decide; [|done]. destruct (length_field setting l) as [[b h| |]|]; try done.
    case_decide; simplify_eq. lia.
  - intros k n H. case_decide as Hl; [|done].
    destruct (length_field setting l) as [[b h| |]|] eqn:E; try done. case_decide as Hp; simplify_eq.
    rewrite (length_field_more _ k _ Hl E) by done. rewrite length_app.
    by rewrite !decide_True by lia.
  - intros k H. case_decide as Hl; [|done].
    destruct (length_field_some l Hl) as (r & E & _). rewrite E in H.
    rewrite decide_True by (rewrite length_app; lia).
    destruct r as [b h| |]; [by case_decide | done |]. by rewrite (length_field_more _ k _ Hl E).
Qed.

(** A package whose computed length is 0 makes the loop spin for ever. *)
Lemma length_field_loop_zero fuel io p pl h : length_field_frame p = Package 0 ->
  (forall b hd, package_length setting b hd <= 0 -> package_length setting b hd = 0) ->
  length_field_loop fuel setting io p pl h = None.
Proof.
  intros Hf Hz. revert io pl h. induction fuel as [|fuel IH]; intros io pl h; [done|].
  cbn [length_field_loop]. unfold length_field_frame in Hf. case_decide; [|done].
  destruct (length_field setting p) as [[b hd| |]|]; try done. cbn [mbind option_bind]. case_decide; [|done].
  injection Hf as E. rewrite E. cbn [take drop]. rewrite ?drop_0. apply IH.
Qed.

Lemma length_field_loop_spec l ps r : packages length_field_frame l ps r ->
  forall fuel io pl h, (length l < fuel)%nat ->
  exists pl', length_field_loop fuel setting io l pl h = Some (deliver io ps, r, pl', h + total ps, false) /\
    (((Z.of_nat (length r) < body_offset setting \/
       (body_offset setting <= Z.of_nat (length r) /\ length_field setting r = Some Incomplete)) /\
      pl' <= Z.max pl (Z.of_nat (length l))) \/
     exists b hd, length_field setting r = Some (Field b hd) /\ pl' = package_length setting b hd /\
       Z.of_nat (length r) < pl').
Proof.
  unfold total. induction 1 as [l Hf|l n ps r Hf Hn H IH]; intros [|fuel] io pl h Hfuel; try lia;
    unfold length_field_frame in Hf; cbn [length_field_loop]; case_decide as Hl; try done.
  - destruct (length_field setting l) as [[b hd| |]|] eqn:E; try done; cbn [mbind option_bind].
    + case_decide; [done|]. eexists. split; [cbn; do 3 f_equal; lia|]. right.
      exists b, hd. split; [done|]. split; [done|]. lia.
    + eexists. split; [cbn; do 3 f_equal; lia|]. left. split; [auto | lia].
  - eexists. split; [cbn; do 3 f_equal; lia|]. left. lia.
  - destruct (length_field setting l) as [[b hd| |]|] eqn:E; try done; cbn [mbind option_bind].
    case_decide; [|done]. injection Hf as Hf. rewrite Hf.
    destruct (IH fuel (hio_read_cb io (take n l)) (package_length setting b hd) (h + package_length setting b hd))
      as (pl' & E' & H'); [rewrite length_drop; lia|].
    exists pl'. split; [|rewrite length_drop in H'; destruct H' as [[? ?]|]; [left; split; [done|lia] | by right]].
    rewrite E'.
    change (deliver io (?x :: ps)) with (deliver (hio_read_cb io x) ps). cbn [concat].
    rewrite length_app, length_take. do 3 f_equal. lia.
Qed.

End LengthField.

(** ** [hio_handle_read] keeps the contract *)

Definition frame_of (setting : unpack_setting_t) : list Z -> frame_result :=
  match mode setting with
  | UNPACK_BY_FIXED_LENGTH => fixed_frame (Z.to_nat (fixed_length setting))
  | UNPACK_BY_DELIMITER => delimiter_frame (delimiter setting)
  | UNPACK_BY_LENGTH_FIELD => length_field_frame setting
  | UNPACK_MODE_NONE => fun _ => Need
  end.

(** The settings that make sense. *)
Definition setting_ok (setting : unpack_setting_t) : Prop :=
  0 < package_max_length setting < 2 ^ 30 /\
  match mode setting with
  | UNPACK_BY_FIXED_LENGTH => 0 < fixed_length setting <= package_max_length setting
  | UNPACK_BY_DELIMITER => (0 < length (delimiter setting))%nat
  | UNPACK_BY_LENGTH_FIELD =>
      length_field_ok setting /\ body_offset setting + 10 <= Z.min HLOOP_READ_BUFSIZE (package_max_length setting)
  | UNPACK_MODE_NONE => False
  end.

(** The io between two reads: there is room to read into, and what it holds is
    not a package yet. *)
Record io_ok (setting : unpack_setting_t) (io : hio_t) : Prop := {
  io_open : closed io = false;
  io_max : max_read_bufsize io = package_max_length setting;
  io_len : 0 < rb_len io <= package_max_length setting;
  io_room : Z.of_nat (length (rb_data io)) < rb_len io;
  io_need : frame_of setting (rb_data io) = Need;
  io_cnt : 0 <= small_readbytes_cnt io /\ (0 < small_readbytes_cnt io -> READ_BUFSIZE_HIGH_WATER < rb_len io);
  io_mode : match mode setting with
            | UNPACK_BY_FIXED_LENGTH => rb_len io = fixed_length setting /\ small_readbytes_cnt io = 0
            | _ => Z.min HLOOP_READ_BUFSIZE (package_max_length setting) <= rb_len io
            end;
}.

(** What a read closes the io for: an incomplete package that is, or says it
    is, longer than [package_max_length]. *)
Definition overlong (setting : unpack_setting_t) (r : list Z) : Prop :=
  match mode setting with
  | UNPACK_BY_DELIMITER => package_max_length setting <= Z.of_nat (length r)
  | UNPACK_BY_LENGTH_FIELD => exists b h, length_field setting r = Some (Field b h) /\
      package_max_length setting < package_length setting b h
  | _ => False
  end.

Lemma frame_of_framing setting : setting_ok setting -> Framing (frame_of setting).
Proof.
  intros [_ H]. unfold frame_of. destruct (mode setting); [done | apply _ | apply _ |].
  apply length_field_framing, H.
Qed.

Lemma alloc_ok io len : 0 <= len <= max_read_bufsize io -> max_read_bufsize io < 2 ^ 30 ->
  hio_alloc_readbuf io len
  = mkIo (rb_data io) len (max_read_bufsize io) 0 (over_limit io) (closed io) (delivered io).
Proof.
  intros H1 H2. unfold hio_alloc_readbuf. rewrite i32_small, u32_small, u64_small by lia.
  by rewrite decide_False by lia.
Qed.

Lemma packages_length frame l ps r : packages frame l ps r -> (length r <= length l)%nat.
Proof. induction 1 as [|l n ps r _ _ _ IH]; [done|]. rewrite length_drop in IH. lia. Qed.

Lemma deliver_cnt ps : forall io,
  0 <= small_readbytes_cnt io /\ (0 < small_readbytes_cnt io -> READ_BUFSIZE_HIGH_WATER < rb_len io) ->
  0 <= small_readbytes_cnt (deliver io ps) /\
  (0 < small_readbytes_cnt (deliver io ps) -> READ_BUFSIZE_HIGH_WATER < rb_len io).
Proof.
  induction ps as [|x ps IH]; intros io H; [done|].
  change (deliver io (x :: ps)) with (deliver (hio_read_cb io x) ps). apply (IH (hio_read_cb io x)). cbn.
  pose proof (u32_range (small_readbytes_cnt io + 1)). repeat case_decide; lia.
Qed.

(** The end of [hio_handle_read] on an io that has room. *)
Lemma autosize_ok setting io : setting_ok setting -> io_ok setting io -> io_ok setting (autosize io).
Proof.
  intros [Hmax Hmode] [H1 H2 H3 H4 H5 H6 H7]. unfold autosize. rewrite decide_False by lia.
  case_decide as Hs; [|done]. unfold READ_BUFSIZE_HIGH_WATER in *.
  rewrite alloc_ok by (rewrite ?H2; try (split; [apply Z.div_pos|]); try lia; div_lia).
  split; cbn; try done; try lia.
  - div_lia.
  - unfold HLOOP_READ_BUFSIZE in *. clear H1 H5. destruct (mode setting); [done | lia | div_lia | div_lia].
Qed.

Lemma autosize_fields io : rb_data (autosize io) = rb_data io /\ delivered (autosize io) = delivered io.
Proof. unfold autosize, hio_alloc_readbuf. by repeat case_decide. Qed.

(** A mode's step: deliver the packages, keep the rest, and grow or close. *)
Definition unpack_step (setting : unpack_setting_t) (io : hio_t) (ps : list (list Z)) (r : list Z)
    (io' : hio_t) : Prop :=
  rb_data io' = r /\ delivered io' = delivered io ++ ps /\
  ((closed io' = false /\ io_ok setting io') \/ (closed io' = true /\ overlong setting r)).

Lemma unpack_step_autosize setting io ps r io' : setting_ok setting -> unpack_step setting io ps r io' ->
  unpack_step setting io ps r (if closed io' then io' else autosize io').
Proof.
  intros Hs (Hd & Hv & [[Hc Hk] | [Hc Ho]]); rewrite Hc; [|by split; auto].
  destruct (autosize_fields io') as [E1 E2]. unfold unpack_step. rewrite E1, E2.
  pose proof (autosize_ok _ _ Hs Hk) as H. split; [done|]. split; [done|]. left.
  split; [apply H | done].
Qed.

(** The io after the loop of a mode. *)
Lemma set_data_deliver io data ps r :
  let io' := set_data (deliver (set_data io data) ps) r in
  rb_data io' = r /\ delivered io' = delivered io ++ ps /\ rb_len io' = rb_len io /\
  max_read_bufsize io' = max_read_bufsize io /\ closed io' = closed io /\
  small_readbytes_cnt io' = small_readbytes_cnt (deliver (set_data io data) ps).
Proof.
  cbn. rewrite deliver_delivered. destruct (deliver_fields ps (set_data io data)) as (_ & -> & -> & ->). done.
Qed.

Lemma fixed_packages n l ps r : packages (fixed_frame n) l ps r -> Forall (fun x => length x = n) ps.
Proof.
  induction 1 as [|l m ps r Hf Hm H IH]; [done|]. unfold fixed_frame in Hf. case_decide; simplify_eq.
  constructor; [rewrite length_take; lia | done].
Qed.

Lemma deliver_cnt_fixed ps n : 0 < n -> Forall (fun x => Z.of_nat (length x) = n) ps ->
  forall io, rb_len io = n -> small_readbytes_cnt io = 0 -> small_readbytes_cnt (deliver io ps) = 0.
Proof.
  intros Hn. induction 1 as [|x ps Hx Hps IH]; intros io Hl Hc; [done|].
  change (deliver io (x :: ps)) with (deliver (hio_read_cb io x) ps). apply IH; [done|]. cbn.
  case_decide; [|done]. rewrite decide_False by div_lia. done.
Qed.

Section Step.
Context (setting : unpack_setting_t) (io : hio_t) (chunk : list Z) (ps : list (list Z)) (r : list Z).
Context (Hs : setting_ok setting) (Hio : io_ok setting io).
Context (Hfit : Z.of_nat (length (rb_data io) + length chunk) <= rb_len io).
Context (Hp : packages (frame_of setting) (rb_data io ++ chunk) ps r).

Let data := rb_data io ++ chunk.

Lemma fixed_step : mode setting = UNPACK_BY_FIXED_LENGTH ->
  exists io' h, hio_unpack setting (set_data io data) data (length chunk) = Some (io', h) /\
    unpack_step setting io ps r io'.
Proof.
  intros Hm. destruct Hs as [Hmax Hmode]. destruct Hio as [H1 H2 H3 H4 H5 H6 H7].
  unfold hio_unpack, frame_of, setting_ok in *. rewrite Hm in *.
  unfold hio_unpack_by_fixed_length.
  rewrite (fixed_loop_spec _ data ps r) by (done || lia). cbn [mbind option_bind].
  eexists _, _. split; [done|].
  destruct (set_data_deliver io data ps r) as (E1 & E2 & E3 & E4 & E5 & E6).
  set (io' := set_data _ r) in *. split; [done|]. split; [done|]. left. split; [congruence|].
  pose proof (packages_need _ _ _ _ Hp) as Hn.
  assert (Z.of_nat (length r) < fixed_length setting) as Hr.
  { unfold fixed_frame in Hn. case_decide; [done|]. lia. }
  assert (small_readbytes_cnt io' = 0) as Hc.
  { rewrite E6. apply (deliver_cnt_fixed ps (fixed_length setting)); [lia | | apply H7 | apply H7].
    eapply Forall_impl; [by eapply fixed_packages|]. cbn. lia. }
  split; try congruence.
  - rewrite E3, E1. destruct H7. lia.
  - unfold frame_of. rewrite Hm, E1. done.
  - rewrite Hc. lia.
  - rewrite Hm, E3. split; [apply H7 | done].
Qed.

Lemma delimiter_step : mode setting = UNPACK_BY_DELIMITER ->
  exists io' h, hio_unpack setting (set_data io data) data (length chunk) = Some (io', h) /\
    unpack_step setting io ps r io'.
Proof.
  intros Hm. destruct Hs as [Hmax Hmode]. destruct Hio as [H1 H2 H3 H4 H5 H6 H7].
  pose proof (packages_need _ _ _ _ Hp) as Hn. pose proof (packages_length _ _ _ _ Hp) as Hlen.
  unfold hio_unpack, frame_of, setting_ok in *. rewrite Hm in *.
  unfold hio_unpack_by_delimiter.
  rewrite (delimiter_loop_spec _ data ps r); [|done|done|lia|].
  2: { intros j Hj Hpre. subst data. rewrite length_app in Hj. unfold delimiter_frame in H5.
       destruct (find_delimiter _ _) eqn:E in H5; [done|].
       apply (find_delimiter_None _ _ E j); [lia|]. rewrite drop_app_le in Hpre by lia.
       apply prefix_of_app_le in Hpre; [done|]. rewrite length_drop. lia. }
  cbn [mbind option_bind]. eexists (fst _), (snd _). split; [f_equal; apply surjective_pairing|].
  destruct (set_data_deliver io data ps r) as (E1 & E2 & E3 & E4 & E5 & E6).
  set (io' := set_data _ r) in *. subst data. rewrite length_app in Hlen.
  assert (0 <= small_readbytes_cnt io' /\ (0 < small_readbytes_cnt io' -> READ_BUFSIZE_HIGH_WATER < rb_len io)) as Hcnt.
  { rewrite E6. by apply (deliver_cnt ps (set_data io (rb_data io ++ chunk))). }
  clearbody io'. unfold delimiter_grow. rewrite E1, E3.
  destruct (decide (r <> [] /\ Z.of_nat (length r) = rb_len io)) as [[Hr0 Hr]|Hr]; [case_decide as Hmx|].
  - split; [done|]. split; [done|]. right. split; [done|]. unfold overlong. rewrite Hm. lia.
  - cbn [fst]. rewrite alloc_ok by (rewrite ?E4, ?H2; lia). split; [done|]. split; [done|]. left.
    split; [cbn; congruence|].
    split; cbn -[HLOOP_READ_BUFSIZE]; rewrite ?E1, ?E3, ?E4, ?E5, ?Hm; try done; try lia.
    + unfold frame_of. by rewrite Hm.
  - cbn [fst]. split; [done|]. split; [done|]. left. split; [congruence|].
    split; rewrite ?E1, ?E3, ?E4, ?E5, ?Hm; try done; try lia.
    + destruct (decide (r = [])) as [->|Hne]; [cbn; lia|].
      destruct (decide (Z.of_nat (length r) = rb_len io)); [tauto | lia].
    + unfold frame_of. by rewrite Hm.
Qed.

Lemma length_field_step : mode setting = UNPACK_BY_LENGTH_FIELD ->
  exists io' h, hio_unpack setting (set_data io data) data (length chunk) = Some (io', h) /\
    unpack_step setting io ps r io'.
Proof.
  intros Hm. destruct Hs as [Hmax Hmode]. destruct Hio as [H1 H2 H3 H4 H5 H6 H7].
  pose proof (packages_need _ _ _ _ Hp) as Hn. pose proof (packages_length _ _ _ _ Hp) as Hlen.
  unfold hio_unpack, frame_of, setting_ok in *. rewrite Hm in *. destruct Hmode as [Hok Hbody].
  unfold hio_unpack_by_length_field.
  destruct (length_field_loop_spec setting data ps r Hp (S (length data)) (set_data io data) (body_offset setting) 0)
    as (pl & -> & Hpl); [lia|].
  cbn [mbind option_bind]. eexists (fst _), (snd _). split; [f_equal; apply surjective_pairing|].
  destruct (set_data_deliver io data ps r) as (E1 & E2 & E3 & E4 & E5 & E6).
  set (io' := set_data _ r) in *. subst data. rewrite length_app in Hlen.
  assert (0 <= small_readbytes_cnt io' /\ (0 < small_readbytes_cnt io' -> READ_BUFSIZE_HIGH_WATER < rb_len io)) as Hcnt.
  { rewrite E6. by apply (deliver_cnt ps (set_data io (rb_data io ++ chunk))). }
  clearbody io'. unfold length_field_grow. rewrite E1, E3.
  assert (Z.of_nat (length r) < rb_len io \/ rb_len io < pl /\ r <> []) as Hroom.
  { destruct Hpl as [[[?|[? Hi]] _] | (b & hd & _ & _ & ?)]; [lia | |].
    - destruct (length_field_some setting Hok r) as (x & Ex & Hx); [lia|].
      rewrite Hi in Ex. injection Ex as <-. specialize (Hx eq_refl). destruct Hok as [? ? []]. lia.
    - destruct (decide (r = [])) as [->|]; [left; cbn; lia|].
      destruct (decide (rb_len io < pl)); [auto | lia]. }
  case_decide as Hg; [case_decide as Hmx|].
  - split; [done|]. split; [done|]. right. split; [done|]. unfold overlong. rewrite Hm.
    destruct Hpl as [[_ ?] | (b & hd & Hf & -> & ?)]; [|eauto].
    rewrite length_app in *. lia.
  - destruct Hpl as [[_ ?] | (b & hd & Hf & Epl & ?)]; [rewrite length_app in *; lia|].
    cbn [fst]. set (newsize := if decide _ then _ else _).
    assert (pl <= newsize <= package_max_length setting) by (subst newsize; case_decide; lia).
    rewrite alloc_ok by (rewrite ?E4, ?H2; lia). split; [done|]. split; [done|]. left.
    split; [cbn; congruence|].
    split; cbn -[HLOOP_READ_BUFSIZE newsize]; rewrite ?E1, ?E3, ?E4, ?E5, ?Hm; try done; try lia.
    unfold frame_of. by rewrite Hm.
  - cbn [fst]. split; [done|]. split; [done|]. left. split; [congruence|].
    split; rewrite ?E1, ?E3, ?E4, ?E5, ?Hm; try done; try lia; [tauto|].
    unfold frame_of. by rewrite Hm.
Qed.

End Step.

Lemma handle_read_step setting io chunk ps r : setting_ok setting -> io_ok setting io ->
  Z.of_nat (length (rb_data io) + length chunk) <= rb_len io ->
  packages (frame_of setting) (rb_data io ++ chunk) ps r ->
  exists io', hio_handle_read setting io chunk = Some io' /\ unpack_step setting io ps r io'.
Proof.
  intros Hs Hio Hfit Hp.
  assert (exists io' h, hio_unpack setting (set_data io (rb_data io ++ chunk)) (rb_data io ++ chunk) (length chunk)
      = Some (io', h) /\ unpack_step setting io ps r io') as (io' & h & E & H).
  { destruct (mode setting) eqn:Hm.
    - destruct Hs as [_ Hs]. by rewrite Hm in Hs.
    - by apply fixed_step.
    - by apply delimiter_step.
    - by apply length_field_step. }
  unfold hio_handle_read. rewrite E. cbn [mbind option_bind]. eexists. split; [done|].
  by apply unpack_step_autosize.
Qed.

Lemma frame_empty setting : setting_ok setting -> frame_of setting [] = Need.
Proof.
  intros [_ H]. unfold frame_of. destruct (mode setting); [done | | | ].
  - unfold fixed_frame. rewrite decide_False; [done|]. cbn. lia.
  - unfold delimiter_frame. cbn. destruct (delimiter setting); [cbn in H; lia | done].
  - unfold length_field_frame. destruct H as [[? ? []] _]. rewrite decide_False; [done|]. cbn. lia.
Qed.

(** [hio_set_unpack] leaves an empty io ready to read. *)
Lemma set_unpack_ok io setting : rb_data io = [] -> closed io = false -> setting_ok setting ->
  (hio_set_unpack io setting).2 = setting /\ io_ok setting (hio_set_unpack io setting).1 /\
  rb_data (hio_set_unpack io setting).1 = [] /\ delivered (hio_set_unpack io setting).1 = delivered io.
Proof.
  intros Hd Hc Hs. unfold hio_set_unpack. destruct Hs as [Hmax Hmode] eqn:E. clear E.
  rewrite decide_False by lia. destruct setting as [md mx fl dl bo lo lb la co]. cbn -[HLOOP_READ_BUFSIZE] in *.
  split; [done|]. unfold HLOOP_READ_BUFSIZE in *.
  rewrite alloc_ok; cbn -[Z.min]; [|destruct md; lia|lia].
  split; [|done]. split; cbn -[Z.min]; rewrite ?Hd; try done; try lia.
  - destruct md; lia.
  - destruct md; cbn -[Z.min]; lia.
  - apply frame_empty. split; [done|]. done.
  - unfold HLOOP_READ_BUFSIZE. destruct md; done.
Qed.

(** The reads of an io: [session io stream io'] when successive reads, each
    filling at most the room there is, take [stream] from the peer. *)
Inductive session (setting : unpack_setting_t) : hio_t -> list Z -> hio_t -> Prop :=
| session_end io : session setting io [] io
| session_read io chunk io1 stream io' :
    closed io = false -> Z.of_nat (length (rb_data io) + length chunk) <= rb_len io ->
    hio_handle_read setting io chunk = Some io1 ->
    session setting io1 stream io' -> session setting io (chunk ++ stream) io'.

Lemma session_spec setting io stream io' : setting_ok setting -> session setting io stream io' ->
  io_ok setting io -> closed io' = false -> forall ps r,
  packages (frame_of setting) (rb_data io ++ stream) ps r ->
  delivered io' = delivered io ++ ps /\ rb_data io' = r.
Proof.
  intros Hs H. pose proof (frame_of_framing _ Hs) as Hfr.
  induction H as [io|io chunk io1 stream io' Hopen Hfit Hr H IH]; intros Hio Hc ps r Hp.
  - rewrite app_nil_r in Hp. inversion Hp as [l Hf|l n ps' r' Hf Hn H']; subst.
    + by rewrite app_nil_r.
    + rewrite (io_need _ _ Hio) in Hf. done.
  - rewrite app_assoc in Hp.
    destruct (packages_split _ _ _ _ _ Hp) as (ps1 & r1 & ps2 & H1 & H2 & ->).
    destruct (handle_read_step setting io chunk ps1 r1 Hs Hio Hfit H1) as (x & E & Hd & Hv & Hcase).
    rewrite Hr in E. injection E as <-.
    destruct Hcase as [[Ho Hok] | [Ho _]].
    + destruct (IH Hok Hc ps2 r) as [E1 E2]; [by rewrite Hd|]. rewrite E1, Hv, <- app_assoc. done.
    + inversion H; subst; congruence.
Qed.

(** ** Properties *)

(** [C4] A read never loses its place: for each of the three modes, when the
    bytes kept and the bytes just read are some packages and a rest,
    [hio_handle_read] returns, has given exactly those packages to the read
    callback and kept exactly the rest; the io then either has room for the
    next read, whatever the growing and shrinking of its buffer, or was closed
    because the incomplete package is longer than [package_max_length]. *)
Theorem hio_handle_read_contract setting io chunk ps r :
  setting_ok setting -> io_ok setting io ->
  Z.of_nat (length (rb_data io) + length chunk) <= rb_len io ->
  packages (frame_of setting) (rb_data io ++ chunk) ps r ->
  exists io', hio_handle_read setting io chunk = Some io' /\
    delivered io' = delivered io ++ ps /\ rb_data io' = r /\
    ((closed io' = false /\ io_ok setting io') \/ (closed io' = true /\ overlong setting r)).
Proof.
  intros Hs Hio Hfit Hp. destruct (handle_read_step setting io chunk ps r) as (io' & E & Hd & Hv & Hc); [done..|].
  by exists io'.
Qed.

Definition ftp_setting : unpack_setting_t :=
  mkSetting UNPACK_BY_DELIMITER (Z.shiftl 1 21) 0 [13; 10] 0 0 0 0 ENCODE_BY_BIG_ENDIAN.
Definition fresh_io : hio_t := mkIo [] 8192 (2 ^ 24) 0 false false [].

(** "NOOP", a line end that comes in two reads, and the start of a line. *)
Lemma hio_handle_read_contract_witness :
  let io := mkIo [78; 79; 79; 80; 13] 8192 (2 ^ 21) 0 false false [] in
  exists io', hio_handle_read ftp_setting io [10; 81] = Some io' /\
    delivered io' = [[78; 79; 79; 80; 13; 10]] /\ rb_data io' = [81] /\
    ((closed io' = false /\ io_ok ftp_setting io') \/ (closed io' = true /\ overlong ftp_setting [81])).
Proof.
  intros io. apply (hio_handle_read_contract ftp_setting io [10; 81] [[78; 79; 79; 80; 13; 10]] [81]).
  - split; [vm_compute; done | cbn; lia].
  - split; vm_compute; repeat split; done.
  - cbn. lia.
  - apply (packages_next _ [78; 79; 79; 80; 13; 10; 81] 6); [reflexivity | lia |].
    apply packages_rest. reflexivity.
Defined.

(** The packages do not depend on how the stream is cut into reads: an io
    set to unpack that has read a stream of packages and is still open has
    delivered exactly these packages, in order, and holds the rest. *)
Theorem hio_unpack_stream setting io stream io' ps r :
  setting_ok setting -> rb_data io = [] -> closed io = false ->
  session setting (hio_set_unpack io setting).1 stream io' -> closed io' = false ->
  packages (frame_of setting) stream ps r ->
  delivered io' = delivered io ++ ps /\ rb_data io' = r.
Proof.
  intros Hs Hd Hc H Hc' Hp. destruct (set_unpack_ok io setting Hd Hc Hs) as (_ & Hok & E1 & E2).
  rewrite <- E2. apply (session_spec setting _ stream); try done. by rewrite E1.
Qed.

Lemma hio_unpack_stream_witness :
  let io1 := mkIo [78; 79] 8192 (2 ^ 21) 0 false false [] in
  let io2 := mkIo [81] 8192 (2 ^ 21) 0 false false [[78; 79; 13; 10]] in
  delivered io2 = delivered fresh_io ++ [[78; 79; 13; 10]] /\ rb_data io2 = [81].
Proof.
  intros io1 io2. apply (hio_unpack_stream ftp_setting fresh_io ([78; 79] ++ [13; 10; 81] ++ []) io2).
  - split; [vm_compute; done | cbn; lia].
  - done.
  - done.
  - apply (session_read _ _ _ io1); [done | vm_compute; done | vm_compute; reflexivity |].
    apply (session_read _ _ _ io2); [done | vm_compute; done | vm_compute; reflexivity |]. constructor.
  - done.
  - apply (packages_next _ [78; 79; 13; 10; 81] 4); [reflexivity | lia |].
    apply packages_rest. reflexivity.
Defined.

(** With the recommended setting (a head of a byte of flags and a 4-byte
    big-endian length), a peer whose length field is [2^32 - 5] makes
    [package_len] wrap to 0: the loop delivers an empty package, advances by
    nothing and never ends. *)
Theorem length_field_wraps_to_zero flags rest io :
  let setting := mkSetting UNPACK_BY_LENGTH_FIELD (Z.shiftl 1 21) 0 [] 5 1 4 0 ENCODE_BY_BIG_ENDIAN in
  forall fuel, length_field_loop fuel setting io (flags :: 0xFF :: 0xFF :: 0xFF :: 0xFB :: rest) 5 0 = None.
Proof.
  intros setting fuel. apply length_field_loop_zero.
  - unfold length_field_frame. rewrite decide_True by (cbn; lia). reflexivity.
  - intros b hd. unfold package_length. pose proof (u32_range (hd + b + length_adjustment setting)). lia.
Qed.

End Unpack.
