(* ===== verification/WriteQueue.v ===== *)
(** * Writing to an io: [libs/libhv/base/queue.h], and [hio_write], [nio_write]
    and [hio_close] of [libs/libhv/event/nio.c]

    What cannot be sent at once is queued and sent when the socket is writable.
    The queue is an interface, implemented by the growing array of queue.h.  The
    functions take the answer of the kernel as an argument; the threads and the
    write callback, which may call [hio_write] and [hio_close] again, are the
    labels of a step function. *)

From S2P Require Import Prelude.

(** ** The queue: [QUEUE_DECL(type, qtype)] *)

Section Queue.
Context {A : Type}.

(** The cells that [HV_ALLOC] and [hv_realloc] add are zeroed. *)
Context (zero : A).

Record qtype := mkQueue { ptr : list A; size : nat; maxsize : nat; _offset : nat }.

Definition QUEUE_INIT_SIZE : nat := 16.

Definition qtype_empty (p : qtype) : bool := bool_decide (size p = 0%nat).
Definition qtype_front (p : qtype) : option A := if decide (size p = 0%nat) then None else ptr p !! _offset p.
Definition qtype_init (n : nat) : qtype := mkQueue (replicate n zero) 0 n 0.
Definition qtype_cleanup : qtype := mkQueue [] 0 0 0.
Definition qtype_resize (p : qtype) (n : nat) : qtype :=
  let n := if decide (n = 0%nat) then QUEUE_INIT_SIZE else n in
  mkQueue (take n (ptr p) ++ replicate (n - maxsize p) zero) (size p) n (_offset p).
Definition qtype_double_resize (p : qtype) : qtype := qtype_resize p (maxsize p * 2).

(** [memmove(p->ptr, p->ptr + p->_offset, sizeof(type) * p->size); p->_offset = 0] *)
Definition memmove (p : qtype) : qtype :=
  mkQueue (take (size p) (drop (_offset p) (ptr p)) ++ drop (size p) (ptr p)) (size p) (maxsize p) 0.

Definition qtype_push_back (p : qtype) (elem : A) : qtype :=
  let p :=
    if decide (size p = maxsize p) then qtype_double_resize p
    else if decide (_offset p + size p = maxsize p)%nat then memmove p
    else p in
  mkQueue (<[(_offset p + size p)%nat := elem]> (ptr p)) (S (size p)) (maxsize p) (_offset p).

(** [None]: the assertion fails. *)
Definition qtype_pop_front (p : qtype) : option qtype :=
  if decide (size p = 0%nat) then None
  else
    Some (mkQueue (ptr p) (size p - 1) (maxsize p)
            (if decide (S (_offset p) = maxsize p) then 0 else S (_offset p))%nat).

(** Writing through the pointer [qtype_front] gives. *)
Definition qtype_set_front (p : qtype) (x : A) : qtype := mkQueue (<[_offset p := x]> (ptr p)) (size p) (maxsize p) (_offset p).

(** The elements, and the invariant. *)
Definition contents (p : qtype) : list A := take (size p) (drop (_offset p) (ptr p)).
Definition queue_ok (p : qtype) : Prop :=
  length (ptr p) = maxsize p /\ (_offset p + size p <= maxsize p)%nat /\
  (size p = maxsize p -> _offset p = 0%nat).
End Queue.
Arguments qtype : clear implicits.

(** What the writer needs of a queue. *)
Class Fifo (Q : Type) (A : Type) := {
  fifo_empty : Q -> bool;
  fifo_front : Q -> option A;
  fifo_prepare : Q -> Q;
  fifo_push_back : Q -> A -> Q;
  fifo_pop_front : Q -> option Q;
  fifo_set_front : Q -> A -> Q;
  fifo_cleanup : Q;
}.

Class FifoLaws (Q A : Type) `{Fifo Q A} (elements : Q -> list A) (ok : Q -> Prop) : Prop := {
  law_empty q : ok q -> fifo_empty q = bool_decide (elements q = []);
  law_front q : ok q -> fifo_front q = head (elements q);
  law_prepare q : ok q -> ok (fifo_prepare q) /\ elements (fifo_prepare q) = elements q;
  law_push_back q x : ok q -> ok (fifo_push_back q x) /\ elements (fifo_push_back q x) = elements q ++ [x];
  law_pop_front q : ok q ->
    match fifo_pop_front q with
    | Some q' => ok q' /\ exists x, elements q = x :: elements q'
    | None => elements q = []
    end;
  law_set_front q x y l : ok q -> elements q = x :: l ->
    ok (fifo_set_front q y) /\ elements (fifo_set_front q y) = y :: l;
  law_cleanup : ok fifo_cleanup /\ elements fifo_cleanup = [];
}.

#[export] Instance array_fifo {A} `{Inhabited A} : Fifo (qtype A) A := {
  fifo_empty := qtype_empty;
  fifo_front := qtype_front;
  fifo_prepare p := if decide (maxsize p = 0%nat) then qtype_init inhabitant 4 else p;
  fifo_push_back := qtype_push_back inhabitant;
  fifo_pop_front := qtype_pop_front;
  fifo_set_front := qtype_set_front;
  fifo_cleanup := qtype_cleanup;
}.

Section QueueLaws.
Context {A : Type} (zero : A).
Implicit Types p : qtype A.

Lemma contents_length p : queue_ok p -> length (contents p) = size p.
Proof. intros (Hl & Ho & _). unfold contents. rewrite length_take, length_drop. lia. Qed.

Lemma contents_lookup p i : (i < size p)%nat -> contents p !! i = ptr p !! (_offset p + i)%nat.
Proof. intros Hi. unfold contents. rewrite lookup_take_lt by done. by rewrite lookup_drop. Qed.

(** The elements, for a queue whose cells are known. *)
Lemma contents_eq p l : queue_ok p -> length l = size p -> (forall i, (i < size p)%nat -> ptr p !! (_offset p + i)%nat = l !! i) ->
  contents p = l.
Proof.
  intros Hp Hl Hi. apply list_eq. intros i. destruct (decide (i < size p)%nat) as [Hlt|Hge].
  - by rewrite contents_lookup, Hi.
  - rewrite !lookup_ge_None_2; [done| |]; rewrite ?contents_length by done; lia.
Qed.

Lemma resize_ok p n : queue_ok p -> (maxsize p <= n)%nat -> (0 < n)%nat -> _offset p = 0%nat ->
  let p' := qtype_resize zero p n in
  length (ptr p') = n /\ size p' = size p /\ maxsize p' = n /\ _offset p' = 0%nat /\ contents p' = contents p.
Proof.
  intros (Hl & Ho & _) Hn H0 Hz p'. unfold p', qtype_resize. rewrite decide_False by lia. cbn.
  rewrite take_ge by lia. rewrite length_app, length_replicate. split_and!; [lia|done|done|done|].
  unfold contents. cbn. rewrite Hz, !drop_0, take_app_le by lia. done.
Qed.

(** A cell behind the last is free: the element is appended. *)
Lemma push_free p x : length (ptr p) = maxsize p -> (_offset p + size p < maxsize p)%nat ->
  let p' := mkQueue (<[(_offset p + size p)%nat := x]> (ptr p)) (S (size p)) (maxsize p) (_offset p) in
  queue_ok p' /\ contents p' = contents p ++ [x].
Proof.
  intros Hl Ho p'. assert (Hok : queue_ok p') by (unfold p', queue_ok; cbn; rewrite length_insert; lia).
  assert (Hc : length (contents p) = size p) by (unfold contents; rewrite length_take, length_drop; lia).
  split; [done|]. apply contents_eq; [done| |].
  - rewrite length_app, Hc. cbn. lia.
  - intros i Hi. cbn in Hi |- *. destruct (decide (i = size p)) as [->|Hne].
    + rewrite list_lookup_insert_eq by lia. by rewrite lookup_app_r, Hc, Nat.sub_diag by lia.
    + rewrite list_lookup_insert_ne by lia. rewrite lookup_app_l by lia. by rewrite contents_lookup by lia.
Qed.

Lemma memmove_ok p : queue_ok p -> length (ptr (memmove p)) = maxsize p /\ contents (memmove p) = contents p.
Proof.
  intros (Hl & Ho & _). split; [cbn; rewrite length_app, length_take, !length_drop; lia|].
  unfold contents, memmove. cbn [ptr size _offset].
  rewrite drop_0, take_app_le by (rewrite length_take, length_drop; lia).
  apply take_ge. rewrite length_take. lia.
Qed.

Lemma push_back_ok p x : queue_ok p -> queue_ok (qtype_push_back zero p x) /\ contents (qtype_push_back zero p x) = contents p ++ [x].
Proof.
  intros Hp. pose proof Hp as (Hl & Ho & Hz). unfold qtype_push_back. case_decide as Hfull; [|case_decide as Hend].
  - unfold qtype_double_resize. set (n := if decide (maxsize p = 0%nat) then QUEUE_INIT_SIZE else (maxsize p * 2)%nat).
    replace (qtype_resize zero p (maxsize p * 2)) with (qtype_resize zero p n).
    2: { unfold qtype_resize, n. do 3 case_decide; try done; lia. }
    destruct (resize_ok p n) as (R1 & R2 & R3 & R4 & R5); [done | unfold n; case_decide; lia | unfold n, QUEUE_INIT_SIZE; case_decide; lia | auto |].
    rewrite <- R5. apply push_free; [lia|]. rewrite R4, R2, R3. unfold n, QUEUE_INIT_SIZE. case_decide; lia.
  - destruct (memmove_ok p Hp) as [Hq Hm]. unfold memmove in Hm |- *. rewrite <- Hm. apply push_free; cbn; [done|lia].
  - apply push_free; lia.
Qed.
End QueueLaws.

#[export] Instance array_fifo_laws {A} `{Inhabited A} : FifoLaws (qtype A) A contents queue_ok.
Proof.
  split; cbn.
  - intros p Hp. unfold qtype_empty. apply bool_decide_ext. rewrite <- length_zero_iff_nil, contents_length by done. done.
  - intros p Hp. unfold qtype_front. case_decide as Hz.
    + unfold contents. by rewrite Hz.
    + rewrite head_lookup, contents_lookup by lia. by rewrite Nat.add_0_r.
  - intros p Hp. pose proof Hp as (Hl & Ho & Hf). case_decide as Hm; [|by split]. split; [split_and!; cbn; lia|].
    unfold contents. cbn. replace (size p) with 0%nat by lia. done.
  - intros p x. apply push_back_ok.
  - intros p Hp. unfold qtype_pop_front. case_decide as Hz; [unfold contents; by rewrite Hz|].
    destruct Hp as (Hl & Ho & Hf). destruct (ptr p !! _offset p) as [x|] eqn:Hx; [|apply lookup_ge_None in Hx; lia].
    assert (Hc : contents p = x :: take (size p - 1) (drop (S (_offset p)) (ptr p))).
    { unfold contents. rewrite (drop_S _ x) by done. by destruct (size p) as [|n]; [|cbn; rewrite Nat.sub_0_r]. }
    split; [unfold queue_ok; cbn; case_decide; lia|]. exists x. rewrite Hc. f_equal. unfold contents. cbn.
    case_decide; [|done]. replace (size p - 1)%nat with 0%nat by lia. done.
  - intros p x y l Hp Hc. assert (Hs : size p = S (length l)) by (rewrite <- contents_length by done; by rewrite Hc).
    pose proof Hp as (Hl & Ho & Hf).
    assert (Hok : queue_ok (qtype_set_front p y)) by (unfold queue_ok; cbn; rewrite length_insert; lia).
    split; [done|]. change (contents (qtype_set_front p y) = y :: l). apply contents_eq; [done|done|].
    intros i Hi. cbn in Hi |- *. destruct i as [|i].
    + rewrite Nat.add_0_r, list_lookup_insert_eq by lia. done.
    + rewrite list_lookup_insert_ne by lia. rewrite <- contents_lookup by done. by rewrite Hc.
  - split; [|done]. split; [done|]. by split.
Qed.

(** ** The io *)

(** [offset_buf_t]; [base] names the allocation. *)
Record offset_buf := mkBuf { base : nat; bytes : list Z; offset : nat }.
#[export] Instance offset_buf_inhabited : Inhabited offset_buf := populate (mkBuf 0 [] 0).

(** The bytes of a buffer that are still to be sent. *)
Definition unsent (b : offset_buf) : list Z := drop (offset b) (bytes b).

Definition EINTR : Z := 4.
Definition EAGAIN : Z := 11.
Definition ETIMEDOUT : Z := 110.
Definition ERR_OVER_LIMIT : Z := 1022.
Definition MAX_WRITE_BUFSIZE : Z := Z.shiftl 1 24.

(** What [__nio_write] returns: a number of bytes, or [-1] with an [errno]. *)
Inductive nwrite_result := Wrote (n : nat) | WriteError (err : Z).

Section Nio.
Context {Q : Type} `{Fifo Q offset_buf}.

(** The fields used here.  [writable]: the io waits for [HV_WRITE]; [posted]: a
    close event is posted; [allocated]: the live buffers, [next]: the next name. *)
Record hio_t := mkIo {
  stream : bool;
  closed : bool;
  close : bool;
  error : Z;
  write_queue : Q;
  write_bufsize : Z;
  max_write_bufsize : Z;
  writable : bool;
  posted : bool;
  allocated : list nat;
  next : nat;
}.

Definition set_error (io : hio_t) (e : Z) : hio_t :=
  mkIo (stream io) (closed io) (close io) e (write_queue io) (write_bufsize io) (max_write_bufsize io) (writable io)
    (posted io) (allocated io) (next io).
Definition set_close (io : hio_t) (c : bool) : hio_t :=
  mkIo (stream io) (closed io) c (error io) (write_queue io) (write_bufsize io) (max_write_bufsize io) (writable io)
    (posted io) (allocated io) (next io).
Definition set_posted (io : hio_t) (p : bool) : hio_t :=
  mkIo (stream io) (closed io) (close io) (error io) (write_queue io) (write_bufsize io) (max_write_bufsize io) (writable io)
    p (allocated io) (next io).
Definition set_writable (io : hio_t) (w : bool) : hio_t :=
  mkIo (stream io) (closed io) (close io) (error io) (write_queue io) (write_bufsize io) (max_write_bufsize io) w
    (posted io) (allocated io) (next io).
Definition set_queue (io : hio_t) (q : Q) (size : Z) : hio_t :=
  mkIo (stream io) (closed io) (close io) (error io) q size (max_write_bufsize io) (writable io)
    (posted io) (allocated io) (next io).

(** [HV_FREE]: [None] when the buffer is not allocated. *)
Definition hv_free (io : hio_t) (b : nat) : option hio_t :=
  if decide (b ∈ allocated io) then
    Some (mkIo (stream io) (closed io) (close io) (error io) (write_queue io) (write_bufsize io) (max_write_bufsize io)
            (writable io) (posted io) (filter (fun x => x <> b) (allocated io)) (next io))
  else None.

(** [HV_ALLOC] and [memcpy] of [data], then [write_queue_push_back]; the queue is
    made by [write_queue_init] if it has no cells. *)
Definition push_remain (io : hio_t) (data : list Z) : hio_t :=
  mkIo (stream io) (closed io) (close io) (error io)
    (fifo_push_back (fifo_prepare (write_queue io)) (mkBuf (next io) data 0)) (u32 (write_bufsize io + Z.of_nat (length data)))
    (max_write_bufsize io) (writable io) (posted io) (next io :: allocated io) (S (next io)).

(** [write_error:] and [disconnect:] of [hio_write]. *)
Definition write_failed (io : hio_t) : hio_t := if stream io then set_posted io true else io.

(** [hio_write], given what the kernel answers if it is asked: the io, the
    return value and the number of bytes sent.  When it is positive the write
    callback is called with them.  The test of [closed] (nio.c:484) comes before
    the mutex is taken and is not repeated under it, as [hio_close] does; here the
    test and the locked part are one step, so a close between the two is not among
    the interleavings of the theorems. *)
Definition hio_write (io : hio_t) (buf : list Z) (ans : nwrite_result) : hio_t * Z * nat :=
  if closed io then (io, -1, 0%nat)
  else
    let enqueue io nwrite :=
      if decide (nwrite < length buf)%nat then
        if decide (write_bufsize io + Z.of_nat (length buf) - Z.of_nat nwrite > max_write_bufsize io) then
          (write_failed (set_error io ERR_OVER_LIMIT), -1, nwrite)
        else (push_remain io (drop nwrite buf), Z.of_nat nwrite, nwrite)
      else (io, Z.of_nat nwrite, nwrite) in
    if fifo_empty (write_queue io) then
      match ans with
      | WriteError err =>
          if decide (err = EAGAIN \/ err = EINTR) then enqueue (set_writable io true) 0%nat
          else (write_failed (set_error io err), -1, 0%nat)
      | Wrote n =>
          if decide (n = 0%nat) then (write_failed io, -1, 0%nat)
          else if decide (n = length buf) then (io, Z.of_nat n, n)
          else enqueue (set_writable io true) n
      end
    else enqueue io 0%nat.

(** The loop of [hio_done] over the queue; the fuel is the number of buffers. *)
Fixpoint free_queue (fuel : nat) (io : hio_t) : option hio_t :=
  if fifo_empty (write_queue io) then Some (set_queue io fifo_cleanup (write_bufsize io))
  else
    match fuel with
    | O => None
    | S fuel' =>
        b ← fifo_front (write_queue io);
        io ← hv_free io (base b);
        q ← fifo_pop_front (write_queue io);
        free_queue fuel' (set_queue io q (write_bufsize io))
    end.

(** [hio_close] in the thread of the loop; as many buffers are allocated as are
    queued. *)
Definition hio_close (io : hio_t) : option hio_t :=
  if closed io then Some io
  else if negb (fifo_empty (write_queue io)) && bool_decide (error io = 0) && negb (close io) then Some (set_close io true)
  else
    let io := mkIo (stream io) true (close io) (error io) (write_queue io) (write_bufsize io) (max_write_bufsize io)
                (writable io) (posted io) (allocated io) (next io) in
    free_queue (length (allocated io)) (set_writable io false).

(** Where the thread of the loop is: outside of [nio_write], or in the write
    callback that [nio_write] called, with the front buffer and whether all of it
    is sent. *)
Inductive place := Outside | InCallback (b : nat) (whole : bool).

(** One round of [nio_write] from [write:] to the callback: the io, the place and
    the bytes sent. *)
Definition nio_write_round (io : hio_t) (ans : nwrite_result) : option (hio_t * place * list Z) :=
  if fifo_empty (write_queue io) then
    if close io then io ← hio_close (set_close io false); Some (io, Outside, [])
    else Some (io, Outside, [])
  else
    b ← fifo_front (write_queue io);
    match ans with
    | WriteError err =>
        if decide (err = EAGAIN \/ err = EINTR) then Some (io, Outside, [])
        else
          let io := set_error io err in
          io ← (if stream io then hio_close io else Some io);
          Some (io, Outside, [])
    | Wrote n =>
        if decide (n = 0%nat) then
          io ← (if stream io then hio_close io else Some io);
          Some (io, Outside, [])
        else
          let b' := mkBuf (base b) (bytes b) (offset b + n) in
          let io := set_queue io (fifo_set_front (write_queue io) b') (u32 (write_bufsize io - Z.of_nat n)) in
          Some (io, InCallback (base b) (bool_decide (n = length (unsent b))), take n (unsent b))
    end.

(** After the callback. *)
Definition nio_write_next (io : hio_t) (b : nat) (whole : bool) (ans : nwrite_result)
  : option (hio_t * place * list Z) :=
  if whole then
    io ← hv_free io b;
    q ← fifo_pop_front (write_queue io);
    let io := set_queue io q (write_bufsize io) in
    if closed io then Some (io, Outside, []) else nio_write_round io ans
  else Some (io, Outside, []).

(** ** The threads

    [accepted]: the bytes of the calls of [hio_write] that did not fail; [sent]:
    the bytes the kernel took. *)
Record system := mkSystem { io : hio_t; at_ : place; accepted : list Z; sent : list Z }.

(** [hio_write] by any thread (during the callback, by the callback), [hio_close]
    in the thread of the loop (by the user or a posted event), the close timer,
    [hio_handle_events] for a writable io, and the end of the write callback. *)
Inductive label :=
| Write (buf : list Z) (ans : nwrite_result)
| Close
| CloseTimeout
| Writable (ans : nwrite_result)
| Return (ans : nwrite_result).

Inductive step_result := NotEnabled | Fault | Next (s : system).

Definition after (s : system) (r : option (hio_t * place * list Z)) : step_result :=
  match r with
  | Some (io', p, l) => Next (mkSystem io' p (accepted s) (sent s ++ l))
  | None => Fault
  end.

Definition step (s : system) (l : label) : step_result :=
  match l, at_ s with
  | Write buf ans, p =>
      let '(io', ret, n) := hio_write (io s) buf ans in
      Next (mkSystem io' p (if decide (0 <= ret) then accepted s ++ buf else accepted s) (sent s ++ take n buf))
  | Close, p =>
      match hio_close (io s) with Some io' => Next (mkSystem io' p (accepted s) (sent s)) | None => Fault end
  | CloseTimeout, Outside =>
      if close (io s) then
        match hio_close (set_error (io s) ETIMEDOUT) with
        | Some io' => Next (mkSystem io' Outside (accepted s) (sent s))
        | None => Fault
        end
      else NotEnabled
  | Writable ans, Outside =>
      if writable (io s) && negb (closed (io s)) then
        after s (nio_write_round (if fifo_empty (write_queue (io s)) then set_writable (io s) false else io s) ans)
      else NotEnabled
  | Return ans, InCallback b whole => after s (nio_write_next (io s) b whole ans)
  | _, _ => NotEnabled
  end.

(** A run; the labels that are not enabled are skipped.  [None]: a fault. *)
Fixpoint steps (s : system) (ls : list label) : option system :=
  match ls with
  | [] => Some s
  | l :: ls' =>
      match step s l with
      | Next s' => steps s' ls'
      | NotEnabled => steps s ls'
      | Fault => None
      end
  end.

(** [hio_ready] for a stream or another io, at the empty queue. *)
Definition hio_ready (stream : bool) : hio_t := mkIo stream false false 0 fifo_cleanup 0 MAX_WRITE_BUFSIZE false false [] 0.
Definition opened (stream : bool) : system := mkSystem (hio_ready stream) Outside [] [].
End Nio.
Arguments hio_t : clear implicits.
Arguments system : clear implicits.

(** ** The invariant *)

Lemma filter_out (l k : list nat) x : l ≡ₚ x :: k -> x ∉ k -> filter (fun y => y <> x) l ≡ₚ k.
Proof.
  intros -> Hx. rewrite filter_cons_False by (intros Hn; by apply Hn).
  induction k as [|y k IH]; [done|]. apply not_elem_of_cons in Hx as [Hy Hk].
  rewrite filter_cons_True by done. by rewrite IH.
Qed.

Section Invariant.
Context {Q : Type} (elements : Q -> list offset_buf) (ok : Q -> Prop) `{FifoLaws Q offset_buf elements ok}.
Implicit Types (i : hio_t Q) (s : system Q).

Notation queued i := (elements (write_queue i)).
(** The bytes in the queue. *)
Definition pending i : list Z := concat (unsent <$> queued i).

(** The queue and its buffers. *)
Definition buffers_ok i : Prop :=
  ok (write_queue i) /\ allocated i ≡ₚ base <$> queued i /\ NoDup (base <$> queued i) /\ Forall (fun b => (b < next i)%nat) (allocated i).

(** The buffers that are still to be sent: not the front one, once it was. *)
Definition to_send (p : place) (l : list offset_buf) : Prop :=
  match p with
  | Outside => Forall (fun b => unsent b <> []) l
  | InCallback b whole =>
      exists x r, l = x :: r /\ base x = b /\ (whole = true <-> unsent x = []) /\ Forall (fun b => unsent b <> []) r
  end.

Definition inv s : Prop :=
  let i := io s in
  buffers_ok i /\ to_send (at_ s) (queued i) /\ max_write_bufsize i = MAX_WRITE_BUFSIZE /\
  (closed i = true -> queued i = []) /\
  (closed i = false ->
     write_bufsize i = Z.of_nat (length (pending i)) /\ Z.of_nat (length (pending i)) <= MAX_WRITE_BUFSIZE /\
     (queued i <> [] -> writable i = true) /\
     (at_ s = Outside -> queued i = [] -> close i = false) /\
     (error i = 0 -> accepted s = sent s ++ pending i)) /\
  (error i = 0 -> sent s `prefix_of` accepted s).

(** What the kernel answers: no more than it was given, and an [errno] that is
    not 0. *)
Definition kernel (len : nat) (ans : nwrite_result) : Prop :=
  match ans with Wrote n => (n <= len)%nat | WriteError e => e <> 0 end.

Definition front_len (i : hio_t Q) : nat := match queued i with b :: _ => length (unsent b) | [] => 0%nat end.
(** The buffer after the front one. *)
Definition next_len (i : hio_t Q) : nat := match queued i with _ :: b :: _ => length (unsent b) | _ => 0%nat end.

(** Legal labels: the kernel as documented, and no [hio_close] in the write
    callback when a close is pending or an error occurred. *)
Definition legal s (l : label) : Prop :=
  match l with
  | Write buf ans => kernel (length buf) ans
  | Writable ans => kernel (front_len (io s)) ans
  | Return ans => kernel (match at_ s with InCallback _ true => next_len (io s) | _ => 0%nat end) ans
  | Close => at_ s = Outside \/ (close (io s) = false /\ error (io s) = 0)
  | CloseTimeout => True
  end.

Lemma empty_queued i : ok (write_queue i) -> fifo_empty (write_queue i) = bool_decide (queued i = []).
Proof using Type*. apply law_empty. Qed.

(** Freeing all buffers. *)
Lemma free_queue_ok fuel : forall i, buffers_ok i -> (length (queued i) <= fuel)%nat ->
  exists i', free_queue fuel i = Some i' /\ queued i' = [] /\ buffers_ok i' /\
    closed i' = closed i /\ close i' = close i /\ error i' = error i /\ max_write_bufsize i' = max_write_bufsize i.
Proof using Type*.
  induction fuel as [|fuel IH]; intros i (Hok & Hal & Hnd & Hnext) Hlen; cbn [free_queue]; rewrite empty_queued by done.
  all: case_bool_decide as He; [exists (set_queue i fifo_cleanup (write_bufsize i)); destruct (law_cleanup (Q := Q)) as [Hc1 Hc2]|].
  all: try (rewrite He in Hal; cbn in Hal; apply Permutation_nil_r in Hal).
  all: try (split; [done|]; split; [cbn; done|]; split; [|done]; unfold buffers_ok; cbn; rewrite Hc2, Hal; cbn; split_and!; [done|done|constructor|constructor]).
  { destruct (queued i); [done|cbn in Hlen; lia]. }
  rewrite (law_front (Q := Q)) by done. destruct (queued i) as [|b l] eqn:Eq; [done|]. cbn [head mbind option_bind].
  cbn in Hal, Hnd, Hlen. apply NoDup_cons in Hnd as [Hb Hnd]. unfold hv_free.
  rewrite decide_True by (rewrite Hal; apply list_elem_of_here). cbn [mbind option_bind write_queue].
  pose proof (law_pop_front (Q := Q) _ Hok) as Hp. destruct (fifo_pop_front (write_queue i)) as [q|]; [|by rewrite Eq in Hp].
  destruct Hp as [Hq [x Hx]]. rewrite Eq in Hx. injection Hx as _ Hl. cbn [mbind option_bind write_queue].
  match goal with |- context [free_queue fuel ?j] => destruct (IH j) as (i' & H1 & H2 & H3 & H4 & H5 & H6 & H7) end.
  { unfold buffers_ok. cbn. rewrite <- Hl. split_and!; [done| |done|].
    - by apply filter_out.
    - rewrite Forall_forall in Hnext |- *. intros x' Hx'. apply list_elem_of_filter in Hx' as [_ Hx']. by apply Hnext. }
  { cbn. rewrite <- Hl. lia. }
  exists i'. by rewrite H1.
Qed.

Lemma hio_close_ok i : buffers_ok i ->
  exists i', hio_close i = Some i' /\ buffers_ok i' /\ max_write_bufsize i' = max_write_bufsize i /\ error i' = error i /\
    ((closed i = true /\ i' = i) \/
     (closed i = false /\ queued i <> [] /\ error i = 0 /\ close i = false /\ i' = set_close i true) \/
     (closed i' = true /\ queued i' = [] /\ (queued i = [] \/ error i <> 0 \/ close i = true))).
Proof using Type*.
  intros Hi. pose proof Hi as (Hok & Hal & Hnd & Hnext). unfold hio_close. destruct (closed i) eqn:Hc; [exists i; auto 10|].
  rewrite empty_queued by done.
  destruct (negb (bool_decide (queued i = [])) && bool_decide (error i = 0) && negb (close i)) eqn:E.
  - apply andb_true_iff in E as [E Ecl]. apply andb_true_iff in E as [Eq Ee]. apply bool_decide_eq_true in Ee.
    apply negb_true_iff in Eq, Ecl. apply bool_decide_eq_false in Eq.
    exists (set_close i true). split; [done|]. split; [done|]. do 2 (split; [done|]). right. left. by split_and!.
  - match goal with |- context [free_queue _ ?j] => destruct (free_queue_ok (length (allocated i)) j) as (i' & H1 & H2 & H3 & H4 & H5 & H6 & H7) end.
    { exact Hi. }
    { cbn. by rewrite Hal, length_fmap. }
    exists i'. split; [exact H1|]. split; [done|]. split; [done|]. split; [done|]. right. right. split; [by rewrite H4|]. split; [done|].
    destruct (queued i); [by left|]. right. cbn in E. destruct (bool_decide_reflect (error i = 0)); [right|by left].
    by destruct (close i).
Qed.

Lemma pending_app (i j : hio_t Q) l : queued j = queued i ++ l -> pending j = pending i ++ concat (unsent <$> l).
Proof. intros E. unfold pending. by rewrite E, fmap_app, concat_app. Qed.

Lemma push_ok i data : buffers_ok i -> buffers_ok (push_remain i data) /\
  queued (push_remain i data) = queued i ++ [mkBuf (next i) data 0].
Proof using Type*.
  intros (Hok & Hal & Hnd & Hnext). destruct (law_prepare _ Hok) as [H1 H2].
  destruct (law_push_back (fifo_prepare (write_queue i)) (mkBuf (next i) data 0) H1) as [H3 H4].
  assert (Eq : queued (push_remain i data) = queued i ++ [mkBuf (next i) data 0]) by (cbn; rewrite H4; by rewrite H2).
  split; [|done]. unfold buffers_ok. rewrite Eq. split; [done|]. rewrite fmap_app. cbn [push_remain allocated next fmap list_fmap base].
  assert (Hn : next i ∉ base <$> queued i).
  { rewrite <- Hal. intros Hx. rewrite Forall_forall in Hnext. specialize (Hnext _ Hx). lia. }
  split_and!.
  - rewrite Hal. by rewrite Permutation_app_comm.
  - apply NoDup_app. split; [done|]. split; [|by apply NoDup_singleton]. intros x Hx ->%list_elem_of_singleton. done.
  - constructor; [lia|]. eapply Forall_impl; [exact Hnext|]. cbn. lia.
Qed.

Lemma to_send_app p l b : to_send p l -> unsent b <> [] -> to_send p (l ++ [b]).
Proof.
  destruct p as [|b0 w]; cbn.
  - intros Hl Hb. apply Forall_app. split; [done|]. by constructor.
  - intros (x & r & -> & Hx & Hw & Hr) Hb. exists x, (r ++ [b]). split_and!; [done|done|exact Hw|]. apply Forall_app. split; [done|by constructor].
Qed.

Lemma inv_set_error i p a t t' e : e <> 0 -> inv (mkSystem i p a t) -> inv (mkSystem (set_error i e) p a t').
Proof.
  intros He (H1 & H2 & H3 & H4 & H5 & H6). split; [exact H1|]. split; [exact H2|]. split; [exact H3|]. split; [exact H4|].
  split; [|done]. intros Hc. destruct (H5 Hc) as (G1 & G2 & G3 & G4 & _). by split_and!.
Qed.

Lemma inv_write_failed i p a t : inv (mkSystem i p a t) -> inv (mkSystem (write_failed i) p a t).
Proof. unfold write_failed. by destruct (stream i). Qed.

Lemma inv_writable i p a t : inv (mkSystem i p a t) -> inv (mkSystem (set_writable i true) p a t).
Proof.
  intros (H1 & H2 & H3 & H4 & H5 & H6). do 4 (split; [done|]). split; [|done].
  intros Hc. destruct (H5 Hc) as (G1 & G2 & G3 & G4 & G5). by split_and!.
Qed.

(** Queueing what is left after [n] bytes were sent. *)
Lemma enqueue_inv i p a t buf n : inv (mkSystem i p a t) -> closed i = false -> writable i = true ->
  (n = 0%nat \/ queued i = []) -> (n < length buf)%nat ->
  inv (if decide (write_bufsize i + Z.of_nat (length buf) - Z.of_nat n > max_write_bufsize i)
       then mkSystem (write_failed (set_error i ERR_OVER_LIMIT)) p a (t ++ take n buf)
       else mkSystem (push_remain i (drop n buf)) p (a ++ buf) (t ++ take n buf)).
Proof using Type*.
  intros Hi Hc Hw Hn Hlt. case_decide as Hlim; [by eapply inv_write_failed, inv_set_error|].
  destruct Hi as (Hb & Hs & Hmax & _ & Ho & Hp). cbn [io at_ accepted sent] in *.
  destruct (Ho Hc) as (Hsz & Hle & Hwr & Hout & Hacc). clear Ho.
  destruct (push_ok i (drop n buf) Hb) as [Hb' Eq].
  assert (Hd : drop n buf <> []) by (intros E; apply (f_equal length) in E; rewrite length_drop in E; cbn in E; lia).
  assert (Ep : pending (push_remain i (drop n buf)) = pending i ++ drop n buf).
  { rewrite (pending_app _ _ _ Eq). cbn. by rewrite drop_0, app_nil_r. }
  assert (Hlen : Z.of_nat (length (pending i ++ drop n buf)) <= MAX_WRITE_BUFSIZE).
  { rewrite length_app, length_drop. rewrite Hmax in Hlim. lia. }
  unfold inv. cbn [io at_ accepted sent]. rewrite Ep, Eq. split; [done|]. split; [by apply to_send_app|]. split; [done|].
  split; [intros Hcl; cbn in Hcl; congruence|]. split.
  - intros _. split_and!; [|done|done| |].
    + cbn. rewrite Hsz. rewrite length_app in *. change MAX_WRITE_BUFSIZE with 16777216 in Hlen. rewrite u32_small; lia.
    + intros _ E. by destruct (queued i).
    + intros He. cbn in He. rewrite Hacc by done. rewrite <- !app_assoc. f_equal.
      destruct Hn as [->|Hq]; [done|]. unfold pending. rewrite Hq. cbn. by rewrite take_drop.
  - intros He. cbn in He. rewrite Hacc by done. rewrite <- app_assoc. apply prefix_app.
    destruct Hn as [->|Hq]; [by apply prefix_nil|]. unfold pending. rewrite Hq. cbn. rewrite <- (take_drop n buf) at 2. by apply prefix_app_r.
Qed.

Lemma write_inv s buf ans : inv s -> kernel (length buf) ans ->
  match step s (Write buf ans) with Next s' => inv s' | _ => False end.
Proof using Type*.
  destruct s as [i p a t]. intros Hi Hk. cbn [step io at_ accepted sent]. unfold hio_write.
  destruct (closed i) eqn:Hc; [by rewrite app_nil_r|]. pose proof Hi as (Hb & Hs & Hmax & _ & Ho & Hp).
  cbn [io at_ accepted sent] in *. destruct (Ho Hc) as (Hsz & Hle & Hwr & Hout & Hacc). clear Ho.
  rewrite empty_queued by apply Hb. destruct (bool_decide_reflect (queued i = [])) as [Hq|Hq].
  - assert (Epend : pending i = []) by (unfold pending; by rewrite Hq).
    destruct ans as [n|e].
    + case_decide as Hz; [subst n; rewrite app_nil_r; by apply inv_write_failed|].
      case_decide as Hn.
      * rewrite decide_True by lia. rewrite take_ge by lia.
        destruct Hi as (K1 & K2 & K3 & K4 & _ & K6). do 4 (split; [done|]). cbn [io at_ accepted sent] in *. split.
        -- intros _. split_and!; try done. intros He. rewrite Hacc by done. rewrite Epend, !app_nil_r. done.
        -- intros He. rewrite Hacc by done. by rewrite Epend, app_nil_r.
      * cbn in Hk. rewrite (decide_True (P := (n < length buf)%nat)) by lia.
        pose proof (enqueue_inv (set_writable i true) p a t buf n (inv_writable _ _ _ _ Hi) Hc eq_refl (or_intror Hq) ltac:(lia)) as G.
        case_decide; [exact G|]. rewrite decide_True by lia. exact G.
    + case_decide as He.
      * case_decide as Hl.
        -- pose proof (enqueue_inv (set_writable i true) p a t buf 0 (inv_writable _ _ _ _ Hi) Hc eq_refl (or_introl eq_refl) Hl) as G.
           case_decide; [exact G|]. rewrite decide_True by lia. exact G.
        -- rewrite decide_True by lia. destruct buf; [|cbn in Hl; lia]. rewrite !app_nil_r. by apply inv_writable.
      * rewrite app_nil_r. by eapply inv_write_failed, inv_set_error.
  - case_decide as Hl.
    + pose proof (enqueue_inv i p a t buf 0 Hi Hc (Hwr Hq) (or_introl eq_refl) Hl) as G.
      case_decide; [exact G|]. rewrite decide_True by lia. exact G.
    + rewrite decide_True by lia. destruct buf; [|cbn in Hl; lia]. by rewrite !app_nil_r.
Qed.

Lemma close_inv i p a t : inv (mkSystem i p a t) -> p = Outside \/ (close i = false /\ error i = 0) ->
  exists i', hio_close i = Some i' /\ inv (mkSystem i' p a t).
Proof using Type*.
  intros Hi Hp. pose proof Hi as (Hb & Hs & Hmax & Hc & Ho & Hpre). cbn [io at_ accepted sent] in *.
  destruct (hio_close_ok i Hb) as (i' & E & Hb' & Hm & He & Hcase). exists i'. split; [done|].
  destruct Hcase as [[_ ->]|[(Hcl & Hq & _ & _ & ->)|(Hcl & Hq & Hwhy)]]; [done| |].
  - destruct (Ho Hcl) as (G1 & G2 & G3 & G4 & G5). do 4 (split; [done|]). split; [|done]. intros _. by split_and!.
  - assert (Hout : p = Outside).
    { destruct Hp as [->|[Hcl0 He0]]; [done|]. destruct p as [|b w]; [done|]. exfalso.
      destruct Hs as (x & r & Hx & _). destruct Hwhy as [Hn|[Hn|Hn]]; congruence. }
    subst p. split; [done|]. cbn [io at_ accepted sent]. rewrite Hq. split; [constructor|]. split; [by rewrite Hm|]. split; [done|].
    split; [congruence|]. by rewrite He.
Qed.

Lemma set_close_same i c : close i = c -> set_close i c = i.
Proof. intros <-. by destruct i. Qed.

Lemma inv_set_close i a t : inv (mkSystem i Outside a t) -> inv (mkSystem (set_close i false) Outside a t).
Proof.
  intros (H1 & H2 & H3 & H4 & H5 & H6). do 4 (split; [done|]). split; [|done].
  intros Hc. destruct (H5 Hc) as (G1 & G2 & G3 & G4 & G5). by split_and!.
Qed.

(** [close] does not matter while something is queued. *)
Lemma inv_close_queued i a t : queued i <> [] -> inv (mkSystem (set_close i false) Outside a t) -> inv (mkSystem i Outside a t).
Proof.
  intros Hq (H1 & H2 & H3 & H4 & H5 & H6). do 4 (split; [done|]). split; [|done].
  intros Hc. destruct (H5 Hc) as (G1 & G2 & G3 & G4 & G5). by split_and!.
Qed.

Lemma unsent_advance b n : unsent (mkBuf (base b) (bytes b) (offset b + n)) = drop n (unsent b).
Proof. unfold unsent. cbn. by rewrite drop_drop. Qed.

Lemma round_inv i a t ans : inv (mkSystem (set_close i false) Outside a t) -> closed i = false -> kernel (front_len i) ans ->
  match nio_write_round i ans with Some (i', p, l) => inv (mkSystem i' p a (t ++ l)) | None => False end.
Proof using Type*.
  intros Hi Hc Hk. pose proof Hi as (Hb & Hs & Hmax & _ & Ho & Hpre). cbn [io at_ accepted sent] in *.
  destruct (Ho Hc) as (Hsz & Hle & Hwr & _ & Hacc). clear Ho. unfold nio_write_round.
  rewrite empty_queued by apply Hb. destruct (bool_decide_reflect (queued i = [])) as [Hq|Hq].
  { destruct (close i) eqn:Hcl.
    - destruct (close_inv _ _ _ _ Hi (or_introl eq_refl)) as (i' & -> & Hi'). cbn. by rewrite app_nil_r.
    - rewrite app_nil_r. by rewrite set_close_same in Hi. }
  apply inv_close_queued in Hi; [|done]. rewrite (law_front (Q := Q)) by apply Hb.
  destruct (queued i) as [|b l] eqn:Eq; [done|]. cbn [head mbind option_bind].
  assert (Hclose : forall j, inv (mkSystem j Outside a t) ->
    match (i' ← (if stream j then hio_close j else Some j); Some (i', Outside, [])) with
    | Some (i', p, l) => inv (mkSystem i' p a (t ++ l)) | None => False end).
  { intros j Hj. destruct (stream j); [|cbn; by rewrite app_nil_r].
    destruct (close_inv _ _ _ _ Hj (or_introl eq_refl)) as (i' & -> & Hi'). cbn. by rewrite app_nil_r. }
  destruct ans as [n|e].
  - case_decide as Hn; [by apply (Hclose i)|]. unfold kernel, front_len in Hk. rewrite Eq in Hk.
    destruct Hb as (Hok & Hal & Hnd & Hnext). cbn in Hok, Hal, Hnd, Hnext. rewrite Eq in Hal, Hnd.
    destruct (law_set_front _ _ (mkBuf (base b) (bytes b) (offset b + n)) _ Hok Eq) as [Hok' Eq'].
    set (i' := set_queue i _ _). assert (Eq2 : queued i' = mkBuf (base b) (bytes b) (offset b + n) :: l) by exact Eq'.
    assert (Ep : pending (set_close i false) = take n (unsent b) ++ pending i').
    { unfold pending. change (queued (set_close i false)) with (queued i). rewrite Eq2, Eq, !fmap_cons. cbn [concat].
      by rewrite unsent_advance, app_assoc, take_drop. }
    unfold inv. cbn [io at_ accepted sent]. rewrite Eq2. rewrite Ep in Hsz, Hle, Hacc. rewrite length_app, length_take in Hsz, Hle.
    cbn [set_close write_queue to_send] in Hs. rewrite Eq in Hs. apply Forall_cons in Hs as [_ Hs].
    split; [split_and!; [exact Hok'|cbn; by rewrite Hal, Eq'|cbn; by rewrite Eq'|exact Hnext]|].
    split; [exists (mkBuf (base b) (bytes b) (offset b + n)), l; split_and!; [done|done| |done]|].
    { rewrite unsent_advance, bool_decide_eq_true. rewrite <- length_zero_iff_nil, length_drop. lia. }
    split; [done|]. split; [intros Hx; cbn in Hx; congruence|].
    split; [intros _; split_and!; [|lia|intros _; by apply Hwr; cbn; rewrite Eq|done|]|].
    + cbn. cbn in Hsz. rewrite Hsz. change MAX_WRITE_BUFSIZE with 16777216 in Hle. rewrite u32_small; lia.
    + intros He. rewrite Hacc by done. by rewrite app_assoc.
    + intros He. rewrite Hacc by done. rewrite app_assoc. by apply prefix_app_r.
  - case_decide as He; [by rewrite app_nil_r|]. apply (Hclose (set_error i e)). by eapply inv_set_error.
Qed.

Lemma next_inv i b w a t ans : inv (mkSystem i (InCallback b w) a t) -> kernel (if w then next_len i else 0%nat) ans ->
  match nio_write_next i b w ans with Some (i', p, l) => inv (mkSystem i' p a (t ++ l)) | None => False end.
Proof using Type*.
  intros (Hb & Hs & Hmax & Hcq & Ho & Hpre) Hk. cbn [io at_ accepted sent] in *.
  destruct Hs as (x & r & Eq & Hx & Hw & Hr). subst b.
  destruct (closed i) eqn:Hc; [by rewrite Hcq in Eq|]. destruct (Ho eq_refl) as (Hsz & Hle & Hwr & _ & Hacc). clear Ho Hcq.
  unfold nio_write_next. destruct w.
  - assert (Hu : unsent x = []) by by apply Hw.
    destruct Hb as (Hok & Hal & Hnd & Hnext). rewrite Eq in Hal, Hnd. cbn in Hal, Hnd. apply NoDup_cons in Hnd as [Hxn Hnd].
    unfold hv_free. rewrite decide_True by (rewrite Hal; apply list_elem_of_here). cbn [mbind option_bind write_queue].
    pose proof (law_pop_front (Q := Q) _ Hok) as Hp. destruct (fifo_pop_front (write_queue i)) as [q|]; [|by rewrite Eq in Hp].
    destruct Hp as [Hq [y Hy]]. rewrite Eq in Hy. injection Hy as _ Hl. cbn [mbind option_bind].
    set (i' := set_queue _ _ _). assert (Eq2 : queued i' = r) by by rewrite Hl.
    assert (Ep : pending i' = pending i) by (unfold pending; rewrite Eq, Eq2; cbn; by rewrite Hu).
    replace (closed i') with false by done. apply round_inv; [|done|].
    + unfold inv. cbn [io at_ accepted sent]. change (queued (set_close i' false)) with (queued i').
      change (pending (set_close i' false)) with (pending i'). rewrite Ep, Eq2. split.
      { unfold buffers_ok. change (queued (set_close i' false)) with (queued i'). rewrite Eq2. split_and!; [exact Hq| |done|].
        - by apply filter_out.
        - cbn. rewrite Forall_forall in Hnext |- *. intros z Hz. apply list_elem_of_filter in Hz as [_ Hz]. by apply Hnext. }
      split; [exact Hr|]. split; [done|]. split; [intros Hn; cbn in Hn; congruence|].
      split; [intros _; split_and!; [done|done| |done|done]|done].
      intros _. apply Hwr. by rewrite Eq.
    + unfold next_len in Hk. rewrite Eq in Hk. unfold front_len. by rewrite Eq2.
  - rewrite app_nil_r. split; [done|]. split.
    { cbn. rewrite Eq. constructor; [|done]. intros Hn. by apply Hw in Hn. }
    split; [done|]. split; [intros Hn; cbn in Hn; congruence|]. split; [|done]. intros _. split_and!; try done.
    intros _ Hn. cbn in Hn. congruence.
Qed.

Lemma step_inv s l : inv s -> legal s l ->
  match step s l with Next s' => inv s' | NotEnabled => True | Fault => False end.
Proof using Type*.
  intros Hi Hl. destruct l as [buf ans| | |ans|ans].
  - pose proof (write_inv s buf ans Hi Hl) as G. by destruct (step s (Write buf ans)).
  - destruct s as [i p a t]. cbn in Hl |- *. destruct (close_inv i p a t Hi Hl) as (i' & -> & Hi'). done.
  - destruct s as [i [|] a t]; [|done]. cbn. destruct (close i); [|done].
    destruct (close_inv (set_error i ETIMEDOUT) Outside a t) as (i' & -> & Hi'); [by eapply inv_set_error|by left|done].
  - destruct s as [i [|] a t]; [|done]. cbn [step at_ io]. destruct (closed i) eqn:Hc; [by rewrite andb_false_r|].
    destruct (writable i); [|done]. cbn [andb negb]. unfold after. cbn [accepted sent].
    assert (Hj : forall j, inv (mkSystem j Outside a t) -> closed j = false -> front_len j = front_len i ->
      match nio_write_round j ans with Some (i', p, l) => inv (mkSystem i' p a (t ++ l)) | None => False end).
    { intros j Hj Hcj Hf. apply round_inv; [by apply inv_set_close|done|]. by rewrite Hf. }
    rewrite empty_queued by apply Hi. destruct (bool_decide_reflect (queued i = [])) as [Hq|Hq].
    + specialize (Hj (set_writable i false)). destruct (nio_write_round _ ans) as [[[i' p] l]|]; (apply Hj; [|done|done]);
        (destruct Hi as (H1 & H2 & H3 & H4 & H5 & H6); do 4 (split; [done|]); split; [|done];
         intros Hx; destruct (H5 Hx) as (G1 & G2 & G3 & G4 & G5); by split_and!).
    + specialize (Hj i Hi Hc eq_refl). by destruct (nio_write_round i ans) as [[[i' p] l]|].
  - destruct s as [i [|b w] a t]; [done|]. cbn [step at_ io]. unfold after. cbn [accepted sent].
    assert (G := next_inv i b w a t ans Hi). cbn in Hl. specialize (G Hl). by destruct (nio_write_next i b w ans) as [[[i' p] l]|].
Qed.

(** A run all of whose labels are legal where they are taken. *)
Fixpoint legal_run s (ls : list label) : Prop :=
  match ls with
  | [] => True
  | l :: ls' => legal s l /\ match step s l with Next s' => legal_run s' ls' | NotEnabled => legal_run s ls' | Fault => True end
  end.

Lemma steps_inv ls : forall s, inv s -> legal_run s ls -> exists s', steps s ls = Some s' /\ inv s'.
Proof using Type*.
  induction ls as [|l ls IH]; intros s Hi Hl; cbn [steps]; [by exists s|]. destruct Hl as [Hl Hls].
  pose proof (step_inv s l Hi Hl) as G. destruct (step s l); [by apply IH|done|by apply IH].
Qed.

Lemma opened_inv b : inv (opened b).
Proof using Type*.
  destruct (law_cleanup (Q := Q)) as [H1 H2]. unfold inv, opened, buffers_ok. cbn. unfold pending. cbn. rewrite H2.
  split_and!; try done; try constructor.
Qed.

(** [C7] Whatever the kernel answers, whoever writes and whenever the write
    callback returns, no buffer is freed twice and no assertion fails, as long as
    the callback does not call [hio_close] again while a close is pending or after
    an error.  Without an error what was accepted is what was sent and what is
    queued, in order; [write_bufsize] counts what is queued and respects the limit;
    what is queued waits for [HV_WRITE]; and a close that was put off is not
    forgotten when the queue gets empty. *)
Theorem write_queue_contract (is_stream : bool) ls :
  legal_run (opened is_stream) ls ->
  exists s, steps (opened is_stream) ls = Some s /\
    (error (io s) = 0 -> sent s `prefix_of` accepted s) /\
    (closed (io s) = false ->
       (error (io s) = 0 -> accepted s = sent s ++ pending (io s)) /\
       write_bufsize (io s) = Z.of_nat (length (pending (io s))) /\
       Z.of_nat (length (pending (io s))) <= MAX_WRITE_BUFSIZE /\
       (queued (io s) <> [] -> writable (io s) = true) /\
       (at_ s = Outside -> queued (io s) = [] -> close (io s) = false)).
Proof using Type*.
  intros Hl. destruct (steps_inv ls (opened is_stream) (opened_inv is_stream) Hl) as (s & Hs & Hi). exists s. split; [done|].
  destruct Hi as (_ & _ & _ & _ & Ho & Hp). split; [done|]. intros Hc. destruct (Ho Hc) as (G1 & G2 & G3 & G4 & G5). by split_and!.
Qed.
End Invariant.

(** With the array of queue.h: a write that is sent in part, one that is queued,
    a close that is put off, and the rest that goes out. *)
Definition busy : list label :=
  [Write [1; 2; 3] (Wrote 1); Write [4; 5] (Wrote 0); Close; Writable (Wrote 2); Write [6] (Wrote 0); Return (Wrote 1);
   Return (Wrote 0); Writable (WriteError EAGAIN); Writable (Wrote 1); Return (Wrote 1); Return (Wrote 0)].

Lemma write_queue_contract_witness :
  exists s : system (qtype offset_buf), steps (opened true) busy = Some s /\ accepted s = [1; 2; 3; 4; 5; 6] /\
    (error (io s) = 0 -> sent s `prefix_of` accepted s).
Proof.
  destruct (write_queue_contract (Q := qtype offset_buf) contents queue_ok true busy) as (s & Hs & Hp & _).
  - vm_compute. repeat split; auto; try lia; by left.
  - exists s. split; [exact Hs|]. split; [|exact Hp]. revert Hs. vm_compute. by intros [= <-].
Defined.

(** [hio_close] from the write callback of the last buffer, with a close pending:
    the io is closed at once and the buffers are freed, and [nio_write] then frees
    the one it was sending again. *)
Example second_close_frees_twice :
  steps (opened (Q := qtype offset_buf) true) [Write [1; 2] (Wrote 1); Close; Writable (Wrote 1); Close; Return (Wrote 0)] = None.
Proof. by vm_compute. Qed.

(** Writing nothing closes the connection: the kernel takes 0 bytes. *)
Example empty_write_disconnects :
  let '(i, ret, _) := hio_write (hio_ready (Q := qtype offset_buf) true) [] (Wrote 0) in ret = -1 /\ posted i = true.
Proof. by vm_compute. Qed.
