(* ===== verification/Heap.v ===== *)
(** * The heap of timers: [libs/libhv/base/heap.h]

    A binary heap whose nodes are linked by pointers and live in the elements; the
    last node is found by the bits of the number of elements.  A position is a
    [positive]: the root is 1 and the children of [p] are [p~0] and [p~1].  The
    links are shown to represent a map from positions to nodes, and the operations
    to implement a set whose minimum is at the root. *)

From stdpp Require Import gmap.
From S2P Require Import Prelude.

(** ** The links *)

Record heap_node := mkNode { parent : option nat; left : option nat; right : option nat }.

(** [nodes]: the memory of the nodes, by their address. *)
Record heap := mkHeap { root : option nat; nelts : Z; nodes : nat -> heap_node }.

(** Assignments to a field through a pointer; nothing happens for NULL. *)
Definition set_parent (s : nat -> heap_node) (o v : option nat) : nat -> heap_node :=
  fun z => if decide (o = Some z) then let n := s z in mkNode v (left n) (right n) else s z.
Definition set_left (s : nat -> heap_node) (o v : option nat) : nat -> heap_node :=
  fun z => if decide (o = Some z) then let n := s z in mkNode (parent n) v (right n) else s z.
Definition set_right (s : nat -> heap_node) (o v : option nat) : nat -> heap_node :=
  fun z => if decide (o = Some z) then let n := s z in mkNode (parent n) (left n) v else s z.

Definition heap_init : heap := mkHeap None 0 (fun _ => mkNode None None None).

Definition with_nodes (h : heap) (s : nat -> heap_node) : heap := mkHeap (root h) (nelts h) s.
Definition with_root (h : heap) (r : option nat) : heap := mkHeap r (nelts h) (nodes h).
Definition with_nelts (h : heap) (n : Z) : heap := mkHeap (root h) n (nodes h).

(** [p] is replaced by [r] in its parent, or at the root. *)
Definition relink (h : heap) (p : nat) (r : option nat) : heap :=
  match parent (nodes h p) with
  | None => with_root h r
  | Some g =>
      if decide (left (nodes h g) = Some p) then with_nodes h (set_left (nodes h) (Some g) r)
      else if decide (right (nodes h g) = Some p) then with_nodes h (set_right (nodes h) (Some g) r)
      else h
  end.

Definition heap_replace (h : heap) (s r : nat) : heap :=
  let h := relink h s (Some r) in
  let h := with_nodes h (set_parent (nodes h) (left (nodes h s)) (Some r)) in
  let h := with_nodes h (set_parent (nodes h) (right (nodes h s)) (Some r)) in
  let m := set_parent (nodes h) (Some r) (parent (nodes h s)) in
  let m := set_left m (Some r) (left (m s)) in
  with_nodes h (set_right m (Some r) (right (m s))).

(** [None]: the assertion fails. *)
Definition heap_swap (h : heap) (p c : nat) : option heap :=
  if decide (parent (nodes h c) = Some p /\ (left (nodes h p) = Some c \/ right (nodes h p) = Some c)) then
    let pparent := parent (nodes h p) in
    let lchild := left (nodes h c) in
    let rchild := right (nodes h c) in
    let h := relink h p (Some c) in
    let m := set_parent (nodes h) lchild (Some p) in
    let m := set_parent m rchild (Some p) in
    let m := set_parent m (Some c) pparent in
    let isleft := bool_decide (left (m p) = Some c) in
    let sibling := if isleft then right (m p) else left (m p) in
    let m := set_left m (Some c) (if isleft then Some p else sibling) in
    let m := set_right m (Some c) (if isleft then sibling else Some p) in
    let m := set_parent m sibling (Some c) in
    let m := set_parent m (Some p) (Some c) in
    let m := set_left m (Some p) lchild in
    let m := set_right m (Some p) rchild in
    Some (with_nodes h m)
  else None.

Section Heap.
(** [compare] of the timers orders them by a key, [next_timeout]. *)
Context (key : nat -> Z).

Definition compare (a b : nat) : bool := bool_decide (key a < key b).

(** [for (d = 0, n = heap->nelts; n >= 2; ++d, n >>= 1) path = (path << 1) | (n & 1);] *)
Fixpoint path_loop (fuel : nat) (n path d : Z) : Z * Z :=
  match fuel with
  | O => (path, d)
  | S fuel' =>
      if decide (n >= 2) then path_loop fuel' (Z.shiftr n 1) (Z.lor (Z.shiftl path 1) (Z.land n 1)) (d + 1)
      else (path, d)
  end.

(** [while (d > 1) { ... }]: the node it arrives at, and the rest of the path.
    [None]: NULL is dereferenced. *)
Fixpoint walk (fuel : nat) (h : heap) (p : option nat) (path d : Z) : option (option nat * Z) :=
  match fuel with
  | O => Some (p, path)
  | S fuel' =>
      if decide (d > 1) then
        x ← p;
        walk fuel' h (if decide (Z.land path 1 <> 0) then right (nodes h x) else left (nodes h x)) (Z.shiftr path 1) (d - 1)
      else Some (p, path)
  end.

Definition levels (n : Z) : nat := S (Z.to_nat (Z.log2 n)).

Fixpoint sift_up (fuel : nat) (h : heap) (v : nat) : option heap :=
  match fuel with
  | O => None
  | S fuel' =>
      match parent (nodes h v) with
      | Some p => if compare v p then h ← heap_swap h p v; sift_up fuel' h v else Some h
      | None => Some h
      end
  end.

Definition est (h : heap) (v : nat) : nat :=
  let e := match left (nodes h v) with Some l => if compare v l then v else l | None => v end in
  match right (nodes h v) with Some r => if compare e r then e else r | None => e end.

Fixpoint sift_down (fuel : nat) (h : heap) (v : nat) : option heap :=
  match fuel with
  | O => None
  | S fuel' => if decide (est h v = v) then Some h else h ← heap_swap h v (est h v); sift_down fuel' h v
  end.

(** The steps of a loop up or down are at most the number of nodes. *)
Definition sift_fuel (h : heap) : nat := S (Z.to_nat (nelts h)).

(** [heap_insert] up to [sift up]. *)
Definition heap_link (h : heap) (node : nat) : option heap :=
  let h := with_nelts h (nelts h + 1) in
  let '(path, d) := path_loop (levels (nelts h)) (nelts h) 0 0 in
  '(p, path) ← walk (levels (nelts h)) h (root h) path d;
  let h := with_nodes h (set_parent (nodes h) (Some node) p) in
  Some
    match p with
    | None => with_root h (Some node)
    | Some _ =>
        if decide (Z.land path 1 <> 0) then with_nodes h (set_right (nodes h) p (Some node))
        else with_nodes h (set_left (nodes h) p (Some node))
    end.

Definition heap_insert (h : heap) (node : nat) : option heap :=
  h ← heap_link h node;
  sift_up (sift_fuel h) h node.

Definition heap_remove (h : heap) (node : nat) : option heap :=
  if decide (nelts h = 0) then Some h
  else
    let '(path, d) := path_loop (levels (nelts h)) (nelts h) 0 0 in
    let n := nelts h in
    let h := with_nelts h (nelts h - 1) in
    '(p, path) ← walk (levels n) h (root h) path d;
    match p with
    | None => Some h
    | Some x =>
        let isright := bool_decide (Z.land path 1 <> 0) in
        let last := if isright then right (nodes h x) else left (nodes h x) in
        let h := with_nodes h (if isright then set_right (nodes h) p None else set_left (nodes h) p None) in
        match last with
        | None => Some (if decide (root h = Some node) then with_root h None else h)
        | Some last =>
            let h := heap_replace h node last in
            let m := set_right (set_left (set_parent (nodes h) (Some node) None) (Some node) None) (Some node) None in
            let h := with_nodes h m in
            h ← sift_down (sift_fuel h) h last;
            sift_up (sift_fuel h) h last
        end
    end.

(** [None] for an empty heap: its root, NULL, is dereferenced unless there are no
    elements. *)
Definition heap_dequeue (h : heap) : option heap :=
  match root h with
  | Some r => heap_remove h r
  | None => if decide (nelts h = 0) then Some h else None
  end.
End Heap.

(** ** Positions *)

Definition child (b : bool) (p : positive) : positive := if b then xI p else xO p.

(** What is at the parent of a position. *)
Definition up {A} (f : positive -> option A) (p : positive) : option A :=
  match p with xH => None | xO q | xI q => f q end.

Lemma child_inj b c p q : child b p = child c q -> b = c /\ p = q.
Proof. destruct b, c; cbn; by intros [=]. Qed.
Lemma child_neq b p : child b p <> p.
Proof. destruct b; cbn; lia. Qed.
Lemma up_child {A} (f : positive -> option A) b p : up f (child b p) = f p.
Proof. by destruct b. Qed.

(** The nodes of [h] are linked as [f] says, at the positions up to [nelts]. *)
Record linked (h : heap) (f : positive -> option nat) : Prop := {
  linked_dom p : is_Some (f p) <-> Zpos p <= nelts h;
  linked_inj p q x : f p = Some x -> f q = Some x -> p = q;
  linked_node p x : f p = Some x -> nodes h x = mkNode (up f p) (f (xO p)) (f (xI p));
  linked_root : root h = f xH;
}.

Definition put (f : positive -> option nat) (p : positive) (o : option nat) : positive -> option nat :=
  fun q => if decide (q = p) then o else f q.
Definition swapped (f : positive -> option nat) (p q : positive) : positive -> option nat :=
  put (put f p (f q)) q (f p).

Section Links.
Context (h : heap) (f : positive -> option nat) (Hf : linked h f).

(** A pointer of the heap is the node at a position just when the positions are
    the same. *)
Lemma at_position p z : f p = Some z -> forall q, f q = Some z <-> q = p.
Proof using Hf. intros Hp q. split; [intros Hq; by eapply (linked_inj h f Hf) | by intros ->]. Qed.

Lemma dom_parent b p : is_Some (f (child b p)) -> is_Some (f p).
Proof using Hf. rewrite !(linked_dom h f Hf). destruct b; cbn; lia. Qed.
End Links.

(** The values of a map after a swap. *)
Lemma swapped_first f p q : p <> q -> swapped f p q p = f q.
Proof. intros Hpq. unfold swapped, put. by rewrite decide_False, decide_True. Qed.
Lemma swapped_second f p q : swapped f p q q = f p.
Proof. unfold swapped, put. by rewrite decide_True. Qed.
Lemma swapped_other f p q r : r <> p -> r <> q -> swapped f p q r = f r.
Proof. intros Hp Hq. unfold swapped, put. by rewrite !decide_False. Qed.

Lemma swapped_inv f p q r z : p <> q -> swapped f p q r = Some z ->
  (r = p /\ f q = Some z) \/ (r = q /\ f p = Some z) \/ (r <> p /\ r <> q /\ f r = Some z).
Proof. intros Hpq. unfold swapped, put. repeat case_decide; subst; auto. Qed.

(** What the assignments leave. *)
Lemma set_parent_eq s o v z : o = Some z -> set_parent s o v z = mkNode v (left (s z)) (right (s z)).
Proof. intros ->. unfold set_parent. by rewrite decide_True. Qed.
Lemma set_parent_ne s o v z : o <> Some z -> set_parent s o v z = s z.
Proof. intros Ho. unfold set_parent. by rewrite decide_False. Qed.
Lemma set_left_eq s o v z : o = Some z -> set_left s o v z = mkNode (parent (s z)) v (right (s z)).
Proof. intros ->. unfold set_left. by rewrite decide_True. Qed.
Lemma set_left_ne s o v z : o <> Some z -> set_left s o v z = s z.
Proof. intros Ho. unfold set_left. by rewrite decide_False. Qed.
Lemma set_right_eq s o v z : o = Some z -> set_right s o v z = mkNode (parent (s z)) (left (s z)) v.
Proof. intros ->. unfold set_right. by rewrite decide_True. Qed.
Lemma set_right_ne s o v z : o <> Some z -> set_right s o v z = s z.
Proof. intros Ho. unfold set_right. by rewrite decide_False. Qed.

Lemma relink_nodes h p r z : nodes (relink h p r) z =
  match parent (nodes h p) with
  | Some g =>
      if decide (g = z) then
        if decide (left (nodes h g) = Some p) then mkNode (parent (nodes h z)) r (right (nodes h z))
        else if decide (right (nodes h g) = Some p) then mkNode (parent (nodes h z)) (left (nodes h z)) r
        else nodes h z
      else nodes h z
  | None => nodes h z
  end.
Proof.
  unfold relink. destruct (parent (nodes h p)) as [g|]; [|done]. unfold with_nodes, set_left, set_right.
  repeat case_decide; cbn; repeat case_decide; try done; congruence.
Qed.
Lemma relink_root h p r : root (relink h p r) = match parent (nodes h p) with Some _ => root h | None => r end.
Proof. unfold relink. destruct (parent (nodes h p)); [|done]. by repeat case_decide. Qed.
Lemma relink_nelts h p r : nelts (relink h p r) = nelts h.
Proof. unfold relink. destruct (parent (nodes h p)); [|done]. by repeat case_decide. Qed.

(** A position is the root or a child. *)
Lemma position_cases p : p = xH \/ exists c g, p = child c g.
Proof. destruct p as [g|g|]; [right; by exists true, g | right; by exists false, g | by left]. Qed.

Section Swap.
Context (h : heap) (f : positive -> option nat) (Hf : linked h f) (b : bool) (p : positive) (x y : nat).
Context (Hx : f p = Some x) (Hy : f (child b p) = Some y).
Notation q := (child b p).
Notation f' := (swapped f p q).

Lemma swap_neq : x <> y.
Proof using All. intros ->. apply (child_neq b p). by eapply (linked_inj h f Hf). Qed.

Lemma other_ptr r z : f r = Some z -> r <> p -> r <> q -> z <> x /\ z <> y.
Proof using All.
  intros Hz Hp Hq. split; intros ->; [apply Hp | apply Hq]; by eapply (linked_inj h f Hf).
Qed.

(** The pointers that [heap_swap] reads. *)
Lemma swap_reads : nodes h x = mkNode (up f p) (f (xO p)) (f (xI p)) /\ nodes h y = mkNode (Some x) (f (xO q)) (f (xI q)).
Proof using All.
  split; [by apply (linked_node h f Hf)|]. rewrite (linked_node h f Hf _ _ Hy). by rewrite up_child, Hx.
Qed.

Lemma ptr_not_x r : r <> p -> f r <> Some x.
Proof using All. intros Hr E. apply Hr. by eapply (linked_inj h f Hf). Qed.
Lemma ptr_not_y r : r <> q -> f r <> Some y.
Proof using All. intros Hr E. apply Hr. by eapply (linked_inj h f Hf). Qed.
Lemma up_not r z : up f p = Some z -> f r = Some z -> p = xH \/ exists c, p = child c r.
Proof using All.
  intros Hu Hr. destruct (position_cases p) as [->|(c & g & ->)]; [by left|]. right. exists c. rewrite up_child in Hu.
  by rewrite (linked_inj h f Hf _ _ _ Hu Hr).
Qed.
Lemma up_not_x : up f p <> Some x.
Proof using All. intros Hu. destruct (up_not p x Hu Hx) as [Hp|[c Hp]]; [by rewrite Hp in Hu | by apply (child_neq c p)]. Qed.
Lemma up_not_y : up f p <> Some y.
Proof using All.
  intros Hu. destruct (up_not q y Hu Hy) as [Hp|[c Hp]]; [by rewrite Hp in Hu|]. destruct b, c; cbn in Hp; lia.
Qed.

(** The nodes after the swap. *)
Lemma swap_nodes : exists h', heap_swap h x y = Some h' /\ nelts h' = nelts h /\
  root h' = match up f p with Some _ => root h | None => Some y end /\
  nodes h' x = mkNode (Some y) (f (xO q)) (f (xI q)) /\
  nodes h' y = mkNode (up f p) (if b then f (xO p) else Some x) (if b then Some x else f (xI p)) /\
  forall z, z <> x -> z <> y ->
    nodes h' z = mkNode
      (if decide (f (child (negb b) p) = Some z) then Some y
       else if decide (f (xI q) = Some z \/ f (xO q) = Some z) then Some x else parent (nodes h z))
      (if decide (up f p = Some z /\ left (nodes h z) = Some x) then Some y else left (nodes h z))
      (if decide (up f p = Some z /\ left (nodes h z) <> Some x /\ right (nodes h z) = Some x) then Some y else right (nodes h z)).
Proof using All.
  destruct swap_reads as [Nx Ny]. pose proof swap_neq as Hxy.
  assert (Hly : forall c, f (child c q) <> Some x /\ f (child c q) <> Some y).
  { intros c. split; [apply ptr_not_x; destruct b, c; cbn; lia | apply ptr_not_y; apply child_neq]. }
  pose proof (Hly false) as [L1 L2]. pose proof (Hly true) as [R1 R2]. cbn [child] in L1, L2, R1, R2. clear Hly.
  assert (Hsx : f (child (negb b) p) <> Some x) by (apply ptr_not_x, child_neq).
  assert (Hsy : f (child (negb b) p) <> Some y) by (apply ptr_not_y; intros E; apply child_inj in E as [E _]; by destruct b).
  pose proof up_not_x as Ux. pose proof up_not_y as Uy.
  unfold heap_swap. rewrite Nx, Ny. cbn [parent left right].
  rewrite decide_True by (split; [done|]; destruct b; [by right | by left]).
  eexists. split; [reflexivity|]. split; [apply relink_nelts|]. split; [cbn; rewrite relink_root, Nx; by destruct (up f p)|].
  assert (Rx : nodes (relink h x (Some y)) x = nodes h x).
  { rewrite relink_nodes, Nx. cbn [parent]. destruct (up f p); [|done]. rewrite decide_False by congruence. done. }
  assert (Ry : nodes (relink h x (Some y)) y = nodes h y).
  { rewrite relink_nodes, Nx. cbn [parent]. destruct (up f p); [|done]. rewrite decide_False by congruence. done. }
  set (M := set_parent (set_parent (set_parent _ _ _) _ _) _ _).
  assert (Mx : M x = nodes h x).
  { unfold M, set_parent. rewrite !decide_False by congruence. done. }
  rewrite Mx, Nx. cbn [left right].
  assert (Hleft : bool_decide (f (xO p) = Some y) = negb b).
  { destruct b; cbn in Hy, Hsy |- *; [by apply bool_decide_eq_false | by apply bool_decide_eq_true]. }
  rewrite Hleft. assert (Hsib : (if negb b then f (xI p) else f (xO p)) = f (child (negb b) p)) by by destruct b.
  rewrite Hsib. cbn [with_nodes nodes]. set (sib := f (child (negb b) p)) in *.
  split; [|split].
  - rewrite set_right_eq, set_left_eq, set_parent_eq by done. done.
  - rewrite set_right_ne, set_left_ne, 2 set_parent_ne, set_right_eq, set_left_eq by congruence. unfold M. rewrite set_parent_eq by done.
    cbn. unfold sib. by destruct b.
  - intros z Hzx Hzy. rewrite set_right_ne, set_left_ne, set_parent_ne by congruence.
    assert (Mz : M z = mkNode (if decide (f (xI q) = Some z \/ f (xO q) = Some z) then Some x else parent (nodes h z))
      (left (nodes (relink h x (Some y)) z)) (right (nodes (relink h x (Some y)) z))).
    { assert (Hr : parent (nodes (relink h x (Some y)) z) = parent (nodes h z)).
      { rewrite relink_nodes. destruct (parent (nodes h x)); [|done]. by repeat case_decide. }
      unfold M. rewrite set_parent_ne by congruence. unfold set_parent. repeat case_decide; try done; try tauto;
        rewrite <- Hr; by destruct (nodes (relink h x (Some y)) z). }
    set (N := set_right _ _ _). assert (Nz : N z = M z) by (unfold N; by rewrite set_right_ne, set_left_ne by congruence).
    transitivity (mkNode (if decide (sib = Some z) then Some y else parent (M z)) (left (M z)) (right (M z))).
    { assert (E : set_parent N sib (Some y) z = mkNode (if decide (sib = Some z) then Some y else parent (N z)) (left (N z)) (right (N z)))
        by (unfold set_parent; repeat case_decide; try done; by destruct (N z)).
      rewrite E. by rewrite Nz. }
    rewrite Mz. cbn [parent left right]. rewrite relink_nodes, Nx. cbn [parent].
    destruct (up f p) as [g|] eqn:Eg; [|f_equal; rewrite decide_False; naive_solver].
    destruct (decide (g = z)) as [->|Hg]; [|f_equal; rewrite decide_False; naive_solver].
    f_equal; repeat case_decide; cbn; naive_solver.
Qed.

Lemma swap_linked : exists h', heap_swap h x y = Some h' /\ linked h' f' /\ nelts h' = nelts h.
Proof using All.
  destruct swap_nodes as (h' & E & Hn & Hr & Nx & Ny & Nz). exists h'. split; [done|]. split; [|done].
  pose proof swap_neq as Hxy. assert (Hpq : p <> q) by (intros Hp; by apply (child_neq b p)).
  split.
  - intros r. rewrite Hn, <- (linked_dom h f Hf). destruct (decide (r = p)) as [->|Hp]; [rewrite swapped_first, Hx, Hy by done; by split|].
    destruct (decide (r = q)) as [->|Hq]; [rewrite swapped_second, Hx, Hy by done; by split|]. by rewrite swapped_other.
  - intros r1 r2 z H1 H2. pose proof (linked_inj h f Hf) as Hinj.
    apply swapped_inv in H1 as [[-> H1]|[[-> H1]|(A1 & B1 & H1)]], H2 as [[-> H2]|[[-> H2]|(A2 & B2 & H2)]]; try done;
      pose proof (Hinj _ _ _ H1 H2); congruence.
  - intros r z Hz. apply swapped_inv in Hz as [[-> Hz]|[[-> Hz]|(Hp & Hq & Hz)]]; [| | |done].
    + assert (z = y) as -> by congruence. rewrite Ny. f_equal.
      * destruct (position_cases p) as [E1|(c & g & E1)].
        { assert (U : forall F : positive -> option nat, up F p = None) by (intros F; by rewrite E1). by rewrite !U. }
        assert (U : forall F : positive -> option nat, up F p = F g) by (intros F; rewrite E1; apply up_child). rewrite !U.
        rewrite swapped_other; [done|intros ->; by apply (child_neq c p) | intros E2; rewrite E2 in E1; destruct b, c; cbn in E1; lia].
      * destruct b; cbn; [rewrite swapped_other; [done|lia|cbn; lia] | by rewrite (swapped_second f p (xO p))].
      * destruct b; cbn; [by rewrite (swapped_second f p (xI p)) | rewrite swapped_other; [done|lia|cbn; lia]].
    + assert (z = x) as -> by congruence. rewrite Nx, up_child, swapped_first by done. rewrite Hy.
      f_equal; (rewrite swapped_other; [done | destruct b; cbn; lia | destruct b; cbn; lia]).
    + destruct (other_ptr r z Hz Hp Hq) as [Hzx Hzy]. rewrite Nz by done. rewrite (linked_node h f Hf _ _ Hz). cbn [parent left right].
      pose proof (at_position h f Hf r z Hz) as At. f_equal.
      * destruct (position_cases r) as [->|(c & g & ->)].
        { cbn. rewrite decide_False by (rewrite At; by destruct b). rewrite decide_False by (rewrite !At; naive_solver). done. }
        rewrite !up_child. destruct (decide (g = p)) as [->|Hgp].
        { assert (c = negb b) as -> by (destruct c, b; try done; by destruct Hq). rewrite decide_True by (by apply At). by rewrite swapped_first, Hy. }
        rewrite decide_False by (rewrite At; intros E1; apply child_inj in E1 as [_ E1]; congruence).
        destruct (decide (g = q)) as [->|Hgq].
        { rewrite decide_True by (rewrite !At; destruct c; cbn; auto). by rewrite swapped_second, Hx. }
        rewrite decide_False by (rewrite !At; destruct c; cbn; intros [E1|E1]; try done; injection E1 as E1; congruence). by rewrite swapped_other.
      * destruct (decide (xO r = p)) as [E1|E1].
        { rewrite decide_True by (rewrite <- E1; cbn; split; [done|by rewrite E1]). rewrite E1. by rewrite swapped_first. }
        rewrite decide_False. { rewrite swapped_other; [done|done|]. intros E2. apply (child_inj false b) in E2 as [_ E2]. congruence. }
        intros [_ E2]. by apply (ptr_not_x (xO r)).
      * destruct (decide (xI r = p)) as [E1|E1].
        { rewrite decide_True. 2: { rewrite <- E1. cbn. split; [done|]. split; [|by rewrite E1]. apply ptr_not_x. lia. }
          rewrite E1. by rewrite swapped_first. }
        rewrite decide_False. { rewrite swapped_other; [done|done|]. intros E2. apply (child_inj true b) in E2 as [_ E2]. congruence. }
        intros (_ & _ & E2). by apply (ptr_not_x (xI r)).
  - rewrite Hr. destruct (position_cases p) as [E1|(c & g & E1)].
    + rewrite E1 in Hx, Hy |- *. cbn [up]. rewrite swapped_first by (destruct b; done). done.
    + assert (Hg : is_Some (up f p)). { rewrite E1, up_child. apply (dom_parent h f Hf c). rewrite <- E1, Hx. by eexists. }
      destruct Hg as [g' ->]. rewrite (linked_root h f Hf). rewrite swapped_other; [done| rewrite E1; by destruct c | by destruct b].
Qed.
End Swap.

(** ** The way to the last position *)

(** The bits of a position below the first, the lowest first, and the number
    with given bits. *)
Fixpoint bits (p : positive) : list bool :=
  match p with xH => [] | xO q => false :: bits q | xI q => true :: bits q end.
Fixpoint num (l : list bool) : Z := match l with [] => 0 | b :: l' => Z.b2z b + 2 * num l' end.

Definition along (p : positive) (l : list bool) : positive := fold_left (fun p b => child b p) l p.

Lemma num_nonneg l : 0 <= num l.
Proof. induction l as [|b l IH]; cbn [num]; [lia|]. destruct b; cbn; lia. Qed.

Lemma num_low b l : Z.land (num (b :: l)) 1 = Z.b2z b.
Proof. change 1 with (Z.ones 1). rewrite Z.land_ones by lia. cbn [num]. pose proof (num_nonneg l). destruct b; cbn [Z.b2z]; div_lia. Qed.

Lemma num_rest b l : Z.shiftr (num (b :: l)) 1 = num l.
Proof. rewrite Z.shiftr_div_pow2 by lia. cbn [num]. pose proof (num_nonneg l). destruct b; cbn [Z.b2z]; div_lia. Qed.

Lemma num_push b l : Z.lor (Z.shiftl (num l) 1) (Z.b2z b) = num (b :: l).
Proof.
  rewrite Z.shiftl_mul_pow2, lor_add_low by (try lia; destruct b; cbn; lia). cbn [num]. lia.
Qed.

Lemma child_bits b p : bits (child b p) = b :: bits p.
Proof. by destruct b. Qed.

Lemma path_loop_bits fuel : forall p acc, (length (bits p) <= fuel)%nat ->
  path_loop fuel (Zpos p) (num acc) (Z.of_nat (length acc)) =
  (num (rev (bits p) ++ acc), Z.of_nat (length (rev (bits p) ++ acc))).
Proof.
  induction fuel as [|fuel IH]; intros p acc Hf.
  - destruct p; cbn in Hf; [lia|lia|done].
  - destruct (position_cases p) as [->|(b & q & ->)]; [done|]. rewrite child_bits in Hf |- *. cbn [path_loop].
    rewrite decide_True by (destruct b; cbn; lia).
    assert (E1 : Z.land (Zpos (child b q)) 1 = Z.b2z b) by by destruct b.
    assert (E2 : Z.shiftr (Zpos (child b q)) 1 = Zpos q) by by destruct b.
    rewrite E1, E2, num_push. replace (Z.of_nat (length acc) + 1) with (Z.of_nat (length (b :: acc))) by (cbn; lia).
    rewrite IH by (cbn in Hf; lia). cbn [rev]. by rewrite <- app_assoc.
Qed.

Lemma bits_levels p : (length (bits p) < levels (Zpos p))%nat.
Proof.
  unfold levels. assert (E : Z.of_nat (length (bits p)) = Z.log2 (Zpos p)); [|lia].
  induction p as [p IH|p IH|]; cbn [bits length]; [| |done].
  - change (Zpos p~1) with (2 * Zpos p + 1). rewrite Z.log2_succ_double by lia. lia.
  - change (Zpos p~0) with (2 * Zpos p). rewrite Z.log2_double by lia. lia.
Qed.

Lemma along_bits p : along 1 (rev (bits p)) = p.
Proof.
  induction p as [p IH|p IH|]; cbn [bits rev]; [| |done]; unfold along in *; rewrite fold_left_app, IH; done.
Qed.

Section Walk.
Context (h : heap) (f : positive -> option nat).
Context (Hn : forall p x, f p = Some x -> nodes h x = mkNode (up f p) (f (xO p)) (f (xI p))).
Context (Hup : forall b p, is_Some (f (child b p)) -> is_Some (f p)).

Lemma along_dom l : forall p, is_Some (f (along p l)) -> is_Some (f p).
Proof using Hup. induction l as [|b l IH]; intros p Hp; [done|]. by apply (Hup b), IH. Qed.

Lemma walk_along l b : forall p fuel, (length l < fuel)%nat -> is_Some (f (along p l)) ->
  walk fuel h (f p) (num (l ++ [b])) (Z.of_nat (length (l ++ [b]))) = Some (f (along p l), num [b]).
Proof using Hn Hup.
  induction l as [|c l IH]; intros p fuel Hf Hp; (destruct fuel as [|fuel]; [cbn in Hf; lia|]); cbn [walk app length].
  - done.
  - rewrite decide_True by (rewrite length_app; cbn; lia). destruct (along_dom (c :: l) p Hp) as [x Hx]. rewrite Hx. cbn [mbind option_bind].
    rewrite num_low, num_rest, (Hn p x Hx). cbn [left right].
    replace (Z.of_nat (S (length (l ++ [b]))) - 1) with (Z.of_nat (length (l ++ [b]))) by lia.
    assert (E : (if decide (Z.b2z c <> 0) then f (xI p) else f (xO p)) = f (child c p)) by by destruct c.
    rewrite E. apply IH; [cbn in Hf; lia|exact Hp].
Qed.

(** The parent of the position [n], and the side of [n]. *)
Lemma walk_last b m : is_Some (f m) -> root h = f xH ->
  let n := Zpos (child b m) in
  let '(path, d) := path_loop (levels n) n 0 0 in
  walk (levels n) h (root h) path d = Some (f m, Z.b2z b).
Proof using Hn Hup.
  intros Hm Hr n. unfold n. pose proof (bits_levels (child b m)) as Hl.
  pose proof (path_loop_bits (levels (Zpos (child b m))) (child b m) []) as E. change (num []) with 0 in E.
  change (Z.of_nat (length [])) with 0 in E. rewrite E, app_nil_r by lia. rewrite child_bits in Hl |- *. cbn [rev].
  rewrite Hr, walk_along.
  - rewrite along_bits. by destruct b.
  - rewrite length_rev. cbn in Hl. lia.
  - by rewrite along_bits.
Qed.
End Walk.

(** ** Linking and unlinking the last position *)

Lemma linked_none h f p : linked h f -> nelts h < Zpos p -> f p = None.
Proof. intros Hf Hp. destruct (f p) eqn:E; [|done]. assert (is_Some (f p)) as H by by rewrite E. apply (linked_dom h f Hf) in H. lia. Qed.

Lemma put_same f p o : put f p o p = o.
Proof. unfold put. by rewrite decide_True. Qed.
Lemma put_other f p o q : q <> p -> put f p o q = f q.
Proof. intros Hq. unfold put. by rewrite decide_False. Qed.

(** Walking in a heap that differs in its size only. *)
Lemma walk_linked h f b m n : linked h f -> is_Some (f m) ->
  let '(path, d) := path_loop (levels (Zpos (child b m))) (Zpos (child b m)) 0 0 in
  walk (levels (Zpos (child b m))) (with_nelts h n) (root h) path d = Some (f m, Z.b2z b).
Proof.
  intros Hf Hm. apply (walk_last (with_nelts h n) f); [apply Hf| |done|apply Hf]. intros c p. by apply (dom_parent h f Hf).
Qed.

Lemma b2z_true (b : bool) {A} (u v : A) : (if decide (Z.land (Z.b2z b) 1 <> 0) then u else v) = if b then u else v.
Proof. by destruct b. Qed.

Definition member (f : positive -> option nat) (x : nat) : Prop := exists p, f p = Some x.

Lemma heap_link_ok h f x q : linked h f -> (forall p, f p <> Some x) -> left (nodes h x) = None -> right (nodes h x) = None ->
  Zpos q = nelts h + 1 ->
  exists h', heap_link h x = Some h' /\ linked h' (put f q (Some x)) /\ nelts h' = Zpos q /\
    forall z, z <> x -> ~ member f z -> nodes h' z = nodes h z.
Proof.
  intros Hf Hx Hxl Hxr Hq. unfold heap_link. cbn [with_nelts nelts root]. rewrite <- Hq.
  assert (Hnew : forall c, f (child c q) = None) by (intros c; apply (linked_none h f); [done|destruct c; cbn; lia]).
  assert (Hdom : forall p, is_Some (put f q (Some x) p) <-> Zpos p <= Zpos q).
  { intros p. unfold put. case_decide as E; [subst; split; [lia|by eexists]|]. rewrite (linked_dom h f Hf). lia. }
  assert (Hinj : forall p1 p2 z, put f q (Some x) p1 = Some z -> put f q (Some x) p2 = Some z -> p1 = p2).
  { intros p1 p2 z. unfold put. destruct (decide (p1 = q)) as [->|H1], (decide (p2 = q)) as [->|H2]; [done| | |].
    - intros E1 E2. destruct (Hx p2). congruence.
    - intros E1 E2. destruct (Hx p1). congruence.
    - apply (linked_inj h f Hf). }
  destruct (position_cases q) as [->|(b & m & ->)].
  - assert (Hnone : forall p, f p = None) by (intros p; apply (linked_none h f); [done|lia]).
    cbn. rewrite (linked_root h f Hf), Hnone. cbn. eexists. split; [reflexivity|].
    split; [|split; [done|intros z Hz _; cbn; by rewrite set_parent_ne by congruence]]. split; cbn; [done|done| |done].
    intros p z Hz. unfold put in Hz. case_decide as Ep; [|by rewrite Hnone in Hz]. subst p. injection Hz as <-.
    rewrite set_parent_eq by done. rewrite Hxl, Hxr, !put_other, !Hnone by done. done.
  - assert (Hm : is_Some (f m)) by (apply (linked_dom h f Hf); destruct b; cbn in Hq; lia).
    pose proof (walk_linked h f b m (Zpos (child b m)) Hf Hm) as Hw.
    destruct (path_loop _ _ 0 0) as [path d]. rewrite Hw. cbn [mbind option_bind]. destruct Hm as [p Hm]. rewrite Hm.
    rewrite b2z_true. assert (Hpx : p <> x) by (intros ->; by apply (Hx m)).
    eexists. split; [reflexivity|]. split; [|split; [by destruct b|]].
    2: { intros z Hz Hzm. assert (p <> z) by (intros ->; apply Hzm; by exists m).
      destruct b; cbn; [rewrite set_right_ne by congruence|rewrite set_left_ne by congruence]; by rewrite set_parent_ne by congruence. }
    assert (Hold : forall r z, r <> child b m -> f r = Some z -> z <> x /\ up (put f (child b m) (Some x)) r = up f r).
    { intros r z Hr Hz. split; [intros ->; by apply (Hx r)|]. destruct (position_cases r) as [->|(c & g & ->)]; [done|].
      rewrite !up_child. apply put_other. intros ->. by rewrite Hnew in Hz. }
    split; [by destruct b|exact Hinj| |by destruct b; cbn; rewrite (linked_root h f Hf), put_other].
    intros r z Hz. unfold put in Hz. case_decide as Er.
    + subst r. injection Hz as <-. rewrite up_child, (put_other _ (child b m) _ m) by (intros E; symmetry in E; by apply (child_neq b m)).
      rewrite Hm. rewrite !put_other by (destruct b; cbn; lia). pose proof (Hnew false) as N0; pose proof (Hnew true) as N1; cbn [child] in N0, N1; rewrite N0, N1; clear N0 N1.
      destruct b; cbn; [rewrite set_right_ne by congruence|rewrite set_left_ne by congruence]; rewrite set_parent_eq by done; by rewrite Hxl, Hxr.
    + destruct (Hold r z Er Hz) as [Hzx ->]. pose proof (at_position h f Hf r z Hz m) as At.
      assert (Ns : nodes h z = mkNode (up f r) (f (xO r)) (f (xI r))) by by apply (linked_node h f Hf).
      destruct (decide (r = m)) as [->|Hrm].
      * assert (z = p) as -> by congruence. destruct b; cbn [child with_nodes with_nelts nodes].
        -- rewrite set_right_eq, set_parent_ne, Ns, put_same, put_other by (done || congruence). done.
        -- rewrite set_left_eq, set_parent_ne, Ns, put_same, put_other by (done || congruence). done.
      * assert (Hpz : p <> z) by (intros ->; apply Hrm; symmetry; by apply At).
        rewrite !put_other by (intros E; apply Hrm; destruct b; cbn in E; try done; injection E as E; congruence).
        destruct b; cbn [with_nodes with_nelts nodes]; [rewrite set_right_ne by congruence|rewrite set_left_ne by congruence];
          rewrite set_parent_ne by congruence; exact Ns.
Qed.

Lemma put_none_inv f q r z : put f q None r = Some z -> r <> q /\ f r = Some z.
Proof. unfold put. by case_decide. Qed.

Lemma unlink_ok h f b m p : linked h f -> nelts h = Zpos (child b m) -> f m = Some p ->
  linked (with_nodes (with_nelts h (nelts h - 1)) (if b then set_right (nodes h) (Some p) None else set_left (nodes h) (Some p) None))
    (put f (child b m) None).
Proof.
  intros Hf Hn Hm.
  assert (Hnone : forall c, f (child c (child b m)) = None) by (intros c; apply (linked_none h f); [done|destruct b, c; cbn in *; lia]).
  split; cbn [with_nodes with_nelts nelts root nodes].
  - intros r. unfold put. case_decide as E; [subst r; split; [by intros []|lia]|]. rewrite (linked_dom h f Hf), Hn. lia.
  - intros r1 r2 z [_ H1]%put_none_inv [_ H2]%put_none_inv. by eapply (linked_inj h f Hf).
  - intros r z [Hr Hz]%put_none_inv.
    assert (Hup : up (put f (child b m) None) r = up f r).
    { destruct (position_cases r) as [->|(c & g & ->)]; [done|]. rewrite !up_child. apply put_other. intros ->. by rewrite Hnone in Hz. }
    rewrite Hup. pose proof (linked_node h f Hf _ _ Hz) as Nz. destruct (decide (r = m)) as [->|Hrm].
    + assert (z = p) as -> by congruence. destruct b; cbn [child].
      * rewrite set_right_eq, Nz, put_same, put_other by (done || congruence). done.
      * rewrite set_left_eq, Nz, put_same, put_other by (done || congruence). done.
    + assert (p <> z) by (intros ->; apply Hrm; by eapply (linked_inj h f Hf)).
      rewrite !put_other by (intros E; apply Hrm; destruct b; cbn in E; try done; injection E as E; congruence).
      destruct b; [rewrite set_right_ne by congruence | rewrite set_left_ne by congruence]; exact Nz.
  - rewrite (linked_root h f Hf), put_other; [done|by destruct b].
Qed.

Lemma replace_ok h f r s x : linked h f -> f r = Some s -> (forall p, f p <> Some x) ->
  linked (heap_replace h s x) (put f r (Some x)) /\ nelts (heap_replace h s x) = nelts h /\
  (forall z, z <> x -> (forall p, f p <> Some z) -> nodes (heap_replace h s x) z = nodes h z).
Proof.
  intros Hf Hs Hx. pose proof (linked_node h f Hf _ _ Hs) as Ns.
  assert (Hxs : x <> s) by (intros ->; by apply (Hx r)).
  assert (Hptr : forall q, q <> r -> f q <> Some s) by (intros q Hq E; apply Hq; by eapply (linked_inj h f Hf)).
  assert (Ux : up f r <> Some x) by (destruct (position_cases r) as [->|(c & g & ->)]; [done|rewrite up_child; apply Hx]).
  assert (Us : up f r <> Some s).
  { destruct (position_cases r) as [->|(c & g & ->)]; [done|]. rewrite up_child. apply Hptr. intros E. symmetry in E. by apply (child_neq c g). }
  unfold heap_replace. set (h1 := relink h s (Some x)).
  assert (H1 : forall z, (up f r = Some z -> False) -> nodes h1 z = nodes h z).
  { intros z Hz. unfold h1. rewrite relink_nodes, Ns. cbn [parent]. destruct (up f r) as [g|]; [|done]. rewrite decide_False by congruence. done. }
  cbn [with_nodes nodes]. rewrite (H1 s Us), Ns. cbn [left right].
  rewrite set_parent_ne by (apply Hptr; lia). rewrite (H1 s Us), Ns. cbn [left right].
  set (m2 := set_parent (set_parent (nodes h1) _ _) _ _).
  assert (M2 : forall z, nodes h1 z = nodes h z -> f (xO r) <> Some z -> f (xI r) <> Some z -> m2 z = nodes h z).
  { intros z Hz HO HI. unfold m2. by rewrite !set_parent_ne. }
  assert (M2s : m2 s = nodes h s) by (apply M2; [by apply H1|apply Hptr; lia|apply Hptr; lia]).
  rewrite (set_parent_ne m2 (Some x)) by congruence. rewrite (set_left_ne _ (Some x)) by congruence.
  rewrite (set_parent_ne m2 (Some x)) by congruence. rewrite M2s, Ns. cbn [parent left right].
  set (m3 := set_right _ _ _).
  assert (Nx : m3 x = mkNode (up f r) (f (xO r)) (f (xI r))).
  { unfold m3. by rewrite set_right_eq, set_left_eq, set_parent_eq. }
  assert (Nz : forall z, z <> x -> m3 z = m2 z).
  { intros z Hz. unfold m3. by rewrite set_right_ne, set_left_ne, set_parent_ne by congruence. }
  assert (P1 : forall z, parent (nodes h1 z) = parent (nodes h z)).
  { intros z. unfold h1. rewrite relink_nodes. destruct (parent (nodes h s)); [|done]. by repeat case_decide. }
  assert (E2 : forall z, m2 z = mkNode (if decide (f (xI r) = Some z \/ f (xO r) = Some z) then Some x else parent (nodes h z))
    (left (nodes h1 z)) (right (nodes h1 z))).
  { intros z. rewrite <- P1. unfold m2, set_parent. repeat case_decide; try done; try tauto; by destruct (nodes h1 z). }
  split; [|split].
  - split; cbn [with_nodes nodes nelts root].
    + intros r1. unfold h1. rewrite relink_nelts, <- (linked_dom h f Hf). unfold put. case_decide; [subst; rewrite Hs; split; by eexists|done].
    + intros r1 r2 z. unfold put. destruct (decide (r1 = r)) as [->|A1], (decide (r2 = r)) as [->|A2]; [done| | |].
      * intros B1 B2. destruct (Hx r2). congruence.
      * intros B1 B2. destruct (Hx r1). congruence.
      * apply (linked_inj h f Hf).
    + intros r1 z Hz. destruct (decide (r1 = r)) as [->|Hr].
      { rewrite put_same in Hz. injection Hz as <-. rewrite Nx, !put_other by lia. f_equal.
        destruct (position_cases r) as [->|(c & g & ->)]; [done|]. rewrite !up_child, put_other; [done|]. intros E. symmetry in E. by apply (child_neq c g). }
      rewrite put_other in Hz by done. assert (Hzx : z <> x) by (intros ->; by apply (Hx r1)).
      rewrite Nz, E2 by done. pose proof (at_position h f Hf r1 z Hz) as At. pose proof (linked_node h f Hf _ _ Hz) as N1.
      unfold h1. rewrite relink_nodes, Ns. cbn [parent]. f_equal.
      * destruct (position_cases r1) as [->|(c & g & ->)].
        { rewrite decide_False by (rewrite !At; naive_solver). by rewrite N1. }
        rewrite up_child. destruct (decide (g = r)) as [->|Hg].
        { rewrite decide_True by (rewrite !At; destruct c; cbn; auto). by rewrite put_same. }
        rewrite decide_False by (rewrite !At; destruct c; cbn; intros [E|E]; try done; injection E as E; congruence).
        by rewrite put_other, N1, up_child.
      * unfold put. destruct (decide (xO r1 = r)) as [E|E].
        { rewrite <- E. cbn. rewrite Hz, decide_True by done. rewrite N1. cbn. by rewrite E, decide_True. }
        destruct (up f r) as [g|] eqn:Eg; [|by rewrite N1]. destruct (decide (g = z)) as [->|]; [|by rewrite N1].
        rewrite N1. cbn. rewrite decide_False by (by apply Hptr). by case_decide.
      * unfold put. destruct (decide (xI r1 = r)) as [E|E].
        { rewrite <- E. cbn. rewrite Hz, decide_True by done. rewrite N1. cbn. rewrite E, decide_False by (apply Hptr; lia). by rewrite decide_True. }
        destruct (up f r) as [g|] eqn:Eg; [|by rewrite N1]. destruct (decide (g = z)) as [->|]; [|by rewrite N1].
        rewrite N1. cbn. case_decide; [done|]. by rewrite decide_False by (by apply Hptr).
    + unfold h1. rewrite relink_root, Ns. cbn [parent]. destruct (position_cases r) as [->|(c & g & ->)]; [by rewrite put_same|].
      rewrite up_child. assert (Hg : is_Some (f g)) by (apply (dom_parent h f Hf c); by rewrite Hs). destruct Hg as [g' ->].
      rewrite put_other by (by destruct c). apply (linked_root h f Hf).
  - apply relink_nelts.
  - intros z Hzx Hz. cbn [with_nodes nodes]. rewrite Nz by done. apply M2; [|apply Hz|apply Hz].
    apply H1. intros E. destruct (position_cases r) as [->|(c & g & ->)]; [done|]. rewrite up_child in E. by apply (Hz g).
Qed.

(** ** Order *)

Lemma swapped_member f p q x : p <> q -> member (swapped f p q) x <-> member f x.
Proof.
  intros Hpq. split.
  - intros [r Hr]. apply swapped_inv in Hr as [[_ H]|[[_ H]|(_ & _ & H)]]; [by exists q|by exists p|by exists r|done].
  - intros [r Hr]. destruct (decide (r = p)) as [->|Hp]; [exists q; by rewrite swapped_second|].
    destruct (decide (r = q)) as [->|Hq]; [exists p; by rewrite swapped_first|]. exists r. by rewrite swapped_other.
Qed.

(** A swap with a child, and what it leaves alone. *)
Lemma swap_child h f b p x y : linked h f -> f p = Some x -> f (child b p) = Some y ->
  exists h', heap_swap h x y = Some h' /\ linked h' (swapped f p (child b p)) /\ nelts h' = nelts h /\
    forall z, ~ member f z -> nodes h' z = nodes h z.
Proof.
  intros Hf Hx Hy. destruct (swap_linked h f Hf b p x y Hx Hy) as (h' & E & Hl & Hn).
  destruct (swap_nodes h f Hf b p x y Hx Hy) as (h2 & E2 & _ & _ & _ & _ & Hz). rewrite E in E2. injection E2 as <-.
  exists h'. split_and!; [done|done|done|]. intros z Hm.
  assert (Hno : forall r, f r <> Some z) by (intros r Hr; apply Hm; by exists r).
  rewrite Hz by (intros ->; by eapply Hno).
  rewrite !decide_False; [by destruct (nodes h z)| | | |apply Hno].
  - intros (Hu & _). destruct (position_cases p) as [->|(c & g & ->)]; [done|]. rewrite up_child in Hu. by apply (Hno g).
  - intros [Hu _]. destruct (position_cases p) as [->|(c & g & ->)]; [done|]. rewrite up_child in Hu. by apply (Hno g).
  - intros [H|H]; by eapply Hno.
Qed.

Section Order.
Context (key : nat -> Z).
Implicit Types f : positive -> option nat.

Definition edge_ok f (p : positive) (b : bool) : Prop :=
  forall x y, f p = Some x -> f (child b p) = Some y -> key x <= key y.
Definition ordered f : Prop := forall p b, edge_ok f p b.

(** The parent of [r] is not above its children. *)
Definition spans f (r : positive) : Prop :=
  forall c g b x y, r = child c g -> f g = Some x -> f (child b r) = Some y -> key x <= key y.
(** Only the edge above [r], only the edges at [r], may be out of order. *)
Definition but_above f r : Prop := (forall p b, child b p <> r -> edge_ok f p b) /\ spans f r.
Definition but_around f r : Prop := (forall p b, child b p <> r -> p <> r -> edge_ok f p b) /\ spans f r.

(** The same set of nodes, in a heap of the same size; the others are untouched. *)
Definition same_nodes (h : heap) f (h' : heap) f' : Prop :=
  linked h' f' /\ nelts h' = nelts h /\ (forall x, member f' x <-> member f x) /\
  forall z, ~ member f z -> nodes h' z = nodes h z.

Lemma same_refl h f : linked h f -> same_nodes h f h f.
Proof. done. Qed.
Lemma same_trans h f h1 f1 h2 f2 : same_nodes h f h1 f1 -> same_nodes h1 f1 h2 f2 -> same_nodes h f h2 f2.
Proof.
  intros (A1 & A2 & A3 & A4) (B1 & B2 & B3 & B4). split; [done|]. split; [congruence|]. split; [intros x; by rewrite B3|].
  intros z Hz. rewrite B4 by (by rewrite A3). by apply A4.
Qed.

Lemma swap_same h f b p x y : linked h f -> f p = Some x -> f (child b p) = Some y ->
  exists h', heap_swap h x y = Some h' /\ same_nodes h f h' (swapped f p (child b p)).
Proof.
  intros Hf Hx Hy. destruct (swap_child h f b p x y Hf Hx Hy) as (h' & E & Hl & Hn & Ho). exists h'. split; [done|].
  split_and!; [done|done| |done]. intros z. apply swapped_member. intros E'. symmetry in E'. by apply (child_neq b p).
Qed.

(** Swapping a child that belongs above its parent, going up. *)
Lemma swap_up f c g v w : f g = Some w -> f (child c g) = Some v -> key v < key w -> but_above f (child c g) ->
  but_above (swapped f g (child c g)) g.
Proof.
  intros Hw Hv Hlt [He Hs]. set (r := child c g) in *. assert (Hgr : g <> r) by (intros E; symmetry in E; by apply (child_neq c g)).
  assert (Hsib : forall y, f (child (negb c) g) = Some y -> key w <= key y).
  { intros y Hy. apply (He g (negb c)); [|done|done]. intros E. apply child_inj in E as [E _]. by destruct c. }
  assert (Hch : forall b y, swapped f g r (child b g) = Some y -> key w <= key y).
  { intros b y Hy. destruct (decide (b = c)) as [->|Hb].
    - unfold r in Hy. rewrite swapped_second in Hy. fold r in Hy. assert (y = w) as -> by congruence. lia.
    - assert (b = negb c) as -> by (by destruct b, c). rewrite swapped_other in Hy; [by apply Hsib|apply child_neq|].
      intros E. apply child_inj in E as [E _]. by destruct c. }
  split.
  - intros p b Hp x y Hx Hy. destruct (decide (p = g)) as [->|Hpg].
    { rewrite swapped_first in Hx by done. assert (x = v) as -> by congruence. pose proof (Hch b y Hy). lia. }
    destruct (decide (p = r)) as [->|Hpr].
    { rewrite swapped_second in Hx. assert (x = w) as -> by congruence.
      rewrite swapped_other in Hy; [|unfold r; destruct b, c; cbn; lia|apply child_neq]. by apply (Hs c g b w y). }
    rewrite swapped_other in Hx by done.
    assert (Hcr : child b p <> r) by (intros E; apply child_inj in E as [_ E]; congruence).
    rewrite swapped_other in Hy by done. by apply (He p b Hcr).
  - intros c' gg b x y -> Hx Hy.
    assert (Hgg : gg <> child c' gg) by (intros E; symmetry in E; by apply (child_neq c' gg)).
    rewrite swapped_other in Hx; [|done|unfold r; destruct c, c'; cbn; lia].
    assert (key x <= key w). { apply (He gg c'); [|done|done]. unfold r. intros E. symmetry in E. by apply (child_neq c (child c' gg)). }
    pose proof (Hch b y Hy). lia.
Qed.

Lemma sift_up_ok fuel : forall h f r v, linked h f -> f r = Some v -> but_above f r -> (Pos.to_nat r <= fuel)%nat ->
  exists h' f', sift_up key fuel h v = Some h' /\ same_nodes h f h' f' /\ ordered f'.
Proof.
  induction fuel as [|fuel IH]; intros h f r v Hf Hv Hr Hfuel; [lia|]. cbn [sift_up]. rewrite (linked_node h f Hf _ _ Hv). cbn [parent].
  destruct (position_cases r) as [->|(c & g & ->)].
  - exists h, f. split; [done|]. split; [by apply same_refl|]. intros p b. apply Hr. by destruct b.
  - rewrite up_child. destruct (dom_parent h f Hf c g) as [w Hw]; [by rewrite Hv|]. rewrite Hw. unfold compare. case_bool_decide as Hlt.
    + destruct (swap_same h f c g w v Hf Hw Hv) as (h1 & -> & Hs1). cbn [mbind option_bind].
      destruct (IH h1 (swapped f g (child c g)) g v) as (h' & f' & E & Hs2 & Ho).
      * apply Hs1.
      * rewrite swapped_first; [done|]. intros E. symmetry in E. by apply (child_neq c g).
      * by apply (swap_up f c g v w).
      * destruct c; cbn in Hfuel; lia.
      * exists h', f'. split; [done|]. split; [by eapply same_trans|done].
    + exists h, f. split; [done|]. split; [by apply same_refl|]. intros p b. destruct (decide (child b p = child c g)) as [E|E]; [|by apply Hr].
      apply child_inj in E as [-> ->]. intros x y Hx Hy. assert (x = w) as -> by congruence. assert (y = v) as -> by congruence. lia.
Qed.

(** The least of a node and its children. *)
Lemma est_ok h f r v : linked h f -> f r = Some v ->
  (est key h v = v /\ forall b y, f (child b r) = Some y -> key v <= key y) \/
  (exists b w, est key h v = w /\ f (child b r) = Some w /\ key w <= key v /\ forall b' y, f (child b' r) = Some y -> key w <= key y).
Proof.
  intros Hf Hv. unfold est. rewrite (linked_node h f Hf _ _ Hv). cbn [left right]. unfold compare.
  assert (Hb : forall (P : Z -> Prop), (forall y, f (xO r) = Some y -> P (key y)) -> (forall y, f (xI r) = Some y -> P (key y)) ->
    forall b y, f (child b r) = Some y -> P (key y)) by (intros P H0 H1 [] y; [apply H1|apply H0]).
  destruct (f (xO r)) as [l|] eqn:El; [case_bool_decide as Hl|]; (destruct (f (xI r)) as [t|] eqn:Et; [case_bool_decide as Ht|]).
  all: try (left; split; [done|]; apply Hb; intros y; intros [= <-] || intros [=]; lia).
  all: right.
  - exists true, t. split_and!; [done|done|lia|]. apply (Hb (fun k => key t <= k)); intros y [= <-]; lia.
  - exists false, l. split_and!; [done|done|lia|]. apply (Hb (fun k => key l <= k)); intros y [= <-]; lia.
  - exists true, t. split_and!; [done|done|lia|]. apply (Hb (fun k => key t <= k)); intros y [= <-]; lia.
  - exists false, l. split_and!; [done|done|lia|]. apply (Hb (fun k => key l <= k)); intros y; [intros [= <-]; lia|done].
  - exists true, t. split_and!; [done|done|lia|]. apply (Hb (fun k => key t <= k)); intros y; [done|intros [= <-]; lia].
Qed.

(** Swapping the least child up, going down. *)
Lemma swap_down f b r v w : f r = Some v -> f (child b r) = Some w -> key w <= key v ->
  (forall b' y, f (child b' r) = Some y -> key w <= key y) -> but_around f r ->
  but_around (swapped f r (child b r)) (child b r).
Proof.
  intros Hv Hw Hwv Hmin [He Hs]. set (q := child b r) in *. assert (Hrq : r <> q) by (intros E; symmetry in E; by apply (child_neq b r)).
  split.
  - intros p b' Hp Hpq x y Hx Hy. destruct (decide (p = r)) as [->|Hpr].
    { rewrite swapped_first in Hx by done. assert (x = w) as -> by congruence.
      rewrite swapped_other in Hy; [by apply (Hmin b')|apply child_neq|done]. }
    rewrite swapped_other in Hx by done. destruct (decide (child b' p = r)) as [E|E].
    { rewrite E, swapped_first in Hy by done. assert (y = w) as -> by congruence. by apply (Hs b' p b x w). }
    rewrite swapped_other in Hy by done. by apply (He p b').
  - intros c g b' x y Eq Hx Hy. apply child_inj in Eq as [<- <-]. rewrite swapped_first in Hx by done.
    assert (x = w) as -> by congruence.
    rewrite swapped_other in Hy; [|unfold q; destruct b, b'; cbn; lia|apply child_neq].
    apply (He q b'); [unfold q; destruct b, b'; cbn; lia|congruence|done|done].
Qed.

Lemma sift_down_ok fuel : forall h f r v, linked h f -> f r = Some v -> but_around f r ->
  (Z.to_nat (nelts h) < fuel + Pos.to_nat r)%nat ->
  exists h' f' r', sift_down key fuel h v = Some h' /\ same_nodes h f h' f' /\ f' r' = Some v /\ but_above f' r'.
Proof.
  induction fuel as [|fuel IH]; intros h f r v Hf Hv Hr Hfuel.
  { assert (Zpos r <= nelts h) by (apply (linked_dom h f Hf); by rewrite Hv). lia. }
  cbn [sift_down]. destruct (est_ok h f r v Hf Hv) as [[E Hmin]|(b & w & E & Hw & Hwv & Hmin)].
  - rewrite decide_True by done. exists h, f, r. split; [done|]. split; [by apply same_refl|]. split; [done|]. split; [|apply Hr].
    intros p b Hp x y Hx Hy. destruct (decide (p = r)) as [->|Hpr]; [|by apply (proj1 Hr p b)].
    assert (x = v) as -> by congruence. by apply (Hmin b).
  - rewrite E. rewrite decide_False by (intros ->; apply (child_neq b r); by eapply (linked_inj h f Hf)).
    destruct (swap_same h f b r v w Hf Hv Hw) as (h1 & -> & Hs1). cbn [mbind option_bind].
    destruct (IH h1 (swapped f r (child b r)) (child b r) v) as (h' & f' & r' & E' & Hs2 & Hv' & Ho).
    + apply Hs1.
    + by rewrite swapped_second.
    + by apply (swap_down f b r v w).
    + destruct Hs1 as (_ & -> & _). destruct b; cbn; lia.
    + exists h', f', r'. split_and!; [done|by eapply same_trans|done|done].
Qed.

(** ** The contract *)

Definition idle (h : heap) (z : nat) : Prop := nodes h z = mkNode None None None.

(** The heap holds the nodes [S], in order; the links of the other nodes are NULL. *)
Definition implements (h : heap) (S : gset nat) : Prop :=
  nelts h = Z.of_nat (size S) /\
  exists f, linked h f /\ ordered f /\ (forall x, member f x <-> x ∈ S) /\ forall z, z ∉ S -> idle h z.

Lemma linked_ext h h' f : linked h f -> root h' = root h -> nelts h' = nelts h ->
  (forall z, member f z -> nodes h' z = nodes h z) -> linked h' f.
Proof.
  intros Hf Hr Hn Hz. split.
  - intros p. rewrite Hn. apply (linked_dom h f Hf).
  - apply (linked_inj h f Hf).
  - intros p x Hx. rewrite Hz by (by exists p). by apply (linked_node h f Hf).
  - rewrite Hr. apply (linked_root h f Hf).
Qed.

Lemma put_member f q y z : f q = None -> member (put f q (Some y)) z <-> z = y \/ member f z.
Proof.
  intros Hq. split.
  - intros [r Hr]. unfold put in Hr. case_decide; [left; congruence | right; by exists r].
  - intros [->|[r Hr]]; [exists q; by rewrite put_same|]. exists r. rewrite put_other; [done|]. intros ->. by rewrite Hq in Hr.
Qed.

Lemma heap_init_ok : implements heap_init ∅.
Proof.
  split; [by rewrite size_empty|]. exists (fun _ => None). split; [split; cbn; [|done|done|done]|].
  - intros p. split; [by intros []|lia].
  - split; [by intros p b x y [=]|]. split; [|done]. intros x. split; [by intros [p [=]]|set_solver].
Qed.

Lemma insert_ok h S x : implements h S -> x ∉ S ->
  exists h', heap_insert key h x = Some h' /\ implements h' ({[x]} ∪ S).
Proof.
  intros (Hs & f & Hf & Ho & Hm & Hi) Hx. pose proof (Hi x Hx) as Ix. unfold idle in Ix.
  assert (Hnx : forall p, f p <> Some x) by (intros p E; apply Hx, Hm; by exists p).
  destruct (heap_link_ok h f x (Z.to_pos (nelts h + 1)) Hf Hnx) as (h1 & E1 & Hl1 & Hn1 & Hz1); [by rewrite Ix|by rewrite Ix|lia|].
  set (q := Z.to_pos (nelts h + 1)) in *. assert (Hq : f q = None) by (apply (linked_none h f); [done|lia]).
  assert (Hcq : forall b, put f q (Some x) (child b q) = None) by (intros b; apply (linked_none h1); [done|destruct b; cbn; lia]).
  destruct (sift_up_ok (sift_fuel h1) h1 (put f q (Some x)) q x Hl1) as (h' & f' & E' & (Hl' & Hn' & Hm' & Hz') & Ho').
  - apply put_same.
  - split; [|by intros c g b u w _ _ E; rewrite Hcq in E]. intros p b Hp u w Hu Hw. destruct (decide (p = q)) as [->|Hpq]; [by rewrite Hcq in Hw|].
    rewrite put_other in Hu, Hw by done. by apply (Ho p b).
  - unfold sift_fuel. lia.
  - exists h'. split; [unfold heap_insert; rewrite E1; exact E'|].
    split; [rewrite Hn', Hn1, size_union, size_singleton by set_solver; lia|]. exists f'. split; [done|]. split; [done|].
    assert (Hmem : forall z, member f' z <-> z ∈ {[x]} ∪ S) by (intros z; rewrite Hm', put_member, Hm by done; set_solver).
    split; [exact Hmem|]. intros z Hz. unfold idle. rewrite Hz' by (by rewrite <- Hm', Hmem).
    rewrite Hz1; [apply Hi; set_solver|set_solver|rewrite Hm; set_solver].
Qed.

(** Removing the last node: it replaces itself, which has no effect on the rest. *)
Lemma replace_self h f m x p : linked h f -> ~ member f x -> f m = Some p ->
  nodes h x = mkNode (Some p) None None ->
  linked (heap_replace h x x) f /\ nelts (heap_replace h x x) = nelts h /\
  forall z, z <> x -> nodes (heap_replace h x x) z = nodes h z.
Proof.
  intros Hf Hx Hm Nx. assert (Hp : forall q, f q <> Some x) by (intros q E; apply Hx; by exists q).
  assert (E1 : relink h x (Some x) = h).
  { unfold relink. rewrite Nx. cbn [parent]. rewrite (linked_node h f Hf _ _ Hm). cbn [left right]. by rewrite !decide_False by apply Hp. }
  assert (Hz : forall z, z <> x -> nodes (heap_replace h x x) z = nodes h z).
  { intros z Hz. unfold heap_replace. rewrite E1. cbn [with_nodes nodes]. rewrite set_right_ne, set_left_ne, set_parent_ne by congruence.
    rewrite (set_parent_ne (nodes h) (left (nodes h x))) by (by rewrite Nx). rewrite set_parent_ne by (by rewrite Nx). rewrite set_parent_ne by (by rewrite Nx). done. }
  split; [|split; [|exact Hz]].
  - apply (linked_ext h); [done| | |].
    + unfold heap_replace. by rewrite E1.
    + unfold heap_replace. by rewrite E1.
    + intros z [q Hq]. apply Hz. intros ->. by apply (Hp q).
  - unfold heap_replace. by rewrite E1.
Qed.

(** The links of a node outside of the heap may be cleared. *)
Definition cleared (h : heap) (x : nat) : heap :=
  with_nodes h (set_right (set_left (set_parent (nodes h) (Some x) None) (Some x) None) (Some x) None).

Lemma cleared_ok h f x : linked h f -> ~ member f x ->
  linked (cleared h x) f /\ idle (cleared h x) x /\ forall z, z <> x -> nodes (cleared h x) z = nodes h z.
Proof.
  intros Hf Hx. assert (Hz : forall z, z <> x -> nodes (cleared h x) z = nodes h z).
  { intros z Hz. cbn. by rewrite set_right_ne, set_left_ne, set_parent_ne by congruence. }
  split; [|split; [|exact Hz]].
  - apply (linked_ext h); [done|done|done|]. intros z Hm. apply Hz. intros ->. by apply Hx.
  - unfold idle. cbn. by rewrite set_right_eq, set_left_eq, set_parent_eq by done.
Qed.

(** Both loops, from a node that may be out of place. *)
Lemma sift_ok h f r v : linked h f -> f r = Some v -> but_around f r ->
  exists h', (h ← sift_down key (sift_fuel h) h v; sift_up key (sift_fuel h) h v) = Some h' /\
    exists f', same_nodes h f h' f' /\ ordered f'.
Proof.
  intros Hf Hv Hr. destruct (sift_down_ok (sift_fuel h) h f r v Hf Hv Hr) as (h1 & f1 & r1 & -> & Hs & Hv1 & Hr1).
  { unfold sift_fuel. lia. }
  cbn [mbind option_bind]. destruct (sift_up_ok (sift_fuel h1) h1 f1 r1 v) as (h' & f' & E & Hs' & Ho); [apply Hs|done|done| |].
  { assert (Zpos r1 <= nelts h1) by (apply (linked_dom h1 f1); [apply Hs|by rewrite Hv1]). unfold sift_fuel. lia. }
  exists h'. split; [exact E|]. exists f'. split; [by eapply same_trans|done].
Qed.

(** What is between a node and its replacement by the last. *)
Lemma replaced_around f r q x y : ordered f -> f r = Some x -> r <> q -> f q = Some y ->
  but_around (put (put f q None) r (Some y)) r.
Proof.
  intros Ho Hx Hrq Hq. split.
  - intros p b Hp Hpr u w. rewrite !(put_other _ r) by done. intros [_ Hu]%put_none_inv [_ Hw]%put_none_inv. by apply (Ho p b).
  - intros c g b u w -> Hu Hw. rewrite put_other in Hu by (intros E; symmetry in E; by apply (child_neq c g)).
    rewrite put_other in Hw by apply child_neq. apply put_none_inv in Hu as [_ Hu]. apply put_none_inv in Hw as [_ Hw].
    transitivity (key x); [by apply (Ho g c) | by apply (Ho (child c g) b)].
Qed.

Lemma put_none_member f q y z : (forall p, f p = Some y <-> p = q) -> member (put f q None) z <-> member f z /\ z <> y.
Proof.
  intros Hq. split.
  - intros [r [Hr Hz]%put_none_inv]. split; [by exists r|]. intros ->. by apply Hr, Hq.
  - intros [[r Hr] Hz]. exists r. rewrite put_other; [done|]. intros ->. apply Hz. assert (f q = Some y) by by apply Hq. congruence.
Qed.

(** [x], replaced by the last node [y], which was unlinked from [q]. *)
Lemma remove_tail h f q r m x y p : linked h (put f q None) -> ordered f -> (forall u v z, f u = Some z -> f v = Some z -> u = v) ->
  f r = Some x -> f q = Some y -> m <> q -> f m = Some p -> nodes h y = mkNode (Some p) None None ->
  let h2 := cleared (heap_replace h x y) x in
  exists h', (h ← sift_down key (sift_fuel h2) h2 y; sift_up key (sift_fuel h) h y) = Some h' /\
    exists f', linked h' f' /\ ordered f' /\ nelts h' = nelts h /\ (forall z, member f' z <-> member f z /\ z <> x) /\
      idle h' x /\ forall z, ~ member f z -> nodes h' z = nodes h z.
Proof.
  intros Hl Ho Hinj Hx Hy Hmq Hp Ny h2.
  assert (Hmy : forall z, member (put f q None) z <-> member f z /\ z <> y).
  { intros z. apply put_none_member. intros u. split; [intros Hu; by eapply Hinj|by intros ->]. }
  destruct (decide (x = y)) as [->|Hxy].
  - assert (Hny : ~ member (put f q None) y) by (intros [_ []]%Hmy; done).
    destruct (replace_self h (put f q None) m y p Hl Hny) as (Hl1 & Hn1 & Hz1); [by rewrite put_other|done|].
    destruct (cleared_ok _ _ y Hl1 Hny) as (Hl2 & Hi2 & Hz2). fold h2 in Hl2, Hi2, Hz2. assert (Hn2 : nelts h2 = nelts h) by done. clearbody h2. pose proof Hi2 as Nh. unfold idle in Nh.
    assert (sift_down key (sift_fuel h2) h2 y = Some h2) as ->.
    { unfold sift_fuel. cbn [sift_down]. unfold est. rewrite Nh. cbn [left right]. by rewrite decide_True. }
    cbn [mbind option_bind]. unfold sift_fuel. cbn [sift_up]. rewrite Nh. cbn [parent]. exists h2. split; [done|].
    exists (put f q None). split_and!; [done| |done|done|done|].
    + intros u b v w [_ Hv]%put_none_inv [_ Hw]%put_none_inv. by apply (Ho u b).
    + intros z Hz. rewrite Hz2, Hz1; [done| |]; intros ->; apply Hz; by exists q.
  - assert (Hrq : r <> q) by (intros ->; congruence).
    assert (Hny : forall u, put f q None u <> Some y) by (intros u Hu; by destruct (proj1 (Hmy y)) as [_ []]; [exists u|]).
    destruct (replace_ok h (put f q None) r x y Hl) as (Hl1 & Hn1 & Hz1); [by rewrite put_other|done|].
    assert (Hm2 : forall z, member (put (put f q None) r (Some y)) z <-> member f z /\ z <> x).
    { intros z. split.
      - intros [u Hu]. destruct (decide (u = r)) as [->|Hur].
        + rewrite put_same in Hu. injection Hu as <-. split; [by exists q|done].
        + rewrite put_other in Hu by done. apply put_none_inv in Hu as [_ Hu]. split; [by exists u|]. intros ->. apply Hur. by eapply Hinj.
      - intros [[u Hu] Hz]. destruct (decide (u = q)) as [->|Huq]; [exists r; rewrite put_same; congruence|].
        exists u. rewrite !put_other; [done|done|]. intros ->. congruence. }
    destruct (cleared_ok _ _ x Hl1) as (Hl2 & Hi2 & Hz2); [by intros [_ []]%Hm2|]. fold h2 in Hl2, Hi2, Hz2.
    destruct (sift_ok h2 _ r y Hl2) as (h' & E & f' & (Hl' & Hn' & Hm' & Hz') & Ho'); [by rewrite put_same|by eapply replaced_around|].
    exists h'. split; [exact E|]. exists f'. split_and!; [done|done| | | |].
    + rewrite Hn'. exact Hn1.
    + intros z. by rewrite Hm'.
    + unfold idle. rewrite Hz'; [done|]. by intros [_ []]%Hm2.
    + intros z Hz. rewrite Hz' by (by intros [? _]%Hm2). rewrite Hz2 by (intros ->; apply Hz; by exists r).
      apply Hz1; [intros ->; apply Hz; by exists q|]. intros u [_ Hu]%put_none_inv. apply Hz. by exists u.
Qed.

Lemma remove_ok h S x : implements h S -> x ∈ S ->
  exists h', heap_remove key h x = Some h' /\ implements h' (S ∖ {[x]}).
Proof.
  intros (Hs & f & Hf & Ho & Hm & Hi) Hx. destruct (proj2 (Hm x) Hx) as [r Hr].
  assert (Hsz : size (S ∖ {[x]}) = (size S - 1)%nat) by (rewrite size_difference by set_solver; by rewrite size_singleton).
  assert (Hn : 0 < nelts h) by (assert (Zpos r <= nelts h) by (apply (linked_dom h f Hf); by rewrite Hr); lia).
  unfold heap_remove. rewrite decide_False by lia. set (q := Z.to_pos (nelts h)). assert (Hq : nelts h = Zpos q) by lia.
  rewrite Hq. destruct (position_cases q) as [Eq|(b & m & Eq)].
  - assert (Zpos r <= nelts h) by (apply (linked_dom h f Hf); by rewrite Hr). assert (r = xH) as -> by lia.
    assert (Hnone : forall p, p <> xH -> f p = None) by (intros p Hp; apply (linked_none h f); [done|lia]).
    pose proof (linked_node h f Hf _ _ Hr) as Nx. cbn [up] in Nx. rewrite !Hnone in Nx by done.
    rewrite Eq. change (path_loop _ _ 0 0) with (0, 0). cbv beta iota.
    change (walk (levels 1) ?h1 ?o 0 0) with (Some (o, 0)). cbn [with_nelts root]. rewrite (linked_root h f Hf), Hr.
    cbn [mbind option_bind]. change (bool_decide (Z.land 0 1 <> 0)) with false. cbn [with_nelts nodes]. rewrite Nx.
    cbn [left with_nodes with_nelts root]. rewrite (linked_root h f Hf), Hr, decide_True by done.
    eexists. split; [reflexivity|]. split; [cbn; lia|]. exists (fun _ => None). split.
    { split; cbn; [|done|done|done]. intros p. split; [by intros []|lia]. }
    assert (S = {[x]}) as ->.
    { apply set_eq. intros z. rewrite <- Hm, elem_of_singleton. split; [|intros ->; by exists xH].
      intros [p Hp]. destruct (decide (p = xH)) as [->|Hp1]; [congruence|by rewrite Hnone in Hp]. }
    split; [by intros p b u w [=]|]. split; [intros z; split; [by intros [p [=]]|set_solver]|].
    intros z _. unfold idle. cbn. destruct (decide (z = x)) as [->|Hz]; [by rewrite set_left_eq, Nx by done|].
    rewrite set_left_ne by congruence. apply Hi. set_solver.
  - assert (Hm' : is_Some (f m)) by (apply (linked_dom h f Hf); destruct b; cbn in Eq; lia). destruct Hm' as [p Hp].
    assert (is_Some (f q)) as [y Hy] by (apply (linked_dom h f Hf); lia).
    pose proof (walk_linked h f b m (nelts h - 1) Hf) as Hw. rewrite <- Eq, Hp, Hq in Hw. specialize (Hw ltac:(by eexists)).
    destruct (path_loop _ _ 0 0) as [path d]. cbn [root with_nelts]. rewrite Hw. cbn [mbind option_bind]. clear Hw path d.
    pose proof (unlink_ok h f b m p Hf) as Hl. rewrite <- Eq, Hq in Hl. specialize (Hl eq_refl Hp).
    set (h1 := with_nodes _ (if b then _ else _)) in Hl. assert (Eb : bool_decide (Z.land (Z.b2z b) 1 <> 0) = b) by (by destruct b).
    rewrite Eb. cbn [nodes with_nelts].
    assert ((if b then right (nodes h p) else left (nodes h p)) = Some y) as ->.
    { rewrite (linked_node h f Hf _ _ Hp). rewrite Eq in Hy. by destruct b. }
    assert (Hpy : p <> y) by (intros ->; apply (child_neq b m); rewrite <- Eq; by eapply (linked_inj h f Hf)).
    destruct (remove_tail h1 f q r m x y p Hl Ho) as (h' & E & f' & Hl' & Ho' & Hn' & Hm' & Hx' & Hz'); try done.
    + apply (linked_inj h f Hf).
    + rewrite Eq. intros E. symmetry in E. by apply (child_neq b m).
    + assert (nodes h1 y = nodes h y) as ->.
      { unfold h1. cbn. destruct b; [by rewrite set_right_ne by congruence|by rewrite set_left_ne by congruence]. }
      rewrite (linked_node h f Hf _ _ Hy), Eq, up_child, Hp.
      assert (Hc : forall c, f (child c (child b m)) = None) by (intros c; apply (linked_none h f); [done|destruct b, c; cbn in *; lia]).
      by rewrite (Hc false : f (xO _) = None), (Hc true : f (xI _) = None).
    + exists h'. split; [exact E|]. split; [rewrite Hn'; cbn; lia|]. exists f'. split; [done|]. split; [done|].
      assert (Hmem : forall z, member f' z <-> z ∈ S ∖ {[x]}) by (intros z; rewrite Hm', Hm; set_solver).
      split; [done|]. intros z Hz. destruct (decide (z = x)) as [->|Hzx]; [done|]. assert (HzS : z ∉ S) by set_solver.
      unfold idle. rewrite Hz' by (by rewrite Hm). pose proof (Hi z HzS) as Iz. unfold idle in Iz.
      assert (p <> z) by (intros ->; apply HzS, Hm; by exists m).
      unfold h1. cbn. destruct b; [by rewrite set_right_ne by congruence|by rewrite set_left_ne by congruence].
Qed.

(** ** The root *)

Lemma ordered_above h f p x : linked h f -> ordered f -> f p = Some x -> exists m, f xH = Some m /\ key m <= key x.
Proof.
  intros Hf Ho. revert x. induction p as [p IH|p IH|]; intros x Hx; [| |by exists x].
  - destruct (dom_parent h f Hf true p) as [y Hy]; [by exists x|]. destruct (IH y Hy) as (m & Hm & Hle). exists m.
    split; [done|]. transitivity (key y); [done|]. by apply (Ho p true y x).
  - destruct (dom_parent h f Hf false p) as [y Hy]; [by exists x|]. destruct (IH y Hy) as (m & Hm & Hle). exists m.
    split; [done|]. transitivity (key y); [done|]. by apply (Ho p false y x).
Qed.

(** [o] is a least element of [S]: NULL for none. *)
Definition least (S : gset nat) (o : option nat) : Prop :=
  match o with None => S = ∅ | Some m => m ∈ S /\ forall y, y ∈ S -> key m <= key y end.

Lemma root_ok h S : implements h S -> least S (root h).
Proof.
  intros (_ & f & Hf & Ho & Hm & _). rewrite (linked_root h f Hf). destruct (f xH) as [m|] eqn:E.
  - split; [apply Hm; by exists xH|]. intros y [p Hp]%Hm. destruct (ordered_above h f p y Hf Ho Hp) as (m' & E' & Hle). congruence.
  - cbn. apply elem_of_equiv_empty_L. intros x [p Hp]%Hm. destruct (ordered_above h f p x Hf Ho Hp) as (m & E' & _). congruence.
Qed.
End Order.

(** The order depends on the keys of the nodes of the heap only. *)
Lemma implements_key key key' h S : (forall x, x ∈ S -> key' x = key x) -> implements key h S -> implements key' h S.
Proof.
  intros Hk (Hs & f & Hf & Ho & Hm & Hi). split; [done|]. exists f. split_and!; try done.
  intros p b x y Hx Hy. rewrite !Hk by (apply Hm; by eexists). by apply (Ho p b).
Qed.

(** ** The interface of a heap

    What the event loop uses of it: a set of nodes ordered by a key, where a least
    node is at hand. *)

Class MinSet (H : Type) := {
  ms_empty : H;
  ms_root : H -> option nat;
  ms_insert : (nat -> Z) -> H -> nat -> option H;
  ms_remove : (nat -> Z) -> H -> nat -> option H;
  ms_dequeue : (nat -> Z) -> H -> option H;
}.

Class MinSetLaws (H : Type) `{MinSet H} (holds : (nat -> Z) -> H -> gset nat -> Prop) : Prop := {
  law_ms_empty key : holds key ms_empty ∅;
  law_ms_root key h S : holds key h S -> least key S (ms_root h);
  law_ms_insert key h S x : holds key h S -> x ∉ S -> exists h', ms_insert key h x = Some h' /\ holds key h' ({[x]} ∪ S);
  law_ms_remove key h S x : holds key h S -> x ∈ S -> exists h', ms_remove key h x = Some h' /\ holds key h' (S ∖ {[x]});
  law_ms_dequeue key h S x : holds key h S -> ms_root h = Some x -> exists h', ms_dequeue key h = Some h' /\ holds key h' (S ∖ {[x]});
  law_ms_key key key' h S : (forall x, x ∈ S -> key' x = key x) -> holds key h S -> holds key' h S;
}.

#[export] Instance heap_min_set : MinSet heap := {
  ms_empty := heap_init;
  ms_root := root;
  ms_insert := heap_insert;
  ms_remove := heap_remove;
  ms_dequeue := heap_dequeue;
}.

#[export] Instance heap_min_set_laws : MinSetLaws heap implements.
Proof.
  split; [apply heap_init_ok | apply root_ok | apply insert_ok | apply remove_ok | | apply implements_key].
  intros key h S x Hi Hx. cbn in *. unfold heap_dequeue. rewrite Hx. apply remove_ok; [done|].
  pose proof (root_ok key h S Hi) as Hr. rewrite Hx in Hr. apply Hr.
Qed.

(** ** Sequences of operations *)

Inductive heap_op := Insert (x : nat) | Remove (x : nat) | Dequeue.

(** The operation, and the node that [Dequeue] takes. *)
Definition heap_exec (key : nat -> Z) (h : heap) (op : heap_op) : option (option nat * heap) :=
  match op with
  | Insert x => h ← heap_insert key h x; Some (None, h)
  | Remove x => h ← heap_remove key h x; Some (None, h)
  | Dequeue => h' ← heap_dequeue key h; Some (root h, h')
  end.

Fixpoint heap_run (key : nat -> Z) (h : heap) (ops : list heap_op) : option (list (option nat) * heap) :=
  match ops with
  | [] => Some ([], h)
  | op :: ops => '(o, h) ← heap_exec key h op; '(os, h) ← heap_run key h ops; Some (o :: os, h)
  end.

(** The same operations on a set. *)
Definition set_exec (key : nat -> Z) (S : gset nat) (op : heap_op) (o : option nat) (S' : gset nat) : Prop :=
  match op with
  | Insert x => o = None /\ S' = {[x]} ∪ S
  | Remove x => o = None /\ S' = S ∖ {[x]}
  | Dequeue => least key S o /\ S' = match o with Some m => S ∖ {[m]} | None => S end
  end.

Inductive set_run (key : nat -> Z) : gset nat -> list heap_op -> list (option nat) -> gset nat -> Prop :=
  | set_run_nil S : set_run key S [] [] S
  | set_run_cons S op ops o os S1 S' : set_exec key S op o S1 -> set_run key S1 ops os S' -> set_run key S (op :: ops) (o :: os) S'.

(** What the callers respect: no node is inserted twice or removed when it is not in. *)
Definition op_valid (S : gset nat) (op : heap_op) : Prop :=
  match op with Insert x => x ∉ S | Remove x => x ∈ S | Dequeue => True end.

Fixpoint ops_valid (key : nat -> Z) (S : gset nat) (ops : list heap_op) : Prop :=
  match ops with
  | [] => True
  | op :: ops => op_valid S op /\ forall o S', set_exec key S op o S' -> ops_valid key S' ops
  end.

Lemma exec_ok key h S op : implements key h S -> op_valid S op ->
  exists o h' S', heap_exec key h op = Some (o, h') /\ set_exec key S op o S' /\ implements key h' S'.
Proof.
  intros Hi Hv. destruct op as [x|x|]; cbn in Hv.
  - destruct (insert_ok key h S x Hi Hv) as (h' & E & Hi'). exists None, h', ({[x]} ∪ S). cbn. by rewrite E.
  - destruct (remove_ok key h S x Hi Hv) as (h' & E & Hi'). exists None, h', (S ∖ {[x]}). cbn. by rewrite E.
  - pose proof (root_ok key h S Hi) as Hr. cbn. unfold heap_dequeue. destruct (root h) as [m|] eqn:Er.
    + destruct (remove_ok key h S m Hi) as (h' & E & Hi'); [apply Hr|]. exists (Some m), h', (S ∖ {[m]}). by rewrite E.
    + cbn in Hr. subst S. destruct Hi as [Hs Hi]. rewrite size_empty in Hs. rewrite decide_True by done. by exists None, h, ∅.
Qed.

(** [C8] From an empty heap, any sequence of [heap_insert], [heap_remove] and
    [heap_dequeue] that inserts only nodes that are out and removes only nodes that
    are in runs without a failed assertion or a NULL dereference, and does what the
    same operations do on a set: every [heap_dequeue] takes a node with the least
    key.  In the end the tree is complete and in heap order, [nelts] is the size of
    the set, the root is a least node (NULL if there is none), and the links of every
    node outside are NULL again. *)
Theorem heap_refines key ops : ops_valid key ∅ ops ->
  exists os h S, heap_run key heap_init ops = Some (os, h) /\ set_run key ∅ ops os S /\
    implements key h S /\ least key S (root h).
Proof.
  assert (H : forall h S, implements key h S -> ops_valid key S ops ->
    exists os h' S', heap_run key h ops = Some (os, h') /\ set_run key S ops os S' /\ implements key h' S').
  { induction ops as [|op ops IH]; intros h S Hi Hv.
    - exists [], h, S. split; [done|]. split; [constructor|done].
    - destruct Hv as [Hv Hrest]. destruct (exec_ok key h S op Hi Hv) as (o & h1 & S1 & E & Hs & Hi1).
      destruct (IH h1 S1 Hi1 (Hrest o S1 Hs)) as (os & h' & S' & E' & Hs' & Hi').
      exists (o :: os), h', S'. cbn. rewrite E. cbn. rewrite E'. cbn. split; [done|]. split; [by econstructor|done]. }
  intros Hv. destruct (H heap_init ∅ (heap_init_ok key) Hv) as (os & h & S & E & Hs & Hi).
  exists os, h, S. split_and!; [done|done|done|by apply root_ok].
Qed.

Lemma heap_refines_witness : exists os h S,
  heap_run Z.of_nat heap_init [Insert 3; Insert 1; Insert 2; Dequeue; Dequeue] = Some (os, h) /\
    set_run Z.of_nat ∅ [Insert 3; Insert 1; Insert 2; Dequeue; Dequeue] os S /\ implements Z.of_nat h S /\ least Z.of_nat S (root h).
Proof.
  apply (heap_refines Z.of_nat [Insert 3; Insert 1; Insert 2; Dequeue; Dequeue]).
  split; [set_solver|]. intros o S [-> ->]. split; [set_solver|]. intros o S [-> ->]. split; [set_solver|].
  intros o S [-> ->]. split; [done|]. intros o S _. split; [done|]. done.
Defined.

(** Nodes out of order, one removed from the middle: the rest leave by their key. *)
Example heap_sorts : fst <$> heap_run (fun x => Z.of_nat x) heap_init
  [Insert 5; Insert 3; Insert 8; Insert 1; Insert 9; Insert 2; Remove 3; Dequeue; Dequeue; Dequeue; Dequeue; Dequeue; Dequeue]
  = Some [None; None; None; None; None; None; None; Some 1; Some 2; Some 5; Some 8; Some 9; None]%nat.
Proof. vm_compute. reflexivity. Qed.
