(* ===== verification/Cron.v ===== *)
(** * The next time of a periodic timer: [cron_next_timeout] of [libs/libhv/base/htime.c]

    The calendar of the C library is a parameter ([localtime], [mktime]); in a zone
    at a constant offset from UTC ([calendar]) the time computed is after the present
    one and at most a period away. *)

From stdpp Require Import base numbers.
From S2P Require Import Prelude.

(** The time pattern of a period, a negative field for any. *)
Record cron := mkCron { minute : Z; hour : Z; day : Z; week : Z; month : Z }.

(** ** The next time of a pattern: [cron_next_timeout] of [base/htime.c] *)

Record tm := mkTm {
  tm_sec : Z; tm_min : Z; tm_hour : Z; tm_mday : Z; tm_mon : Z; tm_year : Z; tm_wday : Z; tm_isdst : Z;
}.

Inductive period_type := MINUTELY | HOURLY | DAILY | WEEKLY | MONTHLY | YEARLY.

Definition SECONDS_PER_MINUTE : Z := 60.
Definition SECONDS_PER_HOUR : Z := 3600.
Definition SECONDS_PER_DAY : Z := 86400.
Definition SECONDS_PER_WEEK : Z := 604800.

Definition with_sec (s : Z) (t : tm) : tm := mkTm s (tm_min t) (tm_hour t) (tm_mday t) (tm_mon t) (tm_year t) (tm_wday t) (tm_isdst t).
Definition with_min (m : Z) (t : tm) : tm := mkTm (tm_sec t) m (tm_hour t) (tm_mday t) (tm_mon t) (tm_year t) (tm_wday t) (tm_isdst t).
Definition with_hour (h : Z) (t : tm) : tm := mkTm (tm_sec t) (tm_min t) h (tm_mday t) (tm_mon t) (tm_year t) (tm_wday t) (tm_isdst t).
Definition with_mday (d : Z) (t : tm) : tm := mkTm (tm_sec t) (tm_min t) (tm_hour t) d (tm_mon t) (tm_year t) (tm_wday t) (tm_isdst t).
Definition with_mon (m : Z) (t : tm) : tm := mkTm (tm_sec t) (tm_min t) (tm_hour t) (tm_mday t) m (tm_year t) (tm_wday t) (tm_isdst t).
Definition with_year (y : Z) (t : tm) : tm := mkTm (tm_sec t) (tm_min t) (tm_hour t) (tm_mday t) (tm_mon t) y (tm_wday t) (tm_isdst t).

Section Cron.
(** The C library: the fields of a time, and the time of fields, which [mktime]
    brings into their ranges. *)
Context (localtime : Z -> tm) (mktime : tm -> Z * tm).

(** The fields before [mktime], and the kind of the period. *)
Definition cron_fields (p : cron) (t : tm) : period_type * tm :=
  let k := MINUTELY in
  let t := with_sec 0 t in
  let '(k, t) := if decide (minute p >= 0) then (HOURLY, with_min (minute p) t) else (k, t) in
  let '(k, t) := if decide (hour p >= 0) then (DAILY, with_hour (hour p) t) else (k, t) in
  if decide (week p >= 0) then (WEEKLY, t)
  else if decide (day p > 0) then
    let t := with_mday (day p) t in
    if decide (month p > 0) then (YEARLY, with_mon (month p - 1) t) else (MONTHLY, t)
  else (k, t).

(** [tt]: what [time] answers. *)
Definition cron_next_timeout (p : cron) (tt : Z) : Z :=
  let '(k, t) := cron_fields p (localtime tt) in
  let '(tt_round, t) := mktime t in
  let tt_round := if decide (week p >= 0) then tt_round + (week p - tm_wday t) * SECONDS_PER_DAY else tt_round in
  if decide (tt_round > tt) then tt_round
  else
    match k with
    | MINUTELY => tt_round + SECONDS_PER_MINUTE
    | HOURLY => tt_round + SECONDS_PER_HOUR
    | DAILY => tt_round + SECONDS_PER_DAY
    | WEEKLY => tt_round + SECONDS_PER_WEEK
    | MONTHLY =>
        let t := with_mon (tm_mon t + 1) t in
        let t := if decide (tm_mon t = 12) then with_year (tm_year t + 1) (with_mon 0 t) else t in
        fst (mktime t)
    | YEARLY => fst (mktime (with_year (tm_year t + 1) t))
    end.
End Cron.

(** What [htimer_add_period] lets in. *)
Definition pattern_ok (p : cron) : Prop := minute p <= 59 /\ hour p <= 23 /\ day p <= 31 /\ week p <= 6 /\ month p <= 12.


(** ** A calendar without daylight saving time *)

(** [M i] is the first second of month [i mod 12] of year [i / 12]. *)
Record calendar (localtime : Z -> tm) (mktime : tm -> Z * tm) (M : Z -> Z) : Prop := {
  cal_days i : exists n, 28 <= n <= 31 /\ M (i + 1) = M i + n * SECONDS_PER_DAY;
  cal_mktime t : fst (mktime t) = M (12 * tm_year t + tm_mon t) + SECONDS_PER_DAY * (tm_mday t - 1)
                                  + SECONDS_PER_HOUR * tm_hour t + SECONDS_PER_MINUTE * tm_min t + tm_sec t;
  cal_normal t : snd (mktime t) = localtime (fst (mktime t));
  cal_inverse s : fst (mktime (localtime s)) = s;
  cal_in_month s : M (12 * tm_year (localtime s) + tm_mon (localtime s)) <= s < M (12 * tm_year (localtime s) + tm_mon (localtime s) + 1);
  cal_fields s : 0 <= tm_sec (localtime s) < 60 /\ 0 <= tm_min (localtime s) < 60 /\ 0 <= tm_hour (localtime s) < 24 /\
                 1 <= tm_mday (localtime s) /\ 0 <= tm_mon (localtime s) < 12 /\ 0 <= tm_wday (localtime s) < 7;
  cal_week s n : tm_wday (localtime (s + n * SECONDS_PER_DAY)) = (tm_wday (localtime s) + n) mod 7;
}.

Section Calendar.
Context (localtime : Z -> tm) (mktime : tm -> Z * tm) (M : Z -> Z) (Hcal : calendar localtime mktime M).

Ltac seconds := unfold SECONDS_PER_MINUTE, SECONDS_PER_HOUR, SECONDS_PER_DAY, SECONDS_PER_WEEK in *; lia.

Lemma cal_month i : M i + 28 * SECONDS_PER_DAY <= M (i + 1) <= M i + 31 * SECONDS_PER_DAY.
Proof using Hcal. destruct (cal_days _ _ _ Hcal i) as (n & Hn & ->). seconds. Qed.

Lemma months_add i n : 0 <= n -> M i + n * (28 * SECONDS_PER_DAY) <= M (i + n) <= M i + n * (31 * SECONDS_PER_DAY).
Proof using Hcal.
  revert n. apply natlike_ind; [replace (i + 0) with i by lia; seconds|]. intros n Hn IH. pose proof (cal_month (i + n)).
  replace (i + Z.succ n) with (i + n + 1) by lia. seconds.
Qed.

(** Later months start later. *)
Lemma months_mono i j : i <= j -> M i <= M j.
Proof using Hcal. intros Hij. pose proof (months_add i (j - i)) as Hm. replace (i + (j - i)) with j in Hm by lia. seconds. Qed.

Lemma months_unique i j s : M i <= s < M (i + 1) -> M j <= s < M (j + 1) -> i = j.
Proof using Hcal.
  intros Hi Hj. destruct (Z.lt_trichotomy i j) as [Hlt|[?|Hlt]]; [exfalso|done|exfalso].
  - pose proof (months_mono (i + 1) j). lia.
  - pose proof (months_mono (j + 1) i). lia.
Qed.

(** The longest time to the next occurrence. *)
Definition period_bound (k : period_type) : Z :=
  match k with
  | MINUTELY => SECONDS_PER_MINUTE
  | HOURLY => SECONDS_PER_HOUR
  | DAILY => SECONDS_PER_DAY
  | WEEKLY => SECONDS_PER_WEEK
  | MONTHLY => 31 * SECONDS_PER_DAY
  | YEARLY => 12 * (31 * SECONDS_PER_DAY)
  end.

(** The month of a time. *)
Definition month_of (t : tm) : Z := 12 * tm_year t + tm_mon t.
(** The seconds since the month began. *)
Definition in_month (t : tm) : Z :=
  SECONDS_PER_DAY * (tm_mday t - 1) + SECONDS_PER_HOUR * tm_hour t + SECONDS_PER_MINUTE * tm_min t + tm_sec t.

Lemma mktime_eq t : fst (mktime t) = M (month_of t) + in_month t.
Proof using Hcal. rewrite (cal_mktime _ _ _ Hcal). unfold month_of, in_month. lia. Qed.

(** [mktime] again, for the fields of the same day in a later month. *)
Lemma mktime_later t u : tm_sec u = tm_sec (snd (mktime t)) -> tm_min u = tm_min (snd (mktime t)) -> tm_hour u = tm_hour (snd (mktime t)) ->
  tm_mday u = tm_mday (snd (mktime t)) ->
  fst (mktime u) = fst (mktime t) + (M (month_of u) - M (month_of (snd (mktime t)))).
Proof using Hcal.
  intros Hs Hm Hh Hd. rewrite (mktime_eq u). assert (in_month u = in_month (snd (mktime t))) as -> by (unfold in_month; congruence).
  pose proof (cal_inverse _ _ _ Hcal (fst (mktime t))) as Hi. rewrite <- (cal_normal _ _ _ Hcal), mktime_eq in Hi. lia.
Qed.

Lemma cron_next_bounds p s : pattern_ok p ->
  s < cron_next_timeout localtime mktime p s <= s + period_bound (fst (cron_fields p (localtime s))).
Proof using Hcal.
  intros (Hpm & Hph & Hpd & Hpw & Hpmo). unfold cron_next_timeout.
  pose proof (cal_inverse _ _ _ Hcal s) as Hinv. rewrite mktime_eq in Hinv.
  pose proof (cal_in_month _ _ _ Hcal s) as Hin. fold (month_of (localtime s)) in Hin.
  destruct (cal_fields _ _ _ Hcal s) as (Hsec & Hmin & Hhour & Hmday & Hmon & Hwday).
  set (t0 := localtime s) in *. clearbody t0. destruct (cron_fields p t0) as [k t] eqn:Ek. cbn [fst].
  pose proof (mktime_eq t) as Hr. pose proof (mktime_later t) as Hlater.
  pose proof (cal_in_month _ _ _ Hcal (fst (mktime t))) as Hin'. pose proof (cal_fields _ _ _ Hcal (fst (mktime t))) as Hf'.
  rewrite <- (cal_normal _ _ _ Hcal) in Hin', Hf'. fold (month_of (snd (mktime t))) in Hin'.
  destruct (mktime t) as [r t'] eqn:Et. cbn [fst snd] in *. clear Et.
  assert (Hm12 : forall i, M (i + 12) <= M i + 12 * (31 * SECONDS_PER_DAY)) by (intros i; apply months_add; lia).
  destruct (decide (week p >= 0)) as [Hw|Hw].
  - assert (k = WEEKLY /\ tm_mday t = tm_mday t0 /\ month_of t = month_of t0 /\ 0 <= tm_hour t < 24 /\ 0 <= tm_min t < 60 /\ tm_sec t = 0) as (-> & ? & Hmo & ? & ? & ?).
    { unfold cron_fields in Ek. repeat case_decide; try lia; injection Ek as <- <-; cbn; split_and!; lia || done. }
    rewrite Hmo in Hr. unfold in_month in *. cbn. case_decide; seconds.
  - assert (Hk : tm_sec t = 0 /\ 0 <= tm_hour t < 24 /\ 0 <= tm_min t < 60 /\
      match k with
      | MINUTELY => month_of t = month_of t0 /\ tm_mday t = tm_mday t0 /\ tm_hour t = tm_hour t0 /\ tm_min t = tm_min t0
      | HOURLY => month_of t = month_of t0 /\ tm_mday t = tm_mday t0 /\ tm_hour t = tm_hour t0
      | DAILY => month_of t = month_of t0 /\ tm_mday t = tm_mday t0
      | WEEKLY => False
      | MONTHLY => month_of t = month_of t0 /\ 1 <= tm_mday t <= 31
      | YEARLY => tm_year t = tm_year t0 /\ 0 <= tm_mon t < 12 /\ 1 <= tm_mday t <= 31
      end).
    { unfold cron_fields in Ek. repeat case_decide; try lia; injection Ek as <- <-; cbn; split_and!; lia || done. }
    destruct Hk as (Hs0 & Hh0 & Hm0 & Hk). destruct k; cbn [period_bound].
    + destruct Hk as (Hmo & ? & ? & ?). rewrite Hmo in Hr. unfold in_month in *. case_decide; seconds.
    + destruct Hk as (Hmo & ? & ?). rewrite Hmo in Hr. unfold in_month in *. case_decide; seconds.
    + destruct Hk as (Hmo & ?). rewrite Hmo in Hr. unfold in_month in *. case_decide; seconds.
    + done.
    + destruct Hk as (Hmo & Hmd). rewrite Hmo in Hr. pose proof (cal_month (month_of t0)) as Hnext.
      assert (Hb : M (month_of t0) <= r < M (month_of t0) + 31 * SECONDS_PER_DAY) by (unfold in_month in *; seconds).
      case_decide as Hrs; [seconds|]. assert (Ht' : month_of t' = month_of t0) by (eapply months_unique; [exact Hin'|lia]).
      set (u := if decide _ then _ else _). assert (Hu : fst (mktime u) = r + (M (month_of t0 + 1) - M (month_of t0))).
      { rewrite Hlater by (unfold u; by case_decide). rewrite Ht'. assert (month_of u = month_of t0 + 1) as ->; [|lia].
        rewrite <- Ht'. unfold u, month_of. case_decide as Hu; cbn in Hu |- *; lia. }
      rewrite Hu. seconds.
    + destruct Hk as (Hye & Hmo & Hmd). assert (Hb : M (month_of t) <= r < M (month_of t) + 31 * SECONDS_PER_DAY) by (unfold in_month in *; seconds).
      assert (Hy0 : M (12 * tm_year t0) <= s < M (12 * tm_year t0 + 12)).
      { pose proof (months_mono (12 * tm_year t0) (month_of t0)). pose proof (months_mono (month_of t0 + 1) (12 * tm_year t0 + 12)). unfold month_of in *. lia. }
      case_decide as Hrs.
      * split; [lia|]. pose proof (months_add (12 * tm_year t0) 11). pose proof (months_mono (month_of t) (12 * tm_year t0 + 11)).
        unfold month_of in *. rewrite Hye in *. seconds.
      * rewrite (Hlater (with_year (tm_year t' + 1) t')) by done.
        assert (month_of (with_year (tm_year t' + 1) t') = month_of t' + 12) as -> by (unfold month_of; cbn; lia).
        assert (12 * tm_year t0 <= month_of t').
        { destruct (Z.le_gt_cases (12 * tm_year t0) (month_of t')) as [|Hlt]; [done|]. pose proof (months_mono (month_of t' + 1) (12 * tm_year t0)).
          pose proof (months_mono (12 * tm_year t0) (month_of t)). unfold month_of in *. lia. }
        pose proof (months_mono (12 * tm_year t0 + 12) (month_of t' + 12)). specialize (Hm12 (month_of t')). lia.
Qed.

(** *** The fields of the result *)

(** Months begin at midnight. *)
Lemma months_days i j : exists n, M j = M i + n * SECONDS_PER_DAY.
Proof using Hcal.
  assert (Hup : forall i d, 0 <= d -> exists n, M (i + d) = M i + n * SECONDS_PER_DAY).
  { clear i j. intros i. apply natlike_ind; [exists 0; replace (i + 0) with i by lia; seconds|]. intros d Hd (n & Hn).
    destruct (cal_days _ _ _ Hcal (i + d)) as (m & _ & Hm). exists (n + m). replace (i + Z.succ d) with (i + d + 1) by lia. seconds. }
  destruct (Z.le_gt_cases i j) as [Hij|Hij].
  - destruct (Hup i (j - i)) as (n & Hn); [lia|]. replace (i + (j - i)) with j in Hn by lia. by exists n.
  - destruct (Hup j (i - j)) as (n & Hn); [lia|]. replace (j + (i - j)) with i in Hn by lia. exists (- n). seconds.
Qed.

(** A time at some days from the beginning of a month has the hour, minute and
    second of its offset. *)
Lemma local_clock n i d h m c : n = M i + d * SECONDS_PER_DAY + 3600 * h + 60 * m + c -> 0 <= h < 24 -> 0 <= m < 60 -> 0 <= c < 60 ->
  tm_hour (localtime n) = h /\ tm_min (localtime n) = m /\ tm_sec (localtime n) = c.
Proof using Hcal.
  intros Hn Hh Hm Hc. pose proof (cal_inverse _ _ _ Hcal n) as Hi. rewrite mktime_eq in Hi. unfold in_month in Hi.
  destruct (cal_fields _ _ _ Hcal n) as (Fs & Fm & Fh & _). destruct (months_days (month_of (localtime n)) i) as (k & Hk). seconds.
Qed.

(** A time in a month has the day of its offset. *)
Lemma local_day n i d h m c : n = M i + (d - 1) * SECONDS_PER_DAY + 3600 * h + 60 * m + c -> 0 <= h < 24 -> 0 <= m < 60 -> 0 <= c < 60 ->
  M i <= n < M (i + 1) -> tm_mday (localtime n) = d /\ month_of (localtime n) = i.
Proof using Hcal.
  intros Hn Hh Hm Hc Hin. assert (E : month_of (localtime n) = i) by (eapply months_unique; [apply (cal_in_month _ _ _ Hcal)|done]).
  split; [|done]. pose proof (cal_inverse _ _ _ Hcal n) as Hi. rewrite mktime_eq, E in Hi. unfold in_month in Hi.
  destruct (cal_fields _ _ _ Hcal n) as (Fs & Fm & Fh & _). seconds.
Qed.

(** What the fields are set to before [mktime]. *)
Lemma cron_fields_spec p t0 k t : pattern_ok p -> cron_fields p t0 = (k, t) ->
  0 <= tm_hour t0 < 24 -> 0 <= tm_min t0 < 60 -> 1 <= tm_mday t0 ->
  tm_sec t = 0 /\ 0 <= tm_hour t < 24 /\ 0 <= tm_min t < 60 /\ 1 <= tm_mday t /\
  (0 <= minute p -> tm_min t = minute p /\ k <> MINUTELY) /\ (0 <= hour p -> tm_hour t = hour p /\ k <> MINUTELY /\ k <> HOURLY) /\
  (k = WEEKLY <-> 0 <= week p) /\
  (week p < 0 -> 0 < day p -> tm_mday t = day p /\ (k = YEARLY /\ tm_mon t = month p - 1 /\ 0 < month p \/ k = MONTHLY /\ month p <= 0)).
Proof using.
  intros (Hpm & Hph & Hpd & Hpw & Hpmo) Ek Hh Hm Hd. unfold cron_fields in Ek.
  repeat case_decide; try lia; injection Ek as <- <-; cbn; split_and!; try lia; try done; intros; split_and!;
    first [lia | done | left; split_and!; done || lia | right; split_and!; done || lia | split; done || lia].
Qed.

(** The hour and the minute of the result are those that were asked for. *)
Lemma cron_shape p s : pattern_ok p -> exists i d h m,
  cron_next_timeout localtime mktime p s = M i + d * SECONDS_PER_DAY + 3600 * h + 60 * m /\ 0 <= h < 24 /\ 0 <= m < 60 /\
  (0 <= minute p -> m = minute p) /\ (0 <= hour p -> h = hour p).
Proof using Hcal.
  intros Hp. destruct (cal_fields _ _ _ Hcal s) as (_ & Hmin & Hhour & Hmday & _).
  unfold cron_next_timeout. destruct (cron_fields p (localtime s)) as [k t] eqn:Ek.
  destruct (cron_fields_spec p _ k t Hp Ek Hhour Hmin Hmday) as (Hs & Hh & Hm & _ & Hmp & Hhp & _ & _).
  pose proof (mktime_eq t) as Hr. pose proof (mktime_later t) as Hlater. destruct (mktime t) as [r t'] eqn:Et. cbn [fst snd] in *. clear Et Ek.
  unfold in_month in Hr. rewrite Hs in Hr. cbv zeta.
  assert (Hmoved : forall j, exists i d h m, r + (M j - M (month_of t')) = M i + d * SECONDS_PER_DAY + 3600 * h + 60 * m /\ 0 <= h < 24 /\ 0 <= m < 60 /\
    (0 <= minute p -> m = minute p) /\ (0 <= hour p -> h = hour p)).
  { intros j. destruct (months_days (month_of t') j) as (n & Hn). exists (month_of t), (tm_mday t - 1 + n), (tm_hour t), (tm_min t).
    split; [seconds|]. split_and!; try lia; naive_solver. }
  assert (Hdays : forall n, exists i d h m, r + n * SECONDS_PER_DAY = M i + d * SECONDS_PER_DAY + 3600 * h + 60 * m /\ 0 <= h < 24 /\ 0 <= m < 60 /\
    (0 <= minute p -> m = minute p) /\ (0 <= hour p -> h = hour p)).
  { intros n. exists (month_of t), (tm_mday t - 1 + n), (tm_hour t), (tm_min t). split; [seconds|]. split_and!; try lia; naive_solver. }
  set (r' := if decide (week p >= 0) then _ else r).
  assert (Hr' : exists n, r' = r + n * SECONDS_PER_DAY) by (unfold r'; case_decide; [by eexists|exists 0; lia]). destruct Hr' as [n ->].
  case_decide; [apply Hdays|]. destruct k.
  - assert (minute p < 0 /\ hour p < 0) as [Hmn Hhn] by (split; (destruct (Z.lt_ge_cases (minute p) 0), (Z.lt_ge_cases (hour p) 0); [done|exfalso; naive_solver..])).
    destruct (decide (tm_min t + 1 < 60)) as [H1|H1]; [|destruct (decide (tm_hour t + 1 < 24)) as [H2|H2]].
    + exists (month_of t), (tm_mday t - 1 + n), (tm_hour t), (tm_min t + 1). split_and!; seconds.
    + exists (month_of t), (tm_mday t - 1 + n), (tm_hour t + 1), 0. split_and!; seconds.
    + exists (month_of t), (tm_mday t - 1 + n + 1), 0, 0. split_and!; seconds.
  - assert (hour p < 0) as Hhn by (destruct (Z.lt_ge_cases (hour p) 0); [done|exfalso; naive_solver]).
    destruct (decide (tm_hour t + 1 < 24)) as [H2|H2].
    + exists (month_of t), (tm_mday t - 1 + n), (tm_hour t + 1), (tm_min t). split_and!; try seconds; intros Hx; by destruct (Hmp Hx).
    + exists (month_of t), (tm_mday t - 1 + n + 1), 0, (tm_min t). split_and!; try seconds; intros Hx; by destruct (Hmp Hx).
  - specialize (Hdays (n + 1)). replace (r + (n + 1) * SECONDS_PER_DAY) with (r + n * SECONDS_PER_DAY + SECONDS_PER_DAY) in Hdays by seconds. done.
  - specialize (Hdays (n + 7)). replace (r + (n + 7) * SECONDS_PER_DAY) with (r + n * SECONDS_PER_DAY + SECONDS_PER_WEEK) in Hdays by seconds. done.
  - rewrite Hlater by (by case_decide). apply Hmoved.
  - rewrite Hlater by done. apply Hmoved.
Qed.

Lemma cron_weekday p s : pattern_ok p -> 0 <= week p -> tm_wday (localtime (cron_next_timeout localtime mktime p s)) = week p.
Proof using Hcal.
  intros Hp Hw. destruct (cal_fields _ _ _ Hcal s) as (_ & Hmin & Hhour & Hmday & _).
  unfold cron_next_timeout. destruct (cron_fields p (localtime s)) as [k t] eqn:Ek.
  destruct (cron_fields_spec p _ k t Hp Ek Hhour Hmin Hmday) as (_ & _ & _ & _ & _ & _ & [_ Hk] & _). rewrite (Hk Hw).
  pose proof (cal_normal _ _ _ Hcal t) as Hn. destruct (mktime t) as [r t']. cbn [fst snd] in *. subst t'.
  destruct Hp as (_ & _ & _ & Hp & _).
  assert (Hd : forall n, (tm_wday (localtime r) + n) mod 7 = week p mod 7 -> tm_wday (localtime (r + n * SECONDS_PER_DAY)) = week p).
  { intros n Hm. rewrite (cal_week _ _ _ Hcal), Hm. apply Z.mod_small. lia. }
  destruct (decide (week p >= 0)) as [_|]; [|lia]. case_decide.
  - apply Hd. f_equal. lia.
  - assert (r + (week p - tm_wday (localtime r)) * SECONDS_PER_DAY + SECONDS_PER_WEEK = r + (week p - tm_wday (localtime r) + 7) * SECONDS_PER_DAY) as -> by seconds.
    apply Hd. replace (tm_wday (localtime r) + (week p - tm_wday (localtime r) + 7)) with (week p + 1 * 7) by lia. apply Z_mod_plus_full.
Qed.

Lemma cron_monthday p s : pattern_ok p -> week p < 0 -> 0 < day p <= 28 ->
  tm_mday (localtime (cron_next_timeout localtime mktime p s)) = day p /\
  (0 < month p -> tm_mon (localtime (cron_next_timeout localtime mktime p s)) = month p - 1).
Proof using Hcal.
  intros Hp Hw Hd. destruct (cal_fields _ _ _ Hcal s) as (_ & Hmin & Hhour & Hmday & _).
  unfold cron_next_timeout. destruct (cron_fields p (localtime s)) as [k t] eqn:Ek.
  destruct (cron_fields_spec p _ k t Hp Ek Hhour Hmin Hmday) as (Hs & Hh & Hm & _ & _ & _ & _ & Hday). destruct (Hday Hw) as [Hmd Hk]; [lia|].
  assert (Hat : forall n i, n = M i + (day p - 1) * SECONDS_PER_DAY + 3600 * tm_hour t + 60 * tm_min t + 0 ->
    tm_mday (localtime n) = day p /\ month_of (localtime n) = i /\ tm_hour (localtime n) = tm_hour t /\ tm_min (localtime n) = tm_min t /\ tm_sec (localtime n) = 0).
  { intros n i Hn. pose proof (cal_month i). destruct (local_day n i (day p) (tm_hour t) (tm_min t) 0) as [H1 H2]; [done|done|done|done|seconds|].
    by destruct (local_clock n i (day p - 1) (tm_hour t) (tm_min t) 0) as (? & ? & ?). }
  assert (Hmon : forall n, month_of (localtime n) mod 12 = month p - 1 -> tm_mon (localtime n) = month p - 1).
  { intros n <-. destruct (cal_fields _ _ _ Hcal n) as (_ & _ & _ & _ & Hmon & _). unfold month_of. rewrite Z.add_comm, Z.mul_comm, Z_mod_plus_full.
    by rewrite Z.mod_small. }
  pose proof (mktime_eq t) as Hr. pose proof (mktime_later t) as Hlater. pose proof (cal_normal _ _ _ Hcal t) as Hn.
  destruct (mktime t) as [r t'] eqn:Et. cbn [fst snd] in *. subst t'. unfold in_month in Hr. rewrite Hs, Hmd in Hr.
  destruct (Hat r (month_of t)) as (R1 & R2 & R3 & R4 & R5); [seconds|]. destruct (decide (week p >= 0)) as [|_]; [lia|].
  assert (Hmt : k = YEARLY -> month_of t mod 12 = month p - 1).
  { intros ->. destruct Hk as [(_ & E & Hpos)|[? _]]; [|done]. destruct Hp as (_ & _ & _ & _ & Hp). unfold month_of. rewrite Z.add_comm, Z.mul_comm, Z_mod_plus_full, E. apply Z.mod_small. lia. }
  case_decide.
  - split; [done|]. intros Hpos. apply Hmon. rewrite R2. apply Hmt. destruct Hk as [[-> _]|[_ ?]]; [done|lia].
  - destruct Hk as [(-> & _ & Hpos)|[-> Hneg]].
    + rewrite Hlater by done. assert (month_of (with_year (tm_year (localtime r) + 1) (localtime r)) = month_of t + 12) as -> by (rewrite <- R2; unfold month_of; cbn; lia).
      rewrite R2. destruct (Hat (r + (M (month_of t + 12) - M (month_of t))) (month_of t + 12)) as (N1 & N2 & _); [seconds|].
      split; [done|]. intros _. apply Hmon. rewrite N2. replace (month_of t + 12) with (month_of t + 1 * 12) by lia. rewrite Z_mod_plus_full. by apply Hmt.
    + rewrite Hlater by (by case_decide). set (u := if decide _ then _ else _). assert (month_of u = month_of t + 1) as ->.
      { rewrite <- R2. unfold u, month_of. case_decide as Hu; cbn in Hu |- *; lia. }
      rewrite R2. destruct (Hat (r + (M (month_of t + 1) - M (month_of t))) (month_of t + 1)) as (N1 & N2 & _); [seconds|].
      split; [done|]. intros. lia.
Qed.

End Calendar.

(** ** A calendar with months of thirty days *)

Definition localtime30 (s : Z) : tm :=
  mkTm (s mod 60) (s / 60 mod 60) (s / 3600 mod 24) (s / 86400 mod 30 + 1) (s / 2592000 mod 12) (s / 2592000 / 12) (s / 86400 mod 7) 0.
Definition mktime30 (t : tm) : Z * tm :=
  let s := 2592000 * (12 * tm_year t + tm_mon t) + 86400 * (tm_mday t - 1) + 3600 * tm_hour t + 60 * tm_min t + tm_sec t in
  (s, localtime30 s).

Lemma calendar30 : calendar localtime30 mktime30 (fun i => 2592000 * i).
Proof.
  split; unfold SECONDS_PER_MINUTE, SECONDS_PER_HOUR, SECONDS_PER_DAY; cbn.
  - intros i. exists 30. lia.
  - done.
  - done.
  - intros s. div_lia.
  - intros s. div_lia.
  - intros s. div_lia.
  - intros s n. rewrite Z.div_add by lia. by rewrite Z.add_mod_idemp_l.
Qed.


(** A day that the month does not have is taken for one of the next month. *)
Example day_31_overflows : tm_mday (localtime30 (cron_next_timeout localtime30 mktime30 (mkCron 0 0 31 (-1) (-1)) 0)) = 1.
Proof. vm_compute. reflexivity. Qed.
