(* ===== verification/EventLoop.v ===== *)
(** * Timers and idle events of the event loop: [libs/libhv/event/hloop.c]

    Timers wait in two heaps ([Heap.MinSet]), one on the monotonic and one on the
    wall clock; idle events wait in a list.  An iteration of the loop makes the due
    ones pending, links the pending events in a list per priority, and then runs
    their callbacks, which may add, reset and delete events.  Events live in a
    store of allocated addresses; an access to one that was freed is [None]. *)

From stdpp Require Import gmap.
From S2P Require Import Prelude Heap Cron.

(** ** Events *)

Inductive event_type := TIMEOUT | PERIOD | IDLE.
#[global] Instance event_type_eq_dec : EqDecision event_type.
Proof. solve_decision. Defined.

Definition INFINITE : Z := u32 (-1).

Definition HEVENT_LOWEST_PRIORITY : Z := -5.
Definition HEVENT_HIGH_PRIORITY : Z := 3.
Definition HEVENT_HIGHEST_PRIORITY : Z := 5.
Definition HEVENT_PRIORITY_SIZE : Z := HEVENT_HIGHEST_PRIORITY - HEVENT_LOWEST_PRIORITY + 1.
Definition HEVENT_PRIORITY_INDEX (priority : Z) : Z := priority - HEVENT_LOWEST_PRIORITY.

(** [hidle_t], [htimeout_t] and [hperiod_t], with the fields of all. *)
Record event := mkEvent {
  type : event_type;
  cb : option nat;
  priority : Z;
  pending_next : option nat;
  destroy : bool;
  active : bool;
  pending : bool;
  repeat : Z;
  next_timeout : Z;
  timeout : Z;
  pattern : cron;
}.

Definition with_cb (c : option nat) (e : event) : event :=
  mkEvent (type e) c (priority e) (pending_next e) (destroy e) (active e) (pending e) (repeat e) (next_timeout e) (timeout e) (pattern e).
Definition with_pending_next (n : option nat) (e : event) : event :=
  mkEvent (type e) (cb e) (priority e) n (destroy e) (active e) (pending e) (repeat e) (next_timeout e) (timeout e) (pattern e).
Definition with_destroy (b : bool) (e : event) : event :=
  mkEvent (type e) (cb e) (priority e) (pending_next e) b (active e) (pending e) (repeat e) (next_timeout e) (timeout e) (pattern e).
Definition with_active (b : bool) (e : event) : event :=
  mkEvent (type e) (cb e) (priority e) (pending_next e) (destroy e) b (pending e) (repeat e) (next_timeout e) (timeout e) (pattern e).
Definition with_pending (b : bool) (e : event) : event :=
  mkEvent (type e) (cb e) (priority e) (pending_next e) (destroy e) (active e) b (repeat e) (next_timeout e) (timeout e) (pattern e).
Definition with_repeat (r : Z) (e : event) : event :=
  mkEvent (type e) (cb e) (priority e) (pending_next e) (destroy e) (active e) (pending e) r (next_timeout e) (timeout e) (pattern e).
Definition with_next_timeout (t : Z) (e : event) : event :=
  mkEvent (type e) (cb e) (priority e) (pending_next e) (destroy e) (active e) (pending e) (repeat e) t (timeout e) (pattern e).
Definition with_timeout (t : Z) (e : event) : event :=
  mkEvent (type e) (cb e) (priority e) (pending_next e) (destroy e) (active e) (pending e) (repeat e) (next_timeout e) t (pattern e).

(** ** The loop *)

(** What the clocks show when [hloop_update_time] reads them. *)
Record clock := mkClock { gethrtime_us : Z; gettimeofday_ms : Z; time : Z }.

(** [mem]: the allocated events.  [was_reset] is not in the code: the events that
    callbacks have reset while they were pending, until [hloop_process_pendings]
    ends. *)
Record loop (H : Type) := mkLoop {
  start_ms : Z;
  start_hrtime : Z;
  cur_hrtime : Z;
  timers : H;
  realtimers : H;
  ntimers : Z;
  idles : list nat;
  nidles : Z;
  pendings : Z -> option nat;
  npendings : Z;
  nactives : Z;
  mem : gmap nat event;
  was_reset : gset nat;
}.
Arguments mkLoop {H}.
Arguments start_ms {H}. Arguments start_hrtime {H}. Arguments cur_hrtime {H}. Arguments timers {H}. Arguments realtimers {H}.
Arguments ntimers {H}. Arguments idles {H}. Arguments nidles {H}. Arguments pendings {H}. Arguments npendings {H}.
Arguments nactives {H}. Arguments mem {H}. Arguments was_reset {H}.

Section Loop.
Context {H : Type} `{MinSet H}.
Implicit Types l : loop H.

Definition with_time (s c : Z) l : loop H :=
  mkLoop s (start_hrtime l) c (timers l) (realtimers l) (ntimers l) (idles l) (nidles l) (pendings l) (npendings l) (nactives l) (mem l) (was_reset l).
Definition with_timers (h : H) l : loop H :=
  mkLoop (start_ms l) (start_hrtime l) (cur_hrtime l) h (realtimers l) (ntimers l) (idles l) (nidles l) (pendings l) (npendings l) (nactives l) (mem l) (was_reset l).
Definition with_realtimers (h : H) l : loop H :=
  mkLoop (start_ms l) (start_hrtime l) (cur_hrtime l) (timers l) h (ntimers l) (idles l) (nidles l) (pendings l) (npendings l) (nactives l) (mem l) (was_reset l).
Definition with_ntimers (n : Z) l : loop H :=
  mkLoop (start_ms l) (start_hrtime l) (cur_hrtime l) (timers l) (realtimers l) n (idles l) (nidles l) (pendings l) (npendings l) (nactives l) (mem l) (was_reset l).
Definition with_idles (i : list nat) (n : Z) l : loop H :=
  mkLoop (start_ms l) (start_hrtime l) (cur_hrtime l) (timers l) (realtimers l) (ntimers l) i n (pendings l) (npendings l) (nactives l) (mem l) (was_reset l).
Definition with_pendings (p : Z -> option nat) (n : Z) l : loop H :=
  mkLoop (start_ms l) (start_hrtime l) (cur_hrtime l) (timers l) (realtimers l) (ntimers l) (idles l) (nidles l) p n (nactives l) (mem l) (was_reset l).
Definition with_nactives (n : Z) l : loop H :=
  mkLoop (start_ms l) (start_hrtime l) (cur_hrtime l) (timers l) (realtimers l) (ntimers l) (idles l) (nidles l) (pendings l) (npendings l) n (mem l) (was_reset l).
Definition with_mem (m : gmap nat event) l : loop H :=
  mkLoop (start_ms l) (start_hrtime l) (cur_hrtime l) (timers l) (realtimers l) (ntimers l) (idles l) (nidles l) (pendings l) (npendings l) (nactives l) m (was_reset l).
Definition with_was_reset (r : gset nat) l : loop H :=
  mkLoop (start_ms l) (start_hrtime l) (cur_hrtime l) (timers l) (realtimers l) (ntimers l) (idles l) (nidles l) (pendings l) (npendings l) (nactives l) (mem l) r.

Definition hloop_now l : Z := u64 (start_ms l / 1000 + u64 (cur_hrtime l - start_hrtime l) / 1000000).
Definition hloop_now_us l : Z := u64 (start_ms l * 1000 + (cur_hrtime l - start_hrtime l)).

Definition hloop_update_time l (c : clock) : loop H :=
  let l := with_time (start_ms l) (gethrtime_us c) l in
  if decide (hloop_now l <> time c) then
    with_time (u64 (gettimeofday_ms c - u64 (cur_hrtime l - start_hrtime l) / 1000)) (cur_hrtime l) l
  else l.

(** An assignment through a pointer to an event. *)
Definition assign l (a : nat) (g : event -> event) : option (loop H) :=
  e ← mem l !! a; Some (with_mem (<[a := g e]> (mem l)) l).

(** The order of the timers, by [timers_compare]. *)
Definition key l (a : nat) : Z := match mem l !! a with Some e => next_timeout e | None => 0 end.

(** *** The macros of [hevent.h] *)

Definition EVENT_ACTIVE l (a : nat) : option (loop H) :=
  e ← mem l !! a;
  if active e then Some l else l ← assign l a (with_active true); Some (with_nactives (u32 (nactives l + 1)) l).

Definition EVENT_INACTIVE l (a : nat) : option (loop H) :=
  e ← mem l !! a;
  if active e then l ← assign l a (with_active false); Some (with_nactives (u32 (nactives l - 1)) l) else Some l.

Definition EVENT_PENDING l (a : nat) : option (loop H) :=
  e ← mem l !! a;
  if pending e then Some l
  else
    let i := HEVENT_PRIORITY_INDEX (priority e) in
    l ← assign l a (fun e => with_pending_next (pendings l i) (with_pending true e));
    Some (with_pendings (fun j => if decide (j = i) then Some a else pendings l j) (u32 (npendings l + 1)) l).

Definition EVENT_ADD l (a : nat) (c : option nat) : option (loop H) :=
  l ← assign l a (with_cb c);
  EVENT_ACTIVE l a.

Definition EVENT_DEL l (a : nat) : option (loop H) :=
  l ← EVENT_INACTIVE l a;
  e ← mem l !! a;
  if pending e then Some l else Some (with_mem (delete a (mem l)) l).

Definition EVENT_RESET l (a : nat) : option (loop H) :=
  l ← assign l a (with_destroy false);
  l ← EVENT_ACTIVE l a;
  assign l a (with_pending false).

(** *** Idle events *)

(** [list_add] and [list_del] of [base/list.h], on the sequence from the head. *)
Definition list_add (a : nat) (ids : list nat) : list nat := a :: ids.
Definition list_del (a : nat) (ids : list nat) : list nat := filter (fun b => b <> a) ids.

(** [a]: the address that [HV_ALLOC_SIZEOF] gives. *)
Definition hidle_add l (a : nat) (c : option nat) (rep : Z) : option (loop H) :=
  let e := mkEvent IDLE None HEVENT_LOWEST_PRIORITY None false false false rep 0 0 (mkCron 0 0 0 0 0) in
  let l := with_mem (<[a := e]> (mem l)) l in
  let l := with_idles (list_add a (idles l)) (nidles l) l in
  l ← EVENT_ADD l a c;
  Some (with_idles (idles l) (u32 (nidles l + 1)) l).

Definition __hidle_del l (a : nat) : option (loop H) :=
  e ← mem l !! a;
  if destroy e then Some l
  else
    l ← assign l a (with_destroy true);
    Some (with_idles (list_del a (idles l)) (u32 (nidles l - 1)) l).

Definition hidle_del l (a : nat) : option (loop H) :=
  e ← mem l !! a;
  if active e then l ← __hidle_del l a; EVENT_DEL l a else Some l.

(** *** Timers *)

(** [next_timeout] of a timer that starts now. *)
Definition start_timeout (now timeout_ms : Z) : Z :=
  let t := u64 (now + u64 (timeout_ms * 1000)) in
  if decide (timeout_ms >= 1000 /\ timeout_ms mod 100 = 0) then t / 100000 * 100000 else t.

Definition htimer_add l (c : clock) (a : nat) (callback : option nat) (timeout_ms rep : Z) : option (loop H) :=
  if decide (timeout_ms = 0) then Some l
  else
    let l := hloop_update_time l c in
    let e := mkEvent TIMEOUT None HEVENT_HIGHEST_PRIORITY None false false false rep
               (start_timeout (cur_hrtime l) timeout_ms) timeout_ms (mkCron 0 0 0 0 0) in
    let l := with_mem (<[a := e]> (mem l)) l in
    h ← ms_insert (key l) (timers l) a;
    l ← EVENT_ADD (with_timers h l) a callback;
    Some (with_ntimers (u32 (ntimers l + 1)) l).

Definition htimer_reset l (a : nat) (timeout_ms : Z) : option (loop H) :=
  e ← mem l !! a;
  if decide (type e <> TIMEOUT) then Some l
  else
    l ← (if destroy e then Some (with_ntimers (u32 (ntimers l + 1)) l)
         else h ← ms_remove (key l) (timers l) a; Some (with_timers h l));
    l ← (if decide (repeat e = 0) then assign l a (with_repeat 1) else Some l);
    l ← (if decide (timeout_ms > 0) then assign l a (with_timeout timeout_ms) else Some l);
    l ← assign l a (fun e => with_next_timeout (start_timeout (cur_hrtime l) (timeout e)) e);
    h ← ms_insert (key l) (timers l) a;
    l ← EVENT_RESET (with_timers h l) a;
    Some (if pending e then with_was_reset ({[a]} ∪ was_reset l) l else l).

Definition __htimer_del l (a : nat) : option (loop H) :=
  e ← mem l !! a;
  if destroy e then Some l
  else
    l ← match type e with
        | TIMEOUT => h ← ms_remove (key l) (timers l) a; Some (with_timers h l)
        | PERIOD => h ← ms_remove (key l) (realtimers l) a; Some (with_realtimers h l)
        | IDLE => Some l
        end;
    assign (with_ntimers (u32 (ntimers l - 1)) l) a (with_destroy true).

Definition htimer_del l (a : nat) : option (loop H) :=
  e ← mem l !! a;
  if active e then l ← __htimer_del l a; EVENT_DEL l a else Some l.
End Loop.

(** *** An iteration *)

Section Iteration.
Context {H : Type} `{MinSet H}.
Context (localtime : Z -> tm) (mktime : tm -> Z * tm).
Implicit Types l : loop H.

Definition cron_timeout (p : cron) (tt : Z) : Z := u64 (u64 (cron_next_timeout localtime mktime p tt) * 1000000).

(** The events of a bad pattern are not added. *)
Definition htimer_add_period l (tt : Z) (a : nat) (callback : option nat) (p : cron) (rep : Z) : option (loop H) :=
  if decide (minute p > 59 \/ hour p > 23 \/ day p > 31 \/ week p > 6 \/ month p > 12) then Some l
  else
    let e := mkEvent PERIOD None HEVENT_HIGH_PRIORITY None false false false rep (cron_timeout p tt) 0 p in
    let l := with_mem (<[a := e]> (mem l)) l in
    h ← ms_insert (key l) (realtimers l) a;
    l ← EVENT_ADD (with_realtimers h l) a callback;
    Some (with_ntimers (u32 (ntimers l + 1)) l).

(** [while (timer->next_timeout <= timeout) timer->next_timeout += ...] *)
Fixpoint advance (fuel : nat) (next step limit : Z) : option Z :=
  match fuel with
  | O => None
  | S fuel' => if decide (next <= limit) then advance fuel' (u64 (next + step)) step limit else Some next
  end.

Definition advance_fuel (next limit : Z) : nat := S (S (Z.to_nat (limit - next))).

(** One of the heaps of the loop. *)
Definition get_heap (real : bool) l : H := if real then realtimers l else timers l.
Definition set_heap (real : bool) (h : H) l : loop H := if real then with_realtimers h l else with_timers h l.

(** The body of the loop for a timer that is due; [s] is what [time] answers. *)
Definition process_timer (real : bool) (limit s : Z) l (a : nat) : option (loop H) :=
  e ← mem l !! a;
  l ← (if decide (repeat e <> INFINITE) then assign l a (with_repeat (u32 (repeat e - 1))) else Some l);
  e ← mem l !! a;
  l ← (if decide (repeat e = 0) then __htimer_del l a
       else
         h ← ms_dequeue (key l) (get_heap real l);
         let l := set_heap real h l in
         l ← match type e with
             | TIMEOUT =>
                 t ← advance (advance_fuel (next_timeout e) limit) (next_timeout e) (u64 (timeout e * 1000)) limit;
                 assign l a (with_next_timeout t)
             | PERIOD => assign l a (with_next_timeout (cron_timeout (pattern e) s))
             | IDLE => Some l
             end;
         h ← ms_insert (key l) (get_heap real l) a;
         Some (set_heap real h l));
  EVENT_PENDING l a.

(** [timeout] is [limit]; [tts n] is the [n]th answer of [time]. *)
Fixpoint __hloop_process_timers (fuel : nat) (real : bool) (limit : Z) (tts : nat -> Z) l (n : nat) : option (loop H * nat) :=
  match fuel with
  | O => None
  | S fuel' =>
      match ms_root (get_heap real l) with
      | None => Some (l, n)
      | Some a =>
          e ← mem l !! a;
          if decide (next_timeout e > limit) then Some (l, n)
          else l ← process_timer real limit (tts n) l a; __hloop_process_timers fuel' real limit tts l (S n)
      end
  end.

Definition hloop_process_timers (fuel : nat) (tts tts' : nat -> Z) l : option (loop H * nat) :=
  let now := hloop_now_us l in
  '(l, n) ← __hloop_process_timers fuel false (cur_hrtime l) tts l 0;
  '(l, n') ← __hloop_process_timers fuel true now tts' l 0;
  Some (l, (n + n')%nat).

(** The nodes are those of the list when it starts: [__hidle_del] takes out no
    other than the one at hand. *)
Fixpoint process_idles (ids : list nat) l : option (loop H) :=
  match ids with
  | [] => Some l
  | a :: ids =>
      e ← mem l !! a;
      l ← (if decide (repeat e <> INFINITE) then assign l a (with_repeat (u32 (repeat e - 1))) else Some l);
      e ← mem l !! a;
      l ← (if decide (repeat e = 0) then __hidle_del l a else Some l);
      l ← EVENT_PENDING l a;
      process_idles ids l
  end.
Definition hloop_process_idles l : option (loop H) := process_idles (idles l) l.

(** *** Callbacks *)

(** The calls that a callback makes, with the answers of the allocator and the
    clocks.  (A callback may read the loop before each of its calls.) *)
Inductive call :=
  | Idle_add (a : nat) (c : option nat) (rep : Z)
  | Idle_del (a : nat)
  | Timer_add (t : clock) (a : nat) (c : option nat) (timeout_ms rep : Z)
  | Period_add (s : Z) (a : nat) (c : option nat) (p : cron) (rep : Z)
  | Timer_reset (a : nat) (timeout_ms : Z)
  | Timer_del (a : nat).

Definition exec l (c : call) : option (loop H) :=
  match c with
  | Idle_add a c rep => hidle_add l a c rep
  | Idle_del a => hidle_del l a
  | Timer_add t a c ms rep => htimer_add l t a c ms rep
  | Period_add s a c p rep => htimer_add_period l s a c p rep
  | Timer_reset a ms => htimer_reset l a ms
  | Timer_del a => htimer_del l a
  end.

Fixpoint exec_all l (cs : list call) : option (loop H) :=
  match cs with [] => Some l | c :: cs => l ← exec l c; exec_all l cs end.

(** What a callback does when it is called for an event. *)
Context (run : nat -> nat -> loop H -> list call).

(** [ran]: the events whose callback was called, latest first. *)
Definition process_pending l (a : nat) (ran : list nat) : option (loop H * list nat) :=
  e ← mem l !! a;
  if pending e then
    '(l, ran) ← match cb e with
                | Some c => if active e then l ← exec_all l (run c a l); Some (l, a :: ran) else Some (l, ran)
                | None => Some (l, ran)
                end;
    l ← assign l a (with_pending false);
    e ← mem l !! a;
    l ← (if destroy e then EVENT_DEL l a else Some l);
    Some (l, ran)
  else Some (l, ran).

(** The list of a priority, from [cur]. *)
Fixpoint process_list (fuel : nat) l (cur : option nat) (ran : list nat) : option (loop H * list nat) :=
  match fuel with
  | O => None
  | S fuel' =>
      match cur with
      | None => Some (l, ran)
      | Some a =>
          e ← mem l !! a;
          '(l, ran) ← process_pending l a ran;
          process_list fuel' l (pending_next e) ran
      end
  end.

(** The priorities from [i - 1] down. *)
Fixpoint process_lists (fuel : nat) (i : nat) l (ran : list nat) : option (loop H * list nat) :=
  match i with
  | O => Some (l, ran)
  | S i =>
      '(l, ran) ← process_list fuel l (pendings l (Z.of_nat i)) ran;
      let l := with_pendings (fun j => if decide (j = Z.of_nat i) then None else pendings l j) (npendings l) l in
      process_lists fuel i l ran
  end.

Definition hloop_process_pendings (fuel : nat) l : option (loop H * list nat) :=
  if decide (npendings l = 0) then Some (l, [])
  else
    '(l, ran) ← process_lists fuel (Z.to_nat HEVENT_PRIORITY_SIZE) l [];
    Some (with_was_reset ∅ (with_pendings (pendings l) 0 l), ran).

(** How long [hloop_process_events] blocks, in ms; [None]: [goto process_timers]. *)
Definition i64 (z : Z) : Z := (z + 2 ^ 63) mod 2 ^ 64 - 2 ^ 63.
Definition until (real : bool) (now : Z) l (us : Z) : Z :=
  match ms_root (get_heap real l) with Some a => Z.min us (i64 (key l a - now)) | None => us end.
Definition blocktime l (timeout_ms : Z) : option Z :=
  if decide (ntimers l <> 0) then
    let us := until true (hloop_now_us l) l (until false (cur_hrtime l) l (i32 (timeout_ms * 1000))) in
    if decide (us < 0) then None else Some (Z.min (i32 (us / 1000 + 1)) timeout_ms)
  else Some timeout_ms.

(** From [process_timers] on. *)
Definition process_events (fuel : nat) (tts tts' : nat -> Z) l : option (loop H * list nat) :=
  l ← (if decide (ntimers l <> 0) then '(l, _) ← hloop_process_timers fuel tts tts' l; Some l else Some l);
  l ← (if decide (npendings l = 0) then if decide (nidles l <> 0) then hloop_process_idles l else Some l else Some l);
  hloop_process_pendings fuel l.
End Iteration.

(** ** The invariant *)

Section Counted.
Context (P : event -> Prop) `{!forall e, Decision (P e)}.
Implicit Types m : gmap nat event.

(** The addresses of the events with a property. *)
Definition those m : gset nat := dom (filter (fun p => P p.2) m).

Lemma elem_of_those m a : a ∈ those m <-> exists e, m !! a = Some e /\ P e.
Proof.
  unfold those. rewrite elem_of_dom. split.
  - intros [e He]. apply map_lookup_filter_Some in He as [He Hp]. by exists e.
  - intros (e & He & Hp). exists e. by apply map_lookup_filter_Some.
Qed.

Lemma those_insert m a e : P e -> those (<[a := e]> m) = {[a]} ∪ those m.
Proof.
  intros He. apply set_eq. intros b. rewrite elem_of_union, elem_of_singleton, !elem_of_those. destruct (decide (b = a)) as [->|Hb].
  - rewrite lookup_insert_eq. naive_solver.
  - rewrite lookup_insert_ne by done. naive_solver.
Qed.
Lemma those_insert_not m a e : ~ P e -> those (<[a := e]> m) = those m ∖ {[a]}.
Proof.
  intros He. apply set_eq. intros b. rewrite elem_of_difference, elem_of_singleton, !elem_of_those. destruct (decide (b = a)) as [->|Hb].
  - rewrite lookup_insert_eq. naive_solver.
  - rewrite lookup_insert_ne by done. naive_solver.
Qed.
Lemma those_delete m a : those (delete a m) = those m ∖ {[a]}.
Proof.
  apply set_eq. intros b. rewrite elem_of_difference, elem_of_singleton, !elem_of_those. destruct (decide (b = a)) as [->|Hb].
  - rewrite lookup_delete_eq. naive_solver.
  - rewrite lookup_delete_ne by done. naive_solver.
Qed.
(** An update that keeps the property keeps the set. *)
Lemma those_keep m a e e' : m !! a = Some e -> (P e' <-> P e) -> those (<[a := e']> m) = those m.
Proof.
  intros Ha He. apply set_eq. intros b. rewrite !elem_of_those. destruct (decide (b = a)) as [->|Hb].
  - rewrite lookup_insert_eq, Ha. naive_solver.
  - by rewrite lookup_insert_ne.
Qed.
End Counted.

(** The events that wait in the heaps and the list. *)
Definition waiting (m : gmap nat event) (ty : event_type) : gset nat := those (fun e => type e = ty /\ destroy e = false) m.
Definition actives (m : gmap nat event) : gset nat := those (fun e => active e = true) m.
Definition pending_set (m : gmap nat event) : gset nat := those (fun e => pending e = true) m.

Lemma u32_shift n z d : n = u32 z -> u32 (n + d) = u32 (z + d).
Proof. intros ->. unfold u32. by rewrite Z.add_mod_idemp_l. Qed.

Lemma u32_shift_down n z d : n = u32 z -> u32 (n - d) = u32 (z - d).
Proof. intros ->. unfold u32. by rewrite Zminus_mod_idemp_l. Qed.

Lemma size_add (S : gset nat) a : a ∉ S -> Z.of_nat (size ({[a]} ∪ S)) = Z.of_nat (size S) + 1.
Proof. intros Ha. rewrite size_union, size_singleton by set_solver. lia. Qed.
Lemma size_remove (S : gset nat) a : a ∈ S -> Z.of_nat (size (S ∖ {[a]})) = Z.of_nat (size S) - 1.
Proof.
  intros Ha. rewrite size_difference, size_singleton by set_solver. assert (size S <> 0%nat); [|lia].
  intros E. apply size_empty_inv in E. set_solver.
Qed.

Definition priority_of (ty : event_type) : Z :=
  match ty with TIMEOUT => HEVENT_HIGHEST_PRIORITY | PERIOD => HEVENT_HIGH_PRIORITY | IDLE => HEVENT_LOWEST_PRIORITY end.

Record event_ok (e : event) : Prop := {
  ev_priority : priority e = priority_of (type e);
  ev_repeat : 0 <= repeat e < 2 ^ 32;
  ev_next : 0 <= next_timeout e < 2 ^ 64;
  ev_timeout : type e = TIMEOUT -> 0 < timeout e < 2 ^ 32;
  ev_pattern : type e = PERIOD -> pattern_ok (pattern e);
}.

Section Invariant.
Context {H : Type} `{MinSetLaws H holds}.
Implicit Types l : loop H.

(** The heaps, the list of idle events and the counts are those of the allocated
    events that are not destroyed; a destroyed event is still allocated only while
    it is pending, [x] excepted. *)
Record okx (x : option nat) l : Prop := {
  ok_timers : holds (key l) (timers l) (waiting (mem l) TIMEOUT);
  ok_realtimers : holds (key l) (realtimers l) (waiting (mem l) PERIOD);
  ok_ntimers : ntimers l = u32 (Z.of_nat (size (waiting (mem l) TIMEOUT)) + Z.of_nat (size (waiting (mem l) PERIOD)));
  ok_idles_nodup : NoDup (idles l);
  ok_idles : list_to_set (idles l) = waiting (mem l) IDLE;
  ok_nidles : nidles l = u32 (Z.of_nat (size (waiting (mem l) IDLE)));
  ok_nactives : nactives l = u32 (Z.of_nat (size (actives (mem l))));
  ok_event a e : mem l !! a = Some e -> event_ok e;
  ok_destroyed a e : mem l !! a = Some e -> Some a <> x -> destroy e = true -> pending e = true;
  ok_active a e : mem l !! a = Some e -> active e = false -> destroy e = true;
}.

(** What the lists of pending events hang on is as before. *)
Definition quiet l l' : Prop := pendings l' = pendings l /\ npendings l' = npendings l /\ was_reset l' = was_reset l.

Lemma okx_weaken x l : okx None l -> okx x l.
Proof. intros [? ? ? ? ? ? ? ? Hd ?]. split; try done. intros a e Ha _. by apply (Hd a). Qed.

Lemma elem_of_waiting m ty a : a ∈ waiting m ty <-> exists e, m !! a = Some e /\ type e = ty /\ destroy e = false.
Proof. apply elem_of_those. Qed.

Lemma key_insert l a e b : key (with_mem (<[a := e]> (mem l)) l) b = if decide (b = a) then next_timeout e else key l b.
Proof. unfold key. cbn. case_decide as E; [by rewrite E, lookup_insert_eq|by rewrite lookup_insert_ne]. Qed.

(** An event changes in a way that the heaps and the counts do not see. *)
Lemma ok_assign x l a e e' : okx x l -> mem l !! a = Some e -> type e' = type e -> destroy e' = destroy e -> active e' = active e ->
  next_timeout e' = next_timeout e -> event_ok e' -> (Some a <> x -> destroy e = true -> pending e' = true) ->
  okx x (with_mem (<[a := e']> (mem l)) l).
Proof using All.
  intros Hok Ha Ht Hd Hact Hn He Hp.
  assert (Hk : forall b, key (with_mem (<[a := e']> (mem l)) l) b = key l b).
  { intros b. rewrite key_insert. case_decide as E; [|done]. unfold key. by rewrite E, Ha. }
  assert (Hw : forall ty, waiting (<[a := e']> (mem l)) ty = waiting (mem l) ty) by (intros ty; eapply (those_keep _ _ _ e); [done|cbn; by rewrite Ht, Hd]).
  assert (Hac : actives (<[a := e']> (mem l)) = actives (mem l)) by (eapply (those_keep _ _ _ e); [done|cbn; by rewrite Hact]).
  split; cbn [mem timers realtimers ntimers idles nidles nactives with_mem]; rewrite ?Hw, ?Hac; try apply Hok.
  - eapply law_ms_key; [|apply Hok]. intros b _. apply Hk.
  - eapply law_ms_key; [|apply Hok]. intros b _. apply Hk.
  - intros b f [[<- <-]|[_ Hf]]%lookup_insert_Some; [done|]. by eapply ok_event.
  - intros b f [[<- <-]|[_ Hf]]%lookup_insert_Some; [rewrite Hd; auto|]. by eapply ok_destroyed.
  - intros b f [[<- <-]|[_ Hf]]%lookup_insert_Some; [rewrite Hd, Hact; by eapply ok_active|]. by eapply ok_active.
Qed.

(** An event that was marked for deletion. *)
Lemma ok_inactive x l a e : okx x l -> mem l !! a = Some e -> destroy e = true -> active e = true ->
  okx x (with_nactives (u32 (nactives l - 1)) (with_mem (<[a := with_active false e]> (mem l)) l)).
Proof using All.
  intros Hok Ha Hd Hact.
  assert (Hk : forall b, key (with_mem (<[a := with_active false e]> (mem l)) l) b = key l b).
  { intros b. rewrite key_insert. case_decide as E; [|done]. unfold key. by rewrite E, Ha. }
  assert (Hw : forall ty, waiting (<[a := with_active false e]> (mem l)) ty = waiting (mem l) ty) by (intros ty; by eapply those_keep).
  assert (Hin : a ∈ actives (mem l)) by (apply elem_of_those; by exists e).
  split; cbn [mem timers realtimers ntimers idles nidles nactives with_mem with_nactives]; rewrite ?Hw; try apply Hok.
  - eapply law_ms_key; [|apply Hok]. intros b _. apply Hk.
  - eapply law_ms_key; [|apply Hok]. intros b _. apply Hk.
  - unfold actives. rewrite those_insert_not by done. fold (actives (mem l)). rewrite size_remove by done. apply u32_shift, Hok.
  - intros b f [[<- <-]|[_ Hf]]%lookup_insert_Some; [|by eapply ok_event]. pose proof (ok_event _ _ Hok _ _ Ha) as []. by split.
  - intros b f [[<- <-]|[_ Hf]]%lookup_insert_Some; [|by eapply ok_destroyed]. intros Hx _. by apply (ok_destroyed x l Hok a e).
  - intros b f [[<- <-]|[_ Hf]]%lookup_insert_Some; [done|]. by eapply ok_active.
Qed.

(** An event that is neither waiting nor active is freed. *)
Lemma ok_delete l a e : okx (Some a) l -> mem l !! a = Some e -> destroy e = true -> active e = false ->
  okx None (with_mem (delete a (mem l)) l).
Proof using All.
  intros Hok Ha Hd Hact.
  assert (Hw : forall ty, waiting (delete a (mem l)) ty = waiting (mem l) ty).
  { intros ty. unfold waiting. rewrite those_delete. apply set_eq. intros b. rewrite elem_of_difference, elem_of_singleton, elem_of_those.
    split; [by intros [? _]|]. intros (f & Hf & Ht & Hdf). split; [exists f; by split|]. intros ->. congruence. }
  assert (Hac : actives (delete a (mem l)) = actives (mem l)).
  { unfold actives. rewrite those_delete. apply set_eq. intros b. rewrite elem_of_difference, elem_of_singleton, elem_of_those.
    split; [by intros [? _]|]. intros (f & Hf & Hdf). split; [by exists f|]. intros ->. congruence. }
  assert (Hk : forall ty b, b ∈ waiting (mem l) ty -> key (with_mem (delete a (mem l)) l) b = key l b).
  { intros ty b (f & Hf & _ & Hdf)%elem_of_waiting. unfold key. cbn. rewrite lookup_delete_ne; [done|]. intros ->. congruence. }
  split; cbn [mem timers realtimers ntimers idles nidles nactives with_mem]; rewrite ?Hw, ?Hac; try apply Hok.
  - eapply law_ms_key; [|apply Hok]. apply Hk.
  - eapply law_ms_key; [|apply Hok]. apply Hk.
  - intros b f [_ Hf]%lookup_delete_Some. by eapply ok_event.
  - intros b f [Hb Hf]%lookup_delete_Some _. eapply (ok_destroyed (Some a) l); [done|done|congruence].
  - intros b f [_ Hf]%lookup_delete_Some. by eapply ok_active.
Qed.

(** *** The macros *)

Lemma EVENT_DEL_ok l a e : okx (Some a) l -> mem l !! a = Some e -> destroy e = true ->
  exists l', EVENT_DEL l a = Some l' /\ okx None l' /\ quiet l l' /\
    mem l' = if pending e then <[a := with_active false e]> (mem l) else delete a (mem l).
Proof using All.
  intros Hok Ha Hd. unfold EVENT_DEL, EVENT_INACTIVE, assign. rewrite Ha. cbn [mbind option_bind].
  destruct (active e) eqn:Hact; cbn [mbind option_bind mem with_mem with_nactives].
  - rewrite lookup_insert_eq. cbn [mbind option_bind pending with_active]. pose proof (ok_inactive _ l a e Hok Ha Hd Hact) as Hok1.
    destruct (pending e) eqn:Hp.
    + eexists. split; [reflexivity|]. split; [|done]. destruct Hok1 as [? ? ? ? ? ? ? ? Hd' ?]. split; try done. intros b f Hb _ Hf.
      destruct (decide (b = a)) as [->|Hba]; [|eapply (Hd' b); [done|congruence|done]].
      cbn in Hb. rewrite lookup_insert_eq in Hb. by injection Hb as <-.
    + eexists. split; [reflexivity|]. rewrite delete_insert_eq. split; [|done].
      pose proof (ok_delete _ a _ Hok1 (lookup_insert_eq _ _ _) Hd eq_refl) as Hok2. cbn in Hok2. by rewrite delete_insert_eq in Hok2.
  - rewrite Ha. cbn [mbind option_bind]. destruct (pending e) eqn:Hp.
    + exists l. split; [done|]. split; [|split; [done|]].
      * destruct Hok as [? ? ? ? ? ? ? ? Hd' ?]. split; try done. intros b f Hb _ Hf.
        destruct (decide (b = a)) as [->|Hba]; [congruence|eapply (Hd' b); [done|congruence|done]].
      * rewrite insert_id; [done|]. rewrite Ha. f_equal. destruct e. cbn in *. by subst.
    + eexists. split; [reflexivity|]. split; [|done]. by eapply ok_delete.
Qed.

Lemma EVENT_PENDING_ok l a e : okx (Some a) l -> mem l !! a = Some e ->
  exists l', EVENT_PENDING l a = Some l' /\ okx None l' /\ was_reset l' = was_reset l /\ cur_hrtime l' = cur_hrtime l /\
    if pending e then l' = l
    else mem l' = <[a := with_pending_next (pendings l (HEVENT_PRIORITY_INDEX (priority e))) (with_pending true e)]> (mem l) /\
         npendings l' = u32 (npendings l + 1) /\
         forall i, pendings l' i = if decide (i = HEVENT_PRIORITY_INDEX (priority e)) then Some a else pendings l i.
Proof using All.
  intros Hok Ha. unfold EVENT_PENDING, assign. rewrite Ha. cbn [mbind option_bind]. destruct (pending e) eqn:Hp.
  - exists l. split_and!; try done. destruct Hok as [? ? ? ? ? ? ? ? Hd ?]. split; try done. intros b f Hb _ Hf.
    destruct (decide (b = a)) as [->|Hba]; [congruence|eapply (Hd b); [done|congruence|done]].
  - cbn [mbind option_bind]. eexists. split; [reflexivity|]. split; [|done].
    pose proof (ok_event _ _ Hok _ _ Ha) as He. set (e' := with_pending_next _ _).
    assert (Hok1 : okx (Some a) (with_mem (<[a := e']> (mem l)) l)).
    { eapply ok_assign; try done. destruct He. by split. }
    destruct Hok1 as [? ? ? ? ? ? ? ? Hd ?]. split; try done. intros b f Hb _ Hf.
    destruct (decide (b = a)) as [->|Hba]; [|eapply (Hd b); [done|congruence|done]].
    cbn in Hb. rewrite lookup_insert_eq in Hb. by injection Hb as <-.
Qed.

(** *** New events *)

Lemma waiting_add (m : gmap nat event) a e ty : m !! a = None -> destroy e = false ->
  waiting (<[a := e]> m) ty = if decide (type e = ty) then {[a]} ∪ waiting m ty else waiting m ty.
Proof.
  intros Ha Hd. unfold waiting. case_decide as Ht; [by apply those_insert|]. rewrite those_insert_not by (by intros [? _]).
  apply set_eq. intros b. rewrite elem_of_difference, elem_of_singleton, elem_of_those. split; [by intros [? _]|].
  intros (f & Hf & Hx). split; [by exists f|]. intros ->. congruence.
Qed.

Lemma not_waiting (m : gmap nat event) a ty : m !! a = None -> a ∉ waiting m ty.
Proof. intros Ha (f & Hf & _)%elem_of_waiting. congruence. Qed.

Lemma ok_add l l' a e : okx None l -> mem l !! a = None -> event_ok e -> destroy e = false -> active e = true -> pending e = false ->
  mem l' = <[a := e]> (mem l) -> nactives l' = u32 (nactives l + 1) ->
  (if decide (type e = TIMEOUT) then holds (key l') (timers l') ({[a]} ∪ waiting (mem l) TIMEOUT) else timers l' = timers l) ->
  (if decide (type e = PERIOD) then holds (key l') (realtimers l') ({[a]} ∪ waiting (mem l) PERIOD) else realtimers l' = realtimers l) ->
  ntimers l' = (if decide (type e = IDLE) then ntimers l else u32 (ntimers l + 1)) ->
  idles l' = (if decide (type e = IDLE) then a :: idles l else idles l) ->
  nidles l' = (if decide (type e = IDLE) then u32 (nidles l + 1) else nidles l) -> okx None l'.
Proof using All.
  intros Hok Ha He Hd Hact Hp Hm Hna Ht Hr Hnt Hi Hni.
  assert (Hw : forall ty, waiting (mem l') ty = if decide (type e = ty) then {[a]} ∪ waiting (mem l) ty else waiting (mem l) ty)
    by (intros ty; rewrite Hm; by apply waiting_add).
  assert (Hsz : forall ty, Z.of_nat (size (waiting (mem l') ty)) = (if decide (type e = ty) then 1 else 0) + Z.of_nat (size (waiting (mem l) ty))).
  { intros ty. rewrite Hw. destruct (decide (type e = ty)); [|done]. rewrite size_add by (by apply not_waiting). apply Z.add_comm. }
  assert (Hk : forall b, b <> a -> key l' b = key l b) by (intros b Hb; unfold key; by rewrite Hm, lookup_insert_ne).
  assert (Hkw : forall ty b, b ∈ waiting (mem l) ty -> key l' b = key l b).
  { intros ty b Hb. apply Hk. intros ->. by eapply not_waiting. }
  assert (Hnew : forall b f, mem l' !! b = Some f -> (b = a /\ f = e) \/ mem l !! b = Some f).
  { intros b f. rewrite Hm. intros [[<- <-]|[_ Hf]]%lookup_insert_Some; auto. }
  split.
  - rewrite Hw. destruct (decide (type e = TIMEOUT)); [done|]. rewrite Ht. eapply law_ms_key; [by apply Hkw|apply Hok].
  - rewrite Hw. destruct (decide (type e = PERIOD)); [done|]. rewrite Hr. eapply law_ms_key; [by apply Hkw|apply Hok].
  - rewrite !Hsz. pose proof (u32_shift _ _ 1 (ok_ntimers _ _ Hok)) as Hu.
    clear - Hnt Hu Hok. destruct (type e); rewrite Hnt, ?Hu; repeat (destruct (decide _); try congruence);
      [apply (f_equal u32); lia|apply (f_equal u32); lia|rewrite !Z.add_0_l; apply Hok].
  - rewrite Hi. destruct (decide (type e = IDLE)); [|apply Hok]. constructor; [|apply Hok].
    rewrite <- (elem_of_list_to_set (C := gset nat)), (ok_idles _ _ Hok). by apply not_waiting.
  - rewrite Hi, Hw, <- (ok_idles _ _ Hok). by destruct (decide (type e = IDLE)).
  - rewrite Hni, Hsz. destruct (decide (type e = IDLE)); [|apply Hok]. rewrite (u32_shift _ _ 1 (ok_nidles _ _ Hok)). apply (f_equal u32). lia.
  - rewrite Hna, Hm, (u32_shift _ _ 1 (ok_nactives _ _ Hok)). apply (f_equal u32). unfold actives at 2. rewrite those_insert by done.
    rewrite size_add; [done|]. intros (f & Hf & _)%elem_of_those. congruence.
  - intros b f [[-> ->]|Hf]%Hnew; [done|]. by eapply ok_event.
  - intros b f [[-> ->]|Hf]%Hnew _ Hdf; [congruence|]. by eapply ok_destroyed.
  - intros b f [[-> ->]|Hf]%Hnew Haf; [congruence|]. by eapply ok_active.
Qed.

(** *** Events that are taken out *)

Lemma waiting_destroy (m : gmap nat event) a e e' ty : m !! a = Some e -> destroy e' = true ->
  waiting (<[a := e']> m) ty = waiting m ty ∖ {[a]}.
Proof. intros Ha Hd. apply those_insert_not. intros [_ Hf]. congruence. Qed.

Lemma ok_destroy x l l' a e : okx x l -> mem l !! a = Some e -> destroy e = false ->
  mem l' = <[a := with_destroy true e]> (mem l) -> nactives l' = nactives l ->
  (if decide (type e = TIMEOUT) then holds (key l') (timers l') (waiting (mem l) TIMEOUT ∖ {[a]}) else timers l' = timers l) ->
  (if decide (type e = PERIOD) then holds (key l') (realtimers l') (waiting (mem l) PERIOD ∖ {[a]}) else realtimers l' = realtimers l) ->
  ntimers l' = (if decide (type e = IDLE) then ntimers l else u32 (ntimers l - 1)) ->
  idles l' = (if decide (type e = IDLE) then list_del a (idles l) else idles l) ->
  nidles l' = (if decide (type e = IDLE) then u32 (nidles l - 1) else nidles l) ->
  (x = None \/ x = Some a) -> okx (Some a) l'.
Proof using All.
  intros Hok Ha Hd Hm Hna Ht Hr Hnt Hi Hni Hx.
  assert (Hin : a ∈ waiting (mem l) (type e)) by (apply elem_of_waiting; by exists e).
  assert (Hne : forall ty, type e <> ty -> a ∉ waiting (mem l) ty) by (intros ty Hty (f & Hf & ? & _)%elem_of_waiting; congruence).
  assert (Hw : forall ty, waiting (mem l') ty = waiting (mem l) ty ∖ {[a]}) by (intros ty; rewrite Hm; by eapply waiting_destroy).
  assert (Hwn : forall ty, type e <> ty -> waiting (mem l') ty = waiting (mem l) ty) by (intros ty Hty; rewrite Hw; apply Hne in Hty; set_solver).
  assert (Hsz : forall ty, Z.of_nat (size (waiting (mem l') ty)) = (if decide (type e = ty) then -1 else 0) + Z.of_nat (size (waiting (mem l) ty))).
  { intros ty. destruct (decide (type e = ty)) as [<-|Hty]; [rewrite Hw, size_remove by done; lia|by rewrite Hwn]. }
  assert (Hk : forall b, key l' b = key l b).
  { intros b. unfold key. rewrite Hm. destruct (decide (b = a)) as [->|Hb]; [by rewrite lookup_insert_eq, Ha|by rewrite lookup_insert_ne]. }
  assert (Hold : forall b f, mem l' !! b = Some f -> (b = a /\ f = with_destroy true e) \/ (b <> a /\ mem l !! b = Some f)).
  { intros b f. rewrite Hm. intros [[<- <-]|[Hb Hf]]%lookup_insert_Some; auto. }
  assert (Hac : actives (mem l') = actives (mem l)) by (rewrite Hm; eapply (those_keep _ _ _ e); done).
  split.
  - destruct (decide (type e = TIMEOUT)) as [E|E]; [by rewrite Hw|]. rewrite Ht, Hwn by done. eapply law_ms_key; [intros b _; apply Hk|apply Hok].
  - destruct (decide (type e = PERIOD)) as [E|E]; [by rewrite Hw|]. rewrite Hr, Hwn by done. eapply law_ms_key; [intros b _; apply Hk|apply Hok].
  - rewrite !Hsz. pose proof (u32_shift_down _ _ 1 (ok_ntimers _ _ Hok)) as Hu. clear - Hnt Hu Hok.
    destruct (type e); rewrite Hnt, ?Hu; repeat (destruct (decide _); try congruence);
      [apply (f_equal u32); lia|apply (f_equal u32); lia|rewrite !Z.add_0_l; apply Hok].
  - rewrite Hi. destruct (decide (type e = IDLE)); [apply NoDup_filter|]; apply Hok.
  - rewrite Hi. destruct (decide (type e = IDLE)) as [E|E]; [|by rewrite Hwn by done; apply Hok]. rewrite Hw, <- (ok_idles _ _ Hok).
    apply set_eq. intros b. rewrite elem_of_difference, elem_of_singleton, !elem_of_list_to_set. unfold list_del. rewrite list_elem_of_filter. tauto.
  - rewrite Hni, Hsz. destruct (decide (type e = IDLE)); [|apply Hok].
    rewrite (u32_shift_down _ _ 1 (ok_nidles _ _ Hok)). apply (f_equal u32). lia.
  - rewrite Hna, Hac. apply Hok.
  - intros b f [[-> ->]|[_ Hf]]%Hold; [|by eapply ok_event]. pose proof (ok_event _ _ Hok _ _ Ha) as []. by split.
  - intros b f [[-> ->]|[Hb Hf]]%Hold Hbx Hdf; [done|]. eapply (ok_destroyed _ _ Hok b); [done| |done]. destruct Hx as [-> | ->]; congruence.
  - intros b f [[-> ->]|[_ Hf]]%Hold Haf; [done|]. by eapply ok_active.
Qed.

Lemma __hidle_del_ok l a e : okx None l -> mem l !! a = Some e -> type e = IDLE ->
  exists l', __hidle_del l a = Some l' /\ okx (Some a) l' /\ quiet l l' /\ mem l' = <[a := with_destroy true e]> (mem l).
Proof using All.
  intros Hok Ha Ht. unfold __hidle_del, assign. rewrite Ha. cbn [mbind option_bind]. destruct (destroy e) eqn:Hd.
  - exists l. split_and!; [done|by apply okx_weaken|done|]. rewrite insert_id; [done|]. rewrite Ha. f_equal. destruct e. cbn in *. by subst.
  - cbn [mbind option_bind]. eexists. split; [reflexivity|]. split; [|done].
    eapply (ok_destroy None l); try done; rewrite ?decide_True, ?decide_False by congruence; try done. by left.
Qed.

Lemma __htimer_del_ok x l a e : okx x l -> (x = None \/ x = Some a) -> mem l !! a = Some e -> type e <> IDLE ->
  exists l', __htimer_del l a = Some l' /\ okx (Some a) l' /\ quiet l l' /\ cur_hrtime l' = cur_hrtime l /\
    mem l' = <[a := with_destroy true e]> (mem l).
Proof using All.
  intros Hok Hx Ha Ht. unfold __htimer_del, assign. rewrite Ha. cbn [mbind option_bind]. destruct (destroy e) eqn:Hd.
  - exists l. split_and!; try done.
    + destruct Hx as [-> | ->]; [by apply okx_weaken|done].
    + rewrite insert_id; [done|]. rewrite Ha. f_equal. destruct e. cbn in *. by subst.
  - destruct (type e) eqn:Hty; [| |done].
    + destruct (law_ms_remove (key l) (timers l) (waiting (mem l) TIMEOUT) a) as (h & -> & Hh); [apply Hok|apply elem_of_waiting; by exists e|].
      cbn [mbind option_bind mem with_timers with_ntimers]. rewrite Ha. cbn [mbind option_bind]. eexists. split; [reflexivity|]. split; [|done].
      eapply (ok_destroy x l); try done; rewrite ?decide_True, ?decide_False by congruence; try done.
      eapply law_ms_key; [|exact Hh]. intros b _. unfold key. cbn. destruct (decide (b = a)) as [->|Hb]; [by rewrite lookup_insert_eq, Ha|by rewrite lookup_insert_ne].
    + destruct (law_ms_remove (key l) (realtimers l) (waiting (mem l) PERIOD) a) as (h & -> & Hh); [apply Hok|apply elem_of_waiting; by exists e|].
      cbn [mbind option_bind mem with_realtimers with_ntimers]. rewrite Ha. cbn [mbind option_bind]. eexists. split; [reflexivity|]. split; [|done].
      eapply (ok_destroy x l); try done; rewrite ?decide_True, ?decide_False by congruence; try done.
      eapply law_ms_key; [|exact Hh]. intros b _. unfold key. cbn. destruct (decide (b = a)) as [->|Hb]; [by rewrite lookup_insert_eq, Ha|by rewrite lookup_insert_ne].
Qed.

(** *** What a call of a callback leaves of the lists of pending events *)

(** An event of a list that must not be freed. *)
Definition kept l (b : nat) : Prop := exists e, mem l !! b = Some e /\ (pending e = true \/ b ∈ was_reset l).

Record frame l l' : Prop := {
  fr_pendings : pendings l' = pendings l;
  fr_npendings : npendings l' = npendings l;
  fr_event b e : mem l !! b = Some e -> pending e = true \/ b ∈ was_reset l -> exists e',
    mem l' !! b = Some e' /\ pending_next e' = pending_next e /\ (pending e' = true \/ b ∈ was_reset l');
  fr_pending b : b ∈ pending_set (mem l') -> b ∈ pending_set (mem l);
}.

#[global] Instance frame_preorder : PreOrder frame.
Proof.
  split.
  - intros l. split; try done. intros b e Hb Hk. by exists e.
  - intros l1 l2 l3 F1 F2. split.
    + rewrite (fr_pendings _ _ F2). apply F1.
    + rewrite (fr_npendings _ _ F2). apply F1.
    + intros b e Hb Hk. destruct (fr_event _ _ F1 b e Hb Hk) as (e2 & Hb2 & Hn2 & Hk2).
      destruct (fr_event _ _ F2 b e2 Hb2 Hk2) as (e3 & Hb3 & Hn3 & Hk3). exists e3. by rewrite Hn3.
    + intros b Hb. by apply F1, F2.
Qed.

Lemma frame_kept l l' b : frame l l' -> kept l b -> kept l' b.
Proof. intros F (e & Hb & Hk). destruct (fr_event _ _ F b e Hb Hk) as (e' & Hb' & _ & Hk'). by exists e'. Qed.

Lemma frame_add l l' a e : quiet l l' -> mem l !! a = None -> mem l' = <[a := e]> (mem l) -> pending e = false -> frame l l'.
Proof.
  intros (Hp & Hn & Hr) Ha Hm He. split; [done|done| |].
  - intros b f Hb Hk. exists f. rewrite Hm, lookup_insert_ne by congruence. by rewrite Hr.
  - intros b. rewrite Hm. unfold pending_set. rewrite those_insert_not by congruence. set_solver.
Qed.

Lemma frame_set l l' a e e' : pendings l' = pendings l -> npendings l' = npendings l -> was_reset l ⊆ was_reset l' ->
  mem l !! a = Some e -> mem l' = <[a := e']> (mem l) -> pending_next e' = pending_next e ->
  (pending e' = pending e \/ pending e' = false /\ (pending e = true -> a ∈ was_reset l')) -> frame l l'.
Proof.
  intros Hp Hn Hr Ha Hm Hnext He. split; [done|done| |].
  - intros b f Hb Hk. rewrite Hm. destruct (decide (b = a)) as [->|Hba].
    + rewrite lookup_insert_eq. exists e'. assert (f = e) as -> by congruence. split; [done|]. split; [done|].
      destruct He as [-> | [_ He]]; [set_solver|]. right. destruct Hk; [auto|set_solver].
    + rewrite lookup_insert_ne by done. exists f. split; [done|]. split; [done|]. set_solver.
  - intros b. rewrite Hm. unfold pending_set. rewrite !elem_of_those. intros (f & [[<- <-]|[_ Hf]]%lookup_insert_Some & Hpf); [|by exists f].
    exists e. split; [done|]. destruct He as [<- | [He _]]; congruence.
Qed.

Lemma frame_delete l l' a e : quiet l l' -> mem l !! a = Some e -> mem l' = delete a (mem l) -> pending e = false -> a ∉ was_reset l -> frame l l'.
Proof.
  intros (Hp & Hn & Hr) Ha Hm He Hreset. split; [done|done| |].
  - intros b f Hb Hk. rewrite Hm, lookup_delete_ne, Hr by (intros ->; destruct Hk; congruence). by exists f.
  - intros b. rewrite Hm. unfold pending_set. rewrite those_delete. set_solver.
Qed.

(** *** The calls *)

Definition u32_ok (z : Z) : Prop := 0 <= z < 2 ^ 32.

(** Assignments to the events of a loop. *)
Lemma assign_eq l a e g : mem l !! a = Some e -> assign l a g = Some (with_mem (<[a := g e]> (mem l)) l).
Proof. intros Ha. unfold assign. by rewrite Ha. Qed.

Lemma EVENT_ADD_eq l a e c : mem l !! a = Some e -> active e = false ->
  EVENT_ADD l a c = Some (with_nactives (u32 (nactives l + 1)) (with_mem (<[a := with_active true (with_cb c e)]> (mem l)) l)).
Proof.
  intros Ha He. unfold EVENT_ADD, EVENT_ACTIVE. rewrite (assign_eq l a e) by done. cbn [mbind option_bind mem with_mem].
  rewrite lookup_insert_eq. cbn [mbind option_bind active with_cb]. rewrite He, (assign_eq _ a (with_cb c e)) by apply lookup_insert_eq.
  cbn [mbind option_bind mem with_mem nactives]. by rewrite insert_insert_eq.
Qed.

Lemma hidle_add_ok l a c rep : okx None l -> mem l !! a = None -> u32_ok rep ->
  exists l', hidle_add l a c rep = Some l' /\ okx None l' /\ frame l l'.
Proof using All.
  intros Hok Ha Hrep. unfold hidle_add. set (e := mkEvent _ _ _ _ _ _ _ _ _ _ _).
  rewrite (EVENT_ADD_eq _ a e) by (by cbn; rewrite ?lookup_insert_eq). cbn [mbind option_bind mem with_mem with_idles nactives].
  rewrite insert_insert_eq. eexists. split; [reflexivity|]. split.
  - by eapply (ok_add l _ a (with_active true (with_cb c e))).
  - by eapply (frame_add l _ a (with_active true (with_cb c e))).
Qed.

Lemma start_timeout_range now ms : 0 <= start_timeout now ms < 2 ^ 64.
Proof.
  unfold start_timeout, u64. case_decide; [|apply Z.mod_pos_bound; lia]. pose proof (Z.mod_pos_bound (now + (ms * 1000) mod 2 ^ 64) (2 ^ 64) ltac:(lia)).
  Z.to_euclidean_division_equations. lia.
Qed.

Lemma hloop_update_time_fields l c : timers (hloop_update_time l c) = timers l /\ realtimers (hloop_update_time l c) = realtimers l /\
  mem (hloop_update_time l c) = mem l /\ quiet l (hloop_update_time l c) /\ (forall x, okx x l -> okx x (hloop_update_time l c)).
Proof.
  unfold hloop_update_time. case_decide; (split_and!; [done|done|done|done|]); intros x [? ? ? ? ? ? ? ? ? ?]; by split.
Qed.

(** Inserting a new timer: the keys of the others are as before. *)
Lemma insert_new l h (S : gset nat) a e : mem l !! a = None -> a ∉ S -> holds (key l) h S ->
  exists h', ms_insert (key (with_mem (<[a := e]> (mem l)) l)) h a = Some h' /\
    forall l', (forall b, next_timeout <$> mem l' !! b = next_timeout <$> mem (with_mem (<[a := e]> (mem l)) l) !! b) -> holds (key l') h' ({[a]} ∪ S).
Proof using All.
  intros Ha HaS Hh. destruct (law_ms_insert (key (with_mem (<[a := e]> (mem l)) l)) h S a) as (h' & E & Hh').
  - eapply law_ms_key; [|exact Hh]. intros b Hb. rewrite key_insert, decide_False; [done|]. by intros ->.
  - done.
  - exists h'. split; [done|]. intros l' Hl. eapply law_ms_key; [|exact Hh']. intros b _. unfold key. specialize (Hl b). cbn in Hl |- *.
    destruct (mem l' !! b), (<[a := e]> (mem l) !! b); cbn in Hl; congruence.
Qed.

Lemma same_next (m : gmap nat event) a e e' b : next_timeout e' = next_timeout e ->
  next_timeout <$> <[a := e']> m !! b = next_timeout <$> <[a := e]> m !! b.
Proof. intros He. destruct (decide (b = a)) as [->|Hb]; [by rewrite !lookup_insert_eq; cbn; f_equal|by rewrite !lookup_insert_ne]. Qed.

Lemma htimer_add_ok l t a c ms rep : okx None l -> mem l !! a = None -> u32_ok rep -> u32_ok ms ->
  exists l', htimer_add l t a c ms rep = Some l' /\ okx None l' /\ frame l l'.
Proof using All.
  intros Hok Ha Hrep Hms. unfold htimer_add. case_decide as Hz; [exists l; split; [done|]; split; [done|reflexivity]|].
  destruct (hloop_update_time_fields l t) as (Et & Er & Em & Hq & Hok'). set (l1 := hloop_update_time l t) in *. apply Hok' in Hok.
  assert (Ha1 : mem l1 !! a = None) by by rewrite Em. clearbody l1. set (e := mkEvent _ _ _ _ _ _ _ _ _ _ _).
  destruct (insert_new l1 (timers l1) (waiting (mem l1) TIMEOUT) a e) as (h & Eh & Hh); [done|by apply not_waiting|apply Hok|].
  cbn [timers with_mem]. rewrite Eh. cbn [mbind option_bind].
  rewrite (EVENT_ADD_eq _ a e) by (by cbn; rewrite ?lookup_insert_eq). cbn [mbind option_bind mem with_mem with_timers nactives].
  rewrite insert_insert_eq. eexists. split; [reflexivity|]. split.
  - eapply (ok_add l1 _ a (with_active true (with_cb c e))); try done.
    + split; cbn; [done|done|apply start_timeout_range|unfold u32_ok in *; intros _; lia|done].
    + apply Hh. intros b. by apply same_next.
  - eapply (frame_add l _ a (with_active true (with_cb c e))); try done. cbn. by rewrite Em.
Qed.

(** The end of both deletions. *)
Lemma del_ok l l1 a e : okx (Some a) l1 -> quiet l l1 -> mem l1 = <[a := with_destroy true e]> (mem l) -> mem l !! a = Some e ->
  a ∉ was_reset l -> exists l', EVENT_DEL l1 a = Some l' /\ okx None l' /\ frame l l'.
Proof using All.
  intros Hok1 (Q1 & Q2 & Q3) Hm1 Ha Hr.
  destruct (EVENT_DEL_ok l1 a (with_destroy true e) Hok1) as (l2 & -> & Hok2 & (R1 & R2 & R3) & Hm2); [by rewrite Hm1, lookup_insert_eq|done|].
  exists l2. split; [done|]. split; [done|]. rewrite Hm1 in Hm2. cbn in Hm2. destruct (pending e) eqn:Hp.
  - rewrite insert_insert_eq in Hm2.
    apply (frame_set l l2 a e (with_active false (with_destroy true e))); [congruence|congruence|by rewrite R3, Q3|done|done|done|by left].
  - rewrite delete_insert_eq in Hm2. apply (frame_delete l l2 a e); try done. split_and!; congruence.
Qed.

Lemma hidle_del_ok l a e : okx None l -> mem l !! a = Some e -> type e = IDLE -> a ∉ was_reset l ->
  exists l', hidle_del l a = Some l' /\ okx None l' /\ frame l l'.
Proof using All.
  intros Hok Ha Ht Hr. unfold hidle_del. rewrite Ha. cbn [mbind option_bind].
  destruct (active e); [|exists l; split; [done|]; split; [done|reflexivity]].
  destruct (__hidle_del_ok l a e Hok Ha Ht) as (l1 & -> & Hok1 & Hq1 & Hm1). by eapply del_ok.
Qed.

Lemma htimer_del_ok l a e : okx None l -> mem l !! a = Some e -> type e <> IDLE -> a ∉ was_reset l ->
  exists l', htimer_del l a = Some l' /\ okx None l' /\ frame l l'.
Proof using All.
  intros Hok Ha Ht Hr. unfold htimer_del. rewrite Ha. cbn [mbind option_bind].
  destruct (active e); [|exists l; split; [done|]; split; [done|reflexivity]].
  destruct (__htimer_del_ok None l a e Hok) as (l1 & -> & Hok1 & Hq1 & _ & Hm1); [by left|done|done|]. by eapply del_ok.
Qed.

(** *** A reset *)

Lemma ok_revive l l' a e e' : okx None l -> mem l !! a = Some e -> type e = TIMEOUT ->
  event_ok e' -> type e' = TIMEOUT -> destroy e' = false -> active e' = true ->
  mem l' = <[a := e']> (mem l) -> nactives l' = (if active e then nactives l else u32 (nactives l + 1)) ->
  holds (key l') (timers l') ({[a]} ∪ waiting (mem l) TIMEOUT) -> realtimers l' = realtimers l ->
  ntimers l' = (if destroy e then u32 (ntimers l + 1) else ntimers l) -> idles l' = idles l -> nidles l' = nidles l -> okx None l'.
Proof using All.
  intros Hok Ha Ht He' Ht' Hd' Hact' Hm Hna Hh Hr Hnt Hi Hni.
  assert (Hw : waiting (mem l') TIMEOUT = {[a]} ∪ waiting (mem l) TIMEOUT) by (rewrite Hm; by apply those_insert).
  assert (Hwn : forall ty, ty <> TIMEOUT -> waiting (mem l') ty = waiting (mem l) ty).
  { intros ty Hty. rewrite Hm. unfold waiting. rewrite those_insert_not by (intros [E _]; congruence). fold (waiting (mem l) ty).
    assert (a ∉ waiting (mem l) ty); [|set_solver]. intros (f & Hf & E & _)%elem_of_waiting. congruence. }
  assert (Hold : forall b f, mem l' !! b = Some f -> (b = a /\ f = e') \/ (b <> a /\ mem l !! b = Some f)).
  { intros b f. rewrite Hm. intros [[<- <-]|[Hb Hf]]%lookup_insert_Some; auto. }
  split.
  - by rewrite Hw.
  - rewrite Hwn, Hr by done. eapply law_ms_key; [|apply Hok]. intros b (f & Hf & E & _)%elem_of_waiting. unfold key. rewrite Hm, lookup_insert_ne; [done|congruence].
  - rewrite Hw, Hwn by done. rewrite Hnt. destruct (destroy e) eqn:Hd.
    + rewrite size_add by (intros (f & Hf & _ & E)%elem_of_waiting; congruence). rewrite (u32_shift _ _ 1 (ok_ntimers _ _ Hok)). apply (f_equal u32). lia.
    + assert ({[a]} ∪ waiting (mem l) TIMEOUT = waiting (mem l) TIMEOUT) as ->; [|apply Hok].
      assert (a ∈ waiting (mem l) TIMEOUT) by (apply elem_of_waiting; by exists e). set_solver.
  - rewrite Hi. apply Hok.
  - rewrite Hi, Hwn by done. apply Hok.
  - rewrite Hni, Hwn by done. apply Hok.
  - rewrite Hna, Hm. unfold actives. rewrite those_insert by done. fold (actives (mem l)). destruct (active e) eqn:Hact.
    + assert ({[a]} ∪ actives (mem l) = actives (mem l)) as ->; [|apply Hok]. assert (a ∈ actives (mem l)) by (apply elem_of_those; by exists e). set_solver.
    + rewrite size_add by (intros (f & Hf & E)%elem_of_those; congruence). apply (u32_shift _ _ 1), Hok.
  - intros b f [[-> ->]|[_ Hf]]%Hold; [done|]. by eapply ok_event.
  - intros b f [[-> ->]|[_ Hf]]%Hold _ Hdf; [congruence|]. by eapply ok_destroyed.
  - intros b f [[-> ->]|[_ Hf]]%Hold Haf; [congruence|]. by eapply ok_active.
Qed.

Lemma EVENT_RESET_eq l a e : mem l !! a = Some e ->
  EVENT_RESET l a = Some (with_nactives (if active e then nactives l else u32 (nactives l + 1))
    (with_mem (<[a := with_pending false (with_active true (with_destroy false e))]> (mem l)) l)).
Proof.
  intros Ha. unfold EVENT_RESET, EVENT_ACTIVE. rewrite (assign_eq l a e) by done. cbn [mbind option_bind mem with_mem].
  rewrite lookup_insert_eq. cbn [mbind option_bind active with_destroy]. destruct (active e) eqn:Hact; cbn [mbind option_bind].
  - rewrite (assign_eq _ a (with_destroy false e)) by apply lookup_insert_eq. cbn. rewrite insert_insert_eq. do 3 f_equal. destruct e. cbn in *. by subst.
  - rewrite (assign_eq _ a (with_destroy false e)) by apply lookup_insert_eq. cbn [mbind option_bind].
    rewrite (assign_eq _ a (with_active true (with_destroy false e))) by apply lookup_insert_eq. cbn. by rewrite !insert_insert_eq.
Qed.

(** The fields that a reset gives a timer. *)
Definition reset_fields (now ms : Z) (e : event) : event :=
  let e := if decide (repeat e = 0) then with_repeat 1 e else e in
  let e := if decide (ms > 0) then with_timeout ms e else e in
  with_next_timeout (start_timeout now (timeout e)) e.

Lemma reset_assigns {A} l a e ms (k : loop H -> option A) : mem l !! a = Some e ->
  (l ← (if decide (repeat e = 0) then assign l a (with_repeat 1) else Some l);
   l ← (if decide (ms > 0) then assign l a (with_timeout ms) else Some l);
   l ← assign l a (fun e => with_next_timeout (start_timeout (cur_hrtime l) (timeout e)) e);
   k l)
  = k (with_mem (<[a := reset_fields (cur_hrtime l) ms e]> (mem l)) l).
Proof.
  intros Ha. unfold reset_fields. destruct (decide (repeat e = 0)); [rewrite (assign_eq l a e) by done|]; cbn [mbind option_bind];
    (destruct (decide (ms > 0)); [erewrite assign_eq by (cbn; first [exact Ha|apply lookup_insert_eq])|]; cbn [mbind option_bind];
     erewrite assign_eq by (cbn; first [exact Ha|apply lookup_insert_eq]); cbn; by rewrite ?insert_insert_eq).
Qed.

Lemma reset_event_ok now ms e : u32_ok ms -> event_ok e -> event_ok (reset_fields now ms e).
Proof.
  intros Hms [Hp Hr Hn Ht Hpat]. unfold u32_ok in Hms. unfold reset_fields.
  repeat case_decide; split; cbn; try done; try apply start_timeout_range; intros _; lia || by apply Ht.
Qed.

Lemma htimer_reset_ok l a e ms : okx None l -> mem l !! a = Some e -> u32_ok ms ->
  exists l', htimer_reset l a ms = Some l' /\ okx None l' /\ frame l l'.
Proof using All.
  intros Hok Ha Hms. unfold htimer_reset. rewrite Ha. cbn [mbind option_bind].
  case_decide as Ht; [exists l; split; [done|]; split; [done|reflexivity]|]. assert (Hty : type e = TIMEOUT) by (destruct (type e); naive_solver).
  set (e1 := reset_fields (cur_hrtime l) ms e).
  assert (Hf : type e1 = TIMEOUT /\ pending_next e1 = pending_next e /\ active e1 = active e /\ pending e1 = pending e /\ destroy e1 = destroy e)
    by (unfold e1, reset_fields; repeat case_decide; done). destruct Hf as (Ft & Fn & Fa & Fp & Fd).
  assert (He1 : event_ok e1) by (apply reset_event_ok; [done|by eapply ok_event]).
  set (e' := with_pending false (with_active true (with_destroy false e1))).
  assert (He' : event_ok e') by (destruct He1; by split).
  set (nt := if destroy e then u32 (ntimers l + 1) else ntimers l).
  assert (Hrem : exists h, (if destroy e then Some (with_ntimers (u32 (ntimers l + 1)) l)
         else h ← ms_remove (key l) (timers l) a; Some (with_timers h l)) = Some (with_ntimers nt (with_timers h l)) /\
       holds (key l) h (waiting (mem l) TIMEOUT ∖ {[a]})).
  { unfold nt. destruct (destroy e) eqn:Hd.
    - exists (timers l). split; [by destruct l|]. assert (waiting (mem l) TIMEOUT ∖ {[a]} = waiting (mem l) TIMEOUT) as ->; [|apply Hok].
      assert (a ∉ waiting (mem l) TIMEOUT); [|set_solver]. intros (f & Hf & _ & E)%elem_of_waiting. congruence.
    - destruct (law_ms_remove (key l) (timers l) (waiting (mem l) TIMEOUT) a) as (h & -> & Hh); [apply Hok|apply elem_of_waiting; by exists e|].
      exists h. by split; [destruct l|]. }
  destruct Hrem as (h & -> & Hh). cbn [mbind option_bind]. rewrite (reset_assigns _ a e) by done. cbn [cur_hrtime with_ntimers with_timers mem]. fold e1.
  destruct (law_ms_insert (key (with_mem (<[a := e1]> (mem l)) l)) h (waiting (mem l) TIMEOUT ∖ {[a]}) a) as (h' & Eh & Hh').
  { eapply law_ms_key; [|exact Hh]. intros b Hb. rewrite key_insert, decide_False; [done|set_solver]. }
  { set_solver. }
  cbn [timers with_mem with_ntimers with_timers]. change (key (with_mem (<[a:=e1]> (mem l)) (with_ntimers nt (with_timers h l)))) with (key (with_mem (<[a := e1]> (mem l)) l)).
  rewrite Eh. cbn [mbind option_bind]. rewrite (EVENT_RESET_eq _ a e1) by (cbn; apply lookup_insert_eq).
  cbn [mbind option_bind mem with_mem with_timers with_ntimers nactives]. rewrite insert_insert_eq. fold e'. rewrite Fa.
  set (l2 := with_nactives _ _).
  assert (Hok2 : okx None l2).
  { eapply (ok_revive l l2 a e e'); try done. eapply (law_ms_key (key (with_mem (<[a := e1]> (mem l)) l))).
    - intros b _. unfold key, l2. cbn. destruct (decide (b = a)) as [->|Hb]; [by rewrite !lookup_insert_eq|by rewrite !lookup_insert_ne].
    - assert ({[a]} ∪ waiting (mem l) TIMEOUT = {[a]} ∪ waiting (mem l) TIMEOUT ∖ {[a]}) as ->; [|done].
      apply set_eq. intros b. destruct (decide (b = a)); set_solver. }
  destruct (pending e) eqn:Hp; eexists; (split; [reflexivity|]).
  - split; [destruct Hok2; by split|]. eapply (frame_set l _ a e e'); try done; [cbn; set_solver|]. right. split; [done|]. intros _. cbn. set_solver.
  - split; [done|]. eapply (frame_set l l2 a e e'); try done. left. by rewrite Hp.
Qed.
End Invariant.

(** ** The lists of pending events *)

(** The events from [o] on are [ids], by [pending_next]. *)
Fixpoint path (m : gmap nat event) (o : option nat) (ids : list nat) : Prop :=
  match ids with
  | [] => o = None
  | a :: ids => o = Some a /\ exists e, m !! a = Some e /\ path m (pending_next e) ids
  end.

(** The events of each priority, in their order. *)
Record chained {H} (l : loop H) (ls : Z -> list nat) : Prop := {
  ch_path i : path (mem l) (pendings l i) (ls i);
  ch_nodup i : NoDup (ls i);
  ch_member a i : a ∈ ls i <-> exists e, mem l !! a = Some e /\ pending e = true /\ HEVENT_PRIORITY_INDEX (priority e) = i;
  ch_count : npendings l = u32 (Z.of_nat (size (pending_set (mem l))));
}.

Lemma path_same (m m' : gmap nat event) ids : forall o, path m o ids ->
  (forall b e, b ∈ ids -> m !! b = Some e -> exists e', m' !! b = Some e' /\ pending_next e' = pending_next e) -> path m' o ids.
Proof.
  induction ids as [|a ids IH]; intros o; [done|]. intros (-> & e & Ha & Hp) Hm. split; [done|].
  destruct (Hm a e) as (e' & Ha' & Hn); [by left|done|]. exists e'. split; [done|]. rewrite Hn. apply IH; [done|].
  intros b f Hb. apply Hm. by right.
Qed.

Section Pendings.
Context {H : Type} `{MinSetLaws H holds}.
Context (localtime : Z -> tm) (mktime : tm -> Z * tm) (run : nat -> nat -> loop H -> list call).
Implicit Types l : loop H.
Local Notation okh := (okx (holds := holds)).

Lemma cron_timeout_range c tt : 0 <= cron_timeout localtime mktime c tt < 2 ^ 64.
Proof using. unfold cron_timeout, u64. apply Z.mod_pos_bound. lia. Qed.

Lemma htimer_add_period_ok l tt a c p rep : okh None l -> mem l !! a = None -> u32_ok rep ->
  exists l', htimer_add_period localtime mktime l tt a c p rep = Some l' /\ okh None l' /\ frame l l'.
Proof using All.
  intros Hok Ha Hrep. unfold htimer_add_period. case_decide as Hz; [exists l; split; [done|]; split; [done|reflexivity]|].
  set (e := mkEvent _ _ _ _ _ _ _ _ _ _ _).
  destruct (insert_new l (realtimers l) (waiting (mem l) PERIOD) a e) as (h & Eh & Hh); [done|by apply not_waiting|apply Hok|].
  cbn [realtimers with_mem]. rewrite Eh. cbn [mbind option_bind].
  rewrite (EVENT_ADD_eq _ a e) by (by cbn; rewrite ?lookup_insert_eq). cbn [mbind option_bind mem with_mem with_realtimers nactives].
  rewrite insert_insert_eq. eexists. split; [reflexivity|]. split.
  - eapply (ok_add l _ a (with_active true (with_cb c e))); try done.
    + split; cbn; [done|done|apply cron_timeout_range|done|]. intros _. unfold pattern_ok. lia.
    + apply Hh. intros b. by apply same_next.
  - by eapply (frame_add l _ a (with_active true (with_cb c e))).
Qed.

(** The contract of the callbacks: a new event is at a new address, the others are
    allocated; an event that was reset while it was pending is not deleted before
    the lists have been processed. *)
Definition call_ok l (c : call) : Prop :=
  match c with
  | Idle_add a _ rep => mem l !! a = None /\ u32_ok rep
  | Idle_del a => exists e, mem l !! a = Some e /\ type e = IDLE /\ a ∉ was_reset l
  | Timer_add _ a _ ms rep => mem l !! a = None /\ u32_ok rep /\ u32_ok ms
  | Period_add _ a _ _ rep => mem l !! a = None /\ u32_ok rep
  | Timer_reset a ms => is_Some (mem l !! a) /\ u32_ok ms
  | Timer_del a => exists e, mem l !! a = Some e /\ type e <> IDLE /\ a ∉ was_reset l
  end.

Fixpoint calls_ok l (cs : list call) : Prop :=
  match cs with
  | [] => True
  | c :: cs => call_ok l c /\ forall l', exec localtime mktime l c = Some l' -> calls_ok l' cs
  end.

Definition callbacks_ok : Prop := forall c a l, okh None l -> calls_ok l (run c a l).

Lemma exec_call_ok l c : okh None l -> call_ok l c ->
  exists l', exec localtime mktime l c = Some l' /\ okh None l' /\ frame l l'.
Proof using All.
  intros Hok. destruct c as [a c rep|a|t a c ms rep|tt a c p rep|a ms|a]; cbn.
  - intros [Ha Hr]. by apply hidle_add_ok.
  - intros (e & Ha & Ht & Hr). by apply (hidle_del_ok l a e).
  - intros (Ha & Hr & Hms). by apply htimer_add_ok.
  - intros [Ha Hr]. by apply htimer_add_period_ok.
  - intros [[e Ha] Hms]. by apply (htimer_reset_ok l a e).
  - intros (e & Ha & Ht & Hr). by apply (htimer_del_ok l a e).
Qed.

Lemma exec_all_ok cs : forall l, okh None l -> calls_ok l cs ->
  exists l', exec_all localtime mktime l cs = Some l' /\ okh None l' /\ frame l l'.
Proof using All.
  induction cs as [|c cs IH]; intros l Hok Hcs; [exists l; split; [done|]; split; [done|reflexivity]|].
  destruct Hcs as [Hc Hcs]. destruct (exec_call_ok l c Hok Hc) as (l1 & E & Hok1 & F1). cbn [exec_all]. rewrite E. cbn [mbind option_bind].
  destruct (IH l1 Hok1 (Hcs l1 E)) as (l2 & E2 & Hok2 & F2). exists l2. split; [done|]. split; [done|]. by transitivity l1.
Qed.

(** Processing the events [ids] leaves those of the other lists linked. *)
Record processed (ids : list nat) l l' : Prop := {
  pr_pendings : pendings l' = pendings l;
  pr_event b e : b ∉ ids -> mem l !! b = Some e -> pending e = true \/ b ∈ was_reset l -> exists e',
    mem l' !! b = Some e' /\ pending_next e' = pending_next e /\ (pending e' = true \/ b ∈ was_reset l');
  pr_pending b : b ∈ pending_set (mem l') -> b ∈ pending_set (mem l) /\ b ∉ ids;
}.

Lemma processed_trans ids ids' l1 l2 l3 : processed ids l1 l2 -> processed ids' l2 l3 -> processed (ids ++ ids') l1 l3.
Proof.
  intros P1 P2. split.
  - rewrite (pr_pendings _ _ _ P2). apply P1.
  - intros b e Hb Hm Hk. rewrite elem_of_app in Hb. destruct (pr_event _ _ _ P1 b e) as (e2 & Hb2 & Hn2 & Hk2); [tauto|done|done|].
    destruct (pr_event _ _ _ P2 b e2) as (e3 & Hb3 & Hn3 & Hk3); [tauto|done|done|]. exists e3. by rewrite Hn3.
  - intros b Hb. apply (pr_pending _ _ _ P2) in Hb as [Hb Hb2]. apply (pr_pending _ _ _ P1) in Hb as [Hb Hb1].
    rewrite elem_of_app. tauto.
Qed.

Lemma processed_kept ids l l' b : processed ids l l' -> b ∉ ids -> kept l b -> kept l' b.
Proof. intros P Hb (e & Hm & Hk). destruct (pr_event _ _ _ P b e Hb Hm Hk) as (e' & Hb' & _ & Hk'). by exists e'. Qed.

Lemma processed_path ids l l' o ids' : processed ids l l' -> (forall b, b ∈ ids' -> b ∉ ids /\ kept l b) ->
  path (mem l) o ids' -> path (mem l') o ids'.
Proof.
  intros P Hids. intros Hp. eapply path_same; [exact Hp|]. intros b e Hb He. destruct (Hids b Hb) as [Hn (f & Hf & Hk)].
  assert (f = e) as -> by congruence. destruct (pr_event _ _ _ P b e Hn He Hk) as (e' & Hb' & Hne & _). by exists e'.
Qed.

(** The flag is cleared, and the event freed if it was marked. *)
Lemma finish_pending l a : okh None l -> kept l a ->
  exists l', (l ← assign l a (with_pending false); e ← mem l !! a; if destroy e then EVENT_DEL l a else Some l) = Some l' /\
    okh None l' /\ processed [a] l l'.
Proof using All.
  intros Hok (e & Ha & _). rewrite (assign_eq l a e) by done. cbn [mbind option_bind mem with_mem]. rewrite lookup_insert_eq.
  cbn [mbind option_bind destroy with_pending]. set (e' := with_pending false e). set (l1 := with_mem _ l).
  assert (Hok1 : okh (Some a) l1).
  { eapply (ok_assign (Some a) l a e e'); try done; [by apply okx_weaken|]. destruct (ok_event _ _ Hok _ _ Ha). by split. }
  assert (Hpr : forall m, m = mem l1 \/ m = delete a (mem l1) -> forall l', mem l' = m -> quiet l1 l' -> processed [a] l l').
  { intros m Hm l' El (Q1 & Q2 & Q3). split; [done| |].
    - intros b f Hb Hf Hk. exists f. rewrite El. cbn in Q3. rewrite Q3. split; [|done]. apply not_elem_of_cons in Hb as [Hb _].
      destruct Hm as [-> | ->]; cbn; rewrite ?lookup_delete_ne, lookup_insert_ne by done; done.
    - intros b (f & Hf & Hp)%elem_of_those. rewrite list_elem_of_singleton. rewrite El in Hf. destruct (decide (b = a)) as [->|Hb].
      + destruct Hm as [-> | ->]; cbn in Hf; [|by rewrite lookup_delete_eq in Hf]. rewrite lookup_insert_eq in Hf. by injection Hf as <-.
      + split; [|done]. apply elem_of_those. exists f. destruct Hm as [-> | ->]; cbn in Hf; rewrite ?lookup_delete_ne, lookup_insert_ne in Hf by done; done. }
  destruct (destroy e) eqn:Hd.
  - destruct (EVENT_DEL_ok l1 a e' Hok1) as (l' & E & Hok' & Hq & Hm); [apply lookup_insert_eq|done|]. exists l'. split; [done|]. split; [done|].
    eapply Hpr; [right; reflexivity|exact Hm|exact Hq].
  - exists l1. split; [done|]. split; [|by eapply Hpr; [left|..]]. destruct Hok1 as [? ? ? ? ? ? ? ? Hde ?]. split; try done.
    intros b f Hb _ Hf. destruct (decide (b = a)) as [->|Hba]; [|eapply (Hde b); [done|congruence|done]].
    cbn in Hb. rewrite lookup_insert_eq in Hb. injection Hb as <-. cbn in Hf. congruence.
Qed.

(** *** Which events a call touches *)

Ltac bind_inv := repeat match goal with
  | E : _ ≫= _ = Some _ |- _ => apply bind_Some in E as (? & ? & ?)
  | E : (if ?c then _ else _) = Some _ |- _ => destruct c
  | E : match ?c with TIMEOUT => _ | PERIOD => _ | IDLE => _ end = Some _ |- _ => destruct c
  | E : Some _ = Some _ |- _ => injection E as <-
  end.

Lemma assign_other l a g l' b : assign l a g = Some l' -> b <> a -> mem l' !! b = mem l !! b.
Proof using. unfold assign. intros E Hb. bind_inv. cbn. by rewrite lookup_insert_ne. Qed.
Lemma EVENT_ACTIVE_other l a l' b : EVENT_ACTIVE l a = Some l' -> b <> a -> mem l' !! b = mem l !! b.
Proof using. unfold EVENT_ACTIVE. intros E Hb. bind_inv; [done|]. cbn. by eapply assign_other. Qed.
Lemma EVENT_ADD_other l a c l' b : EVENT_ADD l a c = Some l' -> b <> a -> mem l' !! b = mem l !! b.
Proof using.
  unfold EVENT_ADD. intros E Hb. bind_inv. transitivity (mem x !! b); [by eapply EVENT_ACTIVE_other|by eapply assign_other].
Qed.
Lemma EVENT_DEL_other l a l' b : EVENT_DEL l a = Some l' -> b <> a -> mem l' !! b = mem l !! b.
Proof using.
  unfold EVENT_DEL, EVENT_INACTIVE. intros E Hb. bind_inv; cbn; rewrite ?lookup_delete_ne by done; try done; by eapply assign_other.
Qed.
Lemma EVENT_RESET_other l a l' b : EVENT_RESET l a = Some l' -> b <> a -> mem l' !! b = mem l !! b.
Proof using.
  unfold EVENT_RESET. intros E Hb. bind_inv. transitivity (mem x0 !! b); [by eapply assign_other|].
  transitivity (mem x !! b); [by eapply EVENT_ACTIVE_other|by eapply assign_other].
Qed.
Lemma __htimer_del_other l a l' b : __htimer_del l a = Some l' -> b <> a -> mem l' !! b = mem l !! b.
Proof using.
  unfold __htimer_del. intros E Hb. bind_inv; [done|..];
    match goal with E : assign ?l1 _ _ = Some l' |- _ => transitivity (mem l1 !! b); [by eapply assign_other|done] end.
Qed.
Lemma __hidle_del_other l a l' b : __hidle_del l a = Some l' -> b <> a -> mem l' !! b = mem l !! b.
Proof using. unfold __hidle_del. intros E Hb. bind_inv; [done|]. cbn. by eapply assign_other. Qed.

Lemma htimer_reset_other l a ms l' b : htimer_reset l a ms = Some l' -> b <> a -> mem l' !! b = mem l !! b.
Proof using.
  unfold htimer_reset. intros (e & Ha & E)%bind_Some Hb. case_decide; [by injection E as <-|].
  apply bind_Some in E as (l1 & E1 & E). apply bind_Some in E as (l2 & E2 & E). apply bind_Some in E as (l3 & E3 & E).
  apply bind_Some in E as (l4 & E4 & E). apply bind_Some in E as (h & _ & E). apply bind_Some in E as (l5 & E5 & E).
  assert (mem l' = mem l5) as -> by (destruct (pending e); by injection E as <-).
  rewrite (EVENT_RESET_other _ a l5 b E5 Hb). cbn. rewrite (assign_other _ a _ l4 b E4 Hb).
  assert (mem l3 !! b = mem l2 !! b) as -> by (clear E2; case_decide; [by eapply assign_other|by injection E3 as <-]).
  assert (mem l2 !! b = mem l1 !! b) as -> by (clear E3; case_decide; [by eapply assign_other|by injection E2 as <-]).
  destruct (destroy e); [by injection E1 as <-|]. apply bind_Some in E1 as (h1 & _ & [= <-]). done.
Qed.

Definition touches (c : call) (b : nat) : Prop :=
  match c with Idle_del a | Timer_reset a _ | Timer_del a => a = b | _ => False end.

Lemma exec_other l c l' b e : exec localtime mktime l c = Some l' -> call_ok l c -> ~ touches c b ->
  mem l !! b = Some e -> mem l' !! b = Some e.
Proof using.
  intros E Hc Ht Hb. assert (Hadd : forall a, mem l !! a = None -> b <> a) by (intros a Ha ->; congruence).
  destruct c as [a c rep|a|t a c ms rep|tt a c p rep|a ms|a]; cbn in *.
  - destruct Hc as [Ha _]. specialize (Hadd a Ha). unfold hidle_add in E. bind_inv. cbn.
    rewrite (EVENT_ADD_other _ a c x b) by done. cbn. by rewrite lookup_insert_ne.
  - unfold hidle_del in E. bind_inv; [|done].
    rewrite (EVENT_DEL_other _ a l' b), (__hidle_del_other _ a x0 b) by (done || congruence). done.
  - destruct Hc as [Ha _]. specialize (Hadd a Ha). unfold htimer_add in E. bind_inv; [done|]. cbn.
    rewrite (EVENT_ADD_other _ a c x0 b) by done. cbn. rewrite lookup_insert_ne by done. unfold hloop_update_time. by case_decide.
  - destruct Hc as [Ha _]. specialize (Hadd a Ha). unfold htimer_add_period in E. bind_inv; [done|]. cbn.
    rewrite (EVENT_ADD_other _ a c x0 b) by done. cbn. by rewrite lookup_insert_ne.
  - rewrite (htimer_reset_other _ a ms l' b) by (done || congruence). done.
  - unfold htimer_del in E. bind_inv; [|done].
    rewrite (EVENT_DEL_other _ a l' b), (__htimer_del_other _ a x0 b) by (done || congruence). done.
Qed.

Lemma exec_all_other cs : forall l l' b e, exec_all localtime mktime l cs = Some l' -> calls_ok l cs ->
  (forall c, c ∈ cs -> ~ touches c b) -> mem l !! b = Some e -> mem l' !! b = Some e.
Proof using.
  induction cs as [|c cs IH]; intros l l' b e E Hc Ht Hb; [by injection E as <-|]. cbn in E. apply bind_Some in E as (l1 & E1 & E).
  destruct Hc as [Hc Hcs]. eapply (IH l1 l' b e E (Hcs l1 E1)); [intros c' Hc'; apply Ht; by right|].
  eapply exec_other; [exact E1|done|apply Ht; by left|done].
Qed.

(** Callbacks that reset and delete no event but their own. *)
Definition self_only : Prop := forall c a l x b, x ∈ run c a l -> touches x b -> b = a.

Lemma frame_processed l l' : frame l l' -> processed [] l l'.
Proof.
  intros F. split; [apply F| |].
  - intros b e _. apply F.
  - intros b Hb. split; [by apply F|by apply not_elem_of_nil].
Qed.

(** The callback of [e] is called. *)
Definition fires (e : event) : bool := pending e && active e && match cb e with Some _ => true | None => false end.

Lemma process_pending_ok l a e ran : callbacks_ok -> okh None l -> mem l !! a = Some e -> pending e = true \/ a ∈ was_reset l ->
  exists l', process_pending localtime mktime run l a ran = Some (l', (if fires e then [a] else []) ++ ran) /\
    okh None l' /\ processed [a] l l' /\ (self_only -> forall b f, b <> a -> mem l !! b = Some f -> mem l' !! b = Some f).
Proof using All.
  intros Hcb Hok Ha Hk. unfold process_pending. rewrite Ha. cbn [mbind option_bind]. destruct (pending e) eqn:Hp.
  - assert (Hrun : exists l1, match cb e with
        | Some c => if active e then l ← exec_all localtime mktime l (run c a l); Some (l, a :: ran) else Some (l, ran)
        | None => Some (l, ran) end = Some (l1, (if fires e then [a] else []) ++ ran) /\ okh None l1 /\ frame l l1 /\
        (self_only -> forall b f, b <> a -> mem l !! b = Some f -> mem l1 !! b = Some f)).
    { unfold fires. rewrite Hp. destruct (cb e) as [c|]; [destruct (active e)|rewrite andb_false_r]; cbn.
      - destruct (exec_all_ok (run c a l) l Hok (Hcb c a l Hok)) as (l1 & E & Hok1 & F). rewrite E. exists l1.
        split; [done|]. split; [done|]. split; [done|]. intros Hso b f Hb. eapply exec_all_other; [exact E|by apply Hcb|].
        intros x Hx Ht. by apply Hb, (Hso c a l x b).
      - exists l. split; [done|]. split; [done|]. by split.
      - exists l. split; [done|]. split; [done|]. by split. }
    destruct Hrun as (l1 & -> & Hok1 & F & Hother). cbn [mbind option_bind].
    destruct (finish_pending l1 a Hok1) as (l2 & E & Hok2 & P); [apply (frame_kept l l1 a F); exists e; split; [done|by left]|].
    exists l2. split; [|split; [done|split; [by apply (processed_trans [] [a] l l1 l2); [apply frame_processed|]|]]].
    + destruct (assign l1 a (with_pending false)) as [l3|]; [|done]. cbn [mbind option_bind] in E |- *.
      destruct (mem l3 !! a) as [e3|]; [|done]. cbn [mbind option_bind] in E |- *. by rewrite E.
    + intros Hso b f Hb Hf. rewrite <- (Hother Hso b f Hb Hf). apply bind_Some in E as (l3 & E3 & E). apply bind_Some in E as (e3 & _ & E).
      rewrite <- (assign_other _ a _ l3 b E3 Hb). destruct (destroy e3); [by eapply EVENT_DEL_other|by injection E as <-].
  - exists l. unfold fires. rewrite Hp. cbn. split; [done|]. split; [done|]. split; [|done]. split; [done| |].
    + intros b f _ Hb Hkb. by exists f.
    + intros b Hb. split; [done|]. apply elem_of_those in Hb as (f & Hf & Hpf). rewrite list_elem_of_singleton. intros ->. congruence.
Qed.

(** The event is one whose callback is called. *)
Definition live (m : gmap nat event) (b : nat) : bool := match m !! b with Some e => fires e | None => false end.

(** One list: those that run do so in its order; if the callbacks leave the other
    events alone, all of them run. *)
Lemma process_list_ok ids : forall fuel l o ran, callbacks_ok -> okh None l -> path (mem l) o ids -> NoDup ids ->
  (forall b, b ∈ ids -> kept l b) -> (length ids < fuel)%nat ->
  exists l' ran', process_list localtime mktime run fuel l o ran = Some (l', rev ran' ++ ran) /\ okh None l' /\ processed ids l l' /\
    ran' `sublist_of` ids /\
    (self_only -> ran' = List.filter (live (mem l)) ids /\ forall b f, b ∉ ids -> mem l !! b = Some f -> mem l' !! b = Some f).
Proof using All.
  induction ids as [|a ids IH]; intros fuel l o ran Hcb Hok Hp Hnd Hk Hfuel; (destruct fuel as [|fuel]; [cbn in Hfuel; lia|]).
  - cbn in Hp. subst o. exists l, []. split; [done|]. split; [done|]. split; [apply frame_processed; reflexivity|].
    split; [constructor|done].
  - destruct Hp as (-> & e & Ha & Hp). cbn [process_list]. rewrite Ha. cbn [mbind option_bind]. apply NoDup_cons in Hnd as [Hna Hnd].
    destruct (Hk a) as (f & Hf & Hkf); [by left|]. assert (f = e) as -> by congruence.
    destruct (process_pending_ok l a e ran Hcb Hok Ha Hkf) as (l1 & -> & Hok1 & P1 & Ho1). cbn [mbind option_bind].
    assert (Hrest : forall b, b ∈ ids -> b ∉ [a] /\ kept l b).
    { intros b Hb. split; [rewrite list_elem_of_singleton; by intros ->|apply Hk; by right]. }
    destruct (IH fuel l1 (pending_next e) ((if fires e then [a] else []) ++ ran) Hcb Hok1) as (l2 & ran' & -> & Hok2 & P2 & Hs & Hex).
    + by eapply processed_path.
    + done.
    + intros b Hb. destruct (Hrest b Hb). by eapply processed_kept.
    + cbn in Hfuel. lia.
    + exists l2, ((if fires e then [a] else []) ++ ran'). split; [|split; [done|split; [by apply (processed_trans [a] ids l l1 l2)|split]]].
      * destruct (fires e); cbn; [by rewrite <- app_assoc|done].
      * destruct (fires e); cbn; [by apply sublist_skip|by apply sublist_cons].
      * intros Hso. specialize (Ho1 Hso). destruct (Hex Hso) as [-> Hmem]. split.
        -- cbn. unfold live at 2. rewrite Ha. assert (List.filter (live (mem l1)) ids = List.filter (live (mem l)) ids) as ->; [|by destruct (fires e)].
           apply filter_ext_in. intros b Hb%list_elem_of_In. destruct (Hrest b Hb) as [Hba (g & Hg & _)].
           unfold live. rewrite Hg, (Ho1 b g); [done| |done]. intros ->. by apply Hna.
        -- intros b g Hb Hg. apply not_elem_of_cons in Hb as [Hb1 Hb2]. apply Hmem; [done|]. by apply Ho1.
Qed.

(** The lists in the order in which they are processed, from priority [i - 1] down. *)
Fixpoint order (ls : Z -> list nat) (i : nat) : list nat :=
  match i with O => [] | S i => ls (Z.of_nat i) ++ order ls i end.

Lemma elem_of_order ls i b : b ∈ order ls i <-> exists j, (j < i)%nat /\ b ∈ ls (Z.of_nat j).
Proof.
  induction i as [|i IH]; cbn; [split; [by intros ?%not_elem_of_nil|intros (j & ? & _); lia]|].
  rewrite elem_of_app, IH. split.
  - intros [Hb|(j & Hj & Hb)]; [by exists i; split; [lia|]|]. exists j. split; [lia|done].
  - intros (j & Hj & Hb). destruct (decide (j = i)) as [->|Hji]; [by left|]. right. exists j. split; [lia|done].
Qed.

Lemma order_nil ls i : (forall j, ls j = []) -> order ls i = [].
Proof. intros Hnil. induction i as [|i IH]; [done|]. cbn. by rewrite Hnil, IH. Qed.

Lemma process_lists_ok fuel ls i : forall l ran, callbacks_ok -> okh None l ->
  (forall j, (j < i)%nat -> path (mem l) (pendings l (Z.of_nat j)) (ls (Z.of_nat j)) /\ (length (ls (Z.of_nat j)) < fuel)%nat) ->
  NoDup (order ls i) -> (forall b, b ∈ order ls i -> kept l b) ->
  exists l' ran', process_lists localtime mktime run fuel i l ran = Some (l', rev ran' ++ ran) /\ okh None l' /\
    (forall j, pendings l' j = if decide (0 <= j < Z.of_nat i) then None else pendings l j) /\
    (forall b, b ∈ pending_set (mem l') -> b ∈ pending_set (mem l) /\ b ∉ order ls i) /\
    ran' `sublist_of` order ls i /\ (self_only -> ran' = List.filter (live (mem l)) (order ls i)).
Proof using All.
  induction i as [|i IH]; intros l ran Hcb Hok Hls Hnd Hk.
  - exists l, []. split_and!; [done|done|intros j; by rewrite decide_False by lia| |constructor|done]. intros b Hb. by split; [|apply not_elem_of_nil].
  - cbn [process_lists order] in *. destruct (Hls i) as [Hpi Hfi]; [lia|]. apply NoDup_app in Hnd as (Hndi & Hdis & Hnd).
    destruct (process_list_ok (ls (Z.of_nat i)) fuel l _ ran Hcb Hok Hpi Hndi) as (l1 & ran1 & -> & Hok1 & P1 & Hs1 & Hex1); [|done|].
    { intros b Hb. apply Hk. apply elem_of_app. by left. }
    cbn [mbind option_bind]. set (l2 := with_pendings _ _ l1). assert (Hok2 : okh None l2) by (destruct Hok1; by split).
    destruct (IH l2 (rev ran1 ++ ran) Hcb Hok2) as (l' & ran' & -> & Hok' & Hp' & Hpe' & Hs' & Hex'); [| done | |].
    + intros j Hj. destruct (Hls j) as [Hpj Hfj]; [lia|]. split; [|done]. cbn. rewrite decide_False by lia. rewrite (pr_pendings _ _ _ P1).
      eapply processed_path; [exact P1| |done]. intros b Hb. assert (Ho : b ∈ order ls i) by (apply elem_of_order; by exists j).
      split; [intros Hbi; by eapply Hdis|]. apply Hk, elem_of_app. by right.
    + intros b Hb. apply (processed_kept _ _ _ b P1); [intros Hbi; by eapply Hdis|]. apply Hk, elem_of_app. by right.
    + exists l', (ran1 ++ ran'). split; [|split; [done|split; [|split; [|split; [by apply sublist_app|]]]]].
      * by rewrite rev_app_distr, <- app_assoc.
      * intros j. rewrite Hp'. cbn. rewrite (pr_pendings _ _ _ P1). repeat case_decide; try done; lia.
      * intros b Hb. apply Hpe' in Hb as [Hb Hbo]. cbn in Hb. apply (pr_pending _ _ _ P1) in Hb as [Hb Hbi]. split; [done|].
        rewrite elem_of_app. tauto.
      * intros Hso. destruct (Hex1 Hso) as [-> Hmem]. rewrite (Hex' Hso), List.filter_app. f_equal. apply filter_ext_in.
        intros b Hb%list_elem_of_In. destruct (Hk b) as (f & Hf & _); [apply elem_of_app; by right|].
        unfold live, l2. cbn. rewrite Hf, (Hmem b f); [done| |done]. intros Hbi. by eapply Hdis.
Qed.

(** No event is pending. *)
Lemma chained_empty l : okh None l -> (forall i, pendings l i = None) -> npendings l = 0 -> pending_set (mem l) = ∅ -> chained l (fun _ => []).
Proof.
  intros Hok Hp Hn He. split.
  - done.
  - constructor.
  - intros a i. split; [by intros ?%not_elem_of_nil|]. intros (e & Ha & Hpe & _). assert (Hin : a ∈ pending_set (mem l)) by (apply elem_of_those; by exists e).
    by rewrite He, elem_of_empty in Hin.
  - by rewrite Hn, He, size_empty.
Qed.

(** The index of a pending event is one of the array. *)
Lemma chained_index l ls a i : okh None l -> chained l ls -> a ∈ ls i -> 0 <= i < HEVENT_PRIORITY_SIZE.
Proof using All.
  intros Hok Hc (e & Ha & _ & <-)%(ch_member _ _ Hc). rewrite (ev_priority _ (ok_event _ _ Hok _ _ Ha)).
  by destruct (type e).
Qed.

Lemma chained_order l ls i : chained l ls -> NoDup (order ls i).
Proof using All.
  intros Hc. induction i as [|i IH]; cbn; [constructor|]. apply NoDup_app. split; [apply Hc|]. split; [|done].
  intros b (e & Hb & _ & Hi)%(ch_member _ _ Hc) (j & Hj & (f & Hf & _ & Hij)%(ch_member _ _ Hc))%elem_of_order.
  assert (f = e) as -> by congruence. lia.
Qed.

Lemma chained_length l ls i : chained l ls -> (length (ls i) <= size (mem l))%nat.
Proof using All.
  intros Hc. rewrite <- (size_dom (D := gset nat)), <- (size_list_to_set (C := gset nat) (ls i)) by apply Hc.
  apply subseteq_size. intros a Ha. apply elem_of_list_to_set, (ch_member _ _ Hc) in Ha as (e & Ha & _). apply elem_of_dom. by exists e.
Qed.

(** Between two iterations: nothing is pending, nothing is marked for deletion. *)
Definition at_rest l : Prop := okh None l /\ chained l (fun _ => []).

Lemma pendings_ok l ls fuel : callbacks_ok -> okh None l -> chained l ls -> (size (mem l) < fuel)%nat -> Z.of_nat (size (mem l)) < 2 ^ 32 ->
  exists l' ran, hloop_process_pendings localtime mktime run fuel l = Some (l', rev ran) /\ at_rest l' /\
    ran `sublist_of` order ls (Z.to_nat HEVENT_PRIORITY_SIZE) /\
    (self_only -> ran = List.filter (live (mem l)) (order ls (Z.to_nat HEVENT_PRIORITY_SIZE))).
Proof using All.
  intros Hcb Hok Hc Hfuel Hsz. unfold hloop_process_pendings.
  assert (Hps : (size (pending_set (mem l)) <= size (mem l))%nat).
  { rewrite <- (size_dom (D := gset nat)). apply subseteq_size. intros a (e & Ha & _)%elem_of_those. apply elem_of_dom. by exists e. }
  case_decide as Hz.
  - exists l, []. split; [done|].
    assert (He : pending_set (mem l) = ∅).
    { pose proof (ch_count _ _ Hc) as Hn. rewrite Hz in Hn. unfold u32 in Hn. rewrite Z.mod_small in Hn by lia.
      apply leibniz_equiv, size_empty_inv. lia. }
    assert (Hnil : forall i, ls i = []).
    { intros i. destruct (ls i) as [|a ids] eqn:E; [done|]. destruct (proj1 (ch_member _ _ Hc a i)) as (e & Ha & Hp & _); [rewrite E; by left|].
      assert (Hin : a ∈ pending_set (mem l)) by (apply elem_of_those; by exists e). by rewrite He, elem_of_empty in Hin. }
    assert (order ls (Z.to_nat HEVENT_PRIORITY_SIZE) = []) as -> by by apply order_nil.
    split; [|split; [constructor|done]]. split; [done|]. apply chained_empty; [done| |done|done]. intros i.
    pose proof (ch_path _ _ Hc i) as Hp. by rewrite Hnil in Hp.
  - destruct (process_lists_ok fuel ls (Z.to_nat HEVENT_PRIORITY_SIZE) l [] Hcb Hok) as (l2 & ran & -> & Hok2 & Hp2 & Hpe2 & Hs & Hex).
    + intros j _. split; [apply (ch_path _ _ Hc)|]. pose proof (chained_length _ _ (Z.of_nat j) Hc). lia.
    + by eapply chained_order.
    + intros b (j & _ & (e & Hb & Hp & _)%(ch_member _ _ Hc))%elem_of_order. exists e. split; [done|by left].
    + cbn [mbind option_bind]. rewrite app_nil_r. eexists _, ran. split; [reflexivity|]. split; [|by split].
      assert (Hok3 : okh None (with_was_reset ∅ (with_pendings (pendings l2) 0 l2))) by (destruct Hok2; by split). split; [done|].
      apply chained_empty; [done| |done|].
      * intros i. cbn. rewrite Hp2. cbn. case_decide as Hi; [done|]. assert (ls i = []) as E.
        { destruct (ls i) as [|a ids] eqn:E; [done|]. exfalso. apply Hi. assert (a ∈ ls i) as Ha by (rewrite E; by left).
          apply (chained_index l ls a i Hok Hc) in Ha. done. }
        pose proof (ch_path _ _ Hc i) as Hp. by rewrite E in Hp.
      * apply leibniz_equiv, elem_of_equiv_empty. intros b Hb. apply Hpe2 in Hb as [Hb Hbo]. apply elem_of_those in Hb as (e & Hb & Hp). apply Hbo.
        pose proof (proj2 (ch_member _ _ Hc b _) (ex_intro _ e (conj Hb (conj Hp eq_refl)))) as Hin.
        pose proof (chained_index l ls b _ Hok Hc Hin) as Hi. apply elem_of_order.
        exists (Z.to_nat (HEVENT_PRIORITY_INDEX (priority e))). rewrite Z2Nat.id by lia. split; [lia|done].
Qed.

(** ** The timers that are due *)

Lemma advance_ok fuel : forall next step limit, 0 <= next -> 0 < step -> limit + step < 2 ^ 64 -> Z.max 0 (limit - next + 1) < Z.of_nat fuel ->
  exists k, advance fuel next step limit = Some (next + k * step) /\ limit < next + k * step /\ (limit < next -> k = 0) /\
    (next <= limit -> 0 < k /\ next + k * step <= limit + step).
Proof using.
  induction fuel as [|fuel IH]; intros next step limit Hn Hs Hl Hf; cbn [advance].
  - lia.
  - case_decide as Hle.
    + unfold u64. rewrite Z.mod_small by lia. destruct (decide (next + step <= limit)) as [H2|H2].
      * destruct (IH (next + step) step limit) as (k & -> & Hlt & _ & Hle2); [lia..|]. destruct (Hle2 H2) as [Hk Hb].
        exists (k + 1). split; [f_equal; lia|]. lia.
      * exists 1. destruct fuel as [|fuel]; [lia|]. cbn [advance]. rewrite decide_False by lia. split; [f_equal; lia|]. lia.
    + exists 0. split; [f_equal; lia|]. lia.
Qed.

Lemma chained_assign l l' ls a e e' : chained l ls -> mem l !! a = Some e -> mem l' = <[a := e']> (mem l) ->
  pending e' = pending e -> pending_next e' = pending_next e -> priority e' = priority e ->
  pendings l' = pendings l -> npendings l' = npendings l -> chained l' ls.
Proof using All.
  intros Hc Ha Hm Hp Hn Hpr Hps Hnp. split.
  - intros i. rewrite Hps. eapply path_same; [apply Hc|]. intros b f _ Hf. rewrite Hm. destruct (decide (b = a)) as [->|Hb].
    + rewrite lookup_insert_eq. exists e'. split; [done|]. congruence.
    + rewrite lookup_insert_ne by done. by exists f.
  - apply Hc.
  - intros b i. rewrite (ch_member _ _ Hc), Hm. destruct (decide (b = a)) as [->|Hb].
    + rewrite lookup_insert_eq, Ha. split; intros (f & [= <-] & Hf1 & Hf2); [exists e'; rewrite Hp, Hpr|exists e; rewrite <- Hp, <- Hpr]; done.
    + by rewrite lookup_insert_ne.
  - rewrite Hnp, Hm, (ch_count _ _ Hc). unfold pending_set. by rewrite (those_keep _ _ _ e) by (done || by rewrite Hp).
Qed.

(** A pending event joins the front of its list. *)
Lemma chained_pending l l' ls a e : chained l ls -> mem l !! a = Some e ->
  (if pending e then l' = l
   else mem l' = <[a := with_pending_next (pendings l (HEVENT_PRIORITY_INDEX (priority e))) (with_pending true e)]> (mem l) /\
        npendings l' = u32 (npendings l + 1) /\
        forall i, pendings l' i = if decide (i = HEVENT_PRIORITY_INDEX (priority e)) then Some a else pendings l i) ->
  chained l' (fun i => if pending e then ls i else if decide (i = HEVENT_PRIORITY_INDEX (priority e)) then a :: ls i else ls i).
Proof using All.
  intros Hc Ha. destruct (pending e) eqn:Hp; [intros ->; apply Hc|]. intros (Hm & Hn & Hps).
  assert (Hnot : forall i, a ∉ ls i) by (intros i (f & Hf & Hpf & _)%(ch_member _ _ Hc); congruence).
  assert (Hold : forall o ids, (forall b, b ∈ ids -> b <> a) -> path (mem l) o ids -> path (mem l') o ids).
  { intros o ids Hids Hpath. eapply path_same; [exact Hpath|]. intros b f Hb Hf. rewrite Hm, lookup_insert_ne by (intros <-; by eapply Hids). by exists f. }
  assert (Hne : forall i b, b ∈ ls i -> b <> a) by (intros i b Hb ->; by apply (Hnot i)).
  split.
  - intros i. rewrite Hps. case_decide as Hi.
    + split; [done|]. eexists. split; [rewrite Hm; apply lookup_insert_eq|]. apply Hold; [apply Hne|]. subst i. apply Hc.
    + apply Hold; [apply Hne|]. apply Hc.
  - intros i. case_decide; [constructor; [apply Hnot|]|]; apply Hc.
  - intros b i. rewrite Hm. destruct (decide (b = a)) as [->|Hb].
    + rewrite lookup_insert_eq. case_decide as Hi.
      * split; [|intros _; by left]. intros _. eexists. split; [done|]. done.
      * split; [by intros ?%Hnot|]. intros (f & [= <-] & _ & E). exfalso. apply Hi. symmetry. exact E.
    + rewrite lookup_insert_ne by done. rewrite <- (ch_member _ _ Hc b i). case_decide; [|done]. rewrite elem_of_cons. naive_solver.
  - rewrite Hn, Hm, (u32_shift _ _ 1 (ch_count _ _ Hc)). unfold pending_set at 2. rewrite those_insert by done. fold (pending_set (mem l)).
    rewrite size_add; [done|]. intros (f & Hf & E)%elem_of_those. congruence.
Qed.

Definition ty_of (real : bool) : event_type := if real then PERIOD else TIMEOUT.

Lemma heap_holds real l : okh None l -> holds (key l) (get_heap real l) (waiting (mem l) (ty_of real)).
Proof using All. intros Hok. destruct real; apply Hok. Qed.

(** A timer back in its heap with another time. *)
Lemma ok_requeue real l l' a e e' : okh None l -> mem l !! a = Some e -> type e = ty_of real -> destroy e = false ->
  type e' = type e -> destroy e' = destroy e -> active e' = active e -> event_ok e' ->
  mem l' = <[a := e']> (mem l) -> holds (key l') (get_heap real l') (waiting (mem l) (ty_of real)) ->
  get_heap (negb real) l' = get_heap (negb real) l ->
  ntimers l' = ntimers l -> idles l' = idles l -> nidles l' = nidles l -> nactives l' = nactives l -> okh None l'.
Proof using All.
  intros Hok Ha Hty Hd Ht' Hd' Hact' He' Hm Hh Hother Hnt Hi Hni Hna.
  assert (Hw : forall ty, waiting (mem l') ty = waiting (mem l) ty) by (intros ty; rewrite Hm; eapply (those_keep _ _ _ e); [done|cbn; by rewrite Ht', Hd']).
  assert (Hac : actives (mem l') = actives (mem l)) by (rewrite Hm; eapply (those_keep _ _ _ e); [done|cbn; by rewrite Hact']).
  assert (Hother' : holds (key l') (get_heap (negb real) l') (waiting (mem l') (ty_of (negb real)))).
  { rewrite Hw, Hother. eapply law_ms_key; [|by apply heap_holds]. intros b (f & Hf & Hft & _)%elem_of_waiting. unfold key.
    rewrite Hm, lookup_insert_ne; [done|]. intros ->. assert (f = e) as -> by congruence. rewrite Hft in Hty. by destruct real. }
  assert (Hold : forall b f, mem l' !! b = Some f -> (b = a /\ f = e') \/ (b <> a /\ mem l !! b = Some f)).
  { intros b f. rewrite Hm. intros [[<- <-]|[Hb Hf]]%lookup_insert_Some; auto. }
  split; rewrite ?Hw, ?Hac, ?Hnt, ?Hi, ?Hni, ?Hna; try apply Hok.
  - destruct real; [by rewrite Hw in Hother'|done].
  - destruct real; [done|by rewrite Hw in Hother'].
  - intros b f [[-> ->]|[_ Hf]]%Hold; [done|]. by eapply ok_event.
  - intros b f [[-> ->]|[_ Hf]]%Hold _ Hdf; [congruence|]. by eapply ok_destroyed.
  - intros b f [[-> ->]|[_ Hf]]%Hold Haf; [|by eapply ok_active]. rewrite Hd'. eapply (ok_active _ _ Hok a); [done|congruence].
Qed.

(** What firing does to a timer: it is pending, one repetition fewer is left, and
    it is marked for deletion or waits for the first of its times after [limit]
    (a pattern: for the time that follows some answer of [time]). *)
Record fired (limit : Z) (tts : nat -> Z) (e e' : event) : Prop := {
  fi_same : type e' = type e /\ cb e' = cb e /\ active e' = active e /\ timeout e' = timeout e /\ pattern e' = pattern e;
  fi_pending : pending e' = true;
  fi_repeat : repeat e' = if decide (repeat e = INFINITE) then INFINITE else u32 (repeat e - 1);
  fi_destroy : destroy e' = bool_decide (repeat e' = 0);
  fi_next : repeat e' <> 0 ->
    match type e with
    | TIMEOUT => limit < next_timeout e' <= limit + timeout e * 1000 /\
        exists k, 0 < k /\ next_timeout e' = next_timeout e + k * (timeout e * 1000)
    | PERIOD => exists n, next_timeout e' = cron_timeout localtime mktime (pattern e) (tts n)
    | IDLE => True
    end;
}.

(** The decrement. *)
Lemma dec_repeat l a e : okh None l -> mem l !! a = Some e ->
  let e1 := with_repeat (if decide (repeat e = INFINITE) then INFINITE else u32 (repeat e - 1)) e in
  (if decide (repeat e <> INFINITE) then assign l a (with_repeat (u32 (repeat e - 1))) else Some l)
    = Some (with_mem (<[a := e1]> (mem l)) l) /\ okh None (with_mem (<[a := e1]> (mem l)) l) /\ event_ok e1.
Proof using All.
  intros Hok Ha e1. assert (He1 : event_ok e1).
  { destruct (ok_event _ _ Hok _ _ Ha) as [? ? ? ? ?]. split; try done. unfold e1. cbn. case_decide; [by cbn|]. unfold u32. apply Z.mod_pos_bound. lia. }
  split; [|split; [|done]].
  - unfold e1. destruct (decide (repeat e = INFINITE)) as [E|E].
    + rewrite decide_False by (intros Hn; by apply Hn). rewrite insert_id; [by destruct l|]. rewrite Ha. f_equal. destruct e. cbn in *. by subst.
    + rewrite decide_True by done. by apply assign_eq.
  - eapply ok_assign; try done. intros _ Hd. by apply (ok_destroyed _ _ Hok a e).
Qed.

(** The range of [limit]: no time of a timer wraps. *)
Definition limit_ok (limit : Z) : Prop := 0 <= limit /\ limit + 2 ^ 32 * 1000 < 2 ^ 64.

(** A timer that goes on: out of the heap, its next time, and in again. *)
Lemma requeue_ok real limit s l a e : okh None l -> mem l !! a = Some e -> type e = ty_of real -> destroy e = false ->
  ms_root (get_heap real l) = Some a -> next_timeout e <= limit -> limit_ok limit ->
  exists l' t, (h ← ms_dequeue (key l) (get_heap real l);
      let l := set_heap real h l in
      l ← match type e with
          | TIMEOUT =>
              t ← advance (advance_fuel (next_timeout e) limit) (next_timeout e) (u64 (timeout e * 1000)) limit;
              assign l a (with_next_timeout t)
          | PERIOD => assign l a (with_next_timeout (cron_timeout localtime mktime (pattern e) s))
          | IDLE => Some l
          end;
      h ← ms_insert (key l) (get_heap real l) a;
      Some (set_heap real h l)) = Some l' /\
    okh None l' /\ mem l' = <[a := with_next_timeout t e]> (mem l) /\ quiet l l' /\ cur_hrtime l' = cur_hrtime l /\
    match type e with
    | TIMEOUT => limit < t <= limit + timeout e * 1000 /\ exists k, 0 < k /\ t = next_timeout e + k * (timeout e * 1000)
    | PERIOD => t = cron_timeout localtime mktime (pattern e) s
    | IDLE => True
    end.
Proof using All.
  intros Hok Ha Hty Hd Hroot Hnext [Hl1 Hl2]. pose proof (ok_event _ _ Hok _ _ Ha) as [Hpr Hrep Hnt Hto Hpat].
  destruct (law_ms_dequeue (key l) (get_heap real l) (waiting (mem l) (ty_of real)) a) as (h & -> & Hh); [by apply heap_holds|done|].
  cbn [mbind option_bind]. set (l1 := set_heap real h l). cbv zeta.
  assert (Hm1 : mem l1 = mem l) by (by destruct real).
  assert (Ht : exists t, match type e with
        | TIMEOUT => t ← advance (advance_fuel (next_timeout e) limit) (next_timeout e) (u64 (timeout e * 1000)) limit; assign l1 a (with_next_timeout t)
        | PERIOD => assign l1 a (with_next_timeout (cron_timeout localtime mktime (pattern e) s))
        | IDLE => Some l1 end = Some (with_mem (<[a := with_next_timeout t e]> (mem l)) l1) /\ 0 <= t < 2 ^ 64 /\
      match type e with
      | TIMEOUT => limit < t <= limit + timeout e * 1000 /\ exists k, 0 < k /\ t = next_timeout e + k * (timeout e * 1000)
      | PERIOD => t = cron_timeout localtime mktime (pattern e) s | IDLE => True end).
  { destruct (type e) eqn:Et.
    - specialize (Hto eq_refl). unfold u64. rewrite Z.mod_small by lia.
      destruct (advance_ok (advance_fuel (next_timeout e) limit) (next_timeout e) (timeout e * 1000) limit) as (k & -> & Hlt & _ & Hle);
        [lia|lia|lia|unfold advance_fuel; lia|]. cbn [mbind option_bind]. exists (next_timeout e + k * (timeout e * 1000)).
      rewrite (assign_eq l1 a e), Hm1 by (by rewrite Hm1). split; [done|]. destruct (Hle Hnext). split; [lia|]. split; [lia|]. by exists k.
    - exists (cron_timeout localtime mktime (pattern e) s). rewrite (assign_eq l1 a e), Hm1 by (by rewrite Hm1).
      split; [done|]. split; [apply cron_timeout_range|done].
    - by destruct real. }
  destruct Ht as (t & -> & Hrange & Hspec). cbn [mbind option_bind]. set (l2 := with_mem _ l1).
  assert (Hk2 : forall b, b <> a -> key l2 b = key l b) by (intros b Hb; unfold key, l2; cbn; by rewrite lookup_insert_ne).
  destruct (law_ms_insert (key l2) h (waiting (mem l) (ty_of real) ∖ {[a]}) a) as (h' & Eh & Hh').
  { eapply law_ms_key; [|exact Hh]. intros b Hb. apply Hk2. set_solver. }
  { set_solver. }
  assert (get_heap real l2 = h) as -> by (by destruct real). rewrite Eh. cbn [mbind option_bind].
  eexists _, t. split; [reflexivity|].
  assert (Hm2 : mem (set_heap real h' l2) = <[a := with_next_timeout t e]> (mem l)) by (by destruct real).
  split; [|split; [exact Hm2|split; [by destruct real|split; [by destruct real|exact Hspec]]]].
  eapply (ok_requeue real l _ a e (with_next_timeout t e)); try done; try (by destruct real).
  assert (get_heap real (set_heap real h' l2) = h') as -> by (by destruct real).
  assert ({[a]} ∪ waiting (mem l) (ty_of real) ∖ {[a]} = waiting (mem l) (ty_of real)) as E.
  { apply set_eq. intros b. destruct (decide (b = a)) as [->|]; [|set_solver]. assert (a ∈ waiting (mem l) (ty_of real)); [|set_solver].
    apply elem_of_waiting. by exists e. }
  rewrite E in Hh'. eapply law_ms_key; [|exact Hh']. intros b _. by destruct real.
Qed.

Lemma process_timer_ok real limit tts n l ls a e : okh None l -> chained l ls -> mem l !! a = Some e -> type e = ty_of real -> destroy e = false ->
  ms_root (get_heap real l) = Some a -> next_timeout e <= limit -> limit_ok limit ->
  exists l' ls' e', process_timer localtime mktime real limit (tts n) l a = Some l' /\ okh None l' /\ chained l' ls' /\
    mem l' = <[a := e']> (mem l) /\ cur_hrtime l' = cur_hrtime l /\ fired limit tts e e'.
Proof using All.
  intros Hok Hc Ha Hty Hd Hroot Hnext Hlim. unfold process_timer. rewrite Ha. cbn [mbind option_bind].
  destruct (dec_repeat l a e Hok Ha) as (-> & Hok1 & He1). set (e1 := with_repeat _ e) in *. set (l1 := with_mem _ l) in *.
  cbn [mbind option_bind]. assert (Ha1 : mem l1 !! a = Some e1) by apply lookup_insert_eq. rewrite Ha1. cbn [mbind option_bind].
  assert (Hc1 : chained l1 ls) by (by eapply (chained_assign l l1 ls a e e1)).
  assert (Hgo : exists l2 t b, (if decide (repeat e1 = 0) then __htimer_del l1 a
     else h ← ms_dequeue (key l1) (get_heap real l1);
       let l := set_heap real h l1 in
       l ← match type e1 with
           | TIMEOUT => t ← advance (advance_fuel (next_timeout e1) limit) (next_timeout e1) (u64 (timeout e1 * 1000)) limit; assign l a (with_next_timeout t)
           | PERIOD => assign l a (with_next_timeout (cron_timeout localtime mktime (pattern e1) (tts n)))
           | IDLE => Some l
           end;
       h ← ms_insert (key l) (get_heap real l) a;
       Some (set_heap real h l)) = Some l2 /\ okh (Some a) l2 /\ quiet l1 l2 /\ cur_hrtime l2 = cur_hrtime l1 /\
     mem l2 = <[a := with_destroy b (with_next_timeout t e1)]> (mem l1) /\ b = bool_decide (repeat e1 = 0) /\
     (repeat e1 <> 0 -> match type e with
      | TIMEOUT => limit < t <= limit + timeout e * 1000 /\ exists k, 0 < k /\ t = next_timeout e + k * (timeout e * 1000)
      | PERIOD => t = cron_timeout localtime mktime (pattern e) (tts n)
      | IDLE => True
      end)).
  { case_decide as Hz.
    - destruct (__htimer_del_ok None l1 a e1 Hok1) as (l2 & -> & Hok2 & Hq2 & Hcur & Hm2); [by left|done|cbn; rewrite Hty; by destruct real|].
      exists l2, (next_timeout e1), true. split_and!; try done; first [by rewrite bool_decide_true | rewrite Hm2; by destruct e1].
    - destruct (requeue_ok real limit (tts n) l1 a e1 Hok1 Ha1 Hty Hd) as (l2 & t & -> & Hok2 & Hm2 & Hq2 & Hcur & Hspec); [by destruct real|done|done|].
      exists l2, t, false. split_and!; try done; first [by apply okx_weaken | by rewrite bool_decide_false | rewrite Hm2; f_equal].
      assert (Hd1 : destroy e1 = false) by done. clearbody e1. destruct e1. cbn in *. by subst. }
  cbv zeta in Hgo |- *. destruct Hgo as (l2 & t & b & -> & Hok2 & (Hp2 & Hn2 & _) & Hcur & Hm2 & Hb & Hspec). cbn [mbind option_bind].
  set (e2 := with_destroy b (with_next_timeout t e1)) in *. assert (Ha2 : mem l2 !! a = Some e2) by (rewrite Hm2; apply lookup_insert_eq).
  assert (Hc2 : chained l2 ls) by (by eapply (chained_assign l1 l2 ls a e1 e2)).
  destruct (EVENT_PENDING_ok l2 a e2 Hok2 Ha2) as (l3 & -> & Hok3 & _ & Hcur3 & Hp3).
  pose proof (chained_pending l2 l3 ls a e2 Hc2 Ha2 Hp3) as Hc3. eexists l3, _, _. split; [reflexivity|]. split; [done|]. split; [exact Hc3|].
  assert (Hm : mem l3 = <[a := if pending e2 then e2 else with_pending_next (pendings l2 (HEVENT_PRIORITY_INDEX (priority e2))) (with_pending true e2)]> (mem l)).
  { destruct (pending e2); [subst l3|destruct Hp3 as [-> _]]; rewrite Hm2; cbn; by rewrite ?insert_insert_eq. }
  split; [exact Hm|]. split; [by rewrite Hcur3, Hcur|].
  destruct (pending e2) eqn:Hpe; (split; [done|done|done|done|]); intros Hr; specialize (Hspec Hr); destruct (type e); done || by exists n.
Qed.

(** The timers of a heap whose time has come. *)
Definition due (m : gmap nat event) (real : bool) (limit : Z) : gset nat :=
  those (fun e => type e = ty_of real /\ destroy e = false /\ next_timeout e <= limit) m.

(** A due timer that fired is due no more. *)
Lemma due_fired m real limit tts a e e' : event_ok e -> type e = ty_of real -> fired limit tts e e' ->
  (real = true -> forall p n, pattern_ok p -> limit < cron_timeout localtime mktime p (tts n)) ->
  due (<[a := e']> m) real limit = due m real limit ∖ {[a]}.
Proof using All.
  intros He Hty [(Ht & _) _ _ Hd Hn] Hcron. apply those_insert_not. intros (_ & Hd' & Hle). rewrite Hd in Hd'.
  apply bool_decide_eq_false in Hd'. specialize (Hn Hd'). rewrite Hty in Hn. destruct real; cbn in Hn.
  - destruct Hn as [n Hn]. specialize (Hcron eq_refl (pattern e) n (ev_pattern _ He Hty)). lia.
  - lia.
Qed.

(** [__hloop_process_timers] from any state of the loop. *)
Lemma process_timers_ok real limit tts fuel : forall l ls n, okh None l -> chained l ls -> limit_ok limit ->
  (real = true -> forall p k, pattern_ok p -> limit < cron_timeout localtime mktime p (tts k)) ->
  (size (due (mem l) real limit) < fuel)%nat ->
  exists l' ls', __hloop_process_timers localtime mktime fuel real limit tts l n = Some (l', (n + size (due (mem l) real limit))%nat) /\
    okh None l' /\ chained l' ls' /\ cur_hrtime l' = cur_hrtime l /\
    forall b, if decide (b ∈ due (mem l) real limit)
      then exists e e', mem l !! b = Some e /\ mem l' !! b = Some e' /\ fired limit tts e e'
      else mem l' !! b = mem l !! b.
Proof using All.
  induction fuel as [|fuel IH]; intros l ls n Hok Hc Hlim Hcron Hfuel; [lia|]. cbn [__hloop_process_timers].
  assert (Hstop : due (mem l) real limit = ∅ -> exists l' ls', Some (l, n) = Some (l', (n + size (due (mem l) real limit))%nat) /\
    okh None l' /\ chained l' ls' /\ cur_hrtime l' = cur_hrtime l /\ forall b, if decide (b ∈ due (mem l) real limit)
      then exists e e', mem l !! b = Some e /\ mem l' !! b = Some e' /\ fired limit tts e e' else mem l' !! b = mem l !! b).
  { intros ->. exists l, ls. rewrite size_empty, Nat.add_0_r. split_and!; done. }
  pose proof (law_ms_root _ _ _ (heap_holds real l Hok)) as Hroot. destruct (ms_root (get_heap real l)) as [a|] eqn:Er; cbn in Hroot.
  - destruct Hroot as [Hin Hleast]. apply elem_of_waiting in Hin as (e & Ha & Hty & Hd). rewrite Ha. cbn [mbind option_bind].
    case_decide as Hnext.
    + apply Hstop, leibniz_equiv, elem_of_equiv_empty. intros b (f & Hf & Hft & Hfd & Hfn)%elem_of_those.
      assert (Hb : b ∈ waiting (mem l) (ty_of real)) by (apply elem_of_waiting; by exists f).
      apply Hleast in Hb. unfold key in Hb. rewrite Ha, Hf in Hb. lia.
    + destruct (process_timer_ok real limit tts n l ls a e Hok Hc Ha Hty Hd Er) as (l1 & ls1 & e' & -> & Hok1 & Hc1 & Hm1 & Hcur1 & Hfi); [lia|done|].
      cbn [mbind option_bind]. pose proof (due_fired (mem l) real limit tts a e e' (ok_event _ _ Hok _ _ Ha) Hty Hfi Hcron) as Hdue. rewrite <- Hm1 in Hdue.
      assert (Hina : a ∈ due (mem l) real limit) by (apply elem_of_those; exists e; split; [done|]; split; [done|]; split; [done|lia]).
      pose proof (size_remove _ _ Hina) as Hsz. rewrite <- Hdue in Hsz.
      destruct (IH l1 ls1 (S n) Hok1 Hc1 Hlim Hcron) as (l' & ls' & -> & Hok' & Hc' & Hcur' & Hb'); [lia|].
      exists l', ls'. split; [do 2 f_equal; lia|]. split; [done|]. split; [done|]. split; [congruence|]. intros b. specialize (Hb' b).
      rewrite Hdue in Hb'. destruct (decide (b = a)) as [->|Hba].
      * rewrite decide_True by done. rewrite decide_False in Hb' by set_solver. exists e, e'. split; [done|]. split; [|done].
        by rewrite Hb', Hm1, lookup_insert_eq.
      * rewrite Hm1, lookup_insert_ne in Hb' by done. destruct (decide (b ∈ due (mem l) real limit)) as [Hbd|Hbd].
        -- by rewrite decide_True in Hb' by set_solver.
        -- by rewrite decide_False in Hb' by set_solver.
  - apply Hstop, leibniz_equiv, elem_of_equiv_empty. intros b (f & Hf & Hft & Hfd & Hfn)%elem_of_those.
    assert (Hb : b ∈ waiting (mem l) (ty_of real)) by (apply elem_of_waiting; by exists f). by rewrite Hroot, elem_of_empty in Hb.
Qed.

(** ** Idle events *)

Lemma process_idles_ok tts ids : forall l ls, okh None l -> chained l ls -> NoDup ids -> (forall b, b ∈ ids -> b ∈ waiting (mem l) IDLE) ->
  exists l' ls', process_idles ids l = Some l' /\ okh None l' /\ chained l' ls' /\
    forall b, if decide (b ∈ ids)
      then exists e e', mem l !! b = Some e /\ mem l' !! b = Some e' /\ fired 0 tts e e'
      else mem l' !! b = mem l !! b.
Proof using All.
  induction ids as [|a ids IH]; intros l ls Hok Hc Hnd Hin.
  - exists l, ls. split_and!; done.
  - cbn [process_idles]. apply NoDup_cons in Hnd as [Hna Hnd]. destruct (proj1 (elem_of_waiting _ _ _) (Hin a ltac:(by left))) as (e & Ha & Hty & Hd).
    rewrite Ha. cbn [mbind option_bind]. destruct (dec_repeat l a e Hok Ha) as (-> & Hok1 & He1). set (e1 := with_repeat _ e) in *. set (l1 := with_mem _ l) in *.
    cbn [mbind option_bind]. assert (Ha1 : mem l1 !! a = Some e1) by apply lookup_insert_eq. rewrite Ha1. cbn [mbind option_bind].
    assert (Hc1 : chained l1 ls) by (by eapply (chained_assign l l1 ls a e e1)).
    set (e2 := with_destroy (bool_decide (repeat e1 = 0)) e1).
    assert (Hdel : exists l2, (if decide (repeat e1 = 0) then __hidle_del l1 a else Some l1) = Some l2 /\ okh (Some a) l2 /\ quiet l1 l2 /\
      mem l2 = <[a := e2]> (mem l1)).
    { unfold e2. case_decide as Hz.
      - destruct (__hidle_del_ok l1 a e1 Hok1 Ha1 Hty) as (l2 & -> & Hok2 & Hq2 & Hm2). exists l2. by rewrite bool_decide_true.
      - exists l1. split; [done|]. split; [by apply okx_weaken|]. split; [done|]. rewrite bool_decide_false by done. rewrite insert_id; [done|].
        rewrite Ha1. f_equal. assert (Hd1 : destroy e1 = false) by done. clearbody e1. destruct e1. cbn in *. by subst. }
    destruct Hdel as (l2 & -> & Hok2 & (Hp2 & Hn2 & _) & Hm2). cbn [mbind option_bind].
    assert (Ha2 : mem l2 !! a = Some e2) by (rewrite Hm2; apply lookup_insert_eq).
    assert (Hc2 : chained l2 ls) by (by eapply (chained_assign l1 l2 ls a e1 e2)).
    destruct (EVENT_PENDING_ok l2 a e2 Hok2 Ha2) as (l3 & -> & Hok3 & _ & _ & Hp3). cbn [mbind option_bind].
    pose proof (chained_pending l2 l3 ls a e2 Hc2 Ha2 Hp3) as Hc3.
    set (e3 := if pending e2 then e2 else with_pending_next (pendings l2 (HEVENT_PRIORITY_INDEX (priority e2))) (with_pending true e2)).
    assert (Hm : mem l3 = <[a := e3]> (mem l)).
    { unfold e3. destruct (pending e2); [subst l3|destruct Hp3 as [-> _]]; rewrite Hm2; cbn; by rewrite ?insert_insert_eq. }
    destruct (IH l3 _ Hok3 Hc3 Hnd) as (l' & ls' & -> & Hok' & Hc' & Hb').
    { intros b Hb. apply elem_of_waiting. destruct (proj1 (elem_of_waiting _ _ _) (Hin b ltac:(by right))) as (f & Hf & Hx).
      exists f. rewrite Hm, lookup_insert_ne by (intros ->; done). done. }
    exists l', ls'. split; [done|]. split; [done|]. split; [done|]. intros b. specialize (Hb' b). destruct (decide (b = a)) as [->|Hba].
    + rewrite decide_True by (by left). rewrite decide_False in Hb' by done. exists e, e3. split; [done|]. rewrite Hb', Hm, lookup_insert_eq. split; [done|].
      unfold e3. destruct (pending e2) eqn:Hpe; (split; [done|done|done|done|]); by rewrite Hty.
    + rewrite Hm, lookup_insert_ne in Hb' by done. destruct (decide (b ∈ ids)) as [Hbi|Hbi].
      * by rewrite decide_True by (by right).
      * by rewrite decide_False by (rewrite elem_of_cons; tauto).
Qed.

(** ** An iteration *)

Lemma at_rest_event l a e : at_rest l -> mem l !! a = Some e -> pending e = false /\ destroy e = false /\ active e = true.
Proof using All.
  intros [Hok Hc] Ha. assert (Hp : pending e = false).
  { destruct (pending e) eqn:Hp; [|done]. pose proof (proj2 (ch_member _ _ Hc a _) (ex_intro _ e (conj Ha (conj Hp eq_refl)))) as Hin.
    by apply not_elem_of_nil in Hin. }
  assert (Hd : destroy e = false).
  { destruct (destroy e) eqn:Hd; [|done]. rewrite (ok_destroyed _ _ Hok a e Ha) in Hp; done. }
  split_and!; [done|done|]. destruct (active e) eqn:Hact; [done|]. rewrite (ok_active _ _ Hok a e Ha) in Hd; done.
Qed.

(** What a phase that makes events pending does. *)
Definition phase (limit : Z) (tts : nat -> Z) (D : gset nat) (m m' : gmap nat event) : Prop :=
  forall b, if decide (b ∈ D) then exists e e', m !! b = Some e /\ m' !! b = Some e' /\ fired limit tts e e' else m' !! b = m !! b.

Lemma phase_size limit tts D m m' : phase limit tts D m m' -> size m' = size m.
Proof using All.
  intros Hp. rewrite <- !(size_dom (D := gset nat)). f_equal. apply set_eq. intros b. rewrite !elem_of_dom. specialize (Hp b).
  case_decide; [|by rewrite Hp]. destruct Hp as (e & e' & -> & -> & _). split; by eexists.
Qed.

Lemma phase_empty limit tts m m' : phase limit tts ∅ m m' -> m' = m.
Proof using All. intros Hp. apply map_eq. intros b. specialize (Hp b). by rewrite decide_False in Hp by apply not_elem_of_empty. Qed.

(** From nothing pending, what is pending is what fired. *)
Lemma phase_pending limit tts D m m' : phase limit tts D m m' -> pending_set m' = D ∪ pending_set m.
Proof using All.
  intros Hp. apply set_eq. intros b. specialize (Hp b). rewrite elem_of_union. unfold pending_set. rewrite !elem_of_those. case_decide as Hb.
  - destruct Hp as (e & e' & He & He' & Hf). split; [by left|]. intros _. exists e'. split; [done|]. apply (fi_pending _ _ _ _ Hf).
  - rewrite Hp. tauto.
Qed.

Lemma u32_zero n : 0 <= n < 2 ^ 32 -> u32 n = 0 -> n = 0.
Proof using All. intros Hn. unfold u32. by rewrite Z.mod_small. Qed.

Lemma subset_size (S : gset nat) (m : gmap nat event) : (forall a, a ∈ S -> is_Some (m !! a)) -> (size S <= size m)%nat.
Proof using All.
  intros HS. rewrite <- (size_dom (D := gset nat)). apply subseteq_size. intros a Ha. apply elem_of_dom. by apply HS.
Qed.

Lemma set_nonempty (S : gset nat) : S <> ∅ -> size S <> 0%nat.
Proof using All. intros HS E. apply HS, leibniz_equiv, size_empty_inv, E. Qed.

(** The clocks: what [time] answers is not behind the time of the loop, in range. *)
Definition clocks_ok (M : Z -> Z) (tts : nat -> Z) l : Prop :=
  calendar localtime mktime M /\ limit_ok (cur_hrtime l) /\ limit_ok (hloop_now_us l) /\
  forall k, 0 <= tts k < 2 ^ 40 /\ hloop_now_us l < (tts k + 1) * 1000000.

Lemma cron_timeout_later M p s limit : calendar localtime mktime M -> pattern_ok p -> 0 <= s < 2 ^ 40 -> limit < (s + 1) * 1000000 ->
  limit < cron_timeout localtime mktime p s.
Proof using.
  intros Hcal Hp Hs Hlim. pose proof (cron_next_bounds localtime mktime M Hcal p s Hp) as Hb.
  assert (period_bound (fst (cron_fields p (localtime s))) <= 12 * (31 * SECONDS_PER_DAY)) by (by destruct (fst (cron_fields p (localtime s)))).
  unfold cron_timeout, SECONDS_PER_DAY, u64 in *.
  rewrite (Z.mod_small (cron_next_timeout _ _ _ _)) by lia. rewrite Z.mod_small by lia. lia.
Qed.

Definition due_timers l : gset nat := due (mem l) false (cur_hrtime l) ∪ due (mem l) true (hloop_now_us l).

Lemma due_allocated l a : a ∈ due_timers l -> is_Some (mem l !! a).
Proof using. intros [(e & He & _)%elem_of_those|(e & He & _)%elem_of_those]%elem_of_union; by exists e. Qed.

Lemma both_heaps_ok M fuel tts tts' l ls : okh None l -> chained l ls -> clocks_ok M tts' l -> (size (mem l) < fuel)%nat ->
  exists l' ls', hloop_process_timers localtime mktime fuel tts tts' l = Some (l', size (due_timers l)) /\ okh None l' /\ chained l' ls' /\
    exists m, phase (cur_hrtime l) tts (due (mem l) false (cur_hrtime l)) (mem l) m /\
      phase (hloop_now_us l) tts' (due (mem l) true (hloop_now_us l)) m (mem l').
Proof using All.
  intros Hok Hc (Hcal & Hl1 & Hl2 & Htts) Hfuel. unfold hloop_process_timers.
  set (D1 := due (mem l) false (cur_hrtime l)). set (D2 := due (mem l) true (hloop_now_us l)).
  assert (HD1 : (size D1 <= size (mem l))%nat) by (apply subset_size; intros a (e & He & _)%elem_of_those; by exists e).
  assert (HD2 : (size D2 <= size (mem l))%nat) by (apply subset_size; intros a (e & He & _)%elem_of_those; by exists e).
  destruct (process_timers_ok false (cur_hrtime l) tts fuel l ls 0 Hok Hc Hl1) as (l1 & ls1 & -> & Hok1 & Hc1 & Hcur1 & P1); [done|fold D1; lia|].
  fold D1 in P1 |- *. cbn [mbind option_bind].
  assert (HD : due (mem l1) true (hloop_now_us l) = D2).
  { apply set_eq. intros b. unfold D2, due. rewrite !elem_of_those. specialize (P1 b). case_decide as Hb; [|by rewrite P1].
    destruct P1 as (e & e' & He & He' & [(Ht & _) _ _ _ _]). apply elem_of_those in Hb as (f & Hf & Hft & _). assert (f = e) as -> by congruence.
    split; intros (g & Hg & Hgt & _); exfalso; cbn in Hft, Hgt; congruence. }
  destruct (process_timers_ok true (hloop_now_us l) tts' fuel l1 ls1 0 Hok1 Hc1 Hl2) as (l2 & ls2 & -> & Hok2 & Hc2 & _ & P2).
  { intros _ p k Hp. destruct (Htts k). by eapply cron_timeout_later. }
  { rewrite HD. lia. }
  rewrite HD in P2 |- *. cbn [mbind option_bind]. exists l2, ls2. split; [|split; [done|split; [done|by exists (mem l1)]]].
  do 2 f_equal. unfold due_timers. fold D1 D2. rewrite size_union; [lia|]. intros b (e & He & Ht & _)%elem_of_those (f & Hf & Hft & _)%elem_of_those.
  assert (f = e) as -> by congruence. cbn in *. congruence.
Qed.

(** The time that a timer is compared with. *)
Definition now_of l (ty : event_type) : Z := match ty with PERIOD => hloop_now_us l | _ => cur_hrtime l end.

Lemma fired_tts limit tts tts' e e' : type e = TIMEOUT -> fired limit tts e e' -> fired limit tts' e e'.
Proof using All. intros Ht [F1 F2 F3 F4 F5]. split; try done. intros Hr. specialize (F5 Hr). by rewrite Ht in F5 |- *. Qed.

(** Both phases together. *)
Lemma both_phases l m m' tts tts' : phase (cur_hrtime l) tts (due (mem l) false (cur_hrtime l)) (mem l) m ->
  phase (hloop_now_us l) tts' (due (mem l) true (hloop_now_us l)) m m' ->
  forall a e, mem l !! a = Some e -> if decide (a ∈ due_timers l)
    then exists e', m' !! a = Some e' /\ fired (now_of l (type e)) tts' e e' else m' !! a = Some e.
Proof using All.
  intros P1 P2 a e Ha. specialize (P1 a). specialize (P2 a). unfold due_timers.
  destruct (decide (a ∈ due (mem l) false (cur_hrtime l))) as [H1d|H1d].
  - rewrite decide_True by set_solver. destruct P1 as (f & e1 & Hf & He1 & F1). assert (f = e) as -> by congruence.
    apply elem_of_those in H1d as (f & Hf' & Ht & _). assert (f = e) as -> by congruence.
    rewrite decide_False in P2 by (intros (g & Hg & Htg & _)%elem_of_those; cbn in *; congruence).
    exists e1. rewrite P2. split; [done|]. cbn in Ht. rewrite Ht. by eapply fired_tts.
  - destruct (decide (a ∈ due (mem l) true (hloop_now_us l))) as [H2d|H2d].
    + rewrite decide_True by set_solver. destruct P2 as (f & e2 & Hf & He2 & F2). assert (f = e) as -> by congruence.
      exists e2. split; [done|]. apply elem_of_those in H2d as (f & Hf' & Ht & _). assert (f = e) as -> by congruence. cbn in Ht. by rewrite Ht.
    + rewrite decide_False by set_solver. congruence.
Qed.

(** [C10] Between two iterations of the loop, [hloop_process_timers] ends, frees
    nothing that it uses, and makes pending exactly the timers whose time has come,
    each once, whatever their order in the heaps: a repetition fewer is left, the
    last one marks the timer for deletion and takes it out, and otherwise it waits
    again, for the first multiple of its timeout after the present time, or for the
    next time of its pattern.  The other timers are untouched, the heaps stay in
    order, and the counts and heaps agree with the allocated events.  (The calendar
    of the C library is at a constant offset from UTC, and [time] is not behind the
    time of the loop.) *)
Theorem timers_fire M fuel tts tts' l : at_rest l -> clocks_ok M tts' l -> (size (mem l) < fuel)%nat ->
  exists l', hloop_process_timers localtime mktime fuel tts tts' l = Some (l', size (due_timers l)) /\ okh None l' /\
    pending_set (mem l') = due_timers l /\
    forall a e, mem l !! a = Some e -> if decide (a ∈ due_timers l)
      then exists e', mem l' !! a = Some e' /\ fired (now_of l (type e)) tts' e e'
      else mem l' !! a = Some e.
Proof using All.
  intros [Hok Hc] Hclk Hfuel. destruct (both_heaps_ok M fuel tts tts' l _ Hok Hc Hclk Hfuel) as (l' & ls' & E & Hok' & _ & m & P1 & P2).
  exists l'. split; [done|]. split; [done|]. split; [|by eapply both_phases].
  rewrite (phase_pending _ _ _ _ _ P2), (phase_pending _ _ _ _ _ P1).
  assert (pending_set (mem l) = ∅) as ->; [|unfold due_timers; set_solver].
  apply leibniz_equiv, elem_of_equiv_empty. intros b (e & Hb & Hp)%elem_of_those. destruct (at_rest_event l b e (conj Hok Hc) Hb) as [Hnp _]. congruence.
Qed.

(** The events whose turn it is: the timers that are due, or else the idle events. *)
Definition turn l : gset nat := if decide (due_timers l = ∅) then waiting (mem l) IDLE else due_timers l.

(** The pending events are those of [S], and their callbacks are as they were. *)
Definition made_pending (S : gset nat) l l' : Prop :=
  pending_set (mem l') = S /\ size (mem l') = size (mem l) /\
  forall a e, a ∈ S -> mem l !! a = Some e -> exists e', mem l' !! a = Some e' /\ cb e' = cb e /\ active e' = active e.

Lemma timers_phase M fuel tts tts' l : at_rest l -> clocks_ok M tts' l -> (size (mem l) < fuel)%nat -> Z.of_nat (size (mem l)) < 2 ^ 32 ->
  exists l' ls', (if decide (ntimers l <> 0) then '(l, _) ← hloop_process_timers localtime mktime fuel tts tts' l; Some l else Some l) = Some l' /\
    okh None l' /\ chained l' ls' /\ made_pending (due_timers l) l l' /\ (due_timers l = ∅ -> mem l' = mem l).
Proof using All.
  intros [Hok Hc] Hclk Hfuel Hsz.
  assert (Hnone : pending_set (mem l) = ∅).
  { apply leibniz_equiv, elem_of_equiv_empty. intros b (e & Hb & Hp)%elem_of_those. destruct (at_rest_event l b e (conj Hok Hc) Hb) as [Hnp _]. congruence. }
  case_decide as Hn.
  - destruct (both_heaps_ok M fuel tts tts' l _ Hok Hc Hclk Hfuel) as (l' & ls' & -> & Hok' & Hc' & m & P1 & P2). cbn [mbind option_bind].
    exists l', ls'. split; [done|]. split; [done|]. split; [done|]. split; [split|].
    + rewrite (phase_pending _ _ _ _ _ P2), (phase_pending _ _ _ _ _ P1), Hnone. unfold due_timers. set_solver.
    + split; [by rewrite (phase_size _ _ _ _ _ P2), (phase_size _ _ _ _ _ P1)|]. intros a e Ha He.
      pose proof (both_phases l m (mem l') tts tts' P1 P2 a e He) as Hb. rewrite decide_True in Hb by done.
      destruct Hb as (e' & He' & [(_ & Hcb & Hact & _) _ _ _ _]). by exists e'.
    + intros He. apply map_eq. intros a. destruct (mem l !! a) as [e|] eqn:Ha.
      * pose proof (both_phases l m (mem l') tts tts' P1 P2 a e Ha) as Hb. rewrite He, decide_False in Hb by apply not_elem_of_empty. done.
      * destruct (mem l' !! a) as [e'|] eqn:Ha'; [|done]. exfalso.
        assert (Hd : dom (mem l') = dom (mem l)).
        { apply set_eq. intros b. rewrite !elem_of_dom. specialize (P1 b). specialize (P2 b). unfold due_timers in He.
          rewrite decide_False in P1 by set_solver. rewrite decide_False in P2 by set_solver. by rewrite P2, P1. }
        assert (a ∈ dom (mem l')) as Hin by (apply elem_of_dom; by exists e'). rewrite Hd in Hin. apply elem_of_dom in Hin as [? Hin]. congruence.
  - exists l, (fun _ => []). split; [done|]. split; [done|]. split; [done|]. assert (Hz : ntimers l = 0) by lia.
    rewrite (ok_ntimers _ _ Hok) in Hz.
    assert (Hle : (size (waiting (mem l) TIMEOUT ∪ waiting (mem l) PERIOD) <= size (mem l))%nat).
    { apply subset_size. intros a [(e & He & _)%elem_of_those|(e & He & _)%elem_of_those]%elem_of_union; by exists e. }
    rewrite size_union in Hle by (intros b (e & He & Ht & _)%elem_of_those (f & Hf & Hft & _)%elem_of_those; cbn in *; congruence).
    apply u32_zero in Hz; [|lia].
    assert (waiting (mem l) TIMEOUT = ∅ /\ waiting (mem l) PERIOD = ∅) as [HT HP] by (split; apply leibniz_equiv, size_empty_inv; lia).
    assert (Hd : due_timers l = ∅).
    { apply leibniz_equiv, elem_of_equiv_empty. intros b [(e & He & Ht & Hd & _)%elem_of_those|(e & He & Ht & Hd & _)%elem_of_those]%elem_of_union.
      - assert (Hb : b ∈ waiting (mem l) TIMEOUT) by (apply elem_of_waiting; by exists e). by rewrite HT, elem_of_empty in Hb.
      - assert (Hb : b ∈ waiting (mem l) PERIOD) by (apply elem_of_waiting; by exists e). by rewrite HP, elem_of_empty in Hb. }
    rewrite Hd. split; [|done]. split; [done|]. split; [done|]. intros a e Ha. by apply not_elem_of_empty in Ha.
Qed.

Lemma idles_phase l l1 ls1 : okh None l1 -> chained l1 ls1 -> made_pending (due_timers l) l l1 -> (due_timers l = ∅ -> mem l1 = mem l) ->
  Z.of_nat (size (mem l)) < 2 ^ 32 ->
  exists l2 ls2, (if decide (npendings l1 = 0) then if decide (nidles l1 <> 0) then hloop_process_idles l1 else Some l1 else Some l1) = Some l2 /\
    okh None l2 /\ chained l2 ls2 /\ made_pending (turn l) l l2.
Proof using All.
  intros Hok Hc (Hp & Hs & Hcb) Hsame Hsz. unfold turn.
  assert (Hn : npendings l1 = 0 <-> due_timers l = ∅).
  { rewrite (ch_count _ _ Hc), Hp. split.
    - intros Hz. assert (size (due_timers l) <= size (mem l))%nat by (apply subset_size, due_allocated).
      apply u32_zero in Hz; [|lia]. apply leibniz_equiv, size_empty_inv. lia.
    - intros ->. by rewrite size_empty. }
  destruct (decide (npendings l1 = 0)) as [Hz|Hz]; [rewrite (decide_True _ _ (proj1 Hn Hz)) | rewrite decide_False by tauto; by exists l1, ls1].
  apply Hn in Hz. specialize (Hsame Hz). rewrite Hz in Hp. destruct (decide (nidles l1 <> 0)) as [Hi|Hi].
  - unfold hloop_process_idles. destruct (process_idles_ok (fun _ => 0) (idles l1) l1 ls1 Hok Hc) as (l2 & ls2 & -> & Hok2 & Hc2 & Hb); [apply Hok| |].
    { intros b Hb. rewrite <- (ok_idles _ _ Hok). by apply elem_of_list_to_set. }
    assert (HP : phase 0 (fun _ => 0) (waiting (mem l) IDLE) (mem l) (mem l2)).
    { intros b. specialize (Hb b). rewrite <- Hsame, <- (ok_idles _ _ Hok). case_decide as Hbi.
      - by rewrite decide_True by (by apply elem_of_list_to_set).
      - by rewrite decide_False by (by rewrite elem_of_list_to_set). }
    exists l2, ls2. split; [done|]. split; [done|]. split; [done|]. split; [|split].
    + rewrite (phase_pending _ _ _ _ _ HP), <- Hsame, Hp. set_solver.
    + by rewrite (phase_size _ _ _ _ _ HP).
    + intros a e Ha He. specialize (HP a). rewrite decide_True in HP by done. destruct HP as (f & e' & Hf & He' & [(_ & Hc' & Ha' & _) _ _ _ _]).
      assert (f = e) as -> by congruence. by exists e'.
  - exists l1, ls1. split; [done|]. split; [done|]. split; [done|]. assert (Hz0 : nidles l1 = 0) by lia. rewrite (ok_nidles _ _ Hok) in Hz0.
    assert (size (waiting (mem l1) IDLE) <= size (mem l1))%nat by (apply subset_size; intros a (e & He & _)%elem_of_those; by exists e).
    apply u32_zero in Hz0; [|lia]. assert (Hw : waiting (mem l) IDLE = ∅) by (rewrite <- Hsame; apply leibniz_equiv, size_empty_inv; lia).
    rewrite Hw. split; [done|]. split; [done|]. intros a e Ha. by apply not_elem_of_empty in Ha.
Qed.

(** The loop does not sleep past a timer: it wakes up less than 1 ms later. *)
Lemma until_le real now l us a : okh None l -> a ∈ waiting (mem l) (ty_of real) -> 0 <= now < 2 ^ 62 -> key l a < 2 ^ 62 ->
  until real now l us <= us /\ until real now l us <= key l a - now.
Proof using All.
  intros Hok Ha Hnow Hkey. unfold until. pose proof (law_ms_root _ _ _ (heap_holds real l Hok)) as Hroot.
  destruct (ms_root (get_heap real l)) as [b|]; cbn in Hroot; [|set_solver]. destruct Hroot as [Hb Hleast]. pose proof (Hleast a Ha) as Hle.
  apply elem_of_waiting in Hb as (e & He & _). assert (0 <= key l b) by (unfold key; rewrite He; apply (ev_next _ (ok_event _ _ Hok _ _ He))).
  unfold i64. rewrite Z.mod_small by lia. lia.
Qed.

Lemma until_bound real now l us : until real now l us <= us.
Proof using. unfold until. case_match; lia. Qed.

Lemma blocktime_ok l ms b a real : okh None l -> 0 <= ms <= 1000000 -> 0 <= cur_hrtime l < 2 ^ 62 -> 0 <= hloop_now_us l < 2 ^ 62 -> ntimers l <> 0 ->
  a ∈ waiting (mem l) (ty_of real) -> key l a < 2 ^ 62 -> blocktime l ms = Some b ->
  0 <= b <= ms /\ b * 1000 <= key l a - now_of l (ty_of real) + 1000.
Proof using All.
  intros Hok Hms Hcur Hnow Hn Ha Hkey. unfold blocktime. rewrite decide_True by done.
  assert (i32 (ms * 1000) = ms * 1000) as -> by (unfold i32; rewrite Z.mod_small; lia).
  set (us1 := until false _ _ _). set (us := until true _ _ us1). case_decide as Hneg; [done|]. intros [= <-].
  assert (Hus : us <= ms * 1000 /\ us <= key l a - now_of l (ty_of real)).
  { pose proof (until_bound false (cur_hrtime l) l (ms * 1000)) as B1. pose proof (until_bound true (hloop_now_us l) l us1) as B2.
    fold us1 in B1. fold us in B2. split; [lia|]. destruct real; cbn in Ha |- *.
    - by destruct (until_le true (hloop_now_us l) l us1 a Hok Ha Hnow Hkey).
    - transitivity us1; [done|]. by destruct (until_le false (cur_hrtime l) l (ms * 1000) a Hok Ha Hcur Hkey). }
  unfold i32. rewrite Z.mod_small by (Z.to_euclidean_division_equations; lia). Z.to_euclidean_division_equations. lia.
Qed.

(** *** Runs of the loop *)

(** [hloop_new]: the events of a new loop, and its clocks. *)
Definition hloop_init (ms hr : Z) : loop H := mkLoop ms hr hr ms_empty ms_empty 0 [] 0 (fun _ => None) 0 0 ∅ ∅.

(** The states between two iterations: calls from outside of the callbacks, the
    clocks, and iterations. *)
Inductive reachable : loop H -> Prop :=
  | reachable_init ms hr : reachable (hloop_init ms hr)
  | reachable_call l c l' : reachable l -> call_ok l c -> exec localtime mktime l c = Some l' -> reachable l'
  | reachable_time l t : reachable l -> reachable (hloop_update_time l t)
  | reachable_iteration M fuel tts tts' l l' ran : reachable l -> clocks_ok M tts' l ->
      (size (mem l) < fuel)%nat -> Z.of_nat (size (mem l)) < 2 ^ 32 ->
      process_events localtime mktime run fuel tts tts' l = Some (l', ran) -> reachable l'.

Lemma init_at_rest ms hr : at_rest (hloop_init ms hr).
Proof using All.
  assert (Hw : forall ty, waiting ∅ ty = ∅).
  { intros ty. apply leibniz_equiv, elem_of_equiv_empty. intros b (e & He & _)%elem_of_those. by rewrite lookup_empty in He. }
  assert (Hok : okh None (hloop_init ms hr)).
  { split; cbn; rewrite ?Hw, ?size_empty; try done; try (intros a e Ha; by rewrite lookup_empty in Ha); try apply law_ms_empty. constructor. }
  split; [done|]. by apply chained_empty.
Qed.

Lemma call_at_rest l c l' : at_rest l -> call_ok l c -> exec localtime mktime l c = Some l' -> at_rest l'.
Proof using All.
  intros [Hok Hc] Hcall E. destruct (exec_call_ok l c Hok Hcall) as (l2 & E2 & Hok2 & F). assert (l2 = l') as -> by congruence.
  split; [done|].
  assert (Hnone : pending_set (mem l) = ∅).
  { apply leibniz_equiv, elem_of_equiv_empty. intros b (e & Hb & Hp)%elem_of_those. destruct (at_rest_event l b e (conj Hok Hc) Hb) as [Hnp _]. congruence. }
  apply chained_empty; [done| | |].
  - intros i. rewrite (fr_pendings _ _ F). apply (ch_path _ _ Hc i).
  - rewrite (fr_npendings _ _ F), (ch_count _ _ Hc), Hnone. by rewrite size_empty.
  - apply leibniz_equiv, elem_of_equiv_empty. intros b Hb%(fr_pending _ _ F). by rewrite Hnone, elem_of_empty in Hb.
Qed.

Lemma time_at_rest l t : at_rest l -> at_rest (hloop_update_time l t).
Proof using All.
  intros [Hok Hc]. destruct (hloop_update_time_fields (holds := holds) l t) as (_ & _ & Hm & (Hp & Hn & _) & Hok'). split; [by apply Hok'|].
  destruct Hc as [C1 C2 C3 C4]. split; rewrite ?Hm, ?Hn; try done. intros i. rewrite Hp. apply C1.
Qed.

(** From a state at rest. *)
Lemma iteration_ok M fuel tts tts' l : callbacks_ok -> at_rest l -> clocks_ok M tts' l ->
  (size (mem l) < fuel)%nat -> Z.of_nat (size (mem l)) < 2 ^ 32 ->
  exists l' ran, process_events localtime mktime run fuel tts tts' l = Some (l', ran) /\ at_rest l' /\ NoDup ran /\
    (forall a, a ∈ ran -> a ∈ turn l) /\
    (self_only -> forall a, a ∈ turn l -> (exists e c, mem l !! a = Some e /\ cb e = Some c) -> a ∈ ran).
Proof using All.
  intros Hcb Hrest Hclk Hfuel Hsz. unfold process_events.
  destruct (timers_phase M fuel tts tts' l Hrest Hclk Hfuel Hsz) as (l1 & ls1 & -> & Hok1 & Hc1 & Hmade & Hsame). cbn [mbind option_bind].
  destruct (idles_phase l l1 ls1 Hok1 Hc1 Hmade Hsame Hsz) as (l2 & ls2 & -> & Hok2 & Hc2 & Hp2 & Hs2 & Hcb2). cbn [mbind option_bind].
  destruct (pendings_ok l2 ls2 fuel Hcb Hok2 Hc2) as (l3 & ran & -> & Hrest3 & Hsub & Hex); [by rewrite Hs2..|].
  assert (Hord : forall a, a ∈ order ls2 (Z.to_nat HEVENT_PRIORITY_SIZE) <-> a ∈ turn l).
  { intros a. rewrite <- Hp2, elem_of_order. unfold pending_set. rewrite elem_of_those. split.
    - intros (j & _ & (e & He & Hp & _)%(ch_member _ _ Hc2)). by exists e.
    - intros (e & He & Hp). pose proof (proj2 (ch_member _ _ Hc2 a _) (ex_intro _ e (conj He (conj Hp eq_refl)))) as Hin.
      pose proof (chained_index l2 ls2 a _ Hok2 Hc2 Hin) as Hi. exists (Z.to_nat (HEVENT_PRIORITY_INDEX (priority e))). rewrite Z2Nat.id by lia. split; [lia|done]. }
  exists l3, (rev ran). split; [done|]. split; [done|]. split; [|split].
  - apply NoDup_ListNoDup, NoDup_rev, NoDup_ListNoDup. by apply (sublist_NoDup _ _ (chained_order l2 ls2 _ Hc2) Hsub).
  - intros a Ha. apply Hord. apply list_elem_of_In, in_rev, list_elem_of_In in Ha. eapply elem_of_sublist; [exact Ha|exact Hsub].
  - intros Hso a Ha (e & c & He & Hc). rewrite (Hex Hso). apply list_elem_of_In, in_rev. rewrite rev_involutive. apply filter_In.
    split; [by apply list_elem_of_In, Hord|]. destruct (Hcb2 a e Ha He) as (e' & He' & Hc' & Ha').
    destruct (at_rest_event l a e Hrest He) as (_ & _ & Hact). unfold live, fires. rewrite He', Hc', Hc, Ha', Hact.
    rewrite <- Hp2 in Ha. apply elem_of_those in Ha as (f & Hf & Hp). assert (f = e') as -> by congruence. by rewrite Hp.
Qed.

Lemma reachable_at_rest l : callbacks_ok -> reachable l -> at_rest l.
Proof using All.
  intros Hcb. induction 1 as [ms hr|l c l' _ IH Hc E|l t _ IH|M fuel tts tts' l l' ran _ IH Hclk Hfuel Hsz E].
  - apply init_at_rest.
  - by eapply call_at_rest.
  - by apply time_at_rest.
  - destruct (iteration_ok M fuel tts tts' l Hcb IH Hclk Hfuel Hsz) as (l2 & ran2 & E2 & Hrest & _). congruence.
Qed.

(** [C9] Whatever calls were made, from a new loop on and by the callbacks, as long
    as none deletes an event that was reset while it was pending in the same
    iteration: an iteration of the loop (from [process_timers] on) ends, without an
    access to a freed event, with nothing pending; the heaps, lists and counts agree
    with the allocated events, and every event that was to be deleted has been freed.
    Each callback runs once at most, only for a timer that is due (or, if none is,
    for an idle event); if the callbacks reset and delete no event but their own,
    for all of these that have a callback. *)
Theorem loop_iteration M fuel tts tts' l : callbacks_ok -> reachable l -> clocks_ok M tts' l ->
  (size (mem l) < fuel)%nat -> Z.of_nat (size (mem l)) < 2 ^ 32 ->
  exists l' ran, process_events localtime mktime run fuel tts tts' l = Some (l', ran) /\ at_rest l' /\ NoDup ran /\
    (forall a, a ∈ ran -> a ∈ turn l) /\
    (self_only -> forall a, a ∈ turn l -> (exists e c, mem l !! a = Some e /\ cb e = Some c) -> a ∈ ran).
Proof using All.
  intros Hcb Hr Hclk Hfuel Hsz. apply (iteration_ok M); try done. by apply reachable_at_rest.
Qed.
End Pendings.

(** ** Examples *)

(** Callback 0 makes no call, callback 1 resets its own timer, callback 2 resets and
    deletes event 2. *)
Definition some_callbacks (c a : nat) (l : loop heap) : list call :=
  match c with
  | 0%nat => []
  | 1%nat => if decide (is_Some (mem l !! a)) then [Timer_reset a 20] else []
  | 2%nat => [Timer_reset 2 0; Timer_del 2]
  | _ => []
  end.
Definition good_callbacks (c a : nat) (l : loop heap) : list call := if decide (c = 2%nat) then [] else some_callbacks c a l.

Lemma good_callbacks_ok : callbacks_ok (holds := implements) localtime30 mktime30 good_callbacks.
Proof.
  intros c a l _. unfold good_callbacks. case_decide; [done|]. destruct c as [|[|c]]; cbn; [done| |].
  - case_decide; [|done]. split; [|done]. split; [done|]. unfold u32_ok. lia.
  - by destruct c.
Qed.

(** Two timers at addresses 1 and 2, of 10 ms once and 20 ms three times, with the
    callbacks [c] and 1. *)
Definition loop0 : loop heap := hloop_init 0 0.
Definition add_timer (l : loop heap) (c : call) : loop heap := default l (exec localtime30 mktime30 l c).
Definition call1 (c : nat) : call := Timer_add (mkClock 0 0 0) 1 (Some c) 10 1.
Definition call2 : call := Timer_add (mkClock 0 0 0) 2 (Some 1%nat) 20 3.
Definition loop1 (c : nat) : loop heap := add_timer loop0 (call1 c).
Definition loop2 (c : nat) : loop heap := add_timer (loop1 c) call2.
(** After 30 ms. *)
Definition loop3 (c : nat) : loop heap := hloop_update_time (loop2 c) (mkClock 30000 30 0).

Definition succeeds {A} (o : option A) : bool := match o with Some _ => true | None => false end.
Lemma add_timer_eq l c : succeeds (exec localtime30 mktime30 l c) = true -> exec localtime30 mktime30 l c = Some (add_timer l c).
Proof. unfold add_timer. by destruct (exec _ _ l c). Qed.

Lemma loop3_reachable : reachable localtime30 mktime30 good_callbacks (loop3 0).
Proof.
  unfold loop3. refine (reachable_time _ _ _ (loop2 0) _ _). apply (reachable_call _ _ _ (loop1 0) call2); [apply (reachable_call _ _ _ loop0 (call1 0)); [apply reachable_init|..]|..].
  - split; [done|]. unfold u32_ok. lia.
  - apply add_timer_eq. vm_compute. reflexivity.
  - split; [|unfold u32_ok; lia]. vm_compute. reflexivity.
  - apply add_timer_eq. vm_compute. reflexivity.
Qed.

Lemma loop3_clocks : clocks_ok localtime30 mktime30 (fun i => 2592000 * i) (fun _ => 0) (loop3 0).
Proof.
  split; [apply calendar30|]. assert (Hc : cur_hrtime (loop3 0) = 30000) by (by vm_compute).
  assert (Hn : hloop_now_us (loop3 0) = 30000) by (by vm_compute). rewrite Hc, Hn. unfold limit_ok. split; [lia|]. split; [lia|]. intros _. lia.
Qed.

Lemma timers_fire_witness : exists l', hloop_process_timers localtime30 mktime30 10 (fun _ => 0) (fun _ => 0) (loop3 0) = Some (l', 2%nat) /\
  pending_set (mem l') = due_timers (loop3 0).
Proof.
  destruct (timers_fire localtime30 mktime30 good_callbacks (fun i => 2592000 * i) 10 (fun _ => 0) (fun _ => 0) (loop3 0)) as (l' & E & _ & Hp & _).
  - apply (reachable_at_rest localtime30 mktime30 good_callbacks); [apply good_callbacks_ok | apply loop3_reachable].
  - apply loop3_clocks.
  - vm_compute. lia.
  - exists l'. split; [|exact Hp]. rewrite E. vm_compute. reflexivity.
Defined.

Lemma loop_iteration_witness : exists l' ran,
  process_events localtime30 mktime30 good_callbacks 10 (fun _ => 0) (fun _ => 0) (loop3 0) = Some (l', ran) /\
    at_rest (holds := implements) l' /\ NoDup ran.
Proof.
  destruct (loop_iteration localtime30 mktime30 good_callbacks (fun i => 2592000 * i) 10 (fun _ => 0) (fun _ => 0) (loop3 0)) as (l' & ran & E & Hr & Hn & _).
  - apply good_callbacks_ok.
  - apply loop3_reachable.
  - apply loop3_clocks.
  - vm_compute. lia.
  - vm_compute. reflexivity.
  - exists l', ran. split; [exact E|]. split; [exact Hr|exact Hn].
Defined.

(** What an observer sees: the callbacks in the order in which they ran, and the
    timers that are still allocated, with their repetitions and whether they are to
    be deleted. *)
Definition outcome (r : option (loop heap * list nat)) : option (list nat * list (nat * Z * bool)) :=
  '(l, ran) ← r; Some (rev ran, map (fun p => (fst p, repeat (snd p), destroy (snd p))) (map_to_list (mem l))).

Definition iterate (cbs : nat -> nat -> loop heap -> list call) (tts : nat -> Z) (l : loop heap) : option (loop heap * list nat) :=
  process_events localtime30 mktime30 cbs 10 tts tts l.

(** Events are pushed on the front of their list: the callback of timer 1, which was
    due first, runs last.  The timer of one repetition is freed. *)
Example callbacks_in_reverse : outcome (iterate some_callbacks (fun _ => 0) (loop3 0)) = Some ([2; 1]%nat, [(2%nat, 2, false)]).
Proof. vm_compute. reflexivity. Qed.

(** The callback of timer 2 (which runs first) resets and deletes the other timer,
    which is pending: it is freed, but still in the list. *)
Definition reset_and_delete (c a : nat) (l : loop heap) : list call :=
  match c with 1%nat => [Timer_reset 1 0; Timer_del 1] | _ => [] end.
Example reset_then_delete_faults : iterate reset_and_delete (fun _ => 0) (loop3 0) = None.
Proof. vm_compute. reflexivity. Qed.

(** Deleted without the reset, it stays allocated until the list has been processed,
    and its callback is not called. *)
Definition just_delete (c a : nat) (l : loop heap) : list call := match c with 1%nat => [Timer_del 1] | _ => [] end.
Example delete_is_safe : outcome (iterate just_delete (fun _ => 0) (loop3 0)) = Some ([2]%nat, [(2%nat, 2, false)]).
Proof. vm_compute. reflexivity. Qed.

(** A timer of no repetitions repeats for ever. *)
Definition never : loop heap := hloop_update_time (add_timer loop0 (Timer_add (mkClock 0 0 0) 1 (Some 0%nat) 10 0)) (mkClock 30000 30 0).
Example repeat_zero_is_infinite : outcome (iterate some_callbacks (fun _ => 0) never) = Some ([1]%nat, [(1%nat, INFINITE, false)]).
Proof. vm_compute. reflexivity. Qed.

(** A timer of a second ends up to a tenth of a second too early. *)
Example timer_is_early : start_timeout 99999 1000 - 99999 = 900001.
Proof. vm_compute. reflexivity. Qed.

(** The time of the loop is 60.2 s when [time] still answers 59: the next minute is
    the one that has just been fired for, and all the repetitions of a timer are
    used up in one pass, for one call of its callback. *)
Definition minutely : loop heap :=
  hloop_update_time (add_timer (hloop_init 0 0) (Period_add 0 1 (Some 0%nat) (mkCron (-1) (-1) (-1) (-1) (-1)) 5)) (mkClock 60200000 60200 60).
Example clock_behind_uses_repetitions :
  outcome (iterate some_callbacks (fun _ => 59) minutely) = Some ([1]%nat, []) /\
  outcome (iterate some_callbacks (fun _ => 60) minutely) = Some ([1]%nat, [(1%nat, 4, false)]).
Proof. split; vm_compute; reflexivity. Qed.
