(* ===== verification/IoWatcher.v ===== *)
(** * Watching file descriptors: [event/epoll.c], [event/poll.c], [event/select.c]
    and [event/kqueue.c] of libhv, under [hio_add] and [hio_del] of [event/hloop.c]

    The event loop watches its ios through one interface with an implementation
    for each system call.  The class [IoWatcher] states what [hio_add], [hio_del]
    and the polling need of an implementation: it watches a map from descriptors
    to events.  [epoll] and [poll] satisfy it; the file shows where [select] and
    [kqueue] do not. *)

From S2P Require Import Prelude.

#[local] Open Scope list_scope.
#[local] Open Scope Z_scope.

(** ** The ios of a loop *)

Definition HV_READ : Z := 0x0001.
Definition HV_WRITE : Z := 0x0004.
Definition HV_RDWR : Z := Z.lor HV_READ HV_WRITE.

(** The fields of [hio_t] that watching uses; [cb] is a pointer, 0 when NULL. *)
Record hio_t := mkIo {
  events : Z;
  revents : Z;
  ready : bool;
  active : bool;
  pending : bool;
  cb : Z;
  event_index0 : Z;
  event_index1 : Z;
}.

(** [loop->ios] (without an entry: NULL), the pending ios of one priority, the
    last first, and the counters. *)
Record hloop_t := mkLoop {
  ios : gmap Z hio_t;
  pendings : list Z;
  npendings : Z;
  nactives : Z;
  nios : Z;
}.

Definition set_events (e : Z) (io : hio_t) : hio_t :=
  mkIo e (revents io) (ready io) (active io) (pending io) (cb io) (event_index0 io) (event_index1 io).
Definition set_cb (c : Z) (io : hio_t) : hio_t :=
  mkIo (events io) (revents io) (ready io) (active io) (pending io) c (event_index0 io) (event_index1 io).
Definition set_active (b : bool) (io : hio_t) : hio_t :=
  mkIo (events io) (revents io) (ready io) b (pending io) (cb io) (event_index0 io) (event_index1 io).
Definition set_index0 (i : Z) (io : hio_t) : hio_t :=
  mkIo (events io) (revents io) (ready io) (active io) (pending io) (cb io) i (event_index1 io).
Definition set_index1 (i : Z) (io : hio_t) : hio_t :=
  mkIo (events io) (revents io) (ready io) (active io) (pending io) (cb io) (event_index0 io) i.

Definition set_ios (m : gmap Z hio_t) (l : hloop_t) : hloop_t :=
  mkLoop m (pendings l) (npendings l) (nactives l) (nios l).

(** [EVENT_PENDING] after [io->revents |= revents]; an io that is not there is
    passed over. *)
Definition report (l : hloop_t) (fd revs : Z) : hloop_t :=
  match ios l !! fd with
  | None => l
  | Some io =>
      let io' := mkIo (events io) (Z.lor (revents io) revs) (ready io) (active io) true (cb io) (event_index0 io) (event_index1 io) in
      let m := <[fd := io']> (ios l) in
      if pending io then set_ios m l
      else mkLoop m (fd :: pendings l) (npendings l + 1) (nactives l) (nios l)
  end.

(** What [epoll] and [poll] call the same: input, output, error and hang-up. *)
Definition POLLIN : Z := 0x01.
Definition POLLOUT : Z := 0x04.
Definition POLLERR : Z := 0x08.
Definition POLLHUP : Z := 0x10.
Definition POLLNVAL : Z := 0x20.

Definition io_revents (revs : Z) : Z :=
  Z.lor (if decide (Z.land revs (Z.lor POLLIN (Z.lor POLLHUP POLLERR)) <> 0) then HV_READ else 0)
        (if decide (Z.land revs (Z.lor POLLOUT (Z.lor POLLHUP POLLERR)) <> 0) then HV_WRITE else 0).

(** The masks of events, and the bits that [add] and [del] set and clear. *)
Definition mask (e : Z) : Prop := e = HV_READ \/ e = HV_WRITE \/ e = HV_RDWR.
Definition add_bits (old e inp out : Z) : Z :=
  let old := if decide (Z.land e HV_READ <> 0) then Z.lor old inp else old in
  if decide (Z.land e HV_WRITE <> 0) then Z.lor old out else old.
Definition clear_bits (old e inp out : Z) : Z :=
  let old := if decide (Z.land e HV_READ <> 0) then Z.land old (Z.lnot inp) else old in
  if decide (Z.land e HV_WRITE <> 0) then Z.land old (Z.lnot out) else old.

(** ** The interface *)

(** The loop over the answers of the system call, which stops after [n] of them. *)
Fixpoint report_loop (answers : list (Z * Z)) (n nevents : Z) (l : hloop_t) : Z * hloop_t :=
  match answers with
  | [] => (nevents, l)
  | (fd, revs) :: answers' =>
      let '(nevents, l) := if decide (revs <> 0) then (nevents + 1, report l fd (io_revents revs)) else (nevents, l) in
      if decide (nevents = n) then (nevents, l) else report_loop answers' n nevents l
  end.

(** The watcher [W], *)
Class IoSetter (W : Type) := {
  iowatcher_init : W;
  iowatcher_add_event : W -> gmap Z hio_t -> Z -> Z -> option (W * gmap Z hio_t);
  iowatcher_del_event : W -> gmap Z hio_t -> Z -> Z -> option (W * gmap Z hio_t);
}.

(** and the answers [A] of its system call. *)
Class IoWatcher (W A : Type) := {
  #[global] iowatcher_setter :: IoSetter W;
  iowatcher_poll_events : W -> hloop_t -> A -> option (Z * (W * hloop_t));
}.

(** Nothing of an io but its indexes is changed. *)
Definition same_ios (m m' : gmap Z hio_t) : Prop :=
  forall fd, (fun io => set_index1 0 (set_index0 0 io)) <$> m' !! fd = (fun io => set_index1 0 (set_index0 0 io)) <$> m !! fd.

Definition indexes (m : gmap Z hio_t) : gmap Z (Z * Z) := (fun io => (event_index0 io, event_index1 io)) <$> m.

(** No io has a place, as [hio_ready] leaves it. *)
Definition unplaced (m : gmap Z hio_t) : Prop := forall fd ix, indexes m !! fd = Some ix -> ix = (-1, -1).

(** The entry of an io with the events [e]. *)
Definition watched (e : Z) : option Z := if decide (e = 0) then None else Some e.

(** What a condition of a descriptor makes of the events that are watched. *)
Definition happened (always : Z) (cond : Z -> Z) (fd e : Z) : Z := Z.land (cond fd) (Z.lor e always).

(** [rs] are the descriptors of [m] with something to report. *)
Definition reports (always : Z) (cond : Z -> Z) (m : gmap Z Z) (rs : list (Z * Z)) : Prop :=
  NoDup rs.*1 /\
  forall fd r, (fd, r) ∈ rs <-> exists e, m !! fd = Some e /\ r = happened always cond fd e /\ r <> 0.

Definition report_all (l : hloop_t) (rs : list (Z * Z)) : hloop_t :=
  foldl (fun l x => report l x.1 (io_revents x.2)) l rs.

(** [watches w ios m]: the system call is asked for the events [m].
    [answers w cond a]: [a] is what it answers when [cond] are the conditions of
    the descriptors. *)
Class IoWatcherLaws (W A : Type) `{IoWatcher W A} := {
  watches : W -> gmap Z hio_t -> gmap Z Z -> Prop;
  answers : W -> (Z -> Z) -> A -> Prop;
  always : Z;
  init_watches ios : unplaced ios -> watches iowatcher_init ios ∅;
  same_watches w ios ios' m : watches w ios m -> indexes ios' = indexes ios -> watches w ios' m;
  fresh_watches w ios m fd io : watches w ios m -> m !! fd = None -> event_index0 io = -1 -> event_index1 io = -1 ->
    watches w (<[fd := io]> ios) m;
  add_watches w ios m fd io e : watches w ios m -> ios !! fd = Some io -> m !! fd = watched (events io) ->
    events io = 0 \/ mask (events io) -> mask e -> Z.land (events io) e = 0 ->
    exists w' ios', iowatcher_add_event w ios fd e = Some (w', ios') /\ same_ios ios ios' /\
      watches w' ios' (<[fd := Z.lor (events io) e]> m);
  del_watches w ios m fd io e : watches w ios m -> ios !! fd = Some io -> m !! fd = Some (events io) ->
    mask (events io) -> mask e -> Z.land (events io) e <> 0 ->
    exists w' ios', iowatcher_del_event w ios fd e = Some (w', ios') /\ same_ios ios ios' /\
      watches w' ios' (partial_alter (fun _ => watched (Z.land (events io) (Z.lnot e))) fd m);
  poll_reports w l m cond a : watches w (ios l) m -> answers w cond a ->
    exists rs, reports always cond m rs /\ iowatcher_poll_events w l a = Some (Z.of_nat (length rs), (w, report_all l rs));
}.

(** ** Masks *)

Lemma mask_add a e : a = 0 \/ mask a -> mask e -> add_bits (add_bits 0 a POLLIN POLLOUT) e POLLIN POLLOUT = Z.lor a e.
Proof. intros [->|[->|[->| ->]]] [->|[->| ->]]; reflexivity. Qed.
Lemma mask_clear a e : mask a -> mask e -> clear_bits (add_bits 0 a POLLIN POLLOUT) e POLLIN POLLOUT = Z.land a (Z.lnot e).
Proof. intros [->|[->| ->]] [->|[->| ->]]; reflexivity. Qed.
Lemma mask_add_to a e : a = 0 \/ mask a -> mask e -> add_bits a e POLLIN POLLOUT = Z.lor a e.
Proof. intros [->|[->|[->| ->]]] [->|[->| ->]]; reflexivity. Qed.
Lemma mask_clear_of a e : mask a -> mask e -> clear_bits a e POLLIN POLLOUT = Z.land a (Z.lnot e).
Proof. intros [->|[->| ->]] [->|[->| ->]]; reflexivity. Qed.
Lemma mask_lor a e : a = 0 \/ mask a -> mask e -> mask (Z.lor a e).
Proof. intros [->|[->|[->| ->]]] [->|[->| ->]]; vm_compute; tauto. Qed.
Lemma mask_left a e : mask a -> mask e -> Z.land a (Z.lnot e) = 0 \/ mask (Z.land a (Z.lnot e)).
Proof. intros [->|[->| ->]] [->|[->| ->]]; vm_compute; tauto. Qed.
Lemma mask_disjoint a e : mask a -> mask e -> Z.land a e = 0 -> Z.land a (Z.lnot e) = a.
Proof. intros [->|[->| ->]] [->|[->| ->]]; done. Qed.
Lemma mask_pos e : mask e -> e <> 0.
Proof. by intros [->|[->| ->]]. Qed.

Lemma same_ios_set0 m fd io i : m !! fd = Some io -> same_ios m (<[fd := set_index0 i io]> m).
Proof.
  intros Hm x. destruct (decide (x = fd)) as [->|Hx]; [rewrite lookup_insert_eq, Hm; done | by rewrite lookup_insert_ne].
Qed.
Lemma same_ios_set1 m fd io i : m !! fd = Some io -> same_ios m (<[fd := set_index1 i io]> m).
Proof.
  intros Hm x. destruct (decide (x = fd)) as [->|Hx]; [rewrite lookup_insert_eq, Hm; done | by rewrite lookup_insert_ne].
Qed.
Lemma same_ios_trans m1 m2 m3 : same_ios m1 m2 -> same_ios m2 m3 -> same_ios m1 m3.
Proof. intros H1 H2 x. by rewrite H2, H1. Qed.

(** ** The loop over the answers *)

Lemma report_loop_all rs stale l k : Forall (fun x => x.2 <> 0) rs -> 0 <= k -> rs <> [] ->
  report_loop (rs ++ stale) (k + Z.of_nat (length rs)) k l = (k + Z.of_nat (length rs), report_all l rs).
Proof.
  intros Hrs. revert l k. induction Hrs as [|[fd r] rs Hr Hrs IH]; intros l k Hk Hne; [done|].
  cbn [snd] in Hr. rewrite <- app_comm_cons. cbn [report_loop length]. rewrite decide_True by done.
  destruct (decide (rs = [])) as [->|Hrs'].
  - by rewrite decide_True.
  - assert (0 < length rs)%nat by (destruct rs; [done | cbn; lia]). rewrite decide_False by lia.
    rewrite Nat2Z.inj_succ.
    replace (k + Z.succ (Z.of_nat (length rs))) with ((k + 1) + Z.of_nat (length rs)) by lia.
    rewrite IH by (done || lia). done.
Qed.

(** Answers of 0 are passed over. *)
Lemma report_loop_filter ans l k n : 0 <= k < n ->
  n = k + Z.of_nat (length (filter (fun x => x.2 <> 0) ans)) ->
  report_loop ans n k l = (n, report_all l (filter (fun x => x.2 <> 0) ans)).
Proof.
  revert l k. induction ans as [|[fd r] ans IH]; intros l k Hk En; [cbn in En; lia|]. cbn [report_loop].
  destruct (decide (r <> 0)) as [Hr|Hr].
  - rewrite filter_cons_True in En |- * by done. cbn [length] in En. rewrite Nat2Z.inj_succ in En. case_decide as Hn.
    + assert (filter (fun x => x.2 <> 0) ans = []) as -> by (apply nil_length_inv; lia). subst n. by rewrite Hn.
    + rewrite IH by lia. done.
  - rewrite filter_cons_False in En |- * by done. rewrite decide_False by lia. by apply IH.
Qed.

(** ** [epoll] *)

Inductive epoll_op := EPOLL_CTL_ADD | EPOLL_CTL_MOD | EPOLL_CTL_DEL.
#[export] Instance epoll_op_eq : EqDecision epoll_op.
Proof. solve_decision. Defined.

(** The kernel's side: the interest list of a descriptor. *)
Class EpollKernel (K : Type) := {
  epoll_create : K;
  epoll_ctl : K -> epoll_op -> Z -> Z -> K;
  interest : K -> gmap Z Z;
}.

(** As documented by epoll_ctl(2), of the calls that succeed. *)
Class EpollLaws (K : Type) `{EpollKernel K} : Prop := {
  create_empty : interest epoll_create = ∅;
  ctl_add k fd e : interest k !! fd = None -> interest (epoll_ctl k EPOLL_CTL_ADD fd e) = <[fd := e]> (interest k);
  ctl_mod k fd e : is_Some (interest k !! fd) -> interest (epoll_ctl k EPOLL_CTL_MOD fd e) = <[fd := e]> (interest k);
  ctl_del k fd e : is_Some (interest k !! fd) -> interest (epoll_ctl k EPOLL_CTL_DEL fd e) = delete fd (interest k);
}.

Module Epoll.
Section Epoll.
Context {K : Type} `{EpollLaws K}.

(** The array of [struct epoll_event] by its sizes. *)
Record epoll_ctx_t := mkCtx { epfd : K; size : Z; maxsize : Z }.

Definition EVENTS_INIT_SIZE : Z := 64.
Definition init : epoll_ctx_t := mkCtx epoll_create 0 EVENTS_INIT_SIZE.

Definition add_event (w : epoll_ctx_t) (m : gmap Z hio_t) (fd e : Z) : option (epoll_ctx_t * gmap Z hio_t) :=
  io ← m !! fd;
  let ee := add_bits (add_bits 0 (events io) POLLIN POLLOUT) e POLLIN POLLOUT in
  let op := if decide (events io = 0) then EPOLL_CTL_ADD else EPOLL_CTL_MOD in
  let k := epoll_ctl (epfd w) op fd ee in
  if decide (op = EPOLL_CTL_ADD) then
    let max := if decide (size w = maxsize w) then maxsize w * 2 else maxsize w in
    Some (mkCtx k (size w + 1) max, m)
  else Some (mkCtx k (size w) (maxsize w), m).

Definition del_event (w : epoll_ctx_t) (m : gmap Z hio_t) (fd e : Z) : option (epoll_ctx_t * gmap Z hio_t) :=
  io ← m !! fd;
  let ee := clear_bits (add_bits 0 (events io) POLLIN POLLOUT) e POLLIN POLLOUT in
  let op := if decide (ee = 0) then EPOLL_CTL_DEL else EPOLL_CTL_MOD in
  let k := epoll_ctl (epfd w) op fd ee in
  Some (mkCtx k (if decide (op = EPOLL_CTL_DEL) then size w - 1 else size w) (maxsize w), m).

(** What [epoll_wait] returns, whether [errno] is EINTR, and the array. *)
Record answer := mkAnswer { nepoll : Z; eintr : bool; entries : list (Z * Z) }.

Definition poll_events (w : epoll_ctx_t) (l : hloop_t) (a : answer) : Z * hloop_t :=
  if decide (size w = 0) then (0, l)
  else if decide (nepoll a < 0) then (if eintr a then 0 else nepoll a, l)
  else if decide (nepoll a = 0) then (0, l)
  else report_loop (take (Z.to_nat (size w)) (entries a)) (nepoll a) 0 l.

(** The interest list is the map, and there is room for an event of each. *)
Definition epoll_watches (w : epoll_ctx_t) (ios : gmap Z hio_t) (m : gmap Z Z) : Prop :=
  interest (epfd w) = m /\ size w = Z.of_nat (base.size m) /\ size w <= maxsize w /\ 0 < maxsize w.

(** As documented by epoll_wait(2): as many entries as fit into the array,
    for different descriptors; fewer than fit only when there are no more. *)
Definition epoll_answers (w : epoll_ctx_t) (cond : Z -> Z) (a : answer) : Prop :=
  exists rs stale, entries a = rs ++ stale /\ nepoll a = Z.of_nat (length rs) /\ nepoll a <= size w /\ NoDup rs.*1 /\
    (forall fd r, (fd, r) ∈ rs -> exists e, interest (epfd w) !! fd = Some e /\ r = happened (Z.lor POLLERR POLLHUP) cond fd e /\ r <> 0) /\
    (nepoll a < size w -> forall fd e, interest (epfd w) !! fd = Some e -> happened (Z.lor POLLERR POLLHUP) cond fd e <> 0 ->
       fd ∈ rs.*1).

Lemma epoll_answers_report w m cond a l : epoll_watches w (ios l) m -> epoll_answers w cond a ->
  exists rs, reports (Z.lor POLLERR POLLHUP) cond m rs /\ poll_events w l a = (Z.of_nat (length rs), report_all l rs).
Proof using Type.
  intros (Hm & Hs & Hmax & _) (rs & stale & Ee & En & Hfit & Hnd & Hsound & Hcomplete). rewrite Hm in *.
  assert (Hall : forall fd e, m !! fd = Some e -> happened (Z.lor POLLERR POLLHUP) cond fd e <> 0 -> fd ∈ rs.*1).
  { destruct (decide (nepoll a < size w)) as [Hlt|Hge]; [by apply Hcomplete|]. intros fd e Hfd _.
    assert (Hsub : list_to_set (C := gset Z) rs.*1 ⊆ dom m).
    { intros x Hx. apply elem_of_list_to_set, list_elem_of_fmap in Hx as ([y r] & -> & Hin).
      destruct (Hsound _ _ Hin) as (e' & He' & _). by apply elem_of_dom. }
    assert (list_to_set (C := gset Z) rs.*1 = dom m) as E.
    { apply set_subseteq_size_eq; [done|].
      rewrite size_list_to_set, size_dom, length_fmap by done. lia. }
    rewrite <- (elem_of_list_to_set (C := gset Z)), E. by apply elem_of_dom. }
  exists rs. split.
  - split; [done|]. intros fd r. split; [apply Hsound|]. intros (e & He & -> & Hr).
    pose proof (Hall fd e He Hr) as Hin. apply list_elem_of_fmap in Hin as ([y r] & -> & Hin). cbn in *.
    destruct (Hsound _ _ Hin) as (e' & He' & Er & _). rewrite He in He'. injection He' as <-. by rewrite <- Er.
  - unfold poll_events. destruct (decide (size w = 0)) as [Hz|Hz].
    { assert (length rs = 0)%nat by lia. by destruct rs. }
    rewrite decide_False by lia. destruct (decide (nepoll a = 0)) as [Hn|Hn].
    { assert (length rs = 0)%nat by lia. by destruct rs. }
    rewrite Ee, take_app_ge by lia.
    assert (Hne : rs <> []) by (intros ->; cbn in En; lia).
    pose proof (report_loop_all rs (take (Z.to_nat (size w) - length rs) stale) l 0) as E. rewrite Z.add_0_l in E. rewrite En, E; [done| |lia|done].
    apply Forall_forall. intros [fd r] Hin. by destruct (Hsound _ _ Hin) as (e & _ & _ & ?).
Qed.

#[global] Instance epoll_setter : IoSetter epoll_ctx_t := {
  iowatcher_init := init;
  iowatcher_add_event := add_event;
  iowatcher_del_event := del_event;
}.

#[global] Instance epoll_watcher : IoWatcher epoll_ctx_t answer := {
  iowatcher_poll_events := fun w l a => let '(n, l) := poll_events w l a in Some (n, (w, l));
}.

#[global] Program Instance epoll_watcher_laws : IoWatcherLaws epoll_ctx_t answer := {
  watches := epoll_watches;
  answers := epoll_answers;
  always := Z.lor POLLERR POLLHUP;
}.
Next Obligation. intros ios _. split; [apply create_empty|]. split_and!; [by rewrite map_size_empty | vm_compute; congruence | done]. Qed.
Next Obligation. intros w ios ios' m Hw _. exact Hw. Qed.
Next Obligation. intros w ios m fd io Hw _ _ _. exact Hw. Qed.
Next Obligation.
  intros w ios m fd io e (Hm & Hs & Hmax & Hpos) Hio Hfd Hev He _. cbn [iowatcher_add_event iowatcher_setter epoll_watcher epoll_setter].
  unfold add_event. rewrite Hio. cbn [mbind option_bind]. rewrite mask_add by done.
  unfold watched in Hfd. destruct (decide (events io = 0)) as [Hz|Hz].
  - rewrite decide_True by done. eexists _, ios. split; [done|]. split; [done|].
    split_and!; cbn [epfd size maxsize]; [by rewrite ctl_add; rewrite Hm | | case_decide; lia | case_decide; lia].
    rewrite map_size_insert_None by done. lia.
  - rewrite decide_False by done. eexists _, ios. split; [done|]. split; [done|].
    split_and!; cbn [epfd size maxsize]; [rewrite ctl_mod; rewrite Hm; [done|by eexists] | | done..].
    rewrite map_size_insert_Some by (by eexists). done.
Qed.
Next Obligation.
  intros w ios m fd io e (Hm & Hs & Hmax & Hpos) Hio Hfd Hev He _. cbn [iowatcher_del_event iowatcher_setter epoll_watcher epoll_setter].
  unfold del_event. rewrite Hio. cbn [mbind option_bind]. rewrite mask_clear by done.
  eexists _, ios. split; [done|]. split; [done|]. unfold watched.
  destruct (decide (Z.land (events io) (Z.lnot e) = 0)) as [Hz|Hz].
  - rewrite decide_True by done.
    split_and!; cbn [epfd size maxsize]; [rewrite ctl_del; rewrite Hm; [done|by eexists] | | lia | done].
    change (partial_alter (fun _ => None) fd m) with (delete fd m). rewrite map_size_delete_Some by by eexists.
    assert (base.size m <> 0)%nat by (apply map_size_non_empty_iff; intros ->; by rewrite lookup_empty in Hfd). lia.
  - rewrite decide_False by done.
    split_and!; cbn [epfd size maxsize]; [rewrite ctl_mod; rewrite Hm; [done|by eexists] | | done..].
    change (partial_alter (fun _ => Some ?x) fd m) with (<[fd := x]> m).
    rewrite map_size_insert_Some by (by eexists). done.
Qed.
Next Obligation.
  intros w l m cond a Hw Ha. destruct (epoll_answers_report w m cond a l Hw Ha) as (rs & Hrs & E). exists rs. split; [done|].
  cbn [iowatcher_poll_events epoll_watcher]. by rewrite E.
Qed.
End Epoll.
End Epoll.

(** ** [poll] *)

Module Poll.

(** The array of [struct pollfd] (descriptor and events). *)
Record poll_ctx_t := mkCtx { fds : list (Z * Z); maxsize : Z }.
Definition FDS_INIT_SIZE : Z := 64.
Definition init : poll_ctx_t := mkCtx [] FDS_INIT_SIZE.
Definition size (w : poll_ctx_t) : Z := Z.of_nat (length (fds w)).

Definition add_event (w : poll_ctx_t) (m : gmap Z hio_t) (fd e : Z) : option (poll_ctx_t * gmap Z hio_t) :=
  io ← m !! fd;
  let idx := event_index0 io in
  if decide (idx < 0) then
    let max := if decide (size w = maxsize w) then maxsize w * 2 else maxsize w in
    Some (mkCtx (fds w ++ [(fd, add_bits 0 e POLLIN POLLOUT)]) max, <[fd := set_index0 (size w) io]> m)
  else
    '(fd', old) ← fds w !! Z.to_nat idx;
    if decide (fd' = fd) then Some (mkCtx (<[Z.to_nat idx := (fd, add_bits old e POLLIN POLLOUT)]> (fds w)) (maxsize w), m)
    else None.

(** [pollfds_del_nomove]: the last takes the place. *)
Definition del_nomove {A} (l : list A) (pos : nat) : list A :=
  match last l with
  | Some x => take (length l - 1) (<[pos := x]> l)
  | None => l
  end.

(** The index of the one that was moved to the place [i], and of [fd], which has left it. *)
Definition correct_index (l : list (Z * Z)) (i : nat) (fd : Z) (m : gmap Z hio_t) : option (gmap Z hio_t) :=
  m ← (if decide (Z.of_nat i < Z.of_nat (length l)) then
         '(lfd, _) ← l !! i; last ← m !! lfd; Some (<[lfd := set_index0 (Z.of_nat i) last]> m)
       else Some m);
  io ← m !! fd;
  Some (<[fd := set_index0 (-1) io]> m).

Definition del_event (w : poll_ctx_t) (m : gmap Z hio_t) (fd e : Z) : option (poll_ctx_t * gmap Z hio_t) :=
  io ← m !! fd;
  let idx := event_index0 io in
  if decide (idx < 0) then Some (w, m)
  else
    let i := Z.to_nat idx in
    '(fd', old) ← fds w !! i;
    if decide (fd' <> fd) then None
    else
      let left_ := clear_bits old e POLLIN POLLOUT in
      if decide (left_ = 0) then
        let l := del_nomove (fds w) i in
        m ← correct_index l i fd m;
        Some (mkCtx l (maxsize w), m)
      else Some (mkCtx (<[i := (fd, left_)]> (fds w)) (maxsize w), m).

(** What [poll] returns, whether [errno] is EINTR, and the [revents] of the array. *)
Record answer := mkAnswer { npoll : Z; eintr : bool; revs : list Z }.

Definition poll_events (w : poll_ctx_t) (l : hloop_t) (a : answer) : Z * hloop_t :=
  if decide (size w = 0) then (0, l)
  else if decide (npoll a < 0) then (if eintr a then 0 else npoll a, l)
  else if decide (npoll a = 0) then (0, l)
  else report_loop (zip (fds w).*1 (revs a)) (npoll a) 0 l.

(** A descriptor has one place. *)
Definition one_place (l : list (Z * Z)) : Prop :=
  forall i j fd e e', l !! i = Some (fd, e) -> l !! j = Some (fd, e') -> i = j.

(** [event_index[0]] is the place of a descriptor in the array, or -1. *)
Definition placed (l : list (Z * Z)) (ix : gmap Z (Z * Z)) : Prop :=
  (forall i fd e, l !! i = Some (fd, e) -> fst <$> ix !! fd = Some (Z.of_nat i)) /\
  (forall fd p, ix !! fd = Some p -> (forall i e, l !! i <> Some (fd, e)) -> p.1 = -1).

Definition poll_watches (w : poll_ctx_t) (ios : gmap Z hio_t) (m : gmap Z Z) : Prop :=
  one_place (fds w) /\ (forall fd e, m !! fd = Some e <-> exists i, fds w !! i = Some (fd, e)) /\
  placed (fds w) (indexes ios) /\ size w <= maxsize w /\ 0 < maxsize w.

(** As documented by poll(2). *)
Definition poll_answers (w : poll_ctx_t) (cond : Z -> Z) (a : answer) : Prop :=
  revs a = (fun x => happened (Z.lor POLLERR (Z.lor POLLHUP POLLNVAL)) cond x.1 x.2) <$> fds w /\
  npoll a = Z.of_nat (length (filter (fun r => r <> 0) (revs a))).

Lemma lookup_del_nomove {A} (l : list A) pos k x : (pos < length l)%nat ->
  del_nomove l pos !! k = Some x <->
  (S k < length l)%nat /\ (if decide (k = pos) then l !! (length l - 1)%nat = Some x else l !! k = Some x).
Proof.
  intros Hp. unfold del_nomove. rewrite last_lookup.
  destruct (l !! pred (length l)) as [y|] eqn:Hy; [|apply lookup_ge_None in Hy; lia].
  replace (pred (length l)) with (length l - 1)%nat in Hy by lia.
  destruct (decide (S k < length l)%nat) as [Hk|Hk].
  - rewrite lookup_take_lt by lia. case_decide as Ek; [subst k; rewrite list_lookup_insert_eq by lia | rewrite list_lookup_insert_ne by done].
    + rewrite Hy. tauto.
    + tauto.
  - rewrite lookup_take_ge by lia. split; [done|]. lia.
Qed.

Lemma length_del_nomove {A} (l : list A) pos : length (del_nomove l pos) = (length l - 1)%nat.
Proof. unfold del_nomove. destruct (last l) eqn:E; [rewrite length_take, length_insert; lia|]. apply last_None in E. by subst. Qed.

Section Array.
Context (l : list (Z * Z)) (Hone : one_place l).

(** A descriptor that is removed: the last one moves to its place. *)
Lemma del_one_place pos : (pos < length l)%nat -> one_place (del_nomove l pos).
Proof using Hone.
  intros Hp i j fd e e' Hi Hj. apply lookup_del_nomove in Hi as [Li Hi]; [|done]. apply lookup_del_nomove in Hj as [Lj Hj]; [|done].
  repeat case_decide; subst; try (by pose proof (Hone _ _ _ _ _ Hi Hj); lia).
Qed.

Lemma del_members pos fd0 e0 fd e : l !! pos = Some (fd0, e0) ->
  (exists i, del_nomove l pos !! i = Some (fd, e)) <-> (exists i, l !! i = Some (fd, e)) /\ fd <> fd0.
Proof using Hone.
  intros H0. pose proof (lookup_lt_Some _ _ _ H0) as Hp. split.
  - intros (i & Hi). apply lookup_del_nomove in Hi as [Li Hi]; [|done]. case_decide as Ei.
    + split; [by eexists|]. intros ->. pose proof (Hone _ _ _ _ _ H0 Hi). lia.
    + split; [by eexists|]. intros ->. by pose proof (Hone _ _ _ _ _ H0 Hi).
  - intros [(i & Hi) Hne]. pose proof (lookup_lt_Some _ _ _ Hi). assert (i <> pos) by (intros ->; congruence).
    destruct (decide (S i = length l)) as [El|El].
    + exists pos. apply lookup_del_nomove; [done|]. rewrite decide_True by done. split; [lia|].
      replace (length l - 1)%nat with i by lia. done.
    + exists i. apply lookup_del_nomove; [done|]. rewrite decide_False by done. split; [lia|done].
Qed.
End Array.

Lemma indexes_insert ios fd io : indexes (<[fd := io]> ios) = <[fd := (event_index0 io, event_index1 io)]> (indexes ios).
Proof. unfold indexes. by rewrite fmap_insert. Qed.
Lemma indexes_lookup ios fd io : ios !! fd = Some io -> indexes ios !! fd = Some (event_index0 io, event_index1 io).
Proof. intros H. unfold indexes. by rewrite lookup_fmap, H. Qed.

(** Where a descriptor is. *)
Lemma place_of w ios m fd io : poll_watches w ios m -> ios !! fd = Some io ->
  match m !! fd with
  | Some e => exists i, event_index0 io = Z.of_nat i /\ fds w !! i = Some (fd, e)
  | None => event_index0 io = -1
  end.
Proof.
  intros (_ & Hm & [Hp1 Hp2] & _) Hio. apply indexes_lookup in Hio. destruct (m !! fd) as [e|] eqn:He.
  - apply Hm in He as (i & Hi). exists i. split; [|done]. specialize (Hp1 _ _ _ Hi). rewrite Hio in Hp1. by injection Hp1.
  - apply (Hp2 fd _ Hio). intros i e Hi. assert (m !! fd = Some e) by (apply Hm; by exists i). congruence.
Qed.

Lemma placed_update l ix pos fd e e' : one_place l -> l !! pos = Some (fd, e) -> placed l ix ->
  one_place (<[pos := (fd, e')]> l) /\ placed (<[pos := (fd, e')]> l) ix.
Proof.
  intros Hone Hpos [Hp1 Hp2]. pose proof (lookup_lt_Some _ _ _ Hpos) as Hlt.
  assert (Hback : forall i f x, <[pos := (fd, e')]> l !! i = Some (f, x) -> exists x', l !! i = Some (f, x')).
  { intros i f x Hi. destruct (decide (i = pos)) as [->|Hne].
    - rewrite list_lookup_insert_eq in Hi by done. injection Hi as <- <-. by eexists.
    - rewrite list_lookup_insert_ne in Hi by done. by eexists. }
  split; [|split].
  - intros i j f x x' Hi Hj. apply Hback in Hi as [y Hi]. apply Hback in Hj as [y' Hj]. by apply (Hone i j f y y').
  - intros i f x Hi. apply Hback in Hi as [y Hi]. by eapply Hp1.
  - intros f p Hf Hno. apply (Hp2 f p Hf). intros i x Hi. destruct (decide (i = pos)) as [->|Hne].
    + rewrite Hpos in Hi. injection Hi as -> ->. apply (Hno pos e'). by rewrite list_lookup_insert_eq.
    + apply (Hno i x). by rewrite list_lookup_insert_ne.
Qed.

Lemma members_update l pos fd e e' (m : gmap Z Z) : l !! pos = Some (fd, e) -> one_place l ->
  (forall f x, m !! f = Some x <-> exists i, l !! i = Some (f, x)) ->
  forall f x, <[fd := e']> m !! f = Some x <-> exists i, <[pos := (fd, e')]> l !! i = Some (f, x).
Proof.
  intros Hpos Hone Hm f x. pose proof (lookup_lt_Some _ _ _ Hpos) as Hlt. destruct (decide (f = fd)) as [->|Hf].
  - rewrite lookup_insert_eq. split.
    + intros [= <-]. exists pos. by rewrite list_lookup_insert_eq.
    + intros (i & Hi). destruct (decide (i = pos)) as [->|Hne].
      * rewrite list_lookup_insert_eq in Hi by done. by injection Hi as ->.
      * rewrite list_lookup_insert_ne in Hi by done. by pose proof (Hone _ _ _ _ _ Hi Hpos).
  - rewrite lookup_insert_ne by done. rewrite Hm. split; intros (i & Hi); exists i.
    + destruct (decide (i = pos)) as [->|Hne]; [congruence | by rewrite list_lookup_insert_ne].
    + destruct (decide (i = pos)) as [->|Hne]; [rewrite list_lookup_insert_eq in Hi by done; congruence | by rewrite list_lookup_insert_ne in Hi].
Qed.

Lemma add_new w ios m fd io e : poll_watches w ios m -> ios !! fd = Some io -> m !! fd = None -> forall max,
  size w + 1 <= max ->
  poll_watches (mkCtx (fds w ++ [(fd, e)]) max) (<[fd := set_index0 (size w) io]> ios) (<[fd := e]> m).
Proof.
  intros Hw Hio Hfd max Hmax. pose proof Hw as (Hone & Hm & [Hp1 Hp2] & Hs & Hpos).
  assert (Hno : forall i x, fds w !! i <> Some (fd, x)).
  { intros i x Hi. assert (m !! fd = Some x) by (apply Hm; by exists i). congruence. }
  assert (Hlast : forall i f x, (fds w ++ [(fd, e)]) !! i = Some (f, x) ->
    (fds w !! i = Some (f, x) /\ f <> fd) \/ (i = length (fds w) /\ f = fd /\ x = e)).
  { intros i f x Hi. apply lookup_app_Some in Hi as [Hi|[Hge Hi]].
    - left. split; [done|]. intros ->. by eapply Hno.
    - right. destruct (i - length (fds w))%nat as [|k] eqn:Ek; cbn in Hi; [|done]. injection Hi as <- <-. split; [lia|done]. }
  split_and!; cbn [fds maxsize].
  - intros i j f x x' Hi Hj. apply Hlast in Hi as [[Hi ?]|(-> & -> & ->)]; apply Hlast in Hj as [[Hj ?]|(-> & ? & ->)]; try done.
    by apply (Hone i j f x x').
  - intros f x. destruct (decide (f = fd)) as [->|Hf].
    + rewrite lookup_insert_eq. split.
      * intros [= <-]. exists (length (fds w)). by rewrite lookup_app_r, Nat.sub_diag by lia.
      * intros (i & Hi). apply Hlast in Hi as [[_ Hi]|(_ & _ & ->)]; done.
    + rewrite lookup_insert_ne, Hm by done. split; intros (i & Hi); exists i.
      * by apply lookup_app_l_Some.
      * by apply Hlast in Hi as [[Hi _]|(_ & Hi & _)].
  - rewrite indexes_insert. split.
    + intros i f x Hi. apply Hlast in Hi as [[Hi Hne]|(-> & -> & ->)].
      * rewrite lookup_insert_ne by done. by eapply Hp1.
      * by rewrite lookup_insert_eq.
    + intros f p Hf Hn. destruct (decide (f = fd)) as [->|Hne].
      * exfalso. apply (Hn (length (fds w)) e). by rewrite lookup_app_r, Nat.sub_diag by lia.
      * rewrite lookup_insert_ne in Hf by done. apply (Hp2 f p Hf). intros i x Hi. apply (Hn i x). by apply lookup_app_l_Some.
  - unfold size. cbn [fds]. rewrite length_app. cbn [length]. unfold size in Hmax. lia.
  - unfold size in Hmax. lia.
Qed.

(** The place [pos] of [fd] is filled with the last, whose index is corrected. *)
Lemma placed_removed l ix pos fd e0 : one_place l -> l !! pos = Some (fd, e0) -> placed l ix -> forall ix',
  (forall f p, ix' !! f = Some p -> f <> fd -> (forall x, del_nomove l pos !! pos <> Some (f, x)) -> ix !! f = Some p) ->
  (forall f i x, l !! i = Some (f, x) -> f <> fd -> (forall x, del_nomove l pos !! pos <> Some (f, x)) -> ix' !! f = ix !! f) ->
  (forall f x, del_nomove l pos !! pos = Some (f, x) -> fst <$> ix' !! f = Some (Z.of_nat pos)) ->
  (forall p, ix' !! fd = Some p -> p.1 = -1) -> placed (del_nomove l pos) ix'.
Proof.
  intros Hone Hpos [Hp1 Hp2] ix' H1 H2 H3 H4. pose proof (lookup_lt_Some _ _ _ Hpos) as Hlt. split.
  - intros i f x Hi. destruct (decide (i = pos)) as [->|Hne]; [by eapply H3|].
    assert (Hf : f <> fd) by (by apply (del_members l Hone pos fd e0 f x); [done|exists i]).
    assert (Hn : forall y, del_nomove l pos !! pos <> Some (f, y)).
    { intros y Hy. by pose proof (del_one_place l Hone pos Hlt _ _ _ _ _ Hi Hy). }
    apply lookup_del_nomove in Hi as [_ Hi]; [|done]. rewrite decide_False in Hi by done. rewrite (H2 f i x) by done. by eapply Hp1.
  - intros f p Hf Hno. destruct (decide (f = fd)) as [->|Hne]; [by apply H4|].
    apply (Hp2 f p). { apply H1; [done..|]. intros x. apply Hno. }
    intros i x Hi. destruct (proj2 (del_members l Hone pos fd e0 f x Hpos)) as (j & Hj); [by split; [exists i|]|]. by apply (Hno j x).
Qed.

Lemma del_place w ios m fd io e0 pos max : poll_watches w ios m -> ios !! fd = Some io -> m !! fd = Some e0 ->
  event_index0 io = Z.of_nat pos -> fds w !! pos = Some (fd, e0) -> size w - 1 <= max -> 0 < max ->
  exists ios', correct_index (del_nomove (fds w) pos) pos fd ios = Some ios' /\
    same_ios ios ios' /\ poll_watches (mkCtx (del_nomove (fds w) pos) max) ios' (delete fd m).
Proof.
  intros Hw Hio Hfd Hidx Hpos Hmax Hmax0. pose proof Hw as (Hone & Hm & Hplaced & Hs & _).
  pose proof (lookup_lt_Some _ _ _ Hpos) as Hlt. pose proof Hplaced as [Hp1 Hp2].
  assert (Hbase : forall ios', placed (del_nomove (fds w) pos) (indexes ios') ->
    poll_watches (mkCtx (del_nomove (fds w) pos) max) ios' (delete fd m)).
  { intros ios' Hpl. split_and!; cbn [fds maxsize]; [by apply del_one_place | | done | | done].
    - intros f x. rewrite (del_members (fds w) Hone pos fd e0 f x Hpos), lookup_delete_Some, Hm. naive_solver.
    - unfold size in *. cbn [fds]. rewrite length_del_nomove. lia. }
  unfold correct_index. case_decide as Hmove.
  - destruct (lookup_lt_is_Some_2 (del_nomove (fds w) pos) pos) as [[lfd le] Hl]; [lia|]. rewrite Hl. cbn [mbind option_bind].
    assert (Hne : lfd <> fd) by (by apply (del_members (fds w) Hone pos fd e0 lfd le Hpos); exists pos).
    assert (exists i, fds w !! i = Some (lfd, le)) as (i & Hi).
    { apply (del_members (fds w) Hone pos fd e0 lfd le Hpos). by exists pos. }
    destruct (ios !! lfd) as [lio|] eqn:Hlio.
    2: { specialize (Hp1 _ _ _ Hi). unfold indexes in Hp1. rewrite lookup_fmap, Hlio in Hp1. done. }
    cbn [mbind option_bind]. rewrite lookup_insert_ne by done. rewrite Hio. cbn [mbind option_bind].
    eexists. split; [done|]. split.
    { eapply same_ios_trans; [by apply same_ios_set0|]. apply same_ios_set0. by rewrite lookup_insert_ne. }
    apply Hbase. rewrite !indexes_insert. apply (placed_removed (fds w) (indexes ios) pos fd e0); [done..| | | |].
    + intros f p Hf Hn1 Hn2. rewrite lookup_insert_ne in Hf by done. rewrite lookup_insert_ne in Hf; [done|].
      intros <-. by apply (Hn2 le).
    + intros f j x _ Hn1 Hn2. rewrite lookup_insert_ne by done. rewrite lookup_insert_ne; [done|].
      intros <-. by apply (Hn2 le).
    + intros f x Hf. rewrite Hl in Hf. injection Hf as <- <-. rewrite lookup_insert_ne by done. by rewrite lookup_insert_eq.
    + intros p Hp. rewrite lookup_insert_eq in Hp. by injection Hp as <-.
  - cbn [mbind option_bind]. rewrite Hio. cbn [mbind option_bind]. eexists. split; [done|]. split; [by apply same_ios_set0|].
    apply Hbase. rewrite indexes_insert. apply (placed_removed (fds w) (indexes ios) pos fd e0); [done..| | | |].
    + intros f p Hf Hn1 _. by rewrite lookup_insert_ne in Hf by done.
    + intros f j x _ Hn1 _. by rewrite lookup_insert_ne.
    + intros f x Hf. apply lookup_lt_Some in Hf. lia.
    + intros p Hp. rewrite lookup_insert_eq in Hp. by injection Hp as <-.
Qed.

Lemma filter_keys (l : list (Z * Z)) : NoDup l.*1 -> NoDup (filter (fun x => x.2 <> 0) l).*1.
Proof.
  induction l as [|x l IH]; intros Hl; [done|]. rewrite fmap_cons in Hl. apply NoDup_cons in Hl as [Hx Hl]. rewrite filter_cons.
  case_decide; [|by apply IH]. rewrite fmap_cons. apply NoDup_cons. split; [|by apply IH].
  rewrite list_elem_of_fmap in Hx |- *. intros (y & Ey & Hy). apply list_elem_of_filter in Hy as [_ Hy]. apply Hx. by exists y.
Qed.

Lemma one_place_keys l : one_place l -> NoDup l.*1.
Proof.
  intros Hone. apply NoDup_alt. intros i j fd Hi Hj. rewrite list_lookup_fmap in Hi, Hj.
  destruct (l !! i) as [[f e]|] eqn:Ei; [|done]. destruct (l !! j) as [[f' e']|] eqn:Ej; [|done].
  injection Hi as ->. injection Hj as ->. by apply (Hone i j fd e e').
Qed.

Lemma poll_answers_report w ios m cond a l : poll_watches w ios m -> poll_answers w cond a ->
  exists rs, reports (Z.lor POLLERR (Z.lor POLLHUP POLLNVAL)) cond m rs /\ poll_events w l a = (Z.of_nat (length rs), report_all l rs).
Proof.
  intros (Hone & Hm & _) [Hr Hn]. set (h := fun x : Z * Z => happened (Z.lor POLLERR (Z.lor POLLHUP POLLNVAL)) cond x.1 x.2) in *.
  set (all := (fun x => (x.1, h x)) <$> fds w). exists (filter (fun x => x.2 <> 0) all).
  assert (Ezip : zip (fds w).*1 (revs a) = all).
  { rewrite Hr. unfold all. clear. induction (fds w) as [|x l IH]; [done|]. cbn. by f_equal. }
  assert (Elen : npoll a = Z.of_nat (length (filter (fun x => x.2 <> 0) all))).
  { rewrite Hn, Hr. f_equal. unfold all. clear. induction (fds w) as [|x l IH]; [done|]. rewrite !fmap_cons, !filter_cons. cbn [snd].
    case_decide; cbn; by rewrite ?IH. }
  split; [split|].
  - apply filter_keys. replace all.*1 with (fds w).*1; [by apply one_place_keys|].
    unfold all. rewrite <- list_fmap_compose. by apply list_fmap_ext.
  - intros fd r. rewrite list_elem_of_filter. unfold all. rewrite list_elem_of_fmap. split.
    + intros (Hr0 & [f e] & [= -> ->] & Hin). apply list_elem_of_lookup in Hin as [i Hi]. exists e. split; [apply Hm; by exists i|]. done.
    + intros (e & He & -> & Hr0). split; [done|]. apply Hm in He as (i & Hi). exists (fd, e). split; [done|]. by apply list_elem_of_lookup_2 in Hi.
  - unfold poll_events. rewrite Ezip. destruct (decide (size w = 0)) as [Hz|Hz].
    { unfold size in Hz. unfold all. destruct (fds w); [done|]. cbn in Hz. lia. }
    rewrite decide_False by lia. case_decide as H0.
    { assert (filter (fun x => x.2 <> 0) all = []) as -> by (apply nil_length_inv; lia). done. }
    rewrite Elen. apply report_loop_filter; lia.
Qed.
#[global] Instance poll_setter : IoSetter poll_ctx_t := {
  iowatcher_init := init;
  iowatcher_add_event := add_event;
  iowatcher_del_event := del_event;
}.

#[global] Instance poll_watcher : IoWatcher poll_ctx_t answer := {
  iowatcher_poll_events := fun w l a => let '(n, l) := poll_events w l a in Some (n, (w, l));
}.

#[global] Program Instance poll_watcher_laws : IoWatcherLaws poll_ctx_t answer := {
  watches := poll_watches;
  answers := poll_answers;
  always := Z.lor POLLERR (Z.lor POLLHUP POLLNVAL);
}.
Next Obligation.
  intros ios Hios. split_and!; [by intros i j fd e e' Hi | | split | vm_compute; congruence | done].
  - intros fd e. rewrite lookup_empty. split; [done|]. by intros (i & Hi).
  - by intros i fd e Hi.
  - intros fd p Hp _. by rewrite (Hios _ _ Hp).
Qed.
Next Obligation. intros w ios ios' m (Hone & Hm & Hp & Hs) E. split_and!; [done..| by rewrite E | apply Hs | apply Hs]. Qed.
Next Obligation.
  intros w ios m fd io (Hone & Hm & [Hp1 Hp2] & Hs) Hfd E0 E1. split_and!; [done..| | apply Hs | apply Hs].
  assert (Hno : forall i e, fds w !! i <> Some (fd, e)).
  { intros i e Hi. assert (m !! fd = Some e) by (apply Hm; by exists i). congruence. }
  rewrite indexes_insert. split.
  - intros i f e Hi. rewrite lookup_insert_ne; [by eapply Hp1|]. intros <-. by eapply Hno.
  - intros f p Hf Hn. destruct (decide (f = fd)) as [->|Hne].
    + rewrite lookup_insert_eq in Hf. by injection Hf as <-.
    + rewrite lookup_insert_ne in Hf by done. by apply (Hp2 f p).
Qed.
Next Obligation.
  intros w ios m fd io e Hw Hio Hfd Hev He _. pose proof (place_of w ios m fd io Hw Hio) as Hat.
  cbn [iowatcher_add_event iowatcher_setter poll_watcher poll_setter]. unfold add_event. rewrite Hio. cbn [mbind option_bind].
  pose proof Hw as (Hone & Hm & Hp & Hs & Hs0). rewrite Hfd in Hat. unfold watched in Hat, Hfd. case_decide as Hz.
  - rewrite Hat. rewrite decide_True by lia. eexists _, _. split; [done|]. split; [by apply same_ios_set0|].
    rewrite (mask_add_to 0 e), Hz by first [done | by left]. apply add_new; [done..|]. case_decide; lia.
  - destruct Hat as (i & -> & Hi). rewrite decide_False, Nat2Z.id, Hi by lia. cbn [mbind option_bind]. rewrite decide_True by done.
    eexists _, _. split; [done|]. split; [done|]. rewrite mask_add_to by done.
    destruct (placed_update (fds w) (indexes ios) i fd (events io) (Z.lor (events io) e) Hone Hi Hp) as [Ho Hpl].
    split_and!; cbn [fds maxsize]; [done | | done | | done].
    + by eapply members_update.
    + unfold size in *. cbn [fds]. by rewrite length_insert.
Qed.
Next Obligation.
  intros w ios m fd io e Hw Hio Hfd Hev He _. pose proof (place_of w ios m fd io Hw Hio) as Hat.
  cbn [iowatcher_del_event iowatcher_setter poll_watcher poll_setter]. unfold del_event. rewrite Hio. cbn [mbind option_bind].
  pose proof Hw as (Hone & Hm & Hp & Hs & Hs0). rewrite Hfd in Hat. destruct Hat as (i & Ei & Hi).
  rewrite Ei, decide_False, Nat2Z.id, Hi by lia. cbn [mbind option_bind]. rewrite decide_False by (intros ?; done).
  rewrite mask_clear_of by done. unfold watched. case_decide as Hz.
  - destruct (del_place w ios m fd io (events io) i (maxsize w)) as (ios' & E & Hsame & Hw'); [done..|lia|done|].
    rewrite E. cbn [mbind option_bind]. by eexists _, ios'.
  - eexists _, _. split; [done|]. split; [done|].
    destruct (placed_update (fds w) (indexes ios) i fd (events io) (Z.land (events io) (Z.lnot e)) Hone Hi Hp) as [Ho Hpl].
    split_and!; cbn [fds maxsize]; [done | | done | | done].
    + by eapply members_update.
    + unfold size in *. cbn [fds]. by rewrite length_insert.
Qed.
Next Obligation.
  intros w l m cond a Hw Ha. destruct (poll_answers_report w (ios l) m cond a l Hw Ha) as (rs & Hrs & E). exists rs. split; [done|].
  cbn [iowatcher_poll_events poll_watcher]. by rewrite E.
Qed.
End Poll.

(** ** The loop *)

(** What is seen of an io. *)
Record view := mkView { v_events : Z; v_revents : Z; v_ready : bool; v_pending : bool }.
Definition view_of (io : hio_t) : view := mkView (events io) (revents io) (ready io) (pending io).

(** Calls of the loop; [Poll cond] when [cond] are the conditions of the descriptors. *)
Inductive call := Get (fd : Z) | Add (fd c e : Z) | Del (fd e : Z) | Done (fd : Z) | Poll (cond : Z -> Z).

(** [HV_ALLOC_SIZEOF], then [hio_ready]. *)
Definition hio_alloc : hio_t := mkIo 0 0 false false false 0 0 0.
Definition hio_ready (io : hio_t) : hio_t :=
  if ready io then io else mkIo 0 0 true (active io) (pending io) (cb io) (-1) (-1).

Definition EVENT_ADD (l : hloop_t) (io : hio_t) (c : Z) : hloop_t * hio_t :=
  let io := set_cb c io in
  if active io then (l, io)
  else (mkLoop (ios l) (pendings l) (npendings l) (nactives l + 1) (nios l), set_active true io).
Definition EVENT_INACTIVE (l : hloop_t) (io : hio_t) : hloop_t * hio_t :=
  if active io then (mkLoop (ios l) (pendings l) (npendings l) (nactives l - 1) (nios l), set_active false io)
  else (l, io).

Definition add_nios (d : Z) (l : hloop_t) : hloop_t := mkLoop (ios l) (pendings l) (npendings l) (nactives l) (nios l + d).
Definition set_io (fd : Z) (io : hio_t) (l : hloop_t) : hloop_t := set_ios (<[fd := io]> (ios l)) l.

Section Calls.
Context {W : Type} `{IoSetter W}.

(** The loop and [loop->iowatcher], None before the first event. *)
Definition state : Type := hloop_t * option W.

Definition hio_get (s : state) (fd : Z) : option (Z * state) :=
  let '(l, w) := s in
  if decide (fd < 0) then None
  else Some (0, (set_io fd (hio_ready (default hio_alloc (ios l !! fd))) l, w)).

Definition hio_add (s : state) (fd c e : Z) : option (Z * state) :=
  let '(l, w) := s in
  io ← ios l !! fd;
  let '(l, io) := if active io then (l, io) else let '(l, io) := EVENT_ADD l io c in (add_nios 1 l, io) in
  let io := hio_ready io in
  let io := if decide (c <> 0) then set_cb c io else io in
  let l := set_io fd io l in
  if decide (Z.land (events io) e = 0) then
    '(w, m) ← iowatcher_add_event (default iowatcher_init w) (ios l) fd e;
    io ← m !! fd;
    Some (0, (set_io fd (set_events (Z.lor (events io) e) io) (set_ios m l), Some w))
  else Some (0, (l, w)).

Definition hio_del (s : state) (fd e : Z) : option (Z * state) :=
  let '(l, w) := s in
  io ← ios l !! fd;
  if negb (active io) then Some (-1, s)
  else
    '(w, m) ← (if decide (Z.land (events io) e <> 0) then
                 '(w, m) ← match w with
                           | None => Some (None, ios l)
                           | Some w => '(w, m) ← iowatcher_del_event w (ios l) fd e; Some (Some w, m)
                           end;
                 io ← m !! fd;
                 Some (w, <[fd := set_events (Z.land (events io) (Z.lnot e)) io]> m)
               else Some (w, ios l));
    let l := set_ios m l in
    io ← ios l !! fd;
    if decide (events io = 0) then
      let '(l, io) := EVENT_INACTIVE (add_nios (-1) l) io in
      Some (0, (set_io fd io l, w))
    else Some (0, (l, w)).

(** [hio_done], of the watching. *)
Definition hio_done (s : state) (fd : Z) : option (Z * state) :=
  let '(l, w) := s in
  io ← ios l !! fd;
  if negb (ready io) then Some (0, s)
  else
    let io := mkIo (events io) (revents io) false (active io) (pending io) (cb io) (event_index0 io) (event_index1 io) in
    '(_, s) ← hio_del (set_io fd io l, w) fd HV_RDWR;
    Some (0, s).

End Calls.

Definition init_loop : hloop_t := mkLoop ∅ [] 0 0 0.

(** ** Calls, one after the other, with the answers of the system call *)

Section Loop.
Context {W A : Type} `{IoWatcher W A}.

Definition hloop_process_ios (s : state (W := W)) (a : A) : option (Z * state (W := W)) :=
  let '(l, w) := s in
  match w with
  | None => Some (0, s)
  | Some w =>
      '(nevents, (w, l)) ← iowatcher_poll_events w l a;
      Some (if decide (nevents < 0) then 0 else nevents, (l, Some w))
  end.

Context (syscall : W -> (Z -> Z) -> A) (no_watcher : A).

Definition exec (s : state (W := W)) (c : call) : option (Z * state (W := W)) :=
  match c with
  | Get fd => hio_get s fd
  | Add fd c e => hio_add s fd c e
  | Del fd e => hio_del s fd e
  | Done fd => hio_done s fd
  | Poll cond => hloop_process_ios s (match s.2 with Some w => syscall w cond | None => no_watcher end)
  end.

Fixpoint run (s : state (W := W)) (cs : list call) : option (list Z * state (W := W)) :=
  match cs with
  | [] => Some ([], s)
  | c :: cs => '(r, s) ← exec s c; '(rs, s) ← run s cs; Some (r :: rs, s)
  end.
End Loop.

(** ** What the calls mean *)

(** [hio_ready] makes a new io of one that is not ready. *)
Definition v_new (v : view) : view := if v_ready v then v else mkView 0 0 true (v_pending v).
Definition v_set (e : Z) (v : view) : view := mkView e (v_revents v) (v_ready v) (v_pending v).
Definition v_done (v : view) : view := mkView 0 (v_revents v) false (v_pending v).
Definition v_report (r : Z) (v : view) : view :=
  if decide (r = 0) then v else mkView (v_events v) (Z.lor (v_revents v) (io_revents r)) (v_ready v) true.

Definition v_happened (always : Z) (cond : Z -> Z) (fd : Z) (v : view) : Z :=
  if decide (v_events v = 0) then 0 else happened always cond fd (v_events v).

Definition means (always : Z) (m : gmap Z view) (c : call) : option (Z * gmap Z view) :=
  match c with
  | Get fd => if decide (fd < 0) then None else Some (0, <[fd := v_new (default (mkView 0 0 false false) (m !! fd))]> m)
  | Add fd _ e =>
      v ← m !! fd;
      let v := v_new v in
      Some (0, <[fd := if decide (Z.land (v_events v) e = 0) then v_set (Z.lor (v_events v) e) v else v]> m)
  | Del fd e =>
      v ← m !! fd;
      Some (if decide (v_events v = 0) then -1 else 0, <[fd := v_set (Z.land (v_events v) (Z.lnot e)) v]> m)
  | Done fd =>
      v ← m !! fd;
      Some (0, <[fd := if v_ready v then v_done v else v]> m)
  | Poll cond =>
      Some (Z.of_nat (base.size (filter (fun x => v_happened always cond x.1 x.2 <> 0) m)),
            map_imap (fun fd v => Some (v_report (v_happened always cond fd v) v)) m)
  end.

Fixpoint meaning (always : Z) (m : gmap Z view) (cs : list call) : option (list Z * gmap Z view) :=
  match cs with
  | [] => Some ([], m)
  | c :: cs => '(r, m) ← means always m c; '(rs, m) ← meaning always m cs; Some (r :: rs, m)
  end.

(** Calls with the events of the source: [HV_READ], [HV_WRITE] and both. *)
Definition valid (c : call) : Prop :=
  match c with
  | Add _ _ e | Del _ e => mask e
  | _ => True
  end.

(** ** Ios and their views *)

Lemma same_ios_fmap {B} (f : hio_t -> B) m m' : same_ios m m' ->
  (forall io, f (set_index1 0 (set_index0 0 io)) = f io) -> f <$> m' = f <$> m.
Proof.
  intros Hs Hf. apply map_eq. intros fd. rewrite !lookup_fmap. specialize (Hs fd).
  destruct (m' !! fd) as [x|], (m !! fd) as [y|]; [|done..]. cbn [fmap option_fmap option_map] in *. f_equal.
  injection Hs as Hs. rewrite <- Hf, <- (Hf y). unfold set_index1, set_index0 in *. cbn in *. congruence.
Qed.

(** An io is active as long as it has events. *)
Definition wf_io (io : hio_t) : Prop :=
  (events io = 0 \/ mask (events io)) /\ active io = bool_decide (events io <> 0).

(** An io that is not ready has no events. *)
Definition unready (v : view) : Prop := v_ready v = false -> v_events v = 0.
Definition all_unready (m : gmap Z view) : Prop := map_Forall (fun _ v => unready v) m.

Definition wanted (m : gmap Z hio_t) : gmap Z Z := omap (fun io => watched (events io)) m.
Definition has_events (x : Z * view) : Prop := v_events x.2 <> 0.
#[export] Instance has_events_dec x : Decision (has_events x).
Proof. unfold has_events. apply _. Defined.

(** The ios of which [m] is the view, the counters ([n] other events are
    active) and the pending ios. *)
Record loop_ok (n : Z) (l : hloop_t) (m : gmap Z view) : Prop := {
  ok_view : view_of <$> ios l = m;
  ok_wf : map_Forall (fun _ io => wf_io io) (ios l);
  ok_nios : nios l = Z.of_nat (base.size (filter has_events m));
  ok_nactives : nactives l = n + nios l;
  ok_npendings : npendings l = Z.of_nat (length (pendings l));
  ok_nodup : NoDup (pendings l);
  ok_pendings : forall fd, fd ∈ pendings l <-> exists io, ios l !! fd = Some io /\ pending io = true;
}.

Definition b2Z (e : Z) : Z := if decide (e = 0) then 0 else 1.
Definition v_old (fd : Z) (m : gmap Z view) : Z := b2Z (default 0 (v_events <$> m !! fd)).

Lemma count_delete fd (m : gmap Z view) :
  Z.of_nat (base.size (filter has_events m)) = Z.of_nat (base.size (filter has_events (delete fd m))) + v_old fd m.
Proof.
  rewrite map_filter_delete. unfold v_old, b2Z. destruct (m !! fd) as [v|] eqn:E; cbn [fmap option_fmap option_map default].
  - case_decide as Hv.
    + rewrite delete_id; [lia|]. apply map_lookup_filter_None. right. intros x Hx. rewrite E in Hx. injection Hx as <-. unfold has_events. cbn [snd]. tauto.
    + assert (Hin : filter has_events m !! fd = Some v) by (by apply map_lookup_filter_Some).
      rewrite map_size_delete_Some by by eexists.
      assert (base.size (filter has_events m) <> 0)%nat; [|lia]. apply map_size_non_empty_iff. intros H. by rewrite H, lookup_empty in Hin.
  - rewrite delete_id; [rewrite decide_True by done; lia|]. apply map_lookup_filter_None. by left.
Qed.

Lemma count_insert fd v (m : gmap Z view) :
  Z.of_nat (base.size (filter has_events (<[fd := v]> m))) =
  Z.of_nat (base.size (filter has_events m)) - v_old fd m + b2Z (v_events v).
Proof.
  rewrite (count_delete fd (<[fd := v]> m)), (count_delete fd m), delete_insert_eq. unfold v_old at 1. rewrite lookup_insert_eq. cbn. lia.
Qed.

Section Core.
Context (n : Z).

Lemma ok_lookup l m fd io : loop_ok n l m -> ios l !! fd = Some io -> m !! fd = Some (view_of io) /\ wf_io io.
Proof. intros H Hio. split; [rewrite <- (ok_view _ _ _ H); by rewrite lookup_fmap, Hio | by apply (ok_wf _ _ _ H fd)]. Qed.

Lemma ok_there l m fd v : loop_ok n l m -> m !! fd = Some v -> exists io, ios l !! fd = Some io /\ v = view_of io.
Proof. intros H Hv. rewrite <- (ok_view _ _ _ H), lookup_fmap in Hv. destruct (ios l !! fd) as [io|]; [|done]. injection Hv as <-. by exists io. Qed.

(** One io is changed, with the counters. *)
Lemma ok_set l m fd io na ni : loop_ok n l m -> wf_io io ->
  pending io = default false (pending <$> ios l !! fd) ->
  ni - nios l = b2Z (events io) - v_old fd m -> na - nactives l = ni - nios l ->
  loop_ok n (mkLoop (<[fd := io]> (ios l)) (pendings l) (npendings l) na ni) (<[fd := view_of io]> m).
Proof using Type.
  intros H Hwf Hp Hni Hna. split; cbn [ios pendings npendings nactives nios].
  - by rewrite fmap_insert, (ok_view _ _ _ H).
  - apply map_Forall_insert_2; [done | apply H].
  - rewrite count_insert. pose proof (ok_nios _ _ _ H). cbn [v_events view_of]. lia.
  - pose proof (ok_nactives _ _ _ H). lia.
  - apply H.
  - apply H.
  - intros x. rewrite (ok_pendings _ _ _ H). destruct (decide (x = fd)) as [->|Hx].
    + rewrite lookup_insert_eq. destruct (ios l !! fd) as [y|]; cbn in Hp; split; intros (z & Hz & Ez); injection Hz as <- || done.
      * exists io. by rewrite Hp.
      * exists y. by rewrite <- Hp.
      * congruence.
    + by rewrite lookup_insert_ne.
Qed.

Lemma ok_same l m ios' : loop_ok n l m -> same_ios (ios l) ios' -> loop_ok n (set_ios ios' l) m.
Proof using Type.
  intros H Hs. split; cbn [set_ios ios pendings npendings nactives nios]; try apply H.
  - rewrite (same_ios_fmap view_of _ _ Hs) by done. apply H.
  - intros fd io Hio. pose proof (same_ios_fmap wf_io _ _ Hs ltac:(done)) as E. apply (f_equal (fun m => m !! fd)) in E.
    rewrite !lookup_fmap, Hio in E. destruct (ios l !! fd) as [y|] eqn:Ey; [|done]. injection E as ->. by apply (ok_wf _ _ _ H fd).
  - intros fd. rewrite (ok_pendings _ _ _ H). pose proof (same_ios_fmap pending _ _ Hs ltac:(done)) as E. apply (f_equal (fun m => m !! fd)) in E.
    rewrite !lookup_fmap in E. destruct (ios l !! fd) as [y|], (ios' !! fd) as [z|]; [|done..|naive_solver]. injection E as E.
    split; intros (? & [= <-] & ?); eexists; split; [done|congruence|done|congruence].
Qed.

Lemma ok_report l m fd v r : loop_ok n l m -> m !! fd = Some v -> r <> 0 ->
  loop_ok n (report l fd (io_revents r)) (<[fd := v_report r v]> m).
Proof using Type.
  intros H Hv Hr. destruct (ok_there _ _ _ _ H Hv) as (io & Hio & ->). unfold report. rewrite Hio. unfold v_report. rewrite decide_False by done.
  set (io' := mkIo _ _ _ _ _ _ _ _). change (mkView _ _ _ true) with (view_of io'). pose proof (ok_lookup _ _ _ _ H Hio) as [Hm Hwf].
  assert (Hcount : b2Z (events io') - v_old fd m = 0) by (unfold v_old; rewrite Hm; cbn; lia).
  destruct (pending io) eqn:Ep.
  - apply (ok_set _ _ _ _ _ _ H); [done | by rewrite Hio; cbn; rewrite Ep | lia..].
  - split; cbn [ios pendings npendings nactives nios length]; try apply H.
    + by rewrite fmap_insert, (ok_view _ _ _ H).
    + apply map_Forall_insert_2; [done | apply H].
    + rewrite count_insert. pose proof (ok_nios _ _ _ H). cbn [v_events view_of]. lia.
    + rewrite Nat2Z.inj_succ, (ok_npendings _ _ _ H). lia.
    + apply NoDup_cons. split; [|apply H]. intros Hin. apply (ok_pendings _ _ _ H) in Hin as (x & Hx & Px). congruence.
    + intros x. rewrite elem_of_cons, (ok_pendings _ _ _ H). destruct (decide (x = fd)) as [->|Hx].
      * rewrite lookup_insert_eq. split; [intros _; by exists io' | by left].
      * rewrite lookup_insert_ne by done. naive_solver.
Qed.
End Core.

(** ** The calls do what they mean *)

Section Meaning.
Context {W A : Type} {HW : IoWatcher W A} {HL : IoWatcherLaws W A}.
Context (syscall : W -> (Z -> Z) -> A) (no_watcher : A).
Context (syscall_answers : forall w m M cond, watches w m M -> answers w cond (syscall w cond)).
Context (n : Z).

(** The system call is asked for [M]. *)
Definition watch (w : option W) (m : gmap Z hio_t) (M : gmap Z Z) : Prop :=
  match w with
  | None => unplaced m /\ M = ∅
  | Some w => watches w m M
  end.

Lemma watch_default w m M : watch w m M -> watches (default iowatcher_init w) m M.
Proof using Type. destruct w as [w|]; [done|]. intros [Hm ->]. by apply init_watches. Qed.

Lemma watch_same w m m' M : watch w m M -> indexes m' = indexes m -> watch w m' M.
Proof using Type. destruct w as [w|]; cbn; [apply same_watches|]. unfold unplaced. by intros [Hm ->] ->. Qed.

(** An io that was not ready has a place no more. *)
Lemma watch_ready w m M fd io : watch w m M ->
  (ready io = true -> indexes m !! fd = Some (event_index0 io, event_index1 io)) -> (ready io = false -> M !! fd = None) ->
  watch w (<[fd := hio_ready io]> m) M.
Proof using Type.
  intros Hw Hr Hn. unfold hio_ready. destruct (ready io).
  - apply (watch_same _ _ _ _ Hw). unfold indexes in *. rewrite fmap_insert. by apply insert_id, Hr.
  - destruct w as [w|]; [by apply fresh_watches; [|apply Hn|..]|]. destruct Hw as [Hm ->]. split; [|done].
    intros x ix Hx. unfold indexes in Hx. rewrite fmap_insert in Hx. apply lookup_insert_Some in Hx as [[_ <-]|[_ Hx]]; [done|by apply (Hm x)].
Qed.

Lemma wanted_lookup m fd : wanted m !! fd = io ← m !! fd; watched (events io).
Proof. apply lookup_omap. Qed.

Lemma wanted_insert m fd io : wanted (<[fd := io]> m) = partial_alter (fun _ => watched (events io)) fd (wanted m).
Proof.
  apply map_eq. intros x. destruct (decide (x = fd)) as [->|Hx].
  - by rewrite wanted_lookup, lookup_insert_eq, lookup_partial_alter_eq.
  - by rewrite wanted_lookup, lookup_insert_ne, lookup_partial_alter_ne, wanted_lookup.
Qed.

Lemma wanted_events m m' : events <$> m' = events <$> m -> wanted m' = wanted m.
Proof.
  intros E. apply map_eq. intros x. rewrite !wanted_lookup. apply (f_equal (fun m => m !! x)) in E. rewrite !lookup_fmap in E.
  destruct (m !! x), (m' !! x); cbn in *; congruence.
Qed.

(** The loop: its ios are the view and are what is watched. *)
Record state_ok (s : state (W := W)) (m : gmap Z view) : Prop := {
  ok_loop : loop_ok n s.1 m;
  ok_watch : watch s.2 (ios s.1) (wanted (ios s.1));
}.

Lemma hio_ready_events io : unready (view_of io) -> events (hio_ready io) = events io.
Proof. intros Hr. unfold hio_ready, unready in *. cbn in Hr. destruct (ready io); [done|]. by rewrite Hr. Qed.
Lemma hio_ready_view io : view_of (hio_ready io) = v_new (view_of io).
Proof. unfold hio_ready, v_new. cbn. by destruct (ready io). Qed.
Lemma hio_ready_wf io : wf_io io -> unready (view_of io) -> wf_io (hio_ready io).
Proof.
  intros [H1 H2] H3. unfold hio_ready, unready in *. cbn in H3. destruct (ready io) eqn:Er; [done|].
  rewrite H3 in H2 by done. split; [by left | done].
Qed.

Lemma alloc_wf : wf_io hio_alloc.
Proof. split; [by left | done]. Qed.

Lemma watched_none io : events io = 0 -> watched (events io) = None.
Proof. intros ->. done. Qed.

Lemma get_means s m fd : state_ok s m -> all_unready m -> 0 <= fd ->
  exists s', hio_get s fd = Some (0, s') /\ state_ok s' (<[fd := v_new (default (mkView 0 0 false false) (m !! fd))]> m).
Proof using Type.
  destruct s as [l w]. intros [Hl Hw] Hun Hfd. cbn [fst snd] in *. unfold hio_get. rewrite decide_False by lia. eexists. split; [done|].
  set (io := default hio_alloc (ios l !! fd)).
  assert (Hwf : wf_io io) by (unfold io; destruct (ios l !! fd) eqn:E; [by apply (ok_lookup _ _ _ _ _ Hl E) | apply alloc_wf]).
  assert (Hv : view_of io = default (mkView 0 0 false false) (m !! fd)).
  { unfold io. rewrite <- (ok_view _ _ _ Hl), lookup_fmap. by destruct (ios l !! fd). }
  assert (Hold : v_old fd m = b2Z (events io)).
  { transitivity (b2Z (v_events (default (mkView 0 0 false false) (m !! fd)))); [unfold v_old; by destruct (m !! fd) | by rewrite <- Hv]. }
  assert (Hu : unready (view_of io)) by (rewrite Hv; destruct (m !! fd) eqn:E; [by apply (Hun _ _ E) | done]).
  rewrite <- Hv, <- hio_ready_view. split; cbn [fst snd set_io set_ios ios].
  - apply (ok_set _ _ _ _ _ _ _ Hl); [by apply hio_ready_wf | | rewrite hio_ready_events by done; lia | lia].
    unfold hio_ready, io. destruct (ios l !! fd) as [x|]; [|done]. cbn. by destruct (ready x).
  - rewrite wanted_insert, hio_ready_events by done.
    replace (partial_alter _ fd (wanted (ios l))) with (wanted (ios l)).
    + apply watch_ready; [done|..].
      * unfold io. destruct (ios l !! fd) eqn:E; [|done]. intros _. by apply Poll.indexes_lookup.
      * intros Hr. rewrite wanted_lookup. unfold io in Hr. destruct (ios l !! fd) as [x|] eqn:E; [|done]. cbn in *.
        apply watched_none. by apply Hu.
    + apply map_eq. intros x. destruct (decide (x = fd)) as [->|Hx]; [|by rewrite lookup_partial_alter_ne].
      rewrite lookup_partial_alter_eq, wanted_lookup. unfold io. by destruct (ios l !! fd).
Qed.
(** Changing an io where only indexes differ. *)
Lemma same_ios_set m m' fd a b (g : hio_t -> hio_t) : same_ios m m' -> m !! fd = Some a -> m' !! fd = Some b ->
  (forall io, set_index1 0 (set_index0 0 (g io)) = g (set_index1 0 (set_index0 0 io))) ->
  same_ios (<[fd := g a]> m) (<[fd := g b]> m').
Proof.
  intros Hs Ha Hb Hg x. destruct (decide (x = fd)) as [->|Hx].
  - rewrite !lookup_insert_eq. cbn [fmap option_fmap option_map]. f_equal. rewrite !Hg. f_equal.
    specialize (Hs fd). rewrite Ha, Hb in Hs. by apply (inj Some) in Hs.
  - rewrite !lookup_insert_ne by done. apply Hs.
Qed.

Lemma same_ios_lookup m m' fd a : same_ios m m' -> m !! fd = Some a ->
  exists b, m' !! fd = Some b /\ events b = events a /\ active b = active a.
Proof.
  intros Hs Ha. pose proof (Hs fd) as E. rewrite Ha in E. destruct (m' !! fd) as [b|]; [|done]. exists b. by injection E.
Qed.

Lemma wanted_set m m' fd a b : same_ios (<[fd := a]> m) m' ->
  wanted (<[fd := b]> m') = partial_alter (fun _ => watched (events b)) fd (wanted m).
Proof.
  intros Hs. rewrite wanted_insert. rewrite (wanted_events (<[fd := a]> m) m') by (by apply (same_ios_fmap events)).
  rewrite wanted_insert. apply map_eq. intros x. destruct (decide (x = fd)) as [->|Hx].
  - by rewrite !lookup_partial_alter_eq.
  - by rewrite !lookup_partial_alter_ne.
Qed.

Lemma indexes_set m fd io io' : m !! fd = Some io ->
  (event_index0 io', event_index1 io') = (event_index0 io, event_index1 io) -> indexes (<[fd := io']> m) = indexes m.
Proof. intros Hio E. unfold indexes. rewrite fmap_insert, E. apply insert_id. by rewrite lookup_fmap, Hio. Qed.

(** The io that [hio_add] hands to the watcher. *)
Definition added (c : Z) (io : hio_t) : hio_t :=
  let io := if active io then io else set_active true (set_cb c io) in
  if decide (c <> 0) then set_cb c io else io.

Lemma added_ready c io : (let io := hio_ready (if active io then io else set_active true (set_cb c io)) in
  if decide (c <> 0) then set_cb c io else io) = hio_ready (added c io).
Proof. unfold added, hio_ready. cbn zeta. destruct (active io); cbn; case_decide; cbn; by destruct (ready io). Qed.

Lemma added_facts c io : wf_io io -> unready (view_of io) ->
  let io' := hio_ready (added c io) in
  events io' = events io /\ view_of io' = v_new (view_of io) /\ pending io' = pending io /\ ready io' = true /\ active io' = true /\
  ready (added c io) = ready io /\ (event_index0 (added c io), event_index1 (added c io)) = (event_index0 io, event_index1 io).
Proof.
  intros [_ Ha] Hr. unfold unready in Hr. cbn zeta. unfold added, hio_ready, v_new, view_of.
  destruct io as [ev rv rd ac pe cb_ i0 i1]. cbn in *. destruct rd, ac, (decide (c <> 0)); cbn; rewrite ?(Hr eq_refl); done.
Qed.

Lemma add_means s m fd c e v : state_ok s m -> all_unready m -> m !! fd = Some v -> mask e ->
  exists s', hio_add s fd c e = Some (0, s') /\
    state_ok s' (<[fd := let v := v_new v in if decide (Z.land (v_events v) e = 0) then v_set (Z.lor (v_events v) e) v else v]> m).
Proof using Type.
  destruct s as [l w]. intros [Hl Hw] Hun Hv He. cbn [fst snd] in *. destruct (ok_there _ _ _ _ _ Hl Hv) as (io & Hio & ->).
  destruct (ok_lookup _ _ _ _ _ Hl Hio) as [_ Hwf]. pose proof (Hun _ _ Hv) as Hu. destruct (added_facts c io Hwf Hu) as (Eev & Evw & Ep & Er & Ea & Er1 & Ei).
  rewrite <- Evw. cbn zeta. change (v_events (view_of ?x)) with (events x).
  set (io3 := hio_ready (added c io)) in *. set (l0 := if active io then l else mkLoop (ios l) (pendings l) (npendings l) (nactives l + 1) (nios l + 1)).
  assert (Eadd : hio_add (l, w) fd c e =
    (if decide (Z.land (events io3) e = 0) then
      '(w, m) ← iowatcher_add_event (default iowatcher_init w) (<[fd := io3]> (ios l)) fd e;
      io ← m !! fd;
      Some (0, (set_io fd (set_events (Z.lor (events io) e) io) (set_ios m l0), Some w))
    else Some (0, (set_io fd io3 l0, w)))).
  { unfold hio_add. rewrite Hio. cbn [mbind option_bind]. unfold io3. rewrite <- added_ready. cbn zeta. unfold l0, EVENT_ADD.
    change (active (set_cb c io)) with (active io). by destruct (active io). }
  rewrite Eadd. clear Eadd.
  assert (Hold : v_old fd m = b2Z (events io)) by (unfold v_old; by rewrite Hv).
  assert (Hact : active io = bool_decide (events io <> 0)) by apply Hwf.
  assert (Hw3 : watch w (<[fd := io3]> (ios l)) (wanted (ios l))).
  { apply watch_ready; [done|..]; rewrite Er1, ?Ei; [intros _; by apply Poll.indexes_lookup | intros Hr].
    rewrite wanted_lookup, Hio. apply watched_none. by apply Hu. }
  destruct (decide (Z.land (events io3) e = 0)) as [Hland|Hland].
  - destruct (add_watches (default iowatcher_init w) (<[fd := io3]> (ios l)) (wanted (ios l)) fd io3 e) as (w' & ios' & E & Hsame & Hw');
      [by apply watch_default | by rewrite lookup_insert_eq | by rewrite wanted_lookup, Hio, Eev | rewrite Eev; apply Hwf | done..|].
    rewrite E. cbn [mbind option_bind].
    destruct (same_ios_lookup _ _ fd io3 Hsame) as (io' & Hio' & Eio' & _); [by rewrite lookup_insert_eq|].
    rewrite Hio'. cbn [mbind option_bind]. eexists. split; [done|]. rewrite Eio'. set (X := Z.lor (events io3) e) in *.
    assert (HX : mask X) by (apply mask_lor; [rewrite Eev; apply Hwf | done]).
    change (v_set X (view_of io3)) with (view_of (set_events X io3)).
    assert (Hfin : same_ios (<[fd := set_events X io3]> (ios l)) (<[fd := set_events X io']> ios')).
    { rewrite <- (insert_insert_eq (ios l) fd (set_events X io3) io3).
      apply (same_ios_set (<[fd := io3]> (ios l)) ios' fd io3 io' (set_events X)); [done | by rewrite lookup_insert_eq | done..]. }
    split; cbn [fst snd set_io set_ios ios].
    + assert (Hok : loop_ok n (mkLoop (<[fd := set_events X io3]> (ios l)) (pendings l) (npendings l) (nactives l0) (nios l0)) (<[fd := view_of (set_events X io3)]> m)).
      { apply (ok_set _ _ _ _ _ _ _ Hl); [| by rewrite Hio | |].
        - split; cbn; [by right | by rewrite Ea, bool_decide_eq_true_2 by (by apply mask_pos)].
        - rewrite Hold. unfold b2Z, l0. cbn [events set_events]. rewrite decide_False by (by apply mask_pos). rewrite Hact.
          case_bool_decide as Hz; [rewrite decide_False by done | rewrite decide_True by tauto]; cbn; lia.
        - unfold l0. destruct (active io); cbn; lia. }
      apply (ok_same _ _ _ _ Hok) in Hfin. unfold set_ios in Hfin. cbn [pendings npendings nactives nios] in Hfin. by destruct (active io) in *.
    + apply (watch_same (Some w') ios'); [|by eapply indexes_set].
      rewrite (wanted_set (ios l) ios' fd io3) by done. cbn [events set_events]. unfold watched. by rewrite decide_False by (by apply mask_pos).
  - assert (Hne : events io <> 0) by (intros Hz; apply Hland; by rewrite Eev, Hz).
    assert (El : l0 = l) by (unfold l0; by rewrite Hact, bool_decide_eq_true_2). rewrite El. eexists. split; [done|].
    split; cbn [fst snd set_io set_ios ios].
    + apply (ok_set _ _ _ _ _ _ _ Hl); [| by rewrite Ep, Hio | rewrite Hold, Eev; lia | lia].
      split; [rewrite Eev; apply Hwf | by rewrite Ea, Eev, bool_decide_eq_true_2].
    + rewrite (wanted_events (ios l)); [done|]. rewrite fmap_insert, Eev. apply insert_id. by rewrite lookup_fmap, Hio.
Qed.
(** What [hio_del] leaves of an io. *)
Definition deleted (e : Z) (io : hio_t) : hio_t :=
  let io := set_events (Z.land (events io) (Z.lnot e)) io in
  if decide (events io = 0) then set_active false io else io.

Lemma deleted_wf e io : wf_io io -> mask e -> wf_io (deleted e io).
Proof.
  intros [Hm Ha] He. unfold deleted. cbn [events set_events]. assert (Hl : Z.land (events io) (Z.lnot e) = 0 \/ mask (Z.land (events io) (Z.lnot e))).
  { destruct Hm as [->|Hm]; [by left | by apply mask_left]. }
  assert (H0 : events io = 0 -> Z.land (events io) (Z.lnot e) = 0) by (by intros ->).
  destruct (decide (Z.land (events io) (Z.lnot e) = 0)) as [Hz|Hz]; split; cbn; [by left | by rewrite Hz | done | ].
  rewrite Ha, !bool_decide_eq_true_2; [done..|]. tauto.
Qed.

Lemma del_means s m fd e v : state_ok s m -> m !! fd = Some v -> mask e ->
  exists s', hio_del s fd e = Some (if decide (v_events v = 0) then -1 else 0, s') /\
    state_ok s' (<[fd := v_set (Z.land (v_events v) (Z.lnot e)) v]> m).
Proof using Type.
  destruct s as [l w]. intros [Hl Hw] Hv He. cbn [fst snd] in *. destruct (ok_there _ _ _ _ _ Hl Hv) as (io & Hio & ->).
  destruct (ok_lookup _ _ _ _ _ Hl Hio) as [_ Hwf]. pose proof Hwf as [Hmask Hact]. cbn [v_events view_of].
  unfold hio_del. rewrite Hio. cbn [mbind option_bind]. rewrite Hact. destruct (decide (events io = 0)) as [Hz|Hz].
  { rewrite bool_decide_eq_false_2 by tauto. eexists. split; [done|]. rewrite Hz. split; [|done]. cbn [fst].
    replace (<[fd := _]> m) with m; [done|]. symmetry. apply insert_id. rewrite Hv. unfold v_set, view_of. cbn. by rewrite Hz. }
  rewrite bool_decide_eq_true_2 by done. cbn [negb]. destruct Hmask as [?|Hmask]; [done|].
  assert (Hwant : wanted (ios l) !! fd = Some (events io)) by (rewrite wanted_lookup, Hio; cbn; unfold watched; by rewrite decide_False).
  assert (Hold : v_old fd m = 1) by (unfold v_old, b2Z; rewrite Hv; cbn [fmap option_fmap option_map default v_events view_of]; by rewrite decide_False).
  destruct (decide (Z.land (events io) e <> 0)) as [Hland|Hland].
  - destruct w as [w|]; [|destruct Hw as [_ Hw]; by rewrite Hw, lookup_empty in Hwant].
    destruct (del_watches w (ios l) (wanted (ios l)) fd io e) as (w' & ios' & E & Hsame & Hw'); [done..|].
    rewrite E. cbn [mbind option_bind]. destruct (same_ios_lookup _ _ _ _ Hsame Hio) as (io' & Hio' & Eio' & Eact).
    rewrite Hio'. cbn [mbind option_bind set_ios ios]. rewrite lookup_insert_eq. cbn [mbind option_bind events set_events]. rewrite Eio'.
    set (X := Z.land (events io) (Z.lnot e)) in *.
    assert (Hfin : same_ios (<[fd := deleted e io]> (ios l)) (<[fd := deleted e io']> ios')).
    { apply (same_ios_set _ _ fd io io' (deleted e)); [done..|]. intros x. unfold deleted. cbn [events set_events set_index0 set_index1]. by destruct (decide _). }
    assert (Hok : loop_ok n (mkLoop (<[fd := deleted e io]> (ios l)) (pendings l) (npendings l) (nactives l - (1 - b2Z X)) (nios l - (1 - b2Z X))) (<[fd := view_of (deleted e io)]> m)).
    { apply (ok_set _ _ _ _ _ _ _ Hl); [by apply deleted_wf | rewrite Hio; unfold deleted; by destruct (decide _) | rewrite Hold | lia].
      replace (events (deleted e io)) with X by (unfold deleted; by destruct (decide _)). lia. }
    replace (view_of (deleted e io)) with (v_set X (view_of io)) in Hok by (unfold deleted; by destruct (decide _)).
    apply (ok_same _ _ _ _ Hok) in Hfin. unfold set_ios in Hfin. cbn [pendings npendings nactives nios] in Hfin.
    assert (Hwatch : watch (Some w') (<[fd := deleted e io']> ios') (wanted (<[fd := deleted e io']> ios'))).
    { apply (watch_same (Some w') ios'); [|eapply indexes_set; [done|]; unfold deleted; by destruct (decide _)].
      rewrite (wanted_set (ios l) ios' fd io) by (by rewrite insert_id). replace (events (deleted e io')) with X; [done|].
      unfold deleted. rewrite Eio'. by destruct (decide _). }
    unfold deleted in Hfin, Hwatch. cbn [events set_events] in Hfin, Hwatch. rewrite Eio' in Hfin, Hwatch. fold X in Hfin, Hwatch. unfold b2Z in Hfin.
    destruct (decide (X = 0)) as [HX|HX].
    + unfold EVENT_INACTIVE. cbn [active set_events]. rewrite Eact, Hact, bool_decide_eq_true_2 by done. eexists. split; [done|].
      split; unfold set_io, set_ios; cbn [fst snd add_nios ios pendings npendings nactives nios]; rewrite insert_insert_eq; [|done].
      by rewrite Z.sub_0_r in Hfin.
    + eexists. split; [done|]. split; cbn [fst snd]; [|done]. by rewrite !Z.sub_0_r in Hfin.
  - cbn [mbind option_bind]. replace (set_ios (ios l) l) with l by (by destruct l). rewrite Hio. cbn [mbind option_bind]. rewrite decide_False by done.
    eexists. split; [done|]. replace (Z.land (events io) (Z.lnot e)) with (events io).
    + split; [|done]. cbn [fst]. by rewrite insert_id.
    + symmetry. apply mask_disjoint; [done..|]. by apply dec_stable.
Qed.

Lemma done_means s m fd v : state_ok s m -> m !! fd = Some v ->
  exists s', hio_done s fd = Some (0, s') /\ state_ok s' (<[fd := if v_ready v then v_done v else v]> m).
Proof using Type.
  destruct s as [l w]. intros [Hl Hw] Hv. cbn [fst snd] in *. destruct (ok_there _ _ _ _ _ Hl Hv) as (io & Hio & ->).
  unfold hio_done. rewrite Hio. cbn [mbind option_bind v_ready view_of]. destruct (ready io) eqn:Er; cbn [negb].
  - set (io' := mkIo _ _ _ _ _ _ _ _). destruct (ok_lookup _ _ _ _ _ Hl Hio) as [_ Hwf]. pose proof Hwf as [Hmask _].
    assert (Hok : state_ok (set_io fd io' l, w) (<[fd := view_of io']> m)).
    { split; cbn [fst snd set_io set_ios ios].
      - apply (ok_set _ _ _ _ _ _ _ Hl); [done | by rewrite Hio | unfold v_old; rewrite Hv; cbn; lia | lia].
      - rewrite (wanted_events (ios l)); [eapply watch_same; [done|by eapply indexes_set]|]. rewrite fmap_insert.
        apply insert_id. by rewrite lookup_fmap, Hio. }
    destruct (del_means _ _ fd HV_RDWR (view_of io') Hok) as (s' & E & Hs'); [by rewrite lookup_insert_eq | right; by right |].
    rewrite E. cbn [mbind option_bind]. exists s'. split; [done|]. rewrite insert_insert_eq in Hs'.
    replace (v_done (view_of io)) with (v_set (Z.land (v_events (view_of io')) (Z.lnot HV_RDWR)) (view_of io')); [done|].
    unfold v_done, v_set, view_of, io'. cbn [events revents ready pending v_events v_revents v_ready v_pending].
    f_equal. by destruct Hmask as [->|[->|[->| ->]]].
  - eexists. split; [done|]. by rewrite insert_id.
Qed.
Lemma ok_report_all rs : forall l m, loop_ok n l m -> NoDup rs.*1 -> (forall fd r, (fd, r) ∈ rs -> r <> 0 /\ is_Some (m !! fd)) ->
  loop_ok n (report_all l rs) (map_imap (fun fd v => Some (v_report (default 0 (list_to_map (M := gmap Z Z) rs !! fd)) v)) m).
Proof using Type.
  induction rs as [|[fd r] rs IH]; intros l m Hl Hnd Hin.
  - replace (map_imap _ m) with m; [done|]. apply map_eq. intros x. rewrite map_lookup_imap. by destruct (m !! x).
  - rewrite fmap_cons in Hnd. apply NoDup_cons in Hnd as [Hfd Hnd]. destruct (Hin fd r) as [Hr [v Hv]]; [by left|].
    pose proof (ok_report _ _ _ _ _ _ Hl Hv Hr) as Hl'.
    assert (Hin' : forall y q, (y, q) ∈ rs -> q <> 0 /\ is_Some (<[fd := v_report r v]> m !! y)).
    { intros y q Hy. destruct (Hin y q) as [Hq Hm]; [by right|]. split; [done|]. apply lookup_insert_is_Some'. by right. }
    pose proof (IH _ _ Hl' Hnd Hin') as Hok. cbn [report_all foldl fst snd]. unfold report_all in Hok.
    replace (map_imap _ m) with (map_imap (fun fd v => Some (v_report (default 0 (list_to_map (M := gmap Z Z) rs !! fd)) v)) (<[fd := v_report r v]> m)); [done|].
    apply map_eq. intros x. rewrite !map_lookup_imap. cbn [list_to_map foldr fst snd uncurry]. destruct (decide (x = fd)) as [->|Hx].
    + rewrite !lookup_insert_eq, Hv. cbn [mbind option_bind].
      replace (list_to_map (M := gmap Z Z) rs !! fd) with (@None Z); [done|]. symmetry. by apply not_elem_of_list_to_map_1.
    + by rewrite !lookup_insert_ne.
Qed.

Lemma report_keeps {B} (f : hio_t -> B) l fd r :
  (forall io rv p, f (mkIo (events io) rv (ready io) (active io) p (cb io) (event_index0 io) (event_index1 io)) = f io) ->
  f <$> ios (report l fd r) = f <$> ios l.
Proof.
  intros Hf. unfold report. destruct (ios l !! fd) as [io|] eqn:E; [|done].
  assert (forall rv p, f <$> <[fd := mkIo (events io) rv (ready io) (active io) p (cb io) (event_index0 io) (event_index1 io)]> (ios l) = f <$> ios l) as H.
  { intros rv p. rewrite fmap_insert, Hf. apply insert_id. by rewrite lookup_fmap, E. }
  destruct (pending io); apply H.
Qed.

Lemma report_all_keeps {B} (f : hio_t -> B) rs l :
  (forall io rv p, f (mkIo (events io) rv (ready io) (active io) p (cb io) (event_index0 io) (event_index1 io)) = f io) ->
  f <$> ios (report_all l rs) = f <$> ios l.
Proof.
  intros Hf. revert l. induction rs as [|[fd r] rs IH]; intros l; [done|]. cbn [report_all foldl fst snd].
  fold (report_all (report l fd (io_revents r)) rs). by rewrite IH, report_keeps.
Qed.

(** The reports, descriptor by descriptor. *)
Lemma reports_at l m cond rs fd v : loop_ok n l m -> reports always cond (wanted (ios l)) rs -> m !! fd = Some v ->
  default 0 (list_to_map (M := gmap Z Z) rs !! fd) = v_happened always cond fd v.
Proof using Type.
  intros Hl [Hnd Hrs] Hv. destruct (ok_there _ _ _ _ _ Hl Hv) as (io & Hio & ->). unfold v_happened. cbn [v_events view_of].
  assert (Hw : wanted (ios l) !! fd = watched (events io)) by (by rewrite wanted_lookup, Hio). unfold watched in Hw.
  destruct (list_to_map rs !! fd) as [r|] eqn:E; cbn [default].
  - apply elem_of_list_to_map_2, Hrs in E as (e & He & -> & _). rewrite He in Hw. destruct (decide (events io = 0)); [done|]. by injection Hw as ->.
  - destruct (decide (events io = 0)) as [Hz|Hz]; [done|]. destruct (decide (happened always cond fd (events io) = 0)) as [Hh|Hh]; [done|].
    exfalso. assert (Hin : (fd, happened always cond fd (events io)) ∈ rs) by (apply Hrs; by exists (events io)).
    by rewrite (elem_of_list_to_map_1 (M := gmap Z) _ _ _ Hnd Hin) in E.
Qed.

Lemma reports_length l m cond rs : loop_ok n l m -> reports always cond (wanted (ios l)) rs ->
  length rs = base.size (filter (fun x => v_happened always cond x.1 x.2 <> 0) m).
Proof using Type.
  intros Hl Hrs. pose proof Hrs as [Hnd Hall]. rewrite <- size_dom, <- (length_fmap fst rs), <- (size_list_to_set (C := gset Z)) by done.
  f_equal. apply set_eq. intros fd. rewrite elem_of_list_to_set, list_elem_of_fmap, elem_of_dom. split.
  - intros ([y r] & -> & Hin). cbn [fst]. pose proof Hin as Hin'. apply Hall in Hin' as (e & He & -> & Hne).
    rewrite wanted_lookup in He. destruct (ios l !! y) as [io|] eqn:Hio; [|done]. cbn in He. destruct (ok_lookup _ _ _ _ _ Hl Hio) as [Hm _].
    exists (view_of io). apply map_lookup_filter_Some. split; [done|]. cbn [fst snd].
    rewrite <- (reports_at l m cond rs y) by done. by rewrite (elem_of_list_to_map_1 (M := gmap Z) _ _ _ Hnd Hin).
  - intros [v Hv]. apply map_lookup_filter_Some in Hv as [Hv Hne]. cbn [fst snd] in Hne. rewrite <- (reports_at l m cond rs fd v) in Hne by done.
    destruct (list_to_map (M := gmap Z Z) rs !! fd) as [r|] eqn:E; [|done]. exists (fd, r). split; [done|]. by apply elem_of_list_to_map_2.
Qed.

Lemma poll_means s m cond : state_ok s m ->
  exists s', exec syscall no_watcher s (Poll cond) = Some (Z.of_nat (base.size (filter (fun x => v_happened always cond x.1 x.2 <> 0) m)), s') /\
    state_ok s' (map_imap (fun fd v => Some (v_report (v_happened always cond fd v) v)) m).
Proof using syscall_answers.
  destruct s as [l w]. intros [Hl Hw]. cbn [fst snd] in *.
  assert (Hrun : exists rs, reports always cond (wanted (ios l)) rs /\
    exec syscall no_watcher (l, w) (Poll cond) = Some (Z.of_nat (length rs), (report_all l rs, w))).
  { cbn [exec snd hloop_process_ios]. destruct w as [w|].
    - destruct (poll_reports w l (wanted (ios l)) cond (syscall w cond)) as (rs & Hrs & E); [done|by eapply syscall_answers|]. exists rs. split; [done|].
      rewrite E. cbn [mbind option_bind]. by rewrite decide_False by lia.
    - destruct Hw as [_ Hw]. exists []. rewrite Hw. split; [|done]. split; [by apply NoDup_nil|]. intros fd r. rewrite lookup_empty. split; [by intros ?%not_elem_of_nil | by intros (? & ? & _)]. }
  destruct Hrun as (rs & Hrs & ->). rewrite <- (reports_length l m cond rs) by done. eexists. split; [done|]. split; cbn [fst snd].
  - replace (map_imap _ m) with (map_imap (fun fd v => Some (v_report (default 0 (list_to_map (M := gmap Z Z) rs !! fd)) v)) m).
    + apply ok_report_all; [done | apply Hrs|]. intros fd r Hin. apply Hrs in Hin as (e & He & -> & Hne). split; [done|].
      rewrite wanted_lookup in He. destruct (ios l !! fd) as [io|] eqn:Hio; [|done]. exists (view_of io). by apply (ok_lookup _ _ _ _ _ Hl Hio).
    + apply map_imap_ext. intros fd. destruct (m !! fd) as [v|] eqn:Hv; [|done]. cbn. by rewrite (reports_at l m cond rs fd v).
  - rewrite (wanted_events (ios l)) by (by apply report_all_keeps). apply (watch_same w (ios l)); [done|]. by apply report_all_keeps.
Qed.
Lemma means_unready m c r m' : all_unready m -> means always m c = Some (r, m') -> all_unready m'.
Proof using Type.
  intros Hm E fd v Hv. unfold unready. destruct c as [f|f k e|f e|f|cond]; cbn [means] in E.
  - case_decide; [done|]. injection E as <- <-. apply lookup_insert_Some in Hv as [[-> <-]|[_ Hv]]; [|by apply (Hm fd)].
    unfold v_new. by destruct (v_ready (default _ _)) eqn:Er; rewrite ?Er.
  - destruct (m !! f) as [x|] eqn:Ex; [|done]. cbn [mbind option_bind] in E. injection E as <- <-.
    apply lookup_insert_Some in Hv as [[-> <-]|[_ Hv]]; [|by apply (Hm fd)]. unfold v_new.
    destruct (v_ready x) eqn:Er; destruct (decide _); cbn; rewrite ?Er; done.
  - destruct (m !! f) as [x|] eqn:Ex; [|done]. cbn [mbind option_bind] in E. injection E as <- <-.
    apply lookup_insert_Some in Hv as [[-> <-]|[_ Hv]]; [|by apply (Hm fd)]. intros Hr. cbn in Hr |- *. by rewrite (Hm _ _ Ex Hr).
  - destruct (m !! f) as [x|] eqn:Ex; [|done]. cbn [mbind option_bind] in E. injection E as <- <-.
    apply lookup_insert_Some in Hv as [[-> <-]|[_ Hv]]; [|by apply (Hm fd)]. destruct (v_ready x); [done | by apply (Hm _ _ Ex)].
  - injection E as <- <-. rewrite map_lookup_imap in Hv. destruct (m !! fd) as [x|] eqn:Ex; [|done]. injection Hv as <-.
    intros Hr. unfold v_report in *. destruct (decide _); by apply (Hm _ _ Ex).
Qed.

Lemma not_there s m fd : state_ok s m -> m !! fd = None -> ios s.1 !! fd = None.
Proof using Type. intros [Hl _] Hm. rewrite <- (ok_view _ _ _ Hl), lookup_fmap in Hm. by destruct (ios s.1 !! fd). Qed.

Lemma exec_means s m c : state_ok s m -> all_unready m -> valid c ->
  match means always m c with
  | Some (r, m') => exists s', exec syscall no_watcher s c = Some (r, s') /\ state_ok s' m' /\ all_unready m'
  | None => exec syscall no_watcher s c = None
  end.
Proof using syscall_answers.
  intros Hs Hm Hc. destruct (means always m c) as [[r m']|] eqn:E.
  - assert (H : exists s', exec syscall no_watcher s c = Some (r, s') /\ state_ok s' m').
    { destruct c as [fd|fd k e|fd e|fd|cond]; cbn [means] in E.
      - case_decide; [done|]. injection E as <- <-. apply get_means; [done..|lia].
      - destruct (m !! fd) as [x|] eqn:Ex; [|done]. injection E as <- <-. by apply add_means.
      - destruct (m !! fd) as [x|] eqn:Ex; [|done]. injection E as <- <-. by apply del_means.
      - destruct (m !! fd) as [x|] eqn:Ex; [|done]. injection E as <- <-. by apply done_means.
      - injection E as <- <-. by apply poll_means. }
    destruct H as (s' & E1 & Hs'). exists s'. split_and!; [done..|by eapply means_unready].
  - destruct s as [l w]. destruct c as [fd|fd k e|fd e|fd|cond]; cbn [means exec] in *.
    + unfold hio_get. by case_decide.
    + destruct (m !! fd) as [x|] eqn:Ex; [done|]. pose proof (not_there _ _ _ Hs Ex) as En. cbn in En. unfold hio_add. by rewrite En.
    + destruct (m !! fd) as [x|] eqn:Ex; [done|]. pose proof (not_there _ _ _ Hs Ex) as En. cbn in En. unfold hio_del. by rewrite En.
    + destruct (m !! fd) as [x|] eqn:Ex; [done|]. pose proof (not_there _ _ _ Hs Ex) as En. cbn in En. unfold hio_done. by rewrite En.
    + done.
Qed.

Lemma run_means cs : forall s m, state_ok s m -> all_unready m -> Forall valid cs ->
  match meaning always m cs with
  | Some (rs, m') => exists s', run syscall no_watcher s cs = Some (rs, s') /\ state_ok s' m'
  | None => run syscall no_watcher s cs = None
  end.
Proof using syscall_answers.
  induction cs as [|c cs IH]; intros s m Hs Hm Hcs; cbn [meaning run]; [by exists s|]. apply Forall_cons in Hcs as [Hc Hcs].
  pose proof (exec_means s m c Hs Hm Hc) as H. destruct (means always m c) as [[r m']|]; cbn [mbind option_bind]; [|by rewrite H].
  destruct H as (s' & -> & Hs' & Hm'). cbn [mbind option_bind]. specialize (IH s' m' Hs' Hm' Hcs).
  destruct (meaning always m' cs) as [[rs m'']|]; cbn [mbind option_bind]; [|by rewrite IH]. destruct IH as (s'' & -> & Hs''). by exists s''.
Qed.
End Meaning.

Lemma init_state_ok {W A} `{IoWatcherLaws W A} : state_ok 0 (init_loop, None) ∅.
Proof.
  split; cbn; [|by split; [intros fd ix|]]. split; cbn; try done.
  - apply NoDup_nil, I.
  - intros fd. split; [by intros ?%not_elem_of_nil | by intros (io & Hio & _)].
Qed.

Section Refinement.
Context {W A : Type} {HW : IoWatcher W A} {HL : IoWatcherLaws W A}.

(** [C11] Whatever the watcher that keeps its promises, calls of [hio_get],
    [hio_add], [hio_del], [hio_done] and [hloop_process_ios], in any order, do
    what they mean (and fault exactly on an io that is not there): each returns
    the value of its meaning; the events, reported events and flags of the ios are those of the
    meaning; the system call is asked for the events that are left, of the ios
    that have any; [nios] counts these; and the pending list holds the ios that a poll has reported. *)
Theorem io_calls_refine (syscall : W -> (Z -> Z) -> A) (no_watcher : A)
    (syscall_answers : forall w m M cond, watches w m M -> answers w cond (syscall w cond)) cs (Hcs : Forall valid cs) :
  match meaning always ∅ cs with
  | None => run syscall no_watcher (init_loop, None) cs = None
  | Some (rs, v) => exists l w, run syscall no_watcher (init_loop, None) cs = Some (rs, (l, w)) /\
      view_of <$> ios l = v /\ watch w (ios l) (omap (fun x => watched (v_events x)) v) /\
      nios l = Z.of_nat (base.size (filter has_events v)) /\ nactives l = nios l /\
      NoDup (pendings l) /\ npendings l = Z.of_nat (length (pendings l)) /\
      forall fd, fd ∈ pendings l <-> exists x, v !! fd = Some x /\ v_pending x = true
  end.
Proof using Type.
  pose proof (run_means syscall no_watcher syscall_answers 0 cs _ _ init_state_ok ltac:(by intros ? ?) Hcs) as H.
  destruct (meaning always ∅ cs) as [[rs v]|]; [|done]. destruct H as ([l w] & E & [Hl Hw]). exists l, w. cbn [fst snd] in *.
  assert (Ew : wanted (ios l) = omap (fun x => watched (v_events x)) v).
  { rewrite <- (ok_view _ _ _ Hl). apply map_eq. intros fd. rewrite wanted_lookup, lookup_omap, lookup_fmap. by destruct (ios l !! fd). }
  split_and!; [done | apply Hl | by rewrite <- Ew | apply Hl | by rewrite (ok_nactives _ _ _ Hl) | apply Hl | apply Hl |].
  intros fd. rewrite (ok_pendings _ _ _ Hl), <- (ok_view _ _ _ Hl), lookup_fmap. destruct (ios l !! fd) as [io|]; cbn; naive_solver.
Qed.
End Refinement.

(** ** Kernels *)

(** The interest list as a map. *)
Definition map_ctl (k : gmap Z Z) (op : epoll_op) (fd e : Z) : gmap Z Z :=
  match op with EPOLL_CTL_DEL => delete fd k | _ => <[fd := e]> k end.
#[export] Instance map_kernel : EpollKernel (gmap Z Z) := { epoll_create := ∅; epoll_ctl := map_ctl; interest := id }.
#[export] Instance map_kernel_laws : EpollLaws (gmap Z Z).
Proof. by split. Qed.

Definition epoll_wait (w : Epoll.epoll_ctx_t (K := gmap Z Z)) (cond : Z -> Z) : Epoll.answer :=
  let rs := filter (fun x => x.2 <> 0) ((fun x => (x.1, happened (Z.lor POLLERR POLLHUP) cond x.1 x.2)) <$> map_to_list (Epoll.epfd w)) in
  Epoll.mkAnswer (Z.of_nat (length rs)) false rs.

Lemma epoll_wait_answers w m M cond : Epoll.epoll_watches w m M -> Epoll.epoll_answers w cond (epoll_wait w cond).
Proof.
  intros (HM & Hs & _). change (interest (Epoll.epfd w)) with (Epoll.epfd w) in HM. set (h := fun x : Z * Z => (x.1, happened (Z.lor POLLERR POLLHUP) cond x.1 x.2)).
  exists (filter (fun x => x.2 <> 0) (h <$> map_to_list (Epoll.epfd w))), []. rewrite app_nil_r. split_and!; [done..| | | |].
  - cbn [Epoll.nepoll epoll_wait]. rewrite Hs, <- HM. fold h. apply Nat2Z.inj_le. etransitivity; [apply length_filter|].
    by rewrite length_fmap, length_map_to_list.
  - apply Poll.filter_keys. rewrite <- list_fmap_compose. apply NoDup_fst_map_to_list.
  - intros fd r Hin. apply list_elem_of_filter in Hin as [Hr Hin]. apply list_elem_of_fmap in Hin as ([y e] & [= -> ->] & Hin).
    apply elem_of_map_to_list in Hin. by exists e.
  - intros _ fd e He Hr. apply list_elem_of_fmap. exists (h (fd, e)). split; [done|]. apply list_elem_of_filter. split; [done|].
    apply list_elem_of_fmap. exists (fd, e). split; [done|]. by apply elem_of_map_to_list.
Qed.

Definition poll_wait (w : Poll.poll_ctx_t) (cond : Z -> Z) : Poll.answer :=
  let revs := (fun x => happened (Z.lor POLLERR (Z.lor POLLHUP POLLNVAL)) cond x.1 x.2) <$> Poll.fds w in
  Poll.mkAnswer (Z.of_nat (length (filter (fun r => r <> 0) revs))) false revs.

Lemma poll_wait_answers w m M cond : Poll.poll_watches w m M -> Poll.poll_answers w cond (poll_wait w cond).
Proof. by split. Qed.

(** The descriptor 7 hangs up, with output possible on 5. *)
Definition conditions (fd : Z) : Z := if decide (fd = 7) then POLLHUP else if decide (fd = 5) then POLLOUT else POLLIN.
Definition calls : list call :=
  [Get 5; Add 5 1 HV_READ; Get 7; Add 7 2 HV_RDWR; Poll conditions; Add 5 0 HV_WRITE; Del 5 HV_READ; Poll conditions;
   Get 9; Add 9 3 HV_READ; Done 7; Poll conditions; Del 7 HV_READ].

Definition results : list Z := [0; 0; 0; 0; 1; 0; 0; 2; 0; 0; 0; 2; -1].

Lemma calls_mean a : a = Z.lor POLLERR POLLHUP \/ a = Z.lor POLLERR (Z.lor POLLHUP POLLNVAL) ->
  exists v, meaning a ∅ calls = Some (results, v) /\ base.size (filter has_events v) = 2%nat.
Proof. intros [->| ->]; eexists; (split; [vm_compute; reflexivity | by vm_compute]). Qed.

Lemma calls_valid : Forall valid calls.
Proof. unfold calls, valid, mask. repeat (apply Forall_cons; split; [tauto|]). by apply Forall_nil. Qed.

Lemma io_calls_refine_witness :
  (exists l w, run epoll_wait (Epoll.mkAnswer 0 false []) (init_loop, None) calls = Some (results, (l, w)) /\ nios l = 2) /\
  (exists l w, run poll_wait (Poll.mkAnswer 0 false []) (init_loop, None) calls = Some (results, (l, w)) /\ nios l = 2).
Proof.
  split.
  - pose proof (io_calls_refine epoll_wait (Epoll.mkAnswer 0 false []) epoll_wait_answers calls calls_valid) as H.
    destruct (calls_mean _ (or_introl eq_refl)) as (v & E & Ev). change always with (Z.lor POLLERR POLLHUP) in H. rewrite E in H.
    destruct H as (l & w & H & _ & _ & Hn & _). exists l, w. split; [done|]. by rewrite Hn, Ev.
  - pose proof (io_calls_refine poll_wait (Poll.mkAnswer 0 false []) poll_wait_answers calls calls_valid) as H.
    destruct (calls_mean _ (or_intror eq_refl)) as (v & E & Ev). change always with (Z.lor POLLERR (Z.lor POLLHUP POLLNVAL)) in H. rewrite E in H.
    destruct H as (l & w & H & _ & _ & Hn & _). exists l, w. split; [done|]. by rewrite Hn, Ev.
Defined.

(** ** [select] *)

Module Select.

Record select_ctx_t := mkCtx { max_fd : Z; readfds : gset Z; writefds : gset Z; nread : Z; nwrite : Z }.
Definition init : select_ctx_t := mkCtx (-1) ∅ ∅ 0 0.

(** [FD_SET] of a set with its counter, unless it is a member; and [FD_CLR]. *)
Definition fd_set (fd : Z) (s : gset Z * Z) : gset Z * Z := if decide (fd ∈ s.1) then s else ({[fd]} ∪ s.1, s.2 + 1).
Definition fd_clr (fd : Z) (s : gset Z * Z) : gset Z * Z := if decide (fd ∈ s.1) then (s.1 ∖ {[fd]}, s.2 - 1) else s.

Definition add_event (w : select_ctx_t) (m : gmap Z hio_t) (fd e : Z) : option (select_ctx_t * gmap Z hio_t) :=
  let max := if decide (fd > max_fd w) then fd else max_fd w in
  let '(rd, nr) := if decide (Z.land e HV_READ <> 0) then fd_set fd (readfds w, nread w) else (readfds w, nread w) in
  let '(wr, nw) := if decide (Z.land e HV_WRITE <> 0) then fd_set fd (writefds w, nwrite w) else (writefds w, nwrite w) in
  Some (mkCtx max rd wr nr nw, m).

Definition del_event (w : select_ctx_t) (m : gmap Z hio_t) (fd e : Z) : option (select_ctx_t * gmap Z hio_t) :=
  let max := if decide (fd = max_fd w) then -1 else max_fd w in
  let '(rd, nr) := if decide (Z.land e HV_READ <> 0) then fd_clr fd (readfds w, nread w) else (readfds w, nread w) in
  let '(wr, nw) := if decide (Z.land e HV_WRITE <> 0) then fd_clr fd (writefds w, nwrite w) else (writefds w, nwrite w) in
  Some (mkCtx max rd wr nr nw, m).

#[global] Instance select_setter : IoSetter select_ctx_t := {
  iowatcher_init := init;
  iowatcher_add_event := add_event;
  iowatcher_del_event := del_event;
}.

(** The greatest descriptor of an active io with events. *)
Definition find_max_active_fd (m : gmap Z hio_t) : Z :=
  foldr (fun x i => if active x.2 && bool_decide (events x.2 <> 0) then Z.max x.1 i else i) (-1) (map_to_list m).

(** [bad fd]: its [getsockopt] fails, or finds an error.  [hio_del] is that of the loop. *)
Fixpoint remove_bad_fds (n : nat) (bad : Z -> bool) (fd : Z) (s : hloop_t * select_ctx_t) : option (hloop_t * select_ctx_t) :=
  match n with
  | O => Some s
  | S n =>
      let '(l, w) := s in
      if decide (fd > max_fd w) then Some s
      else
        s ← (if bool_decide (fd ∈ readfds w \/ fd ∈ writefds w) && bad fd then
               match ios l !! fd with
               | Some _ => '(_, (l, w')) ← hio_del (l, Some w) fd HV_RDWR; w' ← w'; Some (l, w')
               | None => Some s
               end
             else Some s);
        remove_bad_fds n bad (fd + 1) s
  end.

(** What [select] returns for its first argument, whether [errno] is EBADF, the
    sets it leaves, and the descriptors that are bad. *)
Record answer := mkAnswer { nselect : Z; ebadf : bool; rd : gset Z; wr : gset Z; bad : Z -> bool }.
Definition EBADF : Z := 9.

(** [io->revents = revents], not [|=]. *)
Definition assign (l : hloop_t) (fd revs : Z) : hloop_t :=
  match ios l !! fd with
  | None => l
  | Some io => report (set_io fd (mkIo (events io) 0 (ready io) (active io) (pending io) (cb io) (event_index0 io) (event_index1 io)) l) fd revs
  end.

Fixpoint select_loop (n : nat) (a : answer) (fd nevents : Z) (l : hloop_t) : Z * hloop_t :=
  match n with
  | O => (nevents, l)
  | S n =>
      let '(nevents, r) := if decide (fd ∈ rd a) then (nevents + 1, HV_READ) else (nevents, 0) in
      let '(nevents, r) := if decide (fd ∈ wr a) then (nevents + 1, Z.lor r HV_WRITE) else (nevents, r) in
      let l := if decide (r <> 0) then assign l fd r else l in
      if decide (nevents = nselect a) then (nevents, l) else select_loop n a (fd + 1) nevents l
  end.

Definition poll_events (w : select_ctx_t) (l : hloop_t) (ans : Z -> answer) : option (Z * (select_ctx_t * hloop_t)) :=
  if decide (nread w = 0 /\ nwrite w = 0) then Some (0, (w, l))
  else
    let max := if decide (max_fd w = -1) then find_max_active_fd (ios l) else max_fd w in
    let w := mkCtx max (readfds w) (writefds w) (nread w) (nwrite w) in
    let a := ans (max + 1) in
    if decide (nselect a < 0) then
      if ebadf a then '(l, w) ← remove_bad_fds (Z.to_nat (max + 1)) (bad a) 0 (l, w); Some (- EBADF, (w, l))
      else Some (nselect a, (w, l))
    else if decide (nselect a = 0) then Some (0, (w, l))
    else let '(n, l) := select_loop (Z.to_nat (max + 1)) a 0 0 l in Some (n, (w, l)).

#[global] Instance select_watcher : IoWatcher select_ctx_t (Z -> answer) := { iowatcher_poll_events := poll_events }.

(** [select] looks at the descriptors below its first argument. *)
Definition select (w : select_ctx_t) (cond : Z -> Z) (nfds : Z) : answer :=
  let r := filter (fun fd => fd < nfds /\ Z.land (cond fd) POLLIN <> 0) (readfds w) in
  let s := filter (fun fd => fd < nfds /\ Z.land (cond fd) POLLOUT <> 0) (writefds w) in
  mkAnswer (Z.of_nat (base.size r + base.size s)) false r s (fun _ => false).

(** 9 is watched and no longer, then 3 is: [max_fd] is 3, and 5 is not looked at
    as long as 3 is watched. *)
Definition calls : list call :=
  [Get 5; Add 5 1 HV_READ; Get 9; Add 9 1 HV_READ; Del 9 HV_READ; Get 3; Add 3 1 HV_READ; Poll (fun fd => if decide (fd = 5) then POLLIN else 0)].

Lemma select_misses :
  fst <$> meaning 0 ∅ calls = Some [0; 0; 0; 0; 0; 0; 0; 1] /\
  fst <$> run select (fun _ => mkAnswer 0 false ∅ ∅ (fun _ => false)) (init_loop, None) calls = Some [0; 0; 0; 0; 0; 0; 0; 0].
Proof. by vm_compute. Qed.
End Select.

(** ** [kqueue] *)

Module Kqueue.

Definition EVFILT_READ : Z := -1.
Definition EVFILT_WRITE : Z := -2.
Definition EV_ADD : Z := 0x0001.
Definition EV_DELETE : Z := 0x0002.
Definition EV_ENABLE : Z := 0x0004.
Definition EV_ERROR : Z := 0x4000.

Record kevent := mkEvent { ident : Z; filter : Z; flags : Z }.

(** The kernel's side: the changes are applied in order. *)
Class KqueueKernel (K : Type) := { kqueue : K; kevent_changes : K -> list kevent -> K }.

Section Kqueue.
Context {K : Type} `{KqueueKernel K}.

(** [changes] with its first [nchanges] entries, and the size of both arrays. *)
Record kqueue_ctx_t := mkCtx { kqfd : K; capacity : Z; changes : list kevent }.
Definition EVENTS_INIT_SIZE : Z := 64.
Definition init : kqueue_ctx_t := mkCtx kqueue EVENTS_INIT_SIZE [].

Definition event_index (event : Z) (io : hio_t) : Z := if decide (event = EVFILT_READ) then event_index0 io else event_index1 io.
Definition set_index (event i : Z) (io : hio_t) : hio_t := if decide (event = EVFILT_READ) then set_index0 i io else set_index1 i io.

Definition add_one (w : kqueue_ctx_t) (m : gmap Z hio_t) (fd event : Z) : option (kqueue_ctx_t * gmap Z hio_t) :=
  io ← m !! fd;
  let idx := event_index event io in
  let nchanges := Z.of_nat (length (changes w)) in
  let '(cs, i, cap, m) :=
    if decide (idx < 0) then
      (changes w ++ [mkEvent fd 0 0], length (changes w), if decide (nchanges = capacity w) then capacity w * 2 else capacity w,
       <[fd := set_index event nchanges io]> m)
    else (changes w, Z.to_nat idx, capacity w, m) in
  c ← cs !! i;
  if decide (ident c <> fd) then None
  else
    let cs := <[i := mkEvent fd event (Z.lor EV_ADD EV_ENABLE)]> cs in
    Some (mkCtx (kevent_changes (kqfd w) cs) cap cs, m).

Definition add_event (w : kqueue_ctx_t) (m : gmap Z hio_t) (fd e : Z) : option (kqueue_ctx_t * gmap Z hio_t) :=
  '(w, m) ← (if decide (Z.land e HV_READ <> 0) then add_one w m fd EVFILT_READ else Some (w, m));
  if decide (Z.land e HV_WRITE <> 0) then add_one w m fd EVFILT_WRITE else Some (w, m).

(** The deleted entry is swapped with the last, handed to the kernel and dropped. *)
Definition del_one (w : kqueue_ctx_t) (m : gmap Z hio_t) (fd event : Z) : option (kqueue_ctx_t * gmap Z hio_t) :=
  io ← m !! fd;
  let idx := event_index event io in
  if decide (idx < 0) then Some (w, m)
  else
    let i := Z.to_nat idx in
    c ← changes w !! i;
    if decide (ident c <> fd) then None
    else
      let c := mkEvent (ident c) (filter c) EV_DELETE in
      let cs := <[i := c]> (changes w) in
      let m := <[fd := set_index event (-1) io]> m in
      let last := (length cs - 1)%nat in
      '(cs, m) ← (if decide (i < last)%nat then
                    x ← cs !! last;
                    let cs := <[last := c]> (<[i := x]> cs) in
                    Some (cs, match m !! ident x with Some io => <[ident x := set_index (filter x) idx io]> m | None => m end)
                  else Some (cs, m));
      Some (mkCtx (kevent_changes (kqfd w) cs) (capacity w) (take last cs), m).

Definition del_event (w : kqueue_ctx_t) (m : gmap Z hio_t) (fd e : Z) : option (kqueue_ctx_t * gmap Z hio_t) :=
  '(w, m) ← (if decide (Z.land e HV_READ <> 0) then del_one w m fd EVFILT_READ else Some (w, m));
  if decide (Z.land e HV_WRITE <> 0) then del_one w m fd EVFILT_WRITE else Some (w, m).

(** The bits of a filter, as the reporting loop tests them. *)
Definition filter_revents (f : Z) : Z :=
  Z.lor (if decide (Z.land f EVFILT_READ <> 0) then HV_READ else 0) (if decide (Z.land f EVFILT_WRITE <> 0) then HV_WRITE else 0).

Fixpoint kevent_loop (evs : list kevent) (n nevents : Z) (l : hloop_t) : Z * hloop_t :=
  match evs with
  | [] => (nevents, l)
  | ev :: evs =>
      if decide (Z.land (flags ev) EV_ERROR <> 0) then kevent_loop evs n nevents l
      else
        let l := report l (ident ev) (filter_revents (filter ev)) in
        if decide (nevents + 1 = n) then (nevents + 1, l) else kevent_loop evs n (nevents + 1) l
  end.

(** What [kevent] returns, and the events. *)
Definition poll_events (w : kqueue_ctx_t) (l : hloop_t) (a : Z * list kevent) : Z * hloop_t :=
  if decide (changes w = []) then (0, l)
  else if decide (a.1 <= 0) then (a.1, l)
  else kevent_loop (take (Z.to_nat a.1) a.2) a.1 0 l.

#[global] Instance kqueue_setter : IoSetter kqueue_ctx_t := {
  iowatcher_init := init;
  iowatcher_add_event := add_event;
  iowatcher_del_event := del_event;
}.
#[global] Instance kqueue_watcher : IoWatcher kqueue_ctx_t (Z * list kevent) := {
  iowatcher_poll_events := fun w l a => let '(n, l) := poll_events w l a in Some (n, (w, l));
}.
End Kqueue.

(** The filters are numbers, not bits: each is reported as both events. *)
Lemma filter_revents_both f : f = EVFILT_READ \/ f = EVFILT_WRITE -> filter_revents f = HV_RDWR.
Proof. by intros [->| ->]. Qed.

#[global] Instance change_kernel : KqueueKernel (list kevent) := { kqueue := []; kevent_changes := fun _ cs => cs }.

(** The events of the descriptors whose condition a change asks for. *)
Definition kevents (w : kqueue_ctx_t (K := list kevent)) (cond : Z -> Z) : Z * list kevent :=
  let evs := List.filter (fun c => bool_decide (Z.land (cond (ident c)) (if decide (filter c = EVFILT_READ) then POLLIN else POLLOUT) <> 0)) (kqfd w) in
  (Z.of_nat (length evs), evs).

(** Input on 5, which is watched for both: the io is told of output too. *)
Definition calls : list call := [Get 5; Add 5 1 HV_RDWR; Poll (fun _ => POLLIN)].

Lemma kqueue_tells_both :
  (fun x => v_revents <$> x.2 !! 5) <$> meaning 0 ∅ calls = Some (Some HV_READ) /\
  (fun x => revents <$> ios x.2.1 !! 5) <$> run kevents (0, []) (init_loop, None) calls = Some (Some HV_RDWR).
Proof. by vm_compute. Qed.
End Kqueue.

(** ** Events of an io that is watched already *)

(** [hio_add] of both events on an io with one of them asks for nothing. *)
Definition read_then_both : list call := [Get 5; Add 5 1 HV_READ; Add 5 1 HV_RDWR].

Lemma add_both_ignored :
  (fun x => events <$> ios x.2.1 !! 5) <$> run poll_wait (Poll.mkAnswer 0 false []) (init_loop, None) read_then_both = Some (Some HV_READ).
Proof. by vm_compute. Qed.
