(* ===== verification/RbTree.v ===== *)
(** * Red-black trees: [base/rbtree.c] and [base/rbtree.h] of libhv

    The nodes are linked by pointers and lie in a memory; a pointer is a [Z], 0
    when it is NULL, and a node that is not there ends the program ([None]).  The
    functions of C that are each other's mirror image, or have branches that are,
    are one definition with a [side].

    A state represents a tree with a hole and the tree in the hole ([rep]): a
    pointer into a tree is a position in it.  The operations are shown to keep the
    colours balanced and to do to the nodes, in order, what they are for. *)

From S2P Require Import Prelude.

#[local] Open Scope list_scope.
#[local] Open Scope Z_scope.

(** ** The code *)

Inductive color := RB_RED | RB_BLACK.
#[export] Instance color_eq : EqDecision color.
Proof. solve_decision. Defined.

Record node := mkNode { rb_parent : Z; rb_right : Z; rb_left : Z; rb_color : color }.

(** The memory of the nodes, and [root->rb_node]. *)
Record rb := mkRb { nodes : gmap Z node; rb_node : Z }.

Inductive side := Left | Right.
#[export] Instance side_eq : EqDecision side.
Proof. solve_decision. Defined.
Definition opp (d : side) : side := match d with Left => Right | Right => Left end.

Definition child (d : side) (n : node) : Z := match d with Left => rb_left n | Right => rb_right n end.
Definition set_child (d : side) (p : Z) (n : node) : node :=
  match d with
  | Left => mkNode (rb_parent n) (rb_right n) p (rb_color n)
  | Right => mkNode (rb_parent n) p (rb_left n) (rb_color n)
  end.
Definition set_parent (p : Z) (n : node) : node := mkNode p (rb_right n) (rb_left n) (rb_color n).
Definition set_color (c : color) (n : node) : node := mkNode (rb_parent n) (rb_right n) (rb_left n) c.

Definition get (p : Z) (s : rb) : option node := nodes s !! p.
Definition upd (p : Z) (f : node -> node) (s : rb) : option rb :=
  n ← nodes s !! p; Some (mkRb (<[p := f n]> (nodes s)) (rb_node s)).

(** The pointer to [old] in its parent, or at the root, becomes [new]. *)
Definition relink (d : side) (parent old new : Z) (s : rb) : option rb :=
  if decide (parent = 0) then Some (mkRb (nodes s) new)
  else n ← get parent s; upd parent (set_child (if decide (child d n = old) then d else opp d) new) s.

(** [if (p) p->rb_parent = parent]. *)
Definition adopt (p parent : Z) (s : rb) : option rb :=
  if decide (p = 0) then Some s else upd p (set_parent parent) s.

Definition rb_rotate (d : side) (node : Z) (s : rb) : option rb :=
  n ← get node s;
  let right := child (opp d) n in
  r ← get right s;
  s ← upd node (set_child (opp d) (child d r)) s;
  s ← adopt (child d r) node s;
  s ← upd right (set_child d node) s;
  n ← get node s;
  s ← upd right (set_parent (rb_parent n)) s;
  s ← relink d (rb_parent n) node right s;
  upd node (set_parent right) s.

Definition __rb_rotate_left : Z -> rb -> option rb := rb_rotate Left.
Definition __rb_rotate_right : Z -> rb -> option rb := rb_rotate Right.

(** [p && p->rb_color == RB_RED]. *)
Definition is_red (p : Z) (s : rb) : option bool :=
  if decide (p = 0) then Some false else n ← get p s; Some (bool_decide (rb_color n = RB_RED)).

Fixpoint insert_loop (fuel : nat) (node : Z) (s : rb) : option rb :=
  match fuel with
  | O => None
  | S fuel =>
      n ← get node s;
      let parent := rb_parent n in
      red ← is_red parent s;
      if red : bool then
        p ← get parent s;
        let gparent := rb_parent p in
        g ← get gparent s;
        let d := if decide (parent = rb_left g) then Left else Right in
        let uncle := child (opp d) g in
        uncle_red ← is_red uncle s;
        if uncle_red : bool then
          s ← upd uncle (set_color RB_BLACK) s;
          s ← upd parent (set_color RB_BLACK) s;
          s ← upd gparent (set_color RB_RED) s;
          insert_loop fuel gparent s
        else
          '(parent, node, s) ← (if decide (child (opp d) p = node) then s ← rb_rotate d parent s; Some (node, parent, s)
                                else Some (parent, node, s));
          s ← upd parent (set_color RB_BLACK) s;
          s ← upd gparent (set_color RB_RED) s;
          s ← rb_rotate (opp d) gparent s;
          insert_loop fuel node s
      else upd (rb_node s) (set_color RB_BLACK) s
  end.

(** No loop makes more rounds than there are nodes, and one. *)
Definition fuel_of (s : rb) : nat := S (S (size (nodes s))).
Definition rb_insert_color (node : Z) (s : rb) : option rb := insert_loop (fuel_of s) node s.

(** The parts of [__rb_erase_color] for the hole at the side [d] of [parent]: a red
    sibling, *)
Definition rotate_red (d : side) (parent other : Z) (s : rb) : option (Z * rb) :=
  s ← upd other (set_color RB_BLACK) s;
  s ← upd parent (set_color RB_RED) s;
  s ← rb_rotate d parent s;
  p ← get parent s;
  Some (child (opp d) p, s).

(** a black one whose far child is black, *)
Definition rotate_near (d : side) (parent other : Z) (s : rb) : option (Z * rb) :=
  o ← get other s;
  far_red ← is_red (child (opp d) o) s;
  if far_red : bool then Some (other, s)
  else
    s ← (if decide (child d o = 0) then Some s else upd (child d o) (set_color RB_BLACK) s);
    s ← upd other (set_color RB_RED) s;
    s ← rb_rotate (opp d) other s;
    p ← get parent s;
    Some (child (opp d) p, s).

(** and the end of the loop. *)
Definition erase_rotate (d : side) (parent other : Z) (s : rb) : option rb :=
  '(other, s) ← rotate_near d parent other s;
  p ← get parent s;
  s ← upd other (set_color (rb_color p)) s;
  s ← upd parent (set_color RB_BLACK) s;
  o ← get other s;
  s ← (if decide (child (opp d) o = 0) then Some s else upd (child (opp d) o) (set_color RB_BLACK) s);
  rb_rotate d parent s.

Fixpoint erase_loop (fuel : nat) (node parent : Z) (s : rb) : option rb :=
  match fuel with
  | O => None
  | S fuel =>
      red ← is_red node s;
      if negb red && negb (bool_decide (node = rb_node s)) then
        p ← get parent s;
        let d := if decide (rb_left p = node) then Left else Right in
        let other := child (opp d) p in
        red ← is_red other s;
        '(other, s) ← (if red : bool then rotate_red d parent other s else Some (other, s));
        o ← get other s;
        near_red ← is_red (child d o) s;
        far_red ← is_red (child (opp d) o) s;
        if negb near_red && negb far_red then
          s ← upd other (set_color RB_RED) s;
          p ← get parent s;
          erase_loop fuel parent (rb_parent p) s
        else
          s ← erase_rotate d parent other s;
          if decide (rb_node s = 0) then Some s else upd (rb_node s) (set_color RB_BLACK) s
      else if decide (node = 0) then Some s else upd node (set_color RB_BLACK) s
  end.
Definition __rb_erase_color (node parent : Z) (s : rb) : option rb := erase_loop (fuel_of s) node parent s.

(** [while (n->rb_left) n = n->rb_left], and its mirror image. *)
Fixpoint last_child (fuel : nat) (d : side) (node : Z) (s : rb) : option Z :=
  match fuel with
  | O => None
  | S fuel => n ← get node s; if decide (child d n = 0) then Some node else last_child fuel d (child d n) s
  end.

(** A node with one child at most leaves the tree; the child, the parent and the
    colour. *)
Definition erase_at (node chld : Z) (s : rb) : option (Z * color * rb) :=
  n ← get node s;
  s ← adopt chld (rb_parent n) s;
  s ← relink Left (rb_parent n) node chld s;
  Some (rb_parent n, rb_color n, s).

Definition rb_erase (node : Z) (s : rb) : option rb :=
  n ← get node s;
  '(chld, parent, clr, s) ←
    (if decide (rb_left n = 0) then '(parent, clr, s) ← erase_at node (rb_right n) s; Some (rb_right n, parent, clr, s)
     else if decide (rb_right n = 0) then '(parent, clr, s) ← erase_at node (rb_left n) s; Some (rb_left n, parent, clr, s)
     else
       let old := node in
       node ← last_child (fuel_of s) Left (rb_right n) s;
       n ← get node s;
       let chld := rb_right n in
       '(parent, clr, s) ← erase_at node chld s;
       n ← get node s;
       let parent := if decide (rb_parent n = old) then node else parent in
       o ← get old s;
       s ← upd node (fun _ => o) s;
       s ← relink Left (rb_parent o) old node s;
       s ← upd (rb_left o) (set_parent node) s;
       s ← adopt (rb_right o) node s;
       Some (chld, parent, clr, s));
  if decide (clr = RB_BLACK) then __rb_erase_color chld parent s else Some s.

Definition rb_end (d : side) (s : rb) : option Z :=
  if decide (rb_node s = 0) then Some 0 else last_child (fuel_of s) d (rb_node s) s.
Definition rb_first : rb -> option Z := rb_end Left.
Definition rb_last : rb -> option Z := rb_end Right.

(** [while (node->rb_parent && node == node->rb_parent->rb_right) node = node->rb_parent],
    and the parent of the last. *)
Fixpoint climb (fuel : nat) (d : side) (node : Z) (s : rb) : option Z :=
  match fuel with
  | O => None
  | S fuel =>
      n ← get node s;
      if decide (rb_parent n = 0) then Some 0
      else p ← get (rb_parent n) s; if decide (node = child d p) then climb fuel d (rb_parent n) s else Some (rb_parent n)
  end.

(** The neighbour at the side [d]. *)
Definition rb_step (d : side) (node : Z) (s : rb) : option Z :=
  n ← get node s;
  if decide (child d n = 0) then climb (fuel_of s) d node s else last_child (fuel_of s) (opp d) (child d n) s.
Definition rb_next : Z -> rb -> option Z := rb_step Right.
Definition rb_prev : Z -> rb -> option Z := rb_step Left.

Definition rb_replace_node (victim newnode : Z) (s : rb) : option rb :=
  v ← get victim s;
  s ← relink Left (rb_parent v) victim newnode s;
  s ← adopt (rb_left v) newnode s;
  s ← adopt (rb_right v) newnode s;
  v ← get victim s;
  upd newnode (fun _ => v) s.

(** [link]: the pointer that leads to the place, the root or a child of [parent]. *)
Definition rb_link_node (node parent : Z) (link : option side) (s : rb) : option rb :=
  s ← upd node (fun _ => mkNode parent 0 0 RB_RED) s;
  match link with
  | None => Some (mkRb (nodes s) node)
  | Some d => upd parent (set_child d node) s
  end.

(** ** Trees with a hole *)

Inductive tree := E | T (c : color) (l : tree) (p : Z) (r : tree).

(** A node with the subtree [t] at the side [d] and [u] at the other. *)
Definition N (d : side) (c : color) (t : tree) (p : Z) (u : tree) : tree :=
  match d with Left => T c t p u | Right => T c u p t end.

Definition ptr (t : tree) : Z := match t with E => 0 | T _ _ p _ => p end.
Fixpoint elems (t : tree) : list Z := match t with E => [] | T _ l p r => elems l ++ p :: elems r end.

(** A hole at the side [d] of the node [p], whose other child is [u], and so on up. *)
Record frame := mkFrame { f_side : side; f_color : color; f_node : Z; f_tree : tree }.
Abbreviation ctx := (list frame).

Fixpoint plug (k : ctx) (t : tree) : tree :=
  match k with
  | [] => t
  | f :: k => plug k (N (f_side f) (f_color f) t (f_node f) (f_tree f))
  end.

(** The pointer to the parent of the hole, and the root when [h] is in the hole. *)
Definition kptr (k : ctx) : Z := match k with [] => 0 | f :: _ => f_node f end.
Fixpoint kroot (k : ctx) (h : Z) : Z := match k with [] => h | f :: k => kroot k (f_node f) end.
Fixpoint kelems (k : ctx) : list Z := match k with [] => [] | f :: k => f_node f :: elems (f_tree f) ++ kelems k end.

(** The elements left and right of the hole. *)
Fixpoint before (k : ctx) : list Z :=
  match k with
  | [] => []
  | f :: k => before k ++ match f_side f with Left => [] | Right => elems (f_tree f) ++ [f_node f] end
  end.
Fixpoint after (k : ctx) : list Z :=
  match k with
  | [] => []
  | f :: k => match f_side f with Left => f_node f :: elems (f_tree f) | Right => [] end ++ after k
  end.

(** The node with the child [a] at the side [d] and [b] at the other. *)
Definition entry (d : side) (c : color) (parent a b : Z) : node :=
  match d with Left => mkNode parent b a c | Right => mkNode parent a b c end.

Fixpoint linked (m : gmap Z node) (t : tree) (parent : Z) : Prop :=
  match t with
  | E => True
  | T c l p r => m !! p = Some (mkNode parent (ptr r) (ptr l) c) /\ linked m l p /\ linked m r p
  end.

Fixpoint klinked (m : gmap Z node) (k : ctx) (h : Z) : Prop :=
  match k with
  | [] => True
  | f :: k =>
      m !! f_node f = Some (entry (f_side f) (f_color f) (kptr k) h (ptr (f_tree f))) /\
      linked m (f_tree f) (f_node f) /\ klinked m k (f_node f)
  end.

Record rep (s : rb) (k : ctx) (t : tree) : Prop := {
  rep_linked : linked (nodes s) t (kptr k);
  rep_klinked : klinked (nodes s) k (ptr t);
  rep_root : rb_node s = kroot k (ptr t);
  rep_nodup : NoDup (elems t ++ kelems k);
  rep_pos : 0 ∉ elems t ++ kelems k;
}.

Lemma elems_N d c t p u : elems (N d c t p u) ≡ₚ p :: elems t ++ elems u.
Proof. destruct d; cbn; [by rewrite Permutation_middle | by rewrite (Permutation_app_comm (elems u))]. Qed.

Lemma ptr_N d c t p u : ptr (N d c t p u) = p.
Proof. by destruct d. Qed.

Lemma linked_N m d c t p u q :
  linked m (N d c t p u) q <-> m !! p = Some (entry d c q (ptr t) (ptr u)) /\ linked m t p /\ linked m u p.
Proof. destruct d; cbn; tauto. Qed.

Lemma elems_plug k t : elems (plug k t) = before k ++ elems t ++ after k.
Proof.
  revert t. induction k as [|[d c p u] k IH]; intros t; cbn [plug before after]; [by rewrite app_nil_r|].
  rewrite IH. destruct d; cbn; by rewrite <- ?app_assoc.
Qed.

Lemma kelems_perm k : kelems k ≡ₚ before k ++ after k.
Proof.
  induction k as [|[d c p u] k IH]; [done|]. cbn [kelems before after f_side f_node f_tree]. rewrite IH. destruct d; cbn.
  - rewrite app_nil_r, <- Permutation_middle. constructor. rewrite !app_assoc. by rewrite (Permutation_app_comm (elems u)).
  - rewrite <- !app_assoc. cbn. rewrite (app_assoc (before k)), <- Permutation_middle. constructor.
    rewrite app_assoc. by rewrite (Permutation_app_comm (elems u)).
Qed.

Lemma plug_perm k t : elems (plug k t) ≡ₚ elems t ++ kelems k.
Proof.
  rewrite elems_plug, kelems_perm, !app_assoc. by rewrite (Permutation_app_comm (before k)).
Qed.

(** The hole moves into the tree, or out of it. *)
Lemma rep_focus s k d c t p u : rep s k (N d c t p u) <-> rep s (mkFrame d c p u :: k) t.
Proof.
  assert (Hp : elems (N d c t p u) ++ kelems k ≡ₚ elems t ++ kelems (mkFrame d c p u :: k)).
  { rewrite elems_N. cbn [kelems f_node f_tree app]. by rewrite <- app_assoc, Permutation_middle. }
  split; intros [H1 H2 H3 H4 H5]; split.
  - by apply linked_N in H1 as (_ & H1 & _).
  - apply linked_N in H1. rewrite ptr_N in H2. cbn. tauto.
  - rewrite ptr_N in H3. done.
  - by rewrite <- Hp.
  - by rewrite <- Hp.
  - apply linked_N. cbn in H2. tauto.
  - rewrite ptr_N. cbn in H2. tauto.
  - by rewrite ptr_N.
  - by rewrite Hp.
  - by rewrite Hp.
Qed.

Lemma rep_down s k d c t p u : rep s k (N d c t p u) -> rep s (mkFrame d c p u :: k) t.
Proof. apply rep_focus. Qed.
Lemma rep_up s k d c t p u : rep s (mkFrame d c p u :: k) t -> rep s k (N d c t p u).
Proof. apply rep_focus. Qed.

Lemma rep_plug s k t : rep s [] (plug k t) <-> rep s k t.
Proof.
  revert t. induction k as [|[d c p u] k IH]; intros t; [done|]. cbn [plug f_side f_color f_node f_tree]. by rewrite IH, rep_focus.
Qed.

(** ** Steps on the memory *)

Lemma tree_linked_ext m m' t q : (forall p, p ∈ elems t -> m' !! p = m !! p) -> linked m t q -> linked m' t q.
Proof.
  revert q. induction t as [|c l IHl p r IHr]; intros q Hm; [done|]. intros (H & Hl & Hr). cbn. split_and!.
  - rewrite Hm; [done|]. cbn. set_solver.
  - apply IHl; [|done]. intros x Hx. apply Hm. cbn. set_solver.
  - apply IHr; [|done]. intros x Hx. apply Hm. cbn. set_solver.
Qed.

Lemma klinked_ext m m' k h : (forall p, p ∈ kelems k -> m' !! p = m !! p) -> klinked m k h -> klinked m' k h.
Proof.
  revert h. induction k as [|f k IH]; intros h Hm; [done|]. intros (H & Hu & Hk). cbn. split_and!.
  - rewrite Hm; [done|]. cbn. set_solver.
  - eapply tree_linked_ext; [|done]. intros x Hx. apply Hm. cbn. set_solver.
  - apply IH; [|done]. intros x Hx. apply Hm. cbn. set_solver.
Qed.

(** What a step does not write. *)
Definition outside (P : Z -> Prop) (s s' : rb) : Prop := forall p, ~ P p -> nodes s' !! p = nodes s !! p.

Lemma upd_ok p f s n : nodes s !! p = Some n ->
  exists s', upd p f s = Some s' /\ nodes s' !! p = Some (f n) /\ rb_node s' = rb_node s /\ outside (eq p) s s'.
Proof.
  intros H. unfold upd. rewrite H. cbn [mbind option_bind]. eexists. split; [done|]. cbn [nodes rb_node]. split_and!; [by rewrite lookup_insert_eq | done|].
  intros q Hq. cbn [nodes]. by rewrite lookup_insert_ne.
Qed.

Lemma adopt_ok t q q' s : linked (nodes s) t q -> NoDup (elems t) -> 0 ∉ elems t ->
  exists s', adopt (ptr t) q' s = Some s' /\ linked (nodes s') t q' /\ rb_node s' = rb_node s /\ outside (.∈ elems t) s s'.
Proof.
  intros Hl Hd H0. unfold adopt. destruct t as [|c l p r]; cbn [ptr].
  - by exists s.
  - cbn [elems] in *. rewrite decide_False by set_solver. destruct Hl as (Hp & Hl & Hr).
    destruct (upd_ok p (set_parent q') s _ Hp) as (s' & E & Hp' & Hroot & Hout). exists s'. split; [done|].
    rewrite NoDup_app, NoDup_cons in Hd. destruct Hd as (_ & Hd1 & Hd2 & _).
    split; [|split; [done|]]; [|intros x Hx; apply Hout; set_solver].
    cbn. split_and!; [done|..]; (eapply tree_linked_ext; [|done]); intros x Hx; apply Hout; set_solver.
Qed.

Lemma relink_ok d k x y s : klinked (nodes s) k x -> rb_node s = kroot k x -> NoDup (x :: kelems k) -> 0 ∉ x :: kelems k ->
  exists s', relink d (kptr k) x y s = Some s' /\ klinked (nodes s') k y /\ rb_node s' = kroot k y /\ outside (.∈ kelems k) s s'.
Proof.
  intros Hk Hroot Hd H0. unfold relink. destruct k as [|[e c p u] k]; cbn [kptr f_node].
  - rewrite decide_True by done. eexists. split; [done|]. by split.
  - cbn [kelems f_node f_tree] in *. rewrite decide_False by set_solver. destruct Hk as (Hp & Hu & Hk). cbn [f_side f_color f_node f_tree] in *.
    unfold get. rewrite Hp. cbn [mbind option_bind]. set (n := entry e c (kptr k) x (ptr u)) in *.
    assert (Hside : (if decide (child d n = x) then d else opp d) = e).
    { assert (Hux : ptr u <> x).
      { intros <-. destruct u as [|? ? q ?]; cbn in *; [set_solver|]. apply NoDup_cons in Hd as [Hd _]. set_solver. }
      destruct (decide (child d n = x)) as [Hc|Hc]; destruct d, e; cbn in *; done. }
    rewrite Hside. destruct (upd_ok p (set_child e y) s _ Hp) as (s' & E & Hp' & Hroot' & Hout). exists s'. split; [done|].
    rewrite !NoDup_cons in Hd. destruct Hd as (_ & Hd & _). split; [|split].
    + cbn. split_and!.
      * rewrite Hp'. by destruct e.
      * eapply tree_linked_ext; [|done]. intros z Hz. apply Hout. set_solver.
      * eapply klinked_ext; [|done]. intros z Hz. apply Hout. set_solver.
    + by rewrite Hroot', Hroot.
    + intros z Hz. apply Hout. set_solver.
Qed.

(** ** Colours and rotations *)

Lemma rep_get s k d c t p u : rep s k (N d c t p u) -> nodes s !! p = Some (entry d c (kptr k) (ptr t) (ptr u)).
Proof. intros [H _ _ _ _]. by apply linked_N in H as [H _]. Qed.

Lemma child_entry d c q a b : child d (entry d c q a b) = a.
Proof. by destruct d. Qed.
Lemma child_opp_entry d c q a b : child (opp d) (entry d c q a b) = b.
Proof. by destruct d. Qed.
Lemma parent_entry d c q a b : rb_parent (entry d c q a b) = q.
Proof. by destruct d. Qed.
Lemma color_entry d c q a b : rb_color (entry d c q a b) = c.
Proof. by destruct d. Qed.
Lemma set_child_entry d c q a b a' : set_child d a' (entry d c q a b) = entry d c q a' b.
Proof. by destruct d. Qed.
Lemma set_opp_entry d c q a b b' : set_child (opp d) b' (entry d c q a b) = entry d c q a b'.
Proof. by destruct d. Qed.
Lemma set_parent_entry d c q a b q' : set_parent q' (entry d c q a b) = entry d c q' a b.
Proof. by destruct d. Qed.
Lemma set_color_entry d c q a b c' : set_color c' (entry d c q a b) = entry d c' q a b.
Proof. by destruct d. Qed.
Hint Rewrite child_entry child_opp_entry parent_entry color_entry set_child_entry set_opp_entry set_parent_entry set_color_entry ptr_N : entry.

Lemma color_ok s k d c t p u c' : rep s k (N d c t p u) ->
  exists s', upd p (set_color c') s = Some s' /\ rep s' k (N d c' t p u).
Proof.
  intros Hrep. pose proof (rep_get _ _ _ _ _ _ _ Hrep) as Hp. destruct Hrep as [H1 H2 H3 H4 H5].
  destruct (upd_ok p (set_color c') s _ Hp) as (s' & E & Hp' & Hroot & Hout). exists s'. split; [done|].
  rewrite set_color_entry in Hp'. apply linked_N in H1 as (_ & Ht & Hu). rewrite ptr_N in *.
  rewrite elems_N in H4, H5. rewrite <- app_comm_cons, NoDup_cons in H4. destruct H4 as [Hnp H4]. split.
  - apply linked_N. split_and!; [done|..]; (eapply tree_linked_ext; [|done]); intros z Hz; apply Hout; set_solver.
  - rewrite ptr_N. eapply klinked_ext; [|done]. intros z Hz. apply Hout. set_solver.
  - by rewrite ptr_N, Hroot.
  - rewrite elems_N, <- app_comm_cons. by apply NoDup_cons.
  - by rewrite elems_N.
Qed.

Lemma rotate_ok d s k c a x e b y f : rep s k (N d c a x (N d e b y f)) ->
  exists s', rb_rotate d x s = Some s' /\ rep s' k (N d e (N d c a x b) y f).
Proof.
  intros Hrep. pose proof (rep_get _ _ _ _ _ _ _ Hrep) as Hx. destruct Hrep as [H1 H2 H3 H4 H5].
  apply linked_N in H1 as (_ & Ha & H1). apply linked_N in H1 as (Hy & Hb & Hf). rewrite !ptr_N in *.
  assert (Hperm : elems (N d c a x (N d e b y f)) ++ kelems k ≡ₚ x :: y :: elems a ++ elems b ++ elems f ++ kelems k).
  { rewrite elems_N, elems_N. cbn. constructor. rewrite <- Permutation_middle. cbn. constructor. by rewrite <- !app_assoc. }
  assert (Hperm' : elems (N d e (N d c a x b) y f) ++ kelems k ≡ₚ x :: y :: elems a ++ elems b ++ elems f ++ kelems k).
  { rewrite elems_N, elems_N. cbn. rewrite <- !app_assoc. apply perm_swap. }
  rewrite Hperm in H4, H5. pose proof H4 as Hd. rewrite !NoDup_cons, !NoDup_app in Hd. destruct Hd as (Hxn & Hyn & _ & Had & Hbn & Hbd & Hfn & Hfd & Hkn).
  unfold rb_rotate, get. rewrite Hx. cbn [mbind option_bind]. rewrite child_opp_entry, Hy. cbn [mbind option_bind]. rewrite child_entry.
  destruct (upd_ok x (set_child (opp d) (ptr b)) s _ Hx) as (s1 & -> & Hx1 & R1 & O1). cbn [mbind option_bind]. rewrite set_opp_entry in Hx1.
  destruct (adopt_ok b y x s1) as (s2 & -> & Hb2 & R2 & O2); [|done|set_solver|].
  { eapply tree_linked_ext; [|done]. intros z Hz. apply O1. set_solver. }
  cbn [mbind option_bind].
  assert (Hy2 : nodes s2 !! y = Some (entry d e x (ptr b) (ptr f))) by (rewrite O2, O1 by set_solver; done).
  destruct (upd_ok y (set_child d x) s2 _ Hy2) as (s3 & -> & Hy3 & R3 & O3). cbn [mbind option_bind]. rewrite set_child_entry in Hy3.
  assert (Hx3 : nodes s3 !! x = Some (entry d c (kptr k) (ptr a) (ptr b))) by (rewrite O3, O2 by set_solver; done).
  rewrite Hx3. cbn [mbind option_bind]. rewrite parent_entry.
  destruct (upd_ok y (set_parent (kptr k)) s3 _ Hy3) as (s4 & -> & Hy4 & R4 & O4). cbn [mbind option_bind]. rewrite set_parent_entry in Hy4.
  destruct (relink_ok d k x y s4) as (s5 & -> & Hk5 & R5 & O5).
  { eapply klinked_ext; [|done]. intros z Hz. rewrite O4, O3, O2, O1 by set_solver. done. }
  { by rewrite R4, R3, R2, R1, H3. }
  { apply NoDup_cons. split; [set_solver|done]. }
  { set_solver. }
  cbn [mbind option_bind].
  assert (Hx5 : nodes s5 !! x = Some (entry d c (kptr k) (ptr a) (ptr b))) by (rewrite O5, O4 by set_solver; done).
  destruct (upd_ok x (set_parent y) s5 _ Hx5) as (s6 & -> & Hx6 & R6 & O6). rewrite set_parent_entry in Hx6. exists s6. split; [done|]. split.
  - apply linked_N. rewrite ptr_N. split_and!; [rewrite O6, O5 by set_solver; done | apply linked_N; split_and!; [done|..] |];
      (eapply tree_linked_ext; [|done]); intros z Hz; rewrite O6, O5, O4, O3 by set_solver; [rewrite O2, O1 by set_solver; done | done | rewrite O2, O1 by set_solver; done].
  - rewrite ptr_N. eapply klinked_ext; [|done]. intros z Hz. apply O6. set_solver.
  - by rewrite ptr_N, R6.
  - by rewrite Hperm'.
  - by rewrite Hperm'.
Qed.

(** ** Balance *)

(** The colour of the root, and the number of black nodes on every way down. *)
Inductive balanced : tree -> color -> nat -> Prop :=
  | balanced_E : balanced E RB_BLACK 0
  | balanced_red l p r n : balanced l RB_BLACK n -> balanced r RB_BLACK n -> balanced (T RB_RED l p r) RB_RED n
  | balanced_black l p r cl cr n : balanced l cl n -> balanced r cr n -> balanced (T RB_BLACK l p r) RB_BLACK (S n).

(** What is around a hole for a tree of height [n]; [c] is the colour above it.
    A red node is never the root. *)
Inductive kbalanced : ctx -> color -> nat -> Prop :=
  | kbalanced_top n : kbalanced [] RB_BLACK n
  | kbalanced_red d p u f k n : balanced u RB_BLACK n -> kbalanced (f :: k) RB_BLACK n ->
      kbalanced (mkFrame d RB_RED p u :: f :: k) RB_RED n
  | kbalanced_black d p u cu k ck n : balanced u cu n -> kbalanced k ck (S n) ->
      kbalanced (mkFrame d RB_BLACK p u :: k) RB_BLACK n.
#[local] Hint Constructors balanced kbalanced : core.

Lemma balanced_N_red d t p u n : balanced t RB_BLACK n -> balanced u RB_BLACK n -> balanced (N d RB_RED t p u) RB_RED n.
Proof. destruct d; cbn; eauto. Qed.
Lemma balanced_N_black d t p u ct cu n : balanced t ct n -> balanced u cu n -> balanced (N d RB_BLACK t p u) RB_BLACK (S n).
Proof. destruct d; cbn; eauto. Qed.
#[local] Hint Resolve balanced_N_red balanced_N_black : core.

Lemma kbalanced_plug k c n : kbalanced k c n -> forall t ct, balanced t ct n -> (c = RB_RED -> ct = RB_BLACK) ->
  exists c' n', balanced (plug k t) c' n'.
Proof.
  induction 1 as [n|d p u f k n Hu Hk IH|d p u cu k ck n Hu Hk IH]; intros t ct Ht Hc; cbn [plug f_side f_color f_node f_tree]; [by exists ct, n| |].
  - rewrite Hc in Ht by done. apply (IH (N d RB_RED t p u) RB_RED); [by apply balanced_N_red|done].
  - apply (IH (N d RB_BLACK t p u) RB_BLACK); [by eapply balanced_N_black|done].
Qed.

Lemma kbalanced_plug_black k c n : kbalanced k c n -> forall t ct, balanced t ct n -> (c = RB_RED -> ct = RB_BLACK) ->
  (k = [] -> ct = RB_BLACK) -> exists n', balanced (plug k t) RB_BLACK n'.
Proof.
  induction 1 as [n|d p u f k n Hu Hk IH|d p u cu k ck n Hu Hk IH]; intros t ct Ht Hc Hr; cbn [plug f_side f_color f_node f_tree].
  - rewrite Hr in Ht by done. by exists n.
  - rewrite Hc in Ht by done. apply (IH (N d RB_RED t p u) RB_RED); [by apply balanced_N_red|done..].
  - apply (IH (N d RB_BLACK t p u) RB_BLACK); [by eapply balanced_N_black|done..].
Qed.

Lemma side_opp e d : e <> d -> e = opp d.
Proof. by destruct e, d. Qed.

Lemma N_opp d c t p u : N (opp d) c t p u = N d c u p t.
Proof. by destruct d. Qed.

Lemma N_any d e c t p u : exists a b, N e c t p u = N d c a p b.
Proof. destruct d, e; cbn; eauto. Qed.

Lemma T_N d c l p r : exists a b, T c l p r = N d c a p b.
Proof. apply (N_any d Left). Qed.

(** The order of the nodes. *)
Lemma elems_rotate d c a x e b y f : elems (N d c a x (N d e b y f)) = elems (N d e (N d c a x b) y f).
Proof. destruct d; cbn; by rewrite <- ?app_assoc. Qed.
Lemma elems_color d c c' t p u : elems (N d c t p u) = elems (N d c' t p u).
Proof. by destruct d. Qed.
Lemma elems_N_ext d c t t' p u u' : elems t = elems t' -> elems u = elems u' -> elems (N d c t p u) = elems (N d c t' p u').
Proof. intros. destruct d; cbn; congruence. Qed.
Lemma elems_plug_ext k t t' : elems t = elems t' -> elems (plug k t) = elems (plug k t').
Proof. intros E. by rewrite !elems_plug, E. Qed.

(** ** Insertion *)

(** The tree with the nodes [xs], which satisfies the colour rules and has a black root. *)
Definition is_tree (s : rb) (xs : list Z) : Prop :=
  exists t n, rep s [] t /\ balanced t RB_BLACK n /\ elems t = xs.

Lemma root_black s t c n : rep s [] t -> balanced t c n -> t <> E ->
  exists s', upd (rb_node s) (set_color RB_BLACK) s = Some s' /\ is_tree s' (elems t).
Proof.
  intros Hrep Hb Hne. destruct t as [|c0 l p r]; [done|]. rewrite (rep_root _ _ _ Hrep). cbn [kroot ptr].
  destruct (color_ok s [] Left c0 l p r RB_BLACK Hrep) as (s' & E & Hrep'). exists s'. split; [done|].
  inversion Hb; subst; eexists _, _; (split; [done|]); split; eauto.
Qed.

Lemma is_red_N s k d c t p u : rep s k (N d c t p u) -> is_red p s = Some (bool_decide (c = RB_RED)).
Proof.
  intros Hrep. unfold is_red. rewrite decide_False.
  - unfold get. rewrite (rep_get _ _ _ _ _ _ _ Hrep). cbn [mbind option_bind]. by rewrite color_entry.
  - pose proof (rep_pos _ _ _ Hrep) as H. rewrite elems_N in H. set_solver.
Qed.

Lemma is_red_ok s k t c n : rep s k t -> balanced t c n -> is_red (ptr t) s = Some (bool_decide (c = RB_RED)).
Proof.
  intros Hrep Hb. destruct t as [|c0 l p r]; [by inversion Hb|]. cbn [ptr]. rewrite (is_red_N s k Left c0 l p r Hrep). by inversion Hb.
Qed.

(** The parent of the hole, and its side. *)
Lemma rep_frame s d c p u k t : rep s (mkFrame d c p u :: k) t ->
  p <> 0 /\ nodes s !! p = Some (entry d c (kptr k) (ptr t) (ptr u)).
Proof. intros H. split; [|apply H]. pose proof (rep_pos _ _ _ H) as H0. cbn in H0. set_solver. Qed.

Lemma sibling_ne s d c p u k t : rep s (mkFrame d c p u :: k) t -> t <> E \/ u <> E -> ptr t <> ptr u.
Proof.
  intros H Hne. pose proof (rep_pos _ _ _ H) as H0. pose proof (rep_nodup _ _ _ H) as Hd. cbn [kelems f_node f_tree] in *.
  rewrite NoDup_app in Hd. destruct Hd as (_ & Hd & _).
  destruct t as [|? ? x ?], u as [|? ? y ?]; cbn [ptr elems] in *; [naive_solver|set_solver..].
Qed.

Lemma hole_side s d c p u k t q : rep s (mkFrame d c p u :: k) t -> t <> E \/ u <> E ->
  (if decide (ptr t = rb_left (entry d c q (ptr t) (ptr u))) then Left else Right) = d.
Proof.
  intros H Hne. pose proof (sibling_ne _ _ _ _ _ _ _ H Hne). destruct d; cbn; [by rewrite decide_True | by rewrite decide_False].
Qed.

Lemma N_ne d c t p u : N d c t p u <> E.
Proof. by destruct d. Qed.

(** The loop ends below a black node. *)
Lemma insert_loop_black fuel s k t l x r n : t = T RB_RED l x r -> rep s k t -> balanced t RB_RED n -> kbalanced k RB_BLACK n ->
  exists s', insert_loop (S fuel) x s = Some s' /\ is_tree s' (elems (plug k t)).
Proof.
  intros -> Hrep Hb Hk. cbn [insert_loop]. unfold get. rewrite (rep_get s k Left RB_RED l x r Hrep). cbn [mbind option_bind].
  rewrite parent_entry. assert (Hred : is_red (kptr k) s = Some false).
  { unfold is_red. destruct k as [|[d c p u] k]; [by rewrite decide_True|]. cbn [kptr f_node].
    destruct (rep_frame _ _ _ _ _ _ _ Hrep) as [Hp0 Hp]. rewrite decide_False by done. unfold get. rewrite Hp. cbn [mbind option_bind].
    rewrite color_entry. by inversion Hk. }
  rewrite Hred. cbn [mbind option_bind].
  destruct (kbalanced_plug k _ n Hk _ _ Hb) as (c' & n' & Hb'); [done|].
  destruct (root_black s (plug k (T RB_RED l x r)) c' n') as (s' & E & Hs'); [by apply rep_plug | done | | by exists s'].
  intros Hz. apply (f_equal elems) in Hz. rewrite elems_plug in Hz. cbn in Hz. by destruct (before k), (elems l).
Qed.

(** The node [x], at the side [d] of its parent, is below its grandparent [g]; the uncle is black. *)
Lemma insert_rotations d s k g w cw a x b q c n : rep s k (N d RB_BLACK (N d RB_RED (N d RB_RED a x b) q c) g w) ->
  balanced a RB_BLACK n -> balanced b RB_BLACK n -> balanced c RB_BLACK n -> balanced w RB_BLACK n -> kbalanced k cw (S n) ->
  exists s', (forall K : rb -> option rb,
      (s ← upd q (set_color RB_BLACK) s; s ← upd g (set_color RB_RED) s; s ← rb_rotate (opp d) g s; K s) = K s') /\
    rep s' (mkFrame d RB_BLACK q (N (opp d) RB_RED w g c) :: k) (N d RB_RED a x b) /\
    kbalanced (mkFrame d RB_BLACK q (N (opp d) RB_RED w g c) :: k) RB_BLACK n /\
    elems (plug (mkFrame d RB_BLACK q (N (opp d) RB_RED w g c) :: k) (N d RB_RED a x b)) =
    elems (plug k (N d RB_BLACK (N d RB_RED (N d RB_RED a x b) q c) g w)).
Proof.
  intros Hrep Ha Hb Hc Hw Hk. apply rep_down in Hrep.
  destruct (color_ok _ _ _ _ _ _ _ RB_BLACK Hrep) as (s1 & E1 & Hrep1). apply rep_up in Hrep1.
  destruct (color_ok _ _ _ _ _ _ _ RB_RED Hrep1) as (s2 & E2 & Hrep2).
  rewrite <- (N_opp d RB_RED w), <- (N_opp d RB_BLACK c) in Hrep2.
  destruct (rotate_ok _ _ _ _ _ _ _ _ _ _ Hrep2) as (s3 & E3 & Hrep3). exists s3.
  split; [intros K; rewrite E1; cbn [mbind option_bind]; rewrite E2; cbn [mbind option_bind]; by rewrite E3|].
  split_and!.
  - apply rep_down. by rewrite <- (N_opp d RB_BLACK).
  - eapply kbalanced_black; [|done]. by apply balanced_N_red.
  - cbn [plug f_side f_color f_node f_tree]. apply elems_plug_ext.
    rewrite <- (N_opp d RB_BLACK (N (opp d) RB_RED w g c)), <- elems_rotate. rewrite (N_opp d RB_BLACK), (N_opp d RB_RED w).
    rewrite (elems_color d RB_RED RB_BLACK). apply elems_N_ext; [|done]. apply elems_color.
Qed.

(** The uncle is red: the colours change, and the loop goes on two levels up. *)
Lemma insert_recolor d e s k g w x p u n : rep s k (N d RB_BLACK (N e RB_RED x p u) g w) -> balanced w RB_RED n ->
  exists s' w', (forall K : rb -> option rb,
      (s ← upd (ptr w) (set_color RB_BLACK) s; s ← upd p (set_color RB_BLACK) s; s ← upd g (set_color RB_RED) s; K s) = K s') /\
    rep s' k (N d RB_RED (N e RB_BLACK x p u) g w') /\ balanced w' RB_BLACK (S n) /\ elems w' = elems w.
Proof.
  intros Hrep Hw. inversion Hw as [|wl wp wr ? Hwl Hwr|]; subst. cbn [ptr]. rewrite <- N_opp in Hrep. apply rep_down in Hrep.
  destruct (color_ok _ _ Left _ _ _ _ RB_BLACK Hrep) as (s1 & E1 & Hrep1). apply rep_up in Hrep1. rewrite N_opp in Hrep1. apply rep_down in Hrep1.
  destruct (color_ok _ _ _ _ _ _ _ RB_BLACK Hrep1) as (s2 & E2 & Hrep2). apply rep_up in Hrep2.
  destruct (color_ok _ _ _ _ _ _ _ RB_RED Hrep2) as (s3 & E3 & Hrep3).
  exists s3, (T RB_BLACK wl wp wr). split; [intros K; rewrite E1; cbn [mbind option_bind]; rewrite E2; cbn [mbind option_bind]; by rewrite E3|].
  split_and!; [done | eauto | done].
Qed.

(** A red node on a red node at the side [d] of [g], whose other child is black. *)
Definition red_red (s : rb) (k : ctx) (d : side) (g : Z) (w a : tree) (y : Z) (b : tree) (q : Z) (v : tree) (n : nat) : Prop :=
  rep s k (N d RB_BLACK (N d RB_RED (N d RB_RED a y b) q v) g w) /\ balanced a RB_BLACK n /\ balanced b RB_BLACK n /\ balanced v RB_BLACK n.

(** The inner rotation, where it is needed. *)
Lemma insert_inner d e s k g w l x r p u n : rep s k (N d RB_BLACK (N e RB_RED (T RB_RED l x r) p u) g w) ->
  balanced l RB_BLACK n -> balanced r RB_BLACK n -> balanced u RB_BLACK n ->
  exists s' a y b q v, red_red s' k d g w a y b q v n /\
    (if decide (child (opp d) (entry e RB_RED g x (ptr u)) = x) then s ← rb_rotate d p s; Some (x, p, s)
     else Some (p, x, s)) = Some (q, y, s') /\
    elems (N d RB_BLACK (N d RB_RED (N d RB_RED a y b) q v) g w) = elems (N d RB_BLACK (N e RB_RED (T RB_RED l x r) p u) g w).
Proof.
  intros Hrep Hl Hr Hu. destruct (T_N d RB_RED l x r) as (a & b & Et). rewrite Et in *.
  assert (Hab : balanced a RB_BLACK n /\ balanced b RB_BLACK n) by (destruct d; cbn in Et; injection Et as -> ->; done).
  destruct Hab as [Ha Hb]. apply rep_down in Hrep. destruct (decide (e = d)) as [->|Hed].
  - rewrite child_opp_entry. rewrite decide_False.
    2: { apply rep_down, sibling_ne in Hrep; [|left; apply N_ne]. rewrite ptr_N in Hrep. congruence. }
    exists s, a, x, b, p, u. split_and!; [|done..]. split; [by apply rep_up | done].
  - apply side_opp in Hed as ->. rewrite child_entry, decide_True by done. rewrite N_opp in Hrep.
    destruct (rotate_ok _ _ _ _ _ _ _ _ _ _ Hrep) as (s' & E & Hrep'). exists s', u, p, a, x, b. split_and!.
    + split; [by apply rep_up | done].
    + by rewrite E.
    + apply elems_N_ext; [|done]. rewrite N_opp. symmetry. apply elems_rotate.
Qed.

Lemma insert_loop_ok fuel : forall s k t n c, (length k + 2 <= fuel)%nat -> rep s k t -> balanced t RB_RED n -> kbalanced k c n ->
  exists s', insert_loop fuel (ptr t) s = Some s' /\ is_tree s' (elems (plug k t)).
Proof.
  induction fuel as [|fuel IH]; intros s k t n c Hfuel Hrep Hb Hk; [lia|].
  inversion Hk as [|e p u [d gc g w] k' ? Hu Hk'|]; subst; inversion Hb as [|l x r ? Hl Hr|]; subst.
  - by eapply insert_loop_black.
  - inversion Hk' as [|?|? ? ? cw ? ck ? Hw Hk'']; subst. cbn [ptr insert_loop]. unfold get.
    rewrite (rep_get _ _ Left _ _ _ _ Hrep). cbn [mbind option_bind]. rewrite parent_entry. cbn [kptr f_node].
    destruct (rep_frame _ _ _ _ _ _ _ Hrep) as [Hp0 Hp]. pose proof (rep_up _ _ _ _ _ _ _ Hrep) as Hrep1.
    destruct (rep_frame _ _ _ _ _ _ _ Hrep1) as [Hg0 Hg]. pose proof (rep_up _ _ _ _ _ _ _ Hrep1) as Hrep2.
    pose proof (hole_side _ _ _ _ _ _ _ (kptr k') Hrep1 (or_introl (N_ne e RB_RED (T RB_RED l x r) p u))) as Hside. rewrite ptr_N in *.
    rewrite (is_red_N _ _ _ _ _ _ _ Hrep1). cbn [mbind option_bind]. rewrite bool_decide_true by done. rewrite Hp. cbn [mbind option_bind]. rewrite parent_entry. cbn [kptr f_node]. rewrite Hg. cbn [mbind option_bind].
    replace (decide (p = rb_left _)) with (decide (p = rb_left (entry d RB_BLACK (kptr k') p (ptr w)))) by done. rewrite Hside, child_opp_entry.
    pose proof Hrep2 as Hrepw. rewrite <- N_opp in Hrepw. apply rep_down in Hrepw. rewrite (is_red_ok _ _ _ _ _ Hrepw Hw). cbn [mbind option_bind].
    destruct (decide (cw = RB_RED)) as [->|Hcw].
    + rewrite bool_decide_true by done. destruct (insert_recolor _ _ _ _ _ _ _ _ _ _ Hrep2 Hw) as (s3 & w' & E & Hrep3 & Hw' & Ew).
      rewrite E. destruct (IH s3 k' (N d RB_RED (N e RB_BLACK (T RB_RED l x r) p u) g w') (S n) ck) as (s' & E' & Hs'); [cbn in Hfuel; lia | done | | done|].
      * apply balanced_N_red; [by eapply balanced_N_black | done].
      * rewrite ptr_N in E'. exists s'. split; [done|]. cbn [plug f_side f_color f_node f_tree]. rewrite (elems_plug_ext k' _ (N d RB_RED (N e RB_BLACK (T RB_RED l x r) p u) g w')); [done|].
        rewrite (elems_color d RB_BLACK RB_RED). apply elems_N_ext; [apply elems_color | done].
    + rewrite bool_decide_false by done. assert (cw = RB_BLACK) as -> by (by destruct cw).
      destruct fuel as [|fuel]; [cbn in Hfuel; lia|].
      destruct (insert_inner _ _ _ _ _ _ _ _ _ _ _ _ Hrep2 Hl Hr Hu) as (s3 & a & y & b & q & v & (Hrep3 & Ha & Hb' & Hv) & E & Ee).
      cbn [kptr f_node ptr]. rewrite E. cbn [mbind option_bind]. destruct (insert_rotations _ _ _ _ _ _ _ _ _ _ _ _ Hrep3 Ha Hb' Hv Hw Hk'') as (s4 & E4 & Hrep4 & Hk4 & Ee4). rewrite E4.
      destruct (N_any Left d RB_RED a y b) as (a' & b' & Et). rewrite Et in *.
      edestruct insert_loop_black as (s5 & E5 & Hs5); [reflexivity | exact Hrep4 | exact (eq_ind _ (fun t => balanced t RB_RED n) (balanced_N_red d a y b n Ha Hb') _ Et) | exact Hk4 |].
      exists s5. split; [done|]. cbn [plug f_side f_color f_node f_tree]. rewrite <- (elems_plug_ext k' _ _ Ee).
      change (T RB_RED a' y b') with (N Left RB_RED a' y b') in Hs5. by rewrite Ee4 in Hs5.
  - by eapply insert_loop_black.
Qed.

(** ** Insertion of a node *)

Lemma balanced_plug k : forall t n, balanced (plug k t) RB_BLACK n ->
  exists c ct m, kbalanced k c m /\ balanced t ct m /\ (c = RB_RED -> ct = RB_BLACK).
Proof.
  induction k as [|[d c p u] k IH]; intros t n Hb; cbn [plug f_side f_color f_node f_tree] in Hb; [by exists RB_BLACK, RB_BLACK, n; eauto|].
  destruct (IH _ _ Hb) as (c0 & ct0 & m & Hk & Ht & Hc). assert (Hsub : exists m', (c = RB_RED /\ balanced t RB_BLACK m /\ balanced u RB_BLACK m /\ ct0 = RB_RED) \/
    (c = RB_BLACK /\ exists ct cu, m = S m' /\ balanced t ct m' /\ balanced u cu m')).
  { destruct d; cbn in Ht; inversion Ht; subst; (exists m || eexists); by eauto 10. }
  destruct Hsub as (m' & [(-> & H1 & H2 & ->)|(-> & ct & cu & -> & H1 & H2)]).
  - destruct c0; [by specialize (Hc eq_refl)|]. exists RB_RED, RB_BLACK, m. split_and!; [|done..].
    destruct k as [|f k]; [|by constructor]. cbn in Hb. destruct d; inversion Hb.
  - exists RB_BLACK, ct, m'. split_and!; [by econstructor|done..].
Qed.

Lemma linked_dom m t q p : linked m t q -> p ∈ elems t -> is_Some (m !! p).
Proof.
  revert q. induction t as [|c l IHl x r IHr]; intros q Hl Hp; cbn in *; [by apply not_elem_of_nil in Hp|]. destruct Hl as (Hx & Hl & Hr).
  apply elem_of_app in Hp as [Hp|Hp]; [by eapply IHl|]. apply elem_of_cons in Hp as [->|Hp]; [by eexists | by eapply IHr].
Qed.

Lemma klinked_dom m k h p : klinked m k h -> p ∈ kelems k -> is_Some (m !! p).
Proof.
  revert h. induction k as [|[d c x u] k IH]; intros h Hk Hp; cbn in *; [by apply not_elem_of_nil in Hp|]. destruct Hk as (Hx & Hu & Hk).
  apply elem_of_cons in Hp as [->|Hp]; [by eexists|]. apply elem_of_app in Hp as [Hp|Hp]; [by eapply linked_dom | by eapply IH].
Qed.

Lemma nodup_size (m : gmap Z node) (l : list Z) : NoDup l -> (forall p, p ∈ l -> is_Some (m !! p)) -> (length l <= size m)%nat.
Proof.
  intros Hd Hin. rewrite <- size_dom, <- (size_list_to_set (C := gset Z) l) by done. apply subseteq_size.
  intros p Hp. apply elem_of_list_to_set in Hp. by apply elem_of_dom, Hin.
Qed.

Lemma length_kelems k : (length k <= length (kelems k))%nat.
Proof. induction k as [|[d c p u] k IH]; cbn; [done|]. rewrite length_app. lia. Qed.

Lemma rep_depth s k t : rep s k t -> (length k + length (elems t) <= size (nodes s))%nat.
Proof.
  intros [H1 H2 _ H4 _]. etransitivity; [|apply (nodup_size _ _ H4)].
  - rewrite length_app. pose proof (length_kelems k). lia.
  - intros p Hp. apply elem_of_app in Hp as [Hp|Hp]; [by eapply linked_dom | by eapply klinked_dom].
Qed.

Lemma link_ok s k x : rep s k E -> x <> 0 -> x ∉ kelems k -> is_Some (nodes s !! x) ->
  exists s', rb_link_node x (kptr k) (f_side <$> head k) s = Some s' /\ rep s' k (T RB_RED E x E).
Proof.
  intros [_ H2 H3 H4 H5] Hx Hxk [nx Hnx]. unfold rb_link_node. cbn [elems app] in *.
  destruct (upd_ok x (fun _ => mkNode (kptr k) 0 0 RB_RED) s nx Hnx) as (s1 & -> & Hx1 & R1 & O1). cbn [mbind option_bind].
  destruct k as [|[d c p u] k]; cbn [head fmap option_fmap option_map f_side kptr f_node] in *.
  - eexists. split; [done|]. split; cbn; [done..| |]; [by apply NoDup_singleton | set_solver].
  - cbn [kelems f_node f_tree klinked f_side f_color ptr] in *. destruct H2 as (Hp & Hu & Hk). rewrite NoDup_cons in H4. destruct H4 as [Hpn H4].
    assert (Hp1 : nodes s1 !! p = Some (entry d c (kptr k) 0 (ptr u))) by (rewrite O1 by set_solver; done).
    destruct (upd_ok p (set_child d x) s1 _ Hp1) as (s2 & -> & Hp2 & R2 & O2). rewrite set_child_entry in Hp2. exists s2. split; [done|].
    split; cbn [linked klinked f_node f_side f_color f_tree ptr kptr elems kelems app].
    + split; [rewrite O2 by set_solver; done | done].
    + split_and!; [done | |]; [eapply tree_linked_ext; [|done] | eapply klinked_ext; [|done]]; intros z Hz; rewrite O2, O1 by set_solver; done.
    + by rewrite R2, R1.
    + rewrite !NoDup_cons. split_and!; [set_solver..|done].
    + set_solver.
Qed.

(** A new node is linked at a hole and the colours are put right. *)
Lemma rb_insert_ok s k x n : rep s k E -> balanced (plug k E) RB_BLACK n -> x <> 0 -> x ∉ kelems k -> is_Some (nodes s !! x) ->
  exists s', (s ← rb_link_node x (kptr k) (f_side <$> head k) s; rb_insert_color x s) = Some s' /\ is_tree s' (before k ++ x :: after k).
Proof.
  intros Hrep Hb Hx Hxk Hn. destruct (link_ok s k x Hrep Hx Hxk Hn) as (s1 & -> & Hrep1). cbn [mbind option_bind].
  destruct (balanced_plug k E n Hb) as (c & ct & m & Hk & Ht & _). inversion Ht; subst.
  unfold rb_insert_color. destruct (insert_loop_ok (fuel_of s1) s1 k (T RB_RED E x E) 0 c) as (s2 & E2 & Hs2); [|done|by eauto|done|].
  - pose proof (rep_depth _ _ _ Hrep1) as Hd. cbn in Hd. unfold fuel_of. lia.
  - exists s2. split; [done|]. by rewrite elems_plug in Hs2.
Qed.

(** ** Deletion *)

(** A tree that lacks a black node: it is black, or its root can be made black. *)
Definition short (t : tree) (n : nat) : Prop :=
  balanced t RB_BLACK n \/ exists l p r cl cr, t = T RB_RED l p r /\ balanced l cl n /\ balanced r cr n.

(** The loop ends at a red node, or at the root. *)
Lemma erase_exit fuel s k t n c : rep s k t -> short t n -> kbalanced k c (S n) -> k = [] \/ ~ balanced t RB_BLACK n ->
  exists s', erase_loop (S fuel) (ptr t) (kptr k) s = Some s' /\ is_tree s' (elems (plug k t)).
Proof.
  intros Hrep [Hb|(l & p & r & cl & cr & -> & Hl & Hr)] Hk Hexit; cbn [erase_loop].
  - destruct Hexit as [->|]; [|done]. rewrite (is_red_ok _ _ _ _ _ Hrep Hb). cbn [mbind option_bind]. rewrite (rep_root _ _ _ Hrep). cbn [kroot].
    rewrite (bool_decide_true (ptr t = ptr t)), andb_false_r by done. case_decide as Hz.
    + exists s. split; [done|]. cbn [plug]. by exists t, n.
    + rewrite <- (rep_root _ _ _ Hrep : rb_node s = ptr t). cbn [plug]. eapply root_black; [done..|]. by intros ->.
  - change (T RB_RED l p r) with (N Left RB_RED l p r) in Hrep. cbn [ptr]. rewrite (is_red_N _ _ _ _ _ _ _ Hrep). cbn [mbind option_bind].
    rewrite bool_decide_true by done. cbn [negb andb]. rewrite decide_False.
    2: { pose proof (rep_pos _ _ _ Hrep) as H0. cbn in H0. set_solver. }
    destruct (color_ok _ _ _ _ _ _ _ RB_BLACK Hrep) as (s' & -> & Hrep'). exists s'. split; [done|].
    assert (Hb : balanced (T RB_BLACK l p r) RB_BLACK (S n)) by eauto.
    destruct (kbalanced_plug_black k c (S n) Hk _ _ Hb) as (n' & Hb'); [done..|].
    exists (plug k (T RB_BLACK l p r)), n'. split_and!; [by apply rep_plug | done | by apply elems_plug_ext].
Qed.

Lemma black_inv d u n : balanced u RB_BLACK (S n) -> exists a p b ca cb, u = N d RB_BLACK a p b /\ balanced a ca n /\ balanced b cb n.
Proof. intros Hb. inversion Hb; subst. destruct d; [by eauto 10|]. by exists r, p, l, cr, cl. Qed.

Lemma red_inv d u n : balanced u RB_RED n -> exists a p b, u = N d RB_RED a p b /\ balanced a RB_BLACK n /\ balanced b RB_BLACK n.
Proof. intros Hb. inversion Hb; subst. destruct d; [by eauto 10|]. by exists r, p, l. Qed.

(** A step on the other child of the parent of the hole. *)
Lemma at_sibling s d c p u u' k t (step : rb -> option rb) :
  (forall k, rep s k u -> exists s', step s = Some s' /\ rep s' k u') -> rep s (mkFrame d c p u :: k) t ->
  exists s', step s = Some s' /\ rep s' (mkFrame d c p u' :: k) t.
Proof.
  intros Hstep Hrep. apply rep_up in Hrep. rewrite <- N_opp in Hrep. apply rep_down in Hrep.
  destruct (Hstep _ Hrep) as (s1 & E & Hrep1). exists s1. split; [done|]. apply rep_up in Hrep1. rewrite N_opp in Hrep1. by apply rep_down.
Qed.

Lemma erase_sibling d s k cp p u t c0 n : rep s (mkFrame d cp p u :: k) t -> kbalanced (mkFrame d cp p u :: k) c0 (S n) ->
  exists s' k' cp' u1 up u2 c1 c2,
    (red ← is_red (ptr u) s; if red : bool then rotate_red d p (ptr u) s else Some (ptr u, s)) = Some (up, s') /\
    rep s' (mkFrame d cp' p (N d RB_BLACK u1 up u2) :: k') t /\
    kbalanced (mkFrame d cp' p (N d RB_BLACK u1 up u2) :: k') cp' (S n) /\ balanced u1 c1 n /\ balanced u2 c2 n /\
    elems (plug (mkFrame d cp' p (N d RB_BLACK u1 up u2) :: k') t) = elems (plug (mkFrame d cp p u :: k) t) /\
    (cp' = RB_RED \/ k' = k).
Proof.
  intros Hrep Hk. assert (Hred : forall cu m, balanced u cu m -> is_red (ptr u) s = Some (bool_decide (cu = RB_RED))).
  { intros cu m Hu. pose proof (rep_up _ _ _ _ _ _ _ Hrep) as H. rewrite <- N_opp in H. apply rep_down in H. by eapply is_red_ok. }
  assert (Hu : (exists cu, balanced u cu (S n) /\ (cp = RB_RED -> cu = RB_BLACK) /\ c0 = cp)).
  { inversion Hk as [|? ? ? ? ? ? Hu Hk'|? ? ? cu ? ck ? Hu Hk']; subst; [by exists RB_BLACK | by exists cu]. }
  destruct Hu as ([|] & Hu & Hcp & ->); rewrite (Hred _ _ Hu); cbn [mbind option_bind].
  - rewrite bool_decide_true by done. destruct cp; [by specialize (Hcp eq_refl)|].
    destruct (red_inv d _ _ Hu) as (u1 & up & u2 & -> & Hu1 & Hu2). rewrite ptr_N. unfold rotate_red.
    destruct (at_sibling s d RB_BLACK p (N d RB_RED u1 up u2) (N d RB_BLACK u1 up u2) k t (upd up (set_color RB_BLACK))) as (s1 & -> & Hrep1);
      [intros ? ?; by eapply color_ok | done|]. cbn [mbind option_bind]. apply rep_up in Hrep1.
    destruct (color_ok _ _ _ _ _ _ _ RB_RED Hrep1) as (s2 & -> & Hrep2). cbn [mbind option_bind].
    destruct (rotate_ok _ _ _ _ _ _ _ _ _ _ Hrep2) as (s3 & -> & Hrep3). cbn [mbind option_bind].
    apply rep_down, rep_down in Hrep3. unfold get. destruct (rep_frame _ _ _ _ _ _ _ Hrep3) as [_ ->]. cbn [mbind option_bind]. rewrite child_opp_entry.
    destruct (black_inv d _ _ Hu1) as (v1 & q & v2 & c1 & c2 & -> & Hv1 & Hv2). rewrite ptr_N.
    eexists s3, _, RB_RED, v1, q, v2, c1, c2. split; [done|]. split; [done|]. split_and!; [|done|done| |by left].
    + inversion Hk; subst. constructor; [done|]. by econstructor.
    + cbn [plug f_side f_color f_node f_tree]. apply elems_plug_ext. rewrite <- elems_rotate. rewrite (elems_color d RB_RED RB_BLACK).
      apply elems_N_ext; [done|]. apply elems_color.
  - rewrite bool_decide_false by done. destruct (black_inv d _ _ Hu) as (u1 & up & u2 & c1 & c2 & -> & Hu1 & Hu2).
    rewrite ptr_N. by exists s, k, cp, u1, up, u2, c1, c2; split_and!; [done..|by right].
Qed.

Lemma rotate_near_ok d s k cp p u1 up u2 t c1 c2 n : rep s (mkFrame d cp p (N d RB_BLACK u1 up u2) :: k) t ->
  balanced u1 c1 n -> balanced u2 c2 n -> c1 = RB_RED \/ c2 = RB_RED ->
  exists s' w o x1 y x2 cw, rotate_near d p up s = Some (o, s') /\
    rep s' (mkFrame d cp p (N d RB_BLACK w o (N d RB_RED x1 y x2)) :: k) t /\
    balanced w cw n /\ balanced x1 RB_BLACK n /\ balanced x2 RB_BLACK n /\
    elems (N d RB_BLACK w o (N d RB_RED x1 y x2)) = elems (N d RB_BLACK u1 up u2).
Proof.
  intros Hrep H1 H2 Hc. pose proof (rep_up _ _ _ _ _ _ _ Hrep) as Hu. rewrite <- N_opp in Hu. apply rep_down in Hu.
  unfold rotate_near, get. rewrite (rep_get _ _ _ _ _ _ _ Hu). cbn [mbind option_bind]. rewrite child_opp_entry, child_entry.
  pose proof Hu as Hfar. rewrite <- N_opp in Hfar. apply rep_down in Hfar. rewrite (is_red_ok _ _ _ _ _ Hfar H2). cbn [mbind option_bind].
  destruct c2.
  - rewrite bool_decide_true by done. destruct (red_inv d _ _ H2) as (x1 & y & x2 & -> & Hx1 & Hx2).
    by exists s, u1, up, x1, y, x2, c1.
  - rewrite bool_decide_false by done. assert (c1 = RB_RED) as -> by (by destruct Hc). destruct (red_inv d _ _ H1) as (v1 & q & v2 & -> & Hv1 & Hv2).
    rewrite ptr_N. rewrite decide_False.
    2: { pose proof (rep_pos _ _ _ (rep_down _ _ _ _ _ _ _ Hu)) as H0. rewrite elems_N in H0. set_solver. }
    destruct (at_sibling s d cp p (N d RB_BLACK (N d RB_RED v1 q v2) up u2) (N d RB_BLACK (N d RB_BLACK v1 q v2) up u2) k t (upd q (set_color RB_BLACK)))
      as (s1 & -> & Hrep1); [intros k0 Hk0; apply rep_down in Hk0; destruct (color_ok _ _ _ _ _ _ _ RB_BLACK Hk0) as (s1 & E & Hs1);
        exists s1; split; [done|by apply rep_up] | done|]. cbn [mbind option_bind].
    destruct (at_sibling s1 d cp p (N d RB_BLACK (N d RB_BLACK v1 q v2) up u2) (N d RB_RED (N d RB_BLACK v1 q v2) up u2) k t (upd up (set_color RB_RED))
      ltac:(intros ? ?; by eapply color_ok) Hrep1) as (s2 & -> & Hrep2). cbn [mbind option_bind].
    destruct (at_sibling s2 d cp p (N d RB_RED (N d RB_BLACK v1 q v2) up u2) (N d RB_BLACK v1 q (N d RB_RED v2 up u2)) k t (rb_rotate (opp d) up)) with (2 := Hrep2) as (s3 & -> & Hrep3).
    { intros k0 Hk0. rewrite <- (N_opp d RB_RED), <- (N_opp d RB_BLACK) in Hk0. destruct (rotate_ok _ _ _ _ _ _ _ _ _ _ Hk0) as (s3 & E & Hs3).
      exists s3. split; [done|]. by rewrite !N_opp in Hs3. }
    cbn [mbind option_bind]. destruct (rep_frame _ _ _ _ _ _ _ Hrep3) as [_ ->]. cbn [mbind option_bind]. rewrite child_opp_entry, ptr_N.
    exists s3, v1, q, v2, up, u2, RB_BLACK. split_and!; try done. rewrite elems_rotate. rewrite (elems_color d RB_RED RB_BLACK).
    apply elems_N_ext; [apply elems_color|done].
Qed.

Lemma erase_rotate_ok d s k cp p u1 up u2 t c1 c2 n : rep s (mkFrame d cp p (N d RB_BLACK u1 up u2) :: k) t ->
  balanced t RB_BLACK n -> balanced u1 c1 n -> balanced u2 c2 n -> c1 = RB_RED \/ c2 = RB_RED ->
  exists s' t', erase_rotate d p up s = Some s' /\ rep s' k t' /\ (forall c0, kbalanced (mkFrame d cp p (N d RB_BLACK u1 up u2) :: k) c0 (S n) ->
      exists m c', kbalanced k c' m /\ balanced t' cp m /\ (c' = RB_RED -> cp = RB_BLACK)) /\
    elems t' = elems (N d cp t p (N d RB_BLACK u1 up u2)) /\ t' <> E.
Proof.
  intros Hrep Ht H1 H2 Hc. destruct (rotate_near_ok d s k cp p u1 up u2 t c1 c2 n Hrep H1 H2 Hc) as (s1 & w & o & x1 & y & x2 & cw & E & Hrep1 & Hw & Hx1 & Hx2 & Ee).
  unfold erase_rotate. rewrite E. cbn [mbind option_bind]. unfold get. destruct (rep_frame _ _ _ _ _ _ _ Hrep1) as [_ ->]. cbn [mbind option_bind].
  rewrite color_entry.
  destruct (at_sibling s1 d cp p (N d RB_BLACK w o (N d RB_RED x1 y x2)) (N d cp w o (N d RB_RED x1 y x2)) k t (upd o (set_color cp))
    ltac:(intros ? ?; by eapply color_ok) Hrep1) as (s2 & -> & Hrep2). cbn [mbind option_bind]. apply rep_up in Hrep2.
  destruct (color_ok _ _ _ _ _ _ _ RB_BLACK Hrep2) as (s3 & -> & Hrep3). cbn [mbind option_bind]. apply rep_down in Hrep3.
  pose proof (rep_up _ _ _ _ _ _ _ Hrep3) as Ho. rewrite <- N_opp in Ho. apply rep_down in Ho. rewrite (rep_get _ _ _ _ _ _ _ Ho). cbn [mbind option_bind].
  rewrite child_opp_entry, ptr_N, decide_False.
  2: { rewrite <- N_opp in Ho. apply rep_down in Ho. pose proof (rep_pos _ _ _ Ho) as H0. rewrite elems_N in H0. set_solver. }
  destruct (at_sibling s3 d RB_BLACK p (N d cp w o (N d RB_RED x1 y x2)) (N d cp w o (N d RB_BLACK x1 y x2)) k t (upd y (set_color RB_BLACK))) with (2 := Hrep3)
    as (s4 & -> & Hrep4).
  { intros k0 Hk0. rewrite <- N_opp in Hk0. apply rep_down in Hk0. destruct (color_ok _ _ _ _ _ _ _ RB_BLACK Hk0) as (s4 & E4 & Hs4).
    exists s4. split; [done|]. apply rep_up in Hs4. by rewrite N_opp in Hs4. }
  cbn [mbind option_bind]. apply rep_up in Hrep4. destruct (rotate_ok _ _ _ _ _ _ _ _ _ _ Hrep4) as (s5 & -> & Hrep5).
  eexists s5, _. split; [done|]. split; [done|]. split_and!; [|rewrite <- elems_rotate|apply N_ne].
  - intros c0 Hk. inversion Hk as [|? ? ? f k' ? Hu Hk'|? ? ? cu ? ck ? Hu Hk']; subst.
    + exists (S n), RB_BLACK. split_and!; [done| |done]. apply balanced_N_red; by eapply balanced_N_black.
    + exists (S (S n)), ck. split_and!; [done| |done]. by eapply balanced_N_black; eapply balanced_N_black.
  - rewrite (elems_color d RB_BLACK cp). apply elems_N_ext; [done|]. rewrite (elems_color d cp RB_BLACK), <- Ee.
    apply elems_N_ext; [done|]. apply elems_color.
Qed.

Lemma erase_side s d c p u k t q : rep s (mkFrame d c p u :: k) t -> u <> E ->
  (if decide (rb_left (entry d c q (ptr t) (ptr u)) = ptr t) then Left else Right) = d.
Proof.
  intros H Hne. pose proof (sibling_ne _ _ _ _ _ _ _ H (or_intror Hne)).
  destruct d; cbn; [by rewrite decide_True | by rewrite decide_False].
Qed.

Lemma kroot_in k h : kroot k h ∈ h :: kelems k.
Proof. revert h. induction k as [|[d c p u] k IH]; intros h; cbn [kroot kelems f_node f_tree]; [by left|]. specialize (IH p). set_solver. Qed.

Lemma hole_not_root s d c p u k t : rep s (mkFrame d c p u :: k) t -> ptr t <> rb_node s.
Proof.
  intros H. rewrite (rep_root _ _ _ H). cbn [kroot f_node]. pose proof (kroot_in k p) as Hin.
  pose proof (rep_pos _ _ _ H) as H0. pose proof (rep_nodup _ _ _ H) as Hd. cbn [kelems f_node f_tree] in *.
  rewrite NoDup_app in Hd. destruct Hd as (_ & Hd & _). destruct t as [|? ? x ?]; cbn [ptr elems] in *; intros E; rewrite <- E in Hin; set_solver.
Qed.

Lemma erase_loop_ok fuel : forall s k t n c, (length k + 2 <= fuel)%nat -> rep s k t -> short t n -> kbalanced k c (S n) ->
  exists s', erase_loop fuel (ptr t) (kptr k) s = Some s' /\ is_tree s' (elems (plug k t)).
Proof.
  induction fuel as [|fuel IH]; intros s k t n c Hfuel Hrep Hs Hk; [lia|].
  destruct (decide (k = [])) as [->|Hne]; [by eapply erase_exit; [..|left]|]. destruct Hs as [Hb|Hs].
  2: { eapply erase_exit; [done|by right|done|]. right. destruct Hs as (? & ? & ? & ? & ? & -> & _). intros Hb. inversion Hb. }
  destruct k as [|[d cp p u] k]; [done|]. cbn [erase_loop kptr f_node]. rewrite (is_red_ok _ _ _ _ _ Hrep Hb). cbn [mbind option_bind].
  rewrite (bool_decide_false (RB_BLACK = RB_RED)), (bool_decide_false (ptr t = rb_node s)) by (done || by eapply hole_not_root). cbn [negb andb].
  unfold get. destruct (rep_frame _ _ _ _ _ _ _ Hrep) as [Hp0 Hp]. rewrite Hp. cbn [mbind option_bind]. rewrite (erase_side _ _ _ _ _ _ _ _ Hrep).
  2: { intros ->. inversion Hk as [|? ? ? ? ? ? Hu|? ? ? ? ? ? ? Hu]; inversion Hu. }
  rewrite child_opp_entry. destruct (erase_sibling _ _ _ _ _ _ _ _ _ Hrep Hk) as (s1 & k' & cp' & u1 & up & u2 & c1 & c2 & Esib & Hrep1 & Hk1 & H1 & H2 & Ee & Hlen).
  destruct (is_red (ptr u) s) as [red|]; [|done]. cbn [mbind option_bind] in Esib |- *. rewrite Esib. cbn [mbind option_bind].
  pose proof (rep_up _ _ _ _ _ _ _ Hrep1) as Hu. rewrite <- N_opp in Hu. apply rep_down in Hu. rewrite (rep_get _ _ _ _ _ _ _ Hu). cbn [mbind option_bind].
  rewrite child_entry, child_opp_entry. rewrite (is_red_ok _ _ _ _ _ (rep_down _ _ _ _ _ _ _ Hu) H1). cbn [mbind option_bind].
  pose proof Hu as Hfar. rewrite <- N_opp in Hfar. apply rep_down in Hfar. rewrite (is_red_ok _ _ _ _ _ Hfar H2). cbn [mbind option_bind].
  rewrite <- Ee. destruct (decide (c1 = RB_RED \/ c2 = RB_RED)) as [Hc|Hc].
  - replace (negb _ && negb _) with false by (destruct c1, c2; done || by destruct Hc).
    destruct (erase_rotate_ok _ _ _ _ _ _ _ _ _ _ _ _ Hrep1 Hb H1 H2 Hc) as (s2 & t' & -> & Hrep2 & Hb2 & Ee2 & Hne2). cbn [mbind option_bind].
    destruct (Hb2 _ Hk1) as (m & c' & Hk2 & Hbt & Hcc). destruct (kbalanced_plug k' c' m Hk2 t' cp' Hbt Hcc) as (c3 & n3 & Hb3).
    assert (Hne3 : plug k' t' <> E).
    { intros Hz. apply (f_equal elems) in Hz. rewrite elems_plug in Hz. destruct t'; [done|]. cbn in Hz. by destruct (before k'), (elems t'1). }
    apply rep_plug in Hrep2. destruct (root_black s2 _ _ _ Hrep2 Hb3 Hne3) as (s3 & E3 & Hs3). rewrite decide_False.
    + exists s3. split; [done|]. cbn [plug f_side f_color f_node f_tree]. by rewrite <- (elems_plug_ext k' _ _ Ee2).
    + rewrite (rep_root _ _ _ Hrep2). cbn [kroot]. pose proof (rep_pos _ _ _ Hrep2) as H0. destruct (plug k' t'); [done|]. cbn in *. set_solver.
  - assert (c1 = RB_BLACK) as -> by (destruct c1; tauto). assert (c2 = RB_BLACK) as -> by (destruct c2; tauto).
    rewrite !bool_decide_false by done. cbn [negb andb].
    destruct (at_sibling s1 d cp' p (N d RB_BLACK u1 up u2) (N d RB_RED u1 up u2) k' t (upd up (set_color RB_RED))
      ltac:(intros ? ?; by eapply color_ok) Hrep1) as (s2 & -> & Hrep2). cbn [mbind option_bind].
    destruct (rep_frame _ _ _ _ _ _ _ Hrep2) as [_ ->]. cbn [mbind option_bind]. rewrite parent_entry. apply rep_up in Hrep2.
    assert (Hcol : elems (plug (mkFrame d cp' p (N d RB_BLACK u1 up u2) :: k') t) = elems (plug k' (N d cp' t p (N d RB_RED u1 up u2)))).
    { cbn [plug f_side f_color f_node f_tree]. apply elems_plug_ext, elems_N_ext; [done|]. apply elems_color. }
    rewrite Hcol. enough (Hex : exists s', erase_loop fuel (ptr (N d cp' t p (N d RB_RED u1 up u2))) (kptr k') s2 = Some s' /\
      is_tree s' (elems (plug k' (N d cp' t p (N d RB_RED u1 up u2))))) by (by rewrite ptr_N in Hex).
    inversion Hk1 as [|? ? ? f k'' ? Hu' Hk'|? ? ? cu ? ck ? Hu' Hk']; subst.
    + destruct fuel as [|fuel]; [cbn in Hfuel; lia|]. eapply (erase_exit _ _ _ _ n); [done| |done|].
      * right. pose proof (balanced_N_red d u1 up u2 n H1 H2). destruct d; eexists _, _, _, _, _; (split; [reflexivity|]); split; eauto.
      * right. intros Hbad. destruct d; inversion Hbad.
    + destruct Hlen as [?| ->]; [done|]. eapply (IH s2 k _ (S n) ck); [cbn in Hfuel; lia | done | | done].
      left. eapply balanced_N_black; [done|]. by apply balanced_N_red.
Qed.

Lemma plug_app k k' t : plug (k ++ k') t = plug k' (plug k t).
Proof. revert t. induction k as [|f k IH]; intros t; cbn; [done|]. apply IH. Qed.

Lemma rep_app s k k' t : rep s k' (plug k t) <-> rep s (k ++ k') t.
Proof. by rewrite <- rep_plug, <- (rep_plug s (k ++ k')), plug_app. Qed.

(** The node at the end of the branch at the side [d]. *)
Definition all_side (d : side) (k : ctx) : Prop := Forall (fun f => f_side f = d) k.

Lemma last_child_ok d fuel : forall s k t, rep s k t -> t <> E -> (size (nodes s) < fuel + length k)%nat ->
  exists k' c y u, t = plug k' (N d c E y u) /\ all_side d k' /\ last_child fuel d (ptr t) s = Some y.
Proof.
  induction fuel as [|fuel IH]; intros s k t Hrep Hne Hfuel; [pose proof (rep_depth _ _ _ Hrep); lia|].
  destruct t as [|c l p r]; [done|]. destruct (T_N d c l p r) as (a & b & Et). rewrite Et in *. rewrite ptr_N. cbn [last_child].
  unfold get. rewrite (rep_get _ _ _ _ _ _ _ Hrep). cbn [mbind option_bind]. rewrite child_entry.
  apply rep_down in Hrep. assert (Ha : a = E \/ a <> E) by (destruct a; [by left | by right]). destruct Ha as [->|Ha].
  - exists [], c, p, b. by split_and!; [|apply Forall_nil|].
  - rewrite decide_False.
    2: { pose proof (rep_pos _ _ _ Hrep) as H0. destruct a; [done|]. cbn in *. set_solver. }
    destruct (IH s _ a Hrep Ha) as (k' & c' & y & u & -> & Hk' & E); [cbn; lia|].
    exists (k' ++ [mkFrame d c p b]), c', y, u. split_and!; [by rewrite plug_app | | done]. apply Forall_app. by split; [|apply Forall_singleton].
Qed.

Lemma erase_at_ok s k d c x u : rep s k (N d c E x u) ->
  exists s', erase_at x (ptr u) s = Some (kptr k, c, s') /\ rep s' k u /\ nodes s' !! x = nodes s !! x.
Proof.
  intros Hrep. pose proof (rep_get _ _ _ _ _ _ _ Hrep) as Hxs. unfold erase_at, get. rewrite Hxs. cbn [mbind option_bind]. rewrite parent_entry, color_entry.
  destruct Hrep as [H1 H2 H3 H4 H5]. rewrite elems_N in H4, H5. apply linked_N in H1 as (_ & _ & Hu). rewrite ptr_N in *. cbn [elems app] in *.
  pose proof H4 as Hd. rewrite NoDup_cons, NoDup_app in Hd. destruct Hd as (Hx & Hdu & Hdis & Hdk).
  destruct (adopt_ok u x (kptr k) s Hu Hdu) as (s1 & -> & Hu1 & R1 & O1); [set_solver|]. cbn [mbind option_bind].
  destruct (relink_ok Left k x (ptr u) s1) as (s2 & -> & Hk2 & R2 & O2).
  { eapply klinked_ext; [|done]. intros z Hz. apply O1. set_solver. }
  { by rewrite R1. }
  { apply NoDup_cons. split; [set_solver|done]. }
  { set_solver. }
  cbn [mbind option_bind]. exists s2. split; [done|]. split; [|rewrite O2, O1 by set_solver; done].
  split; [eapply tree_linked_ext; [|done]; intros z Hz; apply O2; set_solver | done | done | by apply NoDup_cons in H4 as [_ H4] | set_solver].
Qed.

(** The links around [x] are made to lead to [y], which gets the fields of [x]. *)
Lemma links_ok s k l x r y : linked (nodes s) l x -> linked (nodes s) r x -> klinked (nodes s) k x -> rb_node s = kroot k x ->
  NoDup (x :: elems l ++ elems r ++ kelems k) -> 0 ∉ x :: elems l ++ elems r ++ kelems k ->
  exists s', (s ← relink Left (kptr k) x y s; s ← adopt (ptr l) y s; adopt (ptr r) y s) = Some s' /\
    linked (nodes s') l y /\ linked (nodes s') r y /\ klinked (nodes s') k y /\ rb_node s' = kroot k y /\
    outside (.∈ elems l ++ elems r ++ kelems k) s s'.
Proof.
  intros Hl Hr Hk Hroot Hd H0. pose proof Hd as Hd'. rewrite NoDup_cons, !NoDup_app in Hd'. destruct Hd' as (Hxn & Hdl & Hd1 & Hdr & Hd2 & Hdk).
  destruct (relink_ok Left k x y s Hk Hroot) as (s2 & -> & Hk2 & R2 & O2); [apply NoDup_cons; split; [set_solver|done] | set_solver|].
  cbn [mbind option_bind]. destruct (adopt_ok l x y s2) as (s3 & -> & Hl3 & R3 & O3); [|done|set_solver|].
  { eapply tree_linked_ext; [|done]. intros z Hz. apply O2. set_solver. }
  cbn [mbind option_bind]. destruct (adopt_ok r x y s3) as (s4 & -> & Hr4 & R4 & O4); [|done|set_solver|].
  { eapply tree_linked_ext; [|done]. intros z Hz. rewrite O3, O2 by set_solver. done. }
  exists s4. split; [done|]. split_and!; [|done| |by rewrite R4, R3|].
  - eapply tree_linked_ext; [|done]. intros z Hz. apply O4. set_solver.
  - eapply klinked_ext; [|done]. intros z Hz. rewrite O4, O3 by set_solver. done.
  - intros z Hz. rewrite O4, O3, O2 by set_solver. done.
Qed.

Lemma place_perm (l r k : list Z) x : (l ++ x :: r) ++ k ≡ₚ x :: l ++ r ++ k.
Proof. rewrite <- app_assoc. cbn. by rewrite <- Permutation_middle. Qed.

Lemma rep_replaced s k c l x r y : nodes s !! y = Some (mkNode (kptr k) (ptr r) (ptr l) c) -> linked (nodes s) l y -> linked (nodes s) r y ->
  klinked (nodes s) k y -> rb_node s = kroot k y -> NoDup (x :: elems l ++ elems r ++ kelems k) -> 0 ∉ x :: elems l ++ elems r ++ kelems k ->
  y <> 0 -> y ∉ x :: elems l ++ elems r ++ kelems k -> rep s k (T c l y r).
Proof.
  intros Hy Hl Hr Hk Hroot Hd H0 Hy0 Hyn. split; cbn [linked ptr elems]; [done..| |]; rewrite place_perm; [|set_solver].
  apply NoDup_cons. split; [set_solver|]. by apply NoDup_cons in Hd as [_ Hd].
Qed.

(** The order of [rb_erase]: [y] is copied first, *)
Lemma rb_replace_ok s k c l x r y : rep s k (T c l x r) -> y <> 0 -> y ∉ elems (T c l x r) ++ kelems k -> is_Some (nodes s !! y) ->
  exists s', (s ← upd y (fun _ => mkNode (kptr k) (ptr r) (ptr l) c) s; s ← relink Left (kptr k) x y s; s ← adopt (ptr l) y s; adopt (ptr r) y s) = Some s' /\
    rep s' k (T c l y r).
Proof.
  intros [(Hx & Hl & Hr) H2 H3 H4 H5] Hy Hyn [ny Hny]. cbn [elems ptr] in *. rewrite place_perm in H4, H5, Hyn.
  destruct (upd_ok y (fun _ => mkNode (kptr k) (ptr r) (ptr l) c) s ny Hny) as (s1 & -> & Hy1 & R1 & O1). cbn [mbind option_bind].
  destruct (links_ok s1 k l x r y) as (s2 & E & Hl2 & Hr2 & Hk2 & R2 & O2); [| | | by rewrite R1 | done | done |].
  1-2: eapply tree_linked_ext; [|done]; intros z Hz; apply O1; set_solver.
  { eapply klinked_ext; [|done]. intros z Hz. apply O1. set_solver. }
  exists s2. split; [done|]. apply (rep_replaced s2 k c l x r y); try done. rewrite O2 by set_solver. done.
Qed.

(** and of [rb_replace_node]: last. *)
Lemma replace_node_ok s k c l x r y : rep s k (T c l x r) -> y <> 0 -> y ∉ elems (T c l x r) ++ kelems k -> is_Some (nodes s !! y) ->
  exists s', rb_replace_node x y s = Some s' /\ rep s' k (T c l y r).
Proof.
  intros [(Hx & Hl & Hr) H2 H3 H4 H5] Hy Hyn [ny Hny]. cbn [elems ptr] in *. rewrite place_perm in H4, H5, Hyn.
  destruct (links_ok s k l x r y Hl Hr H2 H3 H4 H5) as (s1 & E & Hl1 & Hr1 & Hk1 & R1 & O1).
  pose proof H4 as Hd. apply NoDup_cons in Hd as [Hd _].
  assert (Hx1 : nodes s1 !! x = Some (mkNode (kptr k) (ptr r) (ptr l) c)) by (rewrite O1 by set_solver; done).
  destruct (upd_ok y (fun _ => mkNode (kptr k) (ptr r) (ptr l) c) s1 ny) as (s2 & E2 & Hy2 & R2 & O2); [rewrite O1 by set_solver; done|].
  exists s2. split.
  - unfold rb_replace_node, get. rewrite Hx. cbn [mbind option_bind rb_parent rb_left rb_right].
    destruct (relink Left (kptr k) x y s) as [s3|]; [|done]. cbn [mbind option_bind] in E |- *.
    destruct (adopt (ptr l) y s3) as [s4|]; [|done]. cbn [mbind option_bind] in E |- *. rewrite E. cbn [mbind option_bind].
    rewrite Hx1. done.
  - apply (rep_replaced s2 k c l x r y); try done; [..|by rewrite R2]; first [eapply tree_linked_ext; [|done] | eapply klinked_ext; [|done]];
      intros z Hz; apply O2; set_solver.
Qed.

Lemma nodup_split (a b c d : list Z) x : NoDup (a ++ x :: b) -> a ++ x :: b = c ++ x :: d -> a = c /\ b = d.
Proof.
  revert c. induction a as [|z a IH]; intros c Hd E; destruct c as [|w c]; cbn in *.
  - by injection E.
  - injection E as <- ->. apply NoDup_cons in Hd as [Hx _]. set_solver.
  - injection E as -> <-. apply NoDup_cons in Hd as [Hx _]. set_solver.
  - injection E as -> E. apply NoDup_cons in Hd as [_ Hd]. destruct (IH c Hd E) as [-> ->]. done.
Qed.

(** A node of the tree is at a hole. *)
Lemma find_node t x : x ∈ elems t -> exists k c l r, t = plug k (T c l x r).
Proof.
  induction t as [|c l IHl p r IHr]; intros Hx; cbn in Hx; [by apply not_elem_of_nil in Hx|].
  apply elem_of_app in Hx as [Hx|Hx]; [|apply elem_of_cons in Hx as [->|Hx]].
  - destruct (IHl Hx) as (k & c' & l' & r' & ->). exists (k ++ [mkFrame Left c p r]), c', l', r'. by rewrite plug_app.
  - by exists [], c, l, r.
  - destruct (IHr Hx) as (k & c' & l' & r' & ->). exists (k ++ [mkFrame Right c p l]), c', l', r'. by rewrite plug_app.
Qed.

Lemma at_node s k c l x r bs as_ : rep s k (T c l x r) -> elems (plug k (T c l x r)) = bs ++ x :: as_ ->
  bs = before k ++ elems l /\ as_ = elems r ++ after k.
Proof.
  intros Hrep E. apply rep_plug in Hrep. pose proof (rep_nodup _ _ _ Hrep) as Hd. cbn [kelems] in Hd. rewrite app_nil_r in Hd.
  rewrite elems_plug in E, Hd. cbn in E, Hd. rewrite <- app_assoc in E, Hd. cbn in E, Hd. rewrite app_assoc in E, Hd.
  destruct (nodup_split _ _ _ _ _ Hd E) as [<- <-]. done.
Qed.

Lemma height0 u : balanced u RB_BLACK 0 -> u = E.
Proof. intros H. by inversion H. Qed.
Lemma heightE c n : balanced E c n -> n = 0%nat.
Proof. intros H. by inversion H. Qed.

Lemma leaf_inv d c x u ct m : balanced (N d c E x u) ct m ->
  (c = RB_RED /\ u = E /\ ct = RB_RED /\ m = 0%nat) \/ (c = RB_BLACK /\ m = 1%nat /\ exists cu, balanced u cu 0).
Proof.
  intros Hb. destruct d; cbn in Hb; inversion Hb as [|? ? ? ? H1 H2|? ? ? cl cr ? H1 H2]; subst.
  - apply heightE in H1 as ->. apply height0 in H2 as ->. by left.
  - apply heightE in H1 as ->. right. eauto.
  - apply heightE in H2 as ->. apply height0 in H1 as ->. by left.
  - apply heightE in H2 as ->. right. eauto.
Qed.

(** The colours are put right after a node with one child at most was taken out. *)
Lemma rebalance s k d c x u n : rep s k u -> balanced (plug k (N d c E x u)) RB_BLACK n ->
  exists s', (if decide (c = RB_BLACK) then __rb_erase_color (ptr u) (kptr k) s else Some s) = Some s' /\ is_tree s' (elems (plug k u)).
Proof.
  intros Hrep Hb. destruct (balanced_plug k _ n Hb) as (c' & ct & m & Hk & Ht & Hc).
  pose proof (leaf_inv _ _ _ _ _ _ Ht) as Hu.
  destruct Hu as [(-> & -> & -> & ->)|(-> & -> & cu & Hu)].
  - rewrite decide_False by done. exists s. split; [done|]. destruct (kbalanced_plug_black k c' 0 Hk E RB_BLACK) as (n' & Hb'); [constructor | done | done |].
    exists (plug k E), n'. split_and!; [by apply rep_plug|done..].
  - rewrite decide_True by done. unfold __rb_erase_color. eapply (erase_loop_ok _ s k u 0 c'); [|done| |done].
    + pose proof (rep_depth _ _ _ Hrep). unfold fuel_of. lia.
    + inversion Hu; subst; [by left | right; eauto 10].
Qed.

Lemma kelems_app k k' : kelems (k ++ k') = kelems k ++ kelems k'.
Proof. induction k as [|[d c p u] k IH]; cbn; [done|]. by rewrite IH, <- app_assoc. Qed.

Lemma rep_perm kr k d c x l t : elems t ++ kelems (kr ++ mkFrame d c x l :: k) ≡ₚ elems (N d c (plug kr t) x l) ++ kelems k.
Proof. rewrite <- !plug_perm, plug_app. done. Qed.

Lemma all_left k t : all_side Left k -> elems (plug k t) = elems t ++ after k.
Proof.
  revert t. induction k as [|[d c p u] k IH]; intros t Hk; [by rewrite app_nil_r|]. apply Forall_cons in Hk as [Hd Hk]. cbn in Hd. subst d.
  cbn [plug after f_side f_color f_node f_tree]. rewrite IH by done. cbn. by rewrite <- app_assoc.
Qed.

Lemma kptr_app k f k' : kptr (k ++ f :: k') = match k with [] => f_node f | g :: _ => f_node g end.
Proof. by destruct k. Qed.

Lemma kptr_in k : k <> [] -> kptr k ∈ kelems k.
Proof. destruct k as [|[d c p u] k]; [done|]. intros _. cbn. by left. Qed.

Lemma shape_balanced k d c p q u k' t n : balanced (plug (k ++ mkFrame d c p u :: k') t) RB_BLACK n ->
  exists n', balanced (plug (k ++ mkFrame d c q u :: k') t) RB_BLACK n'.
Proof.
  rewrite !plug_app. cbn [plug f_side f_color f_node f_tree]. intros Hb.
  assert (Hren : forall a cc m, balanced (N d c a p u) cc m -> balanced (N d c a q u) cc m).
  { intros a cc m Ha. destruct d; cbn in *; inversion Ha; subst; eauto. }
  destruct k' as [|f k']; [exists n; by apply Hren|]. destruct (balanced_plug (f :: k') _ n Hb) as (c' & ct & m & Hk & Ht & Hc).
  destruct (kbalanced_plug_black (f :: k') c' m Hk _ _ (Hren _ _ _ Ht) Hc) as (n' & Hb'); [done|]. by exists n'.
Qed.

Lemma adopt_upd p q s : p <> 0 -> adopt p q s = upd p (set_parent q) s.
Proof. intros Hp. unfold adopt. by rewrite decide_False. Qed.

(** A node with two children: its successor [y] is taken out and takes its place. *)
Lemma erase_two s k c l x r n : rep s k (T c l x r) -> l <> E -> r <> E -> balanced (plug k (T c l x r)) RB_BLACK n ->
  exists s', rb_erase x s = Some s' /\ is_tree s' (before k ++ elems l ++ elems r ++ after k).
Proof.
  intros Hrep Hl Hr Hb. pose proof Hrep as Hrr. change (T c l x r) with (N Right c r x l) in Hrr. apply rep_down in Hrr.
  pose proof (rep_get s k Left c l x r Hrep) as Hx. cbn [entry] in Hx. unfold rb_erase, get. rewrite Hx. cbn [mbind option_bind rb_left rb_right].
  assert (Hpos : forall t, t <> E -> 0 ∉ elems t -> ptr t <> 0) by (intros [|? ? z ?] Ht H0; [done|]; cbn in *; set_solver).
  pose proof (rep_pos _ _ _ Hrep) as H0. cbn [elems] in H0.
  rewrite !decide_False by (apply Hpos; [done|set_solver]).
  destruct (last_child_ok Left (fuel_of s) s _ r Hrr Hr) as (kr & cy & y & ry & Er & Hside & Elast); [unfold fuel_of; cbn; lia|].
  rewrite Elast. cbn [mbind option_bind]. rewrite Er in Hrr. apply rep_app in Hrr. pose proof (rep_get _ _ _ _ _ _ _ Hrr) as Hy. cbn [entry ptr] in Hy.
  rewrite Hy. cbn [mbind option_bind rb_right]. destruct (erase_at_ok _ _ _ _ _ _ Hrr) as (s1 & -> & Hrep1 & Hy1). cbn [mbind option_bind].
  rewrite Hy1, Hy. cbn [mbind option_bind rb_parent].
  pose proof Hrep1 as Hrep2. apply rep_app in Hrep2. apply rep_up in Hrep2. cbn [N] in Hrep2.
  pose proof (rep_get _ _ Left _ _ _ _ Hrep2) as Hx2. cbn [entry] in Hx2. rewrite Hx2. cbn [mbind option_bind rb_left rb_right rb_parent].
  destruct (rb_replace_ok s1 k c l x (plug kr ry) y Hrep2) as (s2 & E2 & Hrep3).
  { pose proof (rep_pos _ _ _ Hrr) as Hy0. rewrite elems_N in Hy0. set_solver. }
  { pose proof (rep_nodup _ _ _ Hrr) as Hd. rewrite elems_N in Hd. cbn [elems app] in Hd. apply NoDup_cons in Hd as [Hd _].
    pose proof (rep_perm kr k Right c x l ry) as Hp. rewrite Hp in Hd. exact Hd. }
  { by rewrite Hy1, Hy. }
  destruct (upd y _ s1) as [s3|]; [|done]. cbn [mbind option_bind] in E2 |- *. destruct (relink Left (kptr k) x y s3) as [s4|]; [|done].
  cbn [mbind option_bind] in E2 |- *. rewrite adopt_upd in E2 by (apply Hpos; [done|set_solver]).
  destruct (upd (ptr l) _ s4) as [s5|]; [|done]. cbn [mbind option_bind] in E2 |- *. rewrite E2. cbn [mbind option_bind].
  replace (if decide _ then y else _) with (kptr (kr ++ mkFrame Right c y l :: k)).
  2: { rewrite !kptr_app. destruct kr as [|g kr]; cbn [f_node]; [by rewrite decide_True|]. rewrite decide_False; [done|].
       intros Hg. pose proof (rep_nodup _ _ _ Hrep1) as Hd. rewrite NoDup_app in Hd. destruct Hd as (_ & _ & Hd). cbn [app kelems] in Hd.
       apply NoDup_cons in Hd as [Hd _]. rewrite Hg in Hd. rewrite kelems_app in Hd. cbn [kelems f_node] in Hd. set_solver. }
  change (T c l y (plug kr ry)) with (N Right c (plug kr ry) y l) in Hrep3. apply rep_down in Hrep3. apply rep_app in Hrep3.
  assert (Hb2 : balanced (plug (kr ++ mkFrame Right c x l :: k) (N Left cy E y ry)) RB_BLACK n) by (rewrite plug_app; cbn [plug f_side f_color f_node f_tree]; rewrite <- Er; exact Hb).
  destruct (shape_balanced _ _ _ _ y _ _ _ _ Hb2) as (n' & Hb3).
  destruct (rebalance s2 _ Left cy y ry n' Hrep3 Hb3) as (s6 & E6 & Hs6). exists s6. split; [done|].
  rewrite plug_app in Hs6. cbn [plug f_side f_color f_node f_tree N] in Hs6. rewrite elems_plug in Hs6. cbn [elems] in Hs6.
  rewrite Er. rewrite !all_left in * by done. cbn [elems N app] in *. by rewrite <- (app_assoc (elems l)) in Hs6.
Qed.

Lemma erase_one s k d c x u n : rep s k (N d c E x u) -> balanced (plug k (N d c E x u)) RB_BLACK n ->
  exists s', rb_erase x s = Some s' /\ is_tree s' (before k ++ elems u ++ after k).
Proof.
  intros Hrep Hb. unfold rb_erase, get. pose proof (rep_get _ _ _ _ _ _ _ Hrep) as Hx. rewrite Hx. cbn [mbind option_bind ptr].
  destruct (erase_at_ok _ _ _ _ _ _ Hrep) as (s1 & E1 & Hrep1 & _). destruct (rebalance _ _ _ _ _ _ _ Hrep1 Hb) as (s2 & E2 & Hs2).
  rewrite elems_plug in Hs2. exists s2. split; [|done]. destruct d; cbn [entry rb_left rb_right].
  - rewrite decide_True by done. rewrite E1. cbn [mbind option_bind]. exact E2.
  - destruct (decide (ptr u = 0)) as [Hu|Hu]; [rewrite Hu in * |rewrite decide_True by done]; rewrite E1; exact E2.
Qed.

(** [rb_erase] of a node takes it out and leaves the others in their order. *)
Lemma erase_ok s bs x as_ : is_tree s (bs ++ x :: as_) -> exists s', rb_erase x s = Some s' /\ is_tree s' (bs ++ as_).
Proof.
  intros (t & n & Hrep & Hb & He). destruct (find_node t x) as (k & c & l & r & ->); [rewrite He; set_solver|].
  apply (rep_plug s k (T c l x r)) in Hrep. destruct (at_node _ _ _ _ _ _ _ _ Hrep He) as [-> ->]. rewrite <- app_assoc.
  destruct l as [|cl ll lp lr]; [by apply (erase_one s k Left c x r n)|].
  destruct r as [|cr rl rp rr]; [|by eapply erase_two].
  destruct (erase_one s k Right c x (T cl ll lp lr) n Hrep Hb) as (s' & E & Hs'). exists s'. split; [done|]. done.
Qed.

Lemma all_right k t : all_side Right k -> elems (plug k t) = before k ++ elems t.
Proof.
  revert t. induction k as [|[d c p u] k IH]; intros t Hk; [done|]. apply Forall_cons in Hk as [Hd Hk]. cbn in Hd. subst d.
  cbn [plug before f_side f_color f_node f_tree]. rewrite IH by done. cbn. by rewrite <- !app_assoc.
Qed.

(** The first of [xs] from the left, and from the right; 0 when there is none. *)
Definition end_of (d : side) (xs : list Z) : Z := match d with Left => hd 0 xs | Right => default 0 (last xs) end.

Lemma end_ok d k c y u : all_side d k -> end_of d (elems (plug k (N d c E y u))) = y.
Proof.
  intros Hk. destruct d; cbn [end_of].
  - rewrite all_left by done. done.
  - rewrite all_right by done. cbn. by rewrite app_assoc, last_snoc.
Qed.

Lemma rb_end_ok d s xs : is_tree s xs -> rb_end d s = Some (end_of d xs).
Proof.
  intros (t & n & Hrep & _ & <-). unfold rb_end. rewrite (rep_root _ _ _ Hrep). cbn [kroot]. destruct t as [|c l p r] eqn:Et.
  - rewrite decide_True by done. by destruct d.
  - rewrite <- Et in *. assert (Hne : t <> E) by (by rewrite Et). rewrite decide_False.
    + destruct (last_child_ok d (fuel_of s) s [] t Hrep Hne) as (k & c' & y & u & -> & Hk & ->); [unfold fuel_of; cbn; lia|]. by rewrite end_ok.
    + pose proof (rep_pos _ _ _ Hrep) as H0. rewrite Et in *. cbn in *. set_solver.
Qed.

(** The nearest node above the hole at the other side than [d]. *)
Fixpoint nearest (d : side) (k : ctx) : Z :=
  match k with [] => 0 | f :: k => if decide (f_side f = d) then nearest d k else f_node f end.

Lemma nearest_after k : nearest Right k = end_of Left (after k).
Proof. induction k as [|[[|] c p u] k IH]; cbn; [done..|]. by rewrite IH. Qed.
Lemma nearest_before k : nearest Left k = end_of Right (before k).
Proof.
  induction k as [|[[|] c p u] k IH]; cbn; [done| |]; [by rewrite app_nil_r, IH|]. by rewrite app_assoc, last_snoc.
Qed.

Lemma climb_ok d fuel : forall s k t, rep s k t -> t <> E -> (length k < fuel)%nat -> climb fuel d (ptr t) s = Some (nearest d k).
Proof.
  induction fuel as [|fuel IH]; intros s k t Hrep Hne Hfuel; [lia|]. cbn [climb]. unfold get.
  destruct t as [|c0 l p r]; [done|]. cbn [ptr]. rewrite (rep_get s k Left c0 l p r Hrep). cbn [mbind option_bind ptr]. rewrite parent_entry.
  destruct k as [|[e c q u] k]; cbn [kptr f_node nearest f_side]; [by rewrite decide_True|].
  destruct (rep_frame _ _ _ _ _ _ _ Hrep) as [Hq0 Hq]. rewrite decide_False by done. rewrite Hq. cbn [mbind option_bind ptr].
  destruct (decide (e = d)) as [->|Hed].
  - rewrite child_entry, decide_True by done. pose proof (rep_up _ _ _ _ _ _ _ Hrep) as Hup.
    rewrite <- (IH s k _ Hup (N_ne _ _ _ _ _)) by (cbn in Hfuel; lia). by rewrite ptr_N.
  - apply side_opp in Hed as ->. replace (child d _) with (ptr u) by (by destruct d).
    rewrite decide_False; [done|]. by apply (sibling_ne _ _ _ _ _ _ _ Hrep); left.
Qed.

Lemma rb_step_ok d s k c x a b : rep s k (N d c a x b) ->
  rb_step d x s = Some (end_of (opp d) (if d is Left then before k ++ elems a else elems a ++ after k)).
Proof.
  intros Hrep. unfold rb_step, get. rewrite (rep_get _ _ _ _ _ _ _ Hrep). cbn [mbind option_bind]. rewrite child_entry.
  assert (Ha : a = E \/ a <> E) by (destruct a; [by left | by right]). pose proof (rep_depth _ _ _ Hrep). destruct Ha as [->|Ha].
  - rewrite decide_True by done. rewrite <- (ptr_N d c E x b) at 1. rewrite (climb_ok d _ s k _ Hrep (N_ne _ _ _ _ _)) by (unfold fuel_of; lia).
    f_equal. destruct d; cbn [opp elems]; [rewrite app_nil_r; apply nearest_before | apply nearest_after].
  - apply rep_down in Hrep. rewrite decide_False.
    + destruct (last_child_ok (opp d) (fuel_of s) s _ a Hrep Ha) as (k' & c' & y & u & -> & Hk & ->); [unfold fuel_of; cbn; lia|]. f_equal.
      rewrite <- (end_ok (opp d) k' c' y u Hk) at 1. destruct d; cbn [opp end_of] in *.
      * rewrite last_app. rewrite all_right by done. cbn. by rewrite app_assoc, last_snoc.
      * rewrite all_left by done. done.
    + pose proof (rep_pos _ _ _ Hrep) as H0. destruct a; [done|]. cbn in *. set_solver.
Qed.

(** ** The nodes stay where they are *)

Definition same_dom (s s' : rb) : Prop := dom (nodes s') = dom (nodes s).

Lemma upd_dom p f s s' : upd p f s = Some s' -> same_dom s s'.
Proof.
  unfold upd. destruct (nodes s !! p) as [n|] eqn:E; [|done]. cbn. intros [= <-]. unfold same_dom. cbn. rewrite dom_insert_L.
  apply elem_of_dom_2 in E. set_solver.
Qed.

(** Every step of a computation that ends well. *)
Ltac some_steps :=
  repeat match goal with
    | H : (_ ≫= _) = Some _ |- _ => apply bind_Some in H as (? & ? & H)
    | H : (match ?x with (_, _) => _ end) = Some _ |- _ => destruct x
    | H : (if ?b then _ else _) = Some _ |- _ => destruct b
    | H : Some _ = Some _ |- _ => injection H as H; subst
    | H : (_, _) = (_, _) |- _ => injection H as H; subst
    | H : None = Some _ |- _ => discriminate H
    end.
Ltac dom_of H := apply upd_dom in H.
Ltac keep_dom := intros; some_steps; repeat match goal with H : _ = Some _ |- _ => dom_of H end;
  unfold same_dom in *; cbn [nodes fst snd] in *; congruence.

Lemma relink_dom d p x y s s' : relink d p x y s = Some s' -> same_dom s s'.
Proof. unfold relink. keep_dom. Qed.
Lemma adopt_dom p q s s' : adopt p q s = Some s' -> same_dom s s'.
Proof. unfold adopt. keep_dom. Qed.
Ltac dom_of H ::= first [apply upd_dom in H | apply relink_dom in H | apply adopt_dom in H].

Lemma rotate_dom d p s s' : rb_rotate d p s = Some s' -> same_dom s s'.
Proof. unfold rb_rotate. keep_dom. Qed.
Ltac dom_of H ::= first [apply upd_dom in H | apply relink_dom in H | apply adopt_dom in H | apply rotate_dom in H].

Lemma insert_loop_dom fuel : forall x s s', insert_loop fuel x s = Some s' -> same_dom s s'.
Proof. induction fuel as [|fuel IH]; intros x s s' H; cbn [insert_loop] in H; [done|]. some_steps; repeat match goal with H : insert_loop _ _ _ = _ |- _ => apply IH in H end; keep_dom. Qed.

Lemma rotate_red_dom d p o s z : rotate_red d p o s = Some z -> same_dom s z.2.
Proof. unfold rotate_red. keep_dom. Qed.
Lemma rotate_near_dom d p o s z : rotate_near d p o s = Some z -> same_dom s z.2.
Proof. unfold rotate_near. keep_dom. Qed.
Lemma erase_at_dom x c s z : erase_at x c s = Some z -> same_dom s z.2.
Proof. unfold erase_at. keep_dom. Qed.
Ltac dom_of H ::= first [apply upd_dom in H | apply relink_dom in H | apply adopt_dom in H | apply rotate_dom in H
  | apply rotate_red_dom in H | apply rotate_near_dom in H | apply erase_at_dom in H | apply insert_loop_dom in H].

Lemma erase_rotate_dom d p o s s' : erase_rotate d p o s = Some s' -> same_dom s s'.
Proof. unfold erase_rotate. keep_dom. Qed.

Lemma erase_loop_dom fuel : forall x p s s', erase_loop fuel x p s = Some s' -> same_dom s s'.
Proof.
  induction fuel as [|fuel IH]; intros x p s s' H; cbn [erase_loop] in H; [done|]. some_steps;
    repeat match goal with H : erase_loop _ _ _ _ = _ |- _ => apply IH in H | H : erase_rotate _ _ _ _ = _ |- _ => apply erase_rotate_dom in H end; keep_dom.
Qed.
Ltac dom_of H ::= first [apply upd_dom in H | apply relink_dom in H | apply adopt_dom in H | apply erase_at_dom in H
  | apply insert_loop_dom in H | apply erase_loop_dom in H].

Lemma rb_erase_dom x s s' : rb_erase x s = Some s' -> same_dom s s'.
Proof. unfold rb_erase, __rb_erase_color. keep_dom. Qed.
Lemma rb_link_dom x p l s s' : (s ← rb_link_node x p l s; rb_insert_color x s) = Some s' -> same_dom s s'.
Proof. unfold rb_link_node, rb_insert_color. intros H. some_steps; destruct l; keep_dom. Qed.

(** ** Height *)

Fixpoint height (t : tree) : nat := match t with E => 0 | T _ l _ r => S (Nat.max (height l) (height r)) end.

Lemma balanced_height t c n : balanced t c n -> (height t <= 2 * n + (if decide (c = RB_RED) then 1 else 0))%nat.
Proof.
  induction 1 as [|l p r n Hl IHl Hr IHr|l p r cl cr n Hl IHl Hr IHr]; cbn [height]; [done| |].
  - rewrite decide_False in IHl, IHr by done. rewrite decide_True by done. lia.
  - rewrite decide_False by done. assert (forall c, (if decide (c = RB_RED) then 1 else 0)%nat <= 1)%nat as Hc by (intros c0; destruct (decide (c0 = RB_RED)); lia).
    pose proof (Hc cl). pose proof (Hc cr). lia.
Qed.

Lemma balanced_size t c n : balanced t c n -> (2 ^ n <= S (length (elems t)))%nat.
Proof. induction 1 as [|l p r n Hl IHl Hr IHr|l p r cl cr n Hl IHl Hr IHr]; cbn [elems]; [done| |]; rewrite length_app; cbn [length]; rewrite ?Nat.pow_succ_r'; lia. Qed.

(** The longest way down is at most twice the logarithm. *)
Lemma tree_height t n : balanced t RB_BLACK n -> (height t <= 2 * Nat.log2 (S (length (elems t))))%nat.
Proof.
  intros Hb. pose proof (balanced_height _ _ _ Hb) as Hh. rewrite decide_False in Hh by done.
  pose proof (Nat.log2_le_mono _ _ (balanced_size _ _ _ Hb)) as Hs. rewrite Nat.log2_pow2 in Hs by lia. lia.
Qed.

(** ** The operations *)

(** The slot at the side [d] of [p] is free: a node that is linked there is next to it. *)
Lemma insert_at s bs as_ p d np x : is_tree s (bs ++ p :: as_) -> nodes s !! p = Some np -> child d np = 0 ->
  x <> 0 -> x ∉ bs ++ p :: as_ -> is_Some (nodes s !! x) ->
  exists s', (s ← rb_link_node x p (Some d) s; rb_insert_color x s) = Some s' /\
    is_tree s' (match d with Left => bs ++ x :: p :: as_ | Right => bs ++ p :: x :: as_ end).
Proof.
  intros (t & n & Hrep & Hb & He) Hp Hc Hx Hxn Hnx. destruct (find_node t p) as (k & c & l & r & ->); [rewrite He; set_solver|].
  apply (rep_plug s k (T c l p r)) in Hrep. destruct (at_node _ _ _ _ _ _ _ _ Hrep He) as [-> ->].
  destruct (T_N d c l p r) as (a & b & Et). rewrite Et in *. rewrite (rep_get _ _ _ _ _ _ _ Hrep) in Hp. injection Hp as <-. rewrite child_entry in Hc.
  assert (Ha : a = E).
  { destruct a as [|? ? q ?]; [done|]. cbn in Hc. subst q. pose proof (rep_pos _ _ _ Hrep) as H0. rewrite elems_N in H0. cbn in H0. set_solver. }
  subst a. apply rep_down in Hrep.
  destruct (rb_insert_ok s (mkFrame d c p b :: k) x n Hrep) as (s' & E & Hs'); [exact Hb | done | | done|].
  - rewrite kelems_perm. cbn [before after f_side f_node f_tree]. destruct d; cbn in Et; injection Et as -> ->; cbn in *; set_solver.
  - cbn [kptr f_node f_side head fmap option_fmap option_map] in E. exists s'. split; [exact E|].
    cbn [before after f_side f_node f_tree] in Hs'. destruct d; cbn in Et; injection Et as -> ->; cbn in *.
    + by rewrite app_nil_r in *.
    + by rewrite <- !app_assoc in *.
Qed.

Lemma insert_empty s x : is_tree s [] -> x <> 0 -> is_Some (nodes s !! x) ->
  exists s', (s ← rb_link_node x 0 None s; rb_insert_color x s) = Some s' /\ is_tree s' [x].
Proof.
  intros (t & n & Hrep & Hb & He) Hx Hn. destruct t as [|c l p r]; [|cbn in He; by destruct (elems l)].
  apply (rb_insert_ok s [] x n Hrep); [done..|set_solver|done].
Qed.

Lemma replace_at s bs x as_ y : is_tree s (bs ++ x :: as_) -> y <> 0 -> y ∉ bs ++ x :: as_ -> is_Some (nodes s !! y) ->
  exists s', rb_replace_node x y s = Some s' /\ is_tree s' (bs ++ y :: as_).
Proof.
  intros (t & n & Hrep & Hb & He) Hy Hyn Hny. destruct (find_node t x) as (k & c & l & r & ->); [rewrite He; set_solver|].
  apply (rep_plug s k (T c l x r)) in Hrep. destruct (at_node _ _ _ _ _ _ _ _ Hrep He) as [-> ->].
  destruct (replace_node_ok s k c l x r y Hrep Hy) as (s' & E & Hrep'); [|done|].
  - rewrite <- plug_perm, elems_plug. cbn [elems]. set_solver.
  - exists s'. split; [done|]. destruct (shape_balanced [] Left c x y r k l n Hb) as (n' & Hb').
    exists (plug k (T c l y r)), n'. split_and!; [by apply rep_plug | done |]. rewrite elems_plug. cbn. by rewrite <- !app_assoc.
Qed.

Lemma step_at d s bs x as_ : is_tree s (bs ++ x :: as_) -> rb_step d x s = Some (end_of (opp d) (match d with Left => bs | Right => as_ end)).
Proof.
  intros (t & n & Hrep & Hb & He). destruct (find_node t x) as (k & c & l & r & ->); [rewrite He; set_solver|].
  apply (rep_plug s k (T c l x r)) in Hrep. destruct (at_node _ _ _ _ _ _ _ _ Hrep He) as [-> ->].
  destruct d; [by apply (rb_step_ok Left s k c x l r) | by apply (rb_step_ok Right s k c x r l)].
Qed.

(** [C13] On every tree that satisfies the colour rules, each operation ends without a
    fault and leaves such a tree, with the nodes in the order it should have: a
    new node comes next to the node at whose free side it is linked, [rb_erase] takes
    a node out, [rb_replace_node] puts another in its place; and [rb_first],
    [rb_last], [rb_next] and [rb_prev] find the ends and the neighbours, 0 where
    there are none. *)
Theorem rb_tree_operations s xs (Hs : is_tree s xs) :
  rb_first s = Some (hd 0 xs) /\ rb_last s = Some (default 0 (last xs)) /\
  (forall x, x <> 0 -> x ∉ xs -> is_Some (nodes s !! x) ->
    (xs = [] -> exists s', (s ← rb_link_node x 0 None s; rb_insert_color x s) = Some s' /\ is_tree s' [x]) /\
    (forall bs p as_ np d, xs = bs ++ p :: as_ -> nodes s !! p = Some np -> child d np = 0 ->
      exists s', (s ← rb_link_node x p (Some d) s; rb_insert_color x s) = Some s' /\
        is_tree s' (match d with Left => bs ++ x :: p :: as_ | Right => bs ++ p :: x :: as_ end))) /\
  (forall bs x as_, xs = bs ++ x :: as_ ->
    rb_next x s = Some (hd 0 as_) /\ rb_prev x s = Some (default 0 (last bs)) /\
    (exists s', rb_erase x s = Some s' /\ is_tree s' (bs ++ as_)) /\
    (forall y, y <> 0 -> y ∉ xs -> is_Some (nodes s !! y) -> exists s', rb_replace_node x y s = Some s' /\ is_tree s' (bs ++ y :: as_))).
Proof.
  split_and!; [by apply (rb_end_ok Left) | by apply (rb_end_ok Right) | |].
  - intros x Hx Hxn Hn. split; [intros ->; by apply insert_empty|]. intros bs p as_ np d -> Hp Hc. by eapply insert_at.
  - intros bs x as_ ->. split_and!; [by apply (step_at Right s bs) | by apply (step_at Left s bs x as_) | by apply erase_ok|].
    intros y Hy Hyn Hny. by apply replace_at.
Qed.

(** 20 at the root, 10 and 30 below it, with room for 40. *)
Definition sample : rb :=
  mkRb (list_to_map [(10, mkNode 20 0 0 RB_RED); (20, mkNode 0 30 10 RB_BLACK); (30, mkNode 20 0 0 RB_RED); (40, mkNode 0 0 0 RB_RED)]) 20.

Lemma sample_tree : is_tree sample [10; 20; 30].
Proof.
  exists (T RB_BLACK (T RB_RED E 10 E) 20 (T RB_RED E 30 E)), 1%nat. split; [|split; [|done]].
  - split; [by vm_compute | done | done | | ]; cbn; [by repeat constructor; set_solver | set_solver].
  - eapply balanced_black; by constructor.
Qed.

Lemma rb_tree_operations_witness :
  rb_next 20 sample = Some 30 /\
  (exists s', (s ← rb_link_node 40 30 (Some Right) sample; rb_insert_color 40 s) = Some s' /\ is_tree s' [10; 20; 30; 40]) /\
  (exists s', rb_erase 20 sample = Some s' /\ is_tree s' [10; 30]).
Proof.
  destruct (rb_tree_operations sample [10; 20; 30] sample_tree) as (_ & _ & Hins & Hat).
  destruct (Hat [10] 20 [30] eq_refl) as (Hnext & _ & Herase & _). split_and!; [exact Hnext | | exact Herase].
  destruct (Hins 40) as [_ H]; [done | set_solver | by eexists|].
  exact (H [10; 20] 30 [] (mkNode 20 0 0 RB_RED) Right eq_refl eq_refl eq_refl).
Defined.
