(* ===== verification/Rudp.v ===== *)
(** * The peers of a datagram socket: [event/rudp.c] of libhv

    The entries of the peers are kept in a red-black tree by their addresses.  The
    tree is that of [RbTree], the entries lie next to their nodes, and the
    operations implement a map from addresses to entries. *)

From stdpp Require Import sorting.
From S2P Require Import Prelude RbTree.

#[local] Open Scope list_scope.
#[local] Open Scope Z_scope.

(** ** Addresses *)

(** [sizeof(sockaddr_u)], without [ENABLE_UDS], and the families of Linux. *)
Definition SOCKADDR_U : nat := 28.
Definition AF_INET : Z := 2.
Definition AF_INET6 : Z := 10.
Definition sizeof_sockaddr_in : nat := 16.
Definition sizeof_sockaddr_in6 : nat := 28.

Definition sa_family (addr : list Z) : Z := nth 0 addr 0 + 256 * nth 1 addr 0.
Definition sockaddr_len (addr : list Z) : nat :=
  if decide (sa_family addr = AF_INET) then sizeof_sockaddr_in
  else if decide (sa_family addr = AF_INET6) then sizeof_sockaddr_in6
  else SOCKADDR_U.

(** The sign of [memcmp]; [None]: it reads out of the bounds of an object. *)
Fixpoint memcmp (n : nat) (a b : list Z) : option Z :=
  match n, a, b with
  | O, _, _ => Some 0
  | S n, x :: a, y :: b => if decide (x < y) then Some (-1) else if decide (y < x) then Some 1 else memcmp n a b
  | S _, _, _ => None
  end.

(** ** The code *)

(** An entry without its [rb_node], which is in the memory of the tree. *)
Record rudp_entry_t := mkEntry { addr : list Z; io : Z }.
Record rudp_t := mkRudp { rb_root : rb; entries : gmap Z rudp_entry_t }.

Definition rudp_init : rudp_t := mkRudp (mkRb ∅ 0) ∅.

(** [None]: the entry was freed already. *)
Definition rudp_entry_free (e : Z) (s : rudp_t) : option rudp_t :=
  _ ← entries s !! e;
  Some (mkRudp (mkRb (delete e (nodes (rb_root s))) (rb_node (rb_root s))) (delete e (entries s))).

Definition with_tree (s : rudp_t) (t : rb) : rudp_t := mkRudp t (entries s).

(** The loop of [rudp_insert] and [rudp_get]: the parent, the link and, if there is
    one, the entry. *)
Fixpoint find_place (fuel : nat) (key : list Z) (n parent : Z) (link : option side) (s : rudp_t) : option (Z * option side * Z) :=
  match fuel with
  | O => None
  | S fuel =>
      if decide (n = 0) then Some (parent, link, 0)
      else
        e ← entries s !! n;
        nd ← get n (rb_root s);
        cmp ← memcmp SOCKADDR_U key (addr e);
        if decide (cmp < 0) then find_place fuel key (rb_left nd) n (Some Left) s
        else if decide (cmp > 0) then find_place fuel key (rb_right nd) n (Some Right) s
        else Some (n, link, n)
  end.

Fixpoint search_loop (fuel : nat) (key : list Z) (n : Z) (s : rudp_t) : option Z :=
  match fuel with
  | O => None
  | S fuel =>
      if decide (n = 0) then Some 0
      else
        e ← entries s !! n;
        nd ← get n (rb_root s);
        cmp ← memcmp SOCKADDR_U key (addr e);
        if decide (cmp < 0) then search_loop fuel key (rb_left nd) s
        else if decide (cmp > 0) then search_loop fuel key (rb_right nd) s
        else Some n
  end.

Definition rudp_search (key : list Z) (s : rudp_t) : option Z :=
  search_loop (fuel_of (rb_root s)) key (rb_node (rb_root s)) s.

Definition rudp_insert (entry : Z) (s : rudp_t) : option (bool * rudp_t) :=
  e ← entries s !! entry;
  '(parent, link, n) ← find_place (fuel_of (rb_root s)) (addr e) (rb_node (rb_root s)) 0 None s;
  if decide (n = 0) then
    t ← rb_link_node entry parent link (rb_root s);
    t ← rb_insert_color entry t;
    Some (true, with_tree s t)
  else Some (false, s).

Definition rudp_remove (key : list Z) (s : rudp_t) : option (Z * rudp_t) :=
  e ← rudp_search key s;
  if decide (e = 0) then Some (0, s)
  else t ← rb_erase e (rb_root s); Some (e, with_tree s t).

(** [HV_ALLOC_SIZEOF] returns [p]. *)
Definition alloc_entry (p : Z) (s : rudp_t) : rudp_t :=
  mkRudp (mkRb (<[p := mkNode 0 0 0 RB_RED]> (nodes (rb_root s))) (rb_node (rb_root s)))
         (<[p := mkEntry (replicate SOCKADDR_U 0) 0]> (entries s)).

Definition memcpy (dst src : list Z) (n : nat) : option (list Z) :=
  if decide (n <= length dst /\ n <= length src)%nat then Some (take n src ++ drop n dst) else None.

Definition rudp_get (p : Z) (key : list Z) (s : rudp_t) : option (Z * rudp_t) :=
  '(parent, link, n) ← find_place (fuel_of (rb_root s)) key (rb_node (rb_root s)) 0 None s;
  if decide (n = 0) then
    let s := alloc_entry p s in
    e ← entries s !! p;
    a ← memcpy (addr e) key (sockaddr_len key);
    let s := mkRudp (rb_root s) (<[p := mkEntry a (io e)]> (entries s)) in
    t ← rb_link_node p parent link (rb_root s);
    t ← rb_insert_color p t;
    Some (p, with_tree s t)
  else Some (n, s).

Definition rudp_del (key : list Z) (s : rudp_t) : option rudp_t :=
  e ← rudp_search key s;
  if decide (e = 0) then Some s
  else t ← rb_erase e (rb_root s); rudp_entry_free e (with_tree s t).

Fixpoint cleanup_loop (fuel : nat) (s : rudp_t) : option rudp_t :=
  match fuel with
  | O => None
  | S fuel =>
      let n := rb_node (rb_root s) in
      if decide (n = 0) then Some s
      else
        t ← rb_erase n (rb_root s);
        s ← rudp_entry_free n (with_tree s t);
        cleanup_loop fuel s
  end.
Definition rudp_cleanup (s : rudp_t) : option rudp_t := cleanup_loop (S (size (entries s))) s.

(** [hio_get_rudp] of the io [i] at the peer [key]. *)
Definition hio_get_rudp (i p : Z) (key : list Z) (s : rudp_t) : option (Z * rudp_t) :=
  '(n, s) ← rudp_get p key s;
  e ← entries s !! n;
  Some (n, mkRudp (rb_root s) (<[n := mkEntry (addr e) i]> (entries s))).

(** The events that were posted, and [hio_close_rudp]; its callback reads the entry. *)
Definition hio_close_rudp (io_peeraddr : list Z) (p : Z) (peeraddr : option (list Z)) (s : rudp_t * list Z) : option (rudp_t * list Z) :=
  '(e, r) ← rudp_get p (default io_peeraddr peeraddr) s.1;
  Some (r, if decide (e = 0) then s.2 else s.2 ++ [e]).

Definition hio_close_rudp_event_cb (s : rudp_t * list Z) : option (rudp_t * list Z) :=
  match s.2 with
  | [] => Some s
  | n :: evs =>
      e ← entries s.1 !! n;
      if decide (io e = 0) then None
      else r ← rudp_del (addr e) s.1; Some (r, evs)
  end.

(** ** Comparing *)

Lemma memcmp_total n : forall a b, length a = n -> length b = n ->
  (memcmp n a b = Some (-1) /\ memcmp n b a = Some 1) \/ (memcmp n a b = Some 0 /\ a = b) \/ (memcmp n a b = Some 1 /\ memcmp n b a = Some (-1)).
Proof.
  induction n as [|n IH]; intros [|x a] [|y b] Ha Hb; try done; [by right; left|]. cbn [memcmp]. injection Ha as Ha. injection Hb as Hb.
  destruct (decide (x < y)), (decide (y < x)); [lia|by left|by right; right|].
  assert (x = y) as -> by lia. destruct (IH a b Ha Hb) as [?|[[? ->]|?]]; auto.
Qed.

Lemma memcmp_trans n : forall a b c, memcmp n a b = Some (-1) -> memcmp n b c = Some (-1) -> memcmp n a c = Some (-1).
Proof.
  induction n as [|n IH]; intros a b c H1 H2; [done|]. destruct a as [|x a], b as [|y b]; try done. destruct c as [|z c]; [done|].
  cbn [memcmp] in *. repeat destruct (decide (_ < _)); try done; try lia. by eapply IH.
Qed.

Lemma memcmp_irrefl n a : memcmp n a a <> Some (-1).
Proof. revert a. induction n as [|n IH]; intros [|x a]; try done. cbn. by destruct (decide (x < x)); [lia|]. Qed.

(** ** Searching *)

Section Keys.
Context (m : gmap Z rudp_entry_t).

Definition key_of (p : Z) : option (list Z) := addr <$> m !! p.
Definition below (a : list Z) (p : Z) : Prop := exists b, key_of p = Some b /\ memcmp SOCKADDR_U b a = Some (-1).
Definition above (a : list Z) (p : Z) : Prop := exists b, key_of p = Some b /\ memcmp SOCKADDR_U a b = Some (-1).
Definition less (p q : Z) : Prop := exists a, key_of p = Some a /\ above a q.

(** Every node has an entry with a whole address, and the addresses increase. *)
Definition keyed (xs : list Z) : Prop :=
  (forall p, p ∈ xs -> exists a, key_of p = Some a /\ length a = SOCKADDR_U) /\ StronglySorted less xs.

Lemma keyed_left bs p as_ a : keyed (bs ++ p :: as_) -> key_of p = Some a -> (forall q, q ∈ bs -> below a q) /\ (forall q, q ∈ as_ -> above a q).
Proof.
  intros [_ Hs] Hp. apply StronglySorted_app in Hs as (H1 & _ & H2). split.
  - intros q Hq. destruct (H1 q p Hq ltac:(by left)) as (b & Hb & c & Hc & E). rewrite Hp in Hc. injection Hc as <-. by exists b.
  - intros q Hq. apply StronglySorted_inv in H2 as [_ H2]. rewrite Forall_forall in H2. destruct (H2 q) as (b & Hb & Hab); [done|].
    rewrite Hp in Hb. by injection Hb as <-.
Qed.

Lemma below_trans a b p : below a p -> memcmp SOCKADDR_U a b = Some (-1) -> below b p.
Proof. intros (c & Hc & E) Hab. exists c. split; [done|]. by eapply memcmp_trans. Qed.
Lemma above_trans a b p : above b p -> memcmp SOCKADDR_U a b = Some (-1) -> above a p.
Proof. intros (c & Hc & E) Hab. exists c. split; [done|]. by eapply memcmp_trans. Qed.
End Keys.

(** The hole where the address [key] belongs. *)
Definition hole (s : rudp_t) (key : list Z) (k : ctx) : Prop :=
  (forall p, p ∈ before k -> below (entries s) key p) /\ (forall p, p ∈ after k -> above (entries s) key p).

Lemma find_place_ok t : forall fuel k s key, (height t < fuel)%nat -> rep (rb_root s) k t -> keyed (entries s) (elems (plug k t)) ->
  length key = SOCKADDR_U -> hole s key k ->
  exists r, find_place fuel key (ptr t) (kptr k) (f_side <$> head k) s = Some r /\ search_loop fuel key (ptr t) s = Some r.2 /\
    ((r.2 ∈ elems t /\ key_of (entries s) r.2 = Some key) \/
     (exists k', r = (kptr k', f_side <$> head k', 0) /\ plug k' E = plug k t /\ rep (rb_root s) k' E /\ hole s key k')).
Proof.
  induction t as [|c l IHl p r IHr]; intros [|fuel] k s key Hfuel Hrep Hkeys Hlen Hhole; cbn [height] in Hfuel; try lia; cbn [find_place search_loop ptr].
  - rewrite decide_True by done. eexists. split; [done|]. split; [done|]. right. by exists k.
  - assert (Hp0 : p <> 0) by (pose proof (rep_pos _ _ _ Hrep) as H0; cbn in H0; set_solver). rewrite !decide_False by done.
    destruct (proj1 Hkeys p) as (a & Ha & Hla); [rewrite elems_plug; cbn; set_solver|]. unfold key_of in Ha.
    destruct (entries s !! p) as [e|] eqn:He; [|done]. cbn [mbind option_bind]. injection Ha as Ha. unfold get. rewrite (rep_get _ _ Left _ _ _ _ Hrep). cbn [mbind option_bind].
    assert (Hk : key_of (entries s) p = Some (addr e)) by (unfold key_of; by rewrite He). rewrite <- Ha in Hla.
    assert (Hsplit : elems (plug k (T c l p r)) = (before k ++ elems l) ++ p :: elems r ++ after k) by (rewrite elems_plug; cbn; by rewrite <- !app_assoc).
    pose proof Hkeys as Hkeys'. rewrite Hsplit in Hkeys'. destruct (keyed_left _ _ _ _ _ Hkeys' Hk) as [Hbelow Habove].
    destruct (memcmp_total SOCKADDR_U key (addr e) Hlen Hla) as [[E1 E2]|[[E1 Eq]|[E1 E2]]]; rewrite E1; cbn [mbind option_bind].
    + rewrite !decide_True by lia. destruct (IHl fuel (mkFrame Left c p r :: k) s key) as (z & Hf & Hs & Hz);
        [lia | by apply (rep_down _ _ Left) | done | done | |].
      { split; intros q Hq; cbn [before after f_side f_node f_tree] in Hq; [rewrite app_nil_r in Hq; by apply Hhole|].
        apply elem_of_app in Hq as [Hq|Hq]; [|by apply Hhole]. apply elem_of_cons in Hq as [->|Hq]; [by exists (addr e)|].
        apply (above_trans _ key (addr e)); [|done]. apply Habove. set_solver. }
      exists z. split; [done|]. split; [done|]. destruct Hz as [[Hz1 Hz2]|Hz]; [left; split; [cbn; set_solver|done] | by right].
    + rewrite !decide_False by lia. eexists. split; [done|]. split; [done|]. left. cbn [snd]. split; [cbn; set_solver|]. by rewrite Hk, Eq.
    + rewrite !(decide_False (P := 1 < 0)), !decide_True by lia. destruct (IHr fuel (mkFrame Right c p l :: k) s key) as (z & Hf & Hs & Hz);
        [lia | by apply (rep_down _ _ Right) | done | done | |].
      { split; intros q Hq; cbn [before after f_side f_node f_tree] in Hq; [|by apply Hhole].
        apply elem_of_app in Hq as [Hq|Hq]; [by apply Hhole|]. apply elem_of_app in Hq as [Hq|Hq].
        - apply (below_trans _ (addr e)); [|done]. apply Hbelow. set_solver.
        - apply list_elem_of_singleton in Hq as ->. by exists (addr e). }
      exists z. split; [done|]. split; [done|]. destruct Hz as [[Hz1 Hz2]|Hz]; [left; split; [cbn; set_solver|done] | by right].
Qed.

(** ** What the operations keep *)

Lemma rep_ext s s' k t : (forall p, p ∈ elems t ++ kelems k -> nodes s' !! p = nodes s !! p) -> rb_node s' = rb_node s -> rep s k t -> rep s' k t.
Proof.
  intros Hn Hr [H1 H2 H3 H4 H5]. split; [| |by rewrite Hr|done|done].
  - eapply tree_linked_ext; [|done]. intros p Hp. apply Hn. set_solver.
  - eapply klinked_ext; [|done]. intros p Hp. apply Hn. set_solver.
Qed.

Lemma is_tree_ext s s' xs : (forall p, p ∈ xs -> nodes s' !! p = nodes s !! p) -> rb_node s' = rb_node s -> is_tree s xs -> is_tree s' xs.
Proof.
  intros Hn Hr (t & n & Hrep & Hb & <-). exists t, n. split_and!; [|done..]. eapply rep_ext; [|done|done]. intros p Hp. apply Hn.
  cbn in Hp. by rewrite app_nil_r in Hp.
Qed.

Lemma linked_unique m t : forall t' q q', linked m t q -> linked m t' q' -> ptr t = ptr t' -> 0 ∉ elems t -> 0 ∉ elems t' -> elems t = elems t'.
Proof.
  induction t as [|c l IHl p r IHr]; intros [|c' l' p' r'] q q' H1 H2 Hp H0 H0'; cbn in *; subst; [done|set_solver..|].
  destruct H1 as (Hn & Hl & Hr), H2 as (Hn' & Hl' & Hr'). rewrite Hn in Hn'. injection Hn' as _ Er El _.
  rewrite (IHl l' p' p'), (IHr r' p' p'); try done; set_solver.
Qed.

Lemma rep_unique s t t' : rep s [] t -> rep s [] t' -> elems t = elems t'.
Proof.
  intros [H1 _ H3 _ H5] [H1' _ H3' _ H5']. cbn in *. rewrite app_nil_r in *. eapply linked_unique; [done|done|congruence|done..].
Qed.

Lemma is_tree_facts s xs : is_tree s xs -> NoDup xs /\ 0 ∉ xs /\ forall p, p ∈ xs -> is_Some (nodes s !! p).
Proof.
  intros (t & n & Hrep & Hb & <-). pose proof (rep_nodup _ _ _ Hrep) as Hd. pose proof (rep_pos _ _ _ Hrep) as H0. cbn in *. rewrite app_nil_r in *.
  split_and!; [done..|]. intros p Hp. eapply linked_dom; [apply Hrep|done].
Qed.

Lemma keyed_ext m m' xs : (forall p, p ∈ xs -> key_of m' p = key_of m p) -> keyed m xs -> keyed m' xs.
Proof.
  intros Hm [H1 H2]. split.
  - intros p Hp. rewrite Hm by done. by apply H1.
  - clear H1. induction H2 as [|p xs H2 IH Hp]; [by constructor|]. constructor.
    + apply IH. intros q Hq. apply Hm. by right.
    + apply Forall_forall. rewrite Forall_forall in Hp. intros q Hq. destruct (Hp q Hq) as (a & Ha & b & Hb & E). exists a. split; [by rewrite Hm by (by left)|].
      exists b. split; [by rewrite Hm by (by right)|done].
Qed.

Lemma keyed_insert m bs x as_ a : keyed m (bs ++ as_) -> key_of m x = Some a -> length a = SOCKADDR_U ->
  (forall p, p ∈ bs -> below m a p) -> (forall p, p ∈ as_ -> above m a p) -> keyed m (bs ++ x :: as_).
Proof.
  intros [H1 H2] Hx Hlen Hbs Has. split.
  - intros p Hp. apply elem_of_app in Hp as [Hp|Hp]; [apply H1; set_solver|]. apply elem_of_cons in Hp as [->|Hp]; [by exists a | apply H1; set_solver].
  - apply StronglySorted_app in H2 as (H2 & H3 & H4). apply StronglySorted_app. split_and!; [|done|].
    + intros p q Hp Hq. apply elem_of_cons in Hq as [->|Hq]; [|by apply H2]. destruct (Hbs p Hp) as (b & Hb & E). exists b. split; [done|]. by exists a.
    + constructor; [done|]. apply Forall_forall. intros q Hq. exists a. split; [done|]. by apply Has.
Qed.

Lemma keyed_delete m bs x as_ : keyed m (bs ++ x :: as_) -> keyed m (bs ++ as_).
Proof.
  intros [H1 H2]. split; [intros p Hp; apply H1; set_solver|]. apply StronglySorted_app in H2 as (H2 & H3 & H4).
  apply StronglySorted_inv in H4 as [H4 _]. apply StronglySorted_app. split_and!; [|done..]. intros p q Hp Hq. apply H2; set_solver.
Qed.

(** [M]: the entry of each address; [F]: the entries that are not in the tree. *)
Record rudp_ok (s : rudp_t) (M : gmap (list Z) Z) (F : gmap Z (list Z)) : Prop := {
  ok_tree : exists xs, is_tree (rb_root s) xs /\ keyed (entries s) xs /\
    (forall a e, M !! a = Some e <-> e ∈ xs /\ key_of (entries s) e = Some a) /\
    (forall e a, F !! e = Some a <-> e ∉ xs /\ key_of (entries s) e = Some a);
  ok_dom : dom (nodes (rb_root s)) = dom (entries s);
  ok_null : entries s !! 0 = None;
  ok_len : map_Forall (fun _ a => length a = SOCKADDR_U) F;
}.

Lemma height_size t : (height t <= length (elems t))%nat.
Proof. induction t as [|c l IHl p r IHr]; cbn; [done|]. rewrite length_app. cbn. lia. Qed.

Lemma key_below m a p : below m a p -> key_of m p <> Some a.
Proof. intros (b & -> & E) [= ->]. by apply memcmp_irrefl in E. Qed.
Lemma key_above m a p : above m a p -> key_of m p <> Some a.
Proof. intros (b & -> & E) [= ->]. by apply memcmp_irrefl in E. Qed.

(** The two searches find the entry, or the place for a new one. *)
Lemma find_ok s M F key fuel : rudp_ok s M F -> length key = SOCKADDR_U ->
  (forall t n, rep (rb_root s) [] t -> balanced t RB_BLACK n -> (height t < fuel)%nat) ->
  exists r, find_place fuel key (rb_node (rb_root s)) 0 None s = Some r /\ search_loop fuel key (rb_node (rb_root s)) s = Some r.2 /\
    ((M !! key = Some r.2 /\ r.2 <> 0) \/
     (M !! key = None /\ exists k n, r = (kptr k, f_side <$> head k, 0) /\ rep (rb_root s) k E /\ balanced (plug k E) RB_BLACK n /\
        is_tree (rb_root s) (before k ++ after k) /\ keyed (entries s) (before k ++ after k) /\ hole s key k)).
Proof.
  intros Hok Hlen Hfuel. destruct (ok_tree _ _ _ Hok) as (xs & Htree & Hkeyed & HM & HF). pose proof Htree as (t & n & Hrep & Hb & <-).
  destruct (find_place_ok t fuel [] s key) as (r & Hf & Hs & Hr); [by eapply Hfuel | done | done | done | by split; intros ? ?%not_elem_of_nil|].
  rewrite (rep_root _ _ _ Hrep). cbn [kroot]. exists r. split; [done|]. split; [done|]. destruct Hr as [[Hr1 Hr2]|(k & -> & Ek & Hrepk & Hhole)].
  - left. split; [by apply HM|]. intros Hz. destruct (is_tree_facts _ _ Htree) as (_ & H0 & _). congruence.
  - right. cbn in Ek. assert (Exs : elems t = before k ++ after k) by (by rewrite <- Ek, elems_plug). rewrite Exs in *. split.
    + destruct (M !! key) as [e|] eqn:E; [|done]. apply HM in E as [Hin Hk]. exfalso. apply elem_of_app in Hin as [Hin|Hin].
      * by apply (key_below (entries s) key e); [apply Hhole|].
      * by apply (key_above (entries s) key e); [apply Hhole|].
    + exists k, n. split_and!; [done|done|by rewrite Ek|done..].
Qed.

Lemma rudp_find_ok s M F key : rudp_ok s M F -> length key = SOCKADDR_U ->
  exists r, find_place (fuel_of (rb_root s)) key (rb_node (rb_root s)) 0 None s = Some r /\ rudp_search key s = Some r.2 /\
    ((M !! key = Some r.2 /\ r.2 <> 0) \/
     (M !! key = None /\ exists k n, r = (kptr k, f_side <$> head k, 0) /\ rep (rb_root s) k E /\ balanced (plug k E) RB_BLACK n /\
        is_tree (rb_root s) (before k ++ after k) /\ keyed (entries s) (before k ++ after k) /\ hole s key k)).
Proof.
  intros Hok Hlen. apply (find_ok s M F); [done|done|]. intros t n Hrep _. pose proof (rep_depth _ _ _ Hrep). pose proof (height_size t).
  unfold fuel_of. lia.
Qed.

Lemma hole_ext s s' key k : (forall p, p ∈ before k ++ after k -> key_of (entries s') p = key_of (entries s) p) -> hole s key k -> hole s' key k.
Proof.
  intros He [H1 H2]. split; intros p Hp; [destruct (H1 p Hp) as (b & Hb & E) | destruct (H2 p Hp) as (b & Hb & E)];
    exists b; (split; [rewrite He by set_solver; done | done]).
Qed.

(** An entry that is not in the tree is put there. *)
Lemma place_ok s M F k n x key : rudp_ok s M F -> F !! x = Some key -> M !! key = None -> length key = SOCKADDR_U ->
  rep (rb_root s) k E -> balanced (plug k E) RB_BLACK n -> is_tree (rb_root s) (before k ++ after k) -> hole s key k ->
  exists t, (t ← rb_link_node x (kptr k) (f_side <$> head k) (rb_root s); rb_insert_color x t) = Some t /\
    rudp_ok (with_tree s t) (<[key := x]> M) (delete x F).
Proof.
  intros [(xs & Htree & Hkeyed & HM & HF) Hdom Hnull HFl] Hx HMk Hlen Hrep Hb Htree' Hhole.
  assert (xs = before k ++ after k) as ->.
  { destruct Htree as (t1 & n1 & R1 & _ & <-), Htree' as (t2 & n2 & R2 & _ & <-). by eapply rep_unique. }
  apply HF in Hx as [Hxn Hxk]. unfold key_of in Hxk. destruct (entries s !! x) as [ex|] eqn:Hex; [|done]. injection Hxk as Hxk.
  assert (Hx0 : x <> 0) by (intros ->; congruence).
  assert (Hnode : is_Some (nodes (rb_root s) !! x)) by (apply elem_of_dom; rewrite Hdom; by apply elem_of_dom).
  destruct (rb_insert_ok (rb_root s) k x n Hrep Hb Hx0) as (t & Et & Ht); [by rewrite kelems_perm | done|].
  exists t. split; [done|]. assert (Hkx : key_of (entries s) x = Some key) by (unfold key_of; rewrite Hex; by rewrite <- Hxk).
  split; cbn [with_tree rb_root entries]; [|rewrite <- Hdom; by apply (rb_link_dom _ _ _ _ _ Et) | done | by apply map_Forall_delete].
  exists (before k ++ x :: after k). split; [done|]. split; [by eapply keyed_insert; [..|apply Hhole|apply Hhole]|]. split.
  - intros a e. destruct (decide (a = key)) as [->|Ha].
    + rewrite lookup_insert_eq. split; [intros [= <-]; split; [set_solver|done]|]. intros [Hin Hk].
      apply elem_of_app in Hin as [Hin|Hin]; [by apply (proj1 Hhole), key_below in Hin|].
      apply elem_of_cons in Hin as [->|Hin]; [done | by apply (proj2 Hhole), key_above in Hin].
    + rewrite lookup_insert_ne, HM by done. split; intros [Hin Hk]; (split; [|done]); [set_solver|].
      assert (e <> x) by (intros ->; congruence). set_solver.
  - intros e a. rewrite lookup_delete_Some, HF. split; [intros (Hne & Hin & Hk); split; [set_solver|done] | intros [Hin Hk]; set_solver].
Qed.

(** A whole address whose bytes behind [sockaddr_len] are 0. *)
Definition padded (key : list Z) : Prop :=
  length key = SOCKADDR_U /\ drop (sockaddr_len key) key = replicate (SOCKADDR_U - sockaddr_len key) 0.

Lemma sockaddr_len_le key : (sockaddr_len key <= SOCKADDR_U)%nat.
Proof. unfold sockaddr_len, sizeof_sockaddr_in, sizeof_sockaddr_in6, SOCKADDR_U. repeat case_decide; lia. Qed.

Lemma memcpy_padded key : padded key -> memcpy (replicate SOCKADDR_U 0) key (sockaddr_len key) = Some key.
Proof.
  intros [Hlen Hpad]. pose proof (sockaddr_len_le key). unfold memcpy. rewrite decide_True by (rewrite length_replicate, Hlen; lia).
  rewrite drop_replicate, <- Hpad. by rewrite take_drop.
Qed.

(** A new entry, with its address. *)
Definition new_entry (p : Z) (key : list Z) (s : rudp_t) : rudp_t :=
  mkRudp (rb_root (alloc_entry p s)) (<[p := mkEntry key 0]> (entries (alloc_entry p s))).

Lemma in_entries s M F xs e : rudp_ok s M F -> is_tree (rb_root s) xs -> e ∈ xs -> is_Some (entries s !! e).
Proof.
  intros Hok Ht He. destruct (is_tree_facts _ _ Ht) as (_ & _ & Hn). apply elem_of_dom. rewrite <- (ok_dom _ _ _ Hok). by apply elem_of_dom, Hn.
Qed.

Lemma new_key s p key q : key_of (entries (new_entry p key s)) q = if decide (q = p) then Some key else key_of (entries s) q.
Proof.
  unfold key_of, new_entry, alloc_entry. cbn. case_decide as Hq; [subst q; by rewrite lookup_insert_eq|]. by rewrite !lookup_insert_ne.
Qed.

Lemma new_ok s M F p key : rudp_ok s M F -> p <> 0 -> entries s !! p = None -> length key = SOCKADDR_U -> rudp_ok (new_entry p key s) M (<[p := key]> F).
Proof.
  intros Hok Hp Hfree Hlen. pose proof Hok as [(xs & Htree & Hkeyed & HM & HF) Hdom Hnull HFl].
  assert (Hpx : p ∉ xs) by (intros Hin; destruct (in_entries _ _ _ _ _ Hok Htree Hin); congruence).
  assert (Hkey : forall q, q ∈ xs -> key_of (entries (new_entry p key s)) q = key_of (entries s) q).
  { intros q Hq. rewrite new_key, decide_False; [done|]. by intros ->. }
  split; cbn [new_entry alloc_entry rb_root entries nodes].
  - exists xs. split; [eapply is_tree_ext; [..|done]; [|done]|].
    { intros q Hq. cbn. rewrite lookup_insert_ne; [done|]. by intros <-. }
    split; [by apply (keyed_ext (entries s))|]. split.
    + intros a e. rewrite HM. split; intros [Hin Hk]; (split; [done|]); [by rewrite Hkey | by rewrite <- Hkey].
    + intros e a. change (key_of _ e) with (key_of (entries (new_entry p key s)) e). rewrite new_key. destruct (decide (e = p)) as [->|He].
      * rewrite lookup_insert_eq. naive_solver.
      * rewrite lookup_insert_ne by done. apply HF.
  - rewrite !dom_insert_L, Hdom. set_solver.
  - by rewrite !lookup_insert_ne.
  - by apply map_Forall_insert_2.
Qed.

Lemma get_ok s M F p key : rudp_ok s M F -> padded key ->
  match M !! key with
  | Some e => rudp_get p key s = Some (e, s)
  | None => p <> 0 -> entries s !! p = None -> exists s', rudp_get p key s = Some (p, s') /\ rudp_ok s' (<[key := p]> M) F
  end.
Proof.
  intros Hok Hpad. pose proof Hpad as [Hlen _]. destruct (rudp_find_ok s M F key Hok Hlen) as (r & Hf & _ & Hr). unfold rudp_get. rewrite Hf. cbn [mbind option_bind].
  destruct Hr as [[HMk Hr]|(HMk & k & n & -> & Hrep & Hb & Ht & Hkeyed & Hhole)]; rewrite HMk.
  - destruct r as [[pa li] e]. cbn [snd] in *. by rewrite decide_False.
  - intros Hp Hfree. rewrite decide_True by done. cbn [entries alloc_entry]. rewrite lookup_insert_eq. cbn [mbind option_bind addr io].
    rewrite memcpy_padded by done. cbn [mbind option_bind].
    assert (Hpx : p ∉ before k ++ after k) by (intros Hin; destruct (in_entries _ _ _ _ _ Hok Ht Hin); congruence).
    destruct (place_ok (new_entry p key s) M (<[p := key]> F) k n p key) as (t & Et & Hok'); [by apply new_ok | by rewrite lookup_insert_eq | done | done | | done | | |].
    + eapply rep_ext; [..|done]; [|done]. intros q Hq. cbn. rewrite lookup_insert_ne; [done|]. intros <-. apply Hpx. by rewrite kelems_perm in Hq.
    + eapply is_tree_ext; [..|done]; [|done]. intros q Hq. cbn. rewrite lookup_insert_ne; [done|]. by intros <-.
    + eapply hole_ext; [|done]. intros q Hq. rewrite new_key, decide_False; [done|]. by intros ->.
    + exists (with_tree (new_entry p key s) t). split.
      * cbn [new_entry rb_root] in Et. destruct (rb_link_node _ _ _ _) as [t0|]; [|done]. cbn [mbind option_bind] in Et |- *. rewrite Et. done.
      * rewrite delete_insert_id in Hok'; [done|]. destruct (F !! p) as [a|] eqn:EF; [|done].
        destruct Hok as [(xs & _ & _ & _ & HF) _ _ _]. apply HF in EF as [_ Hk]. unfold key_of in Hk. by rewrite Hfree in Hk.
Qed.

(** The entry of an address leaves the tree. *)
Lemma peer_unlink_ok s M F key e : rudp_ok s M F -> M !! key = Some e ->
  exists t, rb_erase e (rb_root s) = Some t /\ rudp_ok (with_tree s t) (delete key M) (<[e := key]> F).
Proof.
  intros [(xs & Htree & Hkeyed & HM & HF) Hdom Hnull HFl] He. pose proof He as Hin. apply HM in Hin as [Hin Hk].
  apply list_elem_of_split in Hin as (bs & as_ & ->). destruct (erase_ok _ _ _ _ Htree) as (t & Et & Ht). exists t. split; [done|].
  destruct (is_tree_facts _ _ Htree) as (Hnd & _ & _). rewrite NoDup_app, NoDup_cons in Hnd. destruct Hnd as (_ & Hd1 & Hd2 & _).
  assert (Hlen : length key = SOCKADDR_U) by (destruct (proj1 Hkeyed e) as (a & Ha & Hl); [set_solver|]; congruence).
  split; cbn [with_tree rb_root entries]; [|rewrite <- Hdom; by apply (rb_erase_dom _ _ _ Et) | done | by apply map_Forall_insert_2].
  exists (bs ++ as_). split; [done|]. split; [by eapply keyed_delete|]. split.
  - intros a x. rewrite lookup_delete_Some, HM. split.
    + intros (Ha & Hx & Hxk). split; [|done]. assert (x <> e) by (intros ->; congruence). set_solver.
    + intros [Hx Hxk]. split_and!; [|set_solver|done]. intros <-.
      destruct (keyed_left _ _ _ _ _ Hkeyed Hk) as [Hb Ha]. apply elem_of_app in Hx as [Hx|Hx]; [by apply (key_below _ _ _ (Hb x Hx)) | by apply (key_above _ _ _ (Ha x Hx))].
  - intros x a. destruct (decide (x = e)) as [->|Hx].
    + rewrite lookup_insert_eq. split; [intros [= <-]; split; [set_solver|done] | intros [_ Hx]; congruence].
    + rewrite lookup_insert_ne, HF by done. set_solver.
Qed.

Lemma free_ok s M F e a : rudp_ok s M F -> F !! e = Some a -> exists s', rudp_entry_free e s = Some s' /\ rudp_ok s' M (delete e F).
Proof.
  intros [(xs & Htree & Hkeyed & HM & HF) Hdom Hnull HFl] He. apply HF in He as [Hin Hk]. unfold rudp_entry_free.
  destruct (entries s !! e) as [ex|] eqn:Ee; [|unfold key_of in Hk; by rewrite Ee in Hk]. cbn [mbind option_bind]. eexists. split; [done|].
  assert (Hkey : forall q, q <> e -> key_of (delete e (entries s)) q = key_of (entries s) q) by (intros q Hq; unfold key_of; by rewrite lookup_delete_ne).
  assert (Hnk : key_of (delete e (entries s)) e = None) by (unfold key_of; by rewrite lookup_delete_eq).
  split; cbn [rb_root entries nodes].
  - exists xs. split; [eapply is_tree_ext; [..|done]; [|done]; intros q Hq; cbn; rewrite lookup_delete_ne; [done|by intros <-]|].
    assert (Hkx : forall q, q ∈ xs -> key_of (delete e (entries s)) q = key_of (entries s) q) by (intros q Hq; apply Hkey; by intros ->).
    split; [by apply (keyed_ext (entries s))|]. split.
    + intros a' x. rewrite HM. split; intros [Hx Hxk]; (split; [done|]); [by rewrite Hkx | by rewrite <- Hkx].
    + intros x a'. rewrite lookup_delete_Some, HF. destruct (decide (x = e)) as [->|Hx]; [rewrite Hnk; naive_solver|]. rewrite Hkey by done. naive_solver.
  - rewrite !dom_delete_L. by rewrite Hdom.
  - destruct (decide (e = 0)) as [->|He]; [by rewrite lookup_delete_eq | by rewrite lookup_delete_ne].
  - by apply map_Forall_delete.
Qed.

Lemma search_ok s M F key : rudp_ok s M F -> length key = SOCKADDR_U -> rudp_search key s = Some (default 0 (M !! key)).
Proof.
  intros Hok Hlen. destruct (rudp_find_ok s M F key Hok Hlen) as (r & _ & Hs & [[HMk _]|(HMk & k & n & -> & _)]); by rewrite Hs, HMk.
Qed.

Lemma in_tree_nonnull s M F key e : rudp_ok s M F -> M !! key = Some e -> e <> 0.
Proof.
  intros [(xs & Htree & _ & HM & _) _ _ _] He. apply HM in He as [Hin _]. destruct (is_tree_facts _ _ Htree) as (_ & H0 & _). congruence.
Qed.

Lemma peer_remove_ok s M F key : rudp_ok s M F -> length key = SOCKADDR_U ->
  exists s', rudp_remove key s = Some (default 0 (M !! key), s') /\
    rudp_ok s' (delete key M) (match M !! key with Some e => <[e := key]> F | None => F end).
Proof.
  intros Hok Hlen. unfold rudp_remove. rewrite (search_ok s M F key Hok Hlen). cbn [mbind option_bind].
  destruct (M !! key) as [e|] eqn:He; cbn [from_option id].
  - rewrite decide_False by (by eapply in_tree_nonnull). destruct (peer_unlink_ok _ _ _ _ _ Hok He) as (t & -> & Hok'). cbn [mbind option_bind]. by eexists.
  - rewrite decide_True by done. exists s. split; [done|]. by rewrite delete_id.
Qed.

Lemma peer_del_ok s M F key : rudp_ok s M F -> length key = SOCKADDR_U -> exists s', rudp_del key s = Some s' /\ rudp_ok s' (delete key M) F.
Proof.
  intros Hok Hlen. unfold rudp_del. rewrite (search_ok s M F key Hok Hlen). cbn [mbind option_bind].
  destruct (M !! key) as [e|] eqn:He; cbn [from_option id].
  - rewrite decide_False by (by eapply in_tree_nonnull). destruct (peer_unlink_ok _ _ _ _ _ Hok He) as (t & -> & Hok'). cbn [mbind option_bind].
    destruct (free_ok _ _ _ e key Hok') as (s' & -> & Hok''); [by rewrite lookup_insert_eq|]. exists s'. split; [done|]. rewrite delete_insert_id in Hok''; [done|].
    destruct (F !! e) as [a|] eqn:EF; [|done]. destruct Hok as [(xs & _ & _ & HM & HF) _ _ _]. apply HF in EF as [Hn _]. apply HM in He as [Hin _]. done.
  - rewrite decide_True by done. exists s. split; [done|]. by rewrite delete_id.
Qed.

Lemma insert_entry_ok s M F e key : rudp_ok s M F -> F !! e = Some key ->
  exists s', rudp_insert e s = Some (match M !! key with Some _ => false | None => true end, s') /\
    match M !! key with Some _ => s' = s | None => rudp_ok s' (<[key := e]> M) (delete e F) end.
Proof.
  intros Hok He. pose proof (ok_len _ _ _ Hok e key He) as Hlen. cbn in Hlen. unfold rudp_insert.
  assert (Hk : exists x, entries s !! e = Some x /\ addr x = key).
  { destruct Hok as [(xs & _ & _ & _ & HF) _ _ _]. apply HF in He as [_ Hk]. unfold key_of in Hk. destruct (entries s !! e) as [x|]; [|done]. injection Hk as Hk. by exists x. }
  destruct Hk as (x & -> & Hx). cbn [mbind option_bind]. rewrite Hx. destruct (rudp_find_ok s M F key Hok Hlen) as (r & -> & _ & Hr). cbn [mbind option_bind].
  destruct Hr as [[HMk Hr]|(HMk & k & n & -> & Hrep & Hb & Ht & Hkeyed & Hhole)]; rewrite HMk.
  - destruct r as [[pa li] f]. cbn [snd] in *. rewrite decide_False by done. by exists s.
  - rewrite decide_True by done. destruct (place_ok s M F k n e key) as (t & Et & Hok'); [done..|].
    destruct (rb_link_node _ _ _ _) as [t0|]; [|done]. cbn [mbind option_bind] in Et |- *. rewrite Et. by exists (with_tree s t).
Qed.

Lemma cleanup_loop_ok F fuel : forall s M, rudp_ok s M F -> (size M < fuel)%nat -> exists s', cleanup_loop fuel s = Some s' /\ rudp_ok s' ∅ F.
Proof.
  induction fuel as [|fuel IH]; intros s M Hok Hfuel; [lia|]. cbn [cleanup_loop]. pose proof Hok as [(xs & Htree & Hkeyed & HM & HF) _ _ _].
  pose proof Htree as (t & n & Hrep & _ & Exs). rewrite (rep_root _ _ _ Hrep). cbn [kroot]. destruct t as [|c l p r]; cbn [ptr].
  - rewrite decide_True by done. exists s. split; [done|]. replace ∅ with M; [done|]. apply map_eq. intros a. rewrite lookup_empty.
    destruct (M !! a) as [e|] eqn:He; [|done]. apply HM in He as [He _]. rewrite <- Exs in He. by apply not_elem_of_nil in He.
  - assert (Hp : p ∈ xs) by (rewrite <- Exs; cbn; set_solver). destruct (proj1 Hkeyed p Hp) as (a & Ha & _).
    assert (HMa : M !! a = Some p) by (by apply HM). rewrite decide_False by (by eapply in_tree_nonnull).
    destruct (peer_unlink_ok _ _ _ _ _ Hok HMa) as (t' & -> & Hok'). cbn [mbind option_bind].
    destruct (free_ok _ _ _ p a Hok') as (s' & -> & Hok''); [by rewrite lookup_insert_eq|]. cbn [mbind option_bind].
    rewrite delete_insert_id in Hok''.
    + apply (IH s' (delete a M) Hok''). rewrite map_size_delete_Some by (by eexists). assert (size M <> 0)%nat; [|lia].
      apply map_size_non_empty_iff. intros ->. by rewrite lookup_empty in HMa.
    + destruct (F !! p) as [b|] eqn:EF; [|done]. apply HF in EF as [Hn _]. done.
Qed.

Lemma size_keys m xs : forall M : gmap (list Z) Z, NoDup xs -> (forall p, p ∈ xs -> is_Some (key_of m p)) ->
  (forall a e, M !! a = Some e <-> e ∈ xs /\ key_of m e = Some a) -> length xs = size M.
Proof.
  induction xs as [|x xs IH]; intros M Hnd Hk HM.
  - symmetry. apply map_size_empty_iff, map_eq. intros a. rewrite lookup_empty. destruct (M !! a) as [e|] eqn:He; [|done].
    apply HM in He as [He _]. by apply not_elem_of_nil in He.
  - apply NoDup_cons in Hnd as [Hx Hnd]. destruct (Hk x ltac:(by left)) as [a Ha]. assert (HMa : M !! a = Some x) by (apply HM; split; [by left|done]).
    rewrite <- (insert_delete_id M a x HMa), map_size_insert_None by apply lookup_delete_eq. cbn. f_equal. apply IH; [done | intros p Hp; apply Hk; by right |].
    intros b e. rewrite lookup_delete_Some, HM, elem_of_cons. split; [intros (Hb & [->|He] & Hkb); [congruence | done]|].
    intros [He Hkb]. split_and!; [|by right|done]. intros <-. assert (Hab : M !! a = Some e) by (apply HM; split; [by right|done]). congruence.
Qed.

Lemma size_ok s M F : rudp_ok s M F -> exists xs, is_tree (rb_root s) xs /\ length xs = size M.
Proof.
  intros [(xs & Htree & Hkeyed & HM & _) _ _ _]. exists xs. split; [done|]. destruct (is_tree_facts _ _ Htree) as (Hnd & _).
  apply (size_keys (entries s)); [done| |done]. intros p Hp. destruct (proj1 Hkeyed p Hp) as (a & Ha & _). by exists a.
Qed.

Lemma cleanup_ok s M F : rudp_ok s M F -> exists s', rudp_cleanup s = Some s' /\ rudp_ok s' ∅ F.
Proof.
  intros Hok. apply (cleanup_loop_ok F _ s M Hok). apply Nat.lt_succ_r. destruct (size_ok _ _ _ Hok) as (xs & Htree & <-).
  destruct (is_tree_facts _ _ Htree) as (Hnd & _ & Hnodes). rewrite <- (size_list_to_set (C := gset Z) xs), <- size_dom by done.
  apply subseteq_size. intros e He. apply elem_of_list_to_set in He. rewrite <- (ok_dom _ _ _ Hok). by apply elem_of_dom, Hnodes.
Qed.

Lemma io_ok s M F n e i : rudp_ok s M F -> entries s !! n = Some e -> rudp_ok (mkRudp (rb_root s) (<[n := mkEntry (addr e) i]> (entries s))) M F.
Proof.
  intros [(xs & Htree & Hkeyed & HM & HF) Hdom Hnull HFl] He.
  assert (Hkey : forall q, key_of (<[n := mkEntry (addr e) i]> (entries s)) q = key_of (entries s) q).
  { intros q. unfold key_of. destruct (decide (q = n)) as [->|Hq]; [by rewrite lookup_insert_eq, He | by rewrite lookup_insert_ne]. }
  split; cbn [rb_root entries]; [|by rewrite dom_insert_lookup_L | rewrite lookup_insert_ne; [done|congruence] | done].
  exists xs. split; [done|]. split; [by apply (keyed_ext (entries s))|]. split; [intros a x; by rewrite Hkey | intros x a; by rewrite Hkey].
Qed.

Lemma rudp_init_ok : rudp_ok rudp_init ∅ ∅.
Proof.
  split; cbn; [|done..]. exists []. split; [|split; [|split]].
  - exists E, 0%nat. split; [|split; [constructor|done]]. split; cbn; try done; [constructor|set_solver].
  - split; [by intros p ?%not_elem_of_nil | constructor].
  - intros a e. unfold key_of. rewrite !lookup_empty. naive_solver.
  - intros e a. unfold key_of. rewrite !lookup_empty. naive_solver.
Qed.

(** ** The map of the peers *)

(** The calls of a program; [p] is what the allocator returns if it is called. *)
Inductive call :=
  | Get (p : Z) (key : list Z)
  | GetOf (i p : Z) (key : list Z)
  | Search (key : list Z)
  | Remove (key : list Z)
  | Del (key : list Z)
  | Insert (e : Z)
  | Free (e : Z)
  | Cleanup.

Definition exec (c : call) (s : rudp_t) : option (Z * rudp_t) :=
  match c with
  | Get p key => rudp_get p key s
  | GetOf i p key => hio_get_rudp i p key s
  | Search key => e ← rudp_search key s; Some (e, s)
  | Remove key => rudp_remove key s
  | Del key => s ← rudp_del key s; Some (0, s)
  | Insert e => '(b, s) ← rudp_insert e s; Some (Z.b2z b, s)
  | Free e => s ← rudp_entry_free e s; Some (0, s)
  | Cleanup => s ← rudp_cleanup s; Some (0, s)
  end.

Fixpoint run (cs : list call) (s : rudp_t) : option (list Z * rudp_t) :=
  match cs with
  | [] => Some ([], s)
  | c :: cs => '(r, s) ← exec c s; '(rs, s) ← run cs s; Some (r :: rs, s)
  end.

(** The promise: a map from addresses to entries and the entries that are not in it,
    which belong to the caller.  [None]: the caller may not do that. *)
Definition peers : Type := gmap (list Z) Z * gmap Z (list Z).

Definition get_means (p : Z) (key : list Z) (a : peers) : option (Z * peers) :=
  match a.1 !! key with
  | Some e => Some (e, a)
  | None => if decide (p <> 0 /\ a.2 !! p = None /\ map_Forall (fun _ e => e <> p) a.1) then Some (p, (<[key := p]> a.1, a.2)) else None
  end.

Definition means (c : call) (a : peers) : option (Z * peers) :=
  match c with
  | Get p key | GetOf _ p key => get_means p key a
  | Search key => Some (default 0 (a.1 !! key), a)
  | Remove key => Some (default 0 (a.1 !! key), (delete key a.1, match a.1 !! key with Some e => <[e := key]> a.2 | None => a.2 end))
  | Del key => Some (0, (delete key a.1, a.2))
  | Insert e => key ← a.2 !! e; Some (match a.1 !! key with Some _ => (0, a) | None => (1, (<[key := e]> a.1, delete e a.2)) end)
  | Free e => _ ← a.2 !! e; Some (0, (a.1, delete e a.2))
  | Cleanup => Some (0, (∅, a.2))
  end.

Fixpoint means_all (cs : list call) (a : peers) : option (list Z * peers) :=
  match cs with
  | [] => Some ([], a)
  | c :: cs => '(r, a) ← means c a; '(rs, a) ← means_all cs a; Some (r :: rs, a)
  end.

(** The addresses that are passed have the size that is compared. *)
Definition valid (c : call) : Prop :=
  match c with
  | Get _ key | GetOf _ _ key => padded key
  | Search key | Remove key | Del key => length key = SOCKADDR_U
  | _ => True
  end.

Lemma fresh_entry s M F p : rudp_ok s M F -> F !! p = None -> map_Forall (fun _ e => e <> p) M -> entries s !! p = None.
Proof.
  intros [(xs & Htree & _ & HM & HF) _ _ _] HFp HMp. destruct (entries s !! p) as [e|] eqn:He; [|done]. exfalso.
  assert (Hk : key_of (entries s) p = Some (addr e)) by (unfold key_of; by rewrite He). destruct (decide (p ∈ xs)) as [Hin|Hin].
  - by apply (HMp (addr e) p); [apply HM|].
  - assert (F !! p = Some (addr e)) by (by apply HF). congruence.
Qed.

Lemma get_refines s a p key r a' : rudp_ok s a.1 a.2 -> padded key -> get_means p key a = Some (r, a') ->
  exists s', rudp_get p key s = Some (r, s') /\ rudp_ok s' a'.1 a'.2 /\ is_Some (entries s' !! r).
Proof.
  destruct a as [M F]. unfold get_means. cbn [fst snd]. intros Hok Hpad Hm. pose proof (get_ok s M F p key Hok Hpad) as Hget.
  assert (Hin : forall s' M' a e, rudp_ok s' M' F -> M' !! a = Some e -> is_Some (entries s' !! e)).
  { intros s' M' a e Hok' He. pose proof Hok' as [(xs & Htree & _ & HM & _) _ _ _]. pose proof (proj1 (HM _ _) He) as [Hin _]. by eapply in_entries. }
  destruct (M !! key) as [e|] eqn:He.
  - injection Hm as <- <-. exists s. split_and!; [done|done|by eapply Hin].
  - case_decide as Hp; [|done]. destruct Hp as (Hp & HFp & HMp). injection Hm as <- <-.
    destruct Hget as (s' & Hs & Hok'); [done | by eapply fresh_entry |]. exists s'. split_and!; [done|done|]. eapply Hin; [done|]. by rewrite lookup_insert_eq.
Qed.

Lemma exec_refines c s a r a' : rudp_ok s a.1 a.2 -> valid c -> means c a = Some (r, a') ->
  exists s', exec c s = Some (r, s') /\ rudp_ok s' a'.1 a'.2.
Proof.
  intros Hok Hv Hm. destruct c as [p key|i p key|key|key|key|e|e|]; cbn [exec means valid] in *.
  - destruct (get_refines _ _ _ _ _ _ Hok Hv Hm) as (s' & -> & Hok' & _). by exists s'.
  - destruct (get_refines _ _ _ _ _ _ Hok Hv Hm) as (s' & Hs & Hok' & [e He]). unfold hio_get_rudp. rewrite Hs. cbn [mbind option_bind].
    rewrite He. cbn [mbind option_bind]. eexists. split; [done|]. by apply io_ok.
  - injection Hm as <- <-. rewrite (search_ok _ _ _ _ Hok Hv). by exists s.
  - injection Hm as <- <-. by apply (peer_remove_ok s a.1 a.2).
  - injection Hm as <- <-. destruct (peer_del_ok _ _ _ _ Hok Hv) as (s' & -> & Hok'). by exists s'.
  - destruct (a.2 !! e) as [key|] eqn:He; [|done]. destruct (insert_entry_ok _ _ _ _ _ Hok He) as (s' & -> & Hs'). cbn [mbind option_bind] in *.
    destruct (a.1 !! key); injection Hm as <- <-; exists s'; (split; [done|]); [by subst s' | done].
  - destruct (a.2 !! e) as [key|] eqn:He; [|done]. injection Hm as <- <-. destruct (free_ok _ _ _ _ _ Hok He) as (s' & -> & Hok'). by exists s'.
  - injection Hm as <- <-. destruct (cleanup_ok _ _ _ Hok) as (s' & -> & Hok'). by exists s'.
Qed.

Lemma run_refines cs : forall s a rs a', rudp_ok s a.1 a.2 -> Forall valid cs -> means_all cs a = Some (rs, a') ->
  exists s', run cs s = Some (rs, s') /\ rudp_ok s' a'.1 a'.2.
Proof.
  induction cs as [|c cs IH]; intros s a rs a' Hok Hv Hm; cbn [run means_all] in *; [injection Hm as <- <-; by exists s|].
  apply Forall_cons in Hv as [Hc Hv]. destruct (means c a) as [[r a1]|] eqn:E1; [|done]. cbn [mbind option_bind] in Hm.
  destruct (means_all cs a1) as [[rs1 a2]|] eqn:E2; [|done]. cbn [mbind option_bind] in Hm. injection Hm as <- <-.
  destruct (exec_refines _ _ _ _ _ Hok Hc E1) as (s1 & -> & Hok1). destruct (IH s1 a1 rs1 a2 Hok1 Hv E2) as (s2 & Es & Hok2).
  exists s2. cbn [mbind option_bind]. by rewrite Es.
Qed.

(** [C12] The tree of the peers is a map from addresses to entries: whatever calls a
    program makes on a new [rudp_t], if the map allows them (an allocator returns a
    new entry, only an entry out of the tree is inserted or freed, addresses are
    whole and 0 behind their length), the calls return, they never touch memory that was
    freed or is none, every search returns the entry of the address or NULL, every
    result is that of the map, and the tree is a red-black tree of the map at the end. *)
Theorem rudp_refines (cs : list call) (rs : list Z) (a : peers) :
  Forall valid cs -> means_all cs (∅, ∅) = Some (rs, a) ->
  exists s, run cs rudp_init = Some (rs, s) /\ rudp_ok s a.1 a.2.
Proof. intros Hv Hm. apply (run_refines cs rudp_init (∅, ∅)); [apply rudp_init_ok | done | done]. Qed.

(** An IPv4 address with its port, in a [sockaddr_u]. *)
Definition in4 (port a b c d : Z) : list Z := [2; 0; port / 256; port mod 256; a; b; c; d] ++ replicate 20 0.

Lemma rudp_refines_witness :
  let k1 := in4 4000 10 0 0 1 in let k2 := in4 4000 10 0 0 2 in let k3 := in4 80 10 0 0 1 in
  exists s, run [Get 100 k1; GetOf 7 200 k2; Get 300 k1; Get 300 k3; Search k2; Remove k1; Search k1; Insert 100; Remove k3; Free 300; Del k2; Cleanup] rudp_init
    = Some ([100; 200; 100; 300; 200; 100; 0; 1; 300; 0; 0; 0], s) /\ rudp_ok s ∅ ∅.
Proof.
  refine (rudp_refines _ _ (∅, ∅) _ _).
  - repeat constructor.
  - vm_compute. reflexivity.
Defined.

(** ** How long a search is *)

Lemma search_rounds s M F key fuel : rudp_ok s M F -> length key = SOCKADDR_U -> (2 * Nat.log2 (S (size M)) < fuel)%nat ->
  search_loop fuel key (rb_node (rb_root s)) s = Some (default 0 (M !! key)).
Proof.
  intros Hok Hlen Hfuel. destruct (size_ok _ _ _ Hok) as (xs & Htree & Exs). destruct Htree as (t0 & n0 & Hrep0 & _ & Et0).
  destruct (find_ok s M F key fuel Hok Hlen) as (r & _ & -> & [[-> _]|(-> & k & n & -> & _)]); [|done..].
  intros t n Hrep Hb. pose proof (tree_height t n Hb) as Hh. rewrite (rep_unique _ _ _ Hrep Hrep0), Et0, Exs in Hh. lia.
Qed.

(** [C14] After any calls the map allows, a search compares at most [2 * log2 (n + 1)]
    addresses of [n] peers: with one round more than that for the NULL at the end, the
    loop of [rudp_search] returns what the map holds. *)
Theorem rudp_search_rounds (cs : list call) (rs : list Z) (a : peers) (s : rudp_t) (key : list Z) :
  Forall valid cs -> means_all cs (∅, ∅) = Some (rs, a) -> run cs rudp_init = Some (rs, s) -> length key = SOCKADDR_U ->
  search_loop (S (2 * Nat.log2 (S (size a.1)))) key (rb_node (rb_root s)) s = Some (default 0 (a.1 !! key)).
Proof.
  intros Hv Hm Hrun Hlen. destruct (run_refines cs rudp_init (∅, ∅) rs a) as (s' & Hs' & Hok); [apply rudp_init_ok | done | done |].
  rewrite Hrun in Hs'. injection Hs' as <-. apply (search_rounds s a.1 a.2); [done | done | lia].
Qed.

Definition get_seq (n : nat) : list call := (fun i => Get (Z.of_nat i + 1) (in4 (Z.of_nat i) 10 0 0 1)) <$> seq 0 n.

(** 12 peers that came in order: 7 rounds. *)
Lemma rudp_search_rounds_witness : exists s, run (get_seq 12) rudp_init = Some ((fun i => Z.of_nat i + 1) <$> seq 0 12, s) /\
  search_loop 7 (in4 11 10 0 0 1) (rb_node (rb_root s)) s = Some 12.
Proof.
  destruct (run (get_seq 12) rudp_init) as [[rs s]|] eqn:Hrun; [|exfalso; vm_compute in Hrun; discriminate].
  exists s. destruct (means_all (get_seq 12) (∅, ∅)) as [[rs' a]|] eqn:Hm; [|exfalso; vm_compute in Hm; discriminate].
  assert (Hrs : rs = (fun i => Z.of_nat i + 1) <$> seq 0 12) by (vm_compute in Hrun; injection Hrun as <- _; reflexivity).
  assert (Hrs' : rs' = rs) by (vm_compute in Hm; injection Hm as <- _; rewrite Hrs; reflexivity).
  assert (Ha : size a.1 = 12%nat /\ default 0 (a.1 !! in4 11 10 0 0 1) = 12) by (vm_compute in Hm; injection Hm as _ <-; vm_compute; split; reflexivity).
  subst rs'. split; [by rewrite Hrs|]. destruct Ha as [Hn Ha]. rewrite <- Ha.
  assert (E7 : 7%nat = S (2 * Nat.log2 (S (size a.1)))) by (rewrite Hn; reflexivity). rewrite E7.
  refine (rudp_search_rounds (get_seq 12) rs a s _ _ Hm Hrun _); [|reflexivity]. vm_compute. repeat constructor.
Defined.

(** ** What the code does not keep *)

(** Closing the io of one peer twice before the loop runs the events: the second
    event reads the entry that the first one freed. *)
Example close_twice_uses_freed : let k := in4 4000 10 0 0 1 in
  ('(_, s) ← hio_get_rudp 7 100 k rudp_init;
   s ← hio_close_rudp k 200 None (s, []);
   s ← hio_close_rudp k 200 None s;
   hio_close_rudp_event_cb s) <> None /\
  ('(_, s) ← hio_get_rudp 7 100 k rudp_init;
   s ← hio_close_rudp k 200 None (s, []);
   s ← hio_close_rudp k 200 None s;
   s ← hio_close_rudp_event_cb s;
   hio_close_rudp_event_cb s) = None.
Proof. vm_compute. split; [discriminate|reflexivity]. Qed.

(** Closing a peer that has no entry makes one, whose [io] is NULL. *)
Example close_unknown_null_io : let k := in4 4000 10 0 0 1 in
  (fmap snd (hio_close_rudp k 200 None (rudp_init, [])) = Some [200]) /\
  (hio_close_rudp k 200 None (rudp_init, []) ≫= hio_close_rudp_event_cb) = None.
Proof. vm_compute. split; reflexivity. Qed.

(** An IPv4 address in a [sockaddr_u] whose other bytes are not 0 is entered anew every time. *)
Example unpadded_never_found : let k := take 16 (in4 4000 10 0 0 1) ++ replicate 12 1 in
  fmap fst (run [Get 100 k; Get 200 k; Search k] rudp_init) = Some [100; 200; 0].
Proof. reflexivity. Qed.

(** An address in a [struct sockaddr] of its own, of 16 bytes, is read out of its bounds. *)
Example short_address_out_of_bounds : let k := in4 4000 10 0 0 1 in
  run [Get 100 (take 16 k)] rudp_init <> None /\ run [Get 100 (take 16 k); Get 200 (take 16 k)] rudp_init = None.
Proof. vm_compute. split; [discriminate|reflexivity]. Qed.
