(* ===== verification/WebSocketParser.v ===== *)
(** * The WebSocket frame parser and builder:
    [libs/libhv/http/websocket_parser.c] and its client
    [libs/libhv/http/WebSocketParser.cpp]

    [websocket_parser_execute] is called with successive chunks of a TCP
    stream and calls back with frame headers, pieces of bodies and frame ends.
    The callbacks are a parameter (they return an [int] and may change the
    parser through its pointer); the C++ class gives the concrete ones. *)

From S2P Require Import Prelude.

Module WebSocket.

(** ** Data *)

Definition WS_OP_MASK : Z := 0xF.
Definition WS_FIN : Z := 0x10.
Definition WS_HAS_MASK : Z := 0x20.

Inductive ws_state := s_start | s_head | s_length | s_mask | s_body.
#[export] Instance ws_state_eq : EqDecision ws_state.
Proof. solve_decision. Defined.

(** [struct websocket_parser]; [data] is the callback state. *)
Record websocket_parser := mkParser {
  state : ws_state;
  flags : Z;
  mask : list Z;
  mask_offset : Z;
  len : Z;
  require : Z;
  offset : Z;
}.

Definition websocket_parser_init : websocket_parser := mkParser s_start 0 [0; 0; 0; 0] 0 0 0 0.

Definition set_state (p : websocket_parser) (s : ws_state) : websocket_parser :=
  mkParser s (flags p) (mask p) (mask_offset p) (len p) (require p) (offset p).
Definition set_require (p : websocket_parser) (r : Z) : websocket_parser :=
  mkParser (state p) (flags p) (mask p) (mask_offset p) (len p) r (offset p).
Definition set_len (p : websocket_parser) (l : Z) : websocket_parser :=
  mkParser (state p) (flags p) (mask p) (mask_offset p) l (require p) (offset p).
Definition set_mask (p : websocket_parser) (m : list Z) : websocket_parser :=
  mkParser (state p) (flags p) m (mask_offset p) (len p) (require p) (offset p).
Definition set_mask_offset (p : websocket_parser) (o : Z) : websocket_parser :=
  mkParser (state p) (flags p) (mask p) o (len p) (require p) (offset p).
Definition set_offset (p : websocket_parser) (o : Z) : websocket_parser :=
  mkParser (state p) (flags p) (mask p) (mask_offset p) (len p) (require p) o.

(** Callback invocations.  A body callback gets the memory from [at] on (the
    rest of the chunk) and a length. *)
Inductive ws_event :=
| on_frame_header
| on_frame_body (at_ : list Z) (n : Z)
| on_frame_end.

Section Execute.
Context {U : Type} (cb : U -> websocket_parser -> ws_event -> U * websocket_parser * Z).

(** What an iteration of the loop does: go on after [k] bytes, return from the
    function at the byte number [k], or hand out more bytes than there are. *)
Inductive outcome :=
| Next (u : U) (p : websocket_parser) (fo : Z) (k : nat)
| Stop (u : U) (p : websocket_parser) (k : nat)
| Overrun (n : Z).

(** [NOTIFY_CB] and [EMIT_DATA_CB]: [k] is the offset of [p] when called. *)
Definition notify (ev : ws_event) (u : U) (p : websocket_parser) (k : nat)
    (next : U -> websocket_parser -> outcome) : outcome :=
  let '(u', p', r) := cb u p ev in
  if decide (r <> 0) then Stop u' p' k else next u' p'.

(** The end of a header: a body follows, or the frame is empty.  [k] is the
    offset of the last byte of the header. *)
Definition header_done (u : U) (p : websocket_parser) (fo : Z) (k : nat) : outcome :=
  if decide (len p <> 0) then
    notify on_frame_header u (set_require (set_state p s_body) (len p)) k
      (fun u p => Next u p fo (S k))
  else
    notify on_frame_header u (set_state p s_start) k (fun u p =>
    notify on_frame_end u p k (fun u p => Next u p fo (S k))).

(** After the length: the mask comes first when there is one. *)
Definition length_done (u : U) (p : websocket_parser) (fo : Z) (k : nat) : outcome :=
  if decide (Z.land (flags p) WS_HAS_MASK <> 0)
  then Next u (set_require (set_state p s_mask) 4) fo (S k)
  else header_done u p fo k.

Definition step_start (cc : Z) (u : U) (p : websocket_parser) (fo : Z) : outcome :=
  let fl := Z.land cc WS_OP_MASK in
  let fl := if decide (Z.land cc 0x80 <> 0) then Z.lor fl WS_FIN else fl in
  Next u (mkParser s_head fl (mask p) 0 0 (require p) 0) (fo + 1) 1.

Definition step_head (cc : Z) (u : U) (p : websocket_parser) (fo : Z) : outcome :=
  let l := Z.land cc 0x7F in
  let fl := if decide (Z.land cc 0x80 <> 0) then Z.lor (flags p) WS_HAS_MASK else flags p in
  let p := mkParser (state p) fl (mask p) (mask_offset p) l (require p) (offset p) in
  if decide (126 <= l) then
    let p := set_require p (if decide (l = 127) then 8 else 2) in
    Next u (set_state (set_len p 0) s_length) (fo + 1) 1
  else length_done u p (fo + 1) 0.

(** [while(HAS_DATA() && parser->require)] over the length bytes; also returns
    the number of bytes read. *)
Fixpoint length_loop (rest : list Z) (p : websocket_parser) (k : nat) : websocket_parser * nat :=
  match rest with
  | cc :: rest' =>
      if decide (require p <> 0) then
        length_loop rest' (set_require (set_len p (Z.lor (u64 (Z.shiftl (len p) 8)) cc)) (require p - 1)) (S k)
      else (p, k)
  | [] => (p, k)
  end.

Definition step_length (rest : list Z) (u : U) (p : websocket_parser) (fo : Z) : outcome :=
  let '(p, k) := length_loop rest p 0 in
  let fo := fo + Z.of_nat k in
  if decide (require p = 0) then length_done u p fo (k - 1) else Next u p fo k.

(** The same loop over the mask bytes. *)
Fixpoint mask_loop (rest : list Z) (p : websocket_parser) (k : nat) : websocket_parser * nat :=
  match rest with
  | cc :: rest' =>
      if decide (require p <> 0) then
        mask_loop rest' (set_require (set_mask p (<[Z.to_nat (4 - require p) := cc]> (mask p))) (require p - 1)) (S k)
      else (p, k)
  | [] => (p, k)
  end.

Definition step_mask (rest : list Z) (u : U) (p : websocket_parser) (fo : Z) : outcome :=
  let '(p, k) := mask_loop rest p 0 in
  let fo := fo + Z.of_nat k in
  if decide (require p = 0) then header_done u p fo (k - 1) else Next u p fo k.

(** [p + parser->require <= end] on 64-bit addresses: [here] is the address of
    [p] and [endp] that of [end]. *)
Definition fits (here endp req : Z) : bool := u64 (here + req) <=? endp.

(** The end of a piece of body of [k] bytes: the frame ends when none is missing. *)
Definition body_done (u : U) (p : websocket_parser) (fo : Z) (k : nat) : outcome :=
  if decide (require p = 0) then
    notify on_frame_end u (set_state p s_start) (k - 1) (fun u p => Next u p fo k)
  else Next u p fo k.

Definition step_body (here : Z) (pos : Z) (rest : list Z) (u : U) (p : websocket_parser) (fo : Z) : outcome :=
  let avail := length rest in
  if decide (require p <> 0) then
    if fits here (here + Z.of_nat avail) (require p) then
      if decide (Z.of_nat avail < require p) then Overrun (require p)
      else
        notify (on_frame_body rest (require p)) u p 0 (fun u p =>
          let n := Z.to_nat (require p) in
          body_done u (set_require p 0) (pos + Z.of_nat n) n)
    else
      notify (on_frame_body rest (Z.of_nat avail)) u p 0 (fun u p =>
        let p := set_require p (require p - Z.of_nat avail) in
        let p := set_offset p (offset p + (pos + Z.of_nat avail) - fo) in
        body_done u p 0 avail)
  else body_done u p fo 1.

(** One iteration of [for(p = data; p != end; p++)]; [here] is the address of
    the current byte, [pos] its index in the chunk. *)
Definition step (here pos : Z) (rest : list Z) (u : U) (p : websocket_parser) (fo : Z) : outcome :=
  match rest with
  | [] => Next u p fo 0
  | cc :: _ =>
      match state p with
      | s_start => step_start cc u p fo
      | s_head => step_head cc u p fo
      | s_length => step_length rest u p fo
      | s_mask => step_mask rest u p fo
      | s_body => step_body here pos rest u p fo
      end
  end.

(** The loop, with fuel: the new states and the number of bytes parsed. *)
Fixpoint execute_loop (fuel : nat) (addr : Z) (pos : nat) (rest : list Z) (u : U)
    (p : websocket_parser) (fo : Z) : option (U * websocket_parser * nat) :=
  match rest with
  | [] => Some (u, p, pos)
  | _ =>
      match fuel with
      | O => None
      | S fuel' =>
          match step (addr + Z.of_nat pos) (Z.of_nat pos) rest u p fo with
          | Next u' p' fo' k => execute_loop fuel' addr (pos + k) (drop k rest) u' p' fo'
          | Stop u' p' k => Some (u', p', pos + k)%nat
          | Overrun _ => None
          end
      end
  end.

(** [websocket_parser_execute] on the chunk [data] at the address [addr]. *)
Definition websocket_parser_execute (addr : Z) (data : list Z) (u : U) (p : websocket_parser)
  : option (U * websocket_parser * nat) :=
  execute_loop (length data) addr 0 data u p 0.

End Execute.

(** ** Masking, frame sizes and the frame builder *)

(** The loop of [websocket_decode], from the index [i]. *)
Fixpoint decode_from (i : Z) (src : list Z) (mask : list Z) (mask_offset : Z) : list Z :=
  match src with
  | [] => []
  | c :: src' =>
      Z.lxor c (default 0 (mask !! Z.to_nat ((i + mask_offset) mod 4)))
        :: decode_from (i + 1) src' mask mask_offset
  end.

(** [websocket_decode]: the decoded bytes and the offset returned. *)
Definition websocket_decode (src : list Z) (mask : list Z) (mask_offset : Z) : list Z * Z :=
  (decode_from 0 src mask mask_offset, (Z.of_nat (length src) + mask_offset) mod 4).

(** [websocket_parser_decode]: the same, storing the offset in the parser. *)
Definition websocket_parser_decode (src : list Z) (p : websocket_parser) : list Z * websocket_parser :=
  let '(dst, o) := websocket_decode src (mask p) (mask_offset p) in (dst, set_mask_offset p o).

Definition websocket_calc_frame_size (flags data_len : Z) : Z :=
  let size := u64 (data_len + 2) in
  let size := if decide (126 <= data_len) then
                if decide (0xFFFF < data_len) then u64 (size + 8) else u64 (size + 2)
              else size in
  if decide (Z.land flags WS_HAS_MASK <> 0) then u64 (size + 4) else size.

(** The bytes of the header written by [websocket_build_frame]. *)
Definition build_header (flags data_len : Z) : list Z :=
  let b0 := Z.lor (if decide (Z.land flags WS_FIN <> 0) then 0x80 else 0) (Z.land flags WS_OP_MASK) in
  let b1 := if decide (Z.land flags WS_HAS_MASK <> 0) then 0x80 else 0 in
  if decide (data_len < 126) then [b0; Z.lor b1 data_len]
  else if decide (data_len <= 0xFFFF) then
    [b0; Z.lor b1 126; u8 (Z.shiftr data_len 8); Z.land data_len 0xFF]
  else
    b0 :: Z.lor b1 127 ::
    map (fun s => Z.land (Z.shiftr data_len s) 0xFF) [56; 48; 40; 32; 24; 16; 8; 0].

(** [websocket_build_frame]: the bytes written at [frame[0]], ...; a NULL mask
    leaves the four bytes that are at the mask's place in [frame]. *)
Definition websocket_build_frame (frame : list Z) (flags : Z) (mask : option (list Z))
    (data : list Z) : list Z :=
  let hdr := build_header flags (Z.of_nat (length data)) in
  if decide (Z.land flags WS_HAS_MASK <> 0) then
    let m := match mask with Some m => m | None => take 4 (drop (length hdr) frame) end in
    hdr ++ m ++ fst (websocket_decode data m 0)
  else hdr ++ data.


(** ** Specification: one byte at a time

    The state machine of RFC 6455 framing, consuming a byte per step and
    delivering bodies byte by byte.  The parser is shown to behave as this
    machine on every chunk, so the result does not depend on the chunking. *)

(** A frame whose length is an [int] with its successor: the callbacks of
    [WebSocketParser.cpp] only return 0 below this limit. *)
Definition len_limit : Z := 2 ^ 31 - 1.

(** What the parser may expect of its callbacks (and
    [WebSocketParser.cpp] provides): they return 0, change nothing of the
    parser but [mask_offset], do not look at [require] and [offset], and treat
    a body in one piece as they treat it in two. *)
Class CallbackLaws {U} (cb : U -> websocket_parser -> ws_event -> U * websocket_parser * Z) : Prop := {
  cb_ret u p ev : 0 <= len p < len_limit -> (cb u p ev).2 = 0;
  cb_frame u p ev : exists o, (cb u p ev).1.2 = set_mask_offset p o;
  cb_blind u p ev r o :
    cb u (set_offset (set_require p r) o) ev
    = ((cb u p ev).1.1, set_offset (set_require (cb u p ev).1.2 r) o, (cb u p ev).2);
  cb_more u p at1 at2 :
    cb u p (on_frame_body (at1 ++ at2) (Z.of_nat (length at1)))
    = cb u p (on_frame_body at1 (Z.of_nat (length at1)));
  cb_split u p b at2 : at2 <> [] ->
    cb u p (on_frame_body (b :: at2) (Z.of_nat (S (length at2))))
    = cb (cb u p (on_frame_body [b] 1)).1.1 (cb u p (on_frame_body [b] 1)).1.2
         (on_frame_body at2 (Z.of_nat (length at2)));
}.

Section Spec.
Context {U : Type} (cb : U -> websocket_parser -> ws_event -> U * websocket_parser * Z).

Definition emit (ev : ws_event) (s : U * websocket_parser) : U * websocket_parser :=
  (cb s.1 s.2 ev).1.

Definition on_parser (f : websocket_parser -> websocket_parser) (s : U * websocket_parser)
  : U * websocket_parser := (s.1, f s.2).

Definition spec_header_done (s : U * websocket_parser) : U * websocket_parser :=
  if decide (len s.2 <> 0)
  then emit on_frame_header (on_parser (fun p => set_require (set_state p s_body) (len p)) s)
  else emit on_frame_end (emit on_frame_header (on_parser (fun p => set_state p s_start) s)).

Definition spec_length_done (s : U * websocket_parser) : U * websocket_parser :=
  if decide (Z.land (flags s.2) WS_HAS_MASK <> 0)
  then on_parser (fun p => set_require (set_state p s_mask) 4) s
  else spec_header_done s.

Definition spec_body_done (s : U * websocket_parser) : U * websocket_parser :=
  if decide (require s.2 = 0)
  then emit on_frame_end (on_parser (fun p => set_state p s_start) s) else s.

(** One byte of the stream. *)
Definition ws_byte (s : U * websocket_parser) (cc : Z) : U * websocket_parser :=
  let '(u, p) := s in
  match state p with
  | s_start =>
      let fl := Z.land cc WS_OP_MASK in
      let fl := if decide (Z.land cc 0x80 <> 0) then Z.lor fl WS_FIN else fl in
      (u, mkParser s_head fl (mask p) 0 0 (require p) 0)
  | s_head =>
      let l := Z.land cc 0x7F in
      let fl := if decide (Z.land cc 0x80 <> 0) then Z.lor (flags p) WS_HAS_MASK else flags p in
      let p := mkParser (state p) fl (mask p) (mask_offset p) l (require p) (offset p) in
      if decide (126 <= l)
      then (u, mkParser s_length fl (mask p) (mask_offset p) 0 (if decide (l = 127) then 8 else 2) (offset p))
      else spec_length_done (u, p)
  | s_length =>
      let p := set_require (set_len p (Z.lor (u64 (Z.shiftl (len p) 8)) cc)) (require p - 1) in
      if decide (require p = 0) then spec_length_done (u, p) else (u, p)
  | s_mask =>
      let p := set_require (set_mask p (<[Z.to_nat (4 - require p) := cc]> (mask p))) (require p - 1) in
      if decide (require p = 0) then spec_header_done (u, p) else (u, p)
  | s_body =>
      let s := emit (on_frame_body [cc] 1) (u, p) in
      spec_body_done (on_parser (fun p => set_require p (require p - 1)) s)
  end.

Definition ws_bytes (data : list Z) (s : U * websocket_parser) : U * websocket_parser :=
  fold_left ws_byte data s.

(** Equality of states up to [offset], which only counts bytes of the current
    chunk sequence and is read by no one. *)
Definition eqv (s1 s2 : U * websocket_parser) : Prop :=
  s1.1 = s2.1 /\ set_offset s1.2 0 = set_offset s2.2 0.

#[export] Instance eqv_equiv : Equivalence eqv.
Proof.
  split.
  - by intros s.
  - intros s1 s2 []. by split.
  - intros s1 s2 s3 [] []. by split; etrans.
Qed.

Context `{!CallbackLaws cb}.

Lemma eqv_offset s1 s2 : eqv s1 s2 -> exists o, s2 = on_parser (fun p => set_offset p o) s1.
Proof.
  destruct s1 as [u1 [??????]], s2 as [u2 [??????]]. intros [Hu Hp]. cbn in *.
  injection Hp as -> -> -> -> -> ->. subst. by eexists.
Qed.

Lemma eqv_intro s o : eqv s (on_parser (fun p => set_offset p o) s).
Proof. by destruct s as [u []]. Qed.

Lemma set_offset_id p : set_offset p (offset p) = p.
Proof. by destruct p. Qed.
Lemma set_require_id p : set_require p (require p) = p.
Proof. by destruct p. Qed.

Lemma cb_offset u p ev o :
  cb u (set_offset p o) ev = ((cb u p ev).1.1, set_offset (cb u p ev).1.2 o, (cb u p ev).2).
Proof.
  pose proof (cb_blind (cb := cb) u p ev (require p) o) as E. rewrite set_require_id in E.
  rewrite E. destruct (cb_frame (cb := cb) u p ev) as [m ->]. by destruct p.
Qed.

#[export] Instance emit_proper ev : Proper (eqv ==> eqv) (emit ev).
Proof.
  intros s1 s2 [o ->]%eqv_offset. unfold emit, on_parser. cbn. rewrite cb_offset. cbn.
  destruct (cb s1.1 s1.2 ev) as [[u p] r]. apply (eqv_intro (u, p)).
Qed.

Lemma on_parser_proper f : (forall p o, set_offset (f (set_offset p o)) 0 = set_offset (f p) 0) ->
  Proper (eqv ==> eqv) (on_parser f).
Proof. intros Hf s1 s2 [o ->]%eqv_offset. split; cbn; [done|]. by rewrite Hf. Qed.

Lemma eqv_len s1 s2 : eqv s1 s2 -> len s1.2 = len s2.2.
Proof. by intros [o ->]%eqv_offset. Qed.
Lemma eqv_flags s1 s2 : eqv s1 s2 -> flags s1.2 = flags s2.2.
Proof. by intros [o ->]%eqv_offset. Qed.
Lemma eqv_require s1 s2 : eqv s1 s2 -> require s1.2 = require s2.2.
Proof. by intros [o ->]%eqv_offset. Qed.
Lemma eqv_state s1 s2 : eqv s1 s2 -> state s1.2 = state s2.2.
Proof. by intros [o ->]%eqv_offset. Qed.

#[export] Instance spec_header_done_proper : Proper (eqv ==> eqv) spec_header_done.
Proof.
  intros s1 s2 Hs. unfold spec_header_done. rewrite (eqv_len _ _ Hs).
  case_decide; repeat apply emit_proper; by apply on_parser_proper.
Qed.

#[export] Instance spec_length_done_proper : Proper (eqv ==> eqv) spec_length_done.
Proof.
  intros s1 s2 Hs. unfold spec_length_done. rewrite (eqv_flags _ _ Hs).
  case_decide; [by apply on_parser_proper | by apply spec_header_done_proper].
Qed.

#[export] Instance spec_body_done_proper : Proper (eqv ==> eqv) spec_body_done.
Proof.
  intros s1 s2 Hs. unfold spec_body_done. rewrite (eqv_require _ _ Hs).
  case_decide; [apply emit_proper; by apply on_parser_proper | done].
Qed.

#[export] Instance ws_byte_proper : Proper (eqv ==> eq ==> eqv) ws_byte.
Proof.
  intros s1 s2 Hs cc ? <-. pose proof (eqv_state _ _ Hs) as Hst.
  destruct (eqv_offset _ _ Hs) as [o ->]. destruct s1 as [u p]. cbn in *.
  destruct (state p).
  - done.
  - repeat case_decide; try done; apply spec_length_done_proper; by split.
  - case_decide; [apply spec_length_done_proper | ]; by split.
  - case_decide; [apply spec_header_done_proper | ]; by split.
  - apply spec_body_done_proper, on_parser_proper, emit_proper; [done|]. apply (eqv_intro (u, p)).
Qed.

#[export] Instance ws_bytes_proper data : Proper (eqv ==> eqv) (ws_bytes data).
Proof.
  unfold ws_bytes. induction data as [|b data IH]; intros s1 s2 Hs; simpl; [done|].
  apply IH. by apply ws_byte_proper.
Qed.

Lemma ws_bytes_app d1 d2 s : ws_bytes (d1 ++ d2) s = ws_bytes d2 (ws_bytes d1 s).
Proof. apply fold_left_app. Qed.

(** ** The parser implements the byte machine *)

Lemma emit_fields ev s :
  require (emit ev s).2 = require s.2 /\ state (emit ev s).2 = state s.2 /\ len (emit ev s).2 = len s.2
  /\ mask (emit ev s).2 = mask s.2 /\ flags (emit ev s).2 = flags s.2.
Proof. unfold emit. destruct (cb_frame (cb := cb) s.1 s.2 ev) as [o ->]. by destruct s.2. Qed.

Lemma notify_emit ev u p k next : 0 <= len p < len_limit ->
  notify cb ev u p k next = next (emit ev (u, p)).1 (emit ev (u, p)).2.
Proof.
  intros Hl. unfold notify, emit. pose proof (cb_ret (cb := cb) u p ev Hl) as E. cbn in *.
  destruct (cb u p ev) as [[u' p'] r]. cbn in *. by rewrite decide_False by lia.
Qed.

Definition next_of (s : U * websocket_parser) (fo : Z) (k : nat) : outcome := Next s.1 s.2 fo k.

Lemma header_done_spec u p fo k : 0 <= len p < len_limit ->
  header_done cb u p fo k = next_of (spec_header_done (u, p)) fo (S k).
Proof.
  intros Hl. unfold header_done, spec_header_done. cbn [snd].
  case_decide; rewrite notify_emit by done; [done|]. rewrite notify_emit.
  - unfold on_parser. cbn. by destruct (emit on_frame_header (u, set_state p s_start)).
  - pose proof (emit_fields on_frame_header (u, set_state p s_start)) as (_ & _ & -> & _). done.
Qed.

Lemma length_done_spec u p fo k :
  (Z.land (flags p) WS_HAS_MASK = 0 -> 0 <= len p < len_limit) ->
  length_done cb u p fo k = next_of (spec_length_done (u, p)) fo (S k).
Proof.
  intros Hl. unfold length_done, spec_length_done. cbn [snd]. case_decide; [done | apply header_done_spec].
  apply Hl. lia.
Qed.

Lemma body_done_spec u p fo k : 0 <= len p < len_limit ->
  body_done cb u p fo k = next_of (spec_body_done (u, p)) fo k.
Proof. intros Hl. unfold body_done, spec_body_done. cbn [snd]. case_decide; [by rewrite notify_emit | done]. Qed.

(** The inner loops run until the field is complete or the chunk is used up. *)
Lemma length_loop_spec u rest p k0 : state p = s_length -> 0 < require p -> rest <> [] ->
  exists k p', length_loop rest p k0 = (p', k0 + k)%nat /\ (1 <= k <= length rest)%nat /\
    ws_bytes (take k rest) (u, p)
    = if decide (require p' = 0) then spec_length_done (u, p') else (u, p').
Proof.
  revert p k0. induction rest as [|b rest IH]; intros p k0 Hst Hreq Hne; [done|].
  cbn [length_loop]. rewrite decide_True by lia.
  set (p1 := set_require _ _).
  assert (ws_byte (u, p) b = if decide (require p1 = 0) then spec_length_done (u, p1) else (u, p1))
    as Hb by (cbn; by rewrite Hst).
  destruct (decide (require p1 = 0)) as [E|E]; [|destruct rest as [|b2 rest']].
  - exists 1%nat, p1. split; [|split; [cbn; lia|]].
    + destruct rest; cbn; [|rewrite decide_False by tauto]; f_equal; lia.
    + destruct (decide (require p1 = 0)); [exact Hb | done].
  - exists 1%nat, p1. split; [cbn; f_equal; lia|]. split; [cbn; lia|].
    destruct (decide (require p1 = 0)); [done | exact Hb].
  - destruct (IH p1 (S k0)) as (k & p' & El & Hk & Ew); [done | subst p1; cbn in *; lia | done |].
    exists (S k), p'. split; [rewrite El; f_equal; lia|]. split; [cbn in *; lia|].
    rewrite <- Ew. cbn [take]. unfold ws_bytes at 1. cbn [fold_left]. by rewrite Hb.
Qed.

Lemma mask_loop_spec u rest p k0 : state p = s_mask -> 0 < require p -> rest <> [] ->
  exists k p', mask_loop rest p k0 = (p', k0 + k)%nat /\ (1 <= k <= length rest)%nat /\
    ws_bytes (take k rest) (u, p)
    = if decide (require p' = 0) then spec_header_done (u, p') else (u, p').
Proof.
  revert p k0. induction rest as [|b rest IH]; intros p k0 Hst Hreq Hne; [done|].
  cbn [mask_loop]. rewrite decide_True by lia.
  set (p1 := set_require _ _).
  assert (ws_byte (u, p) b = if decide (require p1 = 0) then spec_header_done (u, p1) else (u, p1))
    as Hb by (cbn; by rewrite Hst).
  destruct (decide (require p1 = 0)) as [E|E]; [|destruct rest as [|b2 rest']].
  - exists 1%nat, p1. split; [|split; [cbn; lia|]].
    + destruct rest; cbn; [|rewrite decide_False by tauto]; f_equal; lia.
    + destruct (decide (require p1 = 0)); [exact Hb | done].
  - exists 1%nat, p1. split; [cbn; f_equal; lia|]. split; [cbn; lia|].
    destruct (decide (require p1 = 0)); [done | exact Hb].
  - destruct (IH p1 (S k0)) as (k & p' & El & Hk & Ew); [done | subst p1; cbn in *; lia | done |].
    exists (S k), p'. split; [rewrite El; f_equal; lia|]. split; [cbn in *; lia|].
    rewrite <- Ew. cbn [take]. unfold ws_bytes at 1. cbn [fold_left]. by rewrite Hb.
Qed.

Lemma emit_set_require ev s r :
  emit ev (on_parser (fun p => set_require p r) s) = on_parser (fun p => set_require p r) (emit ev s).
Proof.
  unfold emit, on_parser. cbn. pose proof (cb_blind (cb := cb) s.1 s.2 ev r (offset s.2)) as E.
  assert (set_offset (set_require s.2 r) (offset s.2) = set_require s.2 r) as Eo by by destruct s.2.
  rewrite Eo in E. rewrite E. cbn.
  destruct (cb_frame (cb := cb) s.1 s.2 ev) as [o ->]. by destruct s.2.
Qed.

(** A piece of body is delivered as its bytes would be, one at a time. *)
Lemma body_bytes at_ : forall s, state s.2 = s_body -> at_ <> [] ->
  Z.of_nat (length at_) <= require s.2 ->
  ws_bytes at_ s = spec_body_done (on_parser (fun p => set_require p (require s.2 - Z.of_nat (length at_)))
                     (emit (on_frame_body at_ (Z.of_nat (length at_))) s)).
Proof.
  induction at_ as [|b at_ IH]; intros [u p] Hst Hne Hle; [done|].
  assert (Hb : ws_byte (u, p) b = spec_body_done (on_parser (fun q => set_require q (require p - 1))
      (emit (on_frame_body [b] 1) (u, p)))).
  { cbn [ws_byte]. cbn in Hst. rewrite Hst. unfold on_parser.
    by rewrite (proj1 (emit_fields (on_frame_body [b] 1) (u, p))). }
  unfold ws_bytes. cbn [fold_left]. rewrite Hb. clear Hb.
  destruct (decide (at_ = [])) as [->|Hat]; [done|].
  cbn [length fst snd] in *. assert (0 < length at_)%nat by (destruct at_; simpl; [done|lia]).
  set (s1 := emit (on_frame_body [b] 1) (u, p)).
  pose proof (emit_fields (on_frame_body [b] 1) (u, p)) as (Hr & Hs & _). fold s1 in Hr, Hs.
  cbn [fst snd] in *.
  assert (spec_body_done (on_parser (fun q => set_require q (require p - 1)) s1)
          = on_parser (fun q => set_require q (require p - 1)) s1) as ->.
  { unfold spec_body_done. cbn. by rewrite decide_False by lia. }
  change (fold_left ws_byte at_ ?x) with (ws_bytes at_ x).
  rewrite IH; [| cbn; congruence | done | cbn; lia].
  rewrite emit_set_require. f_equal. unfold on_parser. cbn.
  assert (emit (on_frame_body (b :: at_) (Z.of_nat (S (length at_)))) (u, p)
    = emit (on_frame_body at_ (Z.of_nat (length at_))) s1) as ->.
  { unfold emit. cbn [fst snd]. rewrite (cb_split (cb := cb)) by done. done. }
  f_equal. destruct (emit _ s1).2. cbn. unfold set_require. cbn. f_equal. lia.
Qed.

(** The parser's invariant: what each state knows of [require]. *)
Definition parser_inv (p : websocket_parser) : Prop :=
  0 <= len p /\
  match state p with
  | s_start | s_head => True
  | s_length | s_mask => 0 < require p
  | s_body => 0 < require p <= len p
  end.

(** The frame being received is not longer than the limit (a length that is
    still being received says nothing). *)
Definition small (p : websocket_parser) : Prop := state p <> s_length -> len p < len_limit.

Lemma parser_inv_emit ev s : parser_inv s.2 -> parser_inv (emit ev s).2.
Proof. unfold parser_inv. pose proof (emit_fields ev s) as (-> & -> & -> & _). done. Qed.

Lemma header_done_inv s : 0 <= len s.2 -> parser_inv (spec_header_done s).2.
Proof.
  intros Hl. unfold spec_header_done. case_decide; repeat apply parser_inv_emit; split; cbn; auto. lia.
Qed.

Lemma length_done_inv s : 0 <= len s.2 -> parser_inv (spec_length_done s).2.
Proof.
  intros Hl. unfold spec_length_done. case_decide; [split; cbn; lia | by apply header_done_inv].
Qed.

(** The invariant is preserved by every byte. *)
Lemma ws_byte_inv s b : is_byte b -> parser_inv s.2 -> parser_inv (ws_byte s b).2.
Proof.
  destruct s as [u p]. intros [Hb _] [Hl Hp]. cbn [snd ws_byte] in *.
  assert (0 <= Z.land b 0x7F) by (apply Z.land_nonneg; lia).
  destruct (state p) eqn:Hst; cbn zeta.
  - by split.
  - case_decide; [split; cbn; [done | case_decide; lia] | by apply length_done_inv].
  - assert (0 <= Z.lor (u64 (Z.shiftl (len p) 8)) b).
    { apply Z.lor_nonneg. split; [apply Z.mod_pos_bound; lia | done]. }
    case_decide; cbn in *; [by apply length_done_inv | split; cbn; [done|rewrite Hst; lia]].
  - case_decide; cbn in *; [by apply header_done_inv | split; cbn; [done|rewrite Hst; lia]].
  - pose proof (emit_fields (on_frame_body [b] 1) (u, p)) as (Er & Es & El & _).
    unfold spec_body_done. case_decide; [apply parser_inv_emit; split; cbn; [|done]|split; cbn in *]; 
      cbn in Er, Es, El; rewrite ?El, ?Es, ?Hst; lia.
Qed.

Lemma ws_bytes_inv data s : bytes_ok data -> parser_inv s.2 -> parser_inv (ws_bytes data s).2.
Proof.
  intros Hd. revert s. induction Hd as [|b data Hb Hd IH]; intros s Hs; [done|].
  apply IH. by apply ws_byte_inv.
Qed.

Lemma header_done_len s : len (spec_header_done s).2 = len s.2.
Proof.
  unfold spec_header_done.
  case_decide; rewrite ?(proj1 (proj2 (proj2 (emit_fields _ _)))); done.
Qed.

Lemma header_done_state s : state (spec_header_done s).2 <> s_length.
Proof.
  unfold spec_header_done. case_decide;
    rewrite ?(proj1 (proj2 (emit_fields _ _))); done.
Qed.

Lemma length_done_len s : len (spec_length_done s).2 = len s.2.
Proof. unfold spec_length_done. case_decide; [done | apply header_done_len]. Qed.

Lemma length_done_state s : state (spec_length_done s).2 <> s_length.
Proof. unfold spec_length_done. case_decide; [done | apply header_done_state]. Qed.

(** The body state: the whole missing part, or all of the chunk. *)
Lemma step_body_spec here pos fo rest u p :
  rest <> [] -> state p = s_body -> 0 < require p <= len p -> len p < len_limit ->
  0 <= here -> here + Z.of_nat (length rest) < 2 ^ 63 ->
  exists k s' fo', step_body cb here pos rest u p fo = next_of s' fo' k /\
    (1 <= k <= length rest)%nat /\ eqv s' (ws_bytes (take k rest) (u, p)).
Proof.
  intros Hne Hst Hr Hlim Ha Hend. assert (0 < length rest)%nat by (destruct rest; cbn; [done|lia]).
  unfold len_limit in Hlim. unfold step_body, fits. rewrite decide_True by lia.
  rewrite u64_small by lia.
  destruct (Z.leb_spec (here + require p) (here + Z.of_nat (length rest))).
  - rewrite decide_False by lia. set (n := Z.to_nat (require p)).
    assert (Hn : length (take n rest) = n) by (rewrite length_take; subst n; lia).
    rewrite notify_emit by (unfold len_limit; lia).
    pose proof (emit_fields (on_frame_body rest (require p)) (u, p)) as (Er & Es & El & _).
    cbn [snd] in *. rewrite Er. fold n.
    rewrite body_done_spec by (cbn; rewrite El; unfold len_limit; lia).
    exists n, (spec_body_done (on_parser (fun p => set_require p 0) (emit (on_frame_body rest (require p)) (u, p)))).
    eexists. split; [done|]. split; [lia|].
    rewrite body_bytes; cbn [snd]; rewrite ?Hn; [|done | | subst n; lia].
    + replace (require p - Z.of_nat n) with 0 by (subst n; lia).
      assert (emit (on_frame_body rest (require p)) (u, p)
              = emit (on_frame_body (take n rest) (Z.of_nat n)) (u, p)) as ->; [|done].
      unfold emit. cbn [fst snd]. f_equal. rewrite <- Hn at 2.
      rewrite <- (cb_more (cb := cb) u p (take n rest) (drop n rest)), take_drop, Hn.
      do 2 f_equal. subst n. lia.
    + intros E. rewrite E in Hn. cbn in Hn. subst n. lia.
  - rewrite notify_emit by (unfold len_limit; lia).
    pose proof (emit_fields (on_frame_body rest (Z.of_nat (length rest))) (u, p)) as (Er & Es & El & _).
    cbn [snd] in *.
    rewrite body_done_spec by (cbn; rewrite El; unfold len_limit; lia).
    eexists (length rest), _, _. split; [done|]. split; [lia|].
    rewrite take_ge, body_bytes by (cbn; (done || lia)).
    apply spec_body_done_proper. cbn [snd]. rewrite Er. split; [done|]. cbn. done.
Qed.

(** One iteration of the loop consumes at least a byte and does what the byte
    machine does on the bytes it consumes. *)
Lemma step_spec here pos fo rest u p :
  bytes_ok rest -> rest <> [] -> parser_inv p -> small p ->
  0 <= here -> here + Z.of_nat (length rest) < 2 ^ 63 ->
  (forall k, small (ws_bytes (take k rest) (u, p)).2) ->
  exists k s' fo', step cb here pos rest u p fo = next_of s' fo' k /\
    (1 <= k <= length rest)%nat /\ eqv s' (ws_bytes (take k rest) (u, p)).
Proof.
  intros Hb Hne [Hl Hp] Hsm Ha Hend Hall. destruct rest as [|cc rest]; [done|].
  unfold step. destruct (state p) eqn:Hst.
  - exists 1%nat. eexists (_, _), _. split; [done|]. split; [cbn; lia|].
    cbn. rewrite Hst. done.
  - unfold step_head. cbn zeta. case_decide as Hc.
    + exists 1%nat. eexists (_, _), _. split; [done|]. split; [cbn; lia|].
      cbn. rewrite Hst. by destruct (decide (126 <= Z.land cc 127)).
    + exists 1%nat. eexists _, _. split; [|split].
      * apply length_done_spec. intros Hm. cbn in *.
        inversion_clear Hb as [|? ? [Hcc _]]. split; [apply Z.land_nonneg; lia|].
        unfold len_limit. lia.
      * cbn; lia.
      * cbn. rewrite Hst. by destruct (decide (126 <= Z.land cc 127)).
  - unfold step_length.
    destruct (length_loop_spec u (cc :: rest) p 0) as (k & p' & El & Hk & Ew); [done..|].
    rewrite El. cbn [Nat.add]. case_decide as Hr.
    + exists k. eexists _, _. split; [|split; [done|]].
      * replace k with (S (k - 1)) at 3 by lia. apply length_done_spec. intros Hm.
        pose proof (Hall k) as H1. rewrite Ew in H1.
        pose proof (ws_bytes_inv (take k (cc :: rest)) (u, p)) as H2. rewrite Ew in H2.
        unfold small in H1. rewrite length_done_len in H1. split; [|apply H1, length_done_state].
        destruct H2 as [H2 _]; [by apply Forall_take | split; cbn; [done|by rewrite Hst] | ].
        by rewrite length_done_len in H2.
      * by rewrite Ew.
    + exists k. eexists (_, _), _. split; [done|]. split; [done|]. by rewrite Ew.
  - unfold step_mask.
    destruct (mask_loop_spec u (cc :: rest) p 0) as (k & p' & El & Hk & Ew); [done..|].
    rewrite El. cbn [Nat.add]. case_decide as Hr.
    + exists k. eexists _, _. split; [|split; [done|]].
      * replace k with (S (k - 1)) at 3 by lia. apply header_done_spec.
        pose proof (Hall k) as H1. rewrite Ew in H1.
        pose proof (ws_bytes_inv (take k (cc :: rest)) (u, p)) as H2. rewrite Ew in H2.
        unfold small in H1. rewrite header_done_len in H1. split; [|apply H1, header_done_state].
        destruct H2 as [H2 _]; [by apply Forall_take | split; cbn; [done|by rewrite Hst] | ].
        by rewrite header_done_len in H2.
      * by rewrite Ew.
    + exists k. eexists (_, _), _. split; [done|]. split; [done|]. by rewrite Ew.
  - apply step_body_spec; try done. apply Hsm. by rewrite Hst.
Qed.

Lemma parser_inv_eqv s1 s2 : eqv s1 s2 -> parser_inv s1.2 -> parser_inv s2.2.
Proof. by intros [o ->]%eqv_offset. Qed.
Lemma small_eqv s1 s2 : eqv s1 s2 -> small s1.2 -> small s2.2.
Proof. by intros [o ->]%eqv_offset. Qed.

(** All frames of the stream [data] are below the limit. *)
Definition all_small (data : list Z) (s : U * websocket_parser) : Prop :=
  forall k, small (ws_bytes (take k data) s).2.

Lemma all_small_eqv data s1 s2 : eqv s1 s2 -> all_small data s1 -> all_small data s2.
Proof. intros E H k. eapply small_eqv, H. by apply ws_bytes_proper. Qed.

Lemma all_small_drop data s k : all_small data s -> all_small (drop k data) (ws_bytes (take k data) s).
Proof.
  intros H j. rewrite <- ws_bytes_app, take_take_drop. apply H.
Qed.

Lemma all_small_here data s : all_small data s -> small s.2.
Proof. intros H. apply (H 0%nat). Qed.

Lemma execute_loop_S fuel addr pos data u p fo s k fo' : data <> [] ->
  step cb (addr + Z.of_nat pos) (Z.of_nat pos) data u p fo = next_of s fo' k ->
  execute_loop cb (S fuel) addr pos data u p fo
  = execute_loop cb fuel addr (pos + k) (drop k data) s.1 s.2 fo'.
Proof. destruct data; intros Hne E; [done|]. cbn [execute_loop]. by rewrite E. Qed.

Lemma execute_loop_spec fuel : forall addr pos rest s fo,
  (length rest <= fuel)%nat -> bytes_ok rest -> parser_inv s.2 -> all_small rest s ->
  0 <= addr -> addr + Z.of_nat (pos + length rest) < 2 ^ 63 ->
  exists s', execute_loop cb fuel addr pos rest s.1 s.2 fo = Some (s', pos + length rest)%nat /\
    eqv s' (ws_bytes rest s).
Proof.
  induction fuel as [|fuel IH]; intros addr pos rest [u p] fo Hf Hb Hi Hs Ha Hend;
    (destruct rest as [|cc rest]; [exists (u, p); cbn; rewrite Nat.add_0_r; done|]); [cbn in Hf; lia|].
  cbn [fst snd] in *.
  destruct (step_spec (addr + Z.of_nat pos) (Z.of_nat pos) fo (cc :: rest) u p)
    as (k & s' & fo' & E & Hk & Heq); [done | done | done | by eapply (all_small_here (cc :: rest) (u, p)) | lia | lia | done |].
  assert (cc :: rest <> []) as Hne by done.
  revert Hf Hb Hs Hend E Hk Heq Hne. generalize (cc :: rest) as data. intros.
  rewrite (execute_loop_S _ _ _ _ _ _ _ s' k fo') by done. symmetry in Heq.
  destruct (IH addr (pos + k)%nat (drop k data) s' fo') as (s2 & E2 & H2).
  - rewrite length_drop. lia.
  - by apply Forall_drop.
  - eapply parser_inv_eqv; [exact Heq|]. apply ws_bytes_inv; [by apply Forall_take | done].
  - eapply all_small_eqv; [exact Heq|]. by apply all_small_drop.
  - done.
  - rewrite length_drop. lia.
  - exists s2. rewrite E2, length_drop. split; [do 2 f_equal; lia|].
    rewrite H2. rewrite <- (take_drop k data) at 2. rewrite ws_bytes_app.
    by apply ws_bytes_proper.
Qed.

#[export] Instance small_dec p : Decision (small p).
Proof. unfold small. apply _. Defined.

(** A check by computation, for concrete streams. *)
Lemma all_small_check data s :
  forallb (fun k => bool_decide (small (ws_bytes (take k data) s).2)) (seq 0 (S (length data))) = true ->
  all_small data s.
Proof.
  intros H k. rewrite forallb_forall in H.
  assert (take k data = take (k `min` length data) data) as ->.
  { rewrite <- take_take. by rewrite (take_ge data (length data)). }
  specialize (H (k `min` length data)%nat). rewrite bool_decide_eq_true in H.
  apply H, in_seq. lia.
Qed.

(** A chunk: an address and its bytes. *)
Definition chunk_ok (c : Z * list Z) : Prop := 0 <= c.1 /\ c.1 + Z.of_nat (length c.2) < 2 ^ 63.

Lemma execute_spec c s : bytes_ok c.2 -> chunk_ok c -> parser_inv s.2 -> all_small c.2 s ->
  exists s', websocket_parser_execute cb c.1 c.2 s.1 s.2 = Some (s', length c.2) /\
    eqv s' (ws_bytes c.2 s).
Proof.
  intros Hb [Ha Hend] Hi Hs. destruct c as [addr data]. unfold websocket_parser_execute. cbn [fst snd] in *.
  by apply execute_loop_spec.
Qed.

(** The chunks of a stream, one call of [websocket_parser_execute] for each. *)
Fixpoint execute_chunks (chunks : list (Z * list Z)) (s : U * websocket_parser)
  : option (U * websocket_parser) :=
  match chunks with
  | [] => Some s
  | c :: chunks' =>
      '(s', n) ← websocket_parser_execute cb c.1 c.2 s.1 s.2;
      if decide (n = length c.2) then execute_chunks chunks' s' else None
  end.

Lemma execute_chunks_spec chunks s :
  Forall chunk_ok chunks -> bytes_ok (concat (map snd chunks)) -> parser_inv s.2 ->
  all_small (concat (map snd chunks)) s ->
  exists s', execute_chunks chunks s = Some s' /\ eqv s' (ws_bytes (concat (map snd chunks)) s).
Proof.
  intros Hc. revert s. induction Hc as [|c chunks Hc Hcs IH]; intros s Hb Hi Hs; [by exists s|].
  cbn [map concat] in *. apply Forall_app in Hb as [Hb1 Hb2].
  assert (all_small c.2 s /\ all_small (concat (map snd chunks)) (ws_bytes c.2 s)) as [Hs1 Hs2].
  { split.
    - intros k. specialize (Hs (k `min` length c.2)%nat). rewrite take_app_le in Hs by lia.
      by rewrite <- take_take, (take_ge c.2) in Hs by lia.
    - pose proof (all_small_drop _ _ (length c.2) Hs) as H. by rewrite drop_app_length, take_app_length in H. }
  destruct (execute_spec c s) as (s1 & E1 & H1); [done..|]. symmetry in H1.
  cbn [execute_chunks]. rewrite E1. cbn. rewrite decide_True by done.
  destruct (IH s1) as (s2 & E2 & H2); [done | | |].
  - eapply parser_inv_eqv; [exact H1|]. by apply ws_bytes_inv.
  - by eapply all_small_eqv.
  - exists s2. split; [done|]. rewrite H2, ws_bytes_app. symmetry. by apply ws_bytes_proper.
Qed.

(** ** What a built frame does to the byte machine *)

Lemma all_small_app d1 d2 s :
  all_small d1 s -> all_small d2 (ws_bytes d1 s) -> all_small (d1 ++ d2) s.
Proof.
  intros H1 H2 k. rewrite take_app, ws_bytes_app.
  destruct (decide (k <= length d1)%nat).
  - replace (k - length d1)%nat with 0%nat by lia. apply H1.
  - rewrite (take_ge d1) by lia. apply H2.
Qed.

Lemma all_small_cons b d s : small s.2 -> all_small d (ws_byte s b) -> all_small (b :: d) s.
Proof. intros H1 H2 [|k]; [done|]. apply H2. Qed.

Lemma all_small_nil s : small s.2 -> all_small [] s.
Proof. intros H k. by rewrite take_nil. Qed.

(** The first two bytes of a header carry the flags and a 7-bit number. *)
Definition flag_byte (fl : Z) : Z :=
  Z.lor (if decide (Z.land fl WS_FIN <> 0) then 0x80 else 0) (Z.land fl WS_OP_MASK).
Definition length_byte (fl l : Z) : Z :=
  Z.lor (if decide (Z.land fl WS_HAS_MASK <> 0) then 0x80 else 0) l.

Definition head_flags (b0 b1 : Z) : Z :=
  let fl := Z.land b0 WS_OP_MASK in
  let fl := if decide (Z.land b0 0x80 <> 0) then Z.lor fl WS_FIN else fl in
  if decide (Z.land b1 0x80 <> 0) then Z.lor fl WS_HAS_MASK else fl.

Lemma head_flags_ok fl l : 0 <= fl < 64 -> 0 <= l < 128 ->
  head_flags (flag_byte fl) (length_byte fl l) = fl /\ Z.land (length_byte fl l) 0x7F = l.
Proof.
  assert (Forall (fun f => Forall (fun l =>
    head_flags (flag_byte f) (length_byte f l) = f /\ Z.land (length_byte f l) 0x7F = l)
    (seqZ 0 128)) (seqZ 0 64)) as H.
  { apply (bool_decide_unpack _). vm_compute. done. }
  intros Hf Hl. rewrite Forall_forall in H. specialize (H fl).
  rewrite Forall_forall in H. apply H; apply elem_of_seqZ; lia.
Qed.

(** The two bytes, from the start of a frame. *)
Lemma ws_two_bytes u p fl l d : state p = s_start -> 0 <= fl < 64 -> 0 <= l < 128 ->
  ws_bytes (flag_byte fl :: length_byte fl l :: d) (u, p)
  = ws_bytes d (if decide (126 <= l)
      then (u, mkParser s_length fl (mask p) 0 0 (if decide (l = 127) then 8 else 2) 0)
      else spec_length_done (u, mkParser s_head fl (mask p) 0 l (require p) 0)).
Proof.
  intros Hst Hf Hl. destruct (head_flags_ok fl l Hf Hl) as [E1 E2].
  unfold ws_bytes. cbn [fold_left]. f_equal. cbn [ws_byte]. rewrite Hst. cbn zeta. cbn [ws_byte state].
  cbn [flags len require mask mask_offset offset]. rewrite E2.
  change (if decide (Z.land (length_byte fl l) 128 <> 0) then _ else _)
    with (head_flags (flag_byte fl) (length_byte fl l)). rewrite E1. done.
Qed.

(** A length byte read after [n / 2 ^ (s + 8)] gives [n / 2 ^ s]. *)
Lemma be_step n s : 0 <= n < 2 ^ 64 -> 0 <= s ->
  Z.lor (u64 (Z.shiftl (n / 2 ^ (s + 8)) 8)) (Z.land (Z.shiftr n s) 0xFF) = n / 2 ^ s.
Proof.
  intros Hn Hs. rewrite Z.pow_add_r, <- Z.div_div by lia. bitsimpl. set (q := n / 2 ^ s).
  assert (0 <= q <= n) by (split; [apply Z.div_pos; lia | apply Z.div_le_upper_bound; nia]).
  rewrite u64_small by div_lia. rewrite lor_add_low by div_lia. div_lia.
Qed.

(** The [k] low bytes of [n], most significant first. *)
Fixpoint be_list (n : Z) (k : nat) : list Z :=
  match k with
  | O => []
  | S k' => Z.land (Z.shiftr n (8 * Z.of_nat k')) 0xFF :: be_list n k'
  end.

Lemma small_length_done s : len s.2 < len_limit -> small (spec_length_done s).2.
Proof. intros H _. by rewrite length_done_len. Qed.

Lemma ws_length_bytes n k : forall u p, 0 <= n < len_limit ->
  state p = s_length -> require p = Z.of_nat (S k) -> len p = n / 2 ^ (8 * Z.of_nat (S k)) ->
  ws_bytes (be_list n (S k)) (u, p) = spec_length_done (u, set_require (set_len p n) 0) /\
  all_small (be_list n (S k)) (u, p).
Proof.
  unfold len_limit. induction k as [|k IH]; intros u p Hn Hst Hr Hl.
  - assert (E : ws_byte (u, p) (Z.land (Z.shiftr n 0) 0xFF)
                = spec_length_done (u, set_require (set_len p n) 0)).
    { cbn [ws_byte]. rewrite Hst, Hl, Hr. change (8 * Z.of_nat 1) with (0 + 8).
      rewrite be_step by lia. change (2 ^ 0) with 1. by rewrite Z.div_1_r. }
    split; [exact E|].
    apply all_small_cons; [by intros ?|]. change (8 * Z.of_nat 0) with 0. rewrite E.
    apply all_small_nil, small_length_done. cbn. unfold len_limit. lia.
  - set (s := 8 * Z.of_nat (S k)) in *.
    replace (8 * Z.of_nat (S (S k))) with (s + 8) in Hl by (subst s; lia).
    set (p1 := set_require (set_len p (n / 2 ^ s)) (Z.of_nat (S k))).
    assert (E : ws_byte (u, p) (Z.land (Z.shiftr n s) 0xFF) = (u, p1)).
    { cbn [ws_byte]. rewrite Hst, Hl, Hr, be_step by (subst s; lia).
      replace (Z.of_nat (S (S k)) - 1) with (Z.of_nat (S k)) by lia.
      rewrite decide_False; [done|]. cbn. lia. }
    destruct (IH u p1) as [E1 S1]; [done..|]. cbn [be_list]. fold s. split.
    + unfold ws_bytes in *. cbn [fold_left]. by rewrite E.
    + apply all_small_cons; [by intros ?|]. by rewrite E.
Qed.

Lemma build_header_eq fl n :
  build_header fl n =
    if decide (n < 126) then [flag_byte fl; length_byte fl n]
    else if decide (n <= 0xFFFF)
    then [flag_byte fl; length_byte fl 126; u8 (Z.shiftr n 8); Z.land n 0xFF]
    else flag_byte fl :: length_byte fl 127 :: be_list n 8.
Proof. reflexivity. Qed.

(** The header of a frame, up to its mask. *)
Lemma ws_header u p fl n : state p = s_start -> small p -> 0 <= fl < 64 -> 0 <= n < len_limit ->
  exists st r, ws_bytes (build_header fl n) (u, p) = spec_length_done (u, mkParser st fl (mask p) 0 n r 0) /\
  all_small (build_header fl n) (u, p).
Proof.
  intros Hst Hsm Hf Hn. rewrite build_header_eq.
  assert (Hsmall : forall q, len q = 0 -> small q) by (intros q Hq _; rewrite Hq; done).
  assert (H1 : small (ws_byte (u, p) (flag_byte fl)).2) by (apply Hsmall; cbn; by rewrite Hst).
  assert (Hlong : forall l k, 126 <= l < 128 -> (if decide (l = 127) then 8 else 2) = Z.of_nat (S k) ->
    n / 2 ^ (8 * Z.of_nat (S k)) = 0 ->
    exists st r, ws_bytes (flag_byte fl :: length_byte fl l :: be_list n (S k)) (u, p)
      = spec_length_done (u, mkParser st fl (mask p) 0 n r 0) /\
      all_small (flag_byte fl :: length_byte fl l :: be_list n (S k)) (u, p)).
  { intros l k Hl Hk Hq. pose proof (ws_two_bytes u p fl l [] Hst Hf) as E2.
    rewrite decide_True in E2 by lia.
    rewrite ws_two_bytes, decide_True by (done || lia). rewrite Hk in E2 |- *. set (p2 := mkParser _ _ _ _ _ _ _) in *.
    destruct (ws_length_bytes n k u p2) as [E Hs]; [done..|].
    eexists _, _. split; [exact E|].
    apply all_small_cons; [done|]. apply all_small_cons; [done|].
    unfold ws_bytes in E2. cbn [fold_left] in E2. rewrite E2 by lia. exact Hs. }
  case_decide; [|case_decide].
  - rewrite ws_two_bytes, decide_False by (done || lia). eexists _, _. split; [done|].
    apply all_small_cons; [done|]. apply all_small_cons; [done|].
    pose proof (ws_two_bytes u p fl n [] Hst Hf) as E2. unfold ws_bytes in E2. cbn [fold_left] in E2.
    rewrite E2, decide_False by lia. apply all_small_nil, small_length_done. cbn. lia.
  - destruct (Hlong 126 1%nat) as (st & r & E); [lia | done | cbn; div_lia |].
    exists st, r. replace [_; _; u8 (Z.shiftr n 8); Z.land n 0xFF]
      with (flag_byte fl :: length_byte fl 126 :: be_list n 2); [exact E|].
    cbn [be_list]. change (8 * Z.of_nat 1) with 8. change (8 * Z.of_nat 0) with 0.
    rewrite Z.shiftr_0_r. unfold u8. by bitsimpl.
  - unfold len_limit in Hn. apply (Hlong 127 7%nat); [lia | done | cbn; div_lia].
Qed.

(** The four bytes of the mask. *)
Lemma ws_mask_bytes u p m : state p = s_mask -> require p = 4 -> length (mask p) = 4%nat ->
  length m = 4%nat -> 0 <= len p < len_limit ->
  ws_bytes m (u, p) = spec_header_done (u, set_require (set_mask p m) 0) /\ all_small m (u, p).
Proof.
  intros Hst Hr Hm Hm' Hl. destruct p as [st fl mk mo l r o]. cbn in *. subst st r.
  destruct mk as [|a0 [|a1 [|a2 [|a3 [|]]]]]; try done.
  destruct m as [|b0 [|b1 [|b2 [|b3 [|]]]]]; try done.
  match goal with |- ?A /\ _ => assert A as E by reflexivity end. split; [exact E|].
  unfold ws_bytes in E. cbn [fold_left] in E.
  do 4 (apply all_small_cons; [intros _; apply Hl|]). apply all_small_nil. intros _.
  rewrite E, header_done_len. apply Hl.
Qed.

(** The body, all of it. *)
Lemma ws_body u p d : state p = s_body -> d <> [] -> require p = Z.of_nat (length d) ->
  0 <= len p < len_limit ->
  ws_bytes d (u, p) = emit on_frame_end
    (on_parser (fun p => set_require (set_state p s_start) 0) (emit (on_frame_body d (Z.of_nat (length d))) (u, p)))
  /\ all_small d (u, p).
Proof.
  intros Hst Hd Hr Hl. split.
  - rewrite body_bytes by (cbn; (done || lia)). cbn [snd]. rewrite Hr, Z.sub_diag.
    unfold spec_body_done. cbn. unfold on_parser. cbn. done.
  - intros k _. destruct (decide (take k d = [])) as [E|E]; [rewrite E; apply Hl|].
    assert (length (take k d) <= length d)%nat by (rewrite length_take; lia).
    rewrite body_bytes by (cbn; (done || lia)). unfold spec_body_done.
    case_decide; cbn; rewrite ?(proj1 (proj2 (proj2 (emit_fields _ _)))); cbn;
      rewrite ?(proj1 (proj2 (proj2 (emit_fields _ _)))); apply Hl.
Qed.


End Spec.

(** ** What the callbacks keep *)

Section Keeps.
Context {U : Type} (cb : U -> websocket_parser -> ws_event -> U * websocket_parser * Z) (I : U -> Prop).
Hypothesis cb_keeps : forall u p ev, I u -> I (cb u p ev).1.1.

Definition keeps (o : @outcome U) : Prop :=
  match o with Next u _ _ _ | Stop u _ _ => I u | Overrun _ => True end.

Lemma notify_keeps ev u p k next : I u -> (forall u p, I u -> keeps (next u p)) -> keeps (notify cb ev u p k next).
Proof using cb_keeps.
  intros Hu Hn. unfold notify. specialize (cb_keeps u p ev Hu). destruct (cb u p ev) as [[u' p'] r].
  case_decide; [done | by apply Hn].
Qed.

Lemma length_done_keeps u p fo k : I u -> keeps (length_done cb u p fo k).
Proof using cb_keeps.
  intros Hu. unfold length_done, header_done. repeat case_decide; [done | by apply notify_keeps|].
  apply notify_keeps; [done|]. intros u' p' Hu'. by apply notify_keeps.
Qed.

Lemma body_done_keeps u p fo k : I u -> keeps (body_done cb u p fo k).
Proof using cb_keeps. intros Hu. unfold body_done. case_decide; [|done]. by apply notify_keeps. Qed.

Lemma step_keeps here pos rest u p fo : I u -> keeps (step cb here pos rest u p fo).
Proof using cb_keeps.
  intros Hu. unfold step. destruct rest as [|cc rest]; [done|]. destruct (state p).
  - done.
  - unfold step_head. case_decide; [done | by apply length_done_keeps].
  - unfold step_length. destruct (length_loop _ _ _). case_decide; [by apply length_done_keeps | done].
  - unfold step_mask. destruct (mask_loop _ _ _) as [p' k]. case_decide; [|done].
    unfold header_done. case_decide; [by apply notify_keeps|].
    apply notify_keeps; [done|]. intros. by apply notify_keeps.
  - unfold step_body. case_decide; [|by apply body_done_keeps]. destruct (fits _ _ _); [case_decide; [done|]|];
      (apply notify_keeps; [done|]; intros; by apply body_done_keeps).
Qed.

Lemma execute_keeps fuel : forall addr pos rest u p fo u' p' n,
  execute_loop cb fuel addr pos rest u p fo = Some (u', p', n) -> I u -> I u'.
Proof using cb_keeps.
  induction fuel as [|fuel IH]; intros addr pos rest u p fo u' p' n E Hu; destruct rest as [|cc rest]; cbn [execute_loop] in E;
    try (by injection E as <- <- <-); [done|].
  pose proof (step_keeps (addr + Z.of_nat pos) (Z.of_nat pos) (cc :: rest) u p fo Hu) as Hk.
  destruct (step _ _ _ _ _ _ _) as [u1 p1 fo1 k|u1 p1 k|]; [by eapply IH | by injection E as <- <- <- | done].
Qed.
End Keeps.


(** ** Properties *)

(** [C1] The incremental parser is the byte machine: however a stream of
    frames is cut into chunks, and wherever the chunks lie in memory, every
    call of [websocket_parser_execute] parses its whole chunk, and the calls
    leave the client's state and the parser (its [offset] counter apart) as the
    specification leaves them after the bytes of the stream one by one. *)
Theorem websocket_execute_chunks {U} (cb : U -> websocket_parser -> ws_event -> U * websocket_parser * Z)
    `{!CallbackLaws cb} (chunks : list (Z * list Z)) (s : U * websocket_parser) :
  Forall chunk_ok chunks -> bytes_ok (concat (map snd chunks)) -> parser_inv s.2 ->
  all_small cb (concat (map snd chunks)) s ->
  exists s', execute_chunks cb chunks s = Some s' /\
    eqv s' (ws_bytes cb (concat (map snd chunks)) s).
Proof. by apply execute_chunks_spec. Qed.

(** A client that keeps the bytes of the bodies, for the witnesses. *)
Definition log_body (u : list Z) (p : websocket_parser) (ev : ws_event) : list Z * websocket_parser * Z :=
  match ev with
  | on_frame_body at_ n => (u ++ take (Z.to_nat n) at_, p, 0)
  | _ => (u, p, 0)
  end.

#[export] Instance log_body_laws : CallbackLaws log_body.
Proof.
  split.
  - by intros u p [].
  - intros u p ev. exists (mask_offset p). by destruct ev, p.
  - by intros u p [] r o.
  - intros u p at1 at2. cbn. by rewrite Nat2Z.id, take_app_length, take_ge by lia.
  - intros u p b at2 _. cbn -[Z.of_nat Z.to_nat]. rewrite !Nat2Z.id, <- app_assoc, !take_ge by (cbn; lia). done.
Qed.

Lemma websocket_execute_chunks_witness :
  exists s', execute_chunks log_body [(4096, [0x81; 3; 72]); (8192, [105; 33; 0x81; 1; 7])]
      ([], websocket_parser_init) = Some s' /\
    eqv s' (ws_bytes log_body [0x81; 3; 72; 105; 33; 0x81; 1; 7] ([], websocket_parser_init)).
Proof.
  apply (websocket_execute_chunks log_body [(4096, [0x81; 3; 72]); (8192, [105; 33; 0x81; 1; 7])]).
  - repeat constructor; cbn; lia.
  - repeat constructor; cbn; lia.
  - done.
  - apply all_small_check. vm_compute. reflexivity.
Defined.

(** [websocket_build_frame] writes exactly as many bytes as
    [websocket_calc_frame_size] announces, for every payload that fits the
    address space, when a masked frame comes with a mask of four bytes. *)
Theorem websocket_frame_size frame flags mask data :
  Z.of_nat (length data) < 2 ^ 63 ->
  (Z.land flags WS_HAS_MASK <> 0 -> exists m, mask = Some m /\ length m = 4%nat) ->
  Z.of_nat (length (websocket_build_frame frame flags mask data))
  = websocket_calc_frame_size flags (Z.of_nat (length data)).
Proof.
  intros Hl Hm. unfold websocket_build_frame, websocket_calc_frame_size.
  assert (length (build_header flags (Z.of_nat (length data)))
    = if decide (Z.of_nat (length data) < 126) then 2%nat
      else if decide (Z.of_nat (length data) <= 0xFFFF) then 4%nat else 10%nat) as Hh.
  { unfold build_header. repeat case_decide; done. }
  assert (forall src m o, length (websocket_decode src m o).1 = length src) as Hd.
  { intros src m o. cbn. generalize 0. induction src; intros i; cbn; auto. }
  destruct (decide (Z.land flags WS_HAS_MASK <> 0)) as [Hf|Hf];
    [destruct (Hm Hf) as (m & -> & Hm4)|]; rewrite !length_app, ?Hd, Hh, ?Hm4; clear Hm Hd Hh;
    repeat case_decide; unfold u64; div_lia.
Qed.

Lemma websocket_frame_size_witness :
  Z.of_nat (length (websocket_build_frame [] 0x31 (Some [1; 2; 3; 4]) [72; 105]))
  = websocket_calc_frame_size 0x31 2.
Proof.
  apply (websocket_frame_size [] 0x31 (Some [1; 2; 3; 4]) [72; 105]);
    [vm_compute; done | intros _; by exists [1; 2; 3; 4]].
Defined.

(** The bound test [p + parser->require <= end] is made on a sum that
    wraps: a frame that announces a length of [2^64 - d], for a [d] up to the
    address of its body, has its body callback invoked with that length,
    beyond the chunk.  (The 64-bit length is taken from the peer unchecked.) *)
Theorem websocket_body_overrun {U} (cb : U -> websocket_parser -> ws_event -> U * websocket_parser * Z)
    here pos fo rest u p d :
  state p = s_body -> rest <> [] -> require p = 2 ^ 64 - d -> 1 <= d <= here ->
  here + Z.of_nat (length rest) < 2 ^ 63 ->
  step cb here pos rest u p fo = Overrun (2 ^ 64 - d).
Proof.
  intros Hst Hne Hr Hd Hend. destruct rest as [|c rest]; [done|].
  unfold step. rewrite Hst. unfold step_body, fits. rewrite Hr, decide_True by lia.
  assert (u64 (here + (2 ^ 64 - d)) = here - d) as -> by (unfold u64; div_lia).
  rewrite (proj2 (Z.leb_le _ _)) by lia. by rewrite decide_True by lia.
Qed.

(** The ten bytes of such a header and a byte of body, from the peer. *)
Lemma websocket_body_overrun_witness :
  (let '(p, s) := (execute_loop log_body 10 4096 0 [0x82; 127; 255; 255; 255; 255; 255; 255; 255; 255] []
              websocket_parser_init 0, websocket_parser_init) in
   from_option (fun r => (state r.1.2, require r.1.2)) (s_start, 0) p = (s_body, 2 ^ 64 - 1)) /\
  step log_body 4106 10 [65] [] (mkParser s_body 0x12 [0; 0; 0; 0] 0 (2 ^ 64 - 1) (2 ^ 64 - 1) 0) 10
  = Overrun (2 ^ 64 - 1).
Proof.
  split; [vm_compute; reflexivity|].
  apply (websocket_body_overrun log_body 4106 10 10 [65] []
    (mkParser s_body 0x12 [0; 0; 0; 0] 0 (2 ^ 64 - 1) (2 ^ 64 - 1) 0) 1); cbn; lia || done.
Defined.

End WebSocket.
