(* ===== verification/WebSocketClient.v ===== *)
(** * The WebSocket message reader: [libs/libhv/http/WebSocketParser.cpp]

    The callbacks that collect the frames of [websocket_parser.c] into
    messages, the law-abiding client of WebSocketParser.v, and the round trip
    from [websocket_build_frame] through any chunking of the stream. *)

From S2P Require Import Prelude WebSocketParser.
Import WebSocket.

Module WebSocketClient.

Definition WS_OP_CONTINUE : Z := 0x0.
Definition WS_OP_TEXT : Z := 0x1.
Definition WS_OP_CLOSE : Z := 0x8.
Definition WS_OP_PING : Z := 0x9.
Definition MAX_PAYLOAD_LENGTH : Z := Z.shiftl 1 24.

(** [std::string::max_size()] of the implementation's [std::string]. *)
Definition string_max_size : Z := 2 ^ 62 - 1.

Inductive websocket_parser_state :=
| WS_FRAME_BEGIN | WS_FRAME_HEADER | WS_FRAME_BODY | WS_FRAME_END | WS_FRAME_FIN.
#[export] Instance websocket_parser_state_eq : EqDecision websocket_parser_state.
Proof. solve_decision. Defined.

(** [class WebSocketParser]; [messages] is what [onMessage] was called with. *)
Record WebSocketParser := mkWP {
  wp_state : websocket_parser_state;
  opcode : Z;
  message : list Z;
  messages : list (Z * list Z);
}.

Definition WebSocketParser_init : WebSocketParser := mkWP WS_FRAME_BEGIN WS_OP_CLOSE [] [].

(** [std::string::reserve] throws when asked for more than [max_size]. *)
Definition reserve_throws (n : Z) : bool := string_max_size <? u64 n.

(** The three callbacks.  An exception leaves the parser's loop as a callback
    that returns non-zero does. *)
Definition on_frame_header (wp : WebSocketParser) (p : websocket_parser) : WebSocketParser * Z :=
  let op := Z.land (flags p) WS_OP_MASK in
  let wp := if decide (op <> WS_OP_CONTINUE)
            then mkWP (wp_state wp) op (message wp) (messages wp) else wp in
  let length := i32 (len p) in
  let reserve_length := Z.min (i32 (length + 1)) MAX_PAYLOAD_LENGTH in
  if reserve_throws reserve_length then (wp, 1)
  else
    let msg := if decide (wp_state wp = WS_FRAME_BEGIN \/ wp_state wp = WS_FRAME_FIN)
               then [] else message wp in
    (mkWP WS_FRAME_HEADER (opcode wp) msg (messages wp), 0).

Definition on_frame_body (wp : WebSocketParser) (p : websocket_parser) (at_ : list Z)
  : WebSocketParser * websocket_parser :=
  let '(dst, p) := if decide (Z.land (flags p) WS_HAS_MASK <> 0)
                   then websocket_parser_decode at_ p else (at_, p) in
  (mkWP WS_FRAME_BODY (opcode wp) (message wp ++ dst) (messages wp), p).

Definition on_frame_end (wp : WebSocketParser) (p : websocket_parser) : WebSocketParser :=
  if decide (Z.land (flags p) WS_FIN <> 0)
  then mkWP WS_FRAME_FIN (opcode wp) (message wp) (messages wp ++ [(opcode wp, message wp)])
  else mkWP WS_FRAME_END (opcode wp) (message wp) (messages wp).

(** [cbs]. *)
Definition cbs (wp : WebSocketParser) (p : websocket_parser) (ev : ws_event)
  : WebSocketParser * websocket_parser * Z :=
  match ev with
  | WebSocket.on_frame_header => let '(wp, r) := on_frame_header wp p in (wp, p, r)
  | WebSocket.on_frame_body at_ n => (on_frame_body wp p (take (Z.to_nat n) at_), 0)
  | WebSocket.on_frame_end => (on_frame_end wp p, p, 0)
  end.

(** [FeedRecvData]. *)
Definition FeedRecvData (addr : Z) (data : list Z) (wp : WebSocketParser) (p : websocket_parser) :=
  websocket_parser_execute cbs addr data wp p.

(** ** The mask *)

Lemma length_decode_from i src m o : length (decode_from i src m o) = length src.
Proof. revert i. induction src; intros i; cbn; auto. Qed.

Lemma decode_from_app i s1 s2 m o :
  decode_from i (s1 ++ s2) m o = decode_from i s1 m o ++ decode_from (i + Z.of_nat (length s1)) s2 m o.
Proof.
  revert i. induction s1 as [|b s1 IH]; intros i; cbn -[Z.of_nat]; [by rewrite Z.add_0_r|].
  f_equal. rewrite IH. do 2 f_equal. lia.
Qed.

(** Only the offset modulo 4 counts. *)
Lemma decode_from_shift i j src m o1 o2 : (i + o1) mod 4 = (j + o2) mod 4 ->
  decode_from i src m o1 = decode_from j src m o2.
Proof.
  revert i j. induction src as [|b src IH]; intros i j Hm; cbn; [done|].
  rewrite Hm. f_equal. apply IH. div_lia.
Qed.

(** Masking twice is the identity. *)
Lemma decode_from_involutive i src m o : decode_from i (decode_from i src m o) m o = src.
Proof.
  revert i. induction src as [|b src IH]; intros i; cbn; [done|].
  by rewrite IH, Z.lxor_assoc, Z.lxor_nilpotent, Z.lxor_0_r.
Qed.

(** A body unmasked in two pieces, the offset carried over in the parser. *)
Lemma parser_decode_app s1 s2 p :
  websocket_parser_decode (s1 ++ s2) p
  = let '(d1, p1) := websocket_parser_decode s1 p in
    let '(d2, p2) := websocket_parser_decode s2 p1 in (d1 ++ d2, p2).
Proof.
  unfold websocket_parser_decode, websocket_decode. cbn -[Z.of_nat].
  rewrite decode_from_app, length_app. do 2 f_equal.
  - apply decode_from_shift. div_lia.
  - div_lia.
Qed.

(** ** The callbacks keep the laws *)

Lemma on_frame_header_returns wp p : 0 <= len p < len_limit -> (on_frame_header wp p).2 = 0.
Proof.
  unfold len_limit, on_frame_header, reserve_throws, string_max_size, MAX_PAYLOAD_LENGTH. intros Hl.
  rewrite (i32_small (len p)), i32_small by lia. change (Z.shiftl 1 24) with 16777216.
  rewrite u64_small by lia. destruct (Z.ltb_spec (2 ^ 62 - 1) (Z.min (len p + 1) 16777216)); [lia|done].
Qed.

Lemma on_frame_body_masked wp p s : Z.land (flags p) WS_HAS_MASK <> 0 ->
  on_frame_body wp p s
  = (mkWP WS_FRAME_BODY (opcode wp) (message wp ++ (websocket_parser_decode s p).1) (messages wp),
     (websocket_parser_decode s p).2).
Proof. intros Hm. unfold on_frame_body. rewrite decide_True by done. by destruct (websocket_parser_decode s p). Qed.

Lemma on_frame_body_plain wp p s : Z.land (flags p) WS_HAS_MASK = 0 ->
  on_frame_body wp p s = (mkWP WS_FRAME_BODY (opcode wp) (message wp ++ s) (messages wp), p).
Proof. intros Hm. unfold on_frame_body. by rewrite decide_False by lia. Qed.

Lemma on_frame_body_app wp p s1 s2 :
  on_frame_body wp p (s1 ++ s2) = on_frame_body (on_frame_body wp p s1).1 (on_frame_body wp p s1).2 s2.
Proof.
  destruct (decide (Z.land (flags p) WS_HAS_MASK = 0)) as [Hm|Hm].
  - rewrite !on_frame_body_plain; cbn; rewrite ?on_frame_body_plain by done; by rewrite <- ?app_assoc.
  - rewrite (on_frame_body_masked wp p), (on_frame_body_masked wp p s1) by done. cbn [fst snd].
    rewrite on_frame_body_masked by done. rewrite parser_decode_app.
    destruct (websocket_parser_decode s1 p) as [d1 p1] eqn:E1. cbn [snd].
    destruct (websocket_parser_decode s2 p1) as [d2 p2] eqn:E2. cbn. by rewrite <- app_assoc.
Qed.

#[export] Instance cbs_laws : CallbackLaws cbs.
Proof.
  split.
  - intros u p [] Hl; cbn; [|done|done].
    pose proof (on_frame_header_returns u p Hl). by destruct (on_frame_header u p).
  - intros u p [|at_ n|]; cbn.
    + exists (mask_offset p). destruct (on_frame_header u p). by destruct p.
    + unfold on_frame_body. case_decide; cbn; eauto. exists (mask_offset p). by destruct p.
    + exists (mask_offset p). by destruct p.
  - intros u p [|at_ n|] r o; cbn; [|unfold on_frame_body; cbn; by case_decide|done].
    change (on_frame_header u (set_offset (set_require p r) o)) with (on_frame_header u p).
    by destruct (on_frame_header u p).
  - intros u p at1 at2. cbn. by rewrite Nat2Z.id, take_app_length, take_ge by lia.
  - intros u p b at2 _. cbn -[Z.of_nat Z.to_nat on_frame_body]. change (Z.to_nat 1) with 1%nat.
    rewrite !Nat2Z.id, !take_ge by (cbn; lia). f_equal. apply (on_frame_body_app u p [b] at2).
Qed.

(** ** From the builder to the messages *)

(** A frame given to [websocket_build_frame]. *)
Record frame := mkFrame { f_flags : Z; f_mask : option (list Z); f_data : list Z }.

Definition frame_ok (f : frame) : Prop :=
  0 <= f_flags f < 64 /\ bytes_ok (f_data f) /\ Z.of_nat (length (f_data f)) < len_limit /\
  (Z.land (f_flags f) WS_HAS_MASK <> 0 ->
   exists m, f_mask f = Some m /\ length m = 4%nat /\ bytes_ok m).

Definition frame_bytes (f : frame) : list Z := websocket_build_frame [] (f_flags f) (f_mask f) (f_data f).

(** What the reader is meant to do with a frame: start a message unless one is
    open, take the opcode of a frame that has one, and deliver at FIN. *)
Definition recv (wp : WebSocketParser) (fl : Z) (data : list Z) : WebSocketParser :=
  let op := Z.land fl WS_OP_MASK in
  let op := if decide (op <> WS_OP_CONTINUE) then op else opcode wp in
  let open := if decide (wp_state wp = WS_FRAME_BEGIN \/ wp_state wp = WS_FRAME_FIN)
              then [] else message wp in
  let msg := open ++ data in
  if decide (Z.land fl WS_FIN <> 0)
  then mkWP WS_FRAME_FIN op msg (messages wp ++ [(op, msg)])
  else mkWP WS_FRAME_END op msg (messages wp).

Definition recv_frame (wp : WebSocketParser) (f : frame) : WebSocketParser := recv wp (f_flags f) (f_data f).

Lemma emit_header wp p : 0 <= len p < len_limit ->
  emit cbs WebSocket.on_frame_header (wp, p)
  = (mkWP WS_FRAME_HEADER
       (if decide (Z.land (flags p) WS_OP_MASK <> WS_OP_CONTINUE) then Z.land (flags p) WS_OP_MASK else opcode wp)
       (if decide (wp_state wp = WS_FRAME_BEGIN \/ wp_state wp = WS_FRAME_FIN) then [] else message wp)
       (messages wp), p).
Proof.
  intros Hl. pose proof (on_frame_header_returns wp p Hl) as Hr. unfold emit. cbn -[on_frame_header].
  revert Hr. unfold on_frame_header. cbn zeta. destruct (reserve_throws _); [done|].
  intros _. cbn. by case_decide.
Qed.

(** The body of a frame after its header, in one or no piece. *)
Lemma ws_payload wp p wire data :
  len p = Z.of_nat (length wire) -> len p < len_limit -> mask_offset p = 0 ->
  data = (if decide (Z.land (flags p) WS_HAS_MASK <> 0) then decode_from 0 wire (mask p) 0 else wire) ->
  exists p', ws_bytes cbs wire (spec_header_done cbs (wp, p)) = (recv wp (flags p) data, p') /\
    state p' = s_start /\ mask p' = mask p /\ len p' = len p /\
    all_small cbs wire (spec_header_done cbs (wp, p)).
Proof.
  intros Hl Hlim Hmo Hdata. unfold spec_header_done. cbn [snd].
  destruct (decide (wire = [])) as [->|Hne].
  - assert (data = []) as -> by (subst data; by case_decide). clear Hdata.
    rewrite decide_False by (cbn in Hl; lia). unfold on_parser. cbn [fst snd].
    rewrite emit_header by (cbn in *; lia). cbn [flags set_state].
    eexists. split; [|split; [|split; [|split]]]; cycle 4.
    + apply all_small_nil. intros _. done.
    + unfold recv, emit. cbn. unfold on_frame_end. cbn. rewrite app_nil_r. by case_decide.
    + done.
    + done.
    + done.
  - assert (0 < length wire)%nat by (destruct wire; cbn; [done|lia]).
    rewrite decide_True by lia. unfold on_parser. cbn [fst snd].
    rewrite emit_header by (cbn in *; lia). cbn [flags set_state set_require].
    set (wp1 := mkWP _ _ _ _). set (p1 := set_require _ _).
    destruct (ws_body cbs wp1 p1 wire) as [E S]; [done | done | done | cbn; lia |].
    rewrite E. unfold emit at 2. cbn -[on_frame_body Z.of_nat Z.to_nat].
    rewrite Nat2Z.id, take_ge by lia. unfold recv, emit. cbn [fst snd on_parser cbs].
    destruct (decide (Z.land (flags p) WS_HAS_MASK <> 0)) as [Hm|Hm]; rewrite Hdata;
      [rewrite on_frame_body_masked by done | rewrite on_frame_body_plain by (cbn; lia)];
      cbn; unfold on_frame_end; cbn; rewrite ?Hmo; eexists; repeat split; try reflexivity; exact S.
Qed.

(** Between frames. *)
Definition idle (p : websocket_parser) : Prop :=
  state p = s_start /\ length (mask p) = 4%nat /\ 0 <= len p < len_limit.

Lemma ws_frame wp p f : idle p -> frame_ok f ->
  exists p', ws_bytes cbs (frame_bytes f) (wp, p) = (recv_frame wp f, p') /\ idle p' /\
    all_small cbs (frame_bytes f) (wp, p).
Proof.
  intros (Hst & Hmk & Hlp) (Hf & Hb & Hn & Hm). destruct f as [fl m data]. cbn in *.
  unfold frame_bytes, websocket_build_frame. cbn [f_flags f_mask f_data].
  set (n := Z.of_nat (length data)) in *.
  destruct (ws_header cbs wp p fl n) as (st & r & Eh & Sh); [done | intros _; lia | done | lia |].
  unfold spec_length_done in Eh. cbn [snd flags] in Eh.
  destruct (decide (Z.land fl WS_HAS_MASK <> 0)) as [Hmask|Hmask].
  - destruct (Hm Hmask) as (m0 & -> & Hm4 & _). unfold on_parser in Eh. cbn in Eh.
    set (enc := (websocket_decode data m0 0).1).
    assert (length enc = length data) as Henc by (subst enc; cbn; apply length_decode_from).
    edestruct (ws_mask_bytes cbs wp (mkParser s_mask fl (mask p) 0 n 4 0) m0) as [Em Sm];
      [done.. | cbn; lia |].
    destruct (ws_payload wp (mkParser s_mask fl m0 0 n 0 0) enc data) as (p' & Ep & H1 & H2 & H3 & Sp);
      [by rewrite Henc | cbn; lia | done | |].
    { cbn. rewrite decide_True by done. subst enc. cbn. by rewrite decode_from_involutive. }
    exists p'. rewrite !ws_bytes_app, Eh. unfold set_require, set_state. cbn. rewrite Em.
    split; [exact Ep|]. split; [split; [done|]; split; [by rewrite H2 | rewrite H3; cbn; lia]|].
    apply all_small_app; [done|]. rewrite Eh. apply all_small_app; [exact Sm|]. 
    unfold set_require, set_state. cbn. rewrite Em. exact Sp.
  - destruct (ws_payload wp (mkParser st fl (mask p) 0 n r 0) data data) as (p' & Ep & H1 & H2 & H3 & Sp);
      [done | cbn; lia | done | cbn; by rewrite decide_False |].
    exists p'. rewrite ws_bytes_app, Eh.
    split; [exact Ep|]. split; [split; [done|]; split; [by rewrite H2 | rewrite H3; cbn; lia]|].
    apply all_small_app; [done|]. rewrite Eh. exact Sp.
Qed.

Definition stream_bytes (fs : list frame) : list Z := concat (map frame_bytes fs).

Lemma ws_frames fs : forall wp p, idle p -> Forall frame_ok fs ->
  exists p', ws_bytes cbs (stream_bytes fs) (wp, p) = (fold_left recv_frame fs wp, p') /\
    all_small cbs (stream_bytes fs) (wp, p).
Proof.
  induction fs as [|f fs IH]; intros wp p Hp Hfs.
  - exists p. split; [done|]. apply all_small_nil. intros _. apply Hp.
  - inversion_clear Hfs as [|? ? Hf Hfs']. destruct (ws_frame wp p f) as (p1 & E & H1 & S1); [done..|].
    destruct (IH (recv_frame wp f) p1) as (p2 & E2 & S2); [done..|].
    exists p2. unfold stream_bytes. cbn [map concat fold_left]. rewrite ws_bytes_app, E.
    split; [exact E2|]. apply all_small_app; [done|]. by rewrite E.
Qed.

Lemma decode_from_bytes src m o : bytes_ok src -> bytes_ok m ->
  forall i, bytes_ok (decode_from i src m o).
Proof.
  intros Hs Hm. induction Hs as [|b src Hb Hs IH]; intros i; cbn; constructor; [|done].
  apply lxor_byte; [done|]. destruct (m !! _) eqn:E; cbn; [by eapply Forall_lookup_1 | by split].
Qed.

Lemma be_list_bytes n k : bytes_ok (be_list n k).
Proof. induction k; cbn; constructor; auto with cdev. Qed.

Lemma head_bytes fl l : 0 <= fl < 64 -> 0 <= l < 128 ->
  is_byte (flag_byte fl) /\ is_byte (length_byte fl l).
Proof.
  assert (Forall (fun f => Forall (fun l => is_byte (flag_byte f) /\ is_byte (length_byte f l))
    (seqZ 0 128)) (seqZ 0 64)) as H.
  { apply (bool_decide_unpack _). vm_compute. done. }
  intros Hf Hl. rewrite Forall_forall in H. specialize (H fl).
  rewrite Forall_forall in H. apply H; apply elem_of_seqZ; lia.
Qed.

Lemma build_bytes f : frame_ok f -> bytes_ok (frame_bytes f).
Proof.
  intros (Hf & Hb & _ & Hm). unfold frame_bytes, websocket_build_frame.
  assert (bytes_ok (build_header (f_flags f) (Z.of_nat (length (f_data f))))) as Hh.
  { rewrite build_header_eq. pose proof (head_bytes (f_flags f) 126 Hf) as [? ?]; [lia|].
    pose proof (head_bytes (f_flags f) 127 Hf) as [_ ?]; [lia|].
    case_decide; [|case_decide];
      repeat first [apply Forall_nil_2 | apply Forall_cons_2]; auto using be_list_bytes with cdev.
    apply (head_bytes _ _ Hf). lia. }
  case_decide as Hmask; [|by apply Forall_app].
  destruct (Hm Hmask) as (m & -> & _ & Hmb). repeat (apply Forall_app; split); try done.
  by apply decode_from_bytes.
Qed.

(** The stream of some frames, in any chunks. *)
Lemma frames_read (fs : list frame) (chunks : list (Z * list Z)) :
  Forall frame_ok fs -> Forall chunk_ok chunks ->
  concat (map snd chunks) = concat (map frame_bytes fs) ->
  exists p', execute_chunks cbs chunks (WebSocketParser_init, websocket_parser_init)
             = Some (fold_left recv_frame fs WebSocketParser_init, p').
Proof.
  intros Hfs Hc E.
  destruct (ws_frames fs WebSocketParser_init websocket_parser_init) as (p' & Ew & Hs); [|done|].
  { split; [done|]. split; [done|]. by cbn. }
  destruct (execute_chunks_spec cbs chunks (WebSocketParser_init, websocket_parser_init))
    as ([wp q] & Ex & [Hq _]); [done | | split; cbn; lia | by rewrite E |].
  - rewrite E. clear -Hfs. induction Hfs; cbn; [done|].
    apply Forall_app. split; [by apply build_bytes | done].
  - exists q. rewrite Ex. rewrite E in Hq. unfold stream_bytes in Ew. rewrite Ew in Hq. cbn in Hq. by subst.
Qed.

(** What was delivered stays. *)
Lemma messages_grow addr data wp p wp' p' n : FeedRecvData addr data wp p = Some (wp', p', n) ->
  messages wp `prefix_of` messages wp'.
Proof.
  intros E. eapply (execute_keeps cbs (fun u => messages wp `prefix_of` messages u)); [|exact E|done].
  intros u q ev Hu. destruct ev as [|at_ k|]; cbn.
  - unfold on_frame_header. destruct (reserve_throws _); cbn; repeat case_decide; done.
  - unfold on_frame_body. by destruct (if decide _ then _ else _).
  - unfold on_frame_end. case_decide; [|done]. by apply prefix_app_r.
Qed.

(** ** Properties *)

(** Framing round trip: the frames written by [websocket_build_frame]
    (of any payload below 2 GB, masked or not, in fragments or whole), put one
    after the other and delivered to [FeedRecvData] in any chunks, are read
    without error and give exactly the message events of the frames. *)
Theorem websocket_roundtrip (fs : list frame) (chunks : list (Z * list Z)) :
  Forall frame_ok fs -> Forall chunk_ok chunks ->
  concat (map snd chunks) = concat (map frame_bytes fs) ->
  exists p', execute_chunks cbs chunks (WebSocketParser_init, websocket_parser_init)
             = Some (fold_left recv_frame fs WebSocketParser_init, p').
Proof. by apply frames_read. Qed.

(** A masked text in two fragments, cut in the middle of headers and masks. *)
Lemma websocket_roundtrip_witness :
  let fs := [mkFrame 0x21 (Some [17; 34; 51; 68]) [72; 101; 108]; mkFrame 0x30 (Some [9; 8; 7; 6]) [108; 111]] in
  let data := stream_bytes fs in
  (exists p', execute_chunks cbs [(4096, take 5 data); (4096, take 6 (drop 5 data)); (8192, drop 11 data)]
      (WebSocketParser_init, websocket_parser_init)
    = Some (fold_left recv_frame fs WebSocketParser_init, p')) /\
  messages (fold_left recv_frame fs WebSocketParser_init) = [(WS_OP_TEXT, [72; 101; 108; 108; 111])].
Proof.
  intros fs data. split; [|vm_compute; reflexivity].
  apply (websocket_roundtrip fs [(4096, take 5 data); (4096, take 6 (drop 5 data)); (8192, drop 11 data)]).
  - repeat apply Forall_cons_2; [..|apply Forall_nil_2];
      (split; [cbn; lia|]; split; [apply (bool_decide_unpack _); vm_compute; done|];
       split; [done|]; intros _; eexists; split; [reflexivity|]; split; [done|];
       apply (bool_decide_unpack _); vm_compute; done).
  - repeat constructor; cbn; lia.
  - vm_compute. reflexivity.
Defined.

(** A control frame between the fragments of a message, which RFC 6455
    allows, is not kept apart: its payload is appended to the fragments
    received so far and delivered with them under its own opcode, and the last
    fragment starts a new message under the opcode of the control frame. *)
Theorem websocket_interleaved_control (part1 part2 ctl : list Z) op1 opc (chunks : list (Z * list Z)) :
  let fs := [mkFrame op1 None part1; mkFrame (Z.lor opc WS_FIN) None ctl; mkFrame WS_FIN None part2] in
  0 < op1 < 8 -> 8 <= opc < 16 -> Forall frame_ok fs ->
  Forall chunk_ok chunks -> concat (map snd chunks) = concat (map frame_bytes fs) ->
  exists wp p', execute_chunks cbs chunks (WebSocketParser_init, websocket_parser_init) = Some (wp, p') /\
    messages wp = [(opc, part1 ++ ctl); (opc, part2)].
Proof.
  intros fs H1 H2 Hfs Hc Hbytes.
  destruct (frames_read fs chunks) as [p' ->]; [done..|]. do 2 eexists. split; [done|]. clear -H1 H2.
  subst fs. cbn [fold_left]. unfold recv_frame. cbn [f_flags f_data].
  assert (Forall (fun o => Z.land o WS_OP_MASK = o /\ Z.land (Z.lor o WS_FIN) WS_OP_MASK = o /\
    Z.land o WS_FIN = 0 /\ Z.land (Z.lor o WS_FIN) WS_FIN <> 0) (seqZ 0 16)) as H.
  { apply (bool_decide_unpack _). vm_compute. done. }
  rewrite Forall_forall in H.
  destruct (H op1) as (A1 & _ & A3 & _); [apply elem_of_seqZ; lia|].
  destruct (H opc) as (_ & B2 & _ & B4); [apply elem_of_seqZ; lia|].
  unfold recv. rewrite A1, A3, B2. cbn. rewrite (decide_True (P := opc <> WS_OP_CONTINUE)) by (unfold WS_OP_CONTINUE; lia).
  rewrite (decide_True (P := Z.land (Z.lor opc WS_FIN) WS_FIN <> 0)) by done. done.
Qed.

Lemma websocket_interleaved_control_witness :
  let fs := [mkFrame 1 None [97]; mkFrame (Z.lor 9 WS_FIN) None [120]; mkFrame WS_FIN None [98]] in
  exists wp p', execute_chunks cbs [(4096, concat (map frame_bytes fs))]
      (WebSocketParser_init, websocket_parser_init) = Some (wp, p') /\
    messages wp = [(9, [97; 120]); (9, [98])].
Proof.
  apply (websocket_interleaved_control [97] [98] [120] 1 9).
  - lia.
  - lia.
  - repeat apply Forall_cons_2; [..|apply Forall_nil_2];
      (split; [by vm_compute|]; split; [apply (bool_decide_unpack _); vm_compute; done|];
       split; [done|]; intros []; reflexivity).
  - repeat constructor; cbn; lia.
  - reflexivity.
Defined.

(** A header that announces a length between [2^31] and [2^32 - 2]
    makes the reserved size negative as an [int], and [reserve] throws out of
    the parser: the length is truncated to [int] before it is capped. *)
Theorem websocket_header_throws wp p :
  2 ^ 31 <= len p < 2 ^ 32 - 1 -> (on_frame_header wp p).2 = 1.
Proof.
  intros Hl. unfold on_frame_header, reserve_throws, string_max_size. cbn zeta.
  assert (Z.min (i32 (i32 (len p) + 1)) MAX_PAYLOAD_LENGTH = len p + 1 - 2 ^ 32) as ->.
  { assert (i32 (i32 (len p) + 1) = len p + 1 - 2 ^ 32) as -> by (unfold i32; div_lia).
    unfold MAX_PAYLOAD_LENGTH. rewrite Z.min_l; [done|]. change (Z.shiftl 1 24) with 16777216. lia. }
  assert (u64 (len p + 1 - 2 ^ 32) = len p + 1 - 2 ^ 32 + 2 ^ 64) as -> by (unfold u64; div_lia).
  destruct (Z.ltb_spec (2 ^ 62 - 1) (len p + 1 - 2 ^ 32 + 2 ^ 64)); [done|lia].
Qed.

Lemma websocket_header_throws_witness :
  (on_frame_header WebSocketParser_init (set_len websocket_parser_init (2 ^ 31))).2 = 1.
Proof. apply (websocket_header_throws WebSocketParser_init (set_len websocket_parser_init (2 ^ 31))). cbn. lia. Defined.


End WebSocketClient.
