(* ===== verification/Interaction.v ===== *)
(** * Programs that call code outside of the repository

    A handler of the source is modelled as a tree of the calls it makes: every
    answer the environment may give has its continuation.  [exec] relates a
    program to the traces (calls with their answers) it can produce, so a
    theorem about [exec] holds whatever the called code does.  [wp] computes a
    weakest precondition over a ghost state updated by every event; [run]
    executes a program against a concrete environment. *)

From S2P Require Import Prelude.

Set Primitive Projections.
Record event {call : Type} (resp : call -> Type) := Ev { ev_call : call; ev_resp : resp ev_call }.
Unset Primitive Projections.
Arguments Ev {call resp} ev_call ev_resp.
Arguments ev_call {call resp} _.
Arguments ev_resp {call resp} _.

Inductive prog {call : Type} (resp : call -> Type) (A : Type) : Type :=
| Ret (a : A)
| Call (c : call) (k : resp c -> prog resp A).
Arguments Ret {call resp A} a.
Arguments Call {call resp A} c k.

Section Prog.
Context {call : Type} {resp : call -> Type}.

Fixpoint bindp {A B} (f : A -> prog resp B) (m : prog resp A) : prog resp B :=
  match m with
  | Ret a => f a
  | Call c k => Call c (fun r => bindp f (k r))
  end.

(** The program that makes one call and returns its answer. *)
Definition invoke (c : call) : prog resp (resp c) := Call c Ret.

(** [exec m tr a]: with the answers of [tr], [m] makes the calls of [tr] in
    that order and returns [a]. *)
Fixpoint exec {A} (m : prog resp A) (tr : list (event resp)) (a : A) : Prop :=
  match m with
  | Ret x => tr = [] /\ a = x
  | Call c k => exists r tr', tr = Ev c r :: tr' /\ exec (k r) tr' a
  end.

(** Execution against an environment with its own state [W]. *)
Fixpoint run {A W} (env : W -> forall c, resp c * W) (w : W) (m : prog resp A)
  : A * W * list (event resp) :=
  match m with
  | Ret a => (a, w, [])
  | Call c k =>
      let '(r, w') := env w c in
      let '(a, w'', tr) := run env w' (k r) in (a, w'', Ev c r :: tr)
  end.
End Prog.

#[export] Instance prog_ret {call} (resp : call -> Type) : MRet (prog resp) := fun A a => Ret a.
#[export] Instance prog_bind {call} (resp : call -> Type) : MBind (prog resp) :=
  fun A B f m => bindp f m.

Section Laws.
Context {call : Type} {resp : call -> Type}.
Implicit Types tr : list (event resp).

Lemma exec_bind {A B} (m : prog resp A) (f : A -> prog resp B) tr b :
  exec (m ≫= f) tr b <->
  exists t1 t2 a, tr = t1 ++ t2 /\ exec m t1 a /\ exec (f a) t2 b.
Proof.
  revert tr. induction m as [a|c k IH]; intros tr; simpl.
  - split; [intros H; by exists [], tr, a | intros (t1 & t2 & a' & -> & [-> ->] & H); done].
  - split.
    + intros (r & tr' & -> & H). apply IH in H as (t1 & t2 & a & -> & H1 & H2).
      exists (Ev c r :: t1), t2, a. split; [done|]. split; [eauto|done].
    + intros (t1 & t2 & a & -> & (r & t1' & -> & H1) & H2).
      exists r, (t1' ++ t2). split; [done|]. apply IH. eauto 10.
Qed.

Lemma run_exec {A W} (env : W -> forall c, resp c * W) (m : prog resp A) w :
  exec m (run env w m).2 (run env w m).1.1.
Proof.
  revert w. induction m as [a|c k IH]; intros w; simpl; [done|].
  destruct (env w c) as [r w']. specialize (IH r w').
  destruct (run env w' (k r)) as [[a w''] tr]. simpl in *. eauto.
Qed.

Lemma bind_assoc {A B C} (m : prog resp A) (f : A -> prog resp B) (g : B -> prog resp C) tr c :
  exec ((m ≫= f) ≫= g) tr c <-> exec (m ≫= (fun a => f a ≫= g)) tr c.
Proof.
  revert tr. induction m as [a|x k IH]; intros tr; simpl; [done|].
  split; intros (r & tr' & -> & H); exists r, tr'; (split; [done|]); by apply IH.
Qed.
End Laws.

(** ** Weakest preconditions over a ghost state *)

Section Wp.
Context {call : Type} {resp : call -> Type} {S : Type}.
Context (legal : S -> event resp -> Prop) (upd : S -> event resp -> S).

Fixpoint wp {A} (m : prog resp A) (s : S) (Q : S -> A -> Prop) : Prop :=
  match m with
  | Ret a => Q s a
  | Call c k => forall r, legal s (Ev c r) -> wp (k r) (upd s (Ev c r)) Q
  end.

(** Every answer of the trace is one the documentation of the callee allows. *)
Fixpoint legal_trace (s : S) (tr : list (event resp)) : Prop :=
  match tr with
  | [] => True
  | e :: tr' => legal s e /\ legal_trace (upd s e) tr'
  end.

Definition ghost (s : S) (tr : list (event resp)) : S := fold_left upd tr s.

Lemma wp_sound {A} (m : prog resp A) s Q tr a :
  wp m s Q -> exec m tr a -> legal_trace s tr -> Q (ghost s tr) a.
Proof.
  revert s tr. induction m as [x|c k IH]; intros s tr Hwp; simpl.
  - by intros [-> ->] _.
  - intros (r & tr' & -> & Hex) [Hl Hlt]. simpl. by apply (IH r); [apply Hwp| |].
Qed.

Lemma wp_bind {A B} (m : prog resp A) (f : A -> prog resp B) s Q :
  wp m s (fun s' a => wp (f a) s' Q) -> wp (m ≫= f) s Q.
Proof.
  revert s. induction m as [x|c k IH]; intros s; simpl; [done|].
  intros H r Hl. apply IH. auto.
Qed.

Lemma wp_bind_assoc {A B C} (m : prog resp A) (f : A -> prog resp B) (g : B -> prog resp C) s Q :
  wp ((m ≫= f) ≫= g) s Q -> wp (m ≫= (fun a => f a ≫= g)) s Q.
Proof.
  revert s. induction m as [x|c k IH]; intros s; [done|].
  intros H r Hl. apply IH, H, Hl.
Qed.

Lemma wp_mono {A} (m : prog resp A) s (Q R : S -> A -> Prop) :
  (forall s' a, Q s' a -> R s' a) -> wp m s Q -> wp m s R.
Proof.
  intros HQR. revert s. induction m as [x|c k IH]; intros s; simpl; [apply HQR|].
  intros H r Hl. auto.
Qed.

(** A program that never moves the ghost state out of [P]. *)
Lemma wp_and {A} (m : prog resp A) s (Q R : S -> A -> Prop) :
  wp m s Q -> wp m s R -> wp m s (fun s' a => Q s' a /\ R s' a).
Proof.
  revert s. induction m as [x|c k IH]; intros s; simpl; [done|]. auto.
Qed.

(** The run against an environment whose answers are always legal. *)
Lemma wp_run {A W} (env : W -> forall c, resp c * W) (m : prog resp A) w s Q :
  (forall w s c, legal s (Ev c (env w c).1)) ->
  wp m s Q -> Q (ghost s (run env w m).2) (run env w m).1.1.
Proof.
  intros Henv. revert w s. induction m as [x|c k IH]; intros w s; simpl; [done|].
  intros H. specialize (Henv w s c). destruct (env w c) as [r w'] eqn:E. simpl in *.
  specialize (IH r w' (upd s (Ev c r)) (H r Henv)).
  destruct (run env w' (k r)) as [[a w''] tr]. done.
Qed.
End Wp.

(** Every answer is legal, for the theorems that assume nothing of the callee. *)
Definition any_answer {call} {resp : call -> Type} {S : Type} (_ : S) (_ : event resp) : Prop := True.

Lemma legal_any {call} {resp : call -> Type} {S} (upd : S -> event resp -> S) s tr :
  legal_trace any_answer upd s tr.
Proof. revert s. induction tr; simpl; unfold any_answer; auto. Qed.

Lemma wp_any {call} {resp : call -> Type} {S A} (upd : S -> event resp -> S)
    (m : prog resp A) s Q tr a :
  wp any_answer upd m s Q -> exec m tr a -> Q (ghost upd s tr) a.
Proof. intros H Hex. apply (wp_sound any_answer upd m s Q tr a H Hex), legal_any. Qed.

(** What holds of every run holds as a weakest precondition of any ghost state. *)
Lemma wp_exec {call} {resp : call -> Type} {S A} (upd : S -> event resp -> S)
    (m : prog resp A) s Q :
  (forall tr a, exec m tr a -> Q (ghost upd s tr) a) -> wp any_answer upd m s Q.
Proof.
  revert s. induction m as [x|c k IH]; intros s HQ; simpl.
  - by apply (HQ []).
  - intros r _. apply IH. intros tr a Hex. apply (HQ (Ev c r :: tr)). simpl. eauto.
Qed.

(** The ghost state that is the trace itself. *)
Definition snoc {call} {resp : call -> Type} (tr : list (event resp)) (e : event resp) := tr ++ [e].

Lemma ghost_snoc {call} {resp : call -> Type} (t tr : list (event resp)) : ghost snoc t tr = t ++ tr.
Proof.
  revert t. induction tr as [|e tr IH]; intros t; simpl; [by rewrite app_nil_r|].
  unfold ghost in *. simpl. rewrite IH. unfold snoc. by rewrite <- app_assoc.
Qed.

(** A property of every trace and result, by symbolic execution. *)
Lemma wp_trace {call} {resp : call -> Type} {A} (m : prog resp A) (Q : list (event resp) -> A -> Prop) tr a :
  wp any_answer snoc m [] Q -> exec m tr a -> Q tr a.
Proof. intros H Hex. pose proof (wp_any snoc m [] Q tr a H Hex) as G. by rewrite ghost_snoc in G. Qed.

(** Counting the events that satisfy a test. *)
Definition tally {call} {resp : call -> Type} (f : event resp -> bool) (n : nat) (e : event resp) : nat :=
  if f e then S n else n.

Definition count_events {call} {resp : call -> Type} (f : event resp -> bool)
    (tr : list (event resp)) : nat := ghost (tally f) 0%nat tr.

Lemma count_events_snoc {call} {resp : call -> Type} (f : event resp -> bool) tr e :
  count_events f (tr ++ [e]) = if f e then S (count_events f tr) else count_events f tr.
Proof. unfold count_events, ghost. by rewrite fold_left_app. Qed.

Lemma count_events_0 {call} {resp : call -> Type} {S} (f : event resp -> bool)
    (legal : S -> event resp -> Prop) upd s tr :
  (forall s e, legal s e -> f e = false) -> legal_trace legal upd s tr -> count_events f tr = 0%nat.
Proof.
  intros Hf. unfold count_events. revert s. induction tr as [|e tr IH]; intros s; [done|].
  intros [He Ht]. unfold ghost. simpl. unfold tally at 2. rewrite (Hf _ _ He). by apply (IH (upd s e)).
Qed.

Lemma legal_mono {call} {resp : call -> Type} {S} (l1 l2 : S -> event resp -> Prop) upd s tr :
  (forall s e, l1 s e -> l2 s e) -> legal_trace l1 upd s tr -> legal_trace l2 upd s tr.
Proof. intros H. revert s. induction tr; simpl; intros s; [done|]. intros []. auto. Qed.

(** A run against an environment that keeps the ghost state itself. *)
Lemma run_legal {call} {resp : call -> Type} {S A} (legal : S -> event resp -> Prop) upd
    (env : S -> forall c, resp c * S) (m : prog resp A) s :
  (forall s c, legal s (Ev c (env s c).1) /\ (env s c).2 = upd s (Ev c (env s c).1)) ->
  legal_trace legal upd s (run env s m).2.
Proof.
  intros H. revert s. induction m as [a|c k IH]; intros s; simpl; [done|].
  destruct (H s c) as [H1 H2]. destruct (env s c) as [r s']. simpl in *. subst s'.
  specialize (IH r (upd s (Ev c r))). destruct (run env _ (k r)) as [[a w] tr]. done.
Qed.

(** A run against an environment that keeps the ghost state in its own. *)
Lemma run_legal_in {call} {resp : call -> Type} {S W A} (legal : S -> event resp -> Prop) upd (state_of : W -> S)
    (env : W -> forall c, resp c * W) (m : prog resp A) w :
  (forall w c, legal (state_of w) (Ev c (env w c).1) /\ state_of (env w c).2 = upd (state_of w) (Ev c (env w c).1)) ->
  legal_trace legal upd (state_of w) (run env w m).2.
Proof.
  intros H. revert w. induction m as [a|c k IH]; intros w; simpl; [done|].
  destruct (H w c) as [H1 H2]. destruct (env w c) as [r w']. simpl in *.
  specialize (IH r w'). rewrite H2 in IH. destruct (run env w' (k r)) as [[a w''] tr]. done.
Qed.

(** A run against an environment all of whose answers are legal in any state. *)
Lemma run_answers {call} {resp : call -> Type} {S W A} (legal : S -> event resp -> Prop) upd
    (env : W -> forall c, resp c * W) (m : prog resp A) w s :
  (forall s w c, legal s (Ev c (env w c).1)) -> legal_trace legal upd s (run env w m).2.
Proof.
  intros H. revert w s. induction m as [a|c k IH]; intros w s; simpl; [done|].
  specialize (H s w c). destruct (env w c) as [r w']. simpl in *.
  specialize (IH r w' (upd s (Ev c r))). destruct (run env _ (k r)) as [[a w''] tr]. done.
Qed.

Lemma wp_true {call} {resp : call -> Type} {S A} (legal : S -> event resp -> Prop)
    (upd : S -> event resp -> S) (m : prog resp A) s :
  wp legal upd m s (fun _ _ => True).
Proof. revert s. induction m as [a|c k IH]; intros s; simpl; [done|]. auto. Qed.

(** What holds whatever is answered holds of legal answers. *)
Lemma wp_restrict {call} {resp : call -> Type} {S A} (legal : S -> event resp -> Prop)
    (upd : S -> event resp -> S) (m : prog resp A) s Q :
  wp any_answer upd m s Q -> wp legal upd m s Q.
Proof. revert s. induction m as [a|c k IH]; intros s; simpl; [done|]. intros Hm r _. by apply IH, Hm. Qed.

(** A program that does not change the ghost state, whatever is answered. *)
Section Neutral.
Context {call : Type} {resp : call -> Type} {S : Type} (upd : S -> event resp -> S).

Definition neutral {A} (m : prog resp A) : Prop :=
  forall s, wp any_answer upd m s (fun s' _ => s' = s).

Lemma neutral_ret {A} (a : A) : neutral (mret a).
Proof. by intros s. Qed.

Lemma neutral_invoke c : (forall s r, upd s (Ev c r) = s) -> neutral (invoke c).
Proof. intros H s r _. apply H. Qed.

Lemma neutral_bind {A B} (m : prog resp A) (f : A -> prog resp B) :
  neutral m -> (forall a, neutral (f a)) -> neutral (m ≫= f).
Proof.
  intros Hm Hf s. apply wp_bind. eapply wp_mono, Hm. intros s' a ->. apply Hf.
Qed.

(** A neutral program inside another. *)
Lemma wp_neutral {A} (legal : S -> event resp -> Prop) (m : prog resp A) s (Q : S -> A -> Prop) :
  neutral m -> (forall a, Q s a) -> wp legal upd m s Q.
Proof.
  intros Hm HQ. apply wp_restrict. eapply wp_mono, Hm. intros s' a ->. apply HQ.
Qed.
End Neutral.

(** ** Unfinished runs

    [held m tr c]: [m] has made the calls of [tr] and is in the call [c], which may
    never return; [follows ok last m]: every call is one that may follow the call
    before it, the first one [last]. *)
Section Held.
Context {call : Type} {resp : call -> Type}.

Fixpoint held {A} (m : prog resp A) (tr : list (event resp)) (c : call) : Prop :=
  match m with
  | Ret _ => False
  | Call c' k => (tr = [] /\ c = c') \/ exists r tr', tr = Ev c' r :: tr' /\ held (k r) tr' c
  end.

Context (ok : option (event resp) -> call -> Prop).

Fixpoint follows (last : option (event resp)) {A} (m : prog resp A) : Prop :=
  match m with
  | Ret _ => True
  | Call c k => ok last c /\ forall r, follows (Some (Ev c r)) (k r)
  end.

Lemma follows_bind {A B} (m : prog resp A) (f : A -> prog resp B) : forall last,
  follows last m -> (forall a last', follows last' (f a)) -> follows last (m ≫= f).
Proof.
  induction m as [a|c k IH]; intros last Hm Hf; [apply Hf|]. destruct Hm as [Hc Hk]. split; [done|].
  intros r. by apply IH.
Qed.

Lemma follows_held_from {A} (m : prog resp A) c : forall l tr, follows (last l) m -> held m tr c -> ok (last (l ++ tr)) c.
Proof.
  induction m as [a|c' k IH]; intros l tr Hm Hh; [done|]. destruct Hm as [Hc Hk].
  destruct Hh as [[-> ->]|(r & tr' & -> & Hh)]; [by rewrite app_nil_r|].
  replace (l ++ Ev c' r :: tr') with ((l ++ [Ev c' r]) ++ tr') by by rewrite <- app_assoc.
  apply (IH r); [by rewrite last_snoc | done].
Qed.

Lemma follows_held {A} (m : prog resp A) tr c : follows None m -> held m tr c -> ok (last tr) c.
Proof. apply (follows_held_from m c []). Qed.
End Held.

(** [wp_step]: one step of symbolic execution of the program in the goal. *)
Ltac wp_case :=
  match goal with
  | |- wp _ _ (match ?x with _ => _ end) _ _ => destruct x eqn:?
  | |- wp _ _ (bindp _ (match ?x with _ => _ end)) _ _ => destruct x eqn:?
  | |- wp _ _ (match ?x with _ => _ end ≫= _) _ _ => destruct x eqn:?
  end.
Ltac wp_step :=
  first [ apply wp_bind
        | progress cbn [wp invoke mret prog_ret]
        | match goal with
          | |- forall r : _ * _, _ => intros [? ?]
          | |- forall r, any_answer _ _ -> _ => intros ? _
          | |- forall r, _ -> wp _ _ _ _ _ => intros ? ?
          end
        | wp_case ].
Ltac wp_run := repeat wp_step.

(** ** Loops that are left early

    The body of a C loop either goes on or leaves the loop, from anywhere in
    it; [flow] is what a part of the body returns, [fbind] (written [x ⟵ m; k])
    goes on with the rest of the body, and [iterp] repeats the body with fuel
    ([None] is out of fuel). *)

Inductive flow (I R : Type) := Next (i : I) | Leave (r : R).
Arguments Next {I R} i.
Arguments Leave {I R} r.

Section Flow.
Context {call : Type} {resp : call -> Type} {R : Type}.

Definition fbind {A B} (f : A -> prog resp (flow B R)) (m : prog resp (flow A R)) : prog resp (flow B R) :=
  m ≫= fun x => match x with Next a => f a | Leave r => mret (Leave r) end.

Definition leave {A} (r : R) : prog resp (flow A R) := mret (Leave r).
Definition next {A} (a : A) : prog resp (flow A R) := mret (Next a).

Fixpoint iterp {I} (body : I -> prog resp (flow I R)) (fuel : nat) (i : I) : prog resp (option R) :=
  match fuel with
  | O => mret None
  | S fuel' =>
      x ← body i;
      match x with Next i' => iterp body fuel' i' | Leave r => mret (Some r) end
  end.

Section Rules.
Context {S : Type} (legal : S -> event resp -> Prop) (upd : S -> event resp -> S).

Lemma wp_fbind {A B} (m : prog resp (flow A R)) (f : A -> prog resp (flow B R)) s Q :
  wp legal upd m s (fun s' x => match x with Next a => wp legal upd (f a) s' Q | Leave r => Q s' (Leave r) end) ->
  wp legal upd (fbind f m) s Q.
Proof. intros H. apply wp_bind. eapply wp_mono, H. by intros s' [a|r]. Qed.

(** An invariant of the body holds through the loop. *)
Lemma wp_iterp {I} (body : I -> prog resp (flow I R)) (Inv : S -> I -> Prop) (Q : S -> R -> Prop) :
  (forall s i, Inv s i ->
     wp legal upd (body i) s (fun s' x => match x with Next i' => Inv s' i' | Leave r => Q s' r end)) ->
  forall fuel s i, Inv s i ->
    wp legal upd (iterp body fuel i) s (fun s' o => match o with Some r => Q s' r | None => exists i', Inv s' i' end).
Proof.
  intros Hbody fuel. induction fuel as [|fuel IH]; intros s i Hi; cbn [iterp]; [by exists i|].
  apply wp_bind. eapply wp_mono, (Hbody s i Hi). intros s' [i'|r] H; [by apply IH | done].
Qed.

(** A measure that the body decreases bounds the fuel. *)
Lemma wp_iterp_total {I} (body : I -> prog resp (flow I R)) (Inv : S -> I -> Prop) (m : S -> I -> nat)
    (Q : S -> R -> Prop) :
  (forall s i, Inv s i ->
     wp legal upd (body i) s (fun s' x =>
       match x with Next i' => Inv s' i' /\ (m s' i' < m s i)%nat | Leave r => Q s' r end)) ->
  forall fuel s i, Inv s i -> (m s i < fuel)%nat ->
    wp legal upd (iterp body fuel i) s (fun s' o => match o with Some r => Q s' r | None => False end).
Proof.
  intros Hbody fuel. induction fuel as [|fuel IH]; intros s i Hi Hm; cbn [iterp]; [lia|].
  apply wp_bind. eapply wp_mono, (Hbody s i Hi). intros s' [i'|r] H; [|done].
  apply IH; [apply H | destruct H; lia].
Qed.
End Rules.

Section NeutralFlow.
Context {S : Type} (upd : S -> event resp -> S).

Lemma neutral_fbind {A B} (m : prog resp (flow A R)) (f : A -> prog resp (flow B R)) :
  neutral upd m -> (forall a, neutral upd (f a)) -> neutral upd (fbind f m).
Proof.
  intros Hm Hf. apply neutral_bind; [done|]. intros [a|r]; [apply Hf | apply neutral_ret].
Qed.

Lemma neutral_iterp {I} (body : I -> prog resp (flow I R)) fuel i :
  (forall i, neutral upd (body i)) -> neutral upd (iterp body fuel i).
Proof.
  intros H. revert i. induction fuel as [|fuel IH]; intros i; cbn [iterp]; [apply neutral_ret|].
  apply neutral_bind; [apply H|]. intros [i'|r]; [apply IH | apply neutral_ret].
Qed.
End NeutralFlow.
End Flow.

Notation "x ⟵ y ; z" := (fbind (fun x : _ => z) y)
  (at level 20, y at level 100, z at level 200, only parsing) : stdpp_scope.
Notation "' x ⟵ y ; z" := (fbind (fun x : _ => z) y)
  (at level 20, x pattern, y at level 100, z at level 200, only parsing) : stdpp_scope.

(** ** Which calls a program makes

    [only P m]: every call that [m] can make satisfies [P]. *)

Fixpoint only {call : Type} {resp : call -> Type} {A} (P : call -> bool) (m : prog resp A) : Prop :=
  match m with
  | Ret _ => True
  | Call c k => P c = true /\ forall r, only P (k r)
  end.

Section Only.
Context {call : Type} {resp : call -> Type} (P : call -> bool).

Lemma only_ret {A} (a : A) : only (resp := resp) P (mret a).
Proof. exact I. Qed.

Lemma only_invoke c : P c = true -> only (resp := resp) P (invoke c).
Proof. by intros Hc. Qed.

Lemma only_bind {A B} (m : prog resp A) (f : A -> prog resp B) :
  only P m -> (forall a, only P (f a)) -> only P (m ≫= f).
Proof.
  intros Hm Hf. induction m as [a|c k IH]; [apply Hf|]. destruct Hm as [Hc Hk].
  split; [done|]. intros r. apply IH, Hk.
Qed.

Lemma only_fbind {A B R} (m : prog resp (flow A R)) (f : A -> prog resp (flow B R)) :
  only P m -> (forall a, only P (f a)) -> only P (fbind f m).
Proof. intros Hm Hf. apply only_bind; [done|]. intros [a|r]; [apply Hf | done]. Qed.

Lemma only_iterp {I R} (body : I -> prog resp (flow I R)) fuel i :
  (forall i, only P (body i)) -> only P (iterp body fuel i).
Proof.
  intros H. revert i. induction fuel as [|fuel IH]; intros i; [done|].
  apply only_bind; [apply H|]. intros [i'|r]; [apply IH | done].
Qed.

Lemma only_neutral {S A} (upd : S -> event resp -> S) (m : prog resp A) :
  (forall c s r, P c = true -> upd s (Ev c r) = s) -> only P m -> neutral upd m.
Proof.
  intros Hupd. induction m as [a|c k IH]; intros Hm s; [done|]. destruct Hm as [Hc Hk].
  intros r _. rewrite Hupd by done. apply IH, Hk.
Qed.

(** A program whose calls do not touch this ghost state, inside another. *)
Lemma wp_only_at {S A} (legal : S -> event resp -> Prop) (upd : S -> event resp -> S)
    (m : prog resp A) s (Q : S -> A -> Prop) :
  (forall c r, P c = true -> upd s (Ev c r) = s) -> only P m -> (forall a, Q s a) -> wp legal upd m s Q.
Proof.
  intros Hupd Hm HQ. induction m as [a|c k IH]; [apply HQ|]. destruct Hm as [Hc Hk].
  intros r _. rewrite Hupd by done. apply IH, Hk.
Qed.

Lemma wp_only {S A} (legal : S -> event resp -> Prop) (upd : S -> event resp -> S)
    (m : prog resp A) s (Q : S -> A -> Prop) :
  (forall c s r, P c = true -> upd s (Ev c r) = s) -> only P m -> (forall a, Q s a) -> wp legal upd m s Q.
Proof. intros Hupd Hm HQ. by apply wp_neutral; [apply only_neutral|]. Qed.
End Only.

Lemma only_mono {call} {resp : call -> Type} {A} (P P' : call -> bool) (m : prog resp A) :
  (forall c, P c = true -> P' c = true) -> only P m -> only P' m.
Proof.
  intros HP. induction m as [a|c k IH]; [done|]. intros [Hc Hk]. split; [auto|]. intros r. apply IH, Hk.
Qed.

(** [only_run]: the calls of a program whose parts are unfolded or in the
    hint database [only]. *)
Create HintDb only.
Ltac only_step :=
  first
    [ apply only_ret
    | solve [auto with only nocore]
    | apply only_invoke; reflexivity
    | apply only_bind; [|intros ?]
    | apply only_fbind; [|intros ?]
    | match goal with |- only _ (match ?x with _ => _ end) => destruct x end
    | match goal with |- only _ (let '_ := ?x in _) => destruct x end
    | progress cbv zeta ].
Ltac only_run := repeat only_step.

(** ** What a program can return, whatever is answered *)

Fixpoint yields {call : Type} {resp : call -> Type} {A} (m : prog resp A) (Q : A -> Prop) : Prop :=
  match m with
  | Ret a => Q a
  | Call c k => forall r, yields (k r) Q
  end.

Section Yields.
Context {call : Type} {resp : call -> Type}.

Lemma yields_bind {A B} (m : prog resp A) (f : A -> prog resp B) Q :
  yields m (fun a => yields (f a) Q) -> yields (m ≫= f) Q.
Proof. induction m as [a|c k IH]; [done|]. intros H r. apply IH, H. Qed.

Lemma yields_fbind {A B R} (m : prog resp (flow A R)) (f : A -> prog resp (flow B R)) Q :
  yields m (fun x => match x with Next a => yields (f a) Q | Leave r => Q (Leave r) end) ->
  yields (fbind f m) Q.
Proof. intros H. apply yields_bind. induction m as [[a|r]|c k IH]; [done|done|]. intros r. apply IH, H. Qed.

Lemma yields_mono {A} (m : prog resp A) (Q R : A -> Prop) :
  (forall a, Q a -> R a) -> yields m Q -> yields m R.
Proof. intros HQ. induction m as [a|c k IH]; [apply HQ|]. intros H r. apply IH, H. Qed.

Lemma yields_any {A} (m : prog resp A) : yields m (fun _ => True).
Proof. by induction m. Qed.

(** A program that leaves the ghost state [s] alone, by what it returns. *)
Lemma wp_yields {S A} (P : call -> bool) (legal : S -> event resp -> Prop) (upd : S -> event resp -> S)
    (m : prog resp A) s (Q : S -> A -> Prop) :
  (forall c r, P c = true -> upd s (Ev c r) = s) -> only P m -> yields m (Q s) -> wp legal upd m s Q.
Proof.
  intros Hupd. induction m as [a|c k IH]; [done|]. intros [Hc Hk] Hy r _. rewrite Hupd by done. apply IH; auto.
Qed.
End Yields.

(** [yields_run]: goes through a program whose parts are unfolded or in the
    hint database [yields]. *)
Create HintDb yields.
Ltac yields_step :=
  first
    [ match goal with |- forall r : _ * _, _ => intros [? ?] end
    | match goal with |- forall r, yields _ _ => intros ? | |- forall r, _ -> yields _ _ => intros ?
                  | |- forall r r', _ -> yields _ _ => intros ? end
    | solve [eauto with yields nocore]
    | apply yields_fbind
    | apply yields_bind
    | progress cbn [yields invoke mret prog_ret leave next]
    | match goal with
      | |- yields (match ?x with _ => _ end) _ => destruct x
      | |- yields (let '_ := ?x in _) _ => destruct x
      end
    | progress cbv zeta ].
Ltac yields_run := repeat yields_step.
