(* ===== verification/SwitchCore.v ===== *)
(** * The FreeSWITCH core as seen from [src/switch_ivr_play_say.c]

    The core is not part of the repository: its functions are the calls of the
    signature [call], whose answers are chosen by the environment, and its
    constants and pure helper macros are the fields of the class [SwitchDefs].
    C strings are [string]s ([option string] where NULL is possible). *)

From Stdlib Require Import Ascii String.
From S2P Require Import Prelude Interaction.

#[global] Open Scope string_scope.
#[global] Open Scope Z_scope.

(** The values of [switch_status_t] the modelled code names. *)
Inductive switch_status_t :=
| SWITCH_STATUS_SUCCESS | SWITCH_STATUS_FALSE | SWITCH_STATUS_TIMEOUT
| SWITCH_STATUS_RESTART | SWITCH_STATUS_MEMERR | SWITCH_STATUS_GENERR
| SWITCH_STATUS_BREAK | SWITCH_STATUS_NOTFOUND | SWITCH_STATUS_TOO_SMALL
| SWITCH_STATUS_OTHER (n : Z).

#[export] Instance switch_status_eq : EqDecision switch_status_t.
Proof. solve_decision. Defined.

Notation SUCCESS := SWITCH_STATUS_SUCCESS.
Notation BREAK := SWITCH_STATUS_BREAK.

Definition is_success (s : switch_status_t) : bool := bool_decide (s = SUCCESS).

(** A value given to [switch_channel_set_variable(_printf "%d")]. *)
Inductive var_value := VString (s : string) | VInt (d : Z).
#[export] Instance var_value_eq : EqDecision var_value.
Proof. solve_decision. Defined.

(** How a function ends: it returns, it does what C leaves undefined (a
    division by zero, a read out of a buffer), or it is still looping. *)
Inductive result := Finished (s : switch_status_t) | Undefined | OutOfFuel.

(** ** Strings of the C library *)

Definition strlen (s : string) : Z := Z.of_nat (String.length s).

Lemma strlen_nonneg s : 0 <= strlen s.
Proof. unfold strlen. lia. Qed.

Lemma strlen_0 s : strlen s = 0 -> s = "".
Proof. unfold strlen. destruct s; simpl; [done|lia]. Qed.

Lemma strlen_app a b : strlen (a ++ b) = strlen a + strlen b.
Proof.
  unfold strlen. rewrite <- Nat2Z.inj_add. f_equal.
  induction a as [|c a IH]; simpl; [done|]. by rewrite IH.
Qed.

(** [strchr(s, c) != NULL] for a character [c] other than NUL, with the
    character before the match. *)
Fixpoint strchr_prev (prev : option ascii) (s : string) (c : ascii) : option (option ascii) :=
  match s with
  | EmptyString => None
  | String d s' => if decide (c = d) then Some prev else strchr_prev (Some d) s' c
  end.
Definition strchr (s : string) (c : ascii) : bool :=
  match strchr_prev None s c with Some _ => true | None => false end.

Definition tolower (c : ascii) : ascii :=
  let n := nat_of_ascii c in
  if decide (65 <= n <= 90)%nat then ascii_of_nat (n + 32) else c.
Fixpoint lowercase (s : string) : string :=
  match s with EmptyString => EmptyString | String c s' => String (tolower c) (lowercase s') end.

(** [!strcasecmp(a, b)] *)
Definition strcaseeq (a b : string) : bool := bool_decide (lowercase a = lowercase b).

(** [snprintf(buf + strlen(buf), size, "%s", t)] on the string held by [buf]:
    at most [size - 1] characters are appended. *)
Definition snprintf_append (buf : string) (size : Z) (t : string) : string :=
  buf ++ substring 0 (Z.to_nat (size - 1)) t.

(** [zstr(s)]: NULL or empty. *)
Definition zstr (s : option string) : bool :=
  match s with None | Some EmptyString => true | _ => false end.

(** [atoi] of the C library. *)
Fixpoint atoi_digits (acc : Z) (s : string) : Z :=
  match s with
  | EmptyString => acc
  | String c s' =>
      let n := Z.of_nat (nat_of_ascii c) in
      if decide (48 <= n <= 57) then atoi_digits (10 * acc + (n - 48)) s' else acc
  end.
Fixpoint atoi (s : string) : Z :=
  match s with
  | EmptyString => 0
  | String c s' =>
      let n := Z.of_nat (nat_of_ascii c) in
      if decide (n = 32 \/ 9 <= n <= 13) then atoi s'
      else if decide (c = "-"%char) then - atoi_digits 0 s'
      else if decide (c = "+"%char) then atoi_digits 0 s'
      else atoi_digits 0 s
  end.

(** [!strncasecmp(a, b, n)] *)
Definition strncaseeq (a b : string) (n : nat) : bool :=
  bool_decide (lowercase (substring 0 n a) = lowercase (substring 0 n b)).

(** [strstr(s, sub) != NULL] *)
Definition strstr (s sub : string) : bool :=
  match String.index 0 sub s with Some _ => true | None => false end.

(** [strchr(s, c)]: what is before the match, and what is after it. *)
Fixpoint split_at (c : ascii) (s : string) : option (string * string) :=
  match s with
  | EmptyString => None
  | String d s' =>
      if decide (c = d) then Some (EmptyString, s')
      else match split_at c s' with Some (a, b) => Some (String d a, b) | None => None end
  end.

(** [while] the first character is [c], skip it. *)
Fixpoint skip_char (c : ascii) (s : string) : string :=
  match s with
  | EmptyString => EmptyString
  | String d s' => if decide (d = c) then skip_char c s' else s
  end.

(** [switch_str_nil] *)
Definition str_nil (s : option string) : string := default "" s.

(** ** Constants and pure macros of the core *)
Class SwitchDefs := {
  SWITCH_READ_RESULT_VARIABLE : string;
  SWITCH_READ_TERMINATOR_USED_VARIABLE : string;
}.

(** ** The calls *)

Inductive call :=
| switch_channel_ready
| switch_channel_get_variable (name : string)
| switch_channel_set_variable (name : option string) (value : option string)
| switch_channel_pre_answer
| switch_ivr_play_file (file : option string) (buf : option string)
| switch_ivr_collect_digits_count (buf : string) (buflen maxdigits : Z)
    (terminators : option string) (first_timeout digit_timeout abs_timeout : Z)
| switch_regex_match (target expression : string)
| switch_separate_string (s : string) (delim : ascii) (arraylen : nat)
| switch_ivr_session_transfer (ext dialplan context : option string).

(** The answer of each call.  [switch_ivr_play_file] and
    [switch_ivr_collect_digits_count] also return the string the digit buffer
    holds afterwards, the latter with the terminator stored in [*terminator]. *)
Definition resp (c : call) : Type :=
  match c with
  | switch_channel_ready => bool
  | switch_channel_get_variable _ => option string
  | switch_channel_set_variable _ _ => unit
  | switch_channel_pre_answer => switch_status_t
  | switch_ivr_play_file _ _ => switch_status_t * string
  | switch_ivr_collect_digits_count _ _ _ _ _ _ _ =>
      switch_status_t * string * option ascii
  | switch_regex_match _ _ => switch_status_t
  | switch_separate_string _ _ _ => list string
  | switch_ivr_session_transfer _ _ _ => switch_status_t
  end%type.

Notation M A := (prog resp A).
Notation trace := (list (event resp)).
