(* ===== verification/Threads.v ===== *)
(** * Programs that run in several threads on a shared state

    A thread is a program of [Interaction.v]; a step executes the next call of
    one thread on the shared state, so that every access to a shared variable
    is a step of its own.  [safe] is a weakest precondition under interference
    (rely and guarantee); [pool_sound] composes it over all threads.  [play]
    executes a given schedule. *)

From stdpp Require Import relations.
From S2P Require Import Prelude Interaction.

Section Threads.
Context {call : Type} {resp : call -> Type} {S : Type}.

(** [act s c r s']: in [s] the call [c] can answer [r] and leave [s'].  A call
    that cannot answer in [s] blocks. *)
Context (act : S -> forall c, resp c -> S -> Prop).

Notation thread := (prog resp unit).
Notation pool := (S * list thread)%type.

Inductive pool_step : pool -> pool -> Prop :=
| pool_call s ts i c k r s' :
    ts !! i = Some (Call c k) -> act s c r s' -> pool_step (s, ts) (s', <[i := k r]> ts).

(** From [s], whatever steps of [R] the others make in between, every step of
    [m] is in [G], and [Q] holds of its result. *)
Fixpoint safe (R G : S -> S -> Prop) {A} (m : prog resp A) (s : S) (Q : S -> A -> Prop) : Prop :=
  forall s', R s s' ->
  match m with
  | Ret a => Q s' a
  | Call c k => forall r s'', act s' c r s'' -> G s' s'' /\ safe R G (k r) s'' Q
  end.

Section Rules.
Context (R G : S -> S -> Prop) `{!PreOrder R}.

Lemma safe_rely {A} (m : prog resp A) s s' Q : R s s' -> safe R G m s Q -> safe R G m s' Q.
Proof using Type*. intros Hs. destruct m; intros Hm s'' Hs'; apply Hm; by etrans. Qed.

Lemma safe_ret {A} (a : A) s (Q : S -> A -> Prop) : (forall s', R s s' -> Q s' a) -> safe R G (mret a) s Q.
Proof. intros HQ s' Hs. by apply HQ. Qed.

Lemma safe_call c s (Q : S -> resp c -> Prop) :
  (forall s' r s'', R s s' -> act s' c r s'' -> G s' s'' /\ forall s3, R s'' s3 -> Q s3 r) ->
  safe R G (invoke c) s Q.
Proof. intros HQ s' Hs r s'' Ha. destruct (HQ s' r s'' Hs Ha) as [Hg H2]. split; [done|]. intros s3 H3. by apply H2. Qed.

Lemma safe_mono {A} (m : prog resp A) s (P Q : S -> A -> Prop) :
  (forall s a, P s a -> Q s a) -> safe R G m s P -> safe R G m s Q.
Proof.
  intros HPQ. revert s. induction m as [a|c k IH]; intros s Hm s' Hs; cbn in Hm.
  - by apply HPQ, Hm.
  - intros r s'' Ha. destruct (Hm s' Hs r s'' Ha) as [Hg Hk]. split; [done|]. by apply IH.
Qed.

Lemma safe_bind {A B} (m : prog resp A) (f : A -> prog resp B) s Q :
  safe R G m s (fun s' a => safe R G (f a) s' Q) -> safe R G (m ≫= f) s Q.
Proof using Type*.
  revert s. induction m as [a|c k IH]; intros s Hm.
  - cbn. apply (safe_rely _ s s); [done|]. exact (Hm s (reflexivity s)).
  - intros s' Hs r s'' Ha. destruct (Hm s' Hs r s'' Ha) as [Hg Hk]. split; [done|]. by apply IH.
Qed.

Lemma safe_assoc {A B C} (m : prog resp A) (f : A -> prog resp B) (g : B -> prog resp C) s Q :
  safe R G ((m ≫= f) ≫= g) s Q -> safe R G (m ≫= fun a => f a ≫= g) s Q.
Proof.
  clear PreOrder0. revert s. induction m as [a|c k IH]; intros s Hm; [exact Hm|].
  intros s' Hs r s'' Ha. destruct (Hm s' Hs r s'' Ha) as [Hg Hk]. split; [done|]. by apply IH.
Qed.

(** A program all of whose steps keep an invariant that the others keep. *)
Lemma safe_inv {A} (I : S -> Prop) (m : prog resp A) s :
  (forall s s', I s -> R s s' -> I s') -> (forall s c r s', I s -> act s c r s' -> G s s' /\ I s') -> I s ->
  safe R G m s (fun s' _ => I s').
Proof.
  intros HR Ha. revert s. induction m as [a|c k IH]; intros s Hs s' Hr; [by eapply HR|].
  intros r s'' Hact. destruct (Ha s' c r s'' (HR _ _ Hs Hr) Hact) as [Hg Hi]. split; [done|]. by apply IH.
Qed.
End Rules.

(** Threads whose steps the others tolerate. *)
Section Pool.
Context (R G : nat -> S -> S -> Prop) (Q : nat -> S -> unit -> Prop).
Context (R_pre : forall i, PreOrder (R i)).
Hypothesis compatible : forall i j s s', i <> j -> G i s s' -> R j s s'.

Definition pool_safe (p : pool) : Prop := forall i m, p.2 !! i = Some m -> safe (R i) (G i) m p.1 (Q i).

Lemma pool_safe_step p p' : pool_safe p -> pool_step p p' -> pool_safe p'.
Proof using Type*.
  intros Hp Hstep. destruct Hstep as [s ts i c k r s' Hi Ha]. pose proof (Hp i _ Hi) as Hm. cbn in Hm.
  destruct (Hm s (reflexivity s) r s' Ha) as [Hg Hk]. intros j m Hj. cbn in *.
  destruct (decide (i = j)) as [<-|Hij].
  - rewrite list_lookup_insert_eq in Hj by (by eapply lookup_lt_Some). by injection Hj as <-.
  - rewrite list_lookup_insert_ne in Hj by done. apply (safe_rely _ _ _ s); [by apply (compatible i) | by apply Hp].
Qed.

Theorem pool_sound p p' : pool_safe p -> rtc pool_step p p' -> pool_safe p'.
Proof using Type*. intros Hp Hr. induction Hr; [done|]. by apply IHHr, (pool_safe_step x). Qed.

(** What every step keeps. *)
Lemma pool_keeps (I : S -> Prop) p p' :
  (forall i s s', I s -> G i s s' -> I s') -> pool_safe p -> I p.1 -> rtc pool_step p p' -> I p'.1.
Proof using Type*.
  intros HI Hp H0 Hr. induction Hr as [p|p1 p2 p3 Hs Hr IH]; [done|].
  apply IH; [by apply (pool_safe_step p1)|].
  destruct Hs as [s ts i c k r s' Hi Ha]. pose proof (Hp i _ Hi s (reflexivity s) r s' Ha) as [Hg _]. by apply (HI i s).
Qed.

(** A thread that ended. *)
Lemma pool_done p s ts i : pool_safe p -> rtc pool_step p (s, ts) -> ts !! i = Some (Ret tt) -> Q i s tt.
Proof using Type*. intros Hp Hr Hi. apply (pool_sound p (s, ts) Hp Hr i _ Hi). cbn. reflexivity. Qed.
End Pool.

(** ** Programs that only make some calls *)

Section Only.
Context (allowed : call -> bool).

Fixpoint only {A} (m : prog resp A) : Prop :=
  match m with
  | Ret _ => True
  | Call c k => allowed c = true /\ forall r, only (k r)
  end.

Lemma acts_bind {A B} (m : prog resp A) (f : A -> prog resp B) : only m -> (forall a, only (f a)) -> only (m ≫= f).
Proof. intros Hm Hf. induction m as [a|c k IH]; [apply Hf|]. destruct Hm as [Hc Hk]. split; [done|]. intros r. by apply IH. Qed.

Lemma safe_only (R G : S -> S -> Prop) (I : S -> Prop) {A} (m : prog resp A) s :
  (forall s s', I s -> R s s' -> I s') -> (forall s c r s', I s -> allowed c = true -> act s c r s' -> G s s' /\ I s') ->
  I s -> only m -> safe R G m s (fun s' _ => I s').
Proof.
  intros HR Ha. revert s. induction m as [a|c k IH]; intros s Hs Hm s' Hr; [by eapply HR|]. destruct Hm as [Hc Hk].
  intros r s'' Hact. destruct (Ha s' c r s'' (HR _ _ Hs Hr) Hc Hact) as [Hg Hi]. split; [done|]. by apply IH.
Qed.
End Only.

(** ** Schedules *)

(** Execution of one call; [None]: it blocks. *)
Context (exec1 : S -> forall c, option (resp c * S)).

(** [play sched p]: the threads of [sched] make one step each, in that order;
    [None] when one of them cannot. *)
Fixpoint play (sched : list nat) (p : pool) : option pool :=
  match sched with
  | [] => Some p
  | i :: sched' =>
      match p.2 !! i with
      | Some (Call c k) =>
          match exec1 p.1 c with
          | Some (r, s') => play sched' (s', <[i := k r]> p.2)
          | None => None
          end
      | _ => None
      end
  end.

Lemma play_reachable sched p p' :
  (forall s c r s', exec1 s c = Some (r, s') -> act s c r s') -> play sched p = Some p' -> rtc pool_step p p'.
Proof.
  intros Hx. revert p. induction sched as [|i sched IH]; intros [s ts]; cbn; [by intros [= <-]|].
  destruct (ts !! i) as [[a|c k]|] eqn:Hi; [done| |done].
  destruct (exec1 s c) as [[r s']|] eqn:Hc; [|done]. intros Hp.
  eapply rtc_l; [|by apply IH]. eapply pool_call; [done|by apply Hx].
Qed.

(** Where a schedule that can be executed leads. *)
Definition played (sched : list nat) (p : pool) : pool := default p (play sched p).
Definition playable (sched : list nat) (p : pool) : bool := match play sched p with Some _ => true | None => false end.

Lemma played_reachable sched p :
  (forall s c r s', exec1 s c = Some (r, s') -> act s c r s') -> playable sched p = true -> rtc pool_step p (played sched p).
Proof.
  unfold playable, played. intros Hx Hp. destruct (play sched p) as [p'|] eqn:E; [|done]. by apply (play_reachable sched).
Qed.
End Threads.

Arguments only {call resp} allowed {A} m.

Lemma neutral_only {call} {resp : call -> Type} {S A} (allowed : call -> bool) (upd : S -> event resp -> S) (m : prog resp A) :
  (forall s c r, allowed c = true -> upd s (Ev c r) = s) -> only allowed m -> neutral upd m.
Proof.
  intros Hu. unfold neutral. induction m as [a|c k IH]; intros Hm s; [done|]. destruct Hm as [Hc Hk].
  intros r _. rewrite Hu by done. by apply IH.
Qed.

Ltac only_tac := repeat first
  [ done
  | progress cbn [only invoke mret prog_ret]
  | apply acts_bind
  | match goal with
    | |- _ /\ _ => split
    | |- forall _, _ => intros
    | |- only _ (if ?b then _ else _) => destruct b
    | |- only _ (match ?b with _ => _ end) => destruct b
    end ].

(** ** Shared variables

    The state of a run is the list of all calls with their answers; a variable
    holds what was stored last.  [stores] and [loads] give the variable and the
    value of a store and of a load. *)
Section Log.
Context {call : Type} {resp : call -> Type} {var : Type} `{EqDecision var}.
Context (initially : var -> Z) (stores loads : event resp -> option (var * Z)).
Implicit Types tr : list (event resp).

Definition stored (f : var) (v : Z) (e : event resp) : Z :=
  match stores e with Some (g, w) => if decide (g = f) then w else v | None => v end.
Definition value (f : var) tr : Z := fold_left (stored f) tr (initially f).

(** A load answers the value; nothing is assumed of the other calls. *)
Definition logged tr (c : call) (r : resp c) tr' : Prop :=
  tr' = tr ++ [Ev c r] /\ match loads (Ev c r) with Some (f, v) => v = value f tr | None => True end.

Lemma value_snoc f tr e : value f (tr ++ [e]) = stored f (value f tr) e.
Proof. unfold value. by rewrite fold_left_app. Qed.
End Log.
