(* ===== verification/WebSocketChannel.v ===== *)
(** * Sending WebSocket messages: [http/wsdef.c], [http/wsdef.h] and
    [http/WebSocketChannel.cpp] of libhv

    The key of the handshake, the sizes and the frames of a message, and the
    channel whose [send] cuts long messages into fragments under a mutex.  A
    channel is shared by threads: its mutex, its buffer and the socket are calls
    on a shared state. *)

From Stdlib Require Import Ascii String.
From S2P Require Import Prelude Base64 BlockHash Sha1 Varint WebSocketParser WebSocketClient Interaction Threads.
Import WebSocket WebSocketClient.

#[local] Open Scope string_scope.
#[local] Open Scope list_scope.
#[local] Open Scope Z_scope.

(** ** The handshake *)

(** [ws_encode_key]: the 28 characters of [accept]; [ctx] is the uninitialised
    local variable. *)
Definition ws_magic : list Z := Sha1.ascii_bytes "258EAFA5-E914-47DA-95CA-C5AB0DC85B11".

Definition ws_encode_key (ctx : Sha1.HV_SHA1_CTX) (key : list Z) : option (list Z) :=
  let ctx := Sha1.HV_SHA1Init ctx in
  ctx ← Sha1.HV_SHA1Update ctx key (u32 (Z.of_nat (length key)));
  ctx ← Sha1.HV_SHA1Update ctx ws_magic (u32 (Z.of_nat (length ws_magic)));
  '(digest, _) ← Sha1.HV_SHA1Final ctx;
  Base64.hv_base64_encode digest 20.

(** ** Frames *)

Definition ws_calc_frame_size (data_len : Z) (has_mask : bool) : Z :=
  let size := i32 (data_len + 2) in
  let size := if decide (126 <= data_len) then
                if decide (0xFFFF < data_len) then i32 (size + 8) else i32 (size + 2)
              else size in
  if has_mask then i32 (size + 4) else size.

Definition ws_flags (opcode : Z) (fin has_mask : bool) : Z :=
  Z.lor (Z.lor opcode (if fin then WS_FIN else 0)) (if has_mask then WS_HAS_MASK else 0).

(** The bytes written to [out] and the size; [None] is a write after its end. *)
Definition ws_build_frame (out data mask : list Z) (has_mask : bool) (opcode : Z) (fin : bool) : option (list Z * Z) :=
  let frame := websocket_build_frame out (ws_flags opcode fin has_mask) (Some mask) data in
  out ← splice out 0 frame; Some (out, i32 (Z.of_nat (length frame))).

(** [imask] is what [rand()] gives. *)
Definition ws_client_build_frame (imask : Z) (out data : list Z) (opcode : Z) (fin : bool) : option (list Z * Z) :=
  ws_build_frame out data (word_bytes imask) true opcode fin.
Definition ws_server_build_frame (out data : list Z) (opcode : Z) (fin : bool) : option (list Z * Z) :=
  ws_build_frame out data [0; 0; 0; 0] false opcode fin.

(** ** The channel *)

Inductive ws_session_type := WS_CLIENT | WS_SERVER.
#[export] Instance ws_session_type_eq : EqDecision ws_session_type.
Proof. solve_decision. Defined.

Definition WS_OPCODE_CONTINUE : Z := 0x0.
Definition WS_OPCODE_PING : Z := 0x9.
Definition WS_OPCODE_PONG : Z := 0xA.

Definition WS_CLIENT_PING_FRAME : list Z := [137; 128; 87; 83; 87; 83].
Definition WS_CLIENT_PONG_FRAME : list Z := [138; 128; 87; 83; 87; 83].
Definition WS_SERVER_PING_FRAME : list Z := [137; 0].
Definition WS_SERVER_PONG_FRAME : list Z := [138; 0].

(** The mutex (a lock_guard of the thread [self]), [rand], [sendbuf_], and
    [write], which answers a negative number when it fails. *)
Inductive wcall :=
| c_lock (self : nat)
| c_unlock (self : nat)
| c_rand
| c_sendbuf
| c_set_sendbuf (buf : list Z)
| c_write (data : list Z).
Definition wresp (c : wcall) : Type :=
  match c with c_rand | c_write _ => Z | c_sendbuf => list Z | _ => unit end.
Notation WM A := (prog wresp A).

(** How an operation ends; [Overrun] is a write after the end of [sendbuf_]. *)
Inductive outcome := Returned (n : Z) | Overrun | NoFuel.

Section Channel.
Context (type : ws_session_type) (self : nat).

(** [HBuf::resize]: new memory is zeroed. *)
Definition resize (buf : list Z) (cap : Z) : list Z :=
  take (Z.to_nat cap) buf ++ replicate (Z.to_nat cap - length buf) 0.

Definition sendFrame (data : list Z) (opcode : Z) (fin : bool) : WM outcome :=
  '(mask, has_mask) ← (if decide (type = WS_CLIENT) then r ← invoke c_rand; mret (word_bytes r, true)
                       else mret ([0; 0; 0; 0], false));
  let frame_size := ws_calc_frame_size (Z.of_nat (length data)) has_mask in
  buf ← invoke c_sendbuf;
  (if decide (Z.of_nat (length buf) < u64 frame_size)
   then invoke (c_set_sendbuf (resize buf (default 0 (ceil2e (u64 frame_size))))) else mret tt) ;;
  buf ← invoke c_sendbuf;
  match ws_build_frame buf data mask has_mask opcode fin with
  | None => mret Overrun
  | Some (buf, _) =>
      invoke (c_set_sendbuf buf) ;;
      n ← invoke (c_write (take (Z.to_nat frame_size) buf)); mret (Returned n)
  end.

(** [std::lock_guard<std::mutex> locker(mutex_);] *)
Definition locked (m : WM outcome) : WM outcome := invoke (c_lock self) ;; x ← m; invoke (c_unlock self) ;; mret x.

(** Going on after a frame that was sent. *)
Definition sent (m : WM outcome) (k : WM outcome) : WM outcome :=
  x ← m; match x with Returned n => if decide (n < 0) then mret (Returned n) else k | _ => mret x end.

(** [while (remain > fragment)], and the last fragment. *)
Fixpoint send_rest (fuel : nat) (p : list Z) (fragment : Z) (len : Z) : WM outcome :=
  match fuel with
  | O => mret NoFuel
  | S fuel' =>
      if decide (fragment < Z.of_nat (length p)) then
        sent (sendFrame (take (Z.to_nat fragment) p) WS_OPCODE_CONTINUE false)
          (send_rest fuel' (drop (Z.to_nat fragment) p) fragment len)
      else sent (sendFrame p WS_OPCODE_CONTINUE true) (mret (Returned len))
  end.

(** [send(buf, len, fragment, opcode)]. *)
Definition send_fragments (fuel : nat) (data : list Z) (fragment opcode : Z) : WM outcome :=
  locked
    (if decide (Z.of_nat (length data) <= fragment) then sendFrame data opcode true
     else
       sent (sendFrame (take (Z.to_nat fragment) data) opcode false)
         (send_rest fuel (drop (Z.to_nat fragment) data) fragment (Z.of_nat (length data)))).

(** [send(buf, len, opcode, fin)]: long messages go out in fragments. *)
Definition send (fuel : nat) (data : list Z) (opcode : Z) (fin : bool) : WM outcome :=
  if decide (0xFFFF < Z.of_nat (length data)) then send_fragments fuel data 0xFFFF opcode
  else locked (sendFrame data opcode fin).

Definition sendPing : WM outcome :=
  locked (n ← invoke (c_write (if decide (type = WS_CLIENT) then WS_CLIENT_PING_FRAME else WS_SERVER_PING_FRAME));
          mret (Returned n)).
Definition sendPong : WM outcome :=
  locked (n ← invoke (c_write (if decide (type = WS_CLIENT) then WS_CLIENT_PONG_FRAME else WS_SERVER_PONG_FRAME));
          mret (Returned n)).
End Channel.

(** ** Frames and messages *)

Lemma ws_flags_bits opcode fin has_mask : 0 <= opcode < 16 ->
  let fl := ws_flags opcode fin has_mask in
  0 <= fl < 64 /\ Z.land fl WS_OP_MASK = opcode /\ (Z.land fl WS_FIN <> 0 <-> fin = true) /\
  (Z.land fl WS_HAS_MASK <> 0 <-> has_mask = true).
Proof.
  intros Ho fl. subst fl.
  assert (Forall (fun o => forall f m, 0 <= ws_flags o f m < 64 /\ Z.land (ws_flags o f m) WS_OP_MASK = o /\
    (Z.land (ws_flags o f m) WS_FIN <> 0 <-> f = true) /\ (Z.land (ws_flags o f m) WS_HAS_MASK <> 0 <-> m = true))
    (seqZ 0 16)) as H.
  { repeat (apply Forall_cons; split; [intros [] []; vm_compute; intuition discriminate|]). apply Forall_nil_2. }
  rewrite Forall_forall in H. apply H, elem_of_seqZ. lia.
Qed.

Lemma word_bytes_ok w : length (word_bytes w) = 4%nat /\ bytes_ok (word_bytes w).
Proof. split; [done|]. repeat (constructor; [apply land_byte|]). constructor. Qed.

Section Wire.
Context (type : ws_session_type).
Notation client := (bool_decide (type = WS_CLIENT)).

(** A frame of the channel, and the frames of a message. *)
Definition is_piece (opcode : Z) (fin : bool) (data : list Z) (f : frame) : Prop :=
  exists m, length m = 4%nat /\ bytes_ok m /\ f = mkFrame (ws_flags opcode fin client) (Some m) data.

Inductive continues : list Z -> list frame -> Prop :=
| continues_last data f : is_piece WS_OPCODE_CONTINUE true data f -> continues data [f]
| continues_more d1 d2 f fs : is_piece WS_OPCODE_CONTINUE false d1 f -> continues d2 fs -> continues (d1 ++ d2) (f :: fs).

Inductive carries (opcode : Z) : list Z -> list frame -> Prop :=
| carries_whole data f : is_piece opcode true data f -> carries opcode data [f]
| carries_cut d1 d2 f fs : is_piece opcode false d1 f -> continues d2 fs -> carries opcode (d1 ++ d2) (f :: fs).

Lemma recv_piece opcode fin data f wp : 0 <= opcode < 16 -> is_piece opcode fin data f ->
  let op := if decide (opcode = WS_OP_CONTINUE) then WebSocketClient.opcode wp else opcode in
  let msg := (if decide (wp_state wp = WS_FRAME_BEGIN \/ wp_state wp = WS_FRAME_FIN) then [] else message wp) ++ data in
  recv_frame wp f = if fin then mkWP WS_FRAME_FIN op msg (messages wp ++ [(op, msg)]) else mkWP WS_FRAME_END op msg (messages wp).
Proof using Type.
  intros Ho (m & _ & _ & ->). unfold recv_frame, recv. cbn [f_flags f_data].
  destruct (ws_flags_bits opcode fin client Ho) as (_ & -> & Hf & _). cbv zeta.
  assert (E : (if decide (opcode <> WS_OP_CONTINUE) then opcode else WebSocketClient.opcode wp)
            = if decide (opcode = WS_OP_CONTINUE) then WebSocketClient.opcode wp else opcode) by (repeat case_decide; done).
  rewrite E. destruct fin.
  - rewrite (decide_True (P := Z.land _ WS_FIN <> 0)) by by apply Hf. done.
  - rewrite (decide_False (P := Z.land _ WS_FIN <> 0)) by (intros Hx; by apply Hf in Hx). done.
Qed.

Lemma recv_continues data fs : continues data fs -> forall wp, wp_state wp = WS_FRAME_END ->
  fold_left recv_frame fs wp =
    mkWP WS_FRAME_FIN (opcode wp) (message wp ++ data) (messages wp ++ [(opcode wp, message wp ++ data)]).
Proof using Type.
  induction 1 as [data f Hf|d1 d2 f fs Hf _ IH]; intros wp Hwp; cbn [fold_left];
    rewrite (recv_piece WS_OPCODE_CONTINUE _ _ _ _ ltac:(unfold WS_OPCODE_CONTINUE; lia) Hf), Hwp; [done|].
  cbn. rewrite IH by done. cbn. by rewrite <- !app_assoc.
Qed.

(** The reader delivers the message once. *)
Lemma recv_carries op data fs wp : 0 < op < 16 -> carries op data fs ->
  wp_state wp = WS_FRAME_BEGIN \/ wp_state wp = WS_FRAME_FIN ->
  fold_left recv_frame fs wp = mkWP WS_FRAME_FIN op data (messages wp ++ [(op, data)]).
Proof using Type.
  intros Ho Hc Hwp. destruct Hc as [data f Hf|d1 d2 f fs Hf Hfs]; cbn [fold_left];
    rewrite (recv_piece op _ _ _ _ ltac:(lia) Hf), (decide_True (P := _ \/ _)) by done;
    rewrite decide_False by (unfold WS_OP_CONTINUE; lia); [done|].
  rewrite (recv_continues _ _ Hfs) by done. done.
Qed.

Lemma piece_ok op fin data f : 0 <= op < 16 -> bytes_ok data -> Z.of_nat (length data) < len_limit ->
  is_piece op fin data f -> frame_ok f.
Proof using Type.
  intros Ho Hd Hl (m & Hm & Hmb & ->). destruct (ws_flags_bits op fin client Ho) as (Hfl & _ & _ & Hmask).
  split; [exact Hfl|]. split; [exact Hd|]. split; [exact Hl|]. intros _. by exists m.
Qed.

Lemma continues_ok data fs : continues data fs -> bytes_ok data -> Z.of_nat (length data) < len_limit -> Forall frame_ok fs.
Proof using Type.
  induction 1 as [data f Hf|d1 d2 f fs Hf _ IH]; intros Hd Hl.
  - apply Forall_singleton. eapply piece_ok, Hf; (done || (unfold WS_OPCODE_CONTINUE; lia)).
  - apply Forall_app in Hd as [H1 H2]. rewrite length_app in Hl. apply Forall_cons. split; [|apply IH; (done || lia)].
    eapply piece_ok, Hf; (done || (unfold WS_OPCODE_CONTINUE; lia)).
Qed.

Lemma carries_ok op data fs : 0 < op < 16 -> carries op data fs -> bytes_ok data -> Z.of_nat (length data) < len_limit ->
  Forall frame_ok fs.
Proof using Type.
  intros Ho Hc Hd Hl. destruct Hc as [data f Hf|d1 d2 f fs Hf Hfs].
  - apply Forall_singleton. eapply piece_ok, Hf; (done || lia).
  - apply Forall_app in Hd as [H1 H2]. rewrite length_app in Hl. apply Forall_cons. split.
    + eapply piece_ok, Hf; (done || lia).
    + eapply continues_ok; [exact Hfs | done | lia].
Qed.

(** The size announced is that of the frame. *)
Lemma size_of_frame op fin data m : 0 <= op < 16 -> length m = 4%nat -> Z.of_nat (length data) < 2 ^ 31 - 14 ->
  ws_calc_frame_size (Z.of_nat (length data)) client = Z.of_nat (length (frame_bytes (mkFrame (ws_flags op fin client) (Some m) data))).
Proof using Type.
  intros Ho Hm Hl. unfold frame_bytes. cbn [f_flags f_mask f_data].
  destruct (ws_flags_bits op fin client Ho) as (_ & _ & _ & Hmask).
  rewrite websocket_frame_size; [|lia|intros _; by exists m].
  unfold ws_calc_frame_size, websocket_calc_frame_size. revert Hmask. generalize client. intros b Hmask.
  set (n := Z.of_nat (length data)) in *. assert (0 <= n) by lia.
  destruct b.
  - rewrite (decide_True (P := Z.land _ WS_HAS_MASK <> 0)) by by apply Hmask.
    repeat case_decide; unfold i32, u64; div_lia.
  - rewrite (decide_False (P := Z.land _ WS_HAS_MASK <> 0)) by (intros Hx; by apply Hmask in Hx).
    repeat case_decide; unfold i32, u64; div_lia.
Qed.
End Wire.

(** ** The channel in several threads *)

(** The owner of the mutex, [sendbuf_], and of the stream what was written by
    each holder of the mutex in turn and by the present one; whether a write has
    failed. *)
Record wstate := mkW {
  owner : option nat;
  sendbuf : list Z;
  groups : list (nat * list (list Z));
  cur : list (list Z);
  failed : bool;
}.

(** A lock waits for its turn; a write is complete, or it fails and leaves
    nothing behind. *)
Definition w_act (s : wstate) (c : wcall) : wresp c -> wstate -> Prop :=
  match c with
  | c_lock i => fun _ s' => owner s = None /\ s' = mkW (Some i) (sendbuf s) (groups s) [] (failed s)
  | c_unlock i => fun _ s' => s' = mkW None (sendbuf s) (groups s ++ [(i, cur s)]) [] (failed s)
  | c_rand => fun _ s' => s' = s
  | c_sendbuf => fun r s' => r = sendbuf s /\ s' = s
  | c_set_sendbuf b => fun _ s' => s' = mkW (owner s) b (groups s) (cur s) (failed s)
  | c_write d => fun r s' =>
      s' = if decide (r < 0) then mkW (owner s) (sendbuf s) (groups s) (cur s) true
           else mkW (owner s) (sendbuf s) (groups s) (cur s ++ [d]) (failed s)
  end.

(** What the socket got. *)
Definition wire (s : wstate) : list Z := concat (concat (snd <$> groups s)) ++ concat (cur s).

Definition mine (i : nat) (gs : list (nat * list (list Z))) : list (list (list Z)) := snd <$> filter (fun g => g.1 = i) gs.

Lemma mine_app i gs gs' : mine i (gs ++ gs') = mine i gs ++ mine i gs'.
Proof. unfold mine. by rewrite filter_app, fmap_app. Qed.

(** What the others do: nothing while [i] has the mutex, and never with the
    groups of [i]. *)
Definition others (i : nat) (s s' : wstate) : Prop :=
  (owner s = Some i -> s' = s) /\
  (owner s <> Some i -> owner s' <> Some i) /\
  mine i (groups s') = mine i (groups s) /\ (failed s = true -> failed s' = true).
(** The owners are among the [N] threads, and between two owners nothing is
    being written. *)
Definition well (N : nat) (s : wstate) : Prop :=
  Forall (fun g => g.1 < N)%nat (groups s) /\
  match owner s with Some i => (i < N)%nat | None => cur s = [] end.
Definition own (N i : nat) (s s' : wstate) : Prop := (forall j, i <> j -> others j s s') /\ (well N s -> well N s').

#[export] Instance others_pre i : PreOrder (others i).
Proof.
  split; [by intros s|]. intros s1 s2 s3 (A1 & A2 & A3 & A4) (B1 & B2 & B3 & B4). split_and!.
  - intros H. rewrite B1 by (by rewrite A1). by apply A1.
  - auto.
  - congruence.
  - auto.
Qed.

Section Thread.
Context (type : ws_session_type) (N i : nat).
Hypothesis Hi : (i < N)%nat.
Notation safe := (safe w_act (others i) (own N i)).
Notation client := (bool_decide (type = WS_CLIENT)).

Lemma own_held s s' : owner s = Some i -> owner s' = Some i -> groups s' = groups s ->
  (failed s = true -> failed s' = true) -> own N i s s'.
Proof using Hi.
  intros Ho Ho' Hg Hf. split.
  - intros j Hj. split_and!; [congruence | congruence | by rewrite Hg | done].
  - unfold well. rewrite Ho', Hg. by intros [].
Qed.

Lemma bind_safe {A B} (m : WM A) (f : A -> WM B) s Q :
  safe m s (fun s' a => safe (f a) s' Q) -> safe (m ≫= f) s Q.
Proof using Type. apply safe_bind. apply _. Qed.

(** With the mutex: a call is made in the state as it is. *)
Lemma safe_held c s (Q : wstate -> wresp c -> Prop) :
  owner s = Some i ->
  (forall r s', w_act s c r s' -> owner s' = Some i /\ groups s' = groups s /\ (failed s = true -> failed s' = true) /\ Q s' r) ->
  safe (invoke c) s Q.
Proof using Hi.
  intros Ho H. apply safe_call. intros s1 r s2 Hr Ha. assert (s1 = s) as -> by by apply Hr.
  destruct (H r s2 Ha) as (H1 & H2 & H3 & H4). split; [by apply own_held|]. intros s3 Hr3.
  assert (s3 = s2) as -> by by apply Hr3. done.
Qed.

Lemma safe_held_ret {A} (a : A) s (Q : wstate -> A -> Prop) : owner s = Some i -> Q s a -> safe (mret a) s Q.
Proof using Hi. intros Ho H. apply safe_ret. intros s' Hr. assert (s' = s) as -> by by apply Hr. done. Qed.

(** The frames of [P] were written, unless a write failed. *)
Definition wrote (P : list frame -> Prop) (s s' : wstate) (x : outcome) : Prop :=
  owner s' = Some i /\ groups s' = groups s /\ (failed s = true -> failed s' = true) /\
  exists n, x = Returned n /\ (n < 0 -> failed s' = true) /\
    (failed s' = false -> exists fs, P fs /\ cur s' = cur s ++ (frame_bytes <$> fs)).

Lemma write_wrote d f (P : list frame -> Prop) s : owner s = Some i -> d = frame_bytes f -> P [f] ->
  safe (n ← invoke (c_write d); mret (Returned n)) s (wrote P s).
Proof using Hi.
  intros Ho -> HP. apply bind_safe, safe_held; [done|]. intros n s' ->.
  assert (E : owner (if decide (n < 0) then mkW (owner s) (sendbuf s) (groups s) (cur s) true
      else mkW (owner s) (sendbuf s) (groups s) (cur s ++ [frame_bytes f]) (failed s)) = Some i) by (by case_decide).
  split; [exact E|]. split; [by case_decide|]. split; [by case_decide|].
  apply safe_held_ret; [exact E|]. split; [exact E|]. split; [by case_decide|]. split; [by case_decide|].
  exists n. split; [done|]. case_decide as Hn; cbn.
  - split; [done | by intros].
  - split; [lia|]. intros _. by exists [f].
Qed.

(** Resizing: [ceil2e] makes room for a frame. *)
Lemma resize_room buf size : 0 < size < 2 ^ 31 -> Z.of_nat (length buf) < size ->
  size <= Z.of_nat (length (resize buf (default 0 (ceil2e size)))).
Proof using Hi.
  intros Hs Hb. destruct (ceil2e_bounds size) as (n & -> & Hn); [lia|]. change (default 0 (Some n)) with n.
  unfold resize. rewrite length_app, length_take, length_replicate. lia.
Qed.

Lemma sendFrame_wrote data opcode fin s : owner s = Some i -> 0 <= opcode < 16 -> bytes_ok data ->
  Z.of_nat (length data) < 2 ^ 31 - 14 ->
  safe (sendFrame type data opcode fin) s (wrote (fun fs => exists f, fs = [f] /\ is_piece type opcode fin data f) s).
Proof using Hi.
  intros Ho Hop Hd Hl. unfold sendFrame. apply bind_safe.
  apply safe_mono with (P := fun s' (p : list Z * bool) => s' = s /\ length p.1 = 4%nat /\ bytes_ok p.1 /\ p.2 = client).
  2: { case_decide as Hc.
    - apply bind_safe, safe_held; [done|]. intros r s' ->. split_and!; try done. apply safe_held_ret; [done|].
      destruct (word_bytes_ok r). split_and!; [done..|]. by rewrite bool_decide_true.
    - apply safe_held_ret; [done|]. split_and!; [done | done | repeat (constructor; [by split|]); constructor|].
      by rewrite bool_decide_false. }
  intros s' [m has_mask] (-> & Hm & Hmb & Eh). cbn [fst snd] in *. subst has_mask. cbv zeta.
  rewrite (size_of_frame type opcode fin data m Hop Hm Hl).
  set (f := mkFrame (ws_flags opcode fin client) (Some m) data). set (size := Z.of_nat (length (frame_bytes f))).
  assert (Hsize : 0 < size < 2 ^ 31).
  { pose proof (size_of_frame type opcode fin data m Hop Hm Hl) as Es. fold f in Es. fold size in Es. rewrite <- Es.
    unfold ws_calc_frame_size. set (n := Z.of_nat (length data)) in *. assert (0 <= n) by lia.
    destruct client; repeat case_decide; unfold i32; div_lia. }
  rewrite u64_small by lia.
  apply bind_safe, safe_held; [done|]. intros buf s1 [-> ->]. split_and!; try done.
  apply bind_safe.
  apply safe_mono with (P := fun s' _ => owner s' = Some i /\ groups s' = groups s /\ cur s' = cur s /\ failed s' = failed s /\
    size <= Z.of_nat (length (sendbuf s'))).
  2: { case_decide as Hroom.
    - apply safe_held; [done|]. intros r s' ->. split_and!; try done. by apply resize_room.
    - apply safe_held_ret; [done|]. split_and!; (done || lia). }
  intros s1 _ (O1 & G1 & C1 & F1 & Hroom).
  apply bind_safe, safe_held; [done|]. intros buf s2 [-> ->]. split_and!; try done.
  unfold ws_build_frame.
  assert (Eb : websocket_build_frame (sendbuf s1) (ws_flags opcode fin client) (Some m) data = frame_bytes f) by done.
  rewrite Eb. destruct (splice_fits (sendbuf s1) (frame_bytes f) 0) as [buf E]; [lia|]. rewrite E. cbn [mbind option_bind].
  apply bind_safe, safe_held; [done|]. intros [] s2 ->. split_and!; try done.
  eapply safe_mono.
  2: { apply (write_wrote _ f (fun fs => exists f, fs = [f] /\ is_piece type opcode fin data f)); [done | |].
       - unfold splice in E. rewrite decide_True in E by lia. injection E as <-. cbn [take app].
         unfold size. by rewrite Nat2Z.id, take_app_length.
       - exists f. split; [done|]. by exists m. }
  intros s3 x (O3 & G3 & F3 & n & -> & Hn & Hfs). cbn in *. rewrite G1, C1, F1 in *.
  split; [done|]. split; [done|]. split; [done|]. exists n. done.
Qed.

Lemma sent_wrote m k s (P Q : list frame -> Prop) :
  safe m s (wrote P s) -> (forall s', owner s' = Some i -> safe k s' (wrote Q s')) ->
  safe (sent m k) s (wrote (fun fs => exists f1 f2, fs = f1 ++ f2 /\ P f1 /\ Q f2) s).
Proof using Hi.
  intros Hm Hk. unfold sent. apply bind_safe. eapply safe_mono, Hm.
  intros s1 x (O1 & G1 & F1 & n & -> & Hn & Hfs). case_decide as Hneg.
  - apply safe_held_ret; [done|]. split; [done|]. split; [done|]. split; [done|]. exists n. split; [done|].
    split; [done|]. intros Hf. rewrite Hn in Hf; done.
  - eapply safe_mono, (Hk s1 O1). intros s2 x (O2 & G2 & F2 & n2 & -> & Hn2 & Hfs2).
    split; [done|]. split; [congruence|]. split; [auto|]. exists n2. split; [done|]. split; [done|]. intros Hf.
    destruct (failed s1) eqn:Ef; [rewrite F2 in Hf; done|].
    destruct (Hfs eq_refl) as (f1 & H1 & E1). destruct (Hfs2 Hf) as (f2 & H2 & E2).
    exists (f1 ++ f2). split; [by exists f1, f2|]. by rewrite E2, E1, fmap_app, app_assoc.
Qed.

Lemma wrote_mono P Q s m : (forall fs, P fs -> Q fs) -> safe m s (wrote P s) -> safe m s (wrote Q s).
Proof using Hi.
  intros HPQ. apply safe_mono. intros s' x (H1 & H2 & H3 & n & -> & Hn & Hfs). split_and!; try done.
  exists n. split_and!; try done. intros Hf. destruct (Hfs Hf) as (fs & HP & E). exists fs. auto.
Qed.

Lemma send_rest_wrote fuel : forall p fragment len s, owner s = Some i -> 1 <= fragment -> 0 <= len ->
  bytes_ok p -> Z.of_nat (length p) < 2 ^ 31 - 14 -> (length p < fuel)%nat ->
  safe (send_rest type fuel p fragment len) s (wrote (continues type p) s).
Proof using Hi.
  induction fuel as [|fuel IH]; intros p fragment len s Ho Hf Hlen Hp Hl Hfuel; [lia|]. cbn [send_rest].
  case_decide as Hmore.
  - eapply wrote_mono; [|apply sent_wrote; [apply sendFrame_wrote; [done | unfold WS_OPCODE_CONTINUE; lia | by apply Forall_take | rewrite length_take; lia]|
      intros s' Ho'; apply IH; [done | done | done | by apply Forall_drop | rewrite length_drop; lia | rewrite length_drop; lia]]].
    intros fs (f1 & f2 & -> & (f & -> & Hpiece) & Hrest).
    rewrite <- (take_drop (Z.to_nat fragment) p). by apply (continues_more _ _ _ f).
  - eapply wrote_mono; [|apply sent_wrote; [apply sendFrame_wrote; [done | unfold WS_OPCODE_CONTINUE; lia | done..]|
      intros s' Ho'; apply safe_held_ret; [done|]; apply (conj Ho'); split; [done|]; split; [done|];
      exists len; split; [done|]; split; [lia|]; intros _; exists []; split; [exact (eq_refl (A := list frame) [])|]; by rewrite app_nil_r]].
    intros fs (f1 & f2 & -> & (f & -> & Hpiece) & <-). by apply continues_last.
Qed.

(** An operation that wrote frames of [P] in its own group. *)
Definition grouped (P : list frame -> Prop) (s s' : wstate) (x : outcome) : Prop :=
  owner s' <> Some i /\ (failed s = true -> failed s' = true) /\
  exists n ws, x = Returned n /\ mine i (groups s') = mine i (groups s) ++ [ws] /\
    (failed s' = false -> exists fs, P fs /\ ws = frame_bytes <$> fs).

Lemma locked_grouped m s (P : list frame -> Prop) : owner s <> Some i ->
  (forall s', owner s' = Some i -> cur s' = [] -> safe m s' (wrote P s')) ->
  safe (locked i m) s (grouped P s).
Proof using Hi.
  intros Ho Hm. unfold locked. apply bind_safe, safe_call. intros s1 [] s2 (_ & R2 & R3 & R4) [O1 ->].
  split.
  { split; [|by intros []]. intros j Hj. split_and!; [by rewrite O1 | cbn; congruence | done | done]. }
  intros s3 Hr. assert (s3 = mkW (Some i) (sendbuf s1) (groups s1) [] (failed s1)) as -> by by apply Hr. clear Hr.
  set (s3 := mkW _ _ _ _ _). apply bind_safe. eapply safe_mono; [|by apply Hm].
  intros s4 x (O4 & G4 & F4 & n & -> & Hn & Hfs). apply bind_safe, safe_call. intros s5 [] s6 Hr Hact.
  assert (s5 = s4) as -> by by apply Hr. cbn in Hact. subst s6. clear Hr. split.
  { split.
    - intros j Hj. split_and!; cbn [owner groups failed]; [congruence | done | | done].
      rewrite mine_app. unfold mine at 2. rewrite filter_cons_False by done. cbn. by rewrite app_nil_r.
    - intros [Hg _]. split; [|done]. apply Forall_app. by split; [|apply Forall_singleton]. }
  intros s7 (_ & A2 & A3 & A4). apply safe_ret. intros s8 (_ & B2 & B3 & B4). subst s3. cbn [owner groups cur failed app] in *.
  split; [by apply B2, A2|]. split; [auto|]. exists n, (cur s4). split; [done|]. split.
  - rewrite B3, A3, mine_app, G4, R3. f_equal. unfold mine. by rewrite filter_cons_True.
  - intros Hf. destruct (failed s4) eqn:E4; [rewrite B4 in Hf by auto; done|].
    destruct (Hfs eq_refl) as (fs & HP & E). exists fs. split; [done|]. by rewrite E.
Qed.
End Thread.

(** ** Operations *)

Inductive op :=
| Send (data : list Z) (opcode : Z)
| SendFragments (data : list Z) (fragment opcode : Z)
| Ping
| Pong.

Definition op_prog (type : ws_session_type) (self fuel : nat) (o : op) : WM outcome :=
  match o with
  | Send data opcode => send type self fuel data opcode true
  | SendFragments data fragment opcode => send_fragments type self fuel data fragment opcode
  | Ping => sendPing type self
  | Pong => sendPong type self
  end.

(** The message that the peer is meant to get. *)
Definition op_message (o : op) : Z * list Z :=
  match o with
  | Send data opcode | SendFragments data _ opcode => (opcode, data)
  | Ping => (WS_OPCODE_PING, [])
  | Pong => (WS_OPCODE_PONG, [])
  end.

Definition op_ok (fuel : nat) (o : op) : Prop :=
  match o with
  | Send data opcode => 0 < opcode < 16 /\ bytes_ok data /\ Z.of_nat (length data) < 2 ^ 31 - 14 /\ (length data < fuel)%nat
  | SendFragments data fragment opcode =>
      1 <= fragment /\ 0 < opcode < 16 /\ bytes_ok data /\ Z.of_nat (length data) < 2 ^ 31 - 14 /\ (length data < fuel)%nat
  | _ => True
  end.

(** A thread that does one operation after the other. *)
Fixpoint sender (type : ws_session_type) (self fuel : nat) (os : list op) : WM unit :=
  match os with
  | [] => mret tt
  | o :: os' =>
      x ← op_prog type self fuel o;
      match x with Returned _ => sender type self fuel os' | _ => mret tt end
  end.

(** What an operation put on the wire. *)
Definition sent_op (type : ws_session_type) (o : op) (ws : list (list Z)) : Prop :=
  exists fs, carries type (op_message o).1 (op_message o).2 fs /\ ws = frame_bytes <$> fs.

Section Operations.
Context (type : ws_session_type) (N i : nat) (fuel : nat).
Hypothesis Hi : (i < N)%nat.
Notation safe := (safe w_act (others i) (own N i)).

Lemma whole_frame op data s fin : owner s = Some i -> 0 < op < 16 -> bytes_ok data -> Z.of_nat (length data) < 2 ^ 31 - 14 ->
  fin = true -> safe (sendFrame type data op fin) s (wrote i (carries type op data) s).
Proof using Hi.
  intros Ho Hop Hd Hl ->. eapply (wrote_mono N i Hi), (sendFrame_wrote type N i Hi); [|done|lia|done..].
  intros fs (f & -> & Hf). by apply carries_whole.
Qed.

Lemma send_fragments_grouped data fragment op s : owner s <> Some i -> 1 <= fragment -> 0 < op < 16 -> bytes_ok data ->
  Z.of_nat (length data) < 2 ^ 31 - 14 -> (length data < fuel)%nat ->
  safe (send_fragments type i fuel data fragment op) s (grouped i (carries type op data) s).
Proof using Hi.
  intros Ho Hf Hop Hd Hl Hfuel. apply (locked_grouped N i Hi); [done|]. intros s' Ho' _. case_decide; [by apply whole_frame|].
  eapply (wrote_mono N i Hi), (sent_wrote N i Hi).
  2: { apply (sendFrame_wrote type N i Hi); [done | lia | by apply Forall_take | rewrite length_take; lia]. }
  2: { intros s2 Ho2. apply (send_rest_wrote type N i Hi);
         [done | done | lia | by apply Forall_drop | rewrite length_drop; lia | rewrite length_drop; lia]. }
  intros fs (f1 & f2 & -> & (f & -> & Hp) & Hrest). rewrite <- (take_drop (Z.to_nat fragment) data).
  by apply (carries_cut type op _ _ f).
Qed.

Lemma control_grouped d op s : owner s <> Some i -> 0 < op < 16 ->
  (exists f, d = frame_bytes f /\ is_piece type op true [] f) ->
  safe (locked i (n ← invoke (c_write d); mret (Returned n))) s (grouped i (carries type op []) s).
Proof using Hi.
  intros Ho Hop (f & -> & Hf). apply (locked_grouped N i Hi); [done|]. intros s' Ho' _.
  eapply (write_wrote N i Hi); [done..|]. by apply carries_whole.
Qed.

Lemma op_grouped o s : owner s <> Some i -> op_ok fuel o ->
  safe (op_prog type i fuel o) s (grouped i (carries type (op_message o).1 (op_message o).2) s).
Proof using Hi.
  intros Ho Hok. destruct o as [data op|data fragment op| |]; cbn [op_prog op_message fst snd].
  - destruct Hok as (Hop & Hd & Hl & Hfuel). unfold send. case_decide; [by apply send_fragments_grouped|].
    apply (locked_grouped N i Hi); [done|]. intros s' Ho' _. by apply whole_frame.
  - destruct Hok as (Hf & Hop & Hd & Hl & Hfuel). by apply send_fragments_grouped.
  - apply control_grouped; [done | by unfold WS_OPCODE_PING|]. destruct type;
      [exists (mkFrame (ws_flags 9 true true) (Some [87; 83; 87; 83]) [])|exists (mkFrame (ws_flags 9 true false) (Some [0; 0; 0; 0]) [])];
      (split; [by vm_compute|]; eexists; split; [|split; [|reflexivity]]; [done|]; repeat constructor; lia).
  - apply control_grouped; [done | by unfold WS_OPCODE_PONG|]. destruct type;
      [exists (mkFrame (ws_flags 10 true true) (Some [87; 83; 87; 83]) [])|exists (mkFrame (ws_flags 10 true false) (Some [0; 0; 0; 0]) [])];
      (split; [by vm_compute|]; eexists; split; [|split; [|reflexivity]]; [done|]; repeat constructor; lia).
Qed.

(** A thread puts its operations on the wire in its order. *)
Definition delivered (os : list op) (s s' : wstate) : Prop :=
  owner s' <> Some i /\ (failed s = true -> failed s' = true) /\
  (failed s' = false -> exists wss, mine i (groups s') = mine i (groups s) ++ wss /\ Forall2 (sent_op type) os wss).

Lemma sender_delivered os : forall s, owner s <> Some i -> Forall (op_ok fuel) os ->
  safe (sender type i fuel os) s (fun s' _ => delivered os s s').
Proof using Hi.
  induction os as [|o os IH]; intros s Ho Hos; cbn [sender].
  - apply safe_ret. intros s' (_ & R2 & R3 & R4). split; [auto|]. split; [auto|]. intros _. exists [].
    split; [by rewrite app_nil_r|constructor].
  - apply Forall_cons in Hos as [Hok Hos]. apply (bind_safe N i). eapply safe_mono, op_grouped; [|done..].
    intros s1 x (O1 & F1 & n & ws & -> & M1 & W1). eapply safe_mono, IH; [|done..].
    intros s2 _ (O2 & F2 & D2). split; [done|]. split; [auto|]. intros Hf.
    destruct (failed s1) eqn:E1; [rewrite F2 in Hf; done|].
    destruct (D2 Hf) as (wss & M2 & H2). exists (ws :: wss). split; [by rewrite M2, M1, <- app_assoc|].
    constructor; [|done]. by apply W1.
Qed.
End Operations.

(** ** All threads together *)

Definition w_init : wstate := mkW None [] [] [] false.
Definition senders (type : ws_session_type) (fuel : nat) (threads : list (list op)) : list (WM unit) :=
  imap (fun i os => sender type i fuel os) threads.

(** The operations of thread [i] in an order of operations of all threads. *)
Definition ops_of (i : nat) (order : list (nat * op)) : list op := snd <$> filter (fun p => p.1 = i) order.

(** The groups, once the operations of every thread are on the wire, are an
    order of them. *)
Lemma groups_order type gs : forall f : nat -> list op, (forall i, Forall2 (sent_op type) (f i) (mine i gs)) ->
  exists order, Forall2 (fun p g => p.1 = g.1 /\ sent_op type p.2 g.2) order gs /\ forall i, ops_of i order = f i.
Proof.
  induction gs as [|[i ws] gs IH]; intros f Hf.
  - exists []. split; [constructor|]. intros i. specialize (Hf i). by inversion Hf.
  - pose proof (Hf i) as Hi. unfold mine in Hi. rewrite filter_cons_True in Hi by done. cbn in Hi.
    apply Forall2_cons_inv_r in Hi as (o & os & Ho & Hos & Efi).
    destruct (IH (fun j => if decide (j = i) then os else f j)) as (order & H1 & H2).
    { intros j. case_decide as Hj; [by subst j|]. specialize (Hf j). unfold mine in Hf.
      by rewrite filter_cons_False in Hf by (cbn; congruence). }
    exists ((i, o) :: order). split; [by constructor|]. intros j. specialize (H2 j). unfold ops_of in *.
    destruct (decide (j = i)) as [->|Hj].
    + rewrite filter_cons_True by done. cbn. by rewrite H2, Efi.
    + by rewrite filter_cons_False by (cbn; congruence).
Qed.

(** An order of operations is read as their messages. *)
Lemma order_read type fuel (order : list (nat * op)) (gs : list (nat * list (list Z))) wp :
  Forall2 (fun p g => p.1 = g.1 /\ sent_op type p.2 g.2) order gs -> Forall (fun p => op_ok fuel p.2) order ->
  wp_state wp = WS_FRAME_BEGIN \/ wp_state wp = WS_FRAME_FIN ->
  exists fs, concat (snd <$> gs) = frame_bytes <$> fs /\ Forall frame_ok fs /\
    messages (fold_left recv_frame fs wp) = messages wp ++ ((fun p => op_message p.2) <$> order).
Proof.
  intros H. revert wp. induction H as [|[i o] [j ws] order gs [_ (fs & Hc & Ew)] _ IH]; intros wp Hok Hwp.
  - exists []. split; [done|]. split; [constructor|]. by rewrite app_nil_r.
  - apply Forall_cons in Hok as [Ho Hok]. cbn [fst snd] in *. subst ws.
    assert (Hm : 0 < (op_message o).1 < 16 /\ bytes_ok (op_message o).2 /\ Z.of_nat (length (op_message o).2) < len_limit).
    { unfold len_limit. destruct o; cbn in *; (split_and!; try (unfold WS_OPCODE_PING, WS_OPCODE_PONG; tauto || lia || by constructor)). }
    destruct Hm as (Hop & Hb & Hl). pose proof (recv_carries type _ _ _ wp Hop Hc Hwp) as E.
    destruct (IH (fold_left recv_frame fs wp)) as (fs2 & E2 & Hfs2 & M2); [done | rewrite E; by right |].
    exists (fs ++ fs2). split; [cbn; by rewrite E2, fmap_app|]. split.
    + apply Forall_app. split; [by eapply carries_ok|done].
    + rewrite fold_left_app, M2, E. cbn. rewrite <- app_assoc. by destruct (op_message o).
Qed.

Lemma senders_end type fuel threads s' ts' :
  Forall (Forall (op_ok fuel)) threads ->
  rtc (pool_step w_act) (w_init, senders type fuel threads) (s', ts') -> Forall (fun m => m = Ret tt) ts' ->
  well (length threads) s' /\ forall i os, threads !! i = Some os -> delivered type i os w_init s'.
Proof.
  intros Hok Hr Hend. set (N := length threads).
  set (Q := fun i s' (_ : unit) => forall os, threads !! i = Some os -> delivered type i os w_init s').
  assert (Hsafe : pool_safe w_act others (own N) Q (w_init, senders type fuel threads)).
  { intros i m Hm. cbn in Hm. unfold senders in Hm. rewrite list_lookup_imap in Hm.
    destruct (threads !! i) as [os|] eqn:Hi; [|done]. cbn in Hm. injection Hm as <-.
    eapply safe_mono, (sender_delivered type N i fuel); [|by eapply lookup_lt_Some|done|by eapply Forall_lookup_1].
    intros s u H os' Hos'. cbn in H. assert (os' = os) as -> by congruence. exact H. }
  assert (Hcomp : forall i j s s', i <> j -> own N i s s' -> others j s s') by (intros i j s s2 Hij [H _]; by apply H).
  split.
  - apply (pool_keeps w_act others (own N) Q _ Hcomp (well N) _ (s', ts')
      (fun i s s2 Hw H => proj2 H Hw) Hsafe); [by split; [constructor|] | exact Hr].
  - intros i os Hi. assert (Hlen : length ts' = N).
    { clear -Hr. remember (w_init, senders type fuel threads) as p. remember (s', ts') as p'.
      assert (length p'.2 = length p.2) as E.
      { clear Heqp Heqp'. induction Hr as [|p1 p2 p3 Hs _ IH]; [done|]. rewrite IH. destruct Hs. cbn. by rewrite length_insert. }
      subst p p'. cbn in E. unfold senders in E. by rewrite length_imap in E. }
    destruct (lookup_lt_is_Some_2 ts' i) as [m Hm]; [rewrite Hlen; by eapply lookup_lt_Some|].
    pose proof (Forall_lookup_1 _ _ _ _ Hend Hm) as ->.
    by apply (pool_done w_act others (own N) Q _ Hcomp _ s' ts' i Hsafe Hr Hm).
Qed.

(** The stream, once all threads are done: the frames of an order of their messages. *)
Lemma wire_frames type fuel (threads : list (list op)) s' ts' :
  Forall (Forall (op_ok fuel)) threads ->
  rtc (pool_step w_act) (w_init, senders type fuel threads) (s', ts') -> Forall (fun m => m = Ret tt) ts' -> failed s' = false ->
  exists (order : list (nat * op)) fs, (forall i, ops_of i order = default [] (threads !! i)) /\
    wire s' = concat (map frame_bytes fs) /\ Forall frame_ok fs /\
    messages (fold_left recv_frame fs WebSocketParser_init) = (fun p => op_message p.2) <$> order.
Proof.
  intros Hok Hr Hend Hf. destruct (senders_end _ _ _ _ _ Hok Hr Hend) as [[Hg Hown] Hdel].
  assert (Ecur : cur s' = []).
  { destruct (owner s') as [j|] eqn:Ho; [|done]. destruct (lookup_lt_is_Some_2 _ _ Hown) as [os Hj].
    destruct (Hdel j os Hj) as [Hn _]. congruence. }
  destruct (groups_order type (groups s') (fun i => default [] (threads !! i))) as (order & H1 & H2).
  { intros i. destruct (threads !! i) as [os|] eqn:Hi; cbn.
    - destruct (Hdel i os Hi) as (_ & _ & D). destruct (D Hf) as (wss & E & H). cbn in E. by rewrite E.
    - unfold mine. replace (filter _ (groups s')) with (@nil (nat * list (list Z))); [constructor|].
      symmetry. clear -Hg Hi. induction Hg as [|g gs Hlt _ IH]; [done|]. rewrite filter_cons_False; [done|].
      intros E. rewrite E in Hlt. apply lookup_ge_None in Hi. lia. }
  exists order.
  destruct (order_read type fuel order (groups s') WebSocketParser_init H1) as (fs & Ewire & Hfs & Hm); [|by left|].
  { apply Forall_forall. intros [i o] Hin. cbn.
    assert (o ∈ default [] (threads !! i)) as Ho.
    { rewrite <- H2. unfold ops_of. apply list_elem_of_fmap. exists (i, o). split; [done|]. by apply list_elem_of_filter. }
    destruct (threads !! i) as [os|] eqn:Hi; [|by apply elem_of_nil in Ho].
    eapply Forall_lookup_1 in Hok; [|exact Hi]. rewrite Forall_forall in Hok. by apply Hok. }
  exists fs. split; [done|]. split; [|by split]. unfold wire. by rewrite Ecur, app_nil_r, Ewire.
Qed.

(** [C3] Messages of several threads on one WebSocket: whatever the
    interleaving of the threads' accesses to the mutex, to [sendbuf_] and to
    the socket, when all threads are done and no write failed, every message
    sent by [send] (in fragments or whole), and every ping and pong, reaches the
    message reader of the other side exactly once and uncut, the messages of
    each thread in its order, in whatever chunks the bytes arrive. *)
Theorem channel_delivers type fuel (threads : list (list op)) s' ts' (chunks : list (Z * list Z)) :
  Forall (Forall (op_ok fuel)) threads ->
  rtc (pool_step w_act) (w_init, senders type fuel threads) (s', ts') -> Forall (fun m => m = Ret tt) ts' -> failed s' = false ->
  Forall chunk_ok chunks -> concat (map snd chunks) = wire s' ->
  exists order : list (nat * op),
    (forall i, ops_of i order = default [] (threads !! i)) /\
    exists wp p', execute_chunks cbs chunks (WebSocketParser_init, websocket_parser_init) = Some (wp, p') /\
      messages wp = (fun p => op_message p.2) <$> order.
Proof.
  intros Hok Hr Hend Hf Hc Hbytes. destruct (wire_frames _ _ _ _ _ Hok Hr Hend Hf) as (order & fs & H1 & E & Hfs & Hm).
  exists order. split; [done|]. destruct (frames_read fs chunks Hfs Hc) as [p' Hx]; [by rewrite Hbytes|].
  eexists _, p'. by split.
Qed.

(** Execution: the mutex waits, [rand] gives one number, every write is complete. *)
Definition w_step (s : wstate) (c : wcall) : option (wresp c * wstate) :=
  match c return option (wresp c * wstate) with
  | c_lock i => match owner s with None => Some (tt, mkW (Some i) (sendbuf s) (groups s) [] (failed s)) | Some _ => None end
  | c_unlock i => Some (tt, mkW None (sendbuf s) (groups s ++ [(i, cur s)]) [] (failed s))
  | c_rand => Some (0x12345678, s)
  | c_sendbuf => Some (sendbuf s, s)
  | c_set_sendbuf b => Some (tt, mkW (owner s) b (groups s) (cur s) (failed s))
  | c_write d => Some (Z.of_nat (length d), mkW (owner s) (sendbuf s) (groups s) (cur s ++ [d]) (failed s))
  end.

Lemma w_step_act s c r s' : w_step s c = Some (r, s') -> w_act s c r s'.
Proof.
  destruct c; cbn; try (by intros [= <- <-]).
  - destruct (owner s) eqn:Ho; [done|]. by intros [= <-].
  - intros [= <- <-]. rewrite decide_False by lia. done.
Qed.

(** A message in two fragments and a ping, from two threads. *)
Definition two_threads : list (list op) :=
  [[SendFragments [72; 101; 108; 108; 111] 3 WS_OP_TEXT; Send [33] WS_OP_TEXT]; [Ping; Pong]].
Definition two_sched : list nat := (replicate 13 0 ++ replicate 3 1 ++ replicate 7 0 ++ replicate 3 1)%nat.
Definition two_end := played w_step two_sched (w_init, senders WS_CLIENT 10 two_threads).

Lemma channel_delivers_witness :
  wire two_end.1 <> [] /\
  exists order : list (nat * op),
    (forall i, ops_of i order = default [] (two_threads !! i)) /\
    exists wp p', execute_chunks cbs [(0, wire two_end.1)] (WebSocketParser_init, websocket_parser_init) = Some (wp, p') /\
      messages wp = (fun p => op_message p.2) <$> order.
Proof.
  split; [by vm_compute|].
  apply (channel_delivers WS_CLIENT 10 two_threads two_end.1 two_end.2 [(0, wire two_end.1)]).
  - repeat constructor; lia.
  - replace (two_end.1, two_end.2) with two_end by by destruct two_end.
    apply (played_reachable w_act w_step); [apply w_step_act | by vm_compute].
  - vm_compute. repeat constructor.
  - by vm_compute.
  - apply Forall_singleton. vm_compute. split; [discriminate | reflexivity].
  - cbn [map concat snd]. by rewrite app_nil_r.
Defined.

(** What the other side is given. *)
Example two_threads_read :
  match execute_chunks cbs [(0, wire two_end.1)] (WebSocketParser_init, websocket_parser_init) with
  | Some (wp, _) => messages wp = [(WS_OP_TEXT, [72; 101; 108; 108; 111]); (WS_OPCODE_PING, []); (WS_OP_TEXT, [33]); (WS_OPCODE_PONG, [])]
  | None => False
  end.
Proof. vm_compute. reflexivity. Qed.

(** ** What the channel is not *)

(** A channel alone. *)
Definition alone (m : WM outcome) : option wstate :=
  (fix go n (s : wstate) (m : WM outcome) {struct n} :=
    match n, m with
    | _, Ret _ => Some s
    | O, _ => None
    | S n', Call c k => match w_step s c with Some (r, s') => go n' s' (k r) | None => None end
    end) 1000%nat w_init m.

(** The flags of the frames that were written. *)
Definition first_bytes (s : wstate) : list Z := (fun d => default 0 (d !! 0%nat)) <$> concat (snd <$> groups s).

(** [send] of a part of a message, [fin] false: a short part is a text frame
    without FIN, a part above 65535 bytes is a whole message, with FIN. *)
Example fin_is_dropped :
  first_bytes <$> alone (send WS_SERVER 0 10 (replicate 10 0) WS_OP_TEXT false) = Some [0x01] /\
  first_bytes <$> alone (send WS_SERVER 0 10 (replicate (Z.to_nat 65536) 0) WS_OP_TEXT false) = Some [0x01; 0x80].
Proof. split; vm_compute; reflexivity. Qed.

(** With a fragment size of 0 the loop of [send] sends empty fragments until a
    write fails. *)
Definition writes (_ : unit) (e : event wresp) : Prop :=
  match e with Ev (c_write _) r => 0 <= r | _ => True end.
Notation always_wp := (wp writes (fun u _ => u)).

Lemma sendFrame_writes type data opcode fin :
  always_wp (sendFrame type data opcode fin) tt (fun _ x => forall n, x = Returned n -> 0 <= n).
Proof.
  unfold sendFrame. wp_run; first [by intros k ? | intros w Hw k [= <-]; exact Hw].
Qed.

Lemma fragment_never_ends type fuel p len : p <> [] -> forall tr n,
  exec (send_rest type fuel p 0 len) tr (Returned n) -> legal_trace writes (fun u _ => u) tt tr -> False.
Proof.
  intros Hp tr n Hx Hl.
  assert (H : always_wp (send_rest type fuel p 0 len) tt (fun _ x => forall n, x <> Returned n)).
  { clear -Hp. induction fuel as [|fuel IH]; [done|]. cbn [send_rest]. rewrite decide_True by (destruct p; cbn; [done | lia]).
    unfold sent. apply wp_bind. eapply wp_mono, sendFrame_writes. intros [] [n| |] Hn; [|done..].
    rewrite decide_False by (specialize (Hn n eq_refl); lia). change (Z.to_nat 0) with 0%nat. by rewrite drop_0. }
  by apply (wp_sound _ _ _ _ _ _ _ H Hx Hl n).
Qed.

(** ** The handshake *)

(** The key of a handshake. *)
Lemma encode_key_rfc ctx key : length (Sha1.buffer ctx) = 64%nat -> bytes_ok key ->
  Z.of_nat (length key) + 63 < 2 ^ 32 ->
  ws_encode_key ctx key = Some (Base64.rfc_encode (Sha1.fips_sha1 (key ++ ws_magic))).
Proof.
  intros Hb Hk Hl. unfold ws_encode_key.
  destruct (Sha1.update_contains _ [] key (Z.of_nat (length key)) (Sha1.init_contains ctx Hb)) as (c1 & E1 & H1); [lia | done|].
  rewrite (u32_small (Z.of_nat (length key))) by lia. rewrite E1. cbn [mbind option_bind]. rewrite Nat2Z.id, firstn_all in H1. cbn [app] in H1.
  destruct (Sha1.update_contains _ _ ws_magic 36 H1) as (c2 & E2 & H2); [by vm_compute | done|].
  change (u32 (Z.of_nat (length ws_magic))) with 36. rewrite E2. cbn [mbind option_bind].
  change (take (Z.to_nat 36) ws_magic) with ws_magic in H2.
  assert (Hm : bytes_ok (key ++ ws_magic)).
  { apply Forall_app. split; [done|]. vm_compute. repeat constructor; discriminate. }
  destruct (Sha1.final_fips c2 _ H2 Hm) as (c3 & ->). cbn [mbind option_bind].
  destruct (Sha1.fips_sha1_bytes _ Hm) as [L20 B20].
  pose proof (Base64.encode_whole (Sha1.fips_sha1 (key ++ ws_magic)) []) as E.
  rewrite L20, app_nil_r in E. apply E; [by intros E0; rewrite E0 in L20 | done | by vm_compute].
Qed.

(** [C23] The answer to the key of a WebSocket handshake is that of RFC 6455,
    4.2.2: base64 (RFC 4648) of the SHA-1 (FIPS 180-4) of the key and the fixed
    identifier, whatever the uninitialised context held. *)
Theorem ws_encode_key_accept ctx key : length (Sha1.buffer ctx) = 64%nat -> bytes_ok key ->
  Z.of_nat (length key) + 63 < 2 ^ 32 ->
  ws_encode_key ctx key = Some (Base64.rfc_encode (Sha1.fips_sha1 (key ++ ws_magic))).
Proof. apply encode_key_rfc. Qed.

(** The example of the RFC. *)
Definition rfc_key : list Z := Sha1.ascii_bytes "dGhlIHNhbXBsZSBub25jZQ==".
Lemma ws_encode_key_accept_witness :
  ws_encode_key Sha1.junk rfc_key = Some (Base64.rfc_encode (Sha1.fips_sha1 (rfc_key ++ ws_magic))) /\
  ws_encode_key Sha1.junk rfc_key = Some (Sha1.ascii_bytes "s3pPLMBiTxaQ9kYGzzhZRbK+xOo=").
Proof.
  split; [|by vm_compute].
  apply (ws_encode_key_accept Sha1.junk rfc_key); [done | vm_compute; repeat constructor; discriminate | by vm_compute].
Defined.
