(* ===== verification/WebSocketSession.v ===== *)
(** * The WebSocket client: [http/client/WebSocketClient.cpp], with the reconnecting
    client of [evpp/TcpClient.h] and the channel of [evpp/Channel.h]

    The client is one object, used in the thread of its event loop: a handler
    takes it and gives it back.  The socket, the message channel and the
    callbacks of the user are calls; the HTTP messages (a parser, the printing of
    the request and of its URL) are an interface. *)

From Stdlib Require Import Ascii String.
From S2P Require Import Prelude Base64 BlockHash Sha1 WebSocketParser WebSocketClient Interaction Threads WebSocketChannel.

#[local] Open Scope string_scope.
#[local] Open Scope list_scope.
#[local] Open Scope Z_scope.

Notation chars := Sha1.ascii_bytes.

(** ** Reconnecting: [reconn_setting_t] of [event/hloop.h] *)

Definition INFINITE : Z := 2 ^ 32 - 1.

Record reconn_setting_t := mkReconn {
  min_delay : Z;
  max_delay : Z;
  cur_delay : Z;
  delay_policy : Z;
  max_retry_cnt : Z;
  cur_retry_cnt : Z;
}.

Definition reconn_setting_init : reconn_setting_t := mkReconn 1000 60000 0 2 INFINITE 0.
Definition reconn_setting_reset (r : reconn_setting_t) : reconn_setting_t :=
  mkReconn (min_delay r) (max_delay r) 0 (delay_policy r) (max_retry_cnt r) 0.

Definition reconn_setting_can_retry (r : reconn_setting_t) : bool * reconn_setting_t :=
  let cnt := u32 (cur_retry_cnt r + 1) in
  (bool_decide (max_retry_cnt r = INFINITE) || bool_decide (cnt < max_retry_cnt r),
   mkReconn (min_delay r) (max_delay r) (cur_delay r) (delay_policy r) (max_retry_cnt r) cnt).

Definition reconn_setting_calc_delay (r : reconn_setting_t) : Z * reconn_setting_t :=
  let cur :=
    if decide (delay_policy r = 0) then min_delay r
    else if decide (delay_policy r = 1) then u32 (cur_delay r + min_delay r)
    else u32 (cur_delay r * delay_policy r) in
  let cur := Z.max cur (min_delay r) in
  let cur := Z.min cur (max_delay r) in
  (cur, mkReconn (min_delay r) (max_delay r) cur (delay_policy r) (max_retry_cnt r) (cur_retry_cnt r)).

(** ** The HTTP messages *)

(** The names of headers are compared without case: a name stands here in lower case. *)
Record HttpRequest := mkReq {
  rq_url : list Z;
  headers : gmap string (list Z);
  redirect : bool;
}.

(** [HttpParser] with its [HttpResponse]. *)
Class HttpParser (P : Type) := {
  InitResponse : P;
  FeedHttp : P -> list Z -> P * Z;
  GetError : P -> bool;
  IsComplete : P -> bool;
  status_code : P -> Z;
  res_header : P -> string -> list Z;
}.

Definition HTTP_STATUS_SWITCHING_PROTOCOLS : Z := 101.
Definition HTTP_STATUS_IS_REDIRECT (status : Z) : bool :=
  bool_decide (status ∈ [301; 302; 303; 307; 308]).

Definition SEC_WEBSOCKET_KEY : string := "sec-websocket-key".
Definition SEC_WEBSOCKET_VERSION : string := "sec-websocket-version".
Definition SEC_WEBSOCKET_ACCEPT : string := "sec-websocket-accept".

(** [GetHeader] with its default, the empty string. *)
Definition GetHeader (req : HttpRequest) (name : string) : list Z := default [] (headers req !! name).
Definition set_header (name : string) (v : list Z) (req : HttpRequest) : HttpRequest :=
  mkReq (rq_url req) (<[name := v]> (headers req)) (redirect req).

(** The characters of a C string, up to its NUL. *)
Fixpoint c_str (s : list Z) : list Z :=
  match s with
  | [] => []
  | c :: s' => if decide (c = 0) then [] else c :: c_str s'
  end.

Definition startswith (s start : list Z) : bool := bool_decide (take (length start) s = start).

(** [hv::replace]: the first occurrence. *)
Fixpoint replace (s find rep : list Z) : list Z :=
  if startswith s find then rep ++ drop (length find) s
  else match s with [] => [] | c :: s' => c :: replace s' find rep end.

(** ** The state *)

Inductive Status := OPENED | CH_CONNECTING | CH_CONNECTED | DISCONNECTED | CLOSED.
Inductive State := CONNECTING | CONNECTED | WS_UPGRADING | WS_OPENED | WS_CLOSED.
#[export] Instance Status_eq : EqDecision Status.
Proof. solve_decision. Defined.
#[export] Instance State_eq : EqDecision State.
Proof. solve_decision. Defined.

(** A channel: whether its [onclose] is set, and its heartbeat. *)
Record chan := mkChan { status : Status; ch_opcode : Z; ch_onclose : bool; ch_heartbeat : bool }.

(** The io of a channel is open until the channel is closed. *)
Definition isOpened (ch : chan) : bool := match status ch with DISCONNECTED | CLOSED => false | _ => true end.
Definition isClosed (ch : chan) : bool := negb (isOpened ch).
Definition isConnected (ch : chan) : bool := bool_decide (status ch = CH_CONNECTED) && isOpened ch.

Definition WS_OPCODE_TEXT : Z := 0x1.
Definition WS_OPCODE_BINARY : Z := 0x2.
Definition WS_OPCODE_CLOSE : Z := 0x8.

Record client {P : Type} := mkClient {
  state : State;
  url : list Z;
  http_req : option HttpRequest;
  http_parser : P;
  ws_parser : option (WebSocketClient.WebSocketParser * WebSocket.websocket_parser);
  ping_interval : Z;
  ping_cnt : Z;
  channel : option chan;
  remote_host : list Z;
  remote_port : Z;
  connect_timeout : Z;
  tls : bool;
  tls_setting : bool;
  reconn_setting : option reconn_setting_t;
  unpack_setting : bool;
  handlers : bool;
}.
Arguments client P : clear implicits.

(** Assignments to the members. *)
Section Members.
Context {P : Type}.
Implicit Types c : client P.

Definition to_state v (c : client P) : client P :=
  mkClient P v (url c) (http_req c) (http_parser c) (ws_parser c) (ping_interval c) (ping_cnt c) (channel c) (remote_host c) (remote_port c) (connect_timeout c) (tls c) (tls_setting c) (reconn_setting c) (unpack_setting c) (handlers c).
Definition set_url v (c : client P) : client P :=
  mkClient P (state c) v (http_req c) (http_parser c) (ws_parser c) (ping_interval c) (ping_cnt c) (channel c) (remote_host c) (remote_port c) (connect_timeout c) (tls c) (tls_setting c) (reconn_setting c) (unpack_setting c) (handlers c).
Definition set_req v (c : client P) : client P :=
  mkClient P (state c) (url c) v (http_parser c) (ws_parser c) (ping_interval c) (ping_cnt c) (channel c) (remote_host c) (remote_port c) (connect_timeout c) (tls c) (tls_setting c) (reconn_setting c) (unpack_setting c) (handlers c).
Definition set_parser v (c : client P) : client P :=
  mkClient P (state c) (url c) (http_req c) v (ws_parser c) (ping_interval c) (ping_cnt c) (channel c) (remote_host c) (remote_port c) (connect_timeout c) (tls c) (tls_setting c) (reconn_setting c) (unpack_setting c) (handlers c).
Definition set_ws v (c : client P) : client P :=
  mkClient P (state c) (url c) (http_req c) (http_parser c) v (ping_interval c) (ping_cnt c) (channel c) (remote_host c) (remote_port c) (connect_timeout c) (tls c) (tls_setting c) (reconn_setting c) (unpack_setting c) (handlers c).
Definition set_ping_cnt v (c : client P) : client P :=
  mkClient P (state c) (url c) (http_req c) (http_parser c) (ws_parser c) (ping_interval c) v (channel c) (remote_host c) (remote_port c) (connect_timeout c) (tls c) (tls_setting c) (reconn_setting c) (unpack_setting c) (handlers c).
Definition set_channel v (c : client P) : client P :=
  mkClient P (state c) (url c) (http_req c) (http_parser c) (ws_parser c) (ping_interval c) (ping_cnt c) v (remote_host c) (remote_port c) (connect_timeout c) (tls c) (tls_setting c) (reconn_setting c) (unpack_setting c) (handlers c).
Definition set_remote host port (c : client P) : client P :=
  mkClient P (state c) (url c) (http_req c) (http_parser c) (ws_parser c) (ping_interval c) (ping_cnt c) (channel c) host port (connect_timeout c) (tls c) (tls_setting c) (reconn_setting c) (unpack_setting c) (handlers c).
Definition set_tls v (c : client P) : client P :=
  mkClient P (state c) (url c) (http_req c) (http_parser c) (ws_parser c) (ping_interval c) (ping_cnt c) (channel c) (remote_host c) (remote_port c) (connect_timeout c) v (tls_setting c) (reconn_setting c) (unpack_setting c) (handlers c).
Definition set_reconn v (c : client P) : client P :=
  mkClient P (state c) (url c) (http_req c) (http_parser c) (ws_parser c) (ping_interval c) (ping_cnt c) (channel c) (remote_host c) (remote_port c) (connect_timeout c) (tls c) (tls_setting c) v (unpack_setting c) (handlers c).
Definition set_handlers v (c : client P) : client P :=
  mkClient P (state c) (url c) (http_req c) (http_parser c) (ws_parser c) (ping_interval c) (ping_cnt c) (channel c) (remote_host c) (remote_port c) (connect_timeout c) (tls c) (tls_setting c) (reconn_setting c) (unpack_setting c) v.

Definition to_status (st : Status) (c : client P) : client P :=
  set_channel (ch ← channel c; Some (mkChan st (ch_opcode ch) (ch_onclose ch) (ch_heartbeat ch))) c.
Definition set_opcode (op : Z) (c : client P) : client P :=
  set_channel (ch ← channel c; Some (mkChan (status ch) op (ch_onclose ch) (ch_heartbeat ch))) c.
Definition set_onclose (b : bool) (c : client P) : client P :=
  set_channel (ch ← channel c; Some (mkChan (status ch) (ch_opcode ch) b (ch_heartbeat ch))) c.
Definition set_heartbeat (c : client P) : client P :=
  set_channel (ch ← channel c; Some (mkChan (status ch) (ch_opcode ch) (ch_onclose ch) true)) c.
End Members.

(** ** The calls *)

(** [hio_close] answers whether the close callback ran during the call, a
    callback of the user whether it closed the client. *)
Inductive scall :=
| sockaddr_set_ipport (host : list Z) (port : Z)
| socket
| set_connect_timeout (ms : Z)
| enableSSL
| newSslCtx
| setHostname (host : list Z)
| hio_connect
| setUnpack
| startRead
| hio_close
| rand
| hio_write (data : list Z)
| channel_send (msg : list Z) (opcode : Z)
| channel_sendPing
| setHeartbeat (ms : Z)
| setTimeout (ms : Z)
| onopen
| onmessage (opcode : Z) (msg : list Z)
| onclose.
Definition sresp (c : scall) : Type :=
  match c with
  | sockaddr_set_ipport _ _ | socket | newSslCtx | hio_connect | rand | hio_write _ | channel_send _ _ | channel_sendPing => Z
  | hio_close | onopen | onmessage _ _ | onclose => bool
  | _ => unit
  end.
Notation SM A := (prog sresp A).

(** How a handler ends; an exception, or an access out of bounds, is [Threw]. *)
Inductive ended (P : Type) := Done (c : client P) | Threw.
Arguments Done {P} c.
Arguments Threw {P}.

Section Client.
Context {P : Type} `{HttpParser P}.
(** [HttpRequest::ParseUrl] (the host and the port), [HttpRequest::Dump],
    [is_ipaddr]; and the uninitialised memory of [ws_encode_key]. *)
Context (ParseUrl : list Z -> list Z * Z) (Dump : HttpRequest -> list Z) (is_ipaddr : list Z -> bool).
Context (junk : Sha1.HV_SHA1_CTX).
Implicit Types c : client P.

(** *** [TcpClientEventLoopTmpl] *)

Definition NABS (n : Z) : Z := if decide (n < 0) then n else - n.

(** [createsocket] of an address: a new channel. *)
Definition createsocket_addr c : SM (Z * client P) :=
  connfd ← invoke socket;
  if decide (connfd < 0) then mret (-2, c)
  else mret (connfd, set_channel (Some (mkChan OPENED WS_OPCODE_CLOSE false false)) c).

Definition createsocket (port : Z) (host : list Z) c : SM (Z * client P) :=
  ret ← invoke (sockaddr_set_ipport host port);
  if decide (ret <> 0) then mret (NABS ret, c) else createsocket_addr (set_remote host port c).

(** The delay before [startConnect], if there is to be another attempt. *)
Definition startReconnect c : SM (Z * client P) :=
  match reconn_setting c with
  | None => mret (-1, c)
  | Some r =>
      let '(can, r) := reconn_setting_can_retry r in
      let c := set_reconn (Some r) c in
      if negb can then mret (-2, c)
      else
        let '(delay, r) := reconn_setting_calc_delay r in
        invoke (setTimeout delay) ;; mret (0, set_reconn (Some r) c)
  end.

(** *** [onConnection] of [WebSocketClient::open] *)

(** The four random numbers of a key. *)
Definition rand_key : SM (list Z) :=
  a ← invoke rand; b ← invoke rand; c ← invoke rand; d ← invoke rand;
  mret (concat (word_bytes <$> [a; b; c; d])).

Definition upgrade_request (req : HttpRequest) : SM (option HttpRequest) :=
  let req := set_header "upgrade" (chars "websocket") (set_header "connection" (chars "Upgrade") req) in
  req ← (if decide (GetHeader req SEC_WEBSOCKET_KEY = []) then
           key ← rand_key;
           mret (k ← Base64.hv_base64_encode key 16; Some (set_header SEC_WEBSOCKET_KEY k req))
         else mret (Some req));
  mret (req ← req;
        Some (if decide (GetHeader req SEC_WEBSOCKET_VERSION = []) then set_header SEC_WEBSOCKET_VERSION (chars "13") req else req)).

Definition websocket_handshake c : SM (ended P) :=
  let c := to_state CONNECTED c in
  match http_req c with
  | None => mret Threw
  | Some req =>
      req ← upgrade_request req;
      match req with
      | None => mret Threw
      | Some req =>
          invoke (hio_write (Dump req)) ;;
          mret (Done (set_parser InitResponse (to_state WS_UPGRADING (set_req (Some req) c))))
      end
  end.

(** The user can close the client in [onclose]; the channel is closed already. *)
Definition disconnected c : SM (client P) :=
  let c := to_state WS_CLOSED c in
  closed ← invoke onclose;
  mret (if closed : bool then to_state WS_CLOSED c else c).

Definition onConnection c : SM (ended P) :=
  match channel c with
  | Some ch => if isConnected ch then websocket_handshake c else c ← disconnected c; mret (Done c)
  | None => mret Threw
  end.

(** *** The callbacks of the channel *)

(** [Channel::on_connect] and the lambda of [startConnect]. *)
Definition on_connect c : SM (ended P) :=
  let c := to_status CH_CONNECTED c in
  (if unpack_setting c then invoke setUnpack else mret tt) ;;
  invoke startRead ;;
  r ← (if handlers c then onConnection c else mret (Done c));
  match r with
  | Threw => mret Threw
  | Done c => mret (Done (set_reconn (reconn_setting_reset <$> reconn_setting c) c))
  end.

(** [Channel::on_close] and the lambda of [startConnect]: a closed channel is not
    connected. *)
Definition on_close c : SM (client P) :=
  let c := to_status CLOSED c in
  match channel c with
  | Some ch =>
      if ch_onclose ch then
        let reconnect := bool_decide (reconn_setting c <> None) in
        c ← (if handlers c then disconnected c else mret c);
        if reconnect then r ← startReconnect c; mret r.2 else mret c
      else mret c
  | None => mret c
  end.

(** [Channel::close]. *)
Definition channel_close c : SM (client P) :=
  match channel c with
  | Some ch =>
      if isClosed ch then mret c
      else
        let c := to_status CLOSED c in
        ran ← invoke hio_close;
        if ran : bool then on_close c else mret c
  | None => mret c
  end.

(** [closesocket], in the thread of the loop. *)
Definition closesocket c : SM (client P) :=
  match channel c with
  | Some ch => if decide (status ch <> CLOSED) then channel_close (set_reconn None c) else mret c
  | None => mret c
  end.

(** [WebSocketClient::close]. *)
Definition close c : SM (client P) := c ← closesocket c; mret (to_state WS_CLOSED c).
(** *** [TcpClientEventLoopTmpl::startConnect] *)

Definition start_tls c : SM (Z * client P) :=
  if tls c then
    invoke enableSSL ;;
    '(ret, c) ← (if tls_setting c then
                   ret ← invoke newSslCtx;
                   if decide (ret <> 0) then c ← closesocket c; mret (ret, c) else mret (0, c)
                 else mret (0, c));
    if decide (ret <> 0) then mret (ret, c)
    else (if is_ipaddr (remote_host c) then mret tt else invoke (setHostname (remote_host c))) ;; mret (0, c)
  else mret (0, c).

Definition startConnect c : SM (Z * client P) :=
  '(connfd, c) ← (match channel c with
                  | Some ch => if isClosed ch then createsocket_addr c else mret (0, c)
                  | None => createsocket_addr c
                  end);
  if decide (connfd < 0) then mret (connfd, c)
  else
    match channel c with
    | Some (mkChan OPENED _ _ _) =>
        (if decide (connect_timeout c <> 0) then invoke (set_connect_timeout (connect_timeout c)) else mret tt) ;;
        '(ret, c) ← start_tls c;
        if decide (ret <> 0) then mret (ret, c)
        else
          ret ← invoke hio_connect;
          mret (ret, to_status CH_CONNECTING (set_onclose true c))
    | _ => mret (-1, c)
    end.

(** *** [WebSocketClient::open] *)

Definition strncmp_is (s start : list Z) : bool := bool_decide (take (length start) (c_str s) = start).

Definition open_url c (_url : option (list Z)) : list Z :=
  match _url with
  | Some u => if strncmp_is u (chars "ws") then c_str u else chars "ws://" ++ c_str u
  | None => url c
  end.

(** [url.substr(2, -1)] throws when the URL is shorter; [start] runs [startConnect]
    in the thread of the loop. *)
Definition open c (_url : option (list Z)) (hdrs : list (string * list Z)) : SM (option Z * client P) :=
  c ← close c;
  let c := set_url (open_url c _url) c in
  let req := default (mkReq [] ∅ true) (http_req c) in
  if decide (length (url c) < 2)%nat then mret (None, set_req (Some req) c)
  else
    let u := chars "http" ++ drop 2 (url c) in
    let req := mkReq u (headers req) (redirect req) in
    let c := set_req (Some req) c in
    let '(host, port) := ParseUrl u in
    '(connfd, c) ← createsocket port host c;
    if decide (connfd < 0) then mret (Some connfd, c)
    else
      let c := if strncmp_is (url c) (chars "wss") then set_tls true c else c in
      let c := set_req (Some (foldl (fun r h => set_header h.1 h.2 r) req hdrs)) c in
      let c := to_state CONNECTING (set_handlers true c) in
      r ← startConnect c; mret (Some 0, r.2).

(** *** [onMessage] of [WebSocketClient::open] *)

(** [ws_parser_->onMessage]. *)
Definition ws_onMessage c (m : Z * list Z) : SM (client P) :=
  let '(op, msg) := m in
  let c := set_opcode op c in
  if decide (op = WS_OPCODE_CLOSE) then invoke (channel_send msg WS_OPCODE_CLOSE) ;; channel_close c
  else if decide (op = WS_OPCODE_PING) then invoke (channel_send msg WS_OPCODE_PONG) ;; mret c
  else if decide (op = WS_OPCODE_PONG) then mret (set_ping_cnt 0 c)
  else if decide (op = WS_OPCODE_TEXT \/ op = WS_OPCODE_BINARY) then
    closed ← invoke (onmessage op msg); if closed : bool then close c else mret c
  else mret c.

Fixpoint ws_messages c (ms : list (Z * list Z)) : SM (client P) :=
  match ms with
  | [] => mret c
  | m :: ms' => c ← ws_onMessage c m; ws_messages c ms'
  end.

(** [ws_parser_->FeedRecvData] of a chunk at an address.  The only callback that
    stops the parser does so by an exception. *)
Definition feed_ws c (addr : Z) (data : list Z) : SM (ended P) :=
  match ws_parser c with
  | None => mret Threw
  | Some (wp, p) =>
      match WebSocketClient.FeedRecvData addr data wp p with
      | None => mret Threw
      | Some (wp', p', n) =>
          c ← ws_messages (set_ws (Some (wp', p')) c) (drop (length (WebSocketClient.messages wp)) (WebSocketClient.messages wp'));
          if decide (n <> length data) then mret Threw else mret (Done c)
      end
  end.

(** The answer of the server to the key. *)
Definition accepts c (hp : P) : option bool :=
  let key := default [] (req ← http_req c; Some (GetHeader req SEC_WEBSOCKET_KEY)) in
  ws_accept ← ws_encode_key junk (c_str key);
  Some (bool_decide (ws_accept = c_str (res_header hp SEC_WEBSOCKET_ACCEPT))).

Definition redirected c (hp : P) : bool :=
  match http_req c with
  | Some req => redirect req && HTTP_STATUS_IS_REDIRECT (status_code hp) && bool_decide (res_header hp "location" <> [])
  | None => false
  end.

Definition redirect_url (location : list Z) : list Z :=
  if startswith location (chars "http") then replace location (chars "http") (chars "ws") else location.

(** The connection is a WebSocket: heartbeat and [onopen]. *)
Definition ws_opened c : SM (client P) :=
  let c := to_state WS_OPENED (set_ws (Some (WebSocketClient.WebSocketParser_init, WebSocket.websocket_parser_init)) c) in
  c ← (if decide (0 < ping_interval c) then
         invoke (setHeartbeat (ping_interval c)) ;; mret (set_heartbeat (set_ping_cnt 0 c))
       else mret c);
  closed ← invoke onopen;
  if closed : bool then close c else mret c.

(** The complete response: what is left to do with the chunk. *)
Definition upgraded c (hp : P) : SM (flow (client P) (ended P)) :=
  if decide (status_code hp <> HTTP_STATUS_SWITCHING_PROTOCOLS) then
    if redirected c hp then
      r ← open (set_onclose false c) (Some (redirect_url (res_header hp "location"))) [];
      leave (match r.1 with Some _ => Done r.2 | None => Threw end)
    else c ← channel_close c; leave (Done c)
  else
    match accepts c hp with
    | None => leave Threw
    | Some false => c ← channel_close c; leave (Done c)
    | Some true => c ← ws_opened c; next c
    end.

Definition upgrading c (data : list Z) : SM (flow (client P * list Z) (ended P)) :=
  let '(hp, nparse) := FeedHttp (http_parser c) data in
  let c := set_parser hp c in
  if bool_decide (nparse <> Z.of_nat (length data)) && GetError hp then c ← channel_close c; leave (Done c)
  else
    let data := drop (Z.to_nat nparse) data in
    if IsComplete hp then c ⟵ upgraded c hp; next (c, data)
    else next (c, data).

Definition onMessage c (addr : Z) (data : list Z) : SM (ended P) :=
  r ← (if decide (state c = WS_UPGRADING) then upgrading c data else next (c, data));
  match r with
  | Leave r => mret r
  | Next (c, rest) =>
      if decide (state c = WS_OPENED /\ rest <> [])
      then feed_ws c (addr + Z.of_nat (length data - length rest)) rest else mret (Done c)
  end.

(** [Channel::on_read]. *)
Definition on_read c (addr : Z) (data : list Z) : SM (ended P) :=
  if handlers c then onMessage c addr data else mret (Done c).

(** The heartbeat: a ping, or the end when three were not answered. *)
Definition send_heartbeat c : SM (client P) :=
  match channel c with
  | None => mret c
  | Some ch =>
      if ch_heartbeat ch then
        let cnt := ping_cnt c in
        let c := set_ping_cnt (i32 (cnt + 1)) c in
        if decide (cnt = 3) then channel_close c
        else invoke channel_sendPing ;; mret c
      else mret c
  end.

(** [WebSocketClient::send]. *)
Definition client_send c (buf : list Z) (opcode : Z) : SM Z :=
  match channel c with None => mret (-1) | Some _ => invoke (channel_send buf opcode) end.
End Client.

(** ** The calls of a run *)

(** The user does not close the client in [onopen] and [onmessage]. *)
Definition stays (c : scall) : sresp c -> Prop :=
  match c with onopen | onmessage _ _ => fun closed => closed = false | _ => fun _ => True end.
Definition polite (tr : list (event sresp)) : Prop := Forall (fun e => stays (ev_call e) (ev_resp e)) tr.

(** [m] makes the calls [cs] and returns a [Q]. *)
Definition does {A} (m : SM A) (cs : list scall) (Q : A -> Prop) : Prop :=
  forall tr a, exec m tr a -> polite tr -> ev_call <$> tr = cs /\ Q a.

Lemma does_ret {A} (a : A) (Q : A -> Prop) : Q a -> does (mret a) [] Q.
Proof. by intros HQ tr b [-> ->] _. Qed.

Lemma does_bind {A B} (m : SM A) (f : A -> SM B) c1 c2 (P : A -> Prop) (Q : B -> Prop) :
  does m c1 P -> (forall a, P a -> does (f a) c2 Q) -> does (m ≫= f) (c1 ++ c2) Q.
Proof.
  intros Hm Hf tr b Hx Ht. apply exec_bind in Hx as (t1 & t2 & a & -> & H1 & H2). apply Forall_app in Ht as [Ht1 Ht2].
  destruct (Hm _ _ H1 Ht1) as [E1 HP]. destruct (Hf a HP _ _ H2 Ht2) as [E2 HQ]. by rewrite fmap_app, E1, E2.
Qed.

Lemma does_call {A} c (f : sresp c -> SM A) cs (Q : A -> Prop) :
  (forall r, stays c r -> does (f r) cs Q) -> does (invoke c ≫= f) (c :: cs) Q.
Proof.
  intros Hf tr a Hx Ht. apply exec_bind in Hx as (t1 & t2 & r & -> & (r' & t & -> & [-> ->]) & H2).
  apply Forall_cons in Ht as [Hr Ht].
  destruct (Hf r' Hr _ _ H2 Ht) as [E HQ]. cbn. by rewrite E.
Qed.

(** What the client does with a message. *)
Definition react (m : Z * list Z) : list scall :=
  if decide (m.1 = WS_OPCODE_PING) then [channel_send m.2 WS_OPCODE_PONG]
  else if decide (m.1 = WS_OPCODE_TEXT \/ m.1 = WS_OPCODE_BINARY) then [onmessage m.1 m.2] else [].

Definition no_close (m : Z * list Z) : Prop := m.1 <> WS_OPCODE_CLOSE.

Section Session.
Context {P : Type} `{HttpParser P}.
Context (ParseUrl : list Z -> list Z * Z) (Dump : HttpRequest -> list Z) (is_ipaddr : list Z -> bool).
Context (junk : Sha1.HV_SHA1_CTX).
Implicit Types c : client P.

Notation read := (on_read ParseUrl is_ipaddr junk).

(** An open WebSocket with its parsers. *)
Definition ready wp p c : Prop := state c = WS_OPENED /\ handlers c = true /\ ws_parser c = Some (wp, p).

Lemma ws_messages_do ms wp p : Forall no_close ms -> forall c, ready wp p c ->
  does (ws_messages c ms) (concat (react <$> ms)) (ready wp p).
Proof using Type.
  induction 1 as [|[op msg] ms Hm _ IH]; intros c Hc; cbn [ws_messages fmap list_fmap concat]; [by apply does_ret|].
  apply does_bind with (P := ready wp p); [|exact IH]. unfold no_close, ws_onMessage, react in *. cbn [fst snd] in *.
  rewrite decide_False by done. repeat case_decide; try (unfold WS_OPCODE_PING, WS_OPCODE_PONG, WS_OPCODE_TEXT, WS_OPCODE_BINARY in *; lia).
  - apply does_call. intros r _. by apply does_ret.
  - by apply does_ret.
  - apply does_call. intros r Hr. cbn in Hr. subst r. by apply does_ret.
  - by apply does_ret.
Qed.

(** The messages that [wp'] has and [wp] has not. *)
Definition delivered_since (wp wp' : WebSocketClient.WebSocketParser) : list (Z * list Z) :=
  drop (length (WebSocketClient.messages wp)) (WebSocketClient.messages wp').

Lemma feed_ws_do c addr d wp p wp' p' : ready wp p c ->
  WebSocketClient.FeedRecvData addr d wp p = Some (wp', p', length d) -> Forall no_close (delivered_since wp wp') ->
  does (feed_ws c addr d) (concat (react <$> delivered_since wp wp')) (fun r => exists c', r = Done c' /\ ready wp' p' c').
Proof using Type.
  intros (Hs & Hh & Hw) E Hm. unfold feed_ws. rewrite Hw, E. rewrite <- (app_nil_r (concat _)).
  eapply does_bind; [by apply (ws_messages_do _ wp' p')|]. intros c' Hc'. rewrite decide_False by (intros Hn; by apply Hn).
  apply does_ret. by exists c'.
Qed.

(** All chunks of a stream. *)
Fixpoint receive c (chunks : list (Z * list Z)) : SM (ended P) :=
  match chunks with
  | [] => mret (Done c)
  | (addr, d) :: chunks' =>
      r ← read c addr d;
      match r with Done c => receive c chunks' | Threw => mret Threw end
  end.

Lemma receive_opened chunks : forall wp p wp' p' c, ready wp p c ->
  WebSocket.execute_chunks WebSocketClient.cbs chunks (wp, p) = Some (wp', p') ->
  Forall (fun k => k.2 <> []) chunks -> Forall no_close (delivered_since wp wp') ->
  does (receive c chunks) (concat (react <$> delivered_since wp wp')) (fun r => exists c', r = Done c' /\ ready wp' p' c').
Proof using Type.
  induction chunks as [|[addr d] chunks IH]; intros wp p wp' p' c Hc E Hne Hm; cbn [receive].
  - injection E as <- <-. unfold delivered_since. rewrite drop_all. apply does_ret. by exists c.
  - cbn [WebSocket.execute_chunks fst snd] in E.
    destruct (WebSocket.websocket_parser_execute WebSocketClient.cbs addr d wp p) as [[[wp1 p1] n]|] eqn:E1; [|done].
    cbn [mbind option_bind] in E. destruct (decide (n = length d)) as [->|]; [|done].
    apply Forall_cons in Hne as [Hd Hne]. cbn [snd] in Hd.
    pose proof (WebSocketClient.messages_grow addr d wp p wp1 p1 (length d) E1) as [m1 G1].
    assert (exists m2, WebSocketClient.messages wp' = WebSocketClient.messages wp1 ++ m2) as [m2 G2].
    { clear -E. revert wp1 p1 E. induction chunks as [|[a k] chunks IH]; intros wp1 p1 E.
      - injection E as <- <-. exists []. by rewrite app_nil_r.
      - cbn [WebSocket.execute_chunks fst snd] in E.
        destruct (WebSocket.websocket_parser_execute WebSocketClient.cbs a k wp1 p1) as [[[wp2 p2] n]|] eqn:E1; [|done].
        cbn [mbind option_bind] in E. destruct (decide (n = length k)); [|done].
        destruct (WebSocketClient.messages_grow a k wp1 p1 wp2 p2 n E1) as [m1 G1].
        destruct (IH wp2 p2 E) as [m2 G2]. exists (m1 ++ m2). by rewrite G2, G1, app_assoc. }
    unfold delivered_since in *.
    rewrite G2, G1, <- app_assoc, drop_app_length, Forall_app in Hm. destruct Hm as [Hm1 Hm2].
    rewrite G2, G1, <- app_assoc, drop_app_length, fmap_app, concat_app.
    eapply does_bind.
    { assert (Er : read c addr d = feed_ws c addr d).
      { destruct Hc as (Hs & Hh & _). unfold on_read, onMessage. rewrite Hh, Hs. rewrite decide_False by done. cbn.
        rewrite decide_True by by split. by rewrite Nat.sub_diag, Z.add_0_r. }
      rewrite Er. replace m1 with (delivered_since wp wp1) by (unfold delivered_since; by rewrite G1, drop_app_length).
      apply (feed_ws_do c addr d wp p wp1 p1); [done | done |]. unfold delivered_since. by rewrite G1, drop_app_length. }
    intros r (c' & -> & Hc'). replace m2 with (delivered_since wp1 wp') by (unfold delivered_since; by rewrite G2, drop_app_length).
    apply (IH wp1 p1); [done | done | done |]. unfold delivered_since. by rewrite G2, drop_app_length.
Qed.

(** *** The handshake *)

(** The parser reads the response of a server that accepts the key, in any
    pieces, and stops after it. *)
Record reads_upgrade (resp accept : list Z) (has_read : P -> list Z -> Prop) : Prop := {
  reads_nothing : has_read InitResponse [];
  reads_part hp seen d later : has_read hp seen -> d <> [] -> later <> [] -> resp = seen ++ d ++ later ->
    exists hp', FeedHttp hp d = (hp', Z.of_nat (length d)) /\ IsComplete hp' = false /\ has_read hp' (seen ++ d);
  reads_end hp seen d extra : has_read hp seen -> d <> [] -> resp = seen ++ d ->
    exists hp', FeedHttp hp (d ++ extra) = (hp', Z.of_nat (length d)) /\ GetError hp' = false /\ IsComplete hp' = true /\
      status_code hp' = 101 /\ c_str (res_header hp' SEC_WEBSOCKET_ACCEPT) = accept;
}.

Context (junk_size : length (Sha1.buffer junk) = 64%nat).
Context (key : list Z) (key_bytes : bytes_ok key) (key_short : Z.of_nat (length key) + 63 < 2 ^ 32).
Context (resp : list Z) (has_read : P -> list Z -> Prop).
Context (server_accepts : reads_upgrade resp (Base64.rfc_encode (Sha1.fips_sha1 (key ++ ws_magic))) has_read).

(** The client has sent its key and waits for the response. *)
Definition waiting c : Prop :=
  state c = WS_UPGRADING /\ handlers c = true /\
  exists req, http_req c = Some req /\ c_str (GetHeader req SEC_WEBSOCKET_KEY) = key.

Definition opening c : list scall :=
  (if decide (0 < ping_interval c) then [setHeartbeat (ping_interval c)] else []) ++ [onopen].

Notation wp0 := WebSocketClient.WebSocketParser_init.
Notation p0 := WebSocket.websocket_parser_init.

Lemma ws_opened_do c : handlers c = true -> does (ws_opened c) (opening c) (ready wp0 p0).
Proof using Type.
  intros Hh. unfold ws_opened, opening. set (c0 := to_state WS_OPENED (set_ws (Some (wp0, p0)) c)).
  change (ping_interval c0) with (ping_interval c). apply does_bind with (P := ready wp0 p0).
  - case_decide; [apply does_call; intros [] _|]; by apply does_ret.
  - intros c1 Hc1. apply does_call. intros r Hr. cbn in Hr. subst r. by apply does_ret.
Qed.

Lemma upgrading_last c seen left_ extra : waiting c -> has_read (http_parser c) seen -> left_ <> [] -> resp = seen ++ left_ ->
  does (upgrading ParseUrl is_ipaddr junk c (left_ ++ extra)) (opening c)
    (fun x => exists c', x = Next (c', extra) /\ ready wp0 p0 c').
Proof using junk_size key_bytes key_short server_accepts.
  intros (Hs & Hh & req & Hq & Hk) Hr Hl E. unfold upgrading.
  destruct (reads_end _ _ _ server_accepts (http_parser c) seen left_ extra Hr Hl E) as (hp & -> & Herr & Hc & Hst & Hacc).
  rewrite Herr, andb_false_r, Nat2Z.id, drop_app_length, Hc.
  rewrite <- (app_nil_r (opening c)). unfold fbind.
  apply does_bind with (P := fun x => exists c', x = Next c' /\ ready wp0 p0 c').
  - unfold upgraded. rewrite Hst, decide_False by (intros Hn; by apply Hn).
    assert (Ea : accepts junk (set_parser hp c) hp = Some true).
    { unfold accepts. cbn [http_req set_parser]. rewrite Hq. cbn [mbind option_bind from_option id].
      rewrite Hk, (encode_key_rfc junk key) by done. cbn [mbind option_bind]. by rewrite Hacc, bool_decide_true. }
    rewrite Ea. rewrite <- (app_nil_r (opening c)). eapply does_bind; [by apply (ws_opened_do (set_parser hp c))|].
    intros c' Hc'. apply does_ret. by exists c'.
  - intros x (c' & -> & Hc'). apply does_ret. by exists c'.
Qed.

Lemma does_assoc {A B C} (m : SM A) (f : A -> SM B) (g : B -> SM C) cs Q :
  does (m ≫= fun a => f a ≫= g) cs Q -> does ((m ≫= f) ≫= g) cs Q.
Proof using Type. intros Hd tr c Hx Ht. apply bind_assoc in Hx. by apply Hd. Qed.

Lemma upgrading_part c seen d later : waiting c -> has_read (http_parser c) seen -> d <> [] -> later <> [] ->
  resp = seen ++ d ++ later ->
  exists hp, has_read hp (seen ++ d) /\ upgrading ParseUrl is_ipaddr junk c d = next (set_parser hp c, []).
Proof using server_accepts.
  intros (Hs & _) Hr Hd Hl E. unfold upgrading.
  destruct (reads_part _ _ _ server_accepts (http_parser c) seen d later Hr Hd Hl E) as (hp & -> & Hc & Hr').
  exists hp. split; [done|]. rewrite bool_decide_false by (intros Hn; by apply Hn). cbn [andb].
  by rewrite Hc, Nat2Z.id, drop_all.
Qed.

Context (body : list Z) (wp' : WebSocketClient.WebSocketParser).
Context (body_read : forall chunks, Forall WebSocket.chunk_ok chunks -> concat (map snd chunks) = body ->
  exists p', WebSocket.execute_chunks WebSocketClient.cbs chunks (wp0, p0) = Some (wp', p')).
Context (no_close_frame : Forall no_close (WebSocketClient.messages wp')).

Lemma receive_body c chunks : ready wp0 p0 c -> Forall WebSocket.chunk_ok chunks -> Forall (fun k => k.2 <> []) chunks ->
  concat (map snd chunks) = body ->
  does (receive c chunks) (concat (react <$> WebSocketClient.messages wp'))
    (fun r => exists c', r = Done c' /\ state c' = WS_OPENED).
Proof using body_read no_close_frame.
  intros Hc Hok Hne E. destruct (body_read chunks Hok E) as [p' Hx].
  intros tr r H1 H2. destruct (receive_opened chunks wp0 p0 wp' p' c Hc Hx Hne no_close_frame tr r H1 H2)
    as [Ht (c' & -> & Hc')]. split; [exact Ht|]. exists c'. split; [done | apply Hc'].
Qed.

(** The chunk in which the response ends. *)
Lemma final_chunk addr left_ extra chunks c seen : waiting c -> has_read (http_parser c) seen -> left_ <> [] ->
  resp = seen ++ left_ -> WebSocket.chunk_ok (addr, left_ ++ extra) -> Forall WebSocket.chunk_ok chunks ->
  Forall (fun k => k.2 <> []) chunks -> body = extra ++ concat (map snd chunks) ->
  does (upgrading ParseUrl is_ipaddr junk c (left_ ++ extra) ≫= fun r =>
      (match r with
       | Leave r => mret r
       | Next (c, rest) =>
           if decide (state c = WS_OPENED /\ rest <> [])
           then feed_ws c (addr + Z.of_nat (length (left_ ++ extra) - length rest)) rest else mret (Done c)
       end) ≫= fun r => match r with Done c => receive c chunks | Threw => mret Threw end)
    (opening c ++ concat (react <$> WebSocketClient.messages wp'))
    (fun r => exists c', r = Done c' /\ state c' = WS_OPENED).
Proof using junk_size key_bytes key_short server_accepts body_read no_close_frame.
  intros Hc Hr Hl E Hd1 Hok Hne Eb.
  eapply does_bind; [by apply (upgrading_last c seen left_ extra)|].
  intros x (c' & -> & Hc'). pose proof Hc' as (Hs' & Hh' & _). cbn beta iota.
  rewrite length_app, Nat.add_sub.
  destruct (decide (extra = [])) as [Enil|Hx].
  - rewrite Enil, decide_False by (intros [_ Hn]; done). cbn [mbind prog_bind bindp mret prog_ret].
    apply receive_body; [done..|]. by rewrite Eb, Enil.
  - rewrite decide_True by done.
    assert (Eq : feed_ws c' (addr + Z.of_nat (length left_)) extra
      = on_read ParseUrl is_ipaddr junk c' (addr + Z.of_nat (length left_)) extra).
    { unfold on_read, onMessage. rewrite Hh', Hs', decide_False by done. cbn [next mbind prog_bind bindp mret prog_ret].
      rewrite decide_True by done. by rewrite Nat.sub_diag, Z.add_0_r. }
    rewrite Eq. apply (receive_body c' ((addr + Z.of_nat (length left_), extra) :: chunks)); [done | | |].
    + apply Forall_cons. split; [|done]. unfold WebSocket.chunk_ok in *. cbn [fst snd] in *. rewrite length_app in Hd1. lia.
    + by apply Forall_cons.
    + cbn [map concat snd]. by rewrite Eb.
Qed.

Lemma receive_upgrade chunks : forall c seen left_, waiting c -> has_read (http_parser c) seen ->
  left_ <> [] -> resp = seen ++ left_ -> Forall WebSocket.chunk_ok chunks -> Forall (fun k => k.2 <> []) chunks ->
  concat (map snd chunks) = left_ ++ body ->
  does (receive c chunks) (opening c ++ concat (react <$> WebSocketClient.messages wp'))
    (fun r => exists c', r = Done c' /\ state c' = WS_OPENED).
Proof using junk_size key_bytes key_short server_accepts body_read no_close_frame.
  induction chunks as [|[addr d] chunks IH]; intros c seen left_ Hc Hr Hl E Hok Hne Ebytes; cbn [map concat snd] in Ebytes.
  { by destruct left_. }
  apply Forall_cons in Hok as [Hd1 Hok]. apply Forall_cons in Hne as [Hd Hne]. cbn [snd] in Hd. pose proof Hc as (Hs & Hh & _).
  cbn [receive]. unfold on_read, onMessage. rewrite Hh, Hs, decide_True by done. apply does_assoc.
  destruct (app_eq_inv _ _ _ _ Ebytes) as [(extra & -> & Eb)|(later & Ed & Ec)];
    [|destruct (decide (later = [])) as [->|Hlater]].
  2: { rewrite app_nil_r in Ed. subst left_. pose proof (final_chunk addr d [] chunks c seen) as Hf.
       rewrite app_nil_r in Hf. by apply Hf. }
  - by apply (final_chunk addr left_ extra chunks c seen).
  - subst left_.
    destruct (upgrading_part c seen d later Hc Hr Hd Hlater E) as (hp & Hr' & ->).
    cbn [next mbind prog_bind bindp mret prog_ret]. cbn [state set_parser]. rewrite Hs, decide_False by (intros [Hn _]; done).
    cbn [mbind prog_bind bindp mret prog_ret].
    apply (IH (set_parser hp c) (seen ++ d) later); [exact Hc | exact Hr' | done | | done | done | exact Ec].
    by rewrite <- app_assoc.
Qed.
End Session.

(** *** The connection *)

Lemma yields_sound {A} (m : SM A) Q tr a : yields m Q -> exec m tr a -> Q a.
Proof.
  revert tr. induction m as [x|c k IH]; intros tr; cbn; [by intros HQ [_ ->]|].
  intros HQ (r & tr' & _ & Hx). by apply (IH r tr').
Qed.

Definition client_key {P} (c : client P) : list Z :=
  c_str (default [] (req ← http_req c; Some (GetHeader req SEC_WEBSOCKET_KEY))).

(** A connected client has sent its request, with a key, and waits. *)
Lemma connect_waits {P} `{HttpParser P} Dump (c : client P) tr c' :
  exec (on_connect Dump c) tr (Done c') -> handlers c = true -> channel c <> None ->
  waiting (client_key c') c' /\ http_parser c' = InitResponse.
Proof.
  intros Hx Hh Hch.
  set (Q := fun r : ended P => match r with Done c' => waiting (client_key c') c' /\ http_parser c' = InitResponse | Threw => True end).
  apply (yields_sound _ Q _ _) in Hx; [exact Hx|]. unfold on_connect, onConnection. cbn [handlers to_status set_channel].
  rewrite Hh. destruct (channel c) as [ch|] eqn:Ec; [clear Hch|by destruct Hch]. cbn [channel to_status set_channel].
  rewrite Ec. cbn [mbind option_bind]. cbn [isConnected status isOpened].
  unfold websocket_handshake. cbn [http_req to_state set_channel].
  apply yields_bind. apply (yields_mono _ (fun _ => True)); [|apply yields_any]. intros [] _. apply yields_bind. intros [].
  cbn [yields]. apply yields_bind. change (isConnected _) with true. change (http_req (to_status CH_CONNECTED c)) with (http_req c).
  cbn iota. destruct (http_req c) as [req|] eqn:Er; [|done].
  apply (yields_mono _ Q).
  - intros [c1|]; [|done]. intros [(H1 & H2 & req1 & H3 & H4) H5]. split; [|exact H5]. split_and!; [done..|]. by exists req1.
  - apply yields_bind. apply (yields_mono _ (fun _ => True)); [|apply yields_any]. intros [req1|] _; [|done]. intros w.
    split; [|done]. split_and!; [done | exact Hh|]. by exists req1.
Qed.

(** ** Properties *)

(** [C2] A WebSocket from end to end.  The client connects and sends its key; the
    server accepts that key, and then its threads send messages over one
    channel, in any interleaving, without a failure.  In whatever pieces the
    bytes arrive (the end of the response and the first frames in one piece, a
    frame in many), the client calls [onopen] once and then [onmessage] exactly
    with the texts and binary messages, answers exactly the pings, with their
    data, and does nothing else; each thread's messages come in its order. *)
Theorem session_delivers {P} `{HttpParser P} ParseUrl Dump is_ipaddr junk resp (has_read : P -> list Z -> Prop)
    fuel (threads : list (list op)) s' ts' (c0 c : client P) tr0 chunks tr r :
  length (Sha1.buffer junk) = 64%nat ->
  handlers c0 = true -> channel c0 <> None -> exec (on_connect Dump c0) tr0 (Done c) ->
  bytes_ok (client_key c) -> Z.of_nat (length (client_key c)) + 63 < 2 ^ 32 ->
  resp <> [] -> reads_upgrade resp (Base64.rfc_encode (Sha1.fips_sha1 (client_key c ++ ws_magic))) has_read ->
  Forall (Forall (op_ok fuel)) threads -> Forall (Forall (fun o => no_close (op_message o))) threads ->
  rtc (pool_step w_act) (w_init, senders WS_SERVER fuel threads) (s', ts') -> Forall (fun m => m = Ret tt) ts' -> failed s' = false ->
  Forall WebSocket.chunk_ok chunks -> Forall (fun k => k.2 <> []) chunks -> concat (map snd chunks) = resp ++ wire s' ->
  exec (receive ParseUrl is_ipaddr junk c chunks) tr r -> polite tr ->
  exists (order : list (nat * op)) c',
    (forall i, ops_of i order = default [] (threads !! i)) /\
    ev_call <$> tr = opening c ++ concat ((fun p => react (op_message p.2)) <$> order) /\
    r = Done c' /\ state c' = WS_OPENED.
Proof.
  intros Hj Hh Hch Hconn Hk Hkl Hresp Hserver Hok Hnc Hpool Hend Hf Hchunk Hne Ebytes Hx Ht.
  destruct (connect_waits Dump c0 tr0 c Hconn Hh Hch) as [Hw Hp].
  destruct (wire_frames _ _ _ _ _ Hok Hpool Hend Hf) as (order & fs & H1 & Ew & Hfs & Hm).
  set (wp' := fold_left WebSocketClient.recv_frame fs WebSocketClient.WebSocketParser_init) in *.
  assert (Hnc' : Forall no_close (WebSocketClient.messages wp')).
  { rewrite Hm, Forall_fmap, Forall_forall. intros [i o] Hin. cbn.
    assert (o ∈ default [] (threads !! i)) as Ho.
    { rewrite <- H1. unfold ops_of. apply list_elem_of_fmap. exists (i, o). split; [done|]. by apply list_elem_of_filter. }
    destruct (threads !! i) as [os|] eqn:Hi; [|by apply elem_of_nil in Ho].
    eapply Forall_lookup_1 in Hnc; [|exact Hi]. rewrite Forall_forall in Hnc. by apply Hnc. }
  destruct (receive_upgrade ParseUrl is_ipaddr junk Hj (client_key c) Hk Hkl resp has_read Hserver (wire s') wp'
    (fun ks Hks E => WebSocketClient.frames_read fs ks Hfs Hks (eq_trans E Ew)) Hnc' chunks c [] resp Hw) with (tr := tr) (a := r)
    as [Ecalls (c' & -> & Hs)]; try done.
  { rewrite Hp. apply (reads_nothing _ _ _ Hserver). }
  exists order, c'. split; [done|]. split; [|done]. rewrite Ecalls. f_equal. f_equal. by rewrite Hm, <- list_fmap_compose.
Qed.

(** A reader of responses, for the examples: the head, up to its empty line. *)
Definition head_ends (l : list Z) : bool := bool_decide (drop (length l - 4) l = [13; 10; 13; 10]).
Fixpoint feed_head (l d : list Z) (n : Z) : list Z * Z :=
  match d with
  | [] => (l, n)
  | b :: d' => if head_ends l then (l, n) else feed_head (l ++ [b]) d' (n + 1)
  end.
Definition crlf : list Z := [13; 10].
Definition status_line : list Z := chars "HTTP/1.1 101 Switching Protocols" ++ crlf.
Definition accept_field : list Z := chars "Sec-WebSocket-Accept: ".

#[export] Instance head_parser : HttpParser (list Z) := {
  InitResponse := [];
  FeedHttp l d := feed_head l d 0;
  GetError _ := false;
  IsComplete := head_ends;
  status_code l := match drop 9 l with a :: b :: c :: _ => (a - 48) * 100 + (b - 48) * 10 + (c - 48) | _ => 0 end;
  res_header l _ := let v := drop (length status_line + length accept_field) l in take (length v - 4) v;
}.

Lemma feed_head_reads d : forall l n extra, (forall k, (k < length d)%nat -> head_ends (l ++ take k d) = false) ->
  (head_ends (l ++ d) = true \/ extra = []) -> feed_head l (d ++ extra) n = (l ++ d, n + Z.of_nat (length d)).
Proof.
  induction d as [|b d IH]; intros l n extra Hno Hend; cbn [app].
  - rewrite !app_nil_r in *. cbn. rewrite Z.add_0_r. destruct extra as [|x extra]; [done|]. cbn.
    destruct Hend as [->|]; done.
  - cbn [feed_head]. assert (head_ends l = false) as -> by (rewrite <- (app_nil_r l); apply (Hno 0%nat); cbn; lia).
    rewrite (IH (l ++ [b]) (n + 1) extra).
    + rewrite <- app_assoc. cbn. f_equal. lia.
    + intros k Hk. rewrite <- app_assoc. apply (Hno (S k)). cbn. lia.
    + rewrite <- app_assoc. by destruct Hend; [left|right].
Qed.

Lemma head_reads resp accept : (forall k, (k < length resp)%nat -> head_ends (take k resp) = false) -> head_ends resp = true ->
  status_code resp = 101 -> c_str (res_header resp SEC_WEBSOCKET_ACCEPT) = accept ->
  reads_upgrade resp accept (fun l seen => l = seen).
Proof.
  intros Hno Hend Hst Hacc.
  assert (Hpart : forall seen d later, resp = seen ++ d ++ later -> forall k, (k < length d)%nat -> head_ends (seen ++ take k d) = false).
  { intros seen d later E k Hk. replace (seen ++ take k d) with (take (length seen + k) resp).
    - apply Hno. rewrite E, !length_app. lia.
    - rewrite E. rewrite take_app_add. by rewrite take_app_le by lia. }
  split; [done| |].
  - intros hp seen d later -> _ Hl E. exists (seen ++ d). split; [|split; [|done]].
    + cbn [FeedHttp head_parser]. rewrite <- (app_nil_r d) at 1. rewrite feed_head_reads; [done| |by right]. by eapply Hpart.
    + cbn. replace (seen ++ d) with (take (length seen + length d) resp).
      * apply Hno. rewrite E, !length_app. destruct later; [done|]. cbn. lia.
      * rewrite E, take_app_add. by rewrite take_app_length.
  - intros hp seen d extra -> _ E. exists (seen ++ d). split.
    + cbn [FeedHttp head_parser]. rewrite feed_head_reads; [done| |left; by rewrite <- E].
      apply (Hpart seen d []). by rewrite app_nil_r.
    + by rewrite <- E.
Qed.

(** The environment of the examples: every call succeeds, a close runs its
    callback, the user closes nothing. *)
Definition quiet (u : unit) (c : scall) : sresp c * unit :=
  match c return sresp c * unit with
  | rand => (1, u)
  | sockaddr_set_ipport _ _ | newSslCtx | hio_connect | hio_write _ | channel_send _ _ | channel_sendPing => (0, u)
  | socket => (5, u)
  | hio_close => (true, u)
  | onopen | onmessage _ _ | onclose => (false, u)
  | set_connect_timeout _ | enableSSL | setHostname _ | setUnpack | startRead | setHeartbeat _ | setTimeout _ => (tt, u)
  end.

Definition new_client : client (list Z) :=
  mkClient (list Z) WS_CLOSED [] None [] None 3000 0 None [] 0 10000 false false None false false.
Definition no_url (u : list Z) : list Z * Z := (u, 80).
Definition no_dump (req : HttpRequest) : list Z := GetHeader req SEC_WEBSOCKET_KEY.

Definition opened_client : client (list Z) := (run quiet tt (open no_url (fun _ => true) new_client (Some (chars "ws://a/b")) [])).1.1.2.
Definition connected := run quiet tt (on_connect no_dump opened_client).
Definition waiting_client : client (list Z) := match connected.1.1 with Done c => c | Threw => new_client end.

Definition server_response (key : list Z) : list Z :=
  status_line ++ accept_field ++ Base64.rfc_encode (Sha1.fips_sha1 (key ++ ws_magic)) ++ crlf ++ crlf.
Definition example_response : list Z := server_response (client_key waiting_client).

(** A server whose threads send a message in two fragments, a text, a ping and a pong. *)
Definition server_end := played w_step (replicate 11 0 ++ replicate 3 1 ++ replicate 6 0 ++ replicate 3 1)%nat
  (w_init, senders WS_SERVER 10 two_threads).
Definition example_bytes : list Z := example_response ++ wire server_end.1.

(** The pieces end in the status line and in a frame after the response. *)
Definition example_chunks : list (Z * list Z) :=
  let n := (length example_response + 3)%nat in
  [(0, take 20 example_bytes); (64, take (n - 20) (drop 20 example_bytes)); (4096, drop n example_bytes)].
Definition example_session := run quiet tt (receive no_url (fun _ => true) Sha1.junk waiting_client example_chunks).

Example example_session_calls : ev_call <$> example_session.2 =
  [setHeartbeat 3000; onopen; onmessage 1 (chars "Hello"); channel_send [] 10; onmessage 1 (chars "!")].
Proof. vm_compute. reflexivity. Qed.

Lemma head_example : reads_upgrade example_response
  (Base64.rfc_encode (Sha1.fips_sha1 (client_key waiting_client ++ ws_magic))) (fun l seen => l = seen).
Proof.
  apply head_reads; [|by vm_compute..].
  assert (Hall : forallb (fun k => negb (head_ends (take k example_response))) (seq 0 (length example_response)) = true) by by vm_compute.
  rewrite forallb_forall in Hall. intros k Hk. apply negb_true_iff, Hall, in_seq. lia.
Qed.

Lemma session_delivers_witness : exists (order : list (nat * op)) c',
    (forall i, ops_of i order = default [] (two_threads !! i)) /\
    ev_call <$> example_session.2 = opening waiting_client ++ concat ((fun p => react (op_message p.2)) <$> order) /\
    example_session.1.1 = Done c' /\ state c' = WS_OPENED.
Proof.
  apply (session_delivers no_url no_dump (fun _ => true) Sha1.junk example_response (fun l seen => l = seen)
    10 two_threads server_end.1 server_end.2 opened_client waiting_client connected.2 example_chunks
    example_session.2 example_session.1.1).
  - by vm_compute.
  - by vm_compute.
  - by vm_compute.
  - replace (Done waiting_client) with connected.1.1 by by vm_compute. exact (run_exec quiet (on_connect no_dump opened_client) tt).
  - vm_compute. repeat constructor; discriminate.
  - by vm_compute.
  - by vm_compute.
  - exact head_example.
  - repeat constructor; lia.
  - repeat constructor; discriminate.
  - replace (server_end.1, server_end.2) with server_end by by destruct server_end.
    apply (played_reachable w_act w_step); [apply w_step_act | by vm_compute].
  - vm_compute. repeat constructor.
  - by vm_compute.
  - repeat (apply Forall_cons; split); [by split; vm_compute .. | by apply Forall_nil].
  - repeat (apply Forall_cons; split); [by vm_compute .. | by apply Forall_nil].
  - by vm_compute.
  - exact (run_exec quiet (receive no_url (fun _ => true) Sha1.junk waiting_client example_chunks) tt).
  - vm_compute. repeat constructor.
Defined.

(** *** The delays between attempts to reconnect *)

(** One attempt: its delay, or no attempt. *)
Definition try_again (r : reconn_setting_t) : option Z * reconn_setting_t :=
  let '(can, r) := reconn_setting_can_retry r in
  if can then let '(d, r) := reconn_setting_calc_delay r in (Some d, r) else (None, r).
Fixpoint attempts (n : nat) (r : reconn_setting_t) : list (option Z) :=
  match n with O => [] | S n' => let '(d, r) := try_again r in d :: attempts n' r end.

Lemma startReconnect_attempt {P} (c : client P) r tr x : reconn_setting c = Some r ->
  exec (startReconnect c) tr x ->
  ev_call <$> tr = match (try_again r).1 with Some d => [setTimeout d] | None => [] end /\ reconn_setting x.2 = Some (try_again r).2.
Proof.
  intros Hr. unfold startReconnect, try_again. rewrite Hr. destruct (reconn_setting_can_retry r) as [[] r1]; cbn [negb].
  - destruct (reconn_setting_calc_delay r1) as [d r2]. intros ([] & t & -> & [-> ->]). done.
  - by intros [-> ->].
Qed.

(** The documented policies: fixed, linear, exponential. *)
Definition backoff (r : reconn_setting_t) (k : nat) : Z :=
  Z.min (max_delay r)
    (if decide (delay_policy r = 0) then min_delay r
     else if decide (delay_policy r = 1) then min_delay r * (Z.of_nat k + 1)
     else min_delay r * delay_policy r ^ Z.of_nat k).

Definition allowed (r : reconn_setting_t) (k : nat) : bool :=
  bool_decide (max_retry_cnt r = INFINITE) || bool_decide (Z.of_nat k + 1 < max_retry_cnt r).

Record setting_ok (r : reconn_setting_t) : Prop := {
  ok_min : 0 < min_delay r;
  ok_max : min_delay r <= max_delay r;
  ok_policy : 0 <= delay_policy r;
  ok_sum : max_delay r + min_delay r < 2 ^ 32;
  ok_product : max_delay r * delay_policy r < 2 ^ 32;
}.

(** After [k] attempts since a connection. *)
Definition after (r : reconn_setting_t) (k : nat) (cur : Z) : reconn_setting_t :=
  mkReconn (min_delay r) (max_delay r) cur (delay_policy r) (max_retry_cnt r) (Z.of_nat k).

Lemma next_delay r k cur : setting_ok r -> (Z.of_nat k + 1 < 2 ^ 32) ->
  cur = match k with O => 0 | S k' => backoff r k' end ->
  try_again (after r k cur) = if allowed r k then (Some (backoff r k), after r (S k) (backoff r k)) else (None, after r (S k) cur).
Proof.
  intros [H1 H2 H3 H4 H5] Hk Hcur. unfold try_again, reconn_setting_can_retry, allowed. cbn [max_retry_cnt cur_retry_cnt after].
  rewrite u32_small by lia. replace (Z.of_nat k + 1) with (Z.of_nat (S k)) by lia.
  destruct (bool_decide _ || bool_decide _); [|done].
  unfold reconn_setting_calc_delay. cbn [min_delay max_delay cur_delay delay_policy max_retry_cnt cur_retry_cnt after].
  assert (E : Z.min (Z.max (if decide (delay_policy r = 0) then min_delay r
      else if decide (delay_policy r = 1) then u32 (cur + min_delay r) else u32 (cur * delay_policy r)) (min_delay r)) (max_delay r)
    = backoff r k).
  { subst cur. unfold backoff. repeat case_decide; [lia| |].
    - destruct k as [|k]; [rewrite u32_small by lia; lia|]. repeat case_decide; try lia.
      rewrite u32_small by nia. nia.
    - destruct k as [|k]; [rewrite u32_small by lia; cbn; lia|].
      set (p := delay_policy r) in *. set (x := min_delay r * p ^ Z.of_nat k).
      assert (0 < x) by (unfold x; apply Z.mul_pos_pos; [lia | apply Z.pow_pos_nonneg; lia]).
      replace (min_delay r * p ^ Z.of_nat (S k)) with (x * p) by (unfold x; rewrite Nat2Z.inj_succ, Z.pow_succ_r by lia; ring).
      rewrite u32_small by nia. nia. }
  by rewrite E.
Qed.

Lemma attempts_delays r n : setting_ok r -> Z.of_nat n < 2 ^ 32 ->
  attempts n (reconn_setting_reset r) = (fun k => if allowed r k then Some (backoff r k) else None) <$> seq 0 n.
Proof.
  intros Hr Hn. change (reconn_setting_reset r) with (after r 0 0).
  enough (H : forall m k cur, (k + m <= n)%nat -> (allowed r (k - 1) = true \/ k = 0%nat -> cur = match k with O => 0 | S k' => backoff r k' end) ->
    attempts m (after r k cur) = (fun k => if allowed r k then Some (backoff r k) else None) <$> seq k m) by (apply (H n 0%nat 0); [lia|done]).
  induction m as [|m IH]; intros k cur Hk Hcur; [done|]. cbn [attempts seq fmap list_fmap].
  destruct (allowed r k) eqn:Ea.
  - assert (E : cur = match k with O => 0 | S k' => backoff r k' end).
    { apply Hcur. destruct k as [|k]; [by right|]. left. unfold allowed in *. cbn [Nat.sub]. rewrite Nat.sub_0_r.
      apply orb_true_iff in Ea as [->|Ea]; [done|]. apply bool_decide_eq_true in Ea. apply orb_true_iff. right. apply bool_decide_eq_true. lia. }
    rewrite (next_delay r k cur) by (done || lia). rewrite Ea. f_equal. apply IH; [lia|done].
  - unfold try_again, reconn_setting_can_retry. cbn [max_retry_cnt cur_retry_cnt after]. rewrite u32_small by lia.
    unfold allowed in Ea. rewrite Ea. f_equal.
    replace (mkReconn _ _ _ _ _ _) with (after r (S k) cur) by (unfold after; cbn; f_equal; lia).
    apply IH; [lia|]. cbn [Nat.sub]. rewrite Nat.sub_0_r. unfold allowed. intros [E|E]; congruence.
Qed.

(** [n] connections in a row that end or fail, as [on_close] leaves them. *)
Fixpoint reconnects {P} (n : nat) (c : client P) : SM (client P) :=
  match n with O => mret c | S n' => x ← startReconnect c; reconnects n' x.2 end.

Lemma reconnects_timers {P} n : forall (c : client P) r tr c', reconn_setting c = Some r -> exec (reconnects n c) tr c' ->
  ev_call <$> tr = setTimeout <$> omap id (attempts n r).
Proof.
  induction n as [|n IH]; intros c r tr c' Hr Hex; cbn [reconnects attempts] in *; [by destruct Hex as [-> _]|].
  apply exec_bind in Hex as (t1 & t2 & x & -> & H1 & H2). apply (startReconnect_attempt c r) in H1 as [E Hx]; [|done].
  rewrite fmap_app, E, (IH _ _ _ _ Hx H2). by destruct (try_again r) as [[d|] r'].
Qed.

(** How many of the first [n] attempts are made: one fewer than [max_retry_cnt]. *)
Definition retries_made (r : reconn_setting_t) (n : nat) : nat :=
  if decide (max_retry_cnt r = INFINITE) then n else Nat.min n (Z.to_nat (max_retry_cnt r - 1)).

Lemma omap_prefix {A} (f : nat -> A) m n : forall i,
  omap (fun k => if (k <? m)%nat then Some (f k) else None) (seq i n) = f <$> seq i (Nat.min n (m - i)).
Proof.
  induction n as [|n IH]; intros i; [done|]. cbn [seq omap list_omap]. destruct (Nat.ltb_spec i m) as [H|H].
  - replace (Nat.min (S n) (m - i)) with (S (Nat.min n (m - S i))) by lia. cbn. f_equal. apply IH.
  - change (omap (fun k => if (k <? m)%nat then Some (f k) else None) (seq (S i) n) = f <$> seq i (Nat.min (S n) (m - i))).
    rewrite IH. by replace (m - S i)%nat with 0%nat by lia; replace (m - i)%nat with 0%nat by lia; rewrite !Nat.min_0_r.
Qed.

Lemma omap_fmap_id {A B} (f : A -> option B) (l : list A) : omap id (f <$> l) = omap f l.
Proof. induction l as [|x l IH]; [done|]. cbn. unfold id. destruct (f x); [f_equal|]; apply IH. Qed.

Lemma attempts_made r n : setting_ok r -> Z.of_nat n < 2 ^ 32 ->
  omap id (attempts n (reconn_setting_reset r)) = backoff r <$> seq 0 (retries_made r n).
Proof.
  intros Hr Hn. rewrite attempts_delays by done. rewrite omap_fmap_id. unfold retries_made, allowed. case_decide as Hi.
  - rewrite bool_decide_true by done. cbn [orb]. clear. generalize 0%nat. induction n as [|n IH]; intros i; [done|]. cbn. f_equal; apply IH.
  - rewrite bool_decide_false by done. cbn [orb].
    rewrite <- (Nat.sub_0_r (Z.to_nat (max_retry_cnt r - 1))) at 1.
    rewrite <- omap_prefix. generalize (seq 0 n) as l. induction l as [|k l IH]; [done|]. cbn [omap list_omap]. rewrite IH. clear IH.
    destruct (Nat.ltb_spec k (Z.to_nat (max_retry_cnt r - 1))); [rewrite bool_decide_true by lia | rewrite bool_decide_false by lia]; done.
Qed.

(** [C40] The timers of a client that connects again and again without success,
    after a connection that was established: the [k]-th fires after the fixed,
    linear or exponential delay of the policy, up to the maximum, and there are
    [max_retry_cnt - 1] of them, no end of them when it is [INFINITE], and none
    when it is 0 or 1.  (The documentation calls [max_retry_cnt] the number of
    retries: [retries_are_one_less].) *)
Theorem reconnect_delays {P} (c c' : client P) r n tr :
  reconn_setting c = Some (reconn_setting_reset r) -> setting_ok r -> Z.of_nat n < 2 ^ 32 ->
  exec (reconnects n c) tr c' ->
  ev_call <$> tr = (fun k => setTimeout (backoff r k)) <$> seq 0 (retries_made r n).
Proof.
  intros Hc Hr Hn Hex. rewrite (reconnects_timers _ _ _ _ _ Hc Hex), attempts_made by done. by rewrite <- list_fmap_compose.
Qed.

(** The default: 1, 2, 4, 8, 16, 32, 60 and 60 seconds. *)
Lemma reconnect_delays_witness :
  let c := set_reconn (Some reconn_setting_init) waiting_client in
  let tr := (run quiet tt (reconnects 8 c)).2 in
  ev_call <$> tr = (fun k => setTimeout (backoff reconn_setting_init k)) <$> seq 0 8 /\
  ev_call <$> tr = setTimeout <$> [1000; 2000; 4000; 8000; 16000; 32000; 60000; 60000].
Proof.
  intros c tr. split; [|by vm_compute].
  refine (reconnect_delays c _ reconn_setting_init 8 tr eq_refl _ _ (run_exec quiet (reconnects 8 c) tt)); [split; vm_compute; done | by vm_compute].
Defined.

(** With a limit of 3 there are 2 attempts. *)
Example retries_are_one_less : attempts 4 (mkReconn 1000 60000 0 2 3 0) = [Some 1000; Some 2000; None; None].
Proof. reflexivity. Qed.

(** *** The heartbeat *)

Fixpoint beats {P} (n : nat) (c : client P) : SM (client P) :=
  match n with O => mret c | S n' => c ← send_heartbeat c; beats n' c end.

Lemma beat_pings {P A} (c : client P) ch (f : client P -> SM A) tr a : channel c = Some ch -> ch_heartbeat ch = true ->
  ping_cnt c <> 3 -> exec (c ← send_heartbeat c; f c) tr a ->
  exists r tr', tr = Ev channel_sendPing r :: tr' /\ exec (f (set_ping_cnt (i32 (ping_cnt c + 1)) c)) tr' a.
Proof.
  intros Hc Hb Hn. unfold send_heartbeat. rewrite Hc, Hb, decide_False by done. done.
Qed.

(** Three pings without a pong, and the channel is closed at the next heartbeat. *)
Lemma no_pong_closes {P} (c : client P) ch tr c' : channel c = Some ch -> ch_heartbeat ch = true -> isOpened ch = true ->
  ping_cnt c = 0 -> exec (beats 4 c) tr c' ->
  take 4 (ev_call <$> tr) = [channel_sendPing; channel_sendPing; channel_sendPing; hio_close].
Proof.
  intros Hc Hb Ho H0 Hx. cbn [beats] in Hx.
  apply (beat_pings c ch) in Hx as (r1 & t1 & -> & Hx); [|done|done|by rewrite H0]. rewrite H0 in Hx.
  apply (beat_pings _ ch) in Hx as (r2 & t2 & -> & Hx); [|done..].
  apply (beat_pings _ ch) in Hx as (r3 & t3 & -> & Hx); [|done..].
  unfold send_heartbeat in Hx. cbn [channel set_ping_cnt ping_cnt] in Hx. rewrite Hc, Hb, decide_True in Hx by done.
  unfold channel_close, isClosed in Hx. cbn [channel set_ping_cnt] in Hx. rewrite Hc, Ho in Hx.
  apply exec_bind in Hx as (t4 & t5 & c1 & -> & (r4 & t & -> & _) & _). by rewrite !fmap_cons, take_0 || done.
Qed.

(** *** What the client is not *)

Notation receive_in := (receive no_url (fun _ => true) Sha1.junk).
Definition text_frame (s : string) : WebSocketClient.frame := WebSocketClient.mkFrame (ws_flags 1 true false) None (chars s).
Definition close_frame : WebSocketClient.frame := WebSocketClient.mkFrame (ws_flags 8 true false) None [].

(** A close frame with a text behind it, in one piece: the client calls
    [onclose] and then [onmessage]. *)
Example message_after_close :
  ev_call <$> (run quiet tt (receive_in waiting_client
    [(0, example_response ++ WebSocketClient.frame_bytes close_frame ++ WebSocketClient.frame_bytes (text_frame "late"))])).2 =
  [setHeartbeat 3000; onopen; channel_send [] 8; hio_close; onclose; onmessage 1 (chars "late")].
Proof. vm_compute. reflexivity. Qed.

Notation open_at u c := (open no_url (fun _ => true) c (Some (chars u)) []).
Definition after_open u c : client (list Z) := (run quiet tt (open_at u c)).1.1.2.

(** TLS stays enabled for a [ws] URL that is opened after a [wss] URL. *)
Example tls_stays :
  ev_call <$> (run quiet tt (open_at "ws://b/" (after_open "wss://a/" new_client))).2 =
  [hio_close; onclose; sockaddr_set_ipport (chars "http://b/") 80; socket; set_connect_timeout 10000; enableSSL; hio_connect].
Proof. vm_compute. reflexivity. Qed.

(** A client that has lost its connection is closed while it waits to
    reconnect: the timer connects it again. *)
Definition lost_client : client (list Z) := (run quiet tt (on_close (set_reconn (Some reconn_setting_init) waiting_client))).1.1.
Definition closed_client : client (list Z) := (run quiet tt (close lost_client)).1.1.
Example close_does_not_cancel :
  state closed_client = WS_CLOSED /\ reconn_setting closed_client <> None /\
  ev_call <$> (run quiet tt (startConnect (fun _ => true) closed_client)).2 = [socket; set_connect_timeout 10000; hio_connect].
Proof. vm_compute. split; [done|]. split; [discriminate|done]. Qed.

(** The second connection sends the key of the first. *)
Example key_is_reused :
  let again := (run quiet tt (startConnect (fun _ => true) lost_client)).1.1.2 in
  let c := run quiet tt (on_connect no_dump again) in
  existsb (fun k => match k with rand => true | _ => false end) (ev_call <$> c.2) = false /\
  match c.1.1 with Done c => client_key c = client_key waiting_client | Threw => False end.
Proof. vm_compute. split; reflexivity. Qed.

(** A redirected client does not reconnect. *)
Definition moved_response : list Z := chars "HTTP/1.1 302 Found................" ++ accept_field ++ chars "ws://other/" ++ crlf ++ crlf.
Example redirect_drops_reconnect :
  match (run quiet tt (receive_in (set_reconn (Some reconn_setting_init) waiting_client) [(0, moved_response)])).1.1 with
  | Done c => state c = CONNECTING /\ url c = chars "ws://other/" /\ reconn_setting c = None
  | Threw => False
  end.
Proof. vm_compute. split_and!; reflexivity. Qed.
