(* ===== verification/AliyunTts.v ===== *)
(** * The TTS module: [src/mod/asr_tts/mod_aliyun_tts/mod_aliyun_tts.cpp]

    An instance ([aliyuntts_t]) is shared by the thread of the call (the
    functions of the speech interface), the event loop of the WebSocket client
    (its callbacks), a thread that sends the queued texts, and short threads
    that mark a synthesis as completed.  Every access to an [std::atomic] and
    every call of another component is a call of the signature [tcall]; nothing
    but the calls themselves is assumed atomic.  Log output is left out. *)

From Stdlib Require Import Ascii String.
From S2P Require Import Prelude Interaction SwitchCore Threads.

#[local] Open Scope string_scope.
#[local] Open Scope list_scope.
#[local] Open Scope Z_scope.

(** ** Data *)

(** The atomics of [aliyuntts_t]. *)
Inductive flag :=
| ws_connected | ws_closed | synthesisCompleted | tts_closed | last_request_time_ms | conn_finished
| read_audio_data | play_back_stopped | tts_in_progress | audio_data_available | play_back_started.
#[export] Instance flag_eq : EqDecision flag.
Proof. solve_decision. Defined.

(** A JSON value that is written. *)
Inductive json :=
| JString (s : string)
| JNumber (n : Z)
| JBool (b : bool)
| JObject (members : list (string * json)).

(** The configuration that is used here ([globals]). *)
Record tts_config := mkTtsConfig {
  server_url : string;
  app_key : string;
  sample_rate : Z;
  voice_volume : Z;
  write_pcm_enable : bool;
  ws_conn_timeout_ms : Z;
}.

(** [prepare_tts_request] of a text that is not NULL. *)
Definition prepare_tts_request (cfg : tts_config) (voice task_uuid text msg_id : string) : json :=
  JObject
    [("header", JObject
        [("namespace", JString "SpeechSynthesizer"); ("name", JString "StartSynthesis");
         ("message_id", JString msg_id); ("appkey", JString (app_key cfg)); ("task_id", JString task_uuid)]);
     ("payload", JObject
        [("text", JString text); ("voice", JString voice); ("format", JString "wav");
         ("sample_rate", JNumber (sample_rate cfg)); ("volume", JNumber (voice_volume cfg));
         ("speech_rate", JNumber (-300)); ("pitch_rate", JNumber 0); ("enable_subtitle", JBool false)]);
     ("context", JObject [("sdk", JObject [("name", JString "nls-sdk-cpp"); ("version", JString "1.0.0")])])].

(** What a text message of the server holds: [None] when it is no JSON object;
    else its [header], if that is an object, with the integer [status] and the
    string [name] in it. *)
Definition server_doc : Type := option (option (option Z * option string)).

(** A message, by its opcode. *)
Inductive ws_message := TextMessage (doc : server_doc) | BinaryMessage (data : list Z) | OtherMessage.

Inductive tts_event := PLAYBACK_START | PLAYBACK_STOP | SPEECH_CLOSED.

(** The two pairs of a mutex and a condition variable. *)
Inductive sync := main_sync | close_sync.

Inductive tcall :=
(* the instance *)
| load (f : flag)
| store (f : flag) (v : Z)
| buffer_write (data : list Z)
| buffer_read (n : Z)
| buffer_inuse
| buffer_zero
| queue_push (text : string)
| queue_trypop
| queue_size
| lock (m : sync)
| unlock (m : sync)
| notify_one (m : sync)
| wait_for (m : sync) (ms : Z)
(* the WebSocket client *)
| ws_new
| ws_open (url : string) (timeout : Z)
| ws_send (request : json)
| ws_close
| ws_reset
(* the channel *)
| get_private
| set_private
| fire_event (e : tts_event)
(* memory and files *)
| pool_new
| pool_alloc
| pool_destroy
| sync_new
| sync_delete
| buffer_create
| buffer_destroy
| queue_create
| queue_term
| pcm_open
| pcm_write (data : list Z)
| pcm_close
(* threads, time and the token *)
| spawn_processing
| spawn_completion (buffer_size : Z)
| sleep_ms (ms : Z)
| time_ms
| time_s
| gen_uuid
| globals_lock
| globals_unlock
| get_token_expire
| get_token
| token_apply
| set_token (token : string) (expire : Z).

(** [ws_send] answers [false] for an exception, [token_apply] [None]. *)
Definition tresp (c : tcall) : Type :=
  match c with
  | load _ | buffer_inuse | queue_size | time_ms | time_s | get_token_expire => Z
  | buffer_read _ => list Z
  | queue_trypop => option string
  | queue_push _ | pool_new | buffer_create | queue_create => switch_status_t
  | ws_send _ | get_private | fire_event _ | pool_alloc | pcm_open => bool
  | gen_uuid | get_token => string
  | token_apply => option (string * Z)
  | _ => unit
  end%type.

Notation TM A := (prog tresp A).

(** A condition on an atomic. *)
Definition is_set (f : flag) : TM bool := v ← invoke (load f); mret (bool_decide (v <> 0)).

(** [p && q] and [p || q] *)
Definition pand (p q : TM bool) : TM bool := b ← p; if b : bool then q else mret false.
Definition por (p q : TM bool) : TM bool := b ← p; if b : bool then mret true else q.
Definition pnot (p : TM bool) : TM bool := b ← p; mret (negb b).

Section AliyunTts.
Context (cfg : tts_config).

(** ** The token *)

Definition getToken : TM string :=
  now ← invoke time_s;
  expire ← invoke get_token_expire;
  if decide (expire - now > 3600) then invoke get_token
  else
    invoke globals_lock ;;
    expire ← invoke get_token_expire;
    (if decide (expire - now < 3600) then
       r ← invoke token_apply;
       match r with
       | Some (token, e) => if decide (e > 0) then invoke (set_token token e) else mret tt
       | None => mret tt
       end
     else mret tt) ;;
    invoke globals_unlock ;;
    invoke get_token.

(** ** Sending a text *)

(** The UUID without its '-'. *)
Fixpoint remove_dashes (s : string) : string :=
  match s with
  | EmptyString => EmptyString
  | String c s' => if decide (c = "-"%char) then remove_dashes s' else String c (remove_dashes s')
  end.
Definition genUUID : TM string := uuid ← invoke gen_uuid; mret (remove_dashes uuid).

Definition send_tts_request (voice task_uuid text : string) : TM bool :=
  connected ← is_set ws_connected;
  if negb connected then mret false
  else
    busy ← is_set tts_in_progress;
    if busy : bool then mret false
    else
      invoke (store synthesisCompleted 0) ;;
      invoke (store audio_data_available 0) ;;
      invoke (store tts_in_progress 1) ;;
      t ← invoke time_ms;
      invoke (store last_request_time_ms t) ;;
      msg_id ← genUUID;
      ok ← invoke (ws_send (prepare_tts_request cfg voice task_uuid text msg_id));
      if ok : bool then mret true
      else invoke (store tts_in_progress 0) ;; mret false.

(** ** The callbacks of the WebSocket client *)

(** [if (!pvt->conn_finished.load()) { ... }] *)
Definition finish_connect : TM unit :=
  finished ← is_set conn_finished;
  if finished : bool then mret tt
  else
    invoke (lock main_sync) ;; invoke (store conn_finished 1) ;; invoke (notify_one main_sync) ;;
    invoke (unlock main_sync).

Definition onopen : TM unit :=
  invoke (store ws_connected 1) ;; finish_connect.

Definition onclose : TM unit :=
  b ← pand (is_set tts_in_progress) (pnot (is_set synthesisCompleted));
  (if b : bool then invoke (store synthesisCompleted 1) ;; invoke (store tts_in_progress 0) else mret tt) ;;
  finish_connect ;;
  invoke (lock close_sync) ;;
  invoke (store ws_closed 1) ;;
  invoke (notify_one close_sync) ;;
  invoke (unlock close_sync).

(** The thread that [SynthesisCompleted] starts. *)
Definition completion_thread (buffer_size : Z) : TM unit :=
  invoke (sleep_ms 500) ;;
  new_buffer_size ← invoke buffer_inuse;
  invoke (lock main_sync) ;;
  invoke (store synthesisCompleted 1) ;;
  (if decide (new_buffer_size > 1000 \/ new_buffer_size > buffer_size) then
     invoke (store tts_in_progress 0) ;; invoke (notify_one main_sync)
   else if decide (new_buffer_size > 0) then
     invoke (store tts_in_progress 0) ;; invoke (notify_one main_sync)
   else mret tt) ;;
  invoke (unlock main_sync).

Definition on_text (doc : server_doc) : TM unit :=
  match doc with
  | None | Some None => mret tt
  | Some (Some (status, name)) =>
      match status with
      | Some s =>
          if decide (s = 20000000) then mret tt
          else if decide (s = 40010005) then
            invoke (store synthesisCompleted 1) ;; invoke (store tts_in_progress 0)
          else mret tt
      | None => mret tt
      end ;;
      match name with
      | Some n =>
          if String.eqb n "SynthesisCompleted" then
            invoke time_ms ;; invoke (load last_request_time_ms) ;;
            size ← invoke buffer_inuse;
            invoke (spawn_completion size)
          else mret tt
      | None => mret tt
      end
  end.

Definition on_binary (pcm : bool) (data : list Z) : TM unit :=
  invoke time_ms ;; invoke (load last_request_time_ms) ;;
  available ← is_set audio_data_available;
  (if negb available then mret tt else invoke (buffer_write data)) ;;
  invoke (store audio_data_available 1) ;;
  reading ← is_set read_audio_data;
  (if reading : bool then mret tt
   else
     invoke (lock main_sync) ;; invoke (store read_audio_data 1) ;; invoke (notify_one main_sync) ;;
     invoke (unlock main_sync)) ;;
  stopped ← is_set play_back_stopped;
  (if stopped : bool then
     invoke (store play_back_stopped 0) ;; invoke (fire_event PLAYBACK_START) ;; mret tt
   else mret tt) ;;
  if pcm then invoke (pcm_write data) else mret tt.

Definition onmessage (pcm : bool) (m : ws_message) : TM unit :=
  match m with
  | TextMessage doc => on_text doc
  | BinaryMessage data => on_binary pcm data
  | OtherMessage => mret tt
  end.

(** ** Connecting *)

(** [url.find("?") == npos] decides the separator. *)
Definition token_url (token : string) : string :=
  (server_url cfg ++ (if strchr (server_url cfg) "?"%char then "&token=" else "?token=") ++ token)%string.

(** What [destroy] finds in the instance. *)
Record resources := mkResources {
  has_sync : bool;
  has_ws : bool;
  has_buffer : bool;
  has_pcm : bool;
  has_queue : bool;
  has_pool : bool;
}.

(** [connect_ws]: whether it is connected, the task's UUID, and whether there are
    a client and a file. *)
Definition connect_ws : TM (bool * string * bool * bool) :=
  token ← getToken;
  if decide (token = "") then mret (false, "", false, false)
  else
    uuid ← genUUID;
    pcm ← (if write_pcm_enable cfg then invoke pcm_open else mret false);
    invoke ws_new ;;
    invoke (ws_open (token_url token) (ws_conn_timeout_ms cfg)) ;;
    invoke (lock main_sync) ;;
    invoke (wait_for main_sync (ws_conn_timeout_ms cfg)) ;;
    invoke (unlock main_sync) ;;
    invoke (load ws_connected) ;;
    connected ← is_set ws_connected;
    mret (connected, uuid, true, pcm).

Definition when (b : bool) (m : TM unit) : TM unit := if b then m else mret tt.

Definition destroy (r : resources) : TM unit :=
  when (has_sync r) (invoke sync_delete) ;;
  when (has_ws r) (invoke ws_reset) ;;
  when (has_buffer r) (invoke buffer_destroy) ;;
  when (has_pcm r) (invoke pcm_close) ;;
  when (has_queue r) (invoke queue_term) ;;
  when (has_pool r) (invoke pool_destroy).

(** [aliyuntts_speech_open] *)
Definition aliyuntts_speech_open : TM switch_status_t :=
  st ← invoke pool_new;
  if decide (st <> SUCCESS) then mret SWITCH_STATUS_FALSE
  else
    ok ← invoke pool_alloc;
    if negb ok then invoke pool_destroy ;; mret SWITCH_STATUS_FALSE
    else
      invoke (store last_request_time_ms 0) ;; invoke (store ws_connected 0) ;;
      invoke (store ws_closed 0) ;; invoke (store tts_closed 0) ;;
      invoke (store synthesisCompleted 1) ;; invoke (store conn_finished 0) ;;
      invoke (store read_audio_data 0) ;; invoke (store play_back_stopped 1) ;;
      invoke (store tts_in_progress 0) ;; invoke (store audio_data_available 0) ;;
      invoke (store play_back_started 0) ;;
      invoke sync_new ;;
      st ← invoke buffer_create;
      if decide (st <> SUCCESS) then
        (* [pvt->pool] is not set yet *)
        destroy (mkResources true false false false false false) ;; mret SWITCH_STATUS_FALSE
      else
        st ← invoke queue_create;
        if decide (st <> SUCCESS) then
          destroy (mkResources true false true false false true) ;; mret SWITCH_STATUS_FALSE
        else
          invoke set_private ;;
          '(connected, _, ws, pcm) ← connect_ws;
          if negb connected then
            destroy (mkResources true ws true pcm true true) ;; mret SWITCH_STATUS_FALSE
          else invoke spawn_processing ;; mret SUCCESS.

(** ** The thread that sends queued texts *)

(** [for (int i = 0; i < n && !audio_data_available.load(); i++)] with a pause
    of 100 ms that ends when data is available. *)
Fixpoint wait_audio (n : nat) : TM unit :=
  match n with
  | O => mret tt
  | S n' =>
      a ← is_set audio_data_available;
      if a : bool then mret tt
      else
        invoke (sleep_ms 100) ;;
        a ← is_set audio_data_available;
        if a : bool then mret tt else wait_audio n'
  end.

(** What the thread keeps between iterations. *)
Record processing := mkProcessing { pending_request : bool; pending_text : option string }.

(** [if (pvt->synthesisCompleted.load()) { ... }]: [None] leaves the loop. *)
Definition process_completed (voice task_uuid : string) (p : processing) : TM (option processing * processing) :=
  invoke (store tts_in_progress 0) ;;
  closed ← is_set tts_closed;
  if closed : bool then mret (None, mkProcessing false (pending_text p))
  else
    p ← match pending_text p with
        | Some text =>
            sent ← send_tts_request voice task_uuid text;
            mret (if sent : bool then mkProcessing true None else mkProcessing false (Some text))
        | None =>
            pop ← invoke queue_trypop;
            match pop with
            | Some text =>
                closed ← is_set tts_closed;
                if closed : bool then mret (mkProcessing false None)
                else
                  sent ← send_tts_request voice task_uuid text;
                  mret (if sent : bool then mkProcessing true None else mkProcessing false (Some text))
            | None => mret (mkProcessing false None)
            end
        end;
    late ← pand (is_set tts_closed) (is_set tts_in_progress);
    if late : bool then wait_audio 10 ;; mret (None, p) else mret (Some p, p).

(** The other branch: the time-out of a request. *)
Definition process_waiting (p : processing) : TM processing :=
  invoke (sleep_ms 50) ;;
  b ← pand (is_set tts_in_progress) (pand (pnot (is_set audio_data_available)) (mret (pending_request p)));
  if b : bool then
    now ← invoke time_ms;
    request_time ← invoke (load last_request_time_ms);
    if decide (request_time > 0 /\ now > request_time /\ now - request_time > 3000) then
      invoke (store synthesisCompleted 1) ;; invoke (store tts_in_progress 0) ;;
      mret (mkProcessing false (pending_text p))
    else mret p
  else mret p.

(** The loop; the flag is [false] when it is out of fuel. *)
Fixpoint process_loop (fuel : nat) (voice task_uuid : string) (p : processing) : TM (bool * processing) :=
  match fuel with
  | O => mret (false, p)
  | S fuel' =>
      closed ← is_set tts_closed;
      if closed : bool then mret (true, p)
      else
        completed ← is_set synthesisCompleted;
        if completed : bool then
          '(next, p) ← process_completed voice task_uuid p;
          match next with
          | Some p => process_loop fuel' voice task_uuid p
          | None => mret (true, p)
          end
        else
          p ← process_waiting p;
          process_loop fuel' voice task_uuid p
  end.

(** The thread, after the loop it waits for the connection to be closed and
    destroys the instance. *)
Definition processing_thread (fuel : nat) (voice task_uuid : string) (pcm : bool) : TM (bool * processing) :=
  '(ended, p) ← process_loop fuel voice task_uuid (mkProcessing false None);
  if negb ended then mret (false, p)
  else
    invoke (load tts_in_progress) ;;
    invoke queue_size ;;
    invoke (lock close_sync) ;;
    invoke (wait_for close_sync 3500) ;;
    invoke (unlock close_sync) ;;
    destroy (mkResources true true true pcm true true) ;;
    mret (true, p).

(** ** The speech interface

    [None]: the channel has no instance and the function dereferences NULL. *)

(** Waiting for the end of the synthesis: at most [n] more pauses. *)
Fixpoint close_wait (n : nat) (data_received : bool) : TM unit :=
  match n with
  | O => mret tt
  | S n' =>
      a ← is_set audio_data_available;
      let data_received := data_received || a in
      c ← is_set synthesisCompleted;
      if c && data_received then mret tt
      else
        closed ← is_set ws_closed;
        if closed : bool then mret tt
        else invoke (sleep_ms 100) ;; close_wait n' data_received
  end.

Definition aliyuntts_speech_close (ws : bool) : TM (option switch_status_t) :=
  pvt ← invoke get_private;
  if negb pvt then mret None
  else
    busy ← is_set tts_in_progress;
    (if busy : bool then
       invoke time_ms ;; close_wait 50 false ;; invoke time_ms ;; mret tt
     else mret tt) ;;
    open ← pand (mret ws) (pnot (is_set ws_closed));
    (if open : bool then invoke ws_close else mret tt) ;;
    invoke (store tts_closed 1) ;;
    invoke (fire_event SPEECH_CLOSED) ;;
    mret (Some SUCCESS).

Definition push_text (text : string) : TM switch_status_t :=
  st ← invoke (queue_push text);
  mret (if decide (st <> SUCCESS) then SWITCH_STATUS_FALSE else SUCCESS).

Definition aliyuntts_speech_feed_tts (voice task_uuid text : string) : TM switch_status_t :=
  pvt ← invoke get_private;
  if negb pvt then mret SWITCH_STATUS_FALSE
  else
    closed ← is_set tts_closed;
    if closed : bool then mret SWITCH_STATUS_FALSE
    else
      connected ← is_set ws_connected;
      if negb connected then mret SWITCH_STATUS_FALSE
      else
        busy ← is_set tts_in_progress;
        if busy : bool then push_text text
        else
          sent ← send_tts_request voice task_uuid text;
          if negb sent then push_text text
          else wait_audio 20 ;; mret SUCCESS.

Definition aliyuntts_speech_flush_tts : TM (option unit) :=
  pvt ← invoke get_private;
  if negb pvt then mret None else invoke buffer_zero ;; mret (Some tt).

(** The wait for the first data of a request: [true] when data came. *)
Fixpoint read_wait_first (n : nat) : TM bool :=
  match n with
  | O => mret false
  | S n' =>
      a ← is_set audio_data_available;
      if a : bool then mret false
      else
        invoke (sleep_ms 100) ;;
        lost ← por (pnot (is_set ws_connected)) (por (is_set ws_closed) (is_set tts_closed));
        if lost : bool then mret false
        else
          a ← is_set audio_data_available;
          if a : bool then mret true else read_wait_first n'
  end.

(** The blocking read: [waited_ms] goes up to 2000 in steps of 20.  The data, or
    nothing when it gave up. *)
Fixpoint read_blocking (fuel : nat) (datalen waited_ms : Z) : TM (list Z) :=
  match fuel with
  | O => mret []
  | S fuel' =>
      if decide (waited_ms < 2000) then
        invoke (lock main_sync) ;;
        invoke (wait_for main_sync 20) ;;
        reading ← is_set read_audio_data;
        (if reading : bool then invoke (store read_audio_data 0) else mret tt) ;;
        invoke (unlock main_sync) ;;
        d ← invoke (buffer_read datalen);
        if decide (d <> []) then mret d
        else
          over ← por (is_set ws_closed) (is_set tts_closed);
          if over : bool then invoke (buffer_read datalen)
          else read_blocking fuel' datalen (waited_ms + 20)
      else invoke (buffer_read datalen)
  end.

Definition tts_active : TM bool :=
  pand (is_set tts_in_progress) (pand (is_set ws_connected) (pand (pnot (is_set ws_closed)) (pnot (is_set tts_closed)))).

(** [if (tts_active && !audio_data_available) { ... }]: the data that came. *)
Definition read_first (datalen : Z) : TM (list Z) :=
  b ← pand tts_active (pnot (is_set audio_data_available));
  if b : bool then
    now ← invoke time_ms;
    request_time ← invoke (load last_request_time_ms);
    if decide (request_time > 0 /\ now > request_time /\ now - request_time < 5000) then
      got ← read_wait_first 50;
      if got : bool then invoke (buffer_read datalen) else mret []
    else mret []
  else mret [].

(** [aliyuntts_speech_read_tts]: the status and the data. *)
Definition aliyuntts_speech_read_tts (blocking : bool) (datalen : Z) : TM (option (switch_status_t * list Z)) :=
  pvt ← invoke get_private;
  if negb pvt then mret None
  else
    d ← invoke (buffer_read datalen);
    if decide (d <> []) then mret (Some (SUCCESS, d))
    else
      d ← read_first datalen;
      if decide (d <> []) then mret (Some (SUCCESS, d))
      else
        block ← pand (mret blocking) (por (is_set tts_in_progress) (is_set audio_data_available));
        d ← (if block : bool then read_blocking 101 datalen 0 else mret []);
        if decide (d <> []) then mret (Some (SUCCESS, d))
        else
          playing ← pnot (is_set play_back_stopped);
          (if playing : bool then
             invoke (store play_back_stopped 1) ;;
             invoke (store audio_data_available 0) ;;
             invoke (fire_event PLAYBACK_STOP) ;; mret tt
           else mret tt) ;;
          mret (Some (SWITCH_STATUS_FALSE, [])).

(** [raliyuntts_resume_session_function]; [data] may be NULL. *)
Definition aliyuntts_resume (data : option string) : TM unit :=
  pvt ← invoke get_private;
  if negb pvt then mret tt
  else if zstr data then mret tt
  else invoke (load synthesisCompleted) ;; invoke (queue_push (default "" data)) ;; mret tt.

(** ** The queued texts are sent in order *)

Fixpoint member (name : string) (l : list (string * json)) : option json :=
  match l with
  | [] => None
  | (n, v) :: l' => if String.eqb n name then Some v else member name l'
  end.
(** The text that a request asks for. *)
Definition request_text (j : json) : option string :=
  match j with
  | JObject l =>
      match member "payload" l with
      | Some (JObject l') => match member "text" l' with Some (JString t) => Some t | _ => None end
      | _ => None
      end
  | _ => None
  end.

Lemma request_text_prepared voice task_uuid text msg_id :
  request_text (prepare_tts_request cfg voice task_uuid text msg_id) = Some text.
Proof. reflexivity. Qed.

(** Whether the end was seen, and the texts taken from the queue and sent. *)
Record texts := mkTexts { seen_closed : bool; popped : list string; sent : list string }.

Definition texts_upd (g : texts) (e : event tresp) : texts :=
  match e with
  | Ev (load tts_closed) v => mkTexts (seen_closed g || bool_decide (v <> 0)) (popped g) (sent g)
  | Ev queue_trypop (Some t) => mkTexts (seen_closed g) (popped g ++ [t]) (sent g)
  | Ev (ws_send j) ok =>
      if ok : bool then mkTexts (seen_closed g) (popped g) (sent g ++ option_list (request_text j)) else g
  | _ => g
  end.

(** Nothing resets [tts_closed] once it is set. *)
Definition closed_stays (g : texts) (e : event tresp) : Prop :=
  match e with Ev (load tts_closed) v => seen_closed g = true -> v <> 0 | _ => True end.

Notation wpt := (wp closed_stays texts_upd).

(** The calls that leave these texts alone. *)
Definition other_call (c : tcall) : bool :=
  match c with load tts_closed | queue_trypop | ws_send _ => false | _ => true end.

Lemma texts_other c g r : other_call c = true -> texts_upd g (Ev c r) = g.
Proof. destruct c; try done; by destruct f. Qed.

Lemma wp_other c g (Q : texts -> tresp c -> Prop) : other_call c = true -> (forall r, Q g r) -> wpt (invoke c) g Q.
Proof. intros Hc HQ r _. rewrite texts_other by done. apply HQ. Qed.

Lemma wp_is_set f g (Q : texts -> bool -> Prop) : f <> tts_closed -> (forall b, Q g b) -> wpt (is_set f) g Q.
Proof. intros Hf HQ. unfold is_set. apply wp_bind, wp_other; [by destruct f|]. intros v. apply HQ. Qed.

Lemma wp_closed g (Q : texts -> bool -> Prop) :
  Q (mkTexts true (popped g) (sent g)) true -> (seen_closed g = false -> Q g false) -> wpt (is_set tts_closed) g Q.
Proof.
  intros H1 H2 v Hv. cbn in Hv. cbn. destruct g as [c p s]. cbn in *. case_bool_decide.
  - by rewrite orb_true_r.
  - rewrite orb_false_r. destruct c; [exfalso; by apply Hv|]. by apply H2.
Qed.

Lemma send_wp voice task_uuid text g (Q : texts -> bool -> Prop) :
  Q (mkTexts (seen_closed g) (popped g) (sent g ++ [text])) true -> Q g false ->
  wpt (send_tts_request voice task_uuid text) g Q.
Proof.
  intros H1 H2. unfold send_tts_request. apply wp_bind, wp_is_set; [done|]. intros [|]; [cbn [negb] | done].
  apply wp_bind, wp_is_set; [done|]. intros [|]; [done|].
  do 3 (apply wp_bind, wp_other; [done|]; intros _). apply wp_bind, wp_other; [done|]. intros t.
  apply wp_bind, wp_other; [done|]; intros _. unfold genUUID. apply wp_bind, wp_bind, wp_other; [done|]. intros id.
  intros [|] _; cbn [texts_upd mbind prog_bind bindp]; [exact H1|]. by intros r _.
Qed.

Lemma wait_audio_wp n g (Q : texts -> unit -> Prop) : Q g tt -> wpt (wait_audio n) g Q.
Proof.
  intros HQ. induction n as [|n IH]; cbn [wait_audio]; [exact HQ|].
  apply wp_bind, wp_is_set; [done|]. intros [|]; [exact HQ|]. apply wp_bind, wp_other; [done|]. intros _.
  apply wp_bind, wp_is_set; [done|]. by intros [|].
Qed.

(** The state of the thread accounts for the texts, but for at most one after
    the end was seen. *)
Definition accounted (g : texts) (p : processing) : Prop :=
  exists lost, popped g = sent g ++ option_list (pending_text p) ++ lost /\
    (length lost <= 1)%nat /\ (seen_closed g = false -> lost = []).

Lemma accounted_exact g p : popped g = sent g ++ option_list (pending_text p) -> accounted g p.
Proof. intros E. exists []. rewrite app_nil_r. split_and!; [done | cbn; lia | done]. Qed.

Lemma process_completed_wp voice task_uuid p g : accounted g p -> seen_closed g = false ->
  wpt (process_completed voice task_uuid p) g (fun g' r => accounted g' r.2 /\ match r.1 with Some q => q = r.2 | None => True end).
Proof.
  intros (lost & Hp & _ & Hlost) Hc. rewrite (Hlost Hc), app_nil_r in Hp. clear lost Hlost.
  unfold process_completed. apply wp_bind, wp_other; [done|]. intros _. apply wp_bind, wp_closed.
  { split; [|done]. by apply accounted_exact. }
  intros _. apply wp_bind.
  apply wp_mono with (Q := fun g' q => accounted g' q).
  - intros g' q Hq. apply wp_bind. unfold pand. apply wp_bind, wp_closed.
    + apply wp_is_set; [done|]. destruct Hq as (lost & H1 & H2 & H3).
      assert (Hq' : accounted (mkTexts true (popped g') (sent g')) q) by (exists lost; by split_and!).
      intros [|]; [|by split]. apply wp_bind, wait_audio_wp. by split.
    + intros _. by split.
  - destruct (pending_text p) as [text|] eqn:Et; cbn [option_list] in Hp.
    + apply wp_bind, send_wp; apply accounted_exact; cbn; [by rewrite app_nil_r | done].
    + rewrite app_nil_r in Hp. intros [text|] _; cbn [texts_upd mbind prog_bind bindp].
      * apply wp_bind, wp_closed; cbn [popped sent seen_closed].
        -- exists [text]. cbn. rewrite Hp. split_and!; [done | lia | done].
        -- intros _. apply wp_bind, send_wp; apply accounted_exact; cbn; [by rewrite Hp, app_nil_r | by rewrite Hp].
      * apply accounted_exact. cbn. by rewrite app_nil_r.
Qed.

Lemma process_waiting_wp p g : wpt (process_waiting p) g (fun g' q => g' = g /\ pending_text q = pending_text p).
Proof.
  unfold process_waiting. apply wp_bind, wp_other; [done|]. intros _. apply wp_bind. unfold pand, pnot.
  assert (Hdone : forall b : bool, wpt (if b then
      (now ← invoke time_ms;
       request_time ← invoke (load last_request_time_ms);
       if decide (request_time > 0 /\ now > request_time /\ now - request_time > 3000) then
         invoke (store synthesisCompleted 1) ;; invoke (store tts_in_progress 0) ;;
         mret (mkProcessing false (pending_text p))
       else mret p) else mret p) g (fun g' q => g' = g /\ pending_text q = pending_text p)).
  { intros [|]; [|by split]. apply wp_bind, wp_other; [done|]. intros now. apply wp_bind, wp_other; [done|]. intros t.
    case_decide; [|by split]. do 2 (apply wp_bind, wp_other; [done|]; intros _). by split. }
  apply wp_bind, wp_is_set; [done|]. intros [|]; [|exact (Hdone false)].
  apply wp_bind, wp_bind, wp_is_set; [done|]. intros [|]; [exact (Hdone false)|]. exact (Hdone (pending_request p)).
Qed.

Lemma process_loop_wp fuel voice task_uuid : forall p g, accounted g p ->
  wpt (process_loop fuel voice task_uuid p) g (fun g' r => accounted g' r.2).
Proof.
  induction fuel as [|fuel IH]; intros p g Hp; cbn [process_loop]; [exact Hp|].
  apply wp_bind, wp_closed.
  { destruct Hp as (lost & H1 & H2 & H3). exists lost. by split_and!. }
  intros Hc. apply wp_bind, wp_is_set; [done|]. intros [|].
  - apply wp_bind. eapply wp_mono; [|by apply process_completed_wp]. intros g' [[q|] q'] [H1 H2]; cbn in *; [|done].
    subst q'. by apply IH.
  - apply wp_bind. eapply wp_mono; [|apply process_waiting_wp]. intros g' q [-> Hq]. apply IH.
    destruct Hp as (lost & H1 & H2 & H3). exists lost. by rewrite Hq.
Qed.

(** [C26] Whatever the other threads do, the processing thread sends the texts of
    the queue in the order of the queue, each at most once and none before the
    ones ahead of it: what it took from the queue is what it sent, then the text
    it keeps to send again, then at most one text that it took when the instance
    was being closed. *)
Theorem processing_fifo fuel voice task_uuid tr ended p :
  exec (process_loop fuel voice task_uuid (mkProcessing false None)) tr (ended, p) ->
  legal_trace closed_stays texts_upd (mkTexts false [] []) tr ->
  let g := ghost texts_upd (mkTexts false [] []) tr in
  exists lost, popped g = sent g ++ option_list (pending_text p) ++ lost /\
    (length lost <= 1)%nat /\ (seen_closed g = false -> lost = []).
Proof.
  intros Hex Hl. assert (H0 : accounted (mkTexts false [] []) (mkProcessing false None)) by by apply accounted_exact.
  apply (wp_sound _ _ _ _ _ _ _ (process_loop_wp fuel voice task_uuid _ _ H0) Hex Hl).
Qed.

(** ** Reading *)

Section NeutralConditions.
Context {S : Type} (upd : S -> event tresp -> S).

Lemma neutral_is_set f : (forall g v, upd g (Ev (load f) v) = g) -> neutral upd (is_set f).
Proof. intros Hf g v _. apply Hf. Qed.

Lemma neutral_pand p q : neutral upd p -> neutral upd q -> neutral upd (pand p q).
Proof. intros Hp Hq. apply neutral_bind; [done|]. intros [|]; [done | apply neutral_ret]. Qed.

Lemma neutral_por p q : neutral upd p -> neutral upd q -> neutral upd (por p q).
Proof. intros Hp Hq. apply neutral_bind; [done|]. intros [|]; [apply neutral_ret | done]. Qed.

Lemma neutral_pnot p : neutral upd p -> neutral upd (pnot p).
Proof. intros Hp. apply neutral_bind; [done|]. intros b. apply neutral_ret. Qed.
End NeutralConditions.

(** The time spent waiting, the bytes taken from the buffer, whether
    [play_back_stopped] was found unset, and the PLAYBACK_STOP events. *)
Record reading := mkReading { waited : Z; taken : list Z; playing : bool; stops : Z }.

Definition reading_upd (g : reading) (e : event tresp) : reading :=
  match e with
  | Ev (sleep_ms ms) _ | Ev (wait_for _ ms) _ => mkReading (waited g + ms) (taken g) (playing g) (stops g)
  | Ev (buffer_read _) d => mkReading (waited g) (taken g ++ d) (playing g) (stops g)
  | Ev (load play_back_stopped) v => mkReading (waited g) (taken g) (bool_decide (v = 0)) (stops g)
  | Ev (fire_event PLAYBACK_STOP) _ => mkReading (waited g) (taken g) (playing g) (stops g + 1)
  | _ => g
  end.

Notation wpr := (wp any_answer reading_upd).

Ltac neutral_tac :=
  repeat first
    [ apply neutral_ret | apply neutral_pand | apply neutral_por | apply neutral_pnot
    | apply neutral_is_set; intros; reflexivity ].

(** Only the time passes, by at most [ms]. *)
Definition time_passes (g g' : reading) (ms : Z) : Prop :=
  exists t, 0 <= t <= ms /\ g' = mkReading (waited g + t) (taken g) (playing g) (stops g).

Lemma time_zero g ms : 0 <= ms -> time_passes g g ms.
Proof. intros Hm. exists 0. rewrite Z.add_0_r. by destruct g. Qed.

Lemma time_trans g g1 g2 m n : time_passes g g1 m -> time_passes g1 g2 n -> time_passes g g2 (m + n).
Proof. intros (t & Ht & ->) (u & Hu & ->). exists (t + u). cbn. split; [lia|]. by rewrite Z.add_assoc. Qed.

Lemma read_wait_first_wp n : forall g,
  wpr (read_wait_first n) g (fun g' _ => time_passes g g' (100 * Z.of_nat n)).
Proof.
  induction n as [|n IH]; intros g; cbn [read_wait_first]; [by apply time_zero|].
  apply wp_bind, wp_neutral; [neutral_tac|]. intros [|]; [apply time_zero; lia|].
  intros r _. cbn [mbind prog_bind bindp].
  set (g1 := reading_upd g _). assert (H1 : time_passes g g1 100) by (exists 100; split; [lia|done]).
  assert (Hd : forall g2 m, 0 <= m -> time_passes g1 g2 m -> m <= 100 * Z.of_nat n -> time_passes g g2 (100 * Z.of_nat (S n))).
  { intros g2 m Hm H2 Hle. replace (100 * Z.of_nat (S n)) with (100 + 100 * Z.of_nat n) by lia.
    eapply time_trans; [exact H1|]. destruct H2 as (t & Ht & ->). exists t. split; [lia|done]. }
  apply wp_bind, wp_neutral; [neutral_tac|]. intros [|]; [by apply (Hd g1 0); [lia | apply time_zero | lia]|].
  apply wp_bind, wp_neutral; [neutral_tac|]. intros [|]; [by apply (Hd g1 0); [lia | apply time_zero | lia]|].
  eapply wp_mono; [|apply IH]. intros g2 b H2. by apply (Hd g2 (100 * Z.of_nat n)); [lia| |lia].
Qed.

(** Some time passes, and the data are what is taken. *)
Definition takes (ms : Z) (g g' : reading) (d : list Z) : Prop :=
  exists t, 0 <= t <= ms /\ g' = mkReading (waited g + t) (taken g ++ d) (playing g) (stops g).

Lemma takes_time ms g g1 g2 m d : time_passes g g1 m -> takes ms g1 g2 d -> takes (m + ms) g g2 d.
Proof. intros (t & Ht & ->) (u & Hu & ->). exists (t + u). cbn. split; [lia|]. by rewrite Z.add_assoc. Qed.

Lemma takes_nothing ms g g' : time_passes g g' ms -> takes ms g g' [].
Proof. intros (t & Ht & ->). exists t. by rewrite app_nil_r. Qed.

Lemma buffer_read_wp n g : wpr (invoke (buffer_read n)) g (fun g' d => takes 0 g g' d).
Proof. intros d _. exists 0. cbn. by rewrite Z.add_0_r. Qed.

Lemma read_first_wp n g : wpr (read_first n) g (fun g' d => takes 5000 g g' d).
Proof.
  unfold read_first. apply wp_bind, wp_neutral; [unfold tts_active; neutral_tac|].
  assert (H0 : takes 5000 g g []) by (apply takes_nothing, time_zero; lia).
  intros [|]; [|exact H0]. intros now _. cbn [mbind prog_bind bindp]. intros t _. cbn [mbind prog_bind bindp].
  case_decide; [|exact H0]. apply wp_bind. eapply wp_mono; [|apply read_wait_first_wp].
  intros g1 got H1. destruct got; [|by apply takes_nothing].
  eapply wp_mono; [|apply buffer_read_wp]. intros g2 d H2. replace 5000 with (5000 + 0) by lia. by eapply takes_time.
Qed.

Lemma read_blocking_wp fuel n : forall waited_ms g,
  (exists k, 0 <= k /\ waited_ms = 20 * k) -> 20 * Z.of_nat fuel >= 2020 - waited_ms ->
  wpr (read_blocking fuel n waited_ms) g (fun g' d => takes (Z.max 0 (2000 - waited_ms)) g g' d).
Proof.
  induction fuel as [|fuel IH]; intros w g (k & Hk & ->) Hf; cbn [read_blocking].
  { apply takes_nothing, time_zero. lia. }
  case_decide as Hlt.
  2: { eapply wp_mono; [|apply buffer_read_wp]. intros g' d (t & Ht & ->). exists t. split; [lia|done]. }
  intros u1 _ u2 _. cbn [mbind prog_bind bindp].
  set (g1 := reading_upd _ (Ev (wait_for main_sync 20) u2)).
  assert (H1 : time_passes g g1 20) by (exists 20; split; [lia|done]).
  apply wp_bind, wp_neutral; [neutral_tac|]. intros b. apply wp_bind.
  apply wp_mono with (Q := fun g' _ => g' = g1); [|by destruct b; [intros r _|]].
  intros g' _ ->. intros u3 _. cbn [mbind prog_bind bindp]. apply wp_bind.
  eapply wp_mono; [|apply buffer_read_wp]. intros g2 d (t2 & Ht2 & ->). cbn [reading_upd] in *.
  assert (Hd : forall g3 e m, 0 <= m <= 1980 - 20 * k -> d = [] ->
    takes m (mkReading (waited g1 + t2) (taken g1 ++ d) (playing g1) (stops g1)) g3 e ->
    takes (Z.max 0 (2000 - 20 * k)) g g3 e).
  { intros g3 e m Hm -> (t & Ht & ->). destruct H1 as (t1 & Ht1 & ->). cbn. rewrite app_nil_r.
    exists (t1 + t2 + t). split; [lia|]. f_equal. lia. }
  case_decide as Hne.
  - destruct H1 as (t1 & Ht1 & ->). exists (t1 + t2). cbn. split; [lia|]. f_equal. lia.
  - apply wp_bind, wp_neutral; [neutral_tac|]. intros [|].
    + eapply wp_mono; [|apply buffer_read_wp]. intros g3 e H3. by apply (Hd g3 e 0); [lia|done|].
    + eapply wp_mono; [|apply IH; [exists (k + 1); lia | lia]].
      intros g3 e H3. by apply (Hd g3 e (Z.max 0 (2000 - (20 * k + 20)))); [lia|done|].
Qed.

(** [aliyuntts_speech_read_tts], whatever the other threads do: it waits for
    at most 7 s; the data it returns are exactly those it takes from the buffer,
    and the status is success just when there are some; when there are none the
    playback has ended, and PLAYBACK_STOP is fired if it was found running. *)
Theorem read_tts_outcome blocking datalen tr st d :
  exec (aliyuntts_speech_read_tts blocking datalen) tr (Some (st, d)) ->
  let g := ghost reading_upd (mkReading 0 [] false 0) tr in
  0 <= waited g <= 7000 /\ taken g = d /\ (st = SUCCESS <-> d <> []) /\
  (st <> SUCCESS -> st = SWITCH_STATUS_FALSE) /\
  stops g = (if playing g then 1 else 0).
Proof.
  intros Hex.
  assert (Hw : wpr (aliyuntts_speech_read_tts blocking datalen) (mkReading 0 [] false 0) (fun g o =>
    match o with
    | Some (st, d) => 0 <= waited g <= 7000 /\ taken g = d /\ (st = SUCCESS <-> d <> []) /\
        (st <> SUCCESS -> st = SWITCH_STATUS_FALSE) /\ stops g = (if playing g then 1 else 0)
    | None => True
    end)); [|exact (wp_any _ _ _ _ _ _ Hw Hex)].
  clear tr st d Hex. unfold aliyuntts_speech_read_tts. intros [|] _; [|done]. cbn [mbind prog_bind bindp negb].
  assert (Hdata : forall t (d : list Z), 0 <= t <= 7000 -> d <> [] -> 0 <= t <= 7000 /\ d = d /\ (SUCCESS = SUCCESS <-> d <> []) /\
    (SUCCESS <> SUCCESS -> SUCCESS = SWITCH_STATUS_FALSE) /\ 0 = 0) by done.
  apply wp_bind. eapply wp_mono; [|apply buffer_read_wp]. intros g d0 (t0 & Ht0 & ->).
  cbn [reading_upd waited taken playing stops app].
  case_decide as H0; [apply (Hdata (0 + t0) d0); [lia|done]|].
  subst d0. apply wp_bind. eapply wp_mono; [|apply read_first_wp].
  intros g d1 (t1 & Ht1 & ->). cbn [reading_upd waited taken playing stops app].
  case_decide as H1; [apply (Hdata (0 + t0 + t1) d1); [lia|done]|].
  subst d1. apply wp_bind, wp_neutral; [neutral_tac; by destruct blocking|]. intros block. apply wp_bind.
  apply wp_mono with (Q := fun g' d => takes 2000 (mkReading (0 + t0 + t1) [] false 0) g' d).
  2: { destruct block; [|by apply takes_nothing, time_zero].
       eapply wp_mono; [|apply read_blocking_wp; [by exists 0|lia]]. by intros g' d H. }
  intros g d2 (t2 & Ht2 & ->). cbn [reading_upd waited taken playing stops app].
  case_decide as H2; [apply (Hdata (0 + t0 + t1 + t2) d2); [lia|done]|].
  subst d2. unfold pnot, is_set. intros v _. cbn [mbind prog_bind bindp reading_upd waited taken playing stops mret prog_ret].
  assert (Hend : forall t b, 0 <= t <= 7000 -> 0 <= t <= 7000 /\ @nil Z = [] /\ (SWITCH_STATUS_FALSE = SUCCESS <-> @nil Z <> []) /\
    (SWITCH_STATUS_FALSE <> SUCCESS -> SWITCH_STATUS_FALSE = SWITCH_STATUS_FALSE) /\ (if b : bool then 1 else 0) = (if b then 1 else 0)).
  { intros t b Ht. do 2 (split; [done|]). by split. }
  destruct (bool_decide_reflect (v = 0)) as [Hv|Hv].
  - rewrite bool_decide_eq_false_2 by (by intros Hn). intros r1 _ r2 _ r3 _. apply (Hend _ true). cbn. lia.
  - rewrite bool_decide_eq_true_2 by done. apply (Hend _ false). cbn. lia.
Qed.

(** ** The playback events under every interleaving *)

(** What the thread of the WebSocket client executes, one callback after the other. *)
Inductive callback := Opened | Closed | Message (m : ws_message).

Fixpoint callbacks (pcm : bool) (l : list callback) : TM unit :=
  match l with
  | [] => mret tt
  | Opened :: l' => onopen ;; callbacks pcm l'
  | Closed :: l' => onclose ;; callbacks pcm l'
  | Message m :: l' => onmessage pcm m ;; callbacks pcm l'
  end.

(** The reads of the thread that plays the audio. *)
Fixpoint reads (l : list (bool * Z)) : TM unit :=
  match l with
  | [] => mret tt
  | (blocking, datalen) :: l' => aliyuntts_speech_read_tts blocking datalen ;; reads l'
  end.

(** The other threads of an instance: they mark a synthesis as completed, send
    the queued texts, and call the other functions of the interface. *)
Inductive other_thread : TM unit -> Prop :=
| completing n : other_thread (completion_thread n)
| processing_texts fuel voice task_uuid pcm : other_thread (processing_thread fuel voice task_uuid pcm ;; mret tt)
| closing ws : other_thread (aliyuntts_speech_close ws ;; mret tt)
| feeding voice task_uuid text : other_thread (aliyuntts_speech_feed_tts voice task_uuid text ;; mret tt)
| flushing : other_thread (aliyuntts_speech_flush_tts ;; mret tt)
| resuming data : other_thread (aliyuntts_resume data)
| both m n : other_thread m -> other_thread n -> other_thread (m ;; n).

(** An atomic first holds what [aliyuntts_speech_open] stored. *)
Definition initially (f : flag) : Z :=
  match f with synthesisCompleted | play_back_stopped => 1 | _ => 0 end.
Definition store_of (e : event tresp) : option (flag * Z) :=
  match e with Ev (store f v) _ => Some (f, v) | _ => None end.
Definition load_of (e : event tresp) : option (flag * Z) :=
  match e with Ev (load f) v => Some (f, v) | _ => None end.
Notation value := (value initially store_of).
Notation logged := (logged initially store_of load_of).

Definition fires (e : tts_event) (x : event tresp) : bool :=
  match e, x with
  | PLAYBACK_START, Ev (fire_event PLAYBACK_START) _ => true
  | PLAYBACK_STOP, Ev (fire_event PLAYBACK_STOP) _ => true
  | SPEECH_CLOSED, Ev (fire_event SPEECH_CLOSED) _ => true
  | _, _ => false
  end.
Definition stores (v : Z) (x : event tresp) : bool :=
  match x with Ev (store play_back_stopped w) _ => bool_decide (w = v) | _ => false end.

Notation count e tr := (Z.of_nat (count_events (fires e) tr)).
Notation stored_times v tr := (Z.of_nat (count_events (stores v) tr)).
Notation stopped tr := (value play_back_stopped tr).

(** The stores to [play_back_stopped] alternate. *)
Definition alternates (tr : list (event tresp)) : Prop :=
  (stopped tr = 0 \/ stopped tr = 1) /\ stored_times 0 tr - stored_times 1 tr = 1 - stopped tr.

(** What the reader, and what the callbacks, can rely on. *)
Definition tolerated_by_reader (tr tr' : list (event tresp)) : Prop :=
  count PLAYBACK_STOP tr' = count PLAYBACK_STOP tr /\ stored_times 1 tr' = stored_times 1 tr /\
  (alternates tr -> alternates tr' /\ (stopped tr = 0 -> stopped tr' = 0)).
Definition tolerated_by_callbacks (tr tr' : list (event tresp)) : Prop :=
  count PLAYBACK_START tr' = count PLAYBACK_START tr /\ stored_times 0 tr' = stored_times 0 tr /\
  (alternates tr -> alternates tr' /\ (stopped tr = 1 -> stopped tr' = 1)).

Definition quiet (c : tcall) : bool :=
  match c with
  | store play_back_stopped _ | fire_event PLAYBACK_START | fire_event PLAYBACK_STOP => false
  | _ => true
  end.

Lemma quiet_same tr c r : quiet c = true ->
  let tr' := tr ++ [Ev c r] in
  count PLAYBACK_START tr' = count PLAYBACK_START tr /\ count PLAYBACK_STOP tr' = count PLAYBACK_STOP tr /\
  stored_times 0 tr' = stored_times 0 tr /\ stored_times 1 tr' = stored_times 1 tr /\ stopped tr' = stopped tr.
Proof.
  intros Hc tr'. unfold tr'. rewrite !count_events_snoc, value_snoc.
  destruct c as [f|f v| | | | | | | | | | | | | | | | | |e| | | | | | | | | | | | | | | | | | | | | | | | |]; try done; [by destruct f | by destruct e].
Qed.

Lemma alternates_same tr tr' : stored_times 0 tr' = stored_times 0 tr -> stored_times 1 tr' = stored_times 1 tr ->
  stopped tr' = stopped tr -> alternates tr -> alternates tr'.
Proof. unfold alternates. intros -> -> ->. done. Qed.

Lemma quiet_tolerated tr c r tr' : logged tr c r tr' -> quiet c = true ->
  tolerated_by_reader tr tr' /\ tolerated_by_callbacks tr tr'.
Proof.
  intros [-> _] Hc. destruct (quiet_same tr c r Hc) as (H1 & H2 & H3 & H4 & H5).
  split; (split; [done|]; split; [done|]); intros Ha; (split; [by apply (alternates_same tr)|]); by rewrite H5.
Qed.

#[local] Instance reader_preorder : PreOrder tolerated_by_reader.
Proof.
  split; [by intros tr; split_and!|]. intros t1 t2 t3 (A1 & A2 & A3) (B1 & B2 & B3).
  split; [congruence|]. split; [congruence|]. intros Ha. destruct (A3 Ha) as [H2 Hs]. destruct (B3 H2). auto.
Qed.
#[local] Instance callbacks_preorder : PreOrder tolerated_by_callbacks.
Proof.
  split; [by intros tr; split_and!|]. intros t1 t2 t3 (A1 & A2 & A3) (B1 & B2 & B3).
  split; [congruence|]. split; [congruence|]. intros Ha. destruct (A3 Ha) as [H2 Hs]. destruct (B3 H2). auto.
Qed.

(** [k] events are still to be fired for the stores; none between two reads and
    between two callbacks. *)
Definition reader_owes (k : Z) (tr : list (event tresp)) : Prop :=
  alternates tr /\ count PLAYBACK_STOP tr + k = stored_times 1 tr.
Definition callbacks_owe (k : Z) (tr : list (event tresp)) : Prop :=
  alternates tr /\ count PLAYBACK_START tr + k = stored_times 0 tr.

Lemma reader_owes_stable k tr tr' : reader_owes k tr -> tolerated_by_reader tr tr' -> reader_owes k tr'.
Proof. intros [Ha Hc] (H1 & H2 & H3). split; [by apply H3|]. congruence. Qed.
Lemma callbacks_owe_stable k tr tr' : callbacks_owe k tr -> tolerated_by_callbacks tr tr' -> callbacks_owe k tr'.
Proof. intros [Ha Hc] (H1 & H2 & H3). split; [by apply H3|]. congruence. Qed.

Notation safe_reader := (safe logged tolerated_by_reader tolerated_by_callbacks).
Notation safe_callbacks := (safe logged tolerated_by_callbacks tolerated_by_reader).

Lemma reader_quiet {A} (m : TM A) k tr : only quiet m -> reader_owes k tr -> safe_reader m tr (fun tr' _ => reader_owes k tr').
Proof.
  intros Hm Hi. apply (safe_only logged quiet _ _ (reader_owes k)); [apply reader_owes_stable| |done|done].
  intros s c r s' Hs Hc Hl. destruct (quiet_tolerated _ _ _ _ Hl Hc) as [Hr Hb]. split; [done|]. by apply (reader_owes_stable k s).
Qed.
Lemma reader_then {A B} (m : TM A) (f : A -> TM B) k tr Q : only quiet m -> reader_owes k tr ->
  (forall s a, reader_owes k s -> safe_reader (f a) s Q) -> safe_reader (m ≫= f) tr Q.
Proof. intros Hm Hi Hf. apply safe_bind; [exact _|]. eapply safe_mono; [|by apply (reader_quiet m k)]. exact Hf. Qed.
Lemma callbacks_quiet {A} (m : TM A) k tr : only quiet m -> callbacks_owe k tr -> safe_callbacks m tr (fun tr' _ => callbacks_owe k tr').
Proof.
  intros Hm Hi. apply (safe_only logged quiet _ _ (callbacks_owe k)); [apply callbacks_owe_stable| |done|done].
  intros s c r s' Hs Hc Hl. destruct (quiet_tolerated _ _ _ _ Hl Hc) as [Hr Hb]. split; [done|]. by apply (callbacks_owe_stable k s).
Qed.
Lemma callbacks_then {A B} (m : TM A) (f : A -> TM B) k tr Q : only quiet m -> callbacks_owe k tr ->
  (forall s a, callbacks_owe k s -> safe_callbacks (f a) s Q) -> safe_callbacks (m ≫= f) tr Q.
Proof. intros Hm Hi Hf. apply safe_bind; [exact _|]. eapply safe_mono; [|by apply (callbacks_quiet m k)]. exact Hf. Qed.

Lemma read_wait_first_quiet n : only quiet (read_wait_first n).
Proof. induction n as [|n IH]; cbn [read_wait_first]; [done|]. unfold is_set, por, pnot. only_tac. Qed.
Lemma read_blocking_quiet fuel n : forall w, only quiet (read_blocking fuel n w).
Proof. induction fuel as [|fuel IH]; intros w; cbn [read_blocking]; [done|]. unfold por, is_set. only_tac. Qed.
Lemma wait_audio_quiet n : only quiet (wait_audio n).
Proof. induction n as [|n IH]; cbn [wait_audio]; [done|]. unfold is_set. only_tac. Qed.
Lemma close_wait_quiet n : forall b, only quiet (close_wait n b).
Proof. induction n as [|n IH]; intros b; cbn [close_wait]; [done|]. unfold is_set. only_tac. Qed.
Lemma send_quiet voice task_uuid text : only quiet (send_tts_request voice task_uuid text).
Proof. unfold send_tts_request, genUUID, is_set. only_tac. Qed.
Lemma process_loop_quiet fuel voice task_uuid : forall p, only quiet (process_loop fuel voice task_uuid p).
Proof.
  induction fuel as [|fuel IH]; intros p; cbn [process_loop]; [done|].
  pose proof (fun text => send_quiet voice task_uuid text) as Hs. pose proof (wait_audio_quiet 10) as Hw.
  unfold process_completed, process_waiting, is_set, pand, pnot. only_tac.
Qed.

Lemma other_quiet m : other_thread m -> only quiet m.
Proof.
  intros Hm. pose proof send_quiet. pose proof process_loop_quiet. pose proof wait_audio_quiet. pose proof close_wait_quiet.
  induction Hm; unfold completion_thread, processing_thread, destroy, when, aliyuntts_speech_close, aliyuntts_speech_feed_tts,
    aliyuntts_speech_flush_tts, aliyuntts_resume, push_text, is_set, pand, pnot; only_tac.
Qed.

(** The events that are not quiet. *)
Lemma store_0_counts tr u : let tr' := tr ++ [@Ev _ tresp (store play_back_stopped 0) u] in
  count PLAYBACK_START tr' = count PLAYBACK_START tr /\ count PLAYBACK_STOP tr' = count PLAYBACK_STOP tr /\
  stored_times 0 tr' = stored_times 0 tr + 1 /\ stored_times 1 tr' = stored_times 1 tr /\ stopped tr' = 0.
Proof. intros tr'. unfold tr'. rewrite !count_events_snoc, value_snoc. cbn. split_and!; try done. rewrite bool_decide_true by done. lia. Qed.
Lemma store_1_counts tr u : let tr' := tr ++ [@Ev _ tresp (store play_back_stopped 1) u] in
  count PLAYBACK_START tr' = count PLAYBACK_START tr /\ count PLAYBACK_STOP tr' = count PLAYBACK_STOP tr /\
  stored_times 1 tr' = stored_times 1 tr + 1 /\ stored_times 0 tr' = stored_times 0 tr /\ stopped tr' = 1.
Proof. intros tr'. unfold tr'. rewrite !count_events_snoc, value_snoc. cbn. split_and!; try done. rewrite bool_decide_true by done. lia. Qed.
Lemma fire_START_counts tr r : let tr' := tr ++ [@Ev _ tresp (fire_event PLAYBACK_START) r] in
  count PLAYBACK_START tr' = count PLAYBACK_START tr + 1 /\ count PLAYBACK_STOP tr' = count PLAYBACK_STOP tr /\
  stored_times 0 tr' = stored_times 0 tr /\ stored_times 1 tr' = stored_times 1 tr /\ stopped tr' = stopped tr.
Proof. intros tr'. unfold tr'. rewrite !count_events_snoc, value_snoc. cbn. split_and!; try done; lia. Qed.
Lemma fire_STOP_counts tr r : let tr' := tr ++ [@Ev _ tresp (fire_event PLAYBACK_STOP) r] in
  count PLAYBACK_STOP tr' = count PLAYBACK_STOP tr + 1 /\ count PLAYBACK_START tr' = count PLAYBACK_START tr /\
  stored_times 0 tr' = stored_times 0 tr /\ stored_times 1 tr' = stored_times 1 tr /\ stopped tr' = stopped tr.
Proof. intros tr'. unfold tr'. rewrite !count_events_snoc, value_snoc. cbn. split_and!; try done; lia. Qed.

Lemma reader_stop tr : reader_owes 0 tr ->
  safe_reader (playing ← pnot (is_set play_back_stopped);
    if playing : bool then
      invoke (store play_back_stopped 1) ;; invoke (store audio_data_available 0) ;;
      invoke (fire_event PLAYBACK_STOP) ;; mret tt
    else mret tt) tr (fun tr' _ => reader_owes 0 tr').
Proof.
  intros H0 s1 R1 v s2 L2. cbn [mbind prog_bind bindp mret prog_ret].
  apply (reader_owes_stable _ _ _ H0) in R1 as H1. clear H0 R1 tr.
  destruct (quiet_tolerated _ _ _ _ L2 eq_refl) as [T1 T2]. split; [done|].
  apply (reader_owes_stable _ _ _ H1) in T1. destruct L2 as [-> Hv].
  destruct (quiet_same s1 (load play_back_stopped) v eq_refl) as (_ & _ & _ & _ & Hp). change (v = stopped s1) in Hv. rewrite <- Hp in Hv.
  set (tr := s1 ++ _) in *. clearbody tr. clear s1 T2 Hp H1. rename T1 into Hi. subst v.
  destruct (bool_decide_reflect (stopped tr <> 0)) as [Hn|Hz].
  { intros s Hs. by apply (reader_owes_stable _ tr). }
  intros s1 R1 u s2 L2. destruct L2 as [-> _]. apply (reader_owes_stable _ _ _ Hi) in R1 as H1.
  assert (Hz1 : stopped s1 = 0) by (apply (proj2 (proj2 R1)); [apply Hi | by destruct (decide (stopped tr = 0))]).
  destruct (store_1_counts s1 u) as (C1 & C2 & C4 & C3 & C5).
  set (s2 := s1 ++ _) in *. clearbody s2. destruct H1 as [[_ Ha] Hc].
  assert (Ha2 : alternates s2) by (split; [by right|]; lia). split; [by split_and!|].
  apply safe_bind; [exact _|]. eapply safe_mono; [|apply (reader_quiet (invoke (store audio_data_available 0)) 1); [done|split; [done|lia]]].
  intros s3 a H3 s4 R4 r s5 L5. destruct L5 as [-> _]. apply (reader_owes_stable _ _ _ H3) in R4 as [Ha4 Hc4].
  destruct (fire_STOP_counts s4 r) as (D2 & D1 & D3 & D4 & D5).
  set (s5 := s4 ++ _) in *. clearbody s5. assert (Ha5 : alternates s5) by by apply (alternates_same s4).
  split; [split_and!; [lia|done|]; intros _; split; [done|by rewrite D5]|].
  intros s6 R6. apply (reader_owes_stable _ s5); [|done]. split; [done|lia].
Qed.

Lemma callbacks_start tr : callbacks_owe 0 tr ->
  safe_callbacks (stopped ← is_set play_back_stopped;
    if stopped : bool then
      invoke (store play_back_stopped 0) ;; invoke (fire_event PLAYBACK_START) ;; mret tt
    else mret tt) tr (fun tr' _ => callbacks_owe 0 tr').
Proof.
  intros H0 s1 R1 v s2 L2. cbn [mbind prog_bind bindp mret prog_ret].
  apply (callbacks_owe_stable _ _ _ H0) in R1 as H1. clear H0 R1 tr.
  destruct (quiet_tolerated _ _ _ _ L2 eq_refl) as [T1 T2]. split; [done|].
  apply (callbacks_owe_stable _ _ _ H1) in T2. destruct L2 as [-> Hv].
  destruct (quiet_same s1 (load play_back_stopped) v eq_refl) as (_ & _ & _ & _ & Hp).
  change (v = stopped s1) in Hv. rewrite <- Hp in Hv.
  set (tr := s1 ++ _) in *. clearbody tr. clear s1 T1 Hp H1. rename T2 into Hi. subst v.
  destruct (bool_decide_reflect (stopped tr <> 0)) as [Hn|Hz].
  2: { intros s Hs. by apply (callbacks_owe_stable _ tr). }
  intros s1 R1 u s2 L2. destruct L2 as [-> _]. apply (callbacks_owe_stable _ _ _ Hi) in R1 as H1.
  assert (Hz1 : stopped s1 = 1) by (apply (proj2 (proj2 R1)); [apply Hi | by destruct Hi as [[[?|?] _] _]]).
  destruct (store_0_counts s1 u) as (C1 & C2 & C4 & C3 & C5).
  set (s2 := s1 ++ _) in *. clearbody s2. destruct H1 as [[_ Ha] Hc].
  assert (Ha2 : alternates s2) by (split; [by left|]; lia). split; [by split_and!|].
  intros s4 R4 r s5 L5. destruct L5 as [-> _].
  assert (H3 : callbacks_owe 1 s2) by (split; [done|lia]).
  apply (callbacks_owe_stable _ _ _ H3) in R4 as [Ha4 Hc4].
  destruct (fire_START_counts s4 r) as (D1 & D2 & D3 & D4 & D5).
  set (s5 := s4 ++ _) in *. clearbody s5. assert (Ha5 : alternates s5) by by apply (alternates_same s4).
  split; [split_and!; [lia|done|]; intros _; split; [done|by rewrite D5]|].
  intros s6 R6. apply (callbacks_owe_stable _ s5); [|done]. split; [done|lia].
Qed.

Lemma reads_safe l : forall tr, reader_owes 0 tr -> safe_reader (reads l) tr (fun tr' _ => reader_owes 0 tr').
Proof.
  induction l as [|[blocking datalen] l IH]; intros tr Htr; cbn [reads].
  { apply safe_ret. intros s. by apply reader_owes_stable. }
  apply safe_bind; [exact _|]. eapply safe_mono; [intros s a; apply IH|].
  unfold aliyuntts_speech_read_tts.
  assert (Hq : forall d : option (switch_status_t * list Z), forall s, reader_owes 0 s ->
    safe_reader (mret d : TM _) s (fun tr' _ => reader_owes 0 tr')) by (intros d s; by apply reader_quiet).
  eapply reader_then; [done|exact Htr|]. intros s1 [|] H1; [|by apply Hq]. cbn [negb].
  eapply reader_then; [done|exact H1|]. intros s2 d2 H2. case_decide; [by apply Hq|].
  eapply reader_then; [|exact H2|].
  { pose proof read_wait_first_quiet. unfold read_first, tts_active, pand, pnot, is_set. only_tac. }
  intros s3 d3 H3. case_decide; [by apply Hq|].
  eapply reader_then; [unfold por, pand, is_set; only_tac|exact H3|]. intros s4 block H4.
  eapply reader_then; [pose proof read_blocking_quiet; destruct block; only_tac|exact H4|].
  intros s5 d5 H5. case_decide; [by apply Hq|].
  apply safe_assoc, safe_bind; [exact _|]. eapply safe_mono; [|by apply reader_stop]. intros s6 a. apply Hq.
Qed.

Lemma callbacks_safe pcm l : forall tr, callbacks_owe 0 tr ->
  safe_callbacks (callbacks pcm l) tr (fun tr' _ => callbacks_owe 0 tr').
Proof.
  induction l as [|x l IH]; intros tr Htr; cbn [callbacks].
  { apply safe_ret. intros s. by apply callbacks_owe_stable. }
  destruct x as [| |m]; (apply safe_bind; [exact _|]; eapply safe_mono; [intros s a; apply IH|]);
    [apply callbacks_quiet; [|done]; unfold onopen, finish_connect, is_set; only_tac
    |apply callbacks_quiet; [|done]; unfold onclose, finish_connect, pand, pnot, is_set; only_tac|].
  destruct m as [doc|data|]; cbn [onmessage];
    [apply callbacks_quiet; [|done]; unfold on_text; only_tac| |by apply callbacks_quiet].
  unfold on_binary. do 7 (eapply callbacks_then; [|eassumption|intros ? ? ?]; [unfold is_set; only_tac|]).
  apply safe_assoc, safe_bind; [exact _|]. eapply safe_mono; [|by apply callbacks_start]. intros s6 [] H6.
  apply callbacks_quiet; [|done]. only_tac.
Qed.

(** What thread [i] relies on, what it guarantees, and what holds at its end:
    the callbacks are thread 0, the reads thread 1. *)
Definition relies (i : nat) (tr tr' : list (event tresp)) : Prop :=
  match i with 0%nat => tolerated_by_callbacks tr tr' | 1%nat => tolerated_by_reader tr tr' | _ => True end.
Definition guarantees (i : nat) (tr tr' : list (event tresp)) : Prop :=
  match i with
  | 0%nat => tolerated_by_reader tr tr'
  | 1%nat => tolerated_by_callbacks tr tr'
  | _ => tolerated_by_reader tr tr' /\ tolerated_by_callbacks tr tr'
  end.
Definition finally (i : nat) (tr : list (event tresp)) (_ : unit) : Prop :=
  match i with 0%nat => callbacks_owe 0 tr | 1%nat => reader_owes 0 tr | _ => True end.

Lemma relies_preorder i : PreOrder (relies i).
Proof. destruct i as [|[|i]]; [apply callbacks_preorder | apply reader_preorder | by split]. Qed.

Lemma relies_guaranteed i j tr tr' : i <> j -> guarantees i tr tr' -> relies j tr tr'.
Proof. intros Hij. destruct i as [|[|i]], j as [|[|j]]; try done; cbn; tauto. Qed.

Lemma instance_safe pcm cbs rds others : Forall other_thread others ->
  pool_safe logged relies guarantees finally ([], callbacks pcm cbs :: reads rds :: others).
Proof.
  intros Ho [|[|i]] m Hi; cbn in Hi.
  - injection Hi as <-. apply callbacks_safe. split; [split; [by right|done]|done].
  - injection Hi as <-. apply reads_safe. split; [split; [by right|done]|done].
  - assert (Hm : only quiet m) by (apply other_quiet; rewrite Forall_lookup in Ho; by eapply Ho).
    apply (safe_only logged quiet (relies (S (S i))) (guarantees (S (S i))) (fun _ => True)); [done| |done|done].
    intros s c r s' _ Hc Hl. split; [|done]. by eapply quiet_tolerated.
Qed.

(** [C6] Whatever the interleaving of the callbacks, the reads and any other
    threads of the instance, with every single access to an atomic a step of its
    own: when the callbacks and the reads have returned, PLAYBACK_START was fired
    once more than PLAYBACK_STOP if the playback is running, and as often if it is
    stopped (an event that could not be created counts as fired). *)
Theorem playback_events_paired pcm cbs rds others tr ts :
  Forall other_thread others ->
  rtc (pool_step logged) ([], callbacks pcm cbs :: reads rds :: others) (tr, ts) ->
  ts !! 0%nat = Some (Ret tt) -> ts !! 1%nat = Some (Ret tt) ->
  (stopped tr = 0 \/ stopped tr = 1) /\ count PLAYBACK_START tr - count PLAYBACK_STOP tr = 1 - stopped tr.
Proof.
  intros Ho Hr H0 H1. pose proof (instance_safe pcm cbs rds _ Ho) as Hs.
  destruct (pool_done logged _ _ _ relies_preorder relies_guaranteed _ _ _ _ Hs Hr H0) as [[Hz Ha] Hc].
  destruct (pool_done logged _ _ _ relies_preorder relies_guaranteed _ _ _ _ Hs Hr H1) as [_ Hc1].
  split; [done|]. lia.
Qed.

(** ** Opening *)

(** What is held, by kind; whether the channel refers to the instance; and
    whether the buffer, and the queue, could be made. *)
Record ledger := mkLedger {
  pools : Z; syncs : Z; buffers : Z; queues : Z; clients : Z; files : Z; threads : Z;
  registered : bool; buffer_failed : bool; queue_made : bool;
}.

Definition ledger_upd (g : ledger) (e : event tresp) : ledger :=
  let '(mkLedger p s b q c f t r bf qm) := g in
  match e with
  | Ev pool_new st => mkLedger (if decide (st = SUCCESS) then p + 1 else p) s b q c f t r bf qm
  | Ev pool_destroy _ => mkLedger (p - 1) s b q c f t r bf qm
  | Ev sync_new _ => mkLedger p (s + 1) b q c f t r bf qm
  | Ev sync_delete _ => mkLedger p (s - 1) b q c f t r bf qm
  | Ev buffer_create st =>
      if decide (st = SUCCESS) then mkLedger p s (b + 1) q c f t r bf qm else mkLedger p s b q c f t r true qm
  | Ev buffer_destroy _ => mkLedger p s (b - 1) q c f t r bf qm
  | Ev queue_create st =>
      if decide (st = SUCCESS) then mkLedger p s b (q + 1) c f t r bf true else mkLedger p s b q c f t r bf qm
  | Ev queue_term _ => mkLedger p s b (q - 1) c f t r bf qm
  | Ev ws_new _ => mkLedger p s b q (c + 1) f t r bf qm
  | Ev ws_reset _ => mkLedger p s b q (c - 1) f t r bf qm
  | Ev pcm_open ok => mkLedger p s b q c (if ok : bool then f + 1 else f) t r bf qm
  | Ev pcm_close _ => mkLedger p s b q c (f - 1) t r bf qm
  | Ev spawn_processing _ => mkLedger p s b q c f (t + 1) r bf qm
  | Ev set_private _ => mkLedger p s b q c f t true bf qm
  | _ => g
  end.

Definition nothing_held : ledger := mkLedger 0 0 0 0 0 0 0 false false false.

Notation wpl := (wp any_answer ledger_upd).

Lemma getToken_ledger : neutral ledger_upd getToken.
Proof.
  unfold getToken. repeat first [case_decide | apply neutral_ret | apply (neutral_invoke _ token_apply); by intros [] | apply neutral_invoke; by intros []
    | apply neutral_bind; [|intros [[? ?]|]] | apply neutral_bind; [|intros ?]].
Qed.

Lemma connect_ws_ledger p s b q r bf qm : wpl connect_ws (mkLedger p s b q 0 0 0 r bf qm) (fun g a =>
  let '(connected, _, ws, pcm) := a in
  g = mkLedger p s b q (if ws : bool then 1 else 0) (if pcm : bool then 1 else 0) 0 r bf qm /\ (connected = true -> ws = true)).
Proof.
  unfold connect_ws. apply wp_bind, wp_neutral; [apply getToken_ledger|]. intros token. case_decide; [done|].
  intros uuid _. cbn [mbind prog_bind bindp]. destruct (write_pcm_enable cfg).
  - intros [|] _ r1 _ r2 _ r3 _ r4 _ r5 _ r6 _ r7 _; by cbn.
  - intros r1 _ r2 _ r3 _ r4 _ r5 _ r6 _ r7 _. by cbn.
Qed.

(** [C34] [aliyuntts_speech_open] fails without keeping anything, but for the
    memory pool when the buffer cannot be made ([destroy] only knows the pool from
    [pvt->pool], which is set later), and but for the channel, which still refers
    to the destroyed instance when the connection fails.  When it succeeds it
    holds one of everything. *)
Theorem speech_open_releases tr st :
  exec aliyuntts_speech_open tr st ->
  let g := ghost ledger_upd nothing_held tr in
  (st = SUCCESS /\ exists f, (f = 0 \/ f = 1) /\ g = mkLedger 1 1 1 1 1 f 1 true false true) \/
  (st = SWITCH_STATUS_FALSE /\
   g = mkLedger (if buffer_failed g then 1 else 0) 0 0 0 0 0 0 (queue_made g) (buffer_failed g) (queue_made g)).
Proof.
  intros Hex. refine (wp_any ledger_upd _ nothing_held (fun g st =>
    (st = SUCCESS /\ exists f, (f = 0 \/ f = 1) /\ g = mkLedger 1 1 1 1 1 f 1 true false true) \/
    (st = SWITCH_STATUS_FALSE /\
     g = mkLedger (if buffer_failed g then 1 else 0) 0 0 0 0 0 0 (queue_made g) (buffer_failed g) (queue_made g))) tr st _ Hex).
  clear. unfold aliyuntts_speech_open, nothing_held. intros st _. cbn [mbind prog_bind bindp ledger_upd].
  case_decide as Hst; [rewrite decide_False by done; by right|]. rewrite decide_True by done. clear st Hst.
  intros [|] _; cbn [negb mbind prog_bind bindp ledger_upd]; [|intros ? _; by right].
  do 12 (intros ? _; cbn [mbind prog_bind bindp ledger_upd]).
  intros st _. cbn [mbind prog_bind bindp ledger_upd]. case_decide as Hst.
  { rewrite decide_False by done. intros ? _. by right. }
  rewrite decide_True by done. clear st Hst. intros st _. cbn [mbind prog_bind bindp ledger_upd]. case_decide as Hst.
  { rewrite decide_False by done. intros ? _ ? _ ? _. by right. }
  rewrite decide_True by done. clear st Hst. intros ? _. cbn [mbind prog_bind bindp ledger_upd].
  apply wp_bind. eapply wp_mono; [|apply connect_ws_ledger]. intros g [[[[|] uuid] ws] pcm] [-> Hws]; cbn [negb].
  - rewrite Hws by done. intros ? _. left. split; [done|]. exists (if pcm then 1 else 0). split; [by destruct pcm; [right|left]|done].
  - destruct ws, pcm; cbn; repeat intros ? _; by right.
Qed.
End AliyunTts.

Notation value := (value initially store_of).
Notation logged := (logged initially store_of load_of).

(** ** Concrete runs

    The other parts of an instance by what was done to them: a buffer, a queue,
    mutexes, a server that accepts everything and a clock that stands still. *)

Definition buffered (tr : list (event tresp)) : list Z :=
  fold_left (fun b e => match e with
    | Ev (buffer_write d) _ => b ++ d
    | Ev (buffer_read n) d => drop (length d) b
    | Ev buffer_zero _ => []
    | _ => b
    end) tr [].
Definition queued (tr : list (event tresp)) : list string :=
  fold_left (fun q e => match e with
    | Ev (queue_push t) SUCCESS => q ++ [t]
    | Ev queue_trypop (Some _) => tail q
    | _ => q
    end) tr [].
Definition held (m : sync) (tr : list (event tresp)) : bool :=
  fold_left (fun b e => match m, e with
    | main_sync, Ev (lock main_sync) _ | close_sync, Ev (lock close_sync) _ => true
    | main_sync, Ev (unlock main_sync) _ | close_sync, Ev (unlock close_sync) _ => false
    | _, _ => b
    end) tr false.

Definition answer (tr : list (event tresp)) (c : tcall) : tresp c :=
  match c with
  | load f => value f tr
  | buffer_inuse => Z.of_nat (length (buffered tr))
  | buffer_read n => take (Z.to_nat n) (buffered tr)
  | queue_size => Z.of_nat (length (queued tr))
  | queue_trypop => head (queued tr)
  | queue_push _ | pool_new | buffer_create | queue_create => SUCCESS
  | time_ms | time_s => 7200
  | get_token_expire => 0
  | ws_send _ | get_private | fire_event _ | pool_alloc | pcm_open => true
  | gen_uuid => "12-34"
  | get_token => "token"
  | token_apply => Some ("token", 90000)
  | _ => tt
  end.

Definition sequentially {A} (tr : list (event tresp)) (m : TM A) :=
  run (fun tr c => (answer tr c, tr ++ [Ev c (answer tr c)])) tr m.

(** One step of a thread; [wait_for] is not scheduled. *)
Definition step1 (tr : list (event tresp)) (c : tcall) : option (tresp c * list (event tresp)) :=
  match c with
  | lock m => if held m tr then None else Some (answer tr c, tr ++ [Ev c (answer tr c)])
  | wait_for _ _ => None
  | _ => Some (answer tr c, tr ++ [Ev c (answer tr c)])
  end.

Lemma tts_step_logged tr c r tr' : step1 tr c = Some (r, tr') -> logged tr c r tr'.
Proof.
  intros H. assert (H' : Some (answer tr c, tr ++ [Ev c (answer tr c)]) = Some (r, tr')).
  { rewrite <- H. destruct c; try done. cbn in *. by destruct (held m tr). }
  injection H' as <- <-. split; [done|]. by destruct c.
Qed.

Definition demo : tts_config := mkTtsConfig "wss://tts" "key" 8000 50 false 3000.
Definition connected : list (event tresp) := [Ev (store ws_connected 1) tt].

Definition events_of (tr : list (event tresp)) : list tts_event :=
  omap (fun e => match e with Ev (fire_event x) _ => Some x | _ => None end) tr.
Definition texts_sent (tr : list (event tresp)) : list string :=
  omap (fun e => match e with Ev (ws_send j) _ => request_text j | _ => None end) tr.
Definition writes_of (tr : list (event tresp)) : list (list Z) :=
  omap (fun e => match e with Ev (buffer_write d) _ => Some d | _ => None end) tr.

Lemma processing_fifo_witness :
  let w := sequentially (connected ++ [Ev (queue_push "hello") SUCCESS]) (process_loop demo 3 "v" "id" (mkProcessing false None)) in
  sent (ghost texts_upd (mkTexts false [] []) w.2) = ["hello"] /\
  exists lost, popped (ghost texts_upd (mkTexts false [] []) w.2) =
    sent (ghost texts_upd (mkTexts false [] []) w.2) ++ option_list (pending_text w.1.1.2) ++ lost /\
    (length lost <= 1)%nat /\ (seen_closed (ghost texts_upd (mkTexts false [] []) w.2) = false -> lost = []).
Proof.
  intros w. split; [by vm_compute|]. apply (processing_fifo demo 3 "v" "id" w.2 w.1.1.1).
  - assert (E : w.1.1 = (w.1.1.1, w.1.1.2)) by by destruct w as [[[? ?] ?] ?]. rewrite <- E. apply run_exec.
  - vm_compute. by repeat split.
Defined.

(** A read of the audio that is there, and one that ends the playback. *)
Lemma read_tts_outcome_witness :
  let running := [Ev (store play_back_stopped 0) tt] : list (event tresp) in
  let w := sequentially (running ++ [Ev (buffer_write [1; 2; 3]) tt]) (aliyuntts_speech_read_tts false 2) in
  let w' := sequentially running (aliyuntts_speech_read_tts false 2) in
  w.1.1 = Some (SUCCESS, [1; 2]) /\ w'.1.1 = Some (SWITCH_STATUS_FALSE, []) /\
  taken (ghost reading_upd (mkReading 0 [] false 0) w.2) = [1; 2] /\
  stops (ghost reading_upd (mkReading 0 [] false 0) w'.2) = 1.
Proof.
  intros running w w'. assert (E : w.1.1 = Some (SUCCESS, [1; 2])) by by vm_compute.
  assert (E' : w'.1.1 = Some (SWITCH_STATUS_FALSE, [])) by by vm_compute.
  assert (H : exec (aliyuntts_speech_read_tts false 2) w.2 (Some (SUCCESS, [1; 2]))) by (rewrite <- E; apply run_exec).
  assert (H' : exec (aliyuntts_speech_read_tts false 2) w'.2 (Some (SWITCH_STATUS_FALSE, []))) by (rewrite <- E'; apply run_exec).
  split; [exact E|]. split; [exact E'|].
  split; [by apply (read_tts_outcome _ _ _ _ _ H)|].
  destruct (read_tts_outcome _ _ _ _ _ H') as (_ & _ & _ & _ & ->). by vm_compute.
Defined.

Lemma speech_open_releases_witness :
  let w := sequentially [Ev (store ws_connected 0) tt] (aliyuntts_speech_open demo) in
  w.1.1 = SWITCH_STATUS_FALSE /\ queue_made (ghost ledger_upd nothing_held w.2) = true /\
  (SWITCH_STATUS_FALSE = SUCCESS /\ (exists f, (f = 0 \/ f = 1) /\
     ghost ledger_upd nothing_held w.2 = mkLedger 1 1 1 1 1 f 1 true false true) \/
   SWITCH_STATUS_FALSE = SWITCH_STATUS_FALSE /\
     ghost ledger_upd nothing_held w.2 =
     mkLedger (if buffer_failed (ghost ledger_upd nothing_held w.2) then 1 else 0) 0 0 0 0 0 0
       (queue_made (ghost ledger_upd nothing_held w.2)) (buffer_failed (ghost ledger_upd nothing_held w.2))
       (queue_made (ghost ledger_upd nothing_held w.2))).
Proof.
  intros w. assert (E : w.1.1 = SWITCH_STATUS_FALSE) by by vm_compute. split; [exact E|]. split; [by vm_compute|].
  apply (speech_open_releases demo w.2 SWITCH_STATUS_FALSE). rewrite <- E. apply run_exec.
Defined.

(** The first packet arrives while an empty read ends: the reader sees the
    playback running between the store of the callback and its event, so that
    PLAYBACK_STOP is fired before PLAYBACK_START. *)
Definition race : list nat := (repeat 0 11 ++ repeat 1 7 ++ repeat 0 1)%nat%list.
Definition race_pool : list (TM unit) :=
  [callbacks false [Message (BinaryMessage [1])]; reads [(false, 320)]].

Definition race_end : list (event tresp) :=
  match play step1 race ([], race_pool) with Some (tr, _) => tr | None => [] end.

Example stop_before_start : events_of race_end = [PLAYBACK_STOP; PLAYBACK_START].
Proof. vm_compute. reflexivity. Qed.

Lemma playback_events_paired_witness :
  events_of race_end = [PLAYBACK_STOP; PLAYBACK_START] /\
  (value play_back_stopped race_end = 0 \/ value play_back_stopped race_end = 1) /\
  Z.of_nat (count_events (fires PLAYBACK_START) race_end) - Z.of_nat (count_events (fires PLAYBACK_STOP) race_end)
    = 1 - value play_back_stopped race_end.
Proof.
  split; [by vm_compute|].
  apply (playback_events_paired demo false [Message (BinaryMessage [1])] [(false, 320)] [] race_end [Ret tt; Ret tt]);
    [done | | done | done].
  apply (play_reachable logged step1 race); [apply tts_step_logged | by vm_compute].
Defined.

(** A text that is fed while the processing thread has just found that no
    request is under way: both are sent, although the server answers one request
    at a time and [tts_in_progress] is tested for that. *)
Definition two_senders : list (TM unit) :=
  [(processing_thread demo 1 "v" "id" false ;; mret tt); (aliyuntts_speech_feed_tts demo "v" "id" "fed" ;; mret tt)].
Definition both_check : list nat := (repeat 0 8 ++ repeat 1 13 ++ repeat 0 7)%nat%list.

Example two_requests_in_flight :
  match play step1 both_check (connected ++ [Ev (queue_push "queued") SUCCESS], two_senders) with
  | Some (tr, _) => texts_sent tr = ["fed"; "queued"] /\ value tts_in_progress tr = 1
  | None => False
  end.
Proof. vm_compute. by split. Qed.

(** A reader that empties the buffer while the text is still spoken resets
    [audio_data_available], and the next packet is dropped as the header of a new
    request, though it is audio. *)
Example underrun_drops_audio :
  let w := sequentially connected
    (callbacks false [Message (BinaryMessage [0]); Message (BinaryMessage [1; 2])] ;;
     reads [(false, 320); (false, 320)] ;;
     callbacks false [Message (BinaryMessage [3; 4]); Message (BinaryMessage [5; 6])]) in
  writes_of w.2 = [[1; 2]; [5; 6]].
Proof. by vm_compute. Qed.
