(* ===== verification/FunAsr.v ===== *)
(** * The ASR module: [src/mod/asr_tts/mod_funasr/mod_funasr.cpp]

    An instance ([switch_da_t]) is shared by the media thread of the call (the
    callback of the media bug and the applications), the thread that sends the
    audio to the server, and the thread of its WebSocket client.  Every access to
    a shared field and every call of another component is a call of the signature
    [fcall].  Log output is left out. *)

From Stdlib Require Import Ascii String.
From stdpp Require Import pretty.
From S2P Require Import Prelude Interaction SwitchCore Threads.

#[local] Open Scope string_scope.
#[local] Open Scope list_scope.
#[local] Open Scope Z_scope.

(** ** Data *)

(** The shared variables: fields of [switch_da_t], and the locals [connected]
    and [closed] that the sending thread shares with its callbacks. *)
Inductive var := hangup | ws_connected | ws_closed | paused | ws_conn_retry | connected | closed.
#[export] Instance var_eq : EqDecision var.
Proof. solve_decision. Defined.

Record funasr_config := mkFunasrConfig {
  server_url : option string;
  ws_conn_timeout_ms : Z;
  sample_rate : Z;
  asr_mode : string;
  log_asr_response : Z;
  parse_json : Z;
  write_pcm_enable : Z;
  ws_conn_retry_max : Z;
}.

(** The mutex and condition variable of the connection, and of its end. *)
Inductive sync := open_sync | close_sync.

Definition fields : Type := list (string * string).

Inductive fcall :=
(* the instance *)
| load (v : var)
| store (v : var) (x : Z)
| has_pool
| mutex_lock
| mutex_unlock
| cond_wait
| cond_signal
| queue_read (n : Z)
| queue_write (data : list Z)
| queue_signal
| queue_clear
| queue_destroy
| mutex_destroy
| cond_destroy
| pool_destroy
(* the WebSocket client *)
| ws_new
| ws_open (url : string) (timeout : Z)
| ws_send_text (s : string)
| ws_send_audio (data : list Z)
| ws_close
| ws_delete
| local_lock (m : sync)
| local_unlock (m : sync)
| local_notify (m : sync)
| local_wait (m : sync) (ms : Z)
(* audio, files, time and threads *)
| resample_create
| resample_process (data : list Z)
| resample_destroy
| pcm_open
| pcm_write (data : list Z)
| pcm_close
| sleep_ms (ms : Z)
| time_ms
| thread_create
(* the core *)
| event_create
| event_fire (f : fields)
| bug_read
| pool_new
| pool_alloc
| mutex_init
| queue_create
| cond_create
| set_private (set : bool)
| get_private
| bug_add
| bug_remove
| separate_string (s : string).

(** [queue_read] answers the bytes of the frame, [bug_read] the frame if there
    is one, [resample_process] the bytes of the converted frame. *)
Definition fresp (c : fcall) : Type :=
  match c with
  | load _ | time_ms => Z
  | has_pool | pcm_open | event_create | pool_alloc | get_private => bool
  | queue_read _ | resample_process _ => list Z
  | resample_create | thread_create | pool_new | mutex_init | queue_create | cond_create | bug_add => switch_status_t
  | bug_read => option (list Z)
  | separate_string _ => list string
  | _ => unit
  end%type.

Notation FM A := (prog fresp A).

Definition is_set (v : var) : FM bool := x ← invoke (load v); mret (bool_decide (x <> 0)).

(** [std::string(s.c_str())]: up to the first NUL. *)
Fixpoint c_str (s : string) : string :=
  match s with
  | EmptyString => EmptyString
  | String c s' => if decide (c = "000"%char) then EmptyString else String c (c_str s')
  end.

(** ** The configuration *)

(** The values of [funasr_load_config] before the file is read. *)
Definition config_defaults : funasr_config := mkFunasrConfig None 9000 16000 "online" 1 1 0 1.

Definition config_param (c : funasr_config) (p : string * string) : funasr_config :=
  let '(mkFunasrConfig url timeout rate mode log json pcm retry) := c in
  let '(name, val) := p in
  if strcaseeq name "server_url" then mkFunasrConfig (Some val) timeout rate mode log json pcm retry
  else if strcaseeq name "asr_mode" then mkFunasrConfig url timeout rate val log json pcm retry
  else if strcaseeq name "ws_conn_timeout_ms" then mkFunasrConfig url (atoi val) rate mode log json pcm retry
  else if strcaseeq name "sample_rate" then mkFunasrConfig url timeout (atoi val) mode log json pcm retry
  else if strcaseeq name "log_asr_response" then mkFunasrConfig url timeout rate mode (atoi val) json pcm retry
  else if strcaseeq name "Parse-Json" then mkFunasrConfig url timeout rate mode log (atoi val) pcm retry
  else if strcaseeq name "write_pcm_enable" then mkFunasrConfig url timeout rate mode log json (atoi val) retry
  else if strcaseeq name "ws_conn_retry_max" then mkFunasrConfig url timeout rate mode log json pcm (atoi val)
  else c.

(** [funasr_load_config]; the file is [None] when it cannot be opened, else the
    names and values of its settings in their order. *)
Definition funasr_load_config (file : option (list (string * string))) : switch_status_t * funasr_config :=
  match file with
  | None => (SWITCH_STATUS_FALSE, config_defaults)
  | Some params =>
      let c := fold_left config_param params config_defaults in
      if decide (sample_rate c <> 8000 /\ sample_rate c <> 16000) then (SWITCH_STATUS_FALSE, c) else (SUCCESS, c)
  end.

Section FunAsr.
Context (cfg : funasr_config) (uuid : string).
(** The parsed message: [None] when it is no object; else the strings [mode] and
    [text] when it has both. *)
Context (parse : string -> option (string * string)).
(** What [switch_snprintf] prints for a NULL string. *)
Context (null_text : string).

(** ** The end of an instance *)

Definition destroy : FM unit :=
  h ← is_set hangup;
  (if negb h then invoke cond_wait else mret tt) ;;
  invoke queue_clear ;;
  invoke queue_destroy ;;
  invoke mutex_destroy ;;
  invoke cond_destroy ;;
  p ← invoke has_pool;
  if p : bool then invoke pool_destroy else mret tt.

(** ** The callbacks of the WebSocket client *)

Definition fireAsrEvent (asrText : string) (vad : bool) : FM unit :=
  p ← invoke has_pool;
  if negb p then mret tt
  else
    c ← is_set ws_closed;
    if c : bool then mret tt
    else
      ok ← invoke event_create;
      if negb ok then mret tt
      else
        now ← invoke time_ms;
        invoke (event_fire
          [("Unique-ID", uuid); ("Detect-Speech-Result", c_str asrText); ("ASR-Event-Time-Ms", pretty now);
           ("ASR-Event-Detail", if vad then "Vad" else "Middle")]).

Definition quote : string := String (ascii_of_nat 34) EmptyString.

(** The start message; every name and value is between quotes. *)
Definition start_message : string :=
  let q s := (quote ++ s ++ quote)%string in
  ("{" ++ q "chunk_size" ++ ":[5,10,5], " ++ q "audio_fs" ++ " : 16000, " ++ q "wav_name" ++ ":" ++ q uuid ++
   "," ++ q "is_speaking" ++ ":true, " ++ q "wav_format" ++ ":" ++ q "pcm" ++ ", " ++ q "mode" ++ ":" ++ q (asr_mode cfg) ++
   "}")%string.

Definition onopen : FM unit :=
  invoke (ws_send_text start_message) ;;
  invoke (local_lock open_sync) ;;
  invoke (store connected 1) ;;
  invoke (store ws_connected 1) ;;
  invoke (local_notify open_sync) ;;
  invoke (local_unlock open_sync).

Definition onclose : FM unit :=
  invoke (local_lock close_sync) ;;
  invoke (store closed 1) ;;
  invoke (local_notify close_sync) ;;
  invoke (local_unlock close_sync).

Definition onmessage (msg : string) : FM unit :=
  if decide (msg = "") then mret tt
  else
    p ← invoke has_pool;
    if negb p then mret tt
    else if decide (parse_json cfg = 0) then
      if decide (c_str msg = "") then mret tt
      else
        ok ← invoke event_create;
        if negb ok then mret tt
        else
          now ← invoke time_ms;
          invoke (event_fire [("Unique-ID", uuid); ("AsrResult", c_str msg); ("ASR-Event-Time-Ms", pretty now)])
    else
      match parse msg with
      | Some (mode, text) => fireAsrEvent (c_str text) (bool_decide (c_str mode = "2pass-offline"))
      | None => mret tt
      end.

(** ** The thread that sends the audio *)

(** The bytes of a frame at 8 kHz and at 16 kHz. *)
Definition frame_8k : Z := 160 * 2.
Definition frame_16k : Z := 320 * 2.

(** [switch_snprintf(server_url_uuid, 256, "%s/%s", ...)] *)
Definition server_url_uuid : string := substring 0 255 (default null_text (server_url cfg) ++ "/" ++ uuid)%string.

(** The body of the loop; [buf] is [data_resample]. *)
Definition send_frame (pcm : bool) (buf : list Z) : FM (list Z) :=
  d ← invoke (queue_read frame_8k);
  if decide (Z.of_nat (length d) = frame_8k) then
    buf ← (if decide (sample_rate cfg = 16000) then
             to ← invoke (resample_process d);
             (let buf := to ++ drop (length to) buf in
              invoke (ws_send_audio (take (Z.to_nat frame_16k) buf)) ;;
              (if pcm then invoke (pcm_write (take (Z.to_nat frame_16k) buf)) else mret tt) ;;
              mret buf)
           else mret buf);
    (if decide (sample_rate cfg = 8000) then invoke (ws_send_audio d) else mret tt) ;;
    mret buf
  else mret buf.

(** The loop; [false]: out of fuel. *)
Fixpoint send_loop (fuel : nat) (pcm : bool) (buf : list Z) : FM bool :=
  match fuel with
  | O => mret false
  | S fuel' =>
      go ← (h ← is_set hangup; if h : bool then mret false else c ← is_set closed; mret (negb c));
      if negb go then mret true
      else buf ← send_frame pcm buf; send_loop fuel' pcm buf
  end.

(** How a thread ends: with the instance, with a thread that replaces it, or
    out of fuel. *)
Inductive outcome := Destroyed | Replaced | OutOfFuel.

(** From [if (pvt->ws_connected)] to [else]: [None] when there is no resampler. *)
Definition stream (fuel : nat) : FM (option bool) :=
  st ← (if decide (sample_rate cfg = 16000) then invoke resample_create else mret SUCCESS);
  if decide (st <> SUCCESS) then mret None
  else
    pcm ← (if decide (write_pcm_enable cfg <> 0) then invoke pcm_open else mret false);
    ended ← send_loop fuel pcm (replicate (Z.to_nat frame_16k) 0);
    if negb ended then mret (Some false)
    else
      (if decide (sample_rate cfg = 16000) then invoke resample_destroy else mret tt) ;;
      (if pcm : bool then invoke pcm_close else mret tt) ;;
      mret (Some true).

(** From [pvt->ws_conn_retry += 1] on. *)
Definition retry : FM outcome :=
  r ← invoke (load ws_conn_retry);
  invoke (store ws_conn_retry (i32 (r + 1))) ;;
  again ← (h ← is_set hangup;
           if h : bool then mret false
           else
             r ← invoke (load ws_conn_retry);
             if decide (r <= ws_conn_retry_max cfg) then
               invoke (sleep_ms 1000) ;;
               h ← is_set hangup;
               if h : bool then mret false
               else st ← invoke thread_create; mret (bool_decide (st = SUCCESS))
             else mret false);
  (if again : bool then mret Replaced else destroy ;; mret Destroyed).

(** From [if (!closed)] to the end of the connection. *)
Definition finish : FM unit :=
  c ← is_set closed;
  (if c : bool then mret tt
   else invoke (ws_send_text ("{" ++ quote ++ "is_speaking" ++ quote ++ ":false}")%string) ;; invoke (sleep_ms 1000)) ;;
  invoke ws_close ;;
  invoke (local_lock close_sync) ;;
  invoke (local_wait close_sync 3000) ;;
  invoke (local_unlock close_sync) ;;
  c ← is_set closed;
  if c : bool then invoke (store ws_closed 1) else mret tt.

(** [send_audio_to_asr_server] *)
Definition send_audio_to_asr_server (fuel : nat) : FM outcome :=
  h ← is_set hangup;
  if h : bool then destroy ;; mret Destroyed
  else
    invoke (store connected 0) ;; invoke (store closed 0) ;;
    invoke ws_new ;;
    invoke (ws_open server_url_uuid (ws_conn_timeout_ms cfg)) ;;
    invoke (local_lock open_sync) ;;
    invoke (local_wait open_sync (ws_conn_timeout_ms cfg)) ;;
    invoke (local_unlock open_sync) ;;
    ready ← is_set ws_connected;
    r ← (if ready : bool then stream fuel else mret (Some true));
    match r with
    | None => invoke ws_close ;; destroy ;; invoke ws_delete ;; mret Destroyed
    | Some false => mret OutOfFuel
    | Some true =>
        finish ;;
        o ← retry;
        invoke ws_delete ;;
        mret o
    end.

(** The threads of an instance, one after the other: a thread that was replaced
    only returns.  [OutOfFuel] after [n] of them. *)
Fixpoint connections (n fuel : nat) : FM outcome :=
  match n with
  | O => mret OutOfFuel
  | S n' =>
      o ← send_audio_to_asr_server fuel;
      match o with Replaced => connections n' fuel | _ => mret o end
  end.

(** ** The media bug *)

Inductive abc_type := ABC_INIT | ABC_CLOSE | ABC_READ | ABC_OTHER.

Definition bug_init : FM unit :=
  h ← is_set hangup;
  if h : bool then mret tt else invoke thread_create ;; mret tt.

Definition bug_close : FM unit :=
  p ← invoke has_pool;
  if negb p then mret tt
  else
    h ← is_set hangup;
    if h : bool then mret tt
    else
      invoke (store hangup 1) ;;
      invoke mutex_lock ;; invoke cond_signal ;; invoke mutex_unlock.

(** The silence is as long as the frame. *)
Definition bug_frame : FM unit :=
  h ← is_set hangup;
  if h : bool then mret tt
  else
    c ← is_set ws_connected;
    if negb c then mret tt
    else
      e ← is_set ws_closed;
      if e : bool then mret tt
      else
        invoke mutex_lock ;;
        f ← invoke bug_read;
        match f with
        | Some (_ :: _ as d) =>
            p ← is_set paused;
            invoke (queue_write (if p : bool then replicate (length d) 0 else d)) ;;
            invoke queue_signal
        | _ => mret tt
        end ;;
        invoke mutex_unlock.

Definition funasr_mod_mediabug_callback (t : abc_type) : FM unit :=
  match t with ABC_INIT => bug_init | ABC_CLOSE => bug_close | ABC_READ => bug_frame | ABC_OTHER => mret tt end.

(** ** The applications *)

Definition stop_funasr : FM unit :=
  p ← invoke get_private;
  if negb p then mret tt else invoke (set_private false) ;; invoke bug_remove.

Definition pause_funasr (data : option string) : FM unit :=
  if zstr data then mret tt
  else
    argv ← invoke (separate_string (default "" data));
    match argv with
    | [] => mret tt
    | a :: _ =>
        p ← invoke get_private;
        if p : bool then invoke (store paused (atoi a)) else mret tt
    end.

(** [start_funasr_session_function]; [None]: the memory could not be allocated,
    and [memset] writes to NULL. *)
Definition start_funasr (data : option string) : FM (option unit) :=
  if zstr data then mret (Some tt)
  else
    st ← invoke pool_new;
    if decide (st <> SUCCESS) then mret (Some tt)
    else
      ok ← invoke pool_alloc;
      if negb ok then mret None
      else
        (* what [memset] leaves *)
        invoke (store hangup 0) ;;
        st ← invoke mutex_init;
        if decide (st <> SUCCESS) then destroy ;; mret (Some tt)
        else
          st ← invoke queue_create;
          if decide (st <> SUCCESS) then destroy ;; mret (Some tt)
          else
            invoke (store paused 0) ;; invoke (store hangup 0) ;; invoke (store ws_connected 0) ;;
            invoke (store ws_conn_retry 0) ;; invoke (store ws_closed 0) ;;
            st ← invoke cond_create;
            if decide (st <> SUCCESS) then destroy ;; mret (Some tt)
            else
              invoke (set_private true) ;;
              invoke bug_add ;;
              mret (Some tt).

(** ** The audio that is sent *)

(** The whole frames taken from the queue, the frames given to the resampler and
    what it answered, and the audio sent. *)
Record audio := mkAudio {
  wholes : list (list Z); inputs : list (list Z); outputs : list (list Z); sent : list (list Z);
}.

Definition audio_upd (g : audio) (e : event fresp) : audio :=
  let '(mkAudio w i o s) := g in
  match e with
  | Ev (queue_read n) d => if decide (Z.of_nat (length d) = n) then mkAudio (w ++ [d]) i o s else g
  | Ev (resample_process d) to => mkAudio w (i ++ [d]) (o ++ [to]) s
  | Ev (ws_send_audio d) _ => mkAudio w i o (s ++ [d])
  | _ => g
  end.

(** A frame of 160 samples at 8 kHz is one of 320 at 16 kHz. *)
Definition resampler_doubles (_ : audio) (e : event fresp) : Prop :=
  match e with Ev (resample_process _) to => Z.of_nat (length to) = frame_16k | _ => True end.

Definition faithful (g : audio) : Prop :=
  (sample_rate cfg = 8000 -> sent g = wholes g) /\
  (sample_rate cfg = 16000 -> inputs g = wholes g /\ sent g = outputs g).

Notation wpa := (wp resampler_doubles audio_upd).

Lemma send_frame_wp pcm buf g : faithful g -> length buf = Z.to_nat frame_16k ->
  wpa (send_frame pcm buf) g (fun g' buf' => faithful g' /\ length buf' = Z.to_nat frame_16k).
Proof.
  intros [H8 H16] Hb. destruct g as [w i o s]. cbn in H8, H16. unfold send_frame. intros d _.
  cbn [mbind prog_bind bindp audio_upd]. case_decide as Hd; [|split; [by split|done]].
  assert (Hlast : forall (b : list Z) g', faithful g' -> length b = Z.to_nat frame_16k -> sample_rate cfg <> 8000 ->
    wpa ((if decide (sample_rate cfg = 8000) then invoke (ws_send_audio d) else mret tt) ;; mret b) g'
      (fun g' buf' => faithful g' /\ length buf' = Z.to_nat frame_16k)) by (intros b g' Hf Hl Hn; by rewrite decide_False).
  destruct (decide (sample_rate cfg = 16000)) as [H|H].
  - destruct (H16 H) as [-> ->]. intros to Hto.
    assert (Hl : length to = Z.to_nat frame_16k) by (unfold resampler_doubles in Hto; cbn in Hto; lia).
    cbn [mbind prog_bind bindp audio_upd mret prog_ret invoke].
    rewrite drop_ge, app_nil_r, take_ge by lia. intros u _.
    assert (Hf : faithful (mkAudio (w ++ [d]) (w ++ [d]) (o ++ [to]) (o ++ [to]))) by (split; [cbn; lia|done]).
    destruct pcm; [intros v _|]; (apply Hlast; [exact Hf|done|lia]).
  - cbn [mbind prog_bind bindp audio_upd mret prog_ret]. case_decide as H'.
    + intros u _. cbn. split; [|done]. split; [intros _; cbn; by rewrite H8|done].
    + by split.
Qed.

Lemma send_loop_wp fuel pcm : forall buf g, faithful g -> length buf = Z.to_nat frame_16k ->
  wpa (send_loop fuel pcm buf) g (fun g' _ => faithful g').
Proof.
  induction fuel as [|fuel IH]; intros buf g Hg Hb; cbn [send_loop]; [exact Hg|].
  apply wp_bind, wp_neutral; [apply neutral_only with (allowed := fun c => match c with load _ => true | _ => false end);
    [by intros [] [] r | unfold is_set; only_tac]|].
  intros [|]; [|exact Hg]. cbn [negb]. apply wp_bind. eapply wp_mono; [|by apply send_frame_wp].
  intros g' buf' [Hg' Hb']. by apply IH.
Qed.

(** The calls that move no audio. *)
Definition no_audio (c : fcall) : bool :=
  match c with queue_read _ | resample_process _ | ws_send_audio _ => false | _ => true end.

Lemma no_audio_neutral {A} (m : FM A) : only no_audio m -> neutral audio_upd m.
Proof. apply neutral_only. by intros [] [] r. Qed.

Lemma thread_wp fuel g : faithful g -> wpa (send_audio_to_asr_server fuel) g (fun g' _ => faithful g').
Proof.
  intros Hg. unfold send_audio_to_asr_server.
  apply wp_bind, wp_neutral; [apply no_audio_neutral; unfold is_set; only_tac|]. intros [|].
  { apply wp_bind, wp_neutral; [apply no_audio_neutral; unfold destroy, is_set; only_tac|]. by intros []. }
  do 7 (apply wp_bind, wp_neutral; [by apply no_audio_neutral|]; intros _).
  apply wp_bind, wp_neutral; [apply no_audio_neutral; unfold is_set; only_tac|]. intros ready. apply wp_bind.
  apply wp_mono with (Q := fun g' _ => faithful g').
  - intros g' [[|]|] Hg'; [| exact Hg' |].
    + eapply wp_mono; [|apply wp_neutral with (Q := fun g2 _ => g2 = g')]; [by intros g2 a -> | | done].
      apply no_audio_neutral. unfold finish, retry, destroy, is_set. only_tac.
    + eapply wp_mono; [|apply wp_neutral with (Q := fun g2 _ => g2 = g')]; [by intros g2 a -> | | done].
      apply no_audio_neutral. unfold destroy, is_set. only_tac.
  - destruct ready; [|exact Hg]. unfold stream.
    apply wp_bind, wp_neutral; [apply no_audio_neutral; only_tac|]. intros st. case_decide; [exact Hg|].
    apply wp_bind, wp_neutral; [apply no_audio_neutral; only_tac|]. intros pcm. apply wp_bind.
    eapply wp_mono; [|apply send_loop_wp; [exact Hg|by rewrite length_replicate]]. intros g' [|] Hg'; [|exact Hg']. cbn [negb].
    apply wp_bind, wp_neutral; [apply no_audio_neutral; only_tac|]. intros u.
    apply wp_bind, wp_neutral; [apply no_audio_neutral; destruct pcm; only_tac|]. by intros v.
Qed.

Lemma connections_wp n fuel : forall g, faithful g -> wpa (connections n fuel) g (fun g' _ => faithful g').
Proof.
  induction n as [|n IH]; intros g Hg; cbn [connections]; [exact Hg|].
  apply wp_bind. eapply wp_mono; [|by apply thread_wp]. intros g' [] Hg'; [exact Hg' | by apply IH | exact Hg'].
Qed.

(** [C32] Over all connections of an instance the audio that is sent is exactly the
    whole frames taken from the queue, in their order: as they are at 8 kHz, each
    converted by the resampler at 16 kHz. *)
Theorem frames_sent n fuel tr o :
  exec (connections n fuel) tr o ->
  legal_trace resampler_doubles audio_upd (mkAudio [] [] [] []) tr ->
  let g := ghost audio_upd (mkAudio [] [] [] []) tr in
  (sample_rate cfg = 8000 -> sent g = wholes g) /\
  (sample_rate cfg = 16000 -> inputs g = wholes g /\ sent g = outputs g).
Proof.
  intros Hex Hl. assert (H0 : faithful (mkAudio [] [] [] [])) by (by split).
  apply (wp_sound _ _ _ _ _ _ _ (connections_wp n fuel _ H0) Hex Hl).
Qed.

(** ** The connections of an instance *)

(** The frames asked for, [ws_conn_retry], the threads created, the times the
    instance was destroyed, and the clients that exist. *)
Record progress := mkProgress { frames : Z; retries : Z; created : Z; ended : Z; clients : Z }.

Definition progress_upd (g : progress) (e : event fresp) : progress :=
  let '(mkProgress f r c d k) := g in
  match e with
  | Ev (queue_read _) _ => mkProgress (f + 1) r c d k
  | Ev (store ws_conn_retry x) _ => mkProgress f x c d k
  | Ev thread_create st => if decide (st = SUCCESS) then mkProgress f r (c + 1) d k else g
  | Ev queue_destroy _ => mkProgress f r c (d + 1) k
  | Ev ws_new _ => mkProgress f r c d (k + 1)
  | Ev ws_delete _ => mkProgress f r c d (k - 1)
  | _ => g
  end.

(** Nothing else changes [ws_conn_retry], and the call lasts for [lasting] frames
    at most. *)
Definition call_lasts (lasting : Z) (g : progress) (e : event fresp) : Prop :=
  match e with
  | Ev (load ws_conn_retry) v => v = retries g
  | Ev (load hangup) v => lasting <= frames g -> v <> 0
  | _ => True
  end.

Definition no_progress (c : fcall) : bool :=
  match c with
  | queue_read _ | store ws_conn_retry _ | thread_create | queue_destroy | ws_new | ws_delete => false
  | _ => true
  end.

Lemma no_progress_neutral {A} (m : FM A) : only no_progress m -> neutral progress_upd m.
Proof. apply neutral_only. intros [] [] r; try done; by destruct v. Qed.

Section Connections.
Context (lasting : Z).
Notation wpc := (wp (call_lasts lasting) progress_upd).

Lemma destroy_progress g : wpc destroy g (fun g' _ => g' = mkProgress (frames g) (retries g) (created g) (ended g + 1) (clients g)).
Proof.
  unfold destroy. do 3 (apply wp_bind, wp_neutral; [apply no_progress_neutral; unfold is_set; only_tac|]; intros ?).
  intros r _. destruct g as [f t c d k].
  cbn [mbind prog_bind bindp progress_upd frames retries created ended clients].
  apply wp_neutral; [apply no_progress_neutral; only_tac|done].
Qed.

Lemma send_frame_progress pcm buf g :
  wpc (send_frame pcm buf) g (fun g' _ => g' = mkProgress (frames g + 1) (retries g) (created g) (ended g) (clients g)).
Proof.
  unfold send_frame. intros d _. destruct g as [f t c e k]. cbn [mbind prog_bind bindp progress_upd mret prog_ret frames retries created ended clients].
  apply wp_neutral; [apply no_progress_neutral; only_tac|done].
Qed.

Lemma hangup_wp g (Q : progress -> bool -> Prop) :
  Q g true -> (frames g < lasting -> Q g false) -> wpc (is_set hangup) g Q.
Proof.
  intros H1 H2 h Hh. cbn in Hh. replace (progress_upd g (Ev (load hangup) h)) with g by by destruct g.
  cbn. case_bool_decide as Hn; [done|]. apply H2.
  destruct (decide (lasting <= frames g)) as [Hl|Hl]; [by destruct (Hh Hl) | lia].
Qed.

Lemma send_loop_progress fuel pcm : forall buf g, Z.max 0 (lasting - frames g) < Z.of_nat fuel ->
  wpc (send_loop fuel pcm buf) g (fun g' ok => ok = true /\
    exists f, frames g <= f /\ g' = mkProgress f (retries g) (created g) (ended g) (clients g)).
Proof.
  induction fuel as [|fuel IH]; intros buf g Hf; [lia|]. cbn [send_loop].
  assert (Hstop : wpc (mret true : FM bool) g (fun g' ok => ok = true /\
    exists f, frames g <= f /\ g' = mkProgress f (retries g) (created g) (ended g) (clients g)))
    by (split; [done|]; exists (frames g); split; [lia|by destruct g]).
  apply wp_bind, wp_bind, hangup_wp; [exact Hstop|]. intros Hlt.
  apply wp_bind, wp_neutral; [apply no_progress_neutral; unfold is_set; only_tac|]. intros [|]; [exact Hstop|]. cbn [negb].
  apply wp_bind. eapply wp_mono; [|apply send_frame_progress]. intros g' buf' ->.
  eapply wp_mono; [|apply IH; cbn; lia]. intros g' ok (-> & f & Hle & ->). split; [done|]. exists f. cbn in *. split; [lia|done].
Qed.

(** A thread of an instance that lives. *)
Definition alive (r : Z) (g : progress) : Prop := retries g = r /\ created g = r /\ ended g = 0 /\ clients g = 0.

Lemma retry_progress r g : 0 <= r < 2 ^ 31 - 1 -> retries g = r -> created g = r -> ended g = 0 ->
  wpc retry g (fun g' o => clients g' = clients g /\ frames g <= frames g' /\
    match o with
    | Destroyed => ended g' = 1 /\ created g' = r
    | Replaced => r + 1 <= ws_conn_retry_max cfg /\ retries g' = r + 1 /\ created g' = r + 1 /\ ended g' = 0
    | OutOfFuel => False
    end).
Proof.
  intros Hr H1 H2 H3. destruct g as [f t c d k]. cbn in H1, H2, H3. subst t c d. unfold retry.
  intros v Hv u _. cbn in Hv. subst v. cbn [mbind prog_bind bindp progress_upd clients]. rewrite i32_small by lia.
  assert (Hend : wpc (destroy ;; mret Destroyed) (mkProgress f (r + 1) r 0 k) (fun g' o => clients g' = k /\ f <= frames g' /\
    match o with
    | Destroyed => ended g' = 1 /\ created g' = r
    | Replaced => r + 1 <= ws_conn_retry_max cfg /\ retries g' = r + 1 /\ created g' = r + 1 /\ ended g' = 0
    | OutOfFuel => False
    end)) by (apply wp_bind; eapply wp_mono; [|apply destroy_progress]; by intros g' a ->).
  apply wp_bind, wp_bind, wp_neutral; [apply no_progress_neutral; unfold is_set; only_tac|]. intros [|]; [exact Hend|].
  intros v Hv. cbn in Hv. subst v. cbn [mbind prog_bind bindp progress_upd]. case_decide as Hle; [|exact Hend].
  intros x _. cbn [mbind prog_bind bindp progress_upd].
  apply wp_bind, wp_neutral; [apply no_progress_neutral; unfold is_set; only_tac|]. intros [|]; [exact Hend|].
  intros st _. cbn [mbind prog_bind bindp progress_upd mret prog_ret wp].
  case_decide as Hst; [rewrite bool_decide_true by done | rewrite bool_decide_false by done; exact Hend].
  cbn. done.
Qed.

Lemma thread_progress fuel r g : 0 <= r < 2 ^ 31 - 1 -> Z.max 0 (lasting - frames g) < Z.of_nat fuel -> alive r g ->
  wpc (send_audio_to_asr_server fuel) g (fun g' o => clients g' = 0 /\ frames g <= frames g' /\
    match o with
    | Destroyed => ended g' = 1 /\ created g' = r
    | Replaced => r + 1 <= ws_conn_retry_max cfg /\ alive (r + 1) g'
    | OutOfFuel => False
    end).
Proof.
  intros Hr Hf (H1 & H2 & H3 & H4). unfold send_audio_to_asr_server.
  apply wp_bind, wp_neutral; [apply no_progress_neutral; unfold is_set; only_tac|]. intros [|].
  { apply wp_bind. eapply wp_mono; [|apply destroy_progress]. intros g' a ->. cbn. split_and!; [done|lia|lia|done]. }
  do 2 (apply wp_bind, wp_neutral; [by apply no_progress_neutral|]; intros _).
  intros u _. destruct g as [f t c d k]. cbn in H1, H2, H3, H4, Hf. subst t c d k.
  cbn [mbind prog_bind bindp progress_upd frames].
  do 4 (apply wp_bind, wp_neutral; [by apply no_progress_neutral|]; intros _).
  apply wp_bind, wp_neutral; [apply no_progress_neutral; unfold is_set; only_tac|]. intros ready. apply wp_bind.
  apply wp_mono with (Q := fun g' o => o <> Some false /\ exists f', f <= f' /\ g' = mkProgress f' r r 0 1).
  - intros g' [[|]|] [Hn (f' & Hle & ->)]; [| done |].
    + apply wp_bind, wp_neutral; [apply no_progress_neutral; unfold finish, is_set; only_tac|]. intros u1.
      apply wp_bind. eapply wp_mono; [|by apply (retry_progress r)].
      intros [f2 t2 c2 d2 k2] o (Hk & Hf2 & Ho) v _. cbn in *. subst k2. split; [done|]. split; [lia|].
      destruct o; [done | destruct Ho as (? & ? & ? & ?) | done]. by split_and!.
    + intros u1 _. cbn [mbind prog_bind bindp progress_upd]. apply wp_bind. eapply wp_mono; [|apply destroy_progress].
      intros g' a -> v _. cbn. by split_and!.
  - destruct ready; [|split; [done|]; exists f; split; [lia|done]]. unfold stream.
    apply wp_bind, wp_neutral; [apply no_progress_neutral; only_tac|]. intros st.
    case_decide; [split; [done|]; exists f; split; [lia|done]|].
    apply wp_bind, wp_neutral; [apply no_progress_neutral; only_tac|]. intros pcm. apply wp_bind.
    eapply wp_mono; [|by apply send_loop_progress]. intros g' ok (-> & f' & Hle & ->). cbn [negb frames] in *.
    apply wp_bind, wp_neutral; [apply no_progress_neutral; only_tac|]. intros u1.
    apply wp_bind, wp_neutral; [apply no_progress_neutral; destruct pcm; only_tac|]. intros u2.
    split; [done|]. exists f'. split; [lia|done].
Qed.

Lemma connections_progress fuel n : forall r g, 0 <= r <= Z.max 0 (ws_conn_retry_max cfg) ->
  ws_conn_retry_max cfg < 2 ^ 31 - 1 -> Z.max 0 (ws_conn_retry_max cfg) - r < Z.of_nat n ->
  Z.max 0 (lasting - frames g) < Z.of_nat fuel -> alive r g ->
  wpc (connections n fuel) g (fun g' o =>
    o = Destroyed /\ ended g' = 1 /\ clients g' = 0 /\ created g' <= Z.max 0 (ws_conn_retry_max cfg)).
Proof.
  induction n as [|n IH]; intros r g Hr Hmax Hn Hf Ha; [lia|]. cbn [connections].
  apply wp_bind. eapply wp_mono; [|apply (thread_progress fuel r); [lia|done|done]].
  intros g' o (Hc & Hfr & Ho). destruct o; [|destruct Ho as [Hle Ha']|done].
  - destruct Ho as [He Hk]. cbn. split_and!; [done|done|done|lia].
  - apply (IH (r + 1)); [lia|done|lia|lia|done].
Qed.
End Connections.

(** The calls around the end of the call: the wait comes right after [hangup] was
    found unset, and the instance is taken down right after the wait or after
    [hangup] was found set. *)
Definition at_the_end (last : option (event fresp)) (c : fcall) : Prop :=
  match c with
  | cond_wait => last = Some (Ev (load hangup) 0)
  | queue_clear => last = Some (Ev cond_wait tt) \/ exists v, v <> 0 /\ last = Some (Ev (load hangup) v)
  | _ => True
  end.

Definition not_at_the_end (c : fcall) : bool := match c with cond_wait | queue_clear => false | _ => true end.

Lemma only_follows {A} (m : FM A) : only not_at_the_end m -> forall last, follows at_the_end last m.
Proof. induction m as [a|c k IH]; [done|]. intros [Hc Hk] last. split; [by destruct c | intros r; apply IH, Hk]. Qed.

Lemma destroy_follows last : follows at_the_end last destroy.
Proof.
  unfold destroy, is_set. split; [done|]. intros h. cbn [mbind prog_bind bindp mret prog_ret].
  assert (Hrest : forall l, (l = Some (Ev cond_wait tt) \/ exists v, v <> 0 /\ l = Some (Ev (load hangup) v)) ->
    follows at_the_end l (invoke queue_clear ;; invoke queue_destroy ;; invoke mutex_destroy ;; invoke cond_destroy ;;
      p ← invoke has_pool; if p : bool then invoke pool_destroy else mret tt)).
  { intros l Hl. split; [exact Hl|]. intros r. apply only_follows. cbn [mbind prog_bind bindp]. only_tac. }
  case_bool_decide as Hh; cbn [negb].
  - apply Hrest. right. by exists h.
  - split; [cbn; f_equal; by replace h with 0 by lia|]. intros []. apply Hrest. by left.
Qed.

Lemma thread_follows fuel last : follows at_the_end last (send_audio_to_asr_server fuel).
Proof.
  assert (Hloop : forall pcm f buf, only not_at_the_end (send_loop f pcm buf)).
  { intros pcm f. induction f as [|f IH]; intros buf; cbn [send_loop]; [done|]. unfold send_frame, is_set. only_tac. }
  assert (Hend : forall l (k : FM outcome), only not_at_the_end k -> follows at_the_end l (destroy ;; k)).
  { intros l k Hk. apply follows_bind; [apply destroy_follows|]. intros _ l'. by apply only_follows. }
  unfold send_audio_to_asr_server. apply follows_bind; [apply only_follows; unfold is_set; only_tac|]. intros [] l1; [by apply Hend|].
  do 7 (apply follows_bind; [by apply only_follows|]; intros ? ?).
  apply follows_bind; [apply only_follows; unfold is_set; only_tac|]. intros ready l2.
  apply follows_bind; [apply only_follows; unfold stream; only_tac|]. intros [[]|] l3; [|done|].
  - apply follows_bind; [apply only_follows; unfold finish, is_set; only_tac|]. intros [] l4.
    apply follows_bind; [|intros o l5; by apply only_follows]. unfold retry.
    do 2 (apply follows_bind; [by apply only_follows|]; intros ? ?).
    apply follows_bind; [apply only_follows; unfold is_set; only_tac|]. intros [] l6; [done|by apply Hend].
  - apply follows_bind; [by apply only_follows|]. intros _ l4. by apply Hend.
Qed.

Lemma connections_follows n fuel : forall last, follows at_the_end last (connections n fuel).
Proof.
  induction n as [|n IH]; intros last; cbn [connections]; [done|]. apply follows_bind; [apply thread_follows|].
  intros [] l; [done | apply IH | done].
Qed.

(** [C25] When the call lasts for [lasting] frames and nothing else touches
    [ws_conn_retry], the threads of an instance end, unless the last one is held in
    its wait for the end of the call: [lasting + 1] iterations of a loop and
    [ws_conn_retry_max + 1] threads are enough.  The instance is then destroyed,
    exactly once, at most [ws_conn_retry_max] threads were created to connect
    again, and every client was deleted.  A thread waits only when it has just
    found that the call goes on, never after it saw the end, and it takes the
    instance down only after that wait or after it saw the end.  (The signal may
    come between the test and the wait: [lost_wakeup].) *)
Theorem connections_end lasting n fuel :
  Z.max 0 lasting < Z.of_nat fuel -> Z.max 0 (ws_conn_retry_max cfg) < Z.of_nat n ->
  ws_conn_retry_max cfg < 2 ^ 31 - 1 ->
  (forall tr o, exec (connections n fuel) tr o ->
    legal_trace (call_lasts lasting) progress_upd (mkProgress 0 0 0 0 0) tr ->
    let g := ghost progress_upd (mkProgress 0 0 0 0 0) tr in
    o = Destroyed /\ ended g = 1 /\ clients g = 0 /\ created g <= Z.max 0 (ws_conn_retry_max cfg)) /\
  (forall tr, held (connections n fuel) tr cond_wait -> last tr = Some (Ev (load hangup) 0)) /\
  (forall tr, held (connections n fuel) tr queue_clear ->
    last tr = Some (Ev cond_wait tt) \/ exists v, v <> 0 /\ last tr = Some (Ev (load hangup) v)).
Proof.
  intros Hf Hn Hmax. split_and!.
  - intros tr o Hex Hl. assert (Hw := connections_progress lasting fuel n 0 (mkProgress 0 0 0 0 0)).
    refine (wp_sound _ _ _ _ _ _ _ (Hw _ Hmax _ _ _) Hex Hl); [lia | lia | cbn; lia | done].
  - intros tr Hh. by apply (follows_held at_the_end _ _ _ (connections_follows n fuel None)) in Hh.
  - intros tr Hh. by apply (follows_held at_the_end _ _ _ (connections_follows n fuel None)) in Hh.
Qed.

(** ** What follows the end of the first connection *)

Definition store_of (e : event fresp) : option (var * Z) :=
  match e with Ev (store v x) _ => Some (v, x) | _ => None end.
Definition load_of (e : event fresp) : option (var * Z) :=
  match e with Ev (load v) x => Some (v, x) | _ => None end.
(** [start_funasr] clears every field. *)
Notation value := (value (fun _ : var => 0) store_of).
Notation logged := (logged (fun _ : var => 0) store_of load_of).

(** What the media thread executes. *)
Fixpoint media (l : list abc_type) : FM unit :=
  match l with [] => mret tt | t :: l' => funasr_mod_mediabug_callback t ;; media l' end.

(** The other threads: those that send the audio, the callbacks of their clients,
    and the applications. *)
Inductive other_thread : FM unit -> Prop :=
| sending n fuel : other_thread (connections n fuel ;; mret tt)
| opening : other_thread onopen
| closing : other_thread onclose
| receiving msg : other_thread (onmessage msg)
| pausing data : other_thread (pause_funasr data)
| stopping : other_thread stop_funasr
| both m n : other_thread m -> other_thread n -> other_thread (m ;; n).

(** Whether [ws_closed] was set, and how many frames were queued since. *)
Definition late_step (p : bool * Z) (e : event fresp) : bool * Z :=
  match e with
  | Ev (store ws_closed x) _ => (p.1 || bool_decide (x <> 0), p.2)
  | Ev (queue_write _) _ => (p.1, if p.1 then p.2 + 1 else p.2)
  | _ => p
  end.
Definition late (tr : list (event fresp)) : bool * Z := fold_left late_step tr (false, 0).

Lemma late_snoc tr e : late (tr ++ [e]) = late_step (late tr) e.
Proof. unfold late. by rewrite fold_left_app. Qed.

Definition coherent (tr : list (event fresp)) : Prop :=
  ((late tr).1 = false -> (late tr).2 = 0) /\ (value ws_closed tr = 0 -> (late tr).1 = false).

Definition tolerated (tr tr' : list (event fresp)) : Prop :=
  (late tr').2 = (late tr).2 /\ (coherent tr -> coherent tr').
Definition one_more (tr tr' : list (event fresp)) : Prop := (late tr).2 <= 1 -> (late tr').2 <= 1.

#[local] Instance tolerated_preorder : PreOrder tolerated.
Proof. split; [by intros tr|]. intros t1 t2 t3 [A1 A2] [B1 B2]. split; [congruence|auto]. Qed.

(** Nothing but a read of the media bug queues audio, and [ws_closed] is never
    cleared. *)
Definition no_feed (c : fcall) : bool :=
  match c with queue_write _ => false | store ws_closed x => bool_decide (x <> 0) | _ => true end.

Lemma no_feed_tolerated tr c r tr' : logged tr c r tr' -> no_feed c = true -> tolerated tr tr'.
Proof.
  intros [-> _] Hc. unfold tolerated, coherent. rewrite late_snoc, value_snoc.
  destruct (late tr) as [seen n]. destruct c; try done. destruct v; try done. cbn in Hc.
  apply bool_decide_eq_true in Hc. cbn. rewrite decide_True, bool_decide_true by done. rewrite orb_true_r. cbn.
  split; [done|]. by intros _.
Qed.

Lemma tolerated_one_more tr tr' : tolerated tr tr' -> one_more tr tr'.
Proof. intros [H _] Hl. by rewrite H. Qed.

(** [late] says that the frames queued late are still none. *)
Definition feeding (none : bool) (tr : list (event fresp)) : Prop := coherent tr /\ (none = true -> (late tr).2 = 0).

Lemma feeding_stable none tr tr' : feeding none tr -> tolerated tr tr' -> feeding none tr'.
Proof. intros [Hc Hn] [H1 H2]. split; [auto|]. intros H. rewrite H1. auto. Qed.

Notation safe_media := (safe logged tolerated one_more).

Lemma media_quiet {A} (m : FM A) none tr : only no_feed m -> feeding none tr -> safe_media m tr (fun tr' _ => feeding none tr').
Proof.
  intros Hm Hi. apply (safe_only logged no_feed _ _ (feeding none)); [apply feeding_stable| |done|done].
  intros s c r s' Hs Hc Hl. pose proof (no_feed_tolerated _ _ _ _ Hl Hc) as Ht.
  split; [by apply tolerated_one_more | by apply (feeding_stable none s)].
Qed.

Lemma media_then {A B} (m : FM A) (f : A -> FM B) none tr Q : only no_feed m -> feeding none tr ->
  (forall s a, feeding none s -> safe_media (f a) s Q) -> safe_media (m ≫= f) tr Q.
Proof. intros Hm Hi Hf. apply safe_bind; [exact _|]. eapply safe_mono; [|by apply (media_quiet m none)]. exact Hf. Qed.

Lemma bug_frame_safe tr : feeding false tr -> safe_media bug_frame tr (fun tr' _ => feeding false tr').
Proof.
  intros Htr. unfold bug_frame.
  assert (Hret : forall s, feeding false s -> safe_media (mret tt : FM unit) s (fun tr' _ => feeding false tr'))
    by (intros s; by apply media_quiet).
  eapply media_then; [unfold is_set; only_tac|exact Htr|]. intros s1 [|] H1; [by apply Hret|].
  eapply media_then; [unfold is_set; only_tac|exact H1|]. intros s2 [|] H2; [|by apply Hret]. cbn [negb].
  clear tr Htr s1 H1. intros s3 R3 v s4 L4. apply (feeding_stable _ _ _ H2) in R3 as H3.
  pose proof (no_feed_tolerated _ _ _ _ L4 eq_refl) as T4. split; [by apply tolerated_one_more|].
  pose proof (feeding_stable _ _ _ H3 T4) as H4. cbn [mbind prog_bind bindp mret prog_ret].
  case_bool_decide as Hv; [by apply Hret|].
  assert (H4' : feeding true s4).
  { split; [apply H4|]. intros _. destruct T4 as [-> _]. destruct L4 as [_ Hl]. change (v = value ws_closed s3) in Hl.
    destruct H3 as [[Ha Hb] _]. apply Ha, Hb. by rewrite <- Hl. }
  clear s2 H2 s3 R3 L4 T4 H3 H4 Hv.
  eapply media_then; [done|exact H4'|]. intros s5 u5 H5. eapply media_then; [done|exact H5|]. intros s6 f H6.
  apply safe_bind; [exact _|]. eapply safe_mono; [|apply safe_mono with (P := fun s _ => feeding false s); [intros s a H; exact H|]].
  { intros s a Hs. by apply media_quiet. }
  assert (Hdone : forall s, feeding true s -> feeding false s) by (intros s [Hc _]; by split).
  destruct f as [[|x d]|]; [by apply Hret, Hdone| |by apply Hret, Hdone].
  eapply media_then; [unfold is_set; only_tac|exact H6|]. intros s7 p H7.
  intros s8 R8 u s9 L9. destruct (feeding_stable _ _ _ H7 R8) as [Hc Hn]. destruct L9 as [-> _].
  set (e := Ev _ _). assert (He : late (s8 ++ [e]) = ((late s8).1, if (late s8).1 then 1 else 0)).
  { rewrite late_snoc. cbn. rewrite Hn by done. by destruct (late s8) as [[] ?]. }
  split; [intros _; rewrite He; cbn; destruct (late s8).1; lia|].
  apply (media_quiet (invoke queue_signal) false); [done|]. split; [|done].
  unfold coherent. rewrite He, value_snoc. cbn. split; [by intros -> | apply Hc].
Qed.

Lemma media_safe l : forall tr, feeding false tr -> safe_media (media l) tr (fun tr' _ => feeding false tr').
Proof.
  induction l as [|t l IH]; intros tr Htr; cbn [media]; [by apply (media_quiet (mret tt : FM unit))|].
  apply safe_bind; [exact _|]. eapply safe_mono; [intros s a; apply IH|].
  destruct t; cbn [funasr_mod_mediabug_callback]; [| |by apply bug_frame_safe|by apply (media_quiet (mret tt : FM unit))];
    (apply media_quiet; [|exact Htr]); unfold bug_init, bug_close, is_set; only_tac.
Qed.

Lemma send_loop_no_feed fuel pcm : forall buf, only no_feed (send_loop fuel pcm buf).
Proof. induction fuel as [|fuel IH]; intros buf; cbn [send_loop]; [done|]. unfold send_frame, is_set. only_tac. Qed.

Lemma thread_no_feed fuel : only no_feed (send_audio_to_asr_server fuel).
Proof.
  pose proof (send_loop_no_feed fuel) as Hl.
  unfold send_audio_to_asr_server, stream, finish, retry, destroy, is_set. only_tac.
Qed.

Lemma connections_no_feed n fuel : only no_feed (connections n fuel).
Proof. pose proof (thread_no_feed fuel) as Ht. induction n as [|n IH]; cbn [connections]; [done|]. only_tac. Qed.

Lemma other_no_feed m : other_thread m -> only no_feed m.
Proof.
  pose proof connections_no_feed.
  induction 1; unfold onopen, onclose, onmessage, fireAsrEvent, pause_funasr, stop_funasr, is_set; only_tac.
Qed.

(** [C33] Once the end of a connection set [ws_closed], at most one more frame (a
    read that was under way) is queued, whatever the interleaving: nothing clears
    [ws_closed], so the audio of the call never reaches a later connection. *)
Theorem closed_for_good l others tr ts :
  Forall other_thread others -> rtc (pool_step logged) ([], media l :: others) (tr, ts) -> (late tr).2 <= 1.
Proof.
  intros Ho Hr.
  refine (pool_keeps logged (fun i => match i with O => tolerated | _ => fun _ _ => True end)
    (fun i => match i with O => one_more | _ => tolerated end)
    (fun i tr _ => match i with O => feeding false tr | _ => True end) _ _ (fun tr => (late tr).2 <= 1) _ _ _ _ _ Hr).
  - intros [|i]; [apply tolerated_preorder | by split].
  - intros [|i] [|j] s s' Hij H; done.
  - intros [|i] s s' H1 H2; [by apply H2 | by apply (tolerated_one_more s)].
  - intros [|i] m Hi; cbn in Hi.
    + injection Hi as <-. apply media_safe. by split.
    + apply (safe_only logged no_feed _ _ (fun _ => True)); [done| |done|].
      * intros s c r s' _ Hc Hl. split; [by eapply no_feed_tolerated|done].
      * rewrite Forall_lookup in Ho. by eapply other_no_feed, Ho.
  - done.
Qed.

(** ** Starting *)

(** Whether there is a condition variable, whether it was waited for when there
    is none, and whether the instance was destroyed, is known to the channel, has
    its media bug, and holds its memory pool. *)
Record starting := mkStarting {
  has_cond : bool; null_wait : bool; destroyed : bool; registered : bool; has_bug : bool; pool_held : bool;
}.

Definition starting_upd (g : starting) (e : event fresp) : starting :=
  let '(mkStarting c n d r b p) := g in
  match e with
  | Ev cond_create st => if decide (st = SUCCESS) then mkStarting true n d r b p else g
  | Ev cond_wait _ => mkStarting c (n || negb c) d r b p
  | Ev queue_destroy _ => mkStarting c n true r b p
  | Ev (set_private x) _ => mkStarting c n d x b p
  | Ev bug_add st => if decide (st = SUCCESS) then mkStarting c n d r true p else g
  | Ev pool_new st => if decide (st = SUCCESS) then mkStarting c n d r b true else g
  | Ev pool_destroy _ => mkStarting c n d r b false
  | _ => g
  end.

(** No other thread knows the instance. *)
Definition not_hung_up (_ : starting) (e : event fresp) : Prop :=
  match e with Ev (load hangup) v => v = 0 | _ => True end.

Notation wps := (wp not_hung_up starting_upd).

Lemma destroy_starting p :
  wps destroy (mkStarting false false false false false p)
    (fun g _ => null_wait g = true /\ destroyed g = true /\ registered g = false /\ has_bug g = false).
Proof.
  unfold destroy. intros h Hh. cbn in Hh. subst h. cbn. intros ? _ ? _ ? _ ? _ ? _ b _.
  destruct b; [intros ? _|]; by cbn.
Qed.

(** A start that fails after the memory was allocated always waits for a
    condition variable that was never made, before it destroys the instance: by
    then nothing set [hangup].  When only the media bug cannot be added the
    instance stays, held by the channel, without a thread. *)
Theorem start_outcome data tr :
  exec (start_funasr data) tr (Some tt) ->
  legal_trace not_hung_up starting_upd (mkStarting false false false false false false) tr ->
  let g := ghost starting_upd (mkStarting false false false false false false) tr in
  (destroyed g = true /\ null_wait g = true /\ registered g = false /\ has_bug g = false) \/
  (destroyed g = false /\ null_wait g = false /\ (has_bug g = true -> registered g = true) /\
   (registered g = true -> pool_held g = true)).
Proof.
  intros Hex Hl.
  refine (wp_sound not_hung_up starting_upd (start_funasr data) _ (fun g o =>
    o = Some tt ->
    (destroyed g = true /\ null_wait g = true /\ registered g = false /\ has_bug g = false) \/
    (destroyed g = false /\ null_wait g = false /\ (has_bug g = true -> registered g = true) /\
     (registered g = true -> pool_held g = true))) tr _ _ Hex Hl eq_refl).
  clear. unfold start_funasr. destruct (zstr data); [by right|].
  assert (Hend : forall p, wps (destroy ;; mret (Some tt)) (mkStarting false false false false false p) (fun g o =>
    o = Some tt ->
    (destroyed g = true /\ null_wait g = true /\ registered g = false /\ has_bug g = false) \/
    (destroyed g = false /\ null_wait g = false /\ (has_bug g = true -> registered g = true) /\
     (registered g = true -> pool_held g = true)))).
  { intros p. apply wp_bind. eapply wp_mono; [|apply destroy_starting]. intros g a (H1 & H2 & H3 & H4) _. by left. }
  intros st _. cbn [mbind prog_bind bindp starting_upd].
  case_decide as Hst; [rewrite decide_False by done; by right|]. rewrite decide_True by done.
  intros [|] _; [|done]. cbn [negb mbind prog_bind bindp starting_upd]. intros u1 _ st1 _.
  cbn [mbind prog_bind bindp starting_upd]. case_decide; [apply Hend|]. intros st2 _.
  cbn [mbind prog_bind bindp starting_upd]. case_decide; [apply Hend|]. intros u2 _ u3 _ u4 _ u5 _ u6 _ st3 _.
  cbn [mbind prog_bind bindp starting_upd]. case_decide; [rewrite decide_False by done; apply Hend|].
  rewrite decide_True by done. intros u7 _ st4 _. cbn. intros _. right. case_decide; by cbn.
Qed.
End FunAsr.

(** ** Concrete runs *)

Notation value := (value (fun _ : var => 0) store_of).
Notation logged := (logged (fun _ : var => 0) store_of load_of).

Definition config_at (rate : Z) : funasr_config := mkFunasrConfig (Some "ws://asr") 9000 rate "online" 1 1 0 1.
Definition no_json (_ : string) : option (string * string) := None.

Definition reads_of (tr : list (event fresp)) : nat :=
  count_events (fun e => match ev_call e with queue_read _ => true | _ => false end) tr.
Definition mutex_held (tr : list (event fresp)) : bool :=
  fold_left (fun b e => match ev_call e with mutex_lock => true | mutex_unlock => false | _ => b end) tr false.

(** The queue always holds a frame, the media bug always has one, the resampler
    repeats every byte and a private is set; a test overrides some answers. *)
Definition answer (tr : list (event fresp)) (c : fcall) : fresp c :=
  match c with
  | load v => value v tr
  | time_ms => 1000
  | has_pool | event_create | pool_alloc | get_private => true
  | pcm_open => false
  | queue_read n => replicate (Z.to_nat n) 7
  | resample_process d => flat_map (fun x => [x; x]) d
  | bug_read => Some [1; 2]
  | resample_create | thread_create | pool_new | mutex_init | queue_create | cond_create | bug_add => SUCCESS
  | separate_string s => [s]
  | _ => tt
  end.

(** The server closes the connection after the first frame. *)
Definition answer_closing (tr : list (event fresp)) (c : fcall) : fresp c :=
  match c with
  | load closed => if decide (1 <= reads_of tr)%nat then 1 else 0
  | load ws_connected => 1
  | load v => value v tr
  | c => answer tr c
  end.

Definition run_closing {A} (m : FM A) :=
  run (fun tr c => (answer_closing tr c, tr ++ [Ev c (answer_closing tr c)])) [] m.

Lemma frames_sent_witness :
  let w := run_closing (connections (config_at 16000) "id" "(null)" 2 3) in
  let g := ghost audio_upd (mkAudio [] [] [] []) w.2 in
  wholes g = [replicate 320 7] /\ sent g = [replicate 640 7] /\ sent g = outputs g.
Proof.
  intros w g. split; [by vm_compute|]. split; [by vm_compute|].
  apply (frames_sent (config_at 16000) "id" "(null)" 2 3 w.2 w.1.1); [apply run_exec | | done].
  unfold w. vm_compute. by repeat split.
Defined.

Lemma connections_end_witness :
  let m := connections (config_at 8000) "id" "(null)" 2 3 in
  let w := run_closing m in
  let g := ghost progress_upd (mkProgress 0 0 0 0 0) w.2 in
  (created g = 1 /\ w.1.1 = Destroyed /\ ended g = 1 /\ clients g = 0 /\ created g <= Z.max 0 1) /\
  (forall tr, held m tr cond_wait -> last tr = Some (Ev (load hangup) 0)).
Proof.
  intros m w g. destruct (connections_end (config_at 8000) "id" "(null)" 2 2 3) as (He & Hw & _); [lia | done | done|].
  split; [|exact Hw]. split; [by vm_compute|]. apply (He w.2 w.1.1); [apply run_exec|]. unfold w. vm_compute. by repeat split.
Defined.

(** The media bug cannot be added; the condition variable cannot be made. *)
Definition answer_no_bug (tr : list (event fresp)) (c : fcall) : fresp c :=
  match c with bug_add => SWITCH_STATUS_FALSE | c => answer tr c end.
Definition answer_no_cond (tr : list (event fresp)) (c : fcall) : fresp c :=
  match c with cond_create => SWITCH_STATUS_FALSE | c => answer tr c end.
Definition run_start (env : list (event fresp) -> forall c, fresp c) :=
  run (fun tr c => (env tr c, tr ++ [Ev c (env tr c)])) [] (start_funasr (Some "x")).

Lemma start_outcome_witness :
  let w := run_start answer_no_bug in let w' := run_start answer_no_cond in
  let g := ghost starting_upd (mkStarting false false false false false false) w.2 in
  let g' := ghost starting_upd (mkStarting false false false false false false) w'.2 in
  (destroyed g = false /\ registered g = true /\ has_bug g = false /\ pool_held g = true) /\
  destroyed g' = true /\ null_wait g' = true.
Proof.
  intros w w' g g'. split.
  - assert (H : (destroyed g = true /\ null_wait g = true /\ registered g = false /\ has_bug g = false) \/
      (destroyed g = false /\ null_wait g = false /\ (has_bug g = true -> registered g = true) /\
       (registered g = true -> pool_held g = true))).
    { apply (start_outcome (Some "x") w.2); [|by unfold w; vm_compute].
      replace (Some tt) with w.1.1 by by vm_compute. apply run_exec. }
    destruct H as [[H _]|(_ & _ & _ & Hp)]; [by vm_compute in H|]. split_and!; try by vm_compute.
  - assert (H : (destroyed g' = true /\ null_wait g' = true /\ registered g' = false /\ has_bug g' = false) \/
      (destroyed g' = false /\ null_wait g' = false /\ (has_bug g' = true -> registered g' = true) /\
       (registered g' = true -> pool_held g' = true))).
    { apply (start_outcome (Some "x") w'.2); [|by unfold w'; vm_compute].
      replace (Some tt) with w'.1.1 by by vm_compute. apply run_exec. }
    destruct H as [(H1 & H2 & _)|[H _]]; [by split | by vm_compute in H].
Defined.

(** One step of a thread: the mutex is respected, and [cond_wait] is not
    scheduled. *)
Definition step1 (tr : list (event fresp)) (c : fcall) : option (fresp c * list (event fresp)) :=
  match c with
  | mutex_lock => if mutex_held tr then None else Some (answer tr c, tr ++ [Ev c (answer tr c)])
  | cond_wait => None
  | _ => Some (answer tr c, tr ++ [Ev c (answer tr c)])
  end.

Lemma asr_step_logged tr c r tr' : step1 tr c = Some (r, tr') -> logged tr c r tr'.
Proof.
  intros H. assert (H' : Some (answer tr c, tr ++ [Ev c (answer tr c)]) = Some (r, tr')).
  { rewrite <- H. destruct c; try done. cbn in *. by destruct (mutex_held tr). }
  injection H' as <- <-. split; [done|]. by destruct c.
Qed.

Definition sender : FM unit := connections (config_at 8000) "id" "(null)" 1 1 ;; mret tt.

(** A read that has found the connection open when its end is recorded. *)
Definition late_pool : list (FM unit) :=
  [media [ABC_READ; ABC_READ]; onopen (config_at 8000) "id"; onclose; sender].
Definition late_sched : list nat := (repeat 3 8 ++ repeat 1 6 ++ repeat 0 3 ++ repeat 2 4 ++ repeat 3 10 ++ repeat 0 9)%nat%list.
Definition late_end := played step1 late_sched ([], late_pool).

Lemma closed_for_good_witness : (late late_end.1).2 = 1 /\ (late late_end.1).2 <= 1.
Proof.
  split; [by vm_compute|].
  apply (closed_for_good (config_at 8000) "id" no_json "(null)" [ABC_READ; ABC_READ]
    [onopen (config_at 8000) "id"; onclose; sender] late_end.1 late_end.2).
  - repeat constructor.
  - replace (late_end.1, late_end.2) with late_end by by destruct late_end.
    apply (played_reachable logged step1); [apply asr_step_logged | by vm_compute].
Defined.

(** The thread tests [hangup] before the callback of the media bug sets it and
    signals, and waits afterwards: the signal is lost, and no other comes. *)
Example lost_wakeup :
  match play step1 (repeat 0 1 ++ repeat 1 6)%nat%list ([], [destroy; bug_close]) with
  | Some (tr, [Call cond_wait _; Ret tt]) => value hangup tr = 1
  | _ => False
  end.
Proof. vm_compute. reflexivity. Qed.

(** The callback sets [hangup] first: the thread destroys the mutex that the
    callback then locks. *)
Example mutex_locked_after_destroy :
  match play step1 (repeat 0 3 ++ repeat 1 8 ++ repeat 0 3)%nat%list ([], [bug_close; sender]) with
  | Some (tr, [Ret tt; Ret tt]) =>
      omap (fun e => match ev_call e with mutex_destroy => Some 0 | mutex_lock => Some 1 | pool_destroy => Some 2 | _ => None end) tr
      = [0; 2; 1]
  | _ => False
  end.
Proof. vm_compute. reflexivity. Qed.
