(* ===== verification/AudioQueue.v ===== *)
(** * The audio queue: [src/include/audio_queue.h]

    A byte queue between a writer and a reader of another thread, on top of a
    [switch_buffer], a mutex and a condition variable.  The buffer is an
    interface (a class with the laws its documentation states and an instance
    with lists); the threads are a step relation in which every action is a
    critical section of the mutex, and a reader that waits has released it. *)

From S2P Require Import Prelude Interaction SwitchCore.

#[local] Open Scope list_scope.
#[local] Open Scope Z_scope.

(** ** The buffer

    [switch_buffer_write] returns the number of bytes in use, or 0 when the
    data does not fit; [switch_buffer_read] reads at most what is there. *)

Class SwitchBuffer (B : Type) := {
  switch_buffer_inuse : B -> Z;
  switch_buffer_write : B -> list Z -> B * Z;
  switch_buffer_read : B -> Z -> B * list Z;
  switch_buffer_zero : B -> B;
}.

Class SwitchBufferLaws (B : Type) `{SwitchBuffer B} (contents : B -> list Z) (capacity : Z) : Prop := {
  inuse_contents b : switch_buffer_inuse b = Z.of_nat (length (contents b));
  write_fits b d : Z.of_nat (length (contents b) + length d) <= capacity ->
    contents (switch_buffer_write b d).1 = contents b ++ d /\
    (switch_buffer_write b d).2 = Z.of_nat (length (contents b) + length d);
  write_full b d : capacity < Z.of_nat (length (contents b) + length d) ->
    switch_buffer_write b d = (b, 0);
  read_contents b n : 0 <= n ->
    contents (switch_buffer_read b n).1 = drop (Z.to_nat n) (contents b) /\
    (switch_buffer_read b n).2 = take (Z.to_nat n) (contents b);
  zero_contents b : contents (switch_buffer_zero b) = [];
}.

(** [AUDIO_QUEUE_SIZE]. *)
Definition AUDIO_QUEUE_SIZE : Z := 320 * 50 * 15.

(** The buffer that holds its contents. *)
#[export] Instance list_buffer : SwitchBuffer (list Z) := {
  switch_buffer_inuse b := Z.of_nat (length b);
  switch_buffer_write b d :=
    if decide (Z.of_nat (length b + length d) <= AUDIO_QUEUE_SIZE)
    then (b ++ d, Z.of_nat (length b + length d)) else (b, 0);
  switch_buffer_read b n := (drop (Z.to_nat n) b, take (Z.to_nat n) b);
  switch_buffer_zero _ := [];
}.

#[export] Instance list_buffer_laws : SwitchBufferLaws (list Z) id AUDIO_QUEUE_SIZE.
Proof.
  split; cbn; intros; try done; unfold id.
  - by rewrite decide_True.
  - by rewrite decide_False by lia.
Qed.

Section AudioQueue.
Context {B : Type} `{SwitchBuffer B}.

(** [struct audio_queue]; the mutex and the condition variable are in the step
    relation below. *)
Record audio_queue := mkQueue {
  buffer : B;
  write_bytes : Z;
  read_bytes : Z;
  waiting : Z;
}.

Definition set_waiting (q : audio_queue) (w : Z) : audio_queue :=
  mkQueue (buffer q) (write_bytes q) (read_bytes q) w.

(** [audio_queue_create], from the results of creating the buffer, the mutex
    and the condition variable. *)
Definition audio_queue_create (alloc : bool) (buf : option B) (mutex cond : switch_status_t)
  : switch_status_t * option audio_queue :=
  if alloc then
    match buf with
    | None => (SWITCH_STATUS_FALSE, None)
    | Some b =>
        if decide (mutex <> SUCCESS) then (SWITCH_STATUS_FALSE, None)
        else if decide (cond <> SUCCESS) then (SWITCH_STATUS_FALSE, None)
        else (SUCCESS, Some (mkQueue b 0 0 0))
    end
  else (SWITCH_STATUS_FALSE, None).

(** [audio_queue_write]: also the new [*data_len], and whether it signals. *)
Definition audio_queue_write (q : audio_queue) (data : list Z)
  : audio_queue * switch_status_t * Z * bool :=
  let '(b, used) := switch_buffer_write (buffer q) data in
  if decide (0 < used) then
    let q := mkQueue b (u64 (write_bytes q + Z.of_nat (length data))) (read_bytes q) (waiting q) in
    (q, SUCCESS, Z.of_nat (length data), bool_decide (waiting q <= switch_buffer_inuse b))
  else (mkQueue b (write_bytes q) (read_bytes q) (waiting q), SWITCH_STATUS_FALSE, 0, false).

(** [audio_queue_read], in two parts: a reader either returns or waits. *)
Inductive read_result :=
| Return (q : audio_queue) (status : switch_status_t) (data : list Z)
| Wait (q : audio_queue).

(** From the end of the waiting loop on. *)
Definition read_take (q : audio_queue) (requested : Z) : read_result :=
  let requested := if decide (switch_buffer_inuse (buffer q) < requested)
                   then switch_buffer_inuse (buffer q) else requested in
  if decide (requested = 0) then Return q SWITCH_STATUS_FALSE []
  else
    let '(b, data) := switch_buffer_read (buffer q) requested in
    Return (mkQueue b (write_bytes q) (u64 (read_bytes q + Z.of_nat (length data))) (waiting q)) SUCCESS data.

(** The test of the waiting loop. *)
Definition read_wait (q : audio_queue) (requested : Z) : read_result :=
  if decide (switch_buffer_inuse (buffer q) < requested) then Wait (set_waiting q requested)
  else read_take (set_waiting q 0) requested.

(** From the call on. *)
Definition audio_queue_read (q : audio_queue) (requested : Z) (block : bool) : read_result :=
  if decide (read_bytes q = 0 /\ switch_buffer_inuse (buffer q) < requested) then Return q SUCCESS []
  else if block then read_wait q requested
  else read_take q requested.

(** From the return of [switch_thread_cond_timedwait] on. *)
Definition read_wake (q : audio_queue) (requested : Z) (timeout : bool) : read_result :=
  if timeout then read_take (set_waiting q 0) requested else read_wait q requested.

(** [audio_queue_clear]: the critical section, then the counters, which it
    resets without the mutex. *)
Definition audio_queue_clear_buffer (q : audio_queue) : audio_queue :=
  mkQueue (switch_buffer_zero (buffer q)) (write_bytes q) (read_bytes q) (waiting q).
Definition audio_queue_clear_counters (q : audio_queue) : audio_queue := mkQueue (buffer q) 0 0 0.

(** ** The threads *)

Inductive reader := Idle | Waiting (requested : Z) (signalled : bool).

(** [accepted] and [given]: the bytes accepted by writes and returned by reads
    since the buffer was last emptied. *)
Record system := mkSystem {
  queue : audio_queue;
  rd_state : reader;
  accepted : list Z;
  given : list Z;
}.

(** A signal reaches the reader if it waits. *)
Definition signal (r : reader) (s : bool) : reader :=
  match r with
  | Waiting n s' => Waiting n (s || s')
  | Idle => Idle
  end.

Definition after_read (s : system) (requested : Z) (r : read_result) : system :=
  match r with
  | Return q _ data => mkSystem q Idle (accepted s) (given s ++ data)
  | Wait q => mkSystem q (Waiting requested false) (accepted s) (given s)
  end.

Inductive step : system -> system -> Prop :=
| step_write s data q status n sig :
    audio_queue_write (queue s) data = (q, status, n, sig) ->
    step s (mkSystem q (signal (rd_state s) sig)
              (if decide (status = SUCCESS) then accepted s ++ data else accepted s) (given s))
| step_read s requested block : rd_state s = Idle -> 0 <= requested < 2 ^ 63 ->
    step s (after_read s requested (audio_queue_read (queue s) requested block))
| step_wake s requested sig timeout : rd_state s = Waiting requested sig ->
    step s (after_read s requested (read_wake (queue s) requested timeout))
| step_clear_buffer s :
    step s (mkSystem (audio_queue_clear_buffer (queue s)) (signal (rd_state s) true) [] [])
| step_clear_counters s :
    step s (mkSystem (audio_queue_clear_counters (queue s)) (rd_state s) (accepted s) (given s))
| step_signal s :
    step s (mkSystem (queue s) (signal (rd_state s) true) (accepted s) (given s)).

Definition steps := rtc step.

(** ** Invariant *)

Context (contents : B -> list Z) (capacity : Z) `{!SwitchBufferLaws B contents capacity}.

(** What was accepted is what was given and what is in the buffer, in order;
    a waiting reader that has enough bytes has been signalled. *)
Record system_ok (s : system) : Prop := {
  ok_fifo : accepted s = given s ++ contents (buffer (queue s));
  ok_capacity : Z.of_nat (length (contents (buffer (queue s)))) <= capacity;
  ok_waiting : match rd_state s with
    | Idle => True
    | Waiting requested sig =>
        0 <= requested /\ (waiting (queue s) = requested \/ waiting (queue s) = 0) /\
        (sig = true \/ Z.of_nat (length (contents (buffer (queue s)))) < requested)
    end;
}.

Lemma write_spec q data : exists q' status n sig, audio_queue_write q data = (q', status, n, sig) /\
  waiting q' = waiting q /\ read_bytes q' = read_bytes q /\
  ((status = SUCCESS /\ n = Z.of_nat (length data) /\ contents (buffer q') = contents (buffer q) ++ data /\
    Z.of_nat (length (contents (buffer q'))) <= capacity /\
    sig = bool_decide (waiting q <= Z.of_nat (length (contents (buffer q'))))) \/
   (status = SWITCH_STATUS_FALSE /\ n = 0 /\ contents (buffer q') = contents (buffer q) /\ sig = false /\
    (capacity < Z.of_nat (length (contents (buffer q)) + length data) \/
     data = [] /\ contents (buffer q) = []))).
Proof.
  unfold audio_queue_write.
  destruct (decide (Z.of_nat (length (contents (buffer q)) + length data) <= capacity)) as [Hf|Hf].
  - destruct (write_fits (buffer q) data Hf) as [E1 E2].
    destruct (switch_buffer_write (buffer q) data) as [b used]. cbn in E1, E2. case_decide as Hu.
    + do 4 eexists. split; [done|]. split; [done|]. split; [done|]. left. cbn.
      rewrite inuse_contents, E1, length_app. split; [done|]. split; [done|]. split; [done|]. split; [lia|done].
    + do 4 eexists. split; [done|]. split; [done|]. split; [done|]. right. cbn.
      destruct data; [|cbn in E2; lia]. destruct (contents (buffer q)) eqn:E; [|cbn in E2; lia].
      rewrite E1. split; [done|]. split; [done|]. split; [done|]. split; [done|]. by right.
  - rewrite write_full by lia. rewrite decide_False by lia. do 4 eexists. split; [done|]. split; [done|].
    split; [done|]. right. cbn. split; [done|]. split; [done|]. split; [done|]. split; [done|]. left. lia.
Qed.

(** A read that goes on to take bytes. *)
Lemma read_take_spec q requested : 0 <= requested ->
  exists q', waiting q' = waiting q /\
  let c := contents (buffer q) in
  ((c <> [] /\ 0 < requested /\ read_take q requested = Return q' SUCCESS (take (Z.to_nat requested) c) /\
    contents (buffer q') = drop (Z.to_nat requested) c /\
    read_bytes q' = u64 (read_bytes q + Z.of_nat (length (take (Z.to_nat requested) c)))) \/
   ((c = [] \/ requested = 0) /\ q' = q /\ read_take q requested = Return q SWITCH_STATUS_FALSE [])).
Proof.
  intros Hr. unfold read_take. rewrite inuse_contents. set (c := contents (buffer q)).
  assert (exists r, (if decide (Z.of_nat (length c) < requested) then Z.of_nat (length c) else requested) = r /\
    0 <= r /\ r = Z.min (Z.of_nat (length c)) requested) as (r & -> & Hr0 & Hmin)
    by (case_decide; eexists; (split; [done|]; lia)).
  case_decide as Hz.
  - exists q. split; [done|]. right. split; [|done]. destruct c; [by left | right; cbn in Hmin; lia].
  - destruct (read_contents (buffer q) r Hr0) as [E1 E2].
    destruct (switch_buffer_read (buffer q) r) as [b data]. cbn in E1, E2.
    assert (data = take (Z.to_nat requested) c) as Ed.
    { rewrite E2. fold c. destruct (decide (requested <= Z.of_nat (length c))).
      - by replace r with requested by lia.
      - rewrite !take_ge by lia. done. }
    eexists (mkQueue b _ _ _). split; [cbn; done|]. left. split; [intros E; rewrite E in Hmin; cbn in Hmin; lia|].
    split; [lia|]. rewrite Ed. split; [done|]. cbn. split; [|done]. rewrite E1. fold c.
    destruct (decide (requested <= Z.of_nat (length c))).
    + by replace r with requested by lia.
    + rewrite !drop_ge by lia. done.
Qed.

(** Any read result keeps the invariant. *)
Lemma take_ok s requested q : system_ok s -> 0 <= requested -> buffer q = buffer (queue s) ->
  system_ok (after_read s requested (read_take q requested)).
Proof.
  intros [Hf Hc _] Hr Hq.
  destruct (read_take_spec q requested Hr) as (q' & _ & [(_ & _ & -> & Hb & _) | (_ & -> & ->)]); cbn.
  - split; cbn; [| |done]; rewrite Hb, Hq.
    + by rewrite Hf, <- app_assoc, take_drop.
    + rewrite length_drop. lia.
  - split; cbn; rewrite ?Hq, ?app_nil_r; done.
Qed.

Lemma wait_ok s requested q : system_ok s -> 0 <= requested -> buffer q = buffer (queue s) ->
  system_ok (after_read s requested (read_wait q requested)).
Proof.
  intros Hs Hr Hq. unfold read_wait. rewrite inuse_contents, Hq. case_decide as Hlt; [|by apply take_ok].
  destruct Hs as [Hf Hc _]. split; cbn; rewrite ?Hq; [done | done |]. auto.
Qed.

Lemma step_ok s s' : step s s' -> system_ok s -> system_ok s'.
Proof.
  intros [s0 data q status n sig E | s0 requested block Hi Hr | s0 requested sig timeout Hw | s0 | s0 | s0] Hs.
  - destruct (write_spec (queue s0) data) as (q' & st & n' & sg & E' & Hw & _ & Hcase).
    rewrite E in E'. injection E' as <- <- <- <-. destruct Hs as [Hf Hc Hr].
    destruct Hcase as [(-> & _ & Hb & Hcap & ->) | (-> & _ & Hb & -> & _)].
    + split; cbn; [by rewrite Hf, Hb, app_assoc | done |].
      destruct (rd_state s0) as [|requested sg]; cbn; [done|]. destruct Hr as (Hr0 & Hwt & Hsg).
      split; [done|]. split; [by rewrite Hw|]. rewrite Hb, length_app in *.
      destruct (decide (Z.of_nat (length (contents (buffer (queue s0))) + length data) < requested)); [by right|].
      left. rewrite bool_decide_true; [done|]. lia.
    + split; cbn; [by rewrite Hb | by rewrite Hb |].
      destruct (rd_state s0) as [|requested sg]; cbn; [done|]. by rewrite Hb, Hw.
  - unfold audio_queue_read. case_decide.
    + destruct Hs as [Hf Hc Hw]. split; cbn; [by rewrite app_nil_r | done | done].
    + destruct block; [apply wait_ok | apply take_ok]; done || lia.
  - assert (0 <= requested) by (destruct Hs as [_ _ Hs]; rewrite Hw in Hs; lia).
    unfold read_wake. destruct timeout; [by apply take_ok | by apply wait_ok].
  - destruct Hs as [Hf Hc Hw]. split; cbn; rewrite ?zero_contents; [done | cbn; lia |].
    destruct (rd_state s0); cbn; [done|]. destruct Hw as (? & ? & _). auto.
  - destruct Hs as [Hf Hc Hw]. split; cbn; [done | done |].
    destruct (rd_state s0); cbn; [done|]. destruct Hw as (? & ? & ?). auto.
  - destruct Hs as [Hf Hc Hw]. split; cbn; [done | done |].
    destruct (rd_state s0); cbn; [done|]. destruct Hw as (? & ? & ?). auto.
Qed.

Lemma steps_ok s s' : steps s s' -> system_ok s -> system_ok s'.
Proof. induction 1; eauto using step_ok. Qed.

(** The queue just created. *)
Definition system_init (b : B) : system := mkSystem (mkQueue b 0 0 0) Idle [] [].

Lemma init_ok b : 0 <= capacity -> contents b = [] -> system_ok (system_init b).
Proof. intros Hc Hb. split; cbn; rewrite ?Hb; done. Qed.

(** ** Properties *)

(** [C5] Whatever the interleaving of writes, reads that block, time out or are
    woken spuriously, clears and signals: the bytes given to readers and the
    bytes in the buffer are, in order, the bytes accepted since the queue was
    last emptied, the buffer never exceeds its capacity, and a reader that
    waits for no more than what is there has been signalled (no wake-up is
    lost, even when a clear resets the counters outside of the mutex). *)
Theorem audio_queue_fifo b s : 0 <= capacity -> contents b = [] -> steps (system_init b) s ->
  accepted s = given s ++ contents (buffer (queue s)) /\
  Z.of_nat (length (contents (buffer (queue s)))) <= capacity /\
  (forall requested sig, rd_state s = Waiting requested sig ->
    requested <= Z.of_nat (length (contents (buffer (queue s)))) -> sig = true).
Proof.
  intros Hcap Hb Hs. destruct (steps_ok _ _ Hs (init_ok b Hcap Hb)) as [Hf Hc Hw].
  split; [done|]. split; [done|]. intros requested sig E Hle. rewrite E in Hw.
  destruct Hw as (_ & _ & [?|?]); [done|lia].
Qed.

(** A write takes all of the data or none: it succeeds with the data
    appended and [*data_len] unchanged exactly when the data fits (and the
    queue does not stay empty), and otherwise reports 0 and leaves the buffer. *)
Theorem audio_queue_write_all_or_nothing q data :
  exists q' status n sig, audio_queue_write q data = (q', status, n, sig) /\
  (if decide (Z.of_nat (length (contents (buffer q)) + length data) <= capacity /\
              (data <> [] \/ contents (buffer q) <> []))
   then status = SUCCESS /\ n = Z.of_nat (length data) /\ contents (buffer q') = contents (buffer q) ++ data
   else status = SWITCH_STATUS_FALSE /\ n = 0 /\ contents (buffer q') = contents (buffer q) /\ sig = false).
Proof.
  destruct (write_spec q data) as (q' & st & n & sg & E & _ & _ & Hcase).
  exists q', st, n, sg. split; [done|].
  destruct Hcase as [(-> & -> & Hb & Hcap & _) | (-> & -> & Hb & -> & Hfull)].
  - case_decide as Hd; [done|]. exfalso. rewrite Hb, length_app in Hcap. apply Hd. split; [lia|].
    destruct data; [|by left]. right. intros Hc. 
    unfold audio_queue_write in E. destruct (write_fits (buffer q) []) as [_ E2]; [cbn; lia|].
    destruct (switch_buffer_write (buffer q) []) as [b u]. cbn in E2. rewrite Hc in E2. cbn in E2. subst u.
    by rewrite decide_False in E by lia.
  - rewrite decide_False; [done|]. intros [Hfit Hne]. destruct Hfull as [?|[-> Hc]]; [lia|].
    destruct Hne; congruence.
Qed.

(** What a read gives.  Before the first byte was ever read it gives
    nothing, with SUCCESS, until a whole request is there; after that it
    waits, when it may, until the request or the timeout, and takes the bytes
    that are there up to the request, failing when there are none. *)
Theorem audio_queue_read_outcome q requested block : 0 <= requested ->
  let c := contents (buffer q) in
  match audio_queue_read q requested block with
  | Wait q' => block = true /\ Z.of_nat (length c) < requested /\ read_bytes q <> 0 /\ q' = set_waiting q requested
  | Return q' status data =>
      (data = [] /\ status = SUCCESS /\ read_bytes q = 0 /\ Z.of_nat (length c) < requested /\ q' = q) \/
      (data = [] /\ status = SWITCH_STATUS_FALSE /\ (requested = 0 \/ block = false /\ c = []) /\
        contents (buffer q') = c) \/
      (data <> [] /\ status = SUCCESS /\ data = take (Z.to_nat requested) c /\
        contents (buffer q') = drop (Z.to_nat requested) c /\
        (block = true -> Z.of_nat (length data) = requested))
  end.
Proof.
  intros Hr c. unfold audio_queue_read, read_wait. rewrite !inuse_contents. fold c.
  case_decide as Hfirst; [left; naive_solver|].
  assert (Htake : forall q0, buffer q0 = buffer q -> (block = true -> requested <= Z.of_nat (length c)) ->
    match read_take q0 requested with
    | Wait _ => False
    | Return q' status data =>
        (data = [] /\ status = SWITCH_STATUS_FALSE /\ (requested = 0 \/ block = false /\ c = []) /\
          contents (buffer q') = c) \/
        (data <> [] /\ status = SUCCESS /\ data = take (Z.to_nat requested) c /\
          contents (buffer q') = drop (Z.to_nat requested) c /\
          (block = true -> Z.of_nat (length data) = requested))
    end).
  { intros q0 Hq0 Hb. destruct (read_take_spec q0 requested Hr) as (q' & _ & Hcase). rewrite Hq0 in Hcase.
    fold c in Hcase. destruct Hcase as [(Hc & Hpos & -> & Hbuf & _) | (Hz & -> & ->)].
    - right. split; [destruct c, (Z.to_nat requested) eqn:E; cbn; (done || lia)|]. split; [done|]. split; [done|].
      split; [done|]. intros Hbt. rewrite length_take. specialize (Hb Hbt). lia.
    - left. split; [done|]. split; [done|]. split; [|by rewrite Hq0].
      destruct Hz as [Hz|]; [|by left]. destruct block; [|by right]. left. rewrite Hz in Hb. cbn in Hb. lia. }
  destruct block; [case_decide as Hlt|].
  - split; [done|]. split; [done|]. split; [|done]. intros E. apply Hfirst. done.
  - specialize (Htake (set_waiting q 0) eq_refl). destruct (read_take (set_waiting q 0) requested);
      [right; apply Htake; lia | exfalso; apply Htake; lia].
  - specialize (Htake q eq_refl). destruct (read_take q requested); [right; by apply Htake | exfalso; by apply Htake].
Qed.

End AudioQueue.

(** The laws hold of the buffer that holds its contents, and so do the
    properties: a write of two bytes, a read of one. *)
Lemma audio_queue_fifo_witness :
  exists s : system, steps (system_init (B := list Z) []) s /\ given s = [1] /\
    accepted s = given s ++ id (buffer (queue s)).
Proof.
  set (s1 := mkSystem (mkQueue [1; 2] 2 0 0) Idle [1; 2] []).
  set (s2 := mkSystem (mkQueue [2] 2 1 0) Idle [1; 2] [1]).
  assert (steps (system_init (B := list Z) []) s2) as Hs.
  { apply (rtc_l _ _ s1).
    - apply (step_write (system_init []) [1; 2] (mkQueue [1; 2] 2 0 0) SUCCESS 2 true). reflexivity.
    - apply (rtc_l _ _ s2); [|constructor].
      replace s2 with (after_read s1 1 (audio_queue_read (queue s1) 1 true)) by (vm_compute; reflexivity).
      apply (step_read s1 1 true); [done|lia]. }
  exists s2. split; [exact Hs|]. split; [done|].
  apply (audio_queue_fifo id AUDIO_QUEUE_SIZE [] s2); [done | done | exact Hs].
Defined.

Lemma audio_queue_read_outcome_witness :
  match audio_queue_read (mkQueue (B := list Z) [1; 2] 2 0 0) 4 true with
  | Wait _ => False
  | Return _ status data => status = SUCCESS /\ data = []
  end.
Proof.
  pose proof (audio_queue_read_outcome id AUDIO_QUEUE_SIZE (mkQueue (B := list Z) [1; 2] 2 0 0) 4 true ltac:(lia)) as H.
  vm_compute in H |- *. tauto.
Defined.

(** A full queue refuses the last byte. *)
Lemma audio_queue_write_all_or_nothing_witness :
  exists q' status n sig,
    audio_queue_write (mkQueue (B := list Z) (replicate (Z.to_nat AUDIO_QUEUE_SIZE) 7) 0 0 0) [1] = (q', status, n, sig) /\
    status = SWITCH_STATUS_FALSE.
Proof.
  destruct (audio_queue_write_all_or_nothing id AUDIO_QUEUE_SIZE
    (mkQueue (B := list Z) (replicate (Z.to_nat AUDIO_QUEUE_SIZE) 7) 0 0 0) [1]) as (q' & st & n & sg & E & H).
  exists q', st, n, sg. split; [exact E|].
  rewrite decide_False in H; [apply H|].
  unfold id. cbn [buffer length]. rewrite length_replicate. lia.
Defined.
