(* ===== verification/EnergyDetect.v ===== *)
(** * Energy detection on a call leg: [switch_ivr_wait_for_silence],
    [switch_ivr_detect_audio] and [switch_ivr_detect_silence] of
    [src/switch_ivr_play_say.c]

    The session's media functions are the calls of the signature [mcall].  The
    loops have no bound of their own, so they take fuel; with a timeout the
    fuel is shown to suffice. *)

From Stdlib Require Import String.
From S2P Require Import Prelude Interaction SwitchCore.

#[local] Open Scope list_scope.
#[local] Open Scope Z_scope.

(** ** The media calls *)

(** [switch_codec_implementation_t], the fields used. *)
Record read_implementation := mkImpl {
  actual_samples_per_second : Z;
  number_of_channels : Z;
  microseconds_per_packet : Z;
}.

(** [switch_frame_t]: [fr_data] is the memory [data] points to, from the
    samples of the frame to the end of the buffer. *)
Record switch_frame := mkFrame { fr_seq : Z; fr_samples : Z; fr_data : list Z }.

Inductive mcall :=
| switch_core_session_get_read_impl
| switch_core_file_open (file : string) (channels rate : Z)
| switch_core_file_read (olen : Z)
| switch_core_file_close
| switch_core_codec_init (rate ms : Z)
| switch_core_codec_destroy
| switch_core_session_set_read_codec
| media_channel_ready
| switch_core_session_read_frame
| switch_core_session_write_frame (samples datalen : Z)
| switch_core_session_reset (flush_dtmf reset_read_codec : bool)
| media_set_variable (name : string) (value : var_value).

(** [switch_core_file_open] also gives the channels of the file,
    [switch_core_codec_init] the samples per packet of the implementation,
    [switch_core_file_read] the number of samples read. *)
Definition mresp (c : mcall) : Type :=
  match c with
  | switch_core_session_get_read_impl => read_implementation
  | switch_core_file_open _ _ _ => switch_status_t * Z
  | switch_core_file_read _ => switch_status_t * Z
  | switch_core_codec_init _ _ => switch_status_t * Z
  | media_channel_ready => bool
  | switch_core_session_read_frame => switch_status_t * switch_frame
  | switch_core_session_write_frame _ _ => switch_status_t
  | _ => unit
  end%type.

Notation MM A := (prog mresp A).
Notation mtrace := (list (event mresp)).

(** [SWITCH_READ_ACCEPTABLE], a macro of the core. *)
Class MediaDefs := { SWITCH_READ_ACCEPTABLE : switch_status_t -> bool }.

Section EnergyDetect.
Context `{MediaDefs}.

(** ** The energy of a frame *)

(** [for (energy = 0, j = 0, count = 0; count < samples; count++) {
      energy += abs(data[j++]); j += channels; }], for the [n] samples from
    the index [j].  The sum is an integer below [2^53], exact as a double. *)
Fixpoint frame_energy (n : nat) (data : list Z) (channels j energy : Z) : option Z :=
  match n with
  | O => Some energy
  | S n' =>
      d ← rd data j;
      frame_energy n' data channels (j + 1 + channels) (energy + Z.abs d)
  end.

(** [(uint32_t) (energy / (samples / divisor))]. *)
Definition frame_score (divisor samples energy : Z) : option Z :=
  if decide (divisor = 0) then None
  else
    let n := samples / divisor in
    if decide (n = 0) then None
    else
      let q := energy / n in
      if decide (q < 2 ^ 32) then Some q else None.

Definition score_of (divisor channels : Z) (fr : switch_frame) : option Z :=
  energy ← frame_energy (Z.to_nat (fr_samples fr)) (fr_data fr) channels 0 0;
  frame_score divisor (fr_samples fr) energy.

(** ** What the loops share *)

(** [sample_count = (rate / 1000) * timeout_ms] as an [int32_t]. *)
Definition timeout_samples (impl : read_implementation) (timeout_ms : Z) : Z :=
  if decide (timeout_ms <> 0)
  then i32 (u32 (actual_samples_per_second impl / 1000 * timeout_ms)) else 0.

Fixpoint set_variables (vs : list (string * var_value)) : MM unit :=
  match vs with
  | [] => mret tt
  | (n, v) :: vs' => invoke (media_set_variable n v) ;; set_variables vs'
  end.

(** The start of an iteration, up to the use of the frame: reading it, the
    timeout, and playing a packet of the file.  [None] for the frame is a
    [break]. *)
Definition next_frame (fh : option Z) (spp sample_count : Z) (timeout_vars : list (string * var_value))
  : MM (switch_status_t * Z * option switch_frame) :=
  '(status, frame) ← invoke switch_core_session_read_frame;
  if negb (SWITCH_READ_ACCEPTABLE status) then mret (status, sample_count, None)
  else
    let sc := if decide (sample_count <> 0) then i32 (sample_count - spp) else sample_count in
    if decide (sample_count <> 0 /\ sc <= 0) then
      set_variables timeout_vars ;; mret (status, sc, None)
    else
      match fh with
      | None => mret (status, sc, Some frame)
      | Some channels =>
          '(st, olen) ← invoke (switch_core_file_read spp);
          if decide (st <> SUCCESS) then mret (status, sc, None)
          else
            st ← invoke (switch_core_session_write_frame (u32 olen) (u32 (olen * 2 * channels)));
            if decide (st <> SUCCESS) then mret (st, sc, None) else mret (st, sc, Some frame)
      end.

(** From the codec on: the loop runs between its initialisation and its
    destruction, and the file is closed at [end]. *)
Definition media_body (impl : read_implementation) (sample_count : Z)
    (loop : option Z -> Z -> Z -> Z -> Z -> MM result) (fh : option Z) : MM result :=
  '(st, spp) ← invoke (switch_core_codec_init (actual_samples_per_second impl) (microseconds_per_packet impl / 1000));
  r ← (if decide (st <> SUCCESS) then mret (Finished SWITCH_STATUS_FALSE)
       else
         invoke switch_core_session_set_read_codec ;;
         r ← loop fh spp sample_count (actual_samples_per_second impl / 8000) (number_of_channels impl);
         match r with
         | Finished s =>
             invoke (switch_core_session_reset false true) ;;
             invoke switch_core_codec_destroy ;; mret (Finished s)
         | r => mret r
         end);
  match r, fh with
  | Finished s, Some _ => invoke switch_core_file_close ;; mret (Finished s)
  | r, _ => mret r
  end.

(** The whole of a function around its loop. *)
Definition with_media (timeout_ms : Z) (file : option string)
    (loop : option Z -> Z -> Z -> Z -> Z -> MM result) : MM result :=
  impl ← invoke switch_core_session_get_read_impl;
  let sample_count := timeout_samples impl timeout_ms in
  match file with
  | None => media_body impl sample_count loop None
  | Some f =>
      '(st, ch) ← invoke (switch_core_file_open f (number_of_channels impl) (actual_samples_per_second impl));
      if decide (st <> SUCCESS) then
        invoke (switch_core_session_reset true false) ;; mret (Finished SWITCH_STATUS_NOTFOUND)
      else media_body impl sample_count loop (Some ch)
  end.

(** ** [switch_ivr_detect_audio] and [switch_ivr_detect_silence]

    The same loop: [hit] tells which scores count, [limit] how many in a row. *)
Fixpoint detect_loop (timeout_var hits_var : string) (hit : Z -> bool) (limit : Z) (fuel : nat)
    (status : switch_status_t) (hits : Z) (fh : option Z) (spp sample_count divisor channels : Z)
  : MM result :=
  match fuel with
  | O => mret OutOfFuel
  | S fuel' =>
      ready ← invoke media_channel_ready;
      if negb ready then mret (Finished status)
      else
        '(status, sample_count, frame) ← next_frame fh spp sample_count
            [(timeout_var, VString "true"); (hits_var, VInt (i32 hits))];
        match frame with
        | None => mret (Finished status)
        | Some fr =>
            match score_of divisor channels fr with
            | None => mret Undefined
            | Some score =>
                let hits := if hit score then u32 (hits + 1) else 0 in
                if decide (limit < hits) then
                  invoke (media_set_variable timeout_var (VString "false")) ;; mret (Finished status)
                else detect_loop timeout_var hits_var hit limit fuel' status hits fh spp sample_count divisor channels
            end
        end
  end.

Definition switch_ivr_detect_audio (fuel : nat) (thresh audio_hits timeout_ms : Z) (file : option string)
  : MM result :=
  with_media timeout_ms file
    (detect_loop "detect_audio_timeout" "detect_audio_hits" (fun score => thresh <=? score) audio_hits
       fuel SWITCH_STATUS_FALSE 0).

Definition switch_ivr_detect_silence (fuel : nat) (thresh silence_hits timeout_ms : Z) (file : option string)
  : MM result :=
  with_media timeout_ms file
    (detect_loop "detect_silence_timeout" "detect_silence_hits" (fun score => score <=? thresh) silence_hits
       fuel SWITCH_STATUS_FALSE 0).

(** ** [switch_ivr_wait_for_silence] *)

Definition wait_vars (timeout : string) (listening silence_hits : Z) : list (string * var_value) :=
  [("wait_for_silence_timeout", VString timeout);
   ("wait_for_silence_listenhits", VInt (i32 listening));
   ("wait_for_silence_silence_hits", VInt (i32 silence_hits))]%string.

Fixpoint wait_loop (thresh org_silence_hits listen_hits : Z) (fuel : nat) (status : switch_status_t)
    (listening silence_hits countdown : Z) (fh : option Z) (spp sample_count divisor channels : Z)
  : MM result :=
  match fuel with
  | O => mret OutOfFuel
  | S fuel' =>
      ready ← invoke media_channel_ready;
      if negb ready then mret (Finished status)
      else
        '(status, sample_count, frame) ← next_frame fh spp sample_count (wait_vars "true" listening silence_hits);
        match frame with
        | None => mret (Finished status)
        | Some fr =>
            if decide (countdown <> 0) then
              let countdown := countdown - 1 in
              if decide (countdown = 0) then
                set_variables (wait_vars "false" listening silence_hits) ;; mret (Finished status)
              else wait_loop thresh org_silence_hits listen_hits fuel' status listening silence_hits countdown
                     fh spp sample_count divisor channels
            else
              match (if decide (fr_seq fr <> 0) then score_of divisor channels fr
                     else frame_score divisor (fr_samples fr) 0) with
              | None => mret Undefined
              | Some score =>
                  let listening := if thresh <=? score then u32 (listening + 1) else listening in
                  if decide ((listen_hits = 0 \/ listen_hits < listening) /\ score < thresh) then
                    let silence_hits := u32 (silence_hits - 1) in
                    wait_loop thresh org_silence_hits listen_hits fuel' status listening silence_hits
                      (if decide (silence_hits = 0) then 25 else countdown) fh spp sample_count divisor channels
                  else
                    wait_loop thresh org_silence_hits listen_hits fuel' status listening org_silence_hits countdown
                      fh spp sample_count divisor channels
              end
        end
  end.

Definition switch_ivr_wait_for_silence (fuel : nat) (thresh silence_hits listen_hits timeout_ms : Z)
    (file : option string) : MM result :=
  with_media timeout_ms file
    (wait_loop thresh silence_hits listen_hits fuel SWITCH_STATUS_FALSE 0 silence_hits 0).

(** ** Resources: what is opened is closed *)

(** Files and codecs that are open. *)
Definition media_upd (g : Z * Z) (e : event mresp) : Z * Z :=
  match e with
  | Ev (switch_core_file_open _ _ _) (st, _) => if decide (st = SUCCESS) then (g.1 + 1, g.2) else g
  | Ev switch_core_file_close _ => (g.1 - 1, g.2)
  | Ev (switch_core_codec_init _ _) (st, _) => if decide (st = SUCCESS) then (g.1, g.2 + 1) else g
  | Ev switch_core_codec_destroy _ => (g.1, g.2 - 1)
  | _ => g
  end.

Notation wpm := (wp any_answer media_upd).

#[local] Notation neutral := (neutral media_upd).

Lemma neutral_set_variables vs : neutral (set_variables vs).
Proof. induction vs as [|[n v] vs IH]; [apply neutral_ret|]. intros g ? _. apply IH. Qed.

Lemma neutral_next_frame fh spp sc vs : neutral (next_frame fh spp sc vs).
Proof.
  unfold next_frame. apply neutral_bind; [by intros g ? _|]. intros [st fr].
  destruct (negb _); [apply neutral_ret|]. cbn zeta. case_decide.
  - apply neutral_bind; [apply neutral_set_variables | intros _; apply neutral_ret].
  - destruct fh; [|apply neutral_ret]. apply neutral_bind; [by intros g ? _|]. intros [st' olen].
    destruct (decide (st' <> SUCCESS)); [apply neutral_ret|].
    apply neutral_bind; [by intros g ? _|]. intros st''.
    destruct (decide (st'' <> SUCCESS)); apply neutral_ret.
Qed.

Lemma neutral_detect_loop tv hv hit limit fuel : forall status hits fh spp sc divisor channels,
  neutral (detect_loop tv hv hit limit fuel status hits fh spp sc divisor channels).
Proof.
  induction fuel as [|fuel IH]; intros; cbn [detect_loop]; [apply neutral_ret|].
  apply neutral_bind; [by intros g ? _|]. intros ready. destruct (negb ready); [apply neutral_ret|].
  apply neutral_bind; [apply neutral_next_frame|]. intros [[st sc'] [fr|]]; [|apply neutral_ret].
  destruct (score_of _ _ _); [|apply neutral_ret]. cbn zeta. case_decide; [|apply IH].
  apply neutral_bind; [by intros g ? _ | intros _; apply neutral_ret].
Qed.

Lemma neutral_wait_loop thresh org lh fuel : forall status l sh cd fh spp sc divisor channels,
  neutral (wait_loop thresh org lh fuel status l sh cd fh spp sc divisor channels).
Proof.
  induction fuel as [|fuel IH]; intros; cbn [wait_loop]; [apply neutral_ret|].
  apply neutral_bind; [by intros g ? _|]. intros ready. destruct (negb ready); [apply neutral_ret|].
  apply neutral_bind; [apply neutral_next_frame|]. intros [[st sc'] [fr|]]; [|apply neutral_ret].
  case_decide; cbn zeta; [case_decide; [|apply IH] |].
  - apply neutral_bind; [apply neutral_set_variables | intros _; apply neutral_ret].
  - destruct (if decide _ then _ else _); [|apply neutral_ret]. case_decide; apply IH.
Qed.

Lemma with_media_balanced timeout_ms file loop :
  (forall fh spp sc divisor channels, neutral (loop fh spp sc divisor channels)) ->
  wpm (with_media timeout_ms file loop) (0, 0) (fun g r => forall st, r = Finished st -> g = (0, 0)).
Proof.
  intros Hloop. unfold with_media. intros impl _. cbn zeta. cbn [bindp].
  change (media_upd (0, 0) _) with (0, 0).
  assert (Hrest : forall fh : option Z, wpm (media_body impl (timeout_samples impl timeout_ms) loop fh)
    (match fh with Some _ => 1 | None => 0 end, 0) (fun g r => forall st, r = Finished st -> g = (0, 0))).
  { intros fh [st spp] _. cbn [mbind prog_bind bindp]. apply wp_bind.
    apply wp_mono with (Q := fun g r => forall s, r = Finished s -> g = (match fh with Some _ => 1 | None => 0 end, 0)).
    { intros g [s| |] Hg; cbn; [|done..]. specialize (Hg s eq_refl) as ->.
      destruct fh; cbn; [intros ? _; cbn|]; done. }
    destruct (decide (st <> SUCCESS)) as [Hst|Hst]; [cbn; intros s _; by rewrite decide_False by congruence|].
    apply dec_stable in Hst as ->. intros [] _. cbn. apply wp_bind.
    eapply wp_mono; [|apply Hloop]. intros g [s| |] ->; cbn; [|done..].
    intros [] _ [] _. cbn. intros s' _. destruct fh; done. }
  destruct file as [f|]; [|apply (Hrest None)].
  intros [st ch] _. cbn [mbind prog_bind bindp].
  destruct (decide (st <> SUCCESS)) as [Hst|Hst]; [cbn; intros [] _ s _; by rewrite decide_False by congruence|].
  apply dec_stable in Hst as ->. cbn. apply (Hrest (Some ch)).
Qed.

(** The three functions, as one family. *)
Inductive detector :=
| DetectAudio (thresh audio_hits : Z)
| DetectSilence (thresh silence_hits : Z)
| WaitForSilence (thresh silence_hits listen_hits : Z).

Definition detect (d : detector) (fuel : nat) (timeout_ms : Z) (file : option string) : MM result :=
  match d with
  | DetectAudio thresh hits => switch_ivr_detect_audio fuel thresh hits timeout_ms file
  | DetectSilence thresh hits => switch_ivr_detect_silence fuel thresh hits timeout_ms file
  | WaitForSilence thresh hits listen => switch_ivr_wait_for_silence fuel thresh hits listen timeout_ms file
  end.

(** Resources: however the media functions answer, when one of the three
    functions returns, the file it opened has been closed and the codec it
    initialised has been destroyed, exactly once each. *)
Theorem detect_balanced d fuel timeout_ms file tr st :
  exec (detect d fuel timeout_ms file) tr (Finished st) -> ghost media_upd (0, 0) tr = (0, 0).
Proof.
  intros Hex. assert (Hwp : wpm (detect d fuel timeout_ms file) (0, 0)
    (fun g r => forall st, r = Finished st -> g = (0, 0))).
  { destruct d; apply with_media_balanced; intros; (apply neutral_detect_loop || apply neutral_wait_loop). }
  by apply (wp_any media_upd _ _ _ _ _ Hwp Hex st).
Qed.

(** ** Termination and definedness *)

(** Symbolic execution of the shared pieces, for any ghost state that only
    frames and variables change. *)
Section Pieces.
Context {G : Type} (legal : G -> event mresp -> Prop) (upd : G -> event mresp -> G).
Context (upd_read : forall g n r, upd g (Ev (switch_core_file_read n) r) = g).
Context (upd_write : forall g n l r, upd g (Ev (switch_core_session_write_frame n l) r) = g).

Lemma set_variables_wp vs g (Q : G -> unit -> Prop) :
  (forall n v, (n, v) ∈ vs -> forall g r, upd g (Ev (media_set_variable n v) r) = g) ->
  Q g tt -> wp legal upd (set_variables vs) g Q.
Proof.
  intros Hn HQ. induction vs as [|[n v] vs IH]; [done|].
  intros r _. rewrite Hn by (left; done). cbn. apply IH. intros n' v' Hin. apply Hn. by right.
Qed.

Lemma next_frame_wp fh spp sc vs g (Q : G -> switch_status_t * Z * option switch_frame -> Prop) :
  (forall n v, (n, v) ∈ vs -> forall g r, upd g (Ev (media_set_variable n v) r) = g) ->
  (forall st fr, legal g (Ev switch_core_session_read_frame (st, fr)) ->
    let g' := upd g (Ev switch_core_session_read_frame (st, fr)) in
    if SWITCH_READ_ACCEPTABLE st then
      let sc' := if decide (sc <> 0) then i32 (sc - spp) else sc in
      if decide (sc <> 0 /\ sc' <= 0) then Q g' (st, sc', None)
      else (forall st', Q g' (st', sc', None)) /\ (forall st', Q g' (st', sc', Some fr))
    else Q g' (st, sc, None)) ->
  wp legal upd (next_frame fh spp sc vs) g Q.
Proof.
  intros Hvs HQ. unfold next_frame. intros [st fr] Hl. specialize (HQ st fr Hl). cbn zeta in HQ.
  cbn [mbind prog_bind bindp]. destruct (SWITCH_READ_ACCEPTABLE st); cbn [negb]; [|done].
  cbn zeta. set (sc' := if decide (sc <> 0) then i32 (sc - spp) else sc) in *.
  destruct (decide (sc <> 0 /\ sc' <= 0)).
  - apply wp_bind, set_variables_wp; [done | exact HQ].
  - destruct HQ as [HN HS]. destruct fh as [ch|]; [|apply HS].
    intros [st' olen] _. rewrite upd_read. cbn [mbind prog_bind bindp].
    destruct (decide (st' <> SUCCESS)); [apply HN|]. intros st'' _. rewrite upd_write.
    cbn [mbind prog_bind bindp]. clearbody sc'. case_decide; [apply HN | apply HS].
Qed.
End Pieces.

Section Bounded.
Context (rate channels spp : Z).
Context (Hrate : 8000 <= rate <= 8000 * 24) (Hch : 0 <= channels) (Hspp : 0 < spp < 2 ^ 31).

#[local] Notation divisor := (rate / 8000).

(** A frame of at least a sample per 8 kHz sample, in a buffer long enough for
    the stride of the loop. *)
Definition frame_ok (fr : switch_frame) : Prop :=
  divisor <= fr_samples fr /\
  (fr_samples fr - 1) * (1 + channels) < Z.of_nat (length (fr_data fr)) /\
  Forall (fun d => Z.abs d <= 32768) (fr_data fr).

(** The session's format, and its frames. *)
Definition legal_media (_ : Z) (e : event mresp) : Prop :=
  match e with
  | Ev switch_core_session_get_read_impl impl =>
      actual_samples_per_second impl = rate /\ number_of_channels impl = channels
  | Ev (switch_core_codec_init _ _) (st, n) => st = SUCCESS -> n = spp
  | Ev switch_core_session_read_frame (st, fr) => SWITCH_READ_ACCEPTABLE st = true -> frame_ok fr
  | _ => True
  end.

(** Frames read. *)
Definition reads_upd (n : Z) (e : event mresp) : Z :=
  match ev_call e with switch_core_session_read_frame => n + 1 | _ => n end.

Lemma frame_energy_some n : forall data j e, 0 <= j ->
  (n <> 0%nat -> j + (Z.of_nat n - 1) * (1 + channels) < Z.of_nat (length data)) ->
  Forall (fun d => Z.abs d <= 32768) data ->
  exists e', frame_energy n data channels j e = Some e' /\ e <= e' <= e + 32768 * Z.of_nat n.
Proof.
  induction n as [|n IH]; intros data j e Hj Hlen Hd; [exists e; split; [done|lia]|].
  cbn [frame_energy]. specialize (Hlen ltac:(done)).
  destruct (lookup_lt_is_Some_2 data (Z.to_nat j)) as [d Ed]; [nia|].
  rewrite rd_nat, Ed by done. cbn [mbind option_bind].
  assert (0 <= Z.abs d <= 32768).
  { split; [lia|]. by eapply (Forall_lookup_1 _ _ _ _ Hd). }
  destruct (IH data (j + 1 + channels) (e + Z.abs d)) as (e' & -> & He'); [lia | nia | done |].
  exists e'. split; [done|]. lia.
Qed.

Lemma frame_score_some samples e : divisor <= samples -> 0 <= e <= 32768 * samples ->
  is_Some (frame_score divisor samples e).
Proof.
  intros Hs He. unfold frame_score. assert (1 <= divisor <= 24) by div_lia.
  rewrite decide_False by lia. cbn zeta.
  assert (0 < samples / divisor) by (apply Z.div_str_pos; lia). rewrite decide_False by lia.
  rewrite decide_True; [by eexists|]. apply Z.div_lt_upper_bound; [lia|].
  assert (samples < divisor * (samples / divisor + 1)).
  { pose proof (Z.mod_pos_bound samples divisor). pose proof (Z.div_mod samples divisor). lia. }
  nia.
Qed.

Lemma score_of_some fr : frame_ok fr -> is_Some (score_of divisor channels fr).
Proof.
  intros (H1 & H2 & H3). unfold score_of. assert (1 <= divisor <= 24) by div_lia.
  destruct (frame_energy_some (Z.to_nat (fr_samples fr)) (fr_data fr) 0 0) as (e & -> & He); [lia | nia | done |].
  cbn [mbind option_bind]. apply frame_score_some; lia.
Qed.

(** The loops, while the timeout [sc] runs. *)
Definition bounded_post (total : Z) (reads : Z) (r : result) : Prop :=
  (exists st, r = Finished st) /\ (reads - 1) * spp < total.

Lemma countdown_step sc : 0 < sc < 2 ^ 31 ->
  (if decide (sc <> 0) then i32 (sc - spp) else sc) = sc - spp.
Proof. intros Hsc. rewrite decide_True by lia. apply i32_small. lia. Qed.

Lemma detect_loop_bounded tv hv hit limit total fuel : forall status hits fh sc reads,
  0 < sc < 2 ^ 31 -> sc <= spp * Z.of_nat fuel -> reads * spp + sc = total ->
  wp legal_media reads_upd (detect_loop tv hv hit limit fuel status hits fh spp sc divisor channels) reads
    (bounded_post total).
Proof.
  induction fuel as [|fuel IH]; intros status hits fh sc reads Hsc Hfuel Htot; [lia|].
  cbn [detect_loop]. intros ready _. cbn [mbind prog_bind bindp reads_upd ev_call].
  destruct (negb ready); [split; [by eexists | lia]|].
  apply wp_bind, next_frame_wp; [done | done | done |]. intros st fr Hfr. cbn zeta.
  rewrite countdown_step by done. cbn [reads_upd ev_call].
  destruct (SWITCH_READ_ACCEPTABLE st) eqn:Hst; [|split; [by eexists | lia]].
  case_decide; [split; [by eexists | lia]|]. split; intros st'; [split; [by eexists | lia]|].
  destruct (score_of_some fr (Hfr Hst)) as [score ->]. cbn zeta.
  destruct (decide (limit < _)); [intros [] _; split; [by eexists | cbn; lia]|].
  apply IH; lia.
Qed.

Lemma wait_loop_bounded thresh org lh total fuel : forall status l sh cd fh sc reads,
  0 < sc < 2 ^ 31 -> sc <= spp * Z.of_nat fuel -> reads * spp + sc = total ->
  wp legal_media reads_upd (wait_loop thresh org lh fuel status l sh cd fh spp sc divisor channels) reads
    (bounded_post total).
Proof.
  induction fuel as [|fuel IH]; intros status l sh cd fh sc reads Hsc Hfuel Htot; [lia|].
  cbn [wait_loop]. intros ready _. cbn [mbind prog_bind bindp reads_upd ev_call].
  destruct (negb ready); [split; [by eexists | lia]|].
  apply wp_bind, next_frame_wp; [done | done | done |]. intros st fr Hfr. cbn zeta.
  rewrite countdown_step by done. cbn [reads_upd ev_call].
  destruct (SWITCH_READ_ACCEPTABLE st) eqn:Hst; [|split; [by eexists | lia]].
  destruct (decide (sc <> 0 /\ sc - spp <= 0)); [split; [by eexists | lia]|].
  split; intros st'; [split; [by eexists | lia]|].
  destruct (decide (cd <> 0)).
  - destruct (decide (cd - 1 = 0)); [|apply IH; lia].
    apply wp_bind, set_variables_wp; [done|]. split; [by eexists | cbn; lia].
  - specialize (Hfr Hst). assert (is_Some (if decide (fr_seq fr <> 0) then score_of divisor channels fr
                     else frame_score divisor (fr_samples fr) 0)) as [score ->].
    { case_decide; [by apply score_of_some|]. destruct Hfr as (? & _ & _).
      assert (1 <= divisor <= 24) by div_lia. apply frame_score_some; lia. }
    cbn zeta. destruct (decide (_ /\ score < thresh)); apply IH; lia.
Qed.

Lemma with_media_bounded timeout_ms file loop fuel : 0 < timeout_ms ->
  rate / 1000 * timeout_ms < 2 ^ 31 -> rate / 1000 * timeout_ms <= spp * Z.of_nat fuel ->
  (forall fh sc reads, 0 < sc < 2 ^ 31 -> sc <= spp * Z.of_nat fuel ->
    wp legal_media reads_upd (loop fh spp sc divisor channels) reads (bounded_post (reads * spp + sc))) ->
  wp legal_media reads_upd (with_media timeout_ms file loop) 0 (bounded_post (rate / 1000 * timeout_ms)).
Proof.
  intros Ht Hlim Hfuel Hloop. unfold with_media. intros impl [Hr Hc].
  cbn [mbind prog_bind bindp reads_upd ev_call]. cbn zeta.
  assert (0 < rate / 1000 * timeout_ms) by (assert (0 < rate / 1000) by div_lia; nia).
  assert (Hts : timeout_samples impl timeout_ms = rate / 1000 * timeout_ms).
  { unfold timeout_samples. rewrite decide_True, Hr, u32_small, i32_small by lia. done. }
  rewrite Hts. set (total := rate / 1000 * timeout_ms) in *.
  assert (Hbody : forall fh, wp legal_media reads_upd (media_body impl total loop fh) 0 (bounded_post total)).
  { intros fh [st n] Hn. cbn [mbind prog_bind bindp reads_upd ev_call]. apply wp_bind.
    apply wp_mono with (Q := bounded_post total).
    { intros reads [s| |] [[s' Hs] Hb]; [|done..]. destruct fh; [intros [] _|];
        (split; [by eexists | done]). }
    destruct (decide (st <> SUCCESS)) as [Hst|Hst]; [split; [by eexists | lia]|].
    apply dec_stable in Hst. cbn in Hn. rewrite (Hn Hst). intros [] _.
    cbn [mbind prog_bind bindp reads_upd ev_call]. apply wp_bind. rewrite Hr, Hc.
    eapply wp_mono; [|apply Hloop; done || lia].
    intros reads [s| |] [[s' Hs] Hb]; [|done..]. intros [] _ [] _. split; [by eexists | cbn; lia]. }
  destruct file as [f|]; [|apply Hbody]. intros [st ch] _. cbn [mbind prog_bind bindp reads_upd ev_call].
  destruct (decide (st <> SUCCESS)); [|apply Hbody]. intros [] _. split; [by eexists | cbn; lia].
Qed.

End Bounded.

(** Termination: with a timeout, a session format of 8 to 192 kHz and
    frames that are not shorter than their 8 kHz equivalent, each of the three
    functions returns (fuel of one iteration per packet of the timeout is
    enough), without a division by zero or a read out of a frame's buffer, and
    reads fewer than one frame more than the timeout lasts. *)
Theorem detect_terminates rate channels spp d fuel timeout_ms file tr r :
  8000 <= rate <= 8000 * 24 -> 0 <= channels -> 0 < spp < 2 ^ 31 -> 0 < timeout_ms ->
  rate / 1000 * timeout_ms < 2 ^ 31 -> rate / 1000 * timeout_ms <= spp * Z.of_nat fuel ->
  exec (detect d fuel timeout_ms file) tr r ->
  legal_trace (legal_media rate channels spp) reads_upd 0 tr ->
  (exists st, r = Finished st) /\ (ghost reads_upd 0 tr - 1) * spp < rate / 1000 * timeout_ms.
Proof.
  intros Hr Hc Hs Ht Hlim Hfuel Hex Hl.
  refine (wp_sound (legal_media rate channels spp) reads_upd (detect d fuel timeout_ms file) 0
    (bounded_post spp (rate / 1000 * timeout_ms)) tr r _ Hex Hl).
  destruct d; (apply (with_media_bounded rate channels spp) with (fuel := fuel); try done);
    intros; (apply detect_loop_bounded || apply wait_loop_bounded); done || lia.
Qed.

(** ** When something is detected *)

Section Detection.
Context (rate channels : Z) (hit : Z -> bool) (limit : Z) (timeout_var hits_var : string).
Context (Hlimit : 0 <= limit < 2 ^ 32 - 1) (Hvars : timeout_var <> hits_var).

#[local] Notation divisor := (rate / 8000).

Definition counts (fr : switch_frame) : bool :=
  match score_of divisor channels fr with Some s => hit s | None => false end.

(** The number of frames that count at the end of a list of frames. *)
Definition trailing (frames : list switch_frame) : Z :=
  fold_left (fun n fr => if counts fr then n + 1 else 0) frames 0.

(** Ghost state: the frames accepted so far, and whether the detection was reported. *)
Definition frames_upd (g : list switch_frame * bool) (e : event mresp) : list switch_frame * bool :=
  match e with
  | Ev switch_core_session_read_frame (st, fr) =>
      if SWITCH_READ_ACCEPTABLE st then (g.1 ++ [fr], g.2) else g
  | Ev (media_set_variable n v) _ =>
      if decide (n = timeout_var /\ v = VString "false") then (g.1, true) else g
  | _ => g
  end.

Definition legal_format {G} (_ : G) (e : event mresp) : Prop :=
  match e with
  | Ev switch_core_session_get_read_impl impl =>
      actual_samples_per_second impl = rate /\ number_of_channels impl = channels
  | _ => True
  end.

(** Up to the last frame, the run of frames that count never exceeded the limit. *)
Definition undetected (frames : list switch_frame) : Prop :=
  forall l1 fr l2, frames = l1 ++ fr :: l2 -> trailing l1 <= limit.

(** The frames accepted, whether the detection was reported, and whether the last
    frame was not looked at: the time was up, or the file that is played meanwhile
    could not be read or written. *)
Record detection := mkDetection { heard : list switch_frame; reported : bool; cut : bool }.

Definition detect_upd (g : detection) (e : event mresp) : detection :=
  match e with
  | Ev switch_core_session_read_frame (st, fr) =>
      if SWITCH_READ_ACCEPTABLE st then mkDetection (heard g ++ [fr]) (reported g) (cut g) else g
  | Ev (media_set_variable n v) _ =>
      if decide (n = timeout_var) then
        if decide (v = VString "false") then mkDetection (heard g) true (cut g) else mkDetection (heard g) (reported g) true
      else g
  | Ev (switch_core_file_read _) (st, _) => if decide (st <> SUCCESS) then mkDetection (heard g) (reported g) true else g
  | Ev (switch_core_session_write_frame _ _) st =>
      if decide (st <> SUCCESS) then mkDetection (heard g) (reported g) true else g
  | _ => g
  end.

Definition nothing_heard : detection := mkDetection [] false false.

(** The detection is reported if, and only if, the frames looked at end in a run
    of more than [limit] that count. *)
Definition detection_post (g : detection) (_ : result) : Prop :=
  undetected (heard g) /\ (reported g = true <-> limit < trailing (heard g) /\ cut g = false).

Lemma trailing_snoc l fr : trailing (l ++ [fr]) = if counts fr then trailing l + 1 else 0.
Proof. unfold trailing. by rewrite fold_left_app. Qed.

Lemma trailing_nonneg l : 0 <= trailing l.
Proof.
  induction l as [|fr l IH] using rev_ind; [done|]. rewrite trailing_snoc. case_match; lia.
Qed.

Lemma undetected_snoc l fr : undetected l -> trailing l <= limit -> undetected (l ++ [fr]).
Proof.
  intros Hu Ht l1 f l2 E. destruct l2 as [|x l2 _] using rev_ind.
  - by apply app_inj_tail in E as [<- _].
  - rewrite app_comm_cons, app_assoc in E. apply app_inj_tail in E as [E _]. by eapply Hu.
Qed.

Lemma unreported l c : undetected l -> c = true \/ trailing l <= limit -> forall r, detection_post (mkDetection l false c) r.
Proof. intros Hu Ht r. split; [done|]. cbn [heard reported cut]. split; [done|]. intros [? ->]. destruct Ht; [done|lia]. Qed.

(** The start of an iteration: a frame to look at, or the end. *)
Lemma next_frame_detection fh spp sc hits l : undetected l -> trailing l <= limit ->
  wp legal_format detect_upd (next_frame fh spp sc [(timeout_var, VString "true"); (hits_var, VInt (i32 hits))])
    (mkDetection l false false) (fun g x =>
      match x.2 with
      | Some fr => g = mkDetection (l ++ [fr]) false false
      | None => forall r, detection_post g r
      end).
Proof.
  intros Hu Ht. unfold next_frame. intros [st fr] _. cbn [mbind prog_bind bindp detect_upd heard reported cut].
  destruct (SWITCH_READ_ACCEPTABLE st); cbn [negb]; [|refine (unreported _ _ _ _); auto].
  pose proof (undetected_snoc l fr Hu Ht) as Hu'. cbv zeta. destruct (decide (sc <> 0 /\ _)).
  - intros [] _. cbn [detect_upd]. rewrite (decide_True (P := timeout_var = timeout_var)) by done.
    rewrite (decide_False (P := VString "true" = VString "false")) by done. intros [] _. cbn [detect_upd].
    rewrite (decide_False (P := hits_var = timeout_var)) by congruence. refine (unreported _ _ _ _); auto.
  - destruct fh as [channels'|]; [|done]. intros [st' olen] _. cbn [mbind prog_bind bindp detect_upd heard reported cut].
    destruct (decide (st' <> SUCCESS)); [refine (unreported _ _ _ _); auto|]. intros st'' _. cbn [mbind prog_bind bindp detect_upd heard reported cut].
    destruct (decide (st'' <> SUCCESS)) as [Hst|Hst].
    + rewrite decide_True by exact Hst. refine (unreported _ _ _ _); auto.
    + rewrite decide_False by exact Hst. reflexivity.
Qed.

Lemma detect_loop_detection fuel : forall status hits fh spp sc l,
  undetected l -> hits = trailing l -> trailing l <= limit ->
  wp legal_format detect_upd (detect_loop timeout_var hits_var hit limit fuel status hits fh spp sc divisor channels)
    (mkDetection l false false) detection_post.
Proof.
  induction fuel as [|fuel IH]; intros status hits fh spp sc l Hu -> Ht; [apply unreported; auto|].
  cbn [detect_loop]. intros ready _. cbn [mbind prog_bind bindp detect_upd].
  destruct (negb ready); [apply unreported; auto|].
  apply wp_bind. eapply wp_mono; [|by apply next_frame_detection]. intros g [[st' sc'] [fr|]] Hg; [|apply Hg].
  cbn [snd] in Hg. subst g. pose proof (undetected_snoc l fr Hu Ht) as Hu'.
  pose proof (trailing_snoc l fr) as Htr. unfold counts in Htr.
  destruct (score_of divisor channels fr) as [score|] eqn:Hscore; [|apply unreported; [done|right; rewrite Htr; lia]].
  assert (Hh : (if hit score then u32 (trailing l + 1) else 0) = trailing (l ++ [fr])).
  { rewrite Htr. pose proof (trailing_nonneg l). destruct (hit score); [apply u32_small; lia | done]. }
  cbn zeta. rewrite Hh. destruct (decide (limit < trailing (l ++ [fr]))) as [Hd|Hd].
  - intros r _. cbn. rewrite !decide_True by done. by split.
  - apply IH; [done | done | lia].
Qed.

End Detection.

(** The calls around a loop that these accounts see. *)
Definition accounted (c : mcall) : bool :=
  match c with
  | switch_core_session_read_frame | media_set_variable _ _ | switch_core_file_read _
  | switch_core_session_write_frame _ _ => true
  | _ => false
  end.

(** A property of the ghost state that the loop establishes, and that holds
    before it, holds of the function. *)
Lemma with_media_frames {G} rate channels (upd : G -> event mresp -> G) (g0 : G) (Q : G -> Prop) timeout_ms file loop :
  (forall g c r, accounted c = false -> upd g (Ev c r) = g) ->
  Q g0 ->
  (forall fh spp sc, wp (legal_format rate channels) upd (loop fh spp sc (rate / 8000) channels) g0 (fun g _ => Q g)) ->
  wp (legal_format rate channels) upd (with_media timeout_ms file loop) g0 (fun g _ => Q g).
Proof.
  intros Hupd Hnil Hloop. unfold with_media. intros impl [Hr Hc]. rewrite Hupd by done. cbn [mbind prog_bind bindp]. cbn zeta.
  assert (Hbody : forall fh ts, wp (legal_format rate channels) upd (media_body impl ts loop fh) g0 (fun g _ => Q g)).
  { intros fh ts [st n] _. rewrite Hupd by done. cbn [mbind prog_bind bindp]. apply wp_bind.
    apply wp_mono with (Q := fun g _ => Q g).
    { intros g [s| |] Hg; [destruct fh; [intros [] _; rewrite Hupd by done|] | |]; exact Hg. }
    destruct (decide (st <> SUCCESS)); [exact Hnil|]. intros [] _. rewrite Hupd by done.
    cbn [mbind prog_bind bindp]. apply wp_bind. rewrite Hr, Hc.
    eapply wp_mono; [|apply Hloop]. intros g [s| |] Hg; [intros [] _ [] _; rewrite !Hupd by done | |]; exact Hg. }
  destruct file as [f|]; [|apply Hbody]. intros [st ch] _. rewrite Hupd by done. cbn [mbind prog_bind bindp].
  destruct (decide (st <> SUCCESS)); [|apply Hbody]. intros [] _. rewrite Hupd by done. exact Hnil.
Qed.


(** The energy loop advances by [1 + channels] samples per sample: in a
    mono frame every second sample is ignored and the same number is taken
    from the memory after the frame. *)
Theorem energy_reads_past_frame seq s0 s1 after :
  Z.abs s0 <= 32768 -> Z.abs after <= 32768 ->
  score_of 1 1 (mkFrame seq 2 [s0; s1; after]) = Some ((Z.abs s0 + Z.abs after) / 2).
Proof.
  intros H0 H1. unfold score_of. cbn [fr_samples fr_data].
  assert (frame_energy (Z.to_nat 2) [s0; s1; after] 1 0 0 = Some (Z.abs s0 + Z.abs after)) as -> by done.
  cbn [mbind option_bind]. unfold frame_score. rewrite Z.div_1_r, !decide_False by lia. cbn zeta.
  rewrite decide_True; [done|]. apply Z.div_lt_upper_bound; lia.
Qed.

(** *** Waiting for silence *)

Section Silence.
Context (rate channels thresh org listen_hits : Z).
Context (Horg : 0 < org < 2 ^ 32).

#[local] Notation divisor := (rate / 8000).

Definition wait_score (fr : switch_frame) : option Z :=
  if decide (fr_seq fr <> 0) then score_of divisor channels fr else frame_score divisor (fr_samples fr) 0.

Definition loud (fr : switch_frame) : bool :=
  match wait_score fr with Some s => thresh <=? s | None => false end.
Definition quiet (fr : switch_frame) : Prop :=
  match wait_score fr with Some s => s < thresh | None => False end.

(** The loud frames, as the [uint32_t] counter counts them. *)
Definition listened (frames : list switch_frame) : Z :=
  fold_left (fun n fr => if loud fr then u32 (n + 1) else n) frames 0.

(** [n] quiet frames in a row end the frames, each after enough listening. *)
Definition silent_run (n : Z) (frames : list switch_frame) : Prop :=
  exists l q, frames = l ++ q /\ Z.of_nat (length q) = n /\ Forall quiet q /\
    (n <> 0 -> listen_hits = 0 \/ listen_hits < listened frames).

(** What the report means: [org] such frames, and 25 more. *)
Definition silence_reported (frames : list switch_frame) : Prop :=
  exists l c, frames = l ++ c /\ length c = 25%nat /\ silent_run org l.

Definition silence_post (g : list switch_frame * bool) (_ : result) : Prop :=
  g.2 = true -> silence_reported g.1.

Lemma listened_snoc l fr : listened (l ++ [fr]) = if loud fr then u32 (listened l + 1) else listened l.
Proof. unfold listened. by rewrite fold_left_app. Qed.

Lemma quiet_not_loud fr : quiet fr -> loud fr = false.
Proof. unfold quiet, loud. destruct (wait_score fr); [|done]. intros. apply Z.leb_gt. lia. Qed.

Lemma silent_run_snoc n l fr : silent_run n l -> quiet fr -> listen_hits = 0 \/ listen_hits < listened (l ++ [fr]) ->
  silent_run (n + 1) (l ++ [fr]).
Proof.
  intros (l0 & q & -> & Hq & Hqq & _) Hfr Hl. exists l0, (q ++ [fr]). split; [by rewrite app_assoc|].
  rewrite length_app. split; [cbn; lia|]. split; [|done]. apply Forall_app. split; [done|by constructor].
Qed.

Lemma silent_run_0 l : silent_run 0 l.
Proof. exists l, []. rewrite app_nil_r. done. Qed.

(** The counters of the loop: [silence_hits] counts down from [org], then
    [countdown] from 25. *)
Definition wait_inv (l : list switch_frame) (listening silence_hits countdown : Z) : Prop :=
  (countdown = 0 /\ listening = listened l /\ 0 < silence_hits <= org /\ silent_run (org - silence_hits) l) \/
  (0 < countdown <= 25 /\ exists l0 c, l = l0 ++ c /\ Z.of_nat (length c) = 25 - countdown /\ silent_run org l0).

Lemma wait_vars_true l s n v : (n, v) ∈ wait_vars "true" l s ->
  forall g r, frames_upd "wait_for_silence_timeout" g (Ev (media_set_variable n v) r) = g.
Proof.
  intros Hin g r. cbn. rewrite decide_False; [done|]. intros [-> ->].
  rewrite list_elem_of_In in Hin. cbn in Hin. destruct Hin as [[=]|[[=]|[[=]|[]]]].
Qed.

Lemma wait_loop_silence fuel : forall status listening silence_hits countdown fh spp sc l,
  wait_inv l listening silence_hits countdown ->
  wp (legal_format rate channels) (frames_upd "wait_for_silence_timeout")
    (wait_loop thresh org listen_hits fuel status listening silence_hits countdown fh spp sc divisor channels)
    (l, false) silence_post.
Proof.
  induction fuel as [|fuel IH]; intros status listening silence_hits countdown fh spp sc l Hinv; [done|].
  cbn [wait_loop]. intros ready _. cbn [mbind prog_bind bindp frames_upd].
  destruct (negb ready); [done|].
  apply wp_bind, next_frame_wp; [done | done | apply wait_vars_true |].
  intros st fr _. cbn [frames_upd fst snd]. destruct (SWITCH_READ_ACCEPTABLE st); [|done]. cbn zeta.
  case_decide; [done|]. split; intros st'; [done|].
  destruct Hinv as [(-> & -> & Hs & Hrun) | (Hc & l0 & c & -> & Hlen & Hrun)].
  - rewrite decide_False by lia. pose proof (listened_snoc l fr) as Hls. unfold loud in Hls.
    fold (wait_score fr). destruct (wait_score fr) as [score|] eqn:Hw; [|done]. cbn zeta. rewrite <- Hls.
    destruct (decide ((listen_hits = 0 \/ listen_hits < listened (l ++ [fr])) /\ score < thresh)) as [[Hl Hq]|Hn].
    + assert (Hrun' : silent_run (org - silence_hits + 1) (l ++ [fr])).
      { apply silent_run_snoc; [done | unfold quiet; by rewrite Hw | done]. }
      rewrite u32_small by lia. destruct (decide (silence_hits - 1 = 0)).
      * apply IH. right. split; [lia|]. exists (l ++ [fr]), []. rewrite app_nil_r. split; [done|].
        split; [cbn; lia|]. by replace org with (org - silence_hits + 1) by lia.
      * apply IH. left. split; [done|]. split; [done|]. split; [lia|].
        by replace (org - (silence_hits - 1)) with (org - silence_hits + 1) by lia.
    + apply IH. left. split; [done|]. split; [done|]. split; [lia|]. rewrite Z.sub_diag. apply silent_run_0.
  - rewrite decide_True by lia. destruct (decide (countdown - 1 = 0)) as [Hcd|Hcd].
    + cbn [set_variables wait_vars mbind prog_bind bindp invoke].
      intros [] _. cbn [frames_upd]. rewrite decide_True by done. intros [] _ [] _. cbn. intros _.
      exists l0, (c ++ [fr]). split; [by rewrite app_assoc|]. split; [|done]. rewrite length_app. cbn. lia.
    + apply IH. right. split; [lia|]. exists l0, (c ++ [fr]). split; [by rewrite app_assoc|].
      split; [|done]. rewrite length_app. cbn. lia.
Qed.

End Silence.

(** [switch_ivr_wait_for_silence] reports silence only after
    [silence_hits] quiet frames in a row, with more than [listen_hits] loud
    frames heard before (when that is asked for), and 25 more frames. *)
Theorem wait_for_silence_reports rate channels fuel thresh silence_hits listen_hits timeout_ms file tr r :
  0 < silence_hits < 2 ^ 32 ->
  exec (switch_ivr_wait_for_silence fuel thresh silence_hits listen_hits timeout_ms file) tr r ->
  let upd := frames_upd "wait_for_silence_timeout" in
  legal_trace (legal_format rate channels) upd ([], false) tr ->
  (ghost upd ([], false) tr).2 = true ->
  silence_reported rate channels thresh silence_hits listen_hits (ghost upd ([], false) tr).1.
Proof.
  intros Hs Hex upd Hl.
  assert (Hwp : wp (legal_format rate channels) upd
    (switch_ivr_wait_for_silence fuel thresh silence_hits listen_hits timeout_ms file) ([], false)
    (silence_post rate channels thresh silence_hits listen_hits)).
  { apply (with_media_frames _ _ _ _ (fun g => silence_post _ _ _ _ _ g OutOfFuel)); [by intros g [] x|done|].
    intros. apply wait_loop_silence; [done|]. left. split; [done|]. split; [done|]. split; [lia|].
    rewrite Z.sub_diag. apply silent_run_0. }
  exact (wp_sound _ _ _ _ _ _ _ Hwp Hex Hl).
Qed.

End EnergyDetect.

(** ** Witnesses: a mono session at 8 kHz that hears the same frame again and again *)

#[local] Instance sample_media : MediaDefs := { SWITCH_READ_ACCEPTABLE s := bool_decide (s = SUCCESS) }.

Definition tone (level : Z) : switch_frame := mkFrame 1 160 (replicate 320 level).

Definition media_env (level : Z) (w : unit) (c : mcall) : mresp c * unit :=
  (match c return mresp c with
   | switch_core_session_get_read_impl => mkImpl 8000 1 20000
   | switch_core_file_open _ _ _ => (SUCCESS, 1)
   | switch_core_file_read n => (SUCCESS, n)
   | switch_core_codec_init _ _ => (SUCCESS, 160)
   | media_channel_ready => true
   | switch_core_session_read_frame => (SUCCESS, tone level)
   | switch_core_session_write_frame _ _ => SUCCESS
   | _ => tt
   end, tt).

(** The trace and the result of a run. *)
Definition media_run (level : Z) (m : MM result) : mtrace * result :=
  let '(r, _, tr) := run (media_env level) tt m in (tr, r).

Lemma media_run_exec level m : exec m (media_run level m).1 (media_run level m).2.
Proof.
  unfold media_run. pose proof (run_exec (media_env level) m tt) as E.
  by destruct (run (media_env level) tt m) as [[a w] tr].
Qed.

Lemma media_run_legal {G} (legal : G -> event mresp -> Prop) upd level (m : MM result) g :
  (forall g c, legal g (Ev c (media_env level tt c).1)) -> legal_trace legal upd g (media_run level m).1.
Proof.
  intros Hl. unfold media_run. revert g. induction m as [a|c k IH]; intros g; [done|].
  specialize (Hl g c) as Hc. cbn [run]. destruct (media_env level tt c) as [x []] eqn:E.
  specialize (IH x (upd g (Ev c x))). destruct (run (media_env level) tt (k x)) as [[a w] tr].
  cbn in *. by split.
Qed.

Lemma tone_ok level : Z.abs level <= 32768 -> frame_ok 8000 1 (tone level).
Proof.
  intros Hl. split; [done|]. split; [done|]. cbn [tone fr_data]. by apply Forall_replicate.
Qed.

Lemma detect_balanced_witness :
  ghost media_upd (0, 0) (media_run 1000 (detect (DetectAudio 500 2) 10 0 (Some "tone.wav"))).1 = (0, 0).
Proof.
  pose proof (media_run_exec 1000 (detect (DetectAudio 500 2) 10 0 (Some "tone.wav"))) as Hex.
  assert ((media_run 1000 (detect (DetectAudio 500 2) 10 0 (Some "tone.wav"))).2 = Finished SUCCESS) as E
    by (vm_compute; reflexivity).
  rewrite E in Hex. exact (detect_balanced _ _ _ _ _ _ Hex).
Defined.

(** Silence is never detected: the timeout of 100 ms ends the function after 5 frames. *)
Lemma detect_terminates_witness :
  (exists st, (media_run 1000 (detect (DetectSilence 500 2) 5 100 None)).2 = Finished st) /\
  (ghost reads_upd 0 (media_run 1000 (detect (DetectSilence 500 2) 5 100 None)).1 - 1) * 160 < 800.
Proof.
  refine (detect_terminates 8000 1 160 (DetectSilence 500 2) 5 100 None _ _ _ _ _ _ _ _ (media_run_exec _ _) _);
    try lia; [vm_compute; done..|].
  apply media_run_legal. intros g []; cbn; try done. intros _. by apply tone_ok.
Defined.


Lemma energy_reads_past_frame_witness :
  score_of 1 1 (mkFrame 1 2 [0; 9000; 700]) = Some 350.
Proof. apply (energy_reads_past_frame 1 0 9000 700); lia. Defined.

Lemma wait_for_silence_reports_witness :
  let tr := (media_run 10 (switch_ivr_wait_for_silence 40 500 3 0 0 None)).1 in
  let g := ghost (frames_upd "wait_for_silence_timeout") ([], false) tr in
  silence_reported 8000 1 500 3 0 g.1.
Proof.
  intros tr g.
  refine (wait_for_silence_reports 8000 1 40 500 3 0 0 None tr _ _ (media_run_exec _ _) _ _); [lia| |].
  - apply media_run_legal. intros h []; done.
  - vm_compute. reflexivity.
Defined.
