(* ===== verification/PhraseMacro.v ===== *)
(** * Phrase macros: [switch_ivr_phrase_macro_event] of
    [src/switch_ivr_play_say.c]

    The macro is found in the XML of a language and its actions are run.  The
    XML library, the core and the modules are outside: the tree is an abstract
    type with the accessors of the library, and everything that acts is a call
    of the signature [pcall]. *)

From Stdlib Require Import Ascii String.
From S2P Require Import Prelude Interaction SwitchCore.

#[local] Open Scope list_scope.
#[local] Open Scope string_scope.
#[local] Open Scope Z_scope.

(** ** The calls *)

Inductive pcall :=
| p_get_variable (name : string)
| p_set_variable (name : string) (value : option string)
| arg_recursion_check_start
| arg_recursion_check_stop
| hint_create
| hint_add_header (name value : string)
| event_add_header (name value : string)
| hint_destroy
| switch_channel_event_set_data
| switch_xml_locate_language (lang : string)
| switch_xml_free
| p_pre_answer
| switch_event_expand_headers (s : string)
| switch_channel_expand_variables (s : string)
| switch_regex_perform (field pattern : string)
| switch_regex_free
| malloc_substituted (len : Z)
| free_field
| free_expanded
| free_substituted
| switch_perform_substitution (proceed : Z) (data field : string)
| p_play_file (volgranular : Z) (file : string)
| switch_ivr_phrase_macro (name data lang : string)
| get_application_interface (cmd : string)
| switch_core_session_exec (cmd args : string)
| unprotect_interface
| get_say_interface (module_name : string)
| say_function (module_name data type method gender : string)
| p_speak_text (engine voice : option string) (text : string)
| switch_ivr_sleep (ms : Z).

(** The XML tree, by the accessors of the library. *)
Class XmlOps (X : Type) := {
  switch_xml_attr : X -> string -> option string;
  (** the chain [switch_xml_child(x, name)], [->next], ... *)
  switch_xml_children : X -> string -> list X;
  switch_xml_find_child : X -> string -> string -> string -> option X;
  (** [language != macros], for the results of [switch_xml_locate_language] *)
  xml_same : X -> X -> bool;
}.

(** Pure helpers of the core. *)
Class PhraseDefs := {
  switch_true : option string -> bool;
  switch_is_number : string -> bool;
  switch_normalize_volume_granular : Z -> Z;
  switch_separate_paren_args : string -> string * option string;
}.

(** The functions that expand variables: whether the string is a new one, to be
    freed, or the argument itself, and the string.  [switch_regex_perform]: the
    result, and whether [re] was set.  [switch_xml_locate_language]: the root to free (when it was opened), the
    status, and the language, phrases and macros found. *)
Definition presp (X : Type) (c : pcall) : Type :=
  match c with
  | p_get_variable _ => option string
  | arg_recursion_check_start => bool
  | switch_xml_locate_language _ => bool * switch_status_t * (X * X * X)
  | p_pre_answer => switch_status_t
  | switch_event_expand_headers _ => bool * string
  | switch_channel_expand_variables _ => bool * string
  | switch_regex_perform _ _ => Z * bool
  | malloc_substituted _ => bool
  | switch_perform_substitution _ _ _ => string
  | p_play_file _ _ => switch_status_t
  | switch_ivr_phrase_macro _ _ _ => switch_status_t
  | get_application_interface _ => bool
  | switch_core_session_exec _ _ => switch_status_t
  | get_say_interface _ => bool
  | say_function _ _ _ _ _ => switch_status_t
  | p_speak_text _ _ _ => switch_status_t
  | _ => unit
  end%type.

Section PhraseMacro.
Context {X : Type} `{XmlOps X} `{PhraseDefs}.

Notation PM A := (prog (presp X) A).

Definition attr_soft (x : X) (name : string) : string := str_nil (switch_xml_attr x name).

(** The first of some attributes that is there. *)
Definition attr_first (x : X) (names : list string) : option string :=
  match omap (switch_xml_attr x) names with a :: _ => Some a | [] => None end.

(** ** The actions of a match *)

(** What an input is matched in: [event] is whether there is one. *)
Record phrase_env := mkEnv {
  pe_event : bool;
  pe_data : string;
  chan_lang : string;
  module_name : string;
  tts_engine : option string;
  tts_voice : option string;
  pause : Z;
}.

(** [play-file] *)
Definition act_play_file (action : X) (odata : string) : PM switch_status_t :=
  let volume_str := attr_soft action "volume" in
  let vol := if switch_is_number volume_str
             then switch_normalize_volume_granular (atoi volume_str) else 0 in
  invoke (p_play_file vol odata).

(** [execute] *)
Definition act_execute (odata : string) : PM switch_status_t :=
  let '(cmd, cmd_args) := switch_separate_paren_args odata in
  app ← invoke (get_application_interface cmd);
  if app : bool then
    status ← invoke (switch_core_session_exec cmd (str_nil cmd_args));
    invoke unprotect_interface ;; mret status
  else mret SWITCH_STATUS_FALSE.

(** [say] *)
Definition act_say (env : phrase_env) (action : X) (odata : string) (status : switch_status_t) : PM switch_status_t :=
  si ← invoke (get_say_interface (module_name env));
  if si : bool then
    invoke (say_function (module_name env) odata (attr_soft action "type") (attr_soft action "method")
              (attr_soft action "gender"))
  else mret status.

(** [speak-text] *)
Definition act_speak_text (env : phrase_env) (action : X) (odata : string) (status : switch_status_t)
  : PM switch_status_t :=
  let my_tts_engine := match switch_xml_attr action "tts-engine" with Some e => Some e | None => tts_engine env end in
  let my_tts_voice := match switch_xml_attr action "tts-voice" with Some v => Some v | None => tts_voice env end in
  if zstr (tts_engine env) || zstr (tts_voice env) then mret status
  else invoke (p_speak_text my_tts_engine my_tts_voice odata).

(** Running an action: the new status, and [done]. *)
Definition act (env : phrase_env) (action : X) (func odata : string) (status : switch_status_t)
  : PM (switch_status_t * bool) :=
  if strcaseeq func "play-file" then s ← act_play_file action odata; mret (s, false)
  else if strcaseeq func "phrase" then
    s ← invoke (switch_ivr_phrase_macro (attr_soft action "phrase") odata (chan_lang env)); mret (s, false)
  else if strcaseeq func "break" then mret (status, true)
  else if strcaseeq func "execute" then s ← act_execute odata; mret (s, false)
  else if strcaseeq func "say" then s ← act_say env action odata status; mret (s, false)
  else if strcaseeq func "speak-text" then s ← act_speak_text env action odata status; mret (s, false)
  else mret (status, false).

Definition expand (env : phrase_env) (s : string) : PM (bool * string) :=
  if pe_event env then invoke (switch_event_expand_headers s)
  else invoke (switch_channel_expand_variables s).

(** [switch_safe_free] and the like, of a pointer that is not NULL when [set]. *)
Definition safe_free (set : bool) (free : PM unit) : PM unit := if set then free else mret tt.

(** The data of an action, with the groups of the match and the variables put
    in, and whether [expanded] and [substituted] are to be freed; [None] is
    [malloc] failing. *)
Definition action_data (env : phrase_env) (pattern field_expanded adata : string) (proceed : Z)
  : PM (option (bool * bool * string)) :=
  odata ← (if strchr pattern "(" && strchr adata "$" && bool_decide (0 < proceed) then
             ok ← invoke (malloc_substituted (u32 ((strlen (pe_data env) + strlen adata + 10) * proceed)));
             if ok : bool then
               s ← invoke (switch_perform_substitution proceed adata field_expanded); mret (Some (true, s))
             else mret None
           else mret (Some (false, adata)));
  match odata with
  | None => mret None
  | Some (substituted, odata) => '(expanded, e) ← expand env odata; mret (Some (expanded, substituted, e))
  end.

(** How the processing of an input ends: [goto done] at once, or the status
    and [done]. *)
Inductive phrase_result := GotoDone (status : switch_status_t) | Went (status : switch_status_t) (done : bool).

(** [switch_regex_safe_free(re); switch_safe_free(field_expanded_alloc)] *)
Definition input_free (re field_alloc : bool) : PM unit :=
  safe_free re (invoke switch_regex_free) ;; safe_free field_alloc (invoke free_field).

(** [for (action = switch_xml_child(match, "action"); action; action = action->next)] *)
Fixpoint actions_loop (env : phrase_env) (pattern field_expanded : string) (proceed : Z) (re field_alloc : bool)
    (actions : list X) (status : switch_status_t) : PM phrase_result :=
  match actions with
  | [] => mret (Went status false)
  | action :: actions' =>
      data ← action_data env pattern field_expanded (attr_soft action "data") proceed;
      match data with
      | None => input_free re field_alloc ;; mret (GotoDone status)
      | Some (expanded, substituted, odata) =>
          '(status, done) ← act env action (attr_soft action "function") odata status;
          invoke (switch_ivr_sleep (pause env)) ;;
          safe_free expanded (invoke free_expanded) ;;
          safe_free substituted (invoke free_substituted) ;;
          if done || bool_decide (status <> SUCCESS) then mret (Went status done)
          else actions_loop env pattern field_expanded proceed re field_alloc actions' status
      end
  end.

(** An iteration over the inputs; also whether there was a match element. *)
Definition phrase_input (env : phrase_env) (input : X) : PM (phrase_result * option X) :=
  let field := match switch_xml_attr input "field" with Some f => f | None => pe_data env end in
  let pattern := match switch_xml_attr input "pattern" with Some p => p | None => ".*" end in
  '(field_alloc, field_expanded) ← expand env field;
  '(proceed, re) ← invoke (switch_regex_perform field_expanded pattern);
  let match_ := head (switch_xml_children input (if decide (proceed <> 0) then "match" else "nomatch")) in
  r ← match match_ with
      | Some m =>
          actions_loop env pattern field_expanded proceed re field_alloc (switch_xml_children m "action") SUCCESS
      | None => mret (Went SUCCESS false)
      end;
  match r with
  | GotoDone _ => mret tt
  | Went _ _ => input_free re field_alloc
  end ;;
  mret (r, match_).

(** [while (input)]: the status. *)
Fixpoint inputs_loop (env : phrase_env) (inputs : list X) (status : switch_status_t) : PM switch_status_t :=
  match inputs with
  | [] => mret status
  | input :: inputs' =>
      '(r, m) ← phrase_input env input;
      match r with
      | GotoDone status => mret status
      | Went status done =>
          if done || bool_decide (status <> SUCCESS)
             || (bool_decide (m <> None) && switch_true (Some (attr_soft input "break_on_match")))
          then mret status
          else inputs_loop env inputs' status
      end
  end.

(** ** The macro *)

(** What [done:] has to undo: the old sound prefix and whether
    [sound_prefix_enforced] was set here, and whether the XML is open. *)
Record phrase_cleanup := mkCleanup {
  old_sound_prefix : option string;
  local_sound_prefix_enforced : bool;
  xml_open : bool;
}.

(** [done:] *)
Definition phrase_done (c : phrase_cleanup) (status : switch_status_t) : PM switch_status_t :=
  invoke arg_recursion_check_stop ;;
  invoke hint_destroy ;;
  match old_sound_prefix c with
  | Some p => invoke (p_set_variable "sound_prefix" (Some p))
  | None => mret tt
  end ;;
  (if local_sound_prefix_enforced c then invoke (p_set_variable "sound_prefix_enforced" None) else mret tt) ;;
  (if xml_open c then invoke switch_xml_free else mret tt) ;;
  mret status.

(** From the macro on: the sound prefix, the pause, and the inputs. *)
Definition phrase_run (env : phrase_env) (macro : X) (sound_path : option string) (sound_prefix_enforced : bool)
    (c : phrase_cleanup) : PM switch_status_t :=
  old ← match sound_path with
        | Some path =>
            if sound_prefix_enforced then mret None
            else
              old ← invoke (p_get_variable "sound_prefix");
              invoke (p_set_variable "sound_prefix" (Some path)) ;; mret (Some (str_nil old))
        | None => mret None
        end;
  let c := mkCleanup old (local_sound_prefix_enforced c) (xml_open c) in
  let pause := match switch_xml_attr macro "pause" with
               | Some v => if decide (0 <= atoi v) then atoi v else 100
               | None => 100
               end in
  let env := mkEnv (pe_event env) (pe_data env) (chan_lang env) (module_name env) (tts_engine env)
               (tts_voice env) pause in
  match switch_xml_children macro "input" with
  | [] => phrase_done c SWITCH_STATUS_GENERR
  | inputs =>
      st ← invoke p_pre_answer;
      if decide (st <> SUCCESS) then phrase_done c SWITCH_STATUS_FALSE
      else status ← inputs_loop env inputs SWITCH_STATUS_GENERR; phrase_done c status
  end.

(** The group of macros and what it overrides, in the new structure:
    the macros, the name of the macro, the sound path, and whether
    [sound_prefix_enforced] was set; [None] is a group that is not there. *)
Definition phrase_group (language phrases macros : X) (macro_name : string) (sound_path : option string)
    (sound_prefix_enforced : bool) : PM (option (X * string * option string * bool)) :=
  if xml_same language macros then mret (Some (macros, macro_name, sound_path, false))
  else
    let group :=
      match split_at "@" macro_name with
      | Some (local, g) =>
          match switch_xml_find_child phrases "macros" "name" g with
          | Some m => Some (m, local)
          | None => None
          end
      | None => Some (macros, macro_name)
      end in
    match group with
    | None => mret None
    | Some (macros, local) =>
        let sound_path := match attr_first macros ["sound-prefix"; "sound-path"; "sound_path"] with
                          | Some p => Some p
                          | None => sound_path
                          end in
        match switch_xml_attr macros "sound-prefix-enforced" with
        | Some v =>
            if negb sound_prefix_enforced && switch_true (Some v)
            then invoke (p_set_variable "sound_prefix_enforced" (Some v)) ;;
                 mret (Some (macros, local, sound_path, true))
            else mret (Some (macros, local, sound_path, false))
        | None => mret (Some (macros, local, sound_path, false))
        end
    end.

(** From the language on. *)
Definition phrase_language (macro_name data chan_lang : string) (event : bool) (sound_prefix_enforced : bool)
    (language phrases macros : X) (opened : bool) : PM switch_status_t :=
  let module := match attr_first language ["say-module"; "module"] with Some m => m | None => chan_lang end in
  let sound_path := attr_first language ["sound-prefix"; "sound-path"; "sound_path"] in
  let env := mkEnv event data chan_lang module (attr_first language ["tts-engine"; "tts_engine"])
               (attr_first language ["tts-voice"; "tts_voice"]) 100 in
  g ← phrase_group language phrases macros macro_name sound_path sound_prefix_enforced;
  match g with
  | None => phrase_done (mkCleanup None false opened) SWITCH_STATUS_GENERR
  | Some (macros, local, sound_path, enforced) =>
      match switch_xml_find_child macros "macro" "name" local with
      | None => phrase_done (mkCleanup None enforced opened) SWITCH_STATUS_GENERR
      | Some macro => phrase_run env macro sound_path sound_prefix_enforced (mkCleanup None enforced opened)
      end
  end.

(** [switch_ivr_phrase_macro_event]; [event] is whether there is one. *)
Definition switch_ivr_phrase_macro_event (macro_name data : option string) (event : bool) (lang : option string)
  : PM switch_status_t :=
  enforced ← invoke (p_get_variable "sound_prefix_enforced");
  let sound_prefix_enforced := switch_true enforced in
  match macro_name with
  | None => mret SWITCH_STATUS_GENERR
  | Some macro_name =>
      ok ← invoke arg_recursion_check_start;
      if negb ok then mret SWITCH_STATUS_GENERR
      else
        chan_lang ← match lang with
                    | Some l => mret l
                    | None => v ← invoke (p_get_variable "default_language"); mret (default "en" v)
                    end;
        invoke hint_create ;;
        invoke (hint_add_header "macro_name" macro_name) ;;
        invoke (hint_add_header "lang" chan_lang) ;;
        match data with
        | Some d => invoke (hint_add_header "data" d) ;;
                    (if event then invoke (event_add_header "data" d) else mret tt)
        | None => mret tt
        end ;;
        invoke switch_channel_event_set_data ;;
        '(opened, st, (language, phrases, macros)) ← invoke (switch_xml_locate_language chan_lang);
        if decide (st <> SUCCESS) then phrase_done (mkCleanup None false opened) SWITCH_STATUS_GENERR
        else phrase_language macro_name (str_nil data) chan_lang event sound_prefix_enforced
               language phrases macros opened
  end.

(** ** Clean-up on every path *)

(** What is held, and what was read from and last written to the variables. *)
Record held := mkHeld {
  recursion : Z;
  hints : Z;
  xmls : Z;
  prefix_read : option (option string);
  prefix_set : option (option string);
  enforced_set : option (option string);
}.

Definition held_upd (g : held) (e : event (presp X)) : held :=
  match e with
  | Ev (p_get_variable n) v =>
      if String.eqb n "sound_prefix"
      then mkHeld (recursion g) (hints g) (xmls g) (Some v) (prefix_set g) (enforced_set g) else g
  | Ev (p_set_variable n v) _ =>
      if String.eqb n "sound_prefix"
      then mkHeld (recursion g) (hints g) (xmls g) (prefix_read g) (Some v) (enforced_set g)
      else if String.eqb n "sound_prefix_enforced"
      then mkHeld (recursion g) (hints g) (xmls g) (prefix_read g) (prefix_set g) (Some v) else g
  | Ev arg_recursion_check_start ok =>
      if ok : bool then mkHeld (recursion g + 1) (hints g) (xmls g) (prefix_read g) (prefix_set g) (enforced_set g)
      else g
  | Ev arg_recursion_check_stop _ =>
      mkHeld (recursion g - 1) (hints g) (xmls g) (prefix_read g) (prefix_set g) (enforced_set g)
  | Ev hint_create _ => mkHeld (recursion g) (hints g + 1) (xmls g) (prefix_read g) (prefix_set g) (enforced_set g)
  | Ev hint_destroy _ => mkHeld (recursion g) (hints g - 1) (xmls g) (prefix_read g) (prefix_set g) (enforced_set g)
  | Ev (switch_xml_locate_language _) r =>
      if r.1.1 : bool then mkHeld (recursion g) (hints g) (xmls g + 1) (prefix_read g) (prefix_set g) (enforced_set g)
      else g
  | Ev switch_xml_free _ => mkHeld (recursion g) (hints g) (xmls g - 1) (prefix_read g) (prefix_set g) (enforced_set g)
  | _ => g
  end.

Notation wph := (wp any_answer held_upd).

(** Everything was released, and each variable that was changed has been given
    back what it was read as ([sound_prefix]) or been unset. *)
Definition released (g : held) : Prop :=
  recursion g = 0 /\ hints g = 0 /\ xmls g = 0 /\
  (prefix_set g = None \/ exists old, prefix_read g = Some old /\ prefix_set g = Some (Some (str_nil old))) /\
  (enforced_set g = None \/ enforced_set g = Some None).

(** [neutral_run]: a program made of calls that change nothing that is held. *)
Ltac neutral_step :=
  first
    [ apply neutral_ret | apply neutral_bind; [|intros ?] | apply neutral_invoke; intros; reflexivity
    | refine (neutral_invoke _ _ _); intros; reflexivity
    | match goal with |- neutral _ (match ?x with _ => _ end) => destruct x end
    | progress cbn zeta ].
Ltac neutral_run := repeat neutral_step.

Lemma neutral_act env action func odata status : neutral held_upd (act env action func odata status).
Proof. unfold act, act_play_file, act_execute, act_say, act_speak_text. neutral_run. Qed.

Lemma neutral_action_data env pattern fe adata proceed :
  neutral held_upd (action_data env pattern fe adata proceed).
Proof. unfold action_data, expand. neutral_run. Qed.

Lemma neutral_actions_loop env pattern fe proceed re fa actions : forall status,
  neutral held_upd (actions_loop env pattern fe proceed re fa actions status).
Proof.
  induction actions as [|a actions IH]; intros status; cbn [actions_loop]; [apply neutral_ret|].
  apply neutral_bind; [apply neutral_action_data | intros [[[ex su] odata]|]].
  2: { unfold input_free, safe_free. neutral_run. }
  apply neutral_bind; [apply neutral_act | intros [st done]].
  apply neutral_bind; [by apply neutral_invoke | intros _].
  do 2 (apply neutral_bind; [unfold safe_free; neutral_run | intros _]).
  destruct (done || _); [apply neutral_ret | apply IH].
Qed.

Lemma neutral_inputs_loop env inputs : forall status, neutral held_upd (inputs_loop env inputs status).
Proof.
  induction inputs as [|x inputs IH]; intros status; cbn [inputs_loop]; [apply neutral_ret|].
  apply neutral_bind.
  - unfold phrase_input, expand, input_free, safe_free. neutral_run; apply neutral_actions_loop.
  - intros [[st|st done] m]; [apply neutral_ret|]. destruct (_ || _); [apply neutral_ret | apply IH].
Qed.

(** [done:] releases what is held. *)
Lemma phrase_done_wp c status g :
  recursion g = 1 -> hints g = 1 -> xmls g = (if xml_open c then 1 else 0) ->
  match old_sound_prefix c with
  | Some p => exists old, prefix_read g = Some old /\ p = str_nil old
  | None => prefix_set g = None
  end ->
  (local_sound_prefix_enforced c = false -> enforced_set g = None) ->
  wph (phrase_done c status) g (fun g' _ => released g').
Proof.
  destruct g as [rc hs xs pr ps es], c as [[p|] enf xo]; cbn; intros -> -> -> Hp He.
  - destruct Hp as (old & -> & ->). destruct enf, xo; cbn; intros; repeat split; cbn; eauto.
  - subst ps. destruct enf, xo; cbn; intros; repeat split; cbn; eauto.
Qed.

Lemma phrase_run_wp env macro sound_path enforced c g :
  recursion g = 1 -> hints g = 1 -> xmls g = (if xml_open c then 1 else 0) -> prefix_set g = None ->
  (local_sound_prefix_enforced c = false -> enforced_set g = None) ->
  wph (phrase_run env macro sound_path enforced c) g (fun g' _ => released g').
Proof.
  intros H1 H2 H3 H4 H5. unfold phrase_run. apply wp_bind.
  apply wp_mono with (Q := fun g' old =>
    recursion g' = 1 /\ hints g' = 1 /\ xmls g' = (if xml_open c then 1 else 0) /\
    (local_sound_prefix_enforced c = false -> enforced_set g' = None) /\
    match old with
    | Some p => exists o, prefix_read g' = Some o /\ p = str_nil o
    | None => prefix_set g' = None
    end).
  - intros g' old (R1 & R2 & R3 & R4 & R5). cbn zeta.
    destruct (switch_xml_children macro "input"); [by apply phrase_done_wp|].
    intros st _. cbn [mbind prog_bind bindp held_upd].
    match goal with |- context [if decide ?P then phrase_done _ SWITCH_STATUS_FALSE else _] => destruct (decide P) end; [by apply phrase_done_wp|].
    apply wp_bind, wp_neutral; [apply neutral_inputs_loop|]. intros status. by apply phrase_done_wp.
  - destruct sound_path as [path|]; [destruct enforced|]; cbn; [done | | done].
    intros old _ _ _. cbn. repeat split; try done. by exists old.
Qed.

Lemma phrase_language_wp macro_name data chan_lang event enforced language phrases macros opened g :
  recursion g = 1 -> hints g = 1 -> xmls g = (if opened : bool then 1 else 0) -> prefix_set g = None ->
  enforced_set g = None ->
  wph (phrase_language macro_name data chan_lang event enforced language phrases macros opened) g
    (fun g' _ => released g').
Proof.
  intros H1 H2 H3 H4 H5. unfold phrase_language. cbn zeta. apply wp_bind.
  apply wp_mono with (Q := fun g' r =>
    recursion g' = 1 /\ hints g' = 1 /\ xmls g' = (if opened : bool then 1 else 0) /\ prefix_set g' = None /\
    match r with None => enforced_set g' = None | Some (_, _, _, e) => e = false -> enforced_set g' = None end).
  - intros g' [[[[m l] sp] e]|] (R1 & R2 & R3 & R4 & R5); [|by apply phrase_done_wp].
    destruct (switch_xml_find_child _ _ _ _); [by apply phrase_run_wp | by apply phrase_done_wp].
  - unfold phrase_group. destruct (xml_same language macros); [done|]. cbn zeta.
    destruct (match split_at "@" macro_name with Some _ => _ | None => _ end) as [[m l]|]; [|done].
    destruct (switch_xml_attr m "sound-prefix-enforced"); [|done].
    destruct (_ && _); [|done]. intros [] _. cbn. done.
Qed.

Lemma phrase_macro_wp macro_name data event lang :
  wph (switch_ivr_phrase_macro_event macro_name data event lang) (mkHeld 0 0 0 None None None)
    (fun g _ => released g).
Proof.
  assert (Hnone : released (mkHeld 0 0 0 None None None)) by (repeat split; by left).
  unfold switch_ivr_phrase_macro_event. intros v _. cbn [mbind prog_bind bindp held_upd String.eqb].
  cbn zeta. change (held_upd _ _) with (mkHeld 0 0 0 None None None).
  destruct macro_name as [macro_name|]; [|exact Hnone].
  intros ok _. cbn [mbind prog_bind bindp held_upd]. destruct ok; [cbn [negb]|exact Hnone].
  apply wp_bind. apply wp_neutral.
  { destruct lang; [by intros g | by intros g r _]. }
  intros chan_lang. intros [] _. cbn [mbind prog_bind bindp held_upd].
  apply wp_bind, wp_neutral; [by apply neutral_invoke | intros _].
  apply wp_bind, wp_neutral; [by apply neutral_invoke | intros _].
  apply wp_bind, wp_neutral.
  { destruct data; [|apply neutral_ret]. apply neutral_bind; [by apply neutral_invoke | intros _].
    destruct event; [by apply neutral_invoke | apply neutral_ret]. }
  intros _. apply wp_bind, wp_neutral; [by apply neutral_invoke | intros _].
  intros [[opened st] [[language phrases] macros]] _. cbn [mbind prog_bind bindp held_upd fst].
  destruct (decide (st <> SUCCESS)).
  - destruct opened; by apply phrase_done_wp.
  - destruct opened; by apply phrase_language_wp.
Qed.

(** ** Actions stop at the first failure *)

(** The first failure of a call that plays, speaks, runs an application or
    another macro, and whether another such call came after it. *)
Definition acting (e : event (presp X)) : option switch_status_t :=
  match e with
  | Ev (p_play_file _ _) r => Some r
  | Ev (switch_ivr_phrase_macro _ _ _) r => Some r
  | Ev (switch_core_session_exec _ _) r => Some r
  | Ev (say_function _ _ _ _ _) r => Some r
  | Ev (p_speak_text _ _ _) r => Some r
  | _ => None
  end.

Definition failure_upd (g : option switch_status_t * bool) (e : event (presp X)) : option switch_status_t * bool :=
  match acting e with
  | None => g
  | Some r => match g.1 with
              | Some s => (Some s, true)
              | None => (if decide (r <> SUCCESS) then Some r else None, g.2)
              end
  end.

Notation wpf := (wp any_answer failure_upd).

(** Nothing came after a failure, and the failure is the status. *)
Definition failure_ok (g : option switch_status_t * bool) (status : switch_status_t) : Prop :=
  g = (None, false) \/ (g = (Some status, false) /\ status <> SUCCESS).

Lemma failure_answer (s : switch_status_t) : failure_ok (if decide (s <> SUCCESS) then Some s else None, false) s.
Proof. case_decide; [by right | by left]. Qed.

Lemma act_failure env action func odata status :
  wpf (act env action func odata status) (None, false) (fun g r => failure_ok g r.1).
Proof.
  unfold act, act_play_file, act_execute, act_say, act_speak_text.
  repeat match goal with
    | |- wp _ _ (if strcaseeq ?a ?b then _ else _) _ _ => destruct (strcaseeq a b)
    end; try (by left).
  - intros r _. apply failure_answer.
  - intros r _. apply failure_answer.
  - destruct (switch_separate_paren_args odata). intros app _. destruct app; [|by left].
    intros r _ [] _. apply failure_answer.
  - intros si _. destruct si; [|by left]. intros r _. apply failure_answer.
  - destruct (_ || _); [by left|]. intros r _. apply failure_answer.
Qed.

Lemma neutral_action_data_failure env pattern fe adata proceed :
  neutral failure_upd (action_data env pattern fe adata proceed).
Proof. unfold action_data, expand. neutral_run. Qed.

Definition result_status (r : phrase_result) : switch_status_t :=
  match r with GotoDone s => s | Went s _ => s end.

Lemma actions_loop_failure env pattern fe proceed re fa actions : forall status,
  wpf (actions_loop env pattern fe proceed re fa actions status) (None, false) (fun g r => failure_ok g (result_status r)).
Proof.
  induction actions as [|a actions IH]; intros status; cbn [actions_loop]; [by left|].
  apply wp_bind, wp_neutral; [apply neutral_action_data_failure|]. intros [[[ex su] odata]|].
  2: { apply wp_bind, wp_neutral; [unfold input_free, safe_free; neutral_run | by left]. }
  apply wp_bind. eapply wp_mono; [|apply act_failure]. intros g [st done] Hg. cbn in Hg.
  intros [] _. cbn [mbind prog_bind bindp failure_upd acting].
  change (failure_upd g _) with g.
  do 2 (apply wp_bind, wp_neutral; [unfold safe_free; neutral_run | intros _]).
  destruct (bool_decide (st <> SUCCESS)) eqn:Hst.
  - rewrite orb_true_r. exact Hg.
  - apply bool_decide_eq_false in Hst. rewrite orb_false_r.
    destruct Hg as [->|[_ ?]]; [|done]. destruct done; [by left | apply IH].
Qed.

Lemma inputs_loop_failure env inputs : forall status,
  wpf (inputs_loop env inputs status) (None, false) (fun g r => failure_ok g r).
Proof.
  induction inputs as [|x inputs IH]; intros status; cbn [inputs_loop]; [by left|].
  apply wp_bind. unfold phrase_input.
  apply wp_mono with (Q := fun g r => failure_ok g (result_status r.1)).
  - intros g [[st|st done] m] Hg; [exact Hg|]. cbn in Hg.
    destruct (bool_decide (st <> SUCCESS)) eqn:Hst.
    + rewrite orb_true_r. exact Hg.
    + apply bool_decide_eq_false in Hst. destruct Hg as [->|[_ ?]]; [|done].
      destruct (_ || _); [by left | apply IH].
  - cbn zeta. apply wp_bind, wp_neutral; [unfold expand; neutral_run|]. intros [fa fe].
    intros [proceed re] _. cbn [mbind prog_bind bindp]. change (failure_upd _ _) with (None (A := switch_status_t), false).
    apply wp_bind. apply wp_mono with (Q := fun g r => failure_ok g (result_status r)).
    + intros g r Hg. apply wp_bind, wp_neutral; [unfold input_free, safe_free; destruct r; neutral_run | intros _; exact Hg].
    + destruct (head _) as [m|]; [apply actions_loop_failure | by left].
Qed.

(** ** Memory and interfaces *)

(** The applications that are protected, the regular expressions, the strings
    that were expanded and the buffers of substitutions that are allocated. *)
Record allocated := mkAllocated { apps : Z; regexes : Z; expansions : Z; substitutions : Z }.

Definition alloc_upd (g : allocated) (e : event (presp X)) : allocated :=
  match e with
  | Ev (get_application_interface _) there => if there : bool then mkAllocated (apps g + 1) (regexes g) (expansions g) (substitutions g) else g
  | Ev unprotect_interface _ => mkAllocated (apps g - 1) (regexes g) (expansions g) (substitutions g)
  | Ev (switch_regex_perform _ _) res => if res.2 : bool then mkAllocated (apps g) (regexes g + 1) (expansions g) (substitutions g) else g
  | Ev switch_regex_free _ => mkAllocated (apps g) (regexes g - 1) (expansions g) (substitutions g)
  | Ev (switch_event_expand_headers _) res => if res.1 : bool then mkAllocated (apps g) (regexes g) (expansions g + 1) (substitutions g) else g
  | Ev (switch_channel_expand_variables _) res => if res.1 : bool then mkAllocated (apps g) (regexes g) (expansions g + 1) (substitutions g) else g
  | Ev free_field _ => mkAllocated (apps g) (regexes g) (expansions g - 1) (substitutions g)
  | Ev free_expanded _ => mkAllocated (apps g) (regexes g) (expansions g - 1) (substitutions g)
  | Ev (malloc_substituted _) ok => if ok : bool then mkAllocated (apps g) (regexes g) (expansions g) (substitutions g + 1) else g
  | Ev free_substituted _ => mkAllocated (apps g) (regexes g) (expansions g) (substitutions g - 1)
  | _ => g
  end.

Definition none_allocated : allocated := mkAllocated 0 0 0 0.

Notation wpa := (wp any_answer alloc_upd).

Definition one (b : bool) : Z := if b then 1 else 0.

Lemma expand_alloc env s g :
  wpa (expand env s) g (fun g' x => g' = mkAllocated (apps g) (regexes g) (expansions g + one x.1) (substitutions g)).
Proof.
  destruct g as [a r x su]. unfold expand. destruct (pe_event env); intros [[] e] _; cbn; by rewrite ?Z.add_0_r.
Qed.

Lemma act_alloc env action func odata status g : wpa (act env action func odata status) g (fun g' _ => g' = g).
Proof.
  destruct g as [a r x su]. unfold act, act_play_file, act_execute, act_say, act_speak_text.
  repeat match goal with |- wp _ _ (if strcaseeq ?a ?b then _ else _) _ _ => destruct (strcaseeq a b) end; try done.
  - destruct (switch_separate_paren_args odata). intros [] _; [|done]. intros st _ [] _. cbn. f_equal. lia.
  - intros [] _; [|done]. by intros st _.
  - destruct (_ || _); [done|]. by intros st _.
Qed.

Lemma action_data_alloc env pattern fe adata proceed g :
  wpa (action_data env pattern fe adata proceed) g (fun g' d =>
    match d with
    | None => g' = g
    | Some (ex, su, _) => g' = mkAllocated (apps g) (regexes g) (expansions g + one ex) (substitutions g + one su)
    end).
Proof.
  destruct g as [a r x su]. unfold action_data. apply wp_bind.
  apply wp_mono with (Q := fun g' o =>
    match o with None => g' = mkAllocated a r x su | Some (b, _) => g' = mkAllocated a r x (su + one b) end).
  - intros g' [[b odata]|] ->; [|done]. apply wp_bind. eapply wp_mono; [|apply expand_alloc]. by intros g' [ex e] ->.
  - destruct (_ && _); [|cbn; by rewrite Z.add_0_r]. intros [] _; [|done]. by intros sub _.
Qed.

Lemma input_free_alloc re fa g :
  wpa (input_free re fa) g (fun g' _ => g' = mkAllocated (apps g) (regexes g - one re) (expansions g - one fa) (substitutions g)).
Proof.
  destruct g as [a r x su]. unfold input_free, safe_free. destruct re, fa; cbn; repeat intros ?; f_equal; lia.
Qed.

Lemma action_free_alloc ex su g :
  wpa (safe_free ex (invoke free_expanded) ;; safe_free su (invoke free_substituted)) g
    (fun g' _ => g' = mkAllocated (apps g) (regexes g) (expansions g - one ex) (substitutions g - one su)).
Proof. destruct g as [a r x s]. unfold safe_free. destruct ex, su; cbn; repeat intros ?; f_equal; lia. Qed.

(** The actions of an input, which holds its regular expression and its field. *)
Lemma actions_loop_alloc env pattern fe proceed re fa actions : forall status,
  wpa (actions_loop env pattern fe proceed re fa actions status) (mkAllocated 0 (one re) (one fa) 0)
    (fun g r => g = match r with GotoDone _ => none_allocated | Went _ _ => mkAllocated 0 (one re) (one fa) 0 end).
Proof.
  induction actions as [|x actions IH]; intros status; cbn [actions_loop]; [done|].
  apply wp_bind. eapply wp_mono; [|apply action_data_alloc]. intros g [[[ex su] odata]|] ->.
  - apply wp_bind. eapply wp_mono; [|apply act_alloc]. intros g [st dn] ->. intros [] _.
    cbn [mbind prog_bind bindp alloc_upd apps regexes expansions substitutions].
    apply wp_bind_assoc, wp_bind. eapply wp_mono; [|apply action_free_alloc]. intros g [] ->.
    cbn [alloc_upd apps regexes expansions substitutions]. rewrite !Z.add_simpl_r.
    destruct (dn || _); [done | apply IH].
  - apply wp_bind. eapply wp_mono; [|apply input_free_alloc]. intros g _ ->. cbn. unfold none_allocated. f_equal; lia.
Qed.

Lemma inputs_loop_alloc env inputs : forall status, wpa (inputs_loop env inputs status) none_allocated (fun g _ => g = none_allocated).
Proof.
  induction inputs as [|x inputs IH]; intros status; cbn [inputs_loop]; [done|].
  apply wp_bind. apply wp_mono with (Q := fun g _ => g = none_allocated).
  - intros g [[st|st dn] m] ->; [done|]. destruct (_ || _); [done | apply IH].
  - unfold phrase_input. cbv zeta. apply wp_bind. eapply wp_mono; [|apply expand_alloc]. intros g [fa fe] ->.
    intros [proceed re] _. cbn [mbind prog_bind bindp alloc_upd apps regexes expansions substitutions none_allocated snd fst].
    replace (if re then mkAllocated 0 (0 + 1) (0 + one fa) 0 else mkAllocated 0 0 (0 + one fa) 0)
      with (mkAllocated 0 (one re) (one fa) 0) by by destruct re.
    apply wp_bind. apply wp_mono with (Q := fun g r =>
      g = match r with GotoDone _ => none_allocated | Went _ _ => mkAllocated 0 (one re) (one fa) 0 end).
    + intros g [st|st dn] ->; [done|]. apply wp_bind. eapply wp_mono; [|apply input_free_alloc]. intros g _ ->.
      cbn. unfold none_allocated. f_equal; lia.
    + destruct (head _); [apply actions_loop_alloc | done].
Qed.

Lemma neutral_phrase_done_alloc c status : neutral alloc_upd (phrase_done c status).
Proof. unfold phrase_done. neutral_run. Qed.

Lemma phrase_macro_alloc macro_name data event lang :
  wpa (switch_ivr_phrase_macro_event macro_name data event lang) none_allocated (fun g _ => g = none_allocated).
Proof.
  assert (Hdone : forall c st, wpa (phrase_done c st) none_allocated (fun g _ => g = none_allocated)).
  { intros c st. apply wp_neutral; [apply neutral_phrase_done_alloc | done]. }
  assert (Hn : forall A (m : PM A) (Q : _ -> A -> Prop), neutral alloc_upd m ->
    (forall a, Q none_allocated a) -> wpa m none_allocated Q) by (intros; by apply wp_neutral).
  unfold switch_ivr_phrase_macro_event. apply wp_bind, Hn; [neutral_run | intros v]. cbn zeta.
  destruct macro_name as [macro_name|]; [|done].
  apply wp_bind, Hn; [by intros g [] _ | intros ok]. destruct ok; [cbn [negb] | done].
  do 6 (apply wp_bind, Hn; [neutral_run | intros ?]).
  apply wp_bind, Hn; [by intros g r _; destruct g | intros [[opened st] [[language phrases] macros]]].
  case_decide; [apply Hdone|]. unfold phrase_language. cbn zeta. apply wp_bind, Hn.
  { unfold phrase_group. neutral_run. }
  intros [[[[m l] sp] e]|]; [|apply Hdone]. destruct (switch_xml_find_child _ _ _ _); [|apply Hdone].
  unfold phrase_run. apply wp_bind, Hn; [neutral_run | intros old]. cbv zeta.
  destruct (switch_xml_children _ "input"); [apply Hdone|]. intros st' _. cbn [mbind prog_bind bindp].
  change (alloc_upd _ _) with none_allocated.
  match goal with |- context [if decide ?P then phrase_done _ SWITCH_STATUS_FALSE else _] => destruct (decide P) end; [apply Hdone|].
  apply wp_bind. eapply wp_mono; [|apply inputs_loop_alloc]. intros g status ->. apply Hdone.
Qed.


Lemma neutral_phrase_done c status : neutral failure_upd (phrase_done c status).
Proof. unfold phrase_done. neutral_run. Qed.

Lemma phrase_done_failure c status g : failure_ok g status -> wpf (phrase_done c status) g failure_ok.
Proof.
  intros Hg. unfold phrase_done. destruct c as [[] [] []]; cbn; intros; exact Hg.
Qed.

Lemma phrase_run_failure env macro sound_path enforced c :
  wpf (phrase_run env macro sound_path enforced c) (None, false) failure_ok.
Proof.
  unfold phrase_run. apply wp_bind, wp_neutral.
  { destruct sound_path; [|by intros g]. destruct enforced; [by intros g|]. by intros g r _ [] _. }
  intros old. cbn zeta. destruct (switch_xml_children macro "input"); [by apply phrase_done_failure; left|].
  intros st _. cbn [mbind prog_bind bindp]. change (failure_upd _ _) with (None (A := switch_status_t), false).
  match goal with |- context [if decide ?P then phrase_done _ SWITCH_STATUS_FALSE else _] => destruct (decide P) end;
    [by apply phrase_done_failure; left|].
  apply wp_bind. eapply wp_mono; [|apply inputs_loop_failure]. intros g s Hg. by apply phrase_done_failure.
Qed.

Lemma neutral_phrase_group language phrases macros macro_name sound_path enforced :
  neutral failure_upd (phrase_group language phrases macros macro_name sound_path enforced).
Proof. unfold phrase_group. neutral_run. Qed.

Lemma phrase_macro_failure macro_name data event lang :
  wpf (switch_ivr_phrase_macro_event macro_name data event lang) (None, false) failure_ok.
Proof.
  assert (Hn : forall A (m : PM A) (Q : _ -> A -> Prop), neutral failure_upd m ->
    (forall a, Q (None, false) a) -> wpf m (None, false) Q) by (intros; by apply wp_neutral).
  unfold switch_ivr_phrase_macro_event. apply wp_bind, Hn; [by intros g r _ | intros v]. cbn zeta.
  destruct macro_name as [macro_name|]; [|by left].
  apply wp_bind, Hn; [by intros g r _ | intros ok]. destruct ok; [cbn [negb] | by left].
  apply wp_bind, Hn; [destruct lang; [by intros g | by intros g r _] | intros chan_lang].
  apply wp_bind, Hn; [by intros g r _ | intros _].
  apply wp_bind, Hn; [by intros g r _ | intros _].
  apply wp_bind, Hn; [by intros g r _ | intros _].
  apply wp_bind, Hn; [destruct data; [|by intros g]; intros g [] _; destruct event; [intros [] _|]; done | intros _].
  apply wp_bind, Hn; [by intros g r _ | intros _].
  apply wp_bind, Hn; [by intros g r _ | intros [[opened st] [[language phrases] macros]]].
  destruct (decide (st <> SUCCESS)); [by apply phrase_done_failure; left|].
  unfold phrase_language. cbn zeta. apply wp_bind, Hn.
  { apply neutral_phrase_group. }
  intros [[[[m l] sp] e]|]; [|by apply phrase_done_failure; left].
  destruct (switch_xml_find_child _ _ _ _); [apply phrase_run_failure | by apply phrase_done_failure; left].
Qed.

(** A macro stops at its first failure: when a file, a phrase, an
    application, a say module or the speech of an action fails, no further
    action is run and its status is the status of the macro; in particular a
    macro that returns SUCCESS ran no action that failed. *)
Theorem phrase_macro_first_failure macro_name data event lang tr st :
  exec (switch_ivr_phrase_macro_event macro_name data event lang) tr st ->
  failure_ok (ghost failure_upd (None, false) tr) st.
Proof. intros Hex. exact (wp_any failure_upd _ _ _ _ _ (phrase_macro_failure macro_name data event lang) Hex). Qed.

End PhraseMacro.

(** ** Witnesses: a small language *)

Inductive node := Node (tag : string) (attrs : list (string * string)) (children : list node).

Definition node_tag (n : node) : string := let 'Node t _ _ := n in t.
Definition node_attr (n : node) (a : string) : option string :=
  let 'Node _ attrs _ := n in snd <$> find (fun p => String.eqb p.1 a) attrs.
Definition node_children (n : node) (tag : string) : list node :=
  let 'Node _ _ cs := n in List.filter (fun c => String.eqb (node_tag c) tag) cs.

#[local] Instance node_xml : XmlOps node := {
  switch_xml_attr := node_attr;
  switch_xml_children := node_children;
  switch_xml_find_child n tag a v :=
    find (fun c => match node_attr c a with Some w => String.eqb v w | None => false end) (node_children n tag);
  xml_same _ _ := false;
}.

#[local] Instance sample_phrase : PhraseDefs := {
  switch_true v := match v with Some s => String.eqb s "true" | None => false end;
  switch_is_number _ := false;
  switch_normalize_volume_granular v := v;
  switch_separate_paren_args s := (s, None);
}.

(** A macro that plays two files; the second one fails. *)
Definition sample_macros : node :=
  Node "macros" [("sound-prefix", "/sounds/en"); ("sound-prefix-enforced", "true")]
    [Node "macro" [("name", "hello")]
       [Node "input" [("pattern", "(.*)")]
          [Node "match" []
             [Node "action" [("function", "play-file"); ("data", "hello.wav")] [];
              Node "action" [("function", "play-file"); ("data", "missing.wav")] [];
              Node "action" [("function", "play-file"); ("data", "bye.wav")] []]]]].

Definition phrase_answers (w : unit) (c : pcall) : presp node c * unit :=
  (match c return presp node c with
   | p_get_variable _ => None
   | arg_recursion_check_start => true
   | switch_xml_locate_language _ => (true, SUCCESS, (sample_macros, sample_macros, sample_macros))
   | p_pre_answer => SUCCESS
   | switch_event_expand_headers s => (true, s)
   | switch_channel_expand_variables s => (true, s)
   | switch_regex_perform _ _ => (1, true)
   | malloc_substituted _ => true
   | switch_perform_substitution _ data _ => data
   | p_play_file _ file => if String.eqb file "missing.wav" then SWITCH_STATUS_NOTFOUND else SUCCESS
   | switch_ivr_phrase_macro _ _ _ => SUCCESS
   | get_application_interface _ => false
   | switch_core_session_exec _ _ => SUCCESS
   | get_say_interface _ => false
   | say_function _ _ _ _ _ => SUCCESS
   | p_speak_text _ _ _ => SUCCESS
   | _ => tt
   end, tt).

Definition hello : prog (presp node) switch_status_t := switch_ivr_phrase_macro_event (Some "hello") None false None.
Definition hello_run : switch_status_t * list (event (presp node)) :=
  let '(r, _, tr) := run phrase_answers tt hello in (r, tr).

Lemma hello_exec : exec hello hello_run.2 hello_run.1.
Proof.
  unfold hello_run. pose proof (run_exec phrase_answers hello tt) as E.
  by destruct (run phrase_answers tt hello) as [[r w] tr].
Qed.


Lemma phrase_macro_first_failure_witness :
  failure_ok (ghost failure_upd (None, false) hello_run.2) hello_run.1 /\ hello_run.1 = SWITCH_STATUS_NOTFOUND.
Proof.
  split; [|vm_compute; reflexivity].
  exact (phrase_macro_first_failure (Some "hello") None false None _ _ hello_exec).
Defined.
