(* ===== verification/SpeakText.v ===== *)
(** * Speaking text: [switch_ivr_speak_text_handle], [switch_ivr_speak_text]
    and [switch_ivr_clear_speech_cache] of [src/switch_ivr_play_say.c]

    A speech handle, its codec and its timer are either local to a call of
    [switch_ivr_speak_text] or kept in an object that is cached on the channel;
    the calls of the signature [scall] say which they act on. *)

From Stdlib Require Import Ascii String.
From S2P Require Import Prelude Interaction SwitchCore.

#[local] Open Scope list_scope.
#[local] Open Scope string_scope.
#[local] Open Scope Z_scope.

(** ** The calls *)

Inductive speech := Local | Cached.
#[export] Instance speech_eq : EqDecision speech.
Proof. solve_decision. Defined.

(** [cached_speech_handle_t]: the names, and of [timer] and [sh] whether
    [interval] and [speech_interface] are set, and the format of [sh]. *)
Record cached_speech_handle := mkCachedHandle {
  tts_name : string;
  voice_name : string;
  timer_interval : bool;
  speech_interface : bool;
  sh_samples : Z;
  sh_channels : Z;
}.

Inductive scall :=
| s_get_read_impl
| s_pre_answer
| s_recursion_start
| s_recursion_stop
| s_get_variable (name : string)
| s_get_private
| s_set_private (o : option (string * string))
| s_session_reset (flush_dtmf reset_read_codec : bool)
| s_speech_open (h : speech) (tts voice : string) (rate interval channels : Z)
| s_speech_text_param (h : speech) (param value : string)
| s_speech_close (h : speech)
| s_codec_init (h : speech) (rate interval channels : Z)
| s_codec_destroy (h : speech)
| s_timer_init (h : speech) (name : string) (interval samples : Z)
| s_timer_sync (h : speech)
| s_timer_destroy (h : speech)
| s_service_session
| s_thread_session_end
| s_codec_ready (h : speech)
| s_malloc (len : Z)
| s_feed_tts (h : speech) (text : string)
| s_audio_sync
| s_channel_ready
| s_test_flag (hold : bool)
| s_clear_break
| s_parse_all_events
| s_parse_all_messages
| s_yield (us : Z)
| s_has_dtmf
| s_buf_is_break
| s_dequeue_dtmf
| s_dmachine_feed (digit : ascii)
| s_input_callback_dtmf (digit : ascii)
| s_buf_store (digit : ascii)
| s_dequeue_event
| s_input_callback_event
| s_event_destroy
| s_speech_paused (h : speech)
| s_timer_next (h : speech)
| s_read_frame
| s_dmachine_ping
| s_read_frame_callback
| s_read_tts (h : speech) (ilen : Z)
| s_write_frame (datalen samples : Z)
| s_flush_tts (h : speech).

(** [s_speech_open] also gives the samples and the channels of the handle,
    [s_read_tts] the number of bytes read. *)
Definition sresp (c : scall) : Type :=
  match c with
  | s_get_read_impl => Z * Z * Z
  | s_recursion_start | s_codec_ready _ | s_malloc _ | s_channel_ready | s_test_flag _ | s_has_dtmf
  | s_buf_is_break | s_dequeue_event | s_speech_paused _ => bool
  | s_get_variable _ => option string
  | s_get_private => option cached_speech_handle
  | s_speech_open _ _ _ _ _ _ => switch_status_t * (Z * Z)
  | s_dequeue_dtmf => ascii
  | s_read_tts _ _ => switch_status_t * Z
  | s_pre_answer | s_codec_init _ _ _ _ | s_timer_init _ _ _ _ | s_dmachine_feed _ | s_input_callback_dtmf _
  | s_input_callback_event | s_timer_next _ | s_read_frame | s_dmachine_ping | s_read_frame_callback
  | s_write_frame _ _ => switch_status_t
  | _ => unit
  end%type.

Notation SM A := (prog sresp A).

(** The parts of [switch_input_args_t] that are there. *)
Record input_args := mkArgs {
  input_callback : bool;
  args_buf : bool;
  args_dmachine : bool;
  read_frame_callback : bool;
}.

Class SpeechDefs := {
  S_READ_ACCEPTABLE : switch_status_t -> bool;
  s_true : string -> bool;
  SWITCH_CACHE_SPEECH_HANDLES_VARIABLE : string;
}.

Section SpeakText.
Context `{SpeechDefs}.

(** [arg_recursion_check_start(args)] and [_stop] do nothing without arguments. *)
Definition recursion_start (args : option input_args) : SM bool :=
  match args with Some _ => invoke s_recursion_start | None => mret true end.
Definition recursion_stop (args : option input_args) : SM unit :=
  match args with Some _ => invoke s_recursion_stop | None => mret tt end.

(** ** The text: '*' and '#' spelled out *)

(** The additional length counted for the buffer. *)
Fixpoint count_extra (star pound : string) (text : string) : Z :=
  match text with
  | EmptyString => 0
  | String c t =>
      (if decide (c = "*"%char) then strlen star else if decide (c = "#"%char) then strlen pound else 0)
      + count_extra star pound t
  end.

(** [snprintf(tp, sizeof(tp), "%s", s); tp += strlen(s)] on zeroed memory:
    [sizeof(tp)] is the size of a pointer, 8.  The characters stored before
    the new [tp], NUL where nothing was stored. *)
Definition put_replacement (s : string) : string :=
  (substring 0 7 s ++ string_of_list_ascii (replicate (String.length s - 7) "000"%char))%string.

(** The loop that fills the buffer: what is stored before [tp]. *)
Fixpoint fill_text (star pound : string) (text : string) : string :=
  match text with
  | EmptyString => EmptyString
  | String c t =>
      if decide (c = "*"%char) then (put_replacement star ++ fill_text star pound t)%string
      else if decide (c = "#"%char) then (put_replacement pound ++ fill_text star pound t)%string
      else String c (fill_text star pound t)
  end.

(** The C string in a buffer. *)
Fixpoint c_string (buf : string) : string :=
  match buf with
  | EmptyString => EmptyString
  | String c b => if decide (c = "000"%char) then EmptyString else String c (c_string b)
  end.

(** The text that is fed: [None] is [malloc] failing. *)
Definition expand_text (star pound text : string) : SM (option string) :=
  if decide (count_extra star pound text <> 0) then
    ok ← invoke (s_malloc (strlen text + count_extra star pound text + 1));
    if ok : bool then mret (Some (c_string (fill_text star pound text))) else mret None
  else mret (Some text).

(** ** The loop of [switch_ivr_speak_text_handle] *)

(** What an iteration does next; [Break] leaves the loop with the status. *)
Inductive iteration := Go (status : switch_status_t) | Break (status : switch_status_t) | NoFuel.

(** [if (args) { ... }]: the digits and the events. *)
Definition speak_digit (a : input_args) (status : switch_status_t) : SM iteration :=
  if negb (input_callback a) && negb (args_buf a) && negb (args_dmachine a) then mret (Break BREAK)
  else
    brk ← (if args_buf a then invoke s_buf_is_break else mret false);
    if brk : bool then mret (Go BREAK)
    else
      digit ← invoke s_dequeue_dtmf;
      st ← (if args_dmachine a then invoke (s_dmachine_feed digit) else mret status);
      if args_dmachine a && bool_decide (st <> SUCCESS) then mret (Break st)
      else if input_callback a then s ← invoke (s_input_callback_dtmf digit); mret (Go s)
      else if args_buf a then invoke (s_buf_store digit) ;; mret (Go BREAK)
      else mret (Go st).

Definition speak_event (a : input_args) (status : switch_status_t) : SM switch_status_t :=
  if input_callback a then
    ev ← invoke s_dequeue_event;
    if ev : bool then
      ostatus ← invoke s_input_callback_event;
      invoke s_event_destroy ;;
      mret (if decide (ostatus <> SUCCESS) then ostatus else status)
    else mret status
  else mret status.

Definition speak_input (args : option input_args) (status : switch_status_t) : SM iteration :=
  match args with
  | None => mret (Go status)
  | Some a =>
      dtmf ← invoke s_has_dtmf;
      it ← (if dtmf : bool then speak_digit a status else mret (Go status));
      match it with
      | Go st =>
          st ← speak_event a st;
          if decide (st <> SUCCESS) then mret (Break st) else mret (Go st)
      | it => mret it
      end
  end.

(** [while (ready && CF_HOLD)]: [false] is out of fuel. *)
Fixpoint hold_loop (fuel : nat) : SM bool :=
  match fuel with
  | O => mret false
  | S fuel' =>
      ready ← invoke s_channel_ready;
      if negb ready then mret true
      else
        hold ← invoke (s_test_flag true);
        if hold : bool then
          invoke s_parse_all_messages ;; invoke (s_yield 10000) ;; hold_loop fuel'
        else mret true
  end.

(** Time off the channel: a packet of the timer, or a frame read. *)
Definition speak_wait (fuel : nat) (h : speech) (timer : bool) (args : option input_args) (status : switch_status_t)
  : SM iteration :=
  if timer then
    st ← invoke (s_timer_next h);
    if decide (st <> SUCCESS) then mret (Break status) else mret (Go status)
  else
    tstatus ← invoke s_read_frame;
    held ← hold_loop fuel;
    if negb held then mret NoFuel
    else if negb (S_READ_ACCEPTABLE tstatus) then mret (Break status)
    else
      match args with
      | None => mret (Go status)
      | Some a =>
          st ← (if args_dmachine a then invoke s_dmachine_ping else mret status);
          if args_dmachine a && bool_decide (st <> SUCCESS) then mret (Break st)
          else if read_frame_callback a then
            st ← invoke s_read_frame_callback;
            if decide (st <> SUCCESS) then mret (Break st) else mret (Go st)
          else mret (Go st)
      end.

(** Reading and writing a packet of speech. *)
Definition speak_packet (fuel : nat) (h : speech) (timer : bool) (args : option input_args) (len channels : Z)
  : SM iteration :=
  '(st, ilen) ← invoke (s_read_tts h len);
  if decide (st <> SUCCESS) then mret (Break (if decide (st = BREAK) then SUCCESS else st))
  else
    w ← invoke (s_write_frame (u32 ilen) (u32 (ilen / 2 / channels)));
    if decide (w <> SUCCESS) then mret (Break st)
    else speak_wait fuel h timer args st.

Fixpoint speak_loop (fuel : nat) (h : speech) (timer : bool) (args : option input_args) (len channels : Z)
    (status : switch_status_t) : SM (option switch_status_t) :=
  match fuel with
  | O => mret None
  | S fuel' =>
      ready ← invoke s_channel_ready;
      if negb ready then mret (Some SWITCH_STATUS_FALSE)
      else
        brk ← invoke (s_test_flag false);
        if brk : bool then invoke s_clear_break ;; mret (Some BREAK)
        else
          invoke s_parse_all_events ;;
          it ← speak_input args status;
          it ← match it with
               | Go st =>
                   paused ← invoke (s_speech_paused h);
                   if paused : bool then speak_wait fuel' h timer args st
                   else speak_packet fuel' h timer args len channels
               | it => mret it
               end;
          match it with
          | Go st => speak_loop fuel' h timer args len channels st
          | Break st => mret (Some st)
          | NoFuel => mret None
          end
  end.

(** [switch_ivr_speak_text_handle]; [None] is out of fuel. *)
Definition switch_ivr_speak_text_handle (fuel : nat) (h : speech) (samples channels : Z) (timer : bool)
    (text : string) (args : option input_args) : SM (option switch_status_t) :=
  pa ← invoke s_pre_answer;
  if decide (pa <> SUCCESS) then mret (Some SWITCH_STATUS_FALSE)
  else
    ready ← invoke (s_codec_ready h);
    if negb ready then mret (Some SWITCH_STATUS_FALSE)
    else
      ok ← recursion_start args;
      if negb ok then mret (Some SWITCH_STATUS_GENERR)
      else
        let len := u32 (samples * 2 * channels) in
        star ← invoke (s_get_variable "star_replace");
        pound ← invoke (s_get_variable "pound_replace");
        t ← expand_text (default "star" star) (default "pound" pound) text;
        match t with
        | None => recursion_stop args ;; mret (Some SWITCH_STATUS_MEMERR)
        | Some t =>
            invoke (s_feed_tts h t) ;;
            invoke s_audio_sync ;;
            r ← speak_loop fuel h timer args len channels SUCCESS;
            match r with
            | None => mret None
            | Some status => invoke (s_flush_tts h) ;; recursion_stop args ;; mret (Some status)
            end
        end.

(** ** The cache *)

Definition switch_ivr_clear_speech_cache : SM unit :=
  o ← invoke s_get_private;
  match o with
  | None => mret tt
  | Some c =>
      (if timer_interval c then invoke (s_timer_destroy Cached) else mret tt) ;;
      (if speech_interface c then invoke (s_speech_close Cached) else mret tt) ;;
      invoke (s_codec_destroy Cached) ;;
      invoke (s_set_private None)
  end.

(** [switch_copy_string] to an array of 80. *)
Definition copy80 (s : string) : string := substring 0 79 s.

(** The handle to use: which one, its format, [need_create], and the voice
    that a cached handle speaks with. *)
Record speech_choice := mkChoice {
  ch_handle : speech;
  ch_format : Z * Z;
  need_create : bool;
  ch_voice : option string;
}.

(** [if ((var = switch_channel_get_variable(...)) && switch_true(var)) { ... }] *)
Definition choose_handle (tts voice : string) : SM speech_choice :=
  var ← invoke (s_get_variable SWITCH_CACHE_SPEECH_HANDLES_VARIABLE);
  if match var with Some v => s_true v | None => false end then
    o ← invoke s_get_private;
    match o with
    | Some c =>
        if strcaseeq (tts_name c) tts then
          mret (mkChoice Cached (sh_samples c, sh_channels c) false (Some (voice_name c)))
        else
          switch_ivr_clear_speech_cache ;;
          invoke (s_set_private (Some (copy80 tts, copy80 voice))) ;;
          mret (mkChoice Cached (sh_samples c, sh_channels c) false (Some (copy80 voice)))
    | None =>
        invoke (s_set_private (Some (copy80 tts, copy80 voice))) ;;
        mret (mkChoice Cached (0, 0) true (Some (copy80 voice)))
    end
  else mret (mkChoice Local (0, 0) true None).

(** An exit with an error after the session was reset. *)
Definition speak_fail (args : option input_args) (status : switch_status_t) : SM (option switch_status_t) :=
  invoke (s_session_reset true true) ;;
  switch_ivr_clear_speech_cache ;;
  recursion_stop args ;;
  mret (Some status).

(** From [if (timer_name)] after the codec on. *)
Definition speak_and_close (fuel : nat) (c : speech_choice) (timer_name : option string) (text : string)
    (args : option input_args) : SM (option switch_status_t) :=
  let h := ch_handle c in
  match timer_name with
  | Some _ => invoke (s_timer_sync h) ;; invoke s_service_session
  | None => mret tt
  end ;;
  r ← switch_ivr_speak_text_handle fuel h (ch_format c).1 (ch_format c).2 (bool_decide (timer_name <> None)) text args;
  match r with
  | None => mret None
  | Some status =>
      (if decide (h = Local) then invoke (s_speech_close h) ;; invoke (s_codec_destroy h) else mret tt) ;;
      match timer_name with
      | Some _ =>
          invoke s_thread_session_end ;;
          (if decide (h = Local) then invoke (s_timer_destroy h) else mret tt)
      | None => mret tt
      end ;;
      invoke (s_session_reset false true) ;;
      recursion_stop args ;;
      mret (Some status)
  end.

(** From the codec on. *)
Definition speak_codec (fuel : nat) (rate interval channels : Z) (c : speech_choice) (timer_name : option string)
    (text : string) (args : option input_args) : SM (option switch_status_t) :=
  let h := ch_handle c in
  if need_create c then
    st ← invoke (s_codec_init h rate interval channels);
    if decide (st <> SUCCESS) then invoke (s_speech_close h) ;; speak_fail args SWITCH_STATUS_GENERR
    else
      match timer_name with
      | Some t =>
          st ← invoke (s_timer_init h t interval (ch_format c).1);
          if decide (st <> SUCCESS) then
            invoke (s_codec_destroy h) ;; invoke (s_speech_close h) ;; speak_fail args SWITCH_STATUS_GENERR
          else speak_and_close fuel c timer_name text args
      | None => speak_and_close fuel c timer_name text args
      end
  else speak_and_close fuel c timer_name text args.

(** [switch_ivr_speak_text] *)
Definition switch_ivr_speak_text (fuel : nat) (tts voice text : string) (args : option input_args)
  : SM (option switch_status_t) :=
  '(rate, channels, us) ← invoke s_get_read_impl;
  pa ← invoke s_pre_answer;
  if decide (pa <> SUCCESS) then mret (Some SWITCH_STATUS_FALSE)
  else
    ok ← recursion_start args;
    if negb ok then mret (Some SWITCH_STATUS_GENERR)
    else
      c ← choose_handle tts voice;
      timer_name ← invoke (s_get_variable "timer_name");
      invoke (s_session_reset false false) ;;
      let interval := us / 1000 in
      let h := ch_handle c in
      '(st, fmt) ← (if need_create c then invoke (s_speech_open h tts voice rate interval channels)
                    else
                      (if match ch_voice c with Some v => negb (strcaseeq v voice) | None => false end
                       then invoke (s_speech_text_param h "voice" voice) else mret tt) ;;
                      mret (SUCCESS, ch_format c));
      if decide (st <> SUCCESS) then speak_fail args st
      else
        let c := mkChoice h fmt (need_create c) (ch_voice c) in
        pa ← invoke s_pre_answer;
        if decide (pa <> SUCCESS) then
          invoke (s_speech_close h) ;; recursion_stop args ;; mret (Some SWITCH_STATUS_FALSE)
        else speak_codec fuel rate interval channels c timer_name text args.

(** ** The spoken text *)

(** The characters before a NUL. *)
Definition no_nul (s : string) : Prop := Forall (fun c => c <> "000"%char) (list_ascii_of_string s).

(** The text with '*' and '#' spelled out. *)
Fixpoint spell (star pound : string) (text : string) : string :=
  match text with
  | EmptyString => EmptyString
  | String c t =>
      if decide (c = "*"%char) then (star ++ spell star pound t)%string
      else if decide (c = "#"%char) then (pound ++ spell star pound t)%string
      else String c (spell star pound t)
  end.

Lemma append_cons c a b : (String c a ++ b = String c (a ++ b))%string.
Proof. reflexivity. Qed.

Lemma append_nil b : ("" ++ b = b)%string.
Proof. reflexivity. Qed.

Lemma c_string_app a b : no_nul a -> c_string (a ++ b)%string = (a ++ c_string b)%string.
Proof.
  unfold no_nul. induction a as [|c a IH]; [done|].
  cbn [list_ascii_of_string]. intros H1. inversion_clear H1. rewrite ?append_cons. cbn [c_string].
  rewrite decide_False by done. f_equal. by apply IH.
Qed.

Lemma c_string_no_nul a : no_nul a -> c_string a = a.
Proof.
  unfold no_nul. induction a as [|c a IH]; [done|].
  cbn [list_ascii_of_string]. intros H1. inversion_clear H1. rewrite ?append_cons. cbn [c_string].
  rewrite decide_False by done. f_equal. by apply IH.
Qed.

Lemma substring_0_all s n : (String.length s <= n)%nat -> substring 0 n s = s.
Proof. revert n. induction s as [|c s IH]; intros [|n] Hn; cbn in *; try done; [lia|]. f_equal. apply IH. lia. Qed.

Lemma put_replacement_short s : strlen s <= 7 -> put_replacement s = s.
Proof.
  unfold put_replacement, strlen. intros Hs. rewrite substring_0_all by lia.
  replace (String.length s - 7)%nat with 0%nat by lia. cbn. clear Hs.
  induction s; rewrite ?append_cons; [done|]. by f_equal.
Qed.

Lemma length_append a b : String.length (a ++ b)%string = (String.length a + String.length b)%nat.
Proof. induction a; rewrite ?append_cons; cbn; auto. Qed.

Lemma length_substring_0 n s : String.length (substring 0 n s) = (n `min` String.length s)%nat.
Proof. revert n. induction s as [|c s IH]; intros [|n]; cbn; auto. Qed.

Lemma length_put_replacement s : String.length (put_replacement s) = String.length s.
Proof.
  unfold put_replacement. rewrite length_append, length_substring_0.
  assert (forall n, String.length (string_of_list_ascii (replicate n "000"%char)) = n) as ->.
  { induction n; cbn; auto. }
  lia.
Qed.

(** The text that is fed to the engine: when the replacements of '*' and
    '#' have at most seven characters, the text with each '*' and '#' replaced,
    written without leaving the allocated buffer. *)
Theorem spoken_text star pound text :
  strlen star <= 7 -> strlen pound <= 7 -> no_nul star -> no_nul pound -> no_nul text ->
  c_string (fill_text star pound text) = spell star pound text /\
  strlen (fill_text star pound text) + 1 <= strlen text + count_extra star pound text + 1.
Proof.
  intros Hs Hp Ns Np. unfold no_nul, strlen.
  induction text as [|c t IH]; intros Nt; [done|].
  cbn [list_ascii_of_string c_string fill_text spell count_extra String.length] in *.
  inversion_clear Nt as [|? ? Hc Nt']. destruct (IH Nt') as [E L].
  case_decide; [|case_decide].
  - rewrite put_replacement_short, c_string_app, E by done. split; [done|].
    rewrite length_append. unfold strlen in *. lia.
  - rewrite put_replacement_short, c_string_app, E by done. split; [done|].
    rewrite length_append. unfold strlen in *. lia.
  - cbn [c_string String.length]. rewrite decide_False, E by done. split; [done|]. lia.
Qed.

(** With a longer replacement the engine is fed nothing after the first
    '*': [snprintf] is given the size of a pointer, stores seven characters,
    and the text goes on after a NUL. *)
Theorem long_replacement_truncates star pound before after :
  7 < strlen star -> no_nul star -> no_nul before ->
  Forall (fun c => c <> "*"%char /\ c <> "#"%char) (list_ascii_of_string before) ->
  c_string (fill_text star pound (before ++ String "*" after)) = (before ++ substring 0 7 star)%string.
Proof.
  intros Hs Ns Nb Hb. assert (Hsub : no_nul (substring 0 7 star)).
  { clear -Ns. unfold no_nul in *. generalize 7%nat. revert Ns.
    induction star as [|c s IH]; intros Ns [|n]; cbn; try constructor; inversion_clear Ns; auto. }
  assert (fill_text star pound (before ++ String "*" after) = (before ++ (put_replacement star ++ fill_text star pound after))%string) as ->.
  { clear -Hb. induction before as [|c b IH]; [done|].
    rewrite !append_cons. cbn [list_ascii_of_string fill_text] in *. inversion_clear Hb as [|? ? [H1 H2] H3].
    rewrite !decide_False by done. f_equal. by apply IH. }
  rewrite c_string_app by done. f_equal. unfold put_replacement.
  destruct (String.length star - 7)%nat as [|n] eqn:E; [unfold strlen in Hs; lia|].
  cbn [replicate string_of_list_ascii]. rewrite <- (c_string_no_nul (substring 0 7 star)) at 2 by done.
  clear E. generalize dependent (substring 0 7 star). intros u Hu.
  assert (forall x y : string, ((u ++ String "000" x) ++ y = u ++ String "000" (x ++ y))%string) as ->.
  { clear. intros x y. induction u; rewrite ?append_cons; [done|]. by f_equal. }
  rewrite c_string_app by done. cbn [c_string]. rewrite decide_True by done. rewrite c_string_no_nul by done.
  clear. induction u; rewrite ?append_cons; [done|]. by f_equal.
Qed.

(** ** Programs that a ghost state does not see *)

(** The calls of the loop: none of them opens or closes anything. *)
Definition quiet (c : scall) : bool :=
  match c with
  | s_recursion_start | s_recursion_stop | s_set_private _ | s_speech_open _ _ _ _ _ _ | s_speech_close _
  | s_codec_init _ _ _ _ | s_codec_destroy _ | s_timer_init _ _ _ _ | s_timer_destroy _ | s_service_session
  | s_thread_session_end | s_feed_tts _ _ => false
  | _ => true
  end.

Section Quiet.
Context {S : Type} (upd : S -> event sresp -> S).
Hypothesis upd_quiet : forall c g r, quiet c = true -> upd g (Ev c r) = g.
Notation idle := (neutral upd).

Lemma idle_invoke c : quiet c = true -> idle (invoke c).
Proof using Type*. intros Hc g r _. by apply upd_quiet. Qed.

Ltac idle_step :=
  first
    [ apply neutral_ret | apply neutral_bind; [|intros ?]
    | apply idle_invoke; reflexivity
    | match goal with |- neutral _ (match ?x with _ => _ end) => destruct x end
    | progress cbn zeta ].
Ltac idle_run := repeat idle_step.

Lemma idle_hold_loop fuel : idle (hold_loop fuel).
Proof using Type*. induction fuel as [|fuel IH]; cbn [hold_loop]; idle_run. exact IH. Qed.

Lemma idle_speak_wait fuel h timer args status : idle (speak_wait fuel h timer args status).
Proof using Type*. unfold speak_wait. idle_run. apply idle_hold_loop. Qed.

Lemma idle_speak_packet fuel h timer args len channels : idle (speak_packet fuel h timer args len channels).
Proof using Type*. unfold speak_packet. idle_run. apply idle_speak_wait. Qed.

Lemma idle_speak_input args status : idle (speak_input args status).
Proof using Type*. unfold speak_input, speak_digit, speak_event. idle_run. Qed.

Lemma idle_speak_loop fuel h timer args len channels : forall status,
  idle (speak_loop fuel h timer args len channels status).
Proof using Type*.
  induction fuel as [|fuel IH]; intros status; cbn [speak_loop]; [apply neutral_ret|].
  apply neutral_bind; [by apply idle_invoke | intros ready]. destruct (negb ready); [apply neutral_ret|].
  apply neutral_bind; [by apply idle_invoke | intros brk]. destruct brk; [idle_run|].
  apply neutral_bind; [by apply idle_invoke | intros _].
  apply neutral_bind; [apply idle_speak_input | intros it].
  apply neutral_bind.
  - destruct it; [|apply neutral_ret..]. apply neutral_bind; [by apply idle_invoke | intros paused].
    destruct paused; [apply idle_speak_wait | apply idle_speak_packet].
  - intros [st|st|]; [apply IH | apply neutral_ret | apply neutral_ret].
Qed.

Lemma idle_expand_text star pound text : idle (expand_text star pound text).
Proof using Type*. unfold expand_text. idle_run. Qed.

End Quiet.

(** ** Resources of a call that caches nothing *)

(** Local handles, codecs and timers that are open, threads that absorb audio,
    and recursion marks. *)
Record in_use := mkInUse { u_speech : Z; u_codec : Z; u_timer : Z; u_thread : Z; u_mark : Z }.

Definition use_upd (g : in_use) (e : event sresp) : in_use :=
  match e with
  | Ev (s_speech_open Local _ _ _ _ _) r =>
      if decide (r.1 = SUCCESS) then mkInUse (u_speech g + 1) (u_codec g) (u_timer g) (u_thread g) (u_mark g) else g
  | Ev (s_speech_close Local) _ => mkInUse (u_speech g - 1) (u_codec g) (u_timer g) (u_thread g) (u_mark g)
  | Ev (s_codec_init Local _ _ _) st =>
      if decide (st = SUCCESS) then mkInUse (u_speech g) (u_codec g + 1) (u_timer g) (u_thread g) (u_mark g) else g
  | Ev (s_codec_destroy Local) _ => mkInUse (u_speech g) (u_codec g - 1) (u_timer g) (u_thread g) (u_mark g)
  | Ev (s_timer_init Local _ _ _) st =>
      if decide (st = SUCCESS) then mkInUse (u_speech g) (u_codec g) (u_timer g + 1) (u_thread g) (u_mark g) else g
  | Ev (s_timer_destroy Local) _ => mkInUse (u_speech g) (u_codec g) (u_timer g - 1) (u_thread g) (u_mark g)
  | Ev s_service_session _ => mkInUse (u_speech g) (u_codec g) (u_timer g) (u_thread g + 1) (u_mark g)
  | Ev s_thread_session_end _ => mkInUse (u_speech g) (u_codec g) (u_timer g) (u_thread g - 1) (u_mark g)
  | Ev s_recursion_start ok =>
      if ok : bool then mkInUse (u_speech g) (u_codec g) (u_timer g) (u_thread g) (u_mark g + 1) else g
  | Ev s_recursion_stop _ => mkInUse (u_speech g) (u_codec g) (u_timer g) (u_thread g) (u_mark g - 1)
  | _ => g
  end.

(** Caching is off. *)
Definition no_cache (_ : in_use) (e : event sresp) : Prop :=
  match e with
  | Ev (s_get_variable n) v =>
      n = SWITCH_CACHE_SPEECH_HANDLES_VARIABLE -> match v with Some x => s_true x = false | None => True end
  | _ => True
  end.

Notation wpu := (wp no_cache use_upd).

(** A program that uses nothing. *)
Notation idle := (neutral use_upd).

Lemma use_quiet c g r : quiet c = true -> use_upd g (Ev c r) = g.
Proof. by destruct c. Qed.

Lemma idle_clear_cache : idle switch_ivr_clear_speech_cache.
Proof.
  unfold switch_ivr_clear_speech_cache. intros g [c|] _; [|done].
  cbn. destruct (timer_interval c), (speech_interface c); cbn; intros; done.
Qed.


(** The marks taken with arguments, and only then. *)
Definition marked (args : option input_args) (g : in_use) : in_use :=
  match args with
  | Some _ => mkInUse (u_speech g) (u_codec g) (u_timer g) (u_thread g) (u_mark g + 1)
  | None => g
  end.

Lemma recursion_start_wp args g (Q : in_use -> bool -> Prop) :
  Q (marked args g) true -> Q g false -> wpu (recursion_start args) g Q.
Proof. intros H1 H2. destruct args; [intros [] _; [exact H1 | exact H2] | exact H1]. Qed.

Lemma recursion_stop_wp args g (Q : in_use -> unit -> Prop) : Q g tt -> wpu (recursion_stop args) (marked args g) Q.
Proof.
  intros HQ. destruct args; [intros [] _|exact HQ]. cbn. rewrite Z.add_simpl_r. by destruct g.
Qed.

Lemma speak_handle_wp fuel h samples channels timer text args g :
  wpu (switch_ivr_speak_text_handle fuel h samples channels timer text args) g
    (fun g' r => r <> None -> g' = g).
Proof.
  unfold switch_ivr_speak_text_handle. apply wp_bind, wp_neutral; [by apply (idle_invoke use_upd use_quiet) | intros pa].
  case_decide; [done|]. apply wp_bind, wp_neutral; [by apply (idle_invoke use_upd use_quiet) | intros ready].
  destruct (negb ready); [done|]. apply wp_bind, recursion_start_wp; [cbn [negb] | done].
  apply wp_bind, wp_neutral; [by intros ? ? _ | intros star].
  apply wp_bind, wp_neutral; [by intros ? ? _ | intros pound].
  apply wp_bind, wp_neutral; [apply (idle_expand_text use_upd use_quiet) | intros [t|]].
  - apply wp_bind, wp_neutral; [by intros ? ? _ | intros _].
    apply wp_bind, wp_neutral; [by apply (idle_invoke use_upd use_quiet) | intros _].
    apply wp_bind, wp_neutral; [apply (idle_speak_loop use_upd use_quiet) | intros [st|]; [|by intros Hn; destruct Hn]].
    apply wp_bind, wp_neutral; [by apply (idle_invoke use_upd use_quiet) | intros _].
    apply wp_bind, recursion_stop_wp. done.
  - apply wp_bind, recursion_stop_wp. done.
Qed.

Lemma choose_local_wp tts voice g (Q : in_use -> speech_choice -> Prop) :
  (forall f, Q g (mkChoice Local f true None)) -> wpu (choose_handle tts voice) g Q.
Proof.
  intros HQ var Hv. cbn [mbind prog_bind bindp]. change (use_upd g _) with g.
  specialize (Hv eq_refl). destruct var as [v|]; [rewrite Hv|]; apply HQ.
Qed.

Lemma speak_fail_wp args status g : wpu (speak_fail args status) (marked args g) (fun g' r => r <> None -> g' = g).
Proof.
  unfold speak_fail. apply wp_bind, wp_neutral; [by apply (idle_invoke use_upd use_quiet) | intros _].
  apply wp_bind, wp_neutral; [apply idle_clear_cache | intros _]. apply wp_bind, recursion_stop_wp. done.
Qed.

Definition g0 : in_use := mkInUse 0 0 0 0 0.

(** The state between the opening of what a call uses and its closing. *)
Definition opened (args : option input_args) (codec timer : bool) : in_use :=
  marked args (mkInUse 1 (if codec then 1 else 0) (if timer then 1 else 0) 0 0).

Lemma speak_and_close_wp fuel c timer_name text args : ch_handle c = Local ->
  wpu (speak_and_close fuel c timer_name text args) (opened args true (bool_decide (timer_name <> None)))
    (fun g' r => r <> None -> g' = g0).
Proof.
  intros Hc. unfold speak_and_close, opened. rewrite Hc. apply wp_bind.
  apply wp_mono with (Q := fun g _ => g = marked args (mkInUse 1 1 (if bool_decide (timer_name <> None) then 1 else 0)
    (if bool_decide (timer_name <> None) then 1 else 0) 0)).
  - intros g _ ->. apply wp_bind. eapply wp_mono; [|apply speak_handle_wp]. intros g [st|] Hg; [|by intros Hn; destruct Hn].
    rewrite (Hg ltac:(done)). rewrite decide_True by done.
    destruct timer_name, args; cbn; intros; done.
  - destruct timer_name, args; cbn; intros; done.
Qed.

Lemma speak_codec_wp fuel rate interval channels c timer_name text args :
  ch_handle c = Local -> need_create c = true ->
  wpu (speak_codec fuel rate interval channels c timer_name text args) (opened args false false)
    (fun g' r => r <> None -> g' = g0).
Proof.
  intros Hc Hn. unfold speak_codec. rewrite Hn. rewrite Hc.
  intros st _. cbn [mbind prog_bind bindp use_upd]. case_decide as Hst.
  - rewrite decide_False by done. intros [] _. cbn [mbind prog_bind bindp].
    replace (use_upd _ _) with (marked args g0) by by destruct args. apply speak_fail_wp.
  - subst st. rewrite decide_True by done.
    destruct timer_name as [t|].
    + intros st _. cbn [mbind prog_bind bindp use_upd]. case_decide as Hst.
      * rewrite decide_False by done. intros [] _ [] _. cbn [mbind prog_bind bindp].
        replace (use_upd _ _) with (marked args g0) by by destruct args. apply speak_fail_wp.
      * subst st. rewrite decide_True by done.
        replace (mkInUse _ _ _ _ _) with (opened args true (bool_decide (Some t <> None))) by by destruct args.
        by apply speak_and_close_wp.
    + replace (mkInUse _ _ _ _ _) with (opened args true (bool_decide ((None : option string) <> None))) by by destruct args.
      by apply speak_and_close_wp.
Qed.

Lemma speak_text_wp fuel tts voice text args :
  wpu (switch_ivr_speak_text fuel tts voice text args) g0 (fun g r => r <> None -> g = g0).
Proof.
  unfold switch_ivr_speak_text. intros [[rate channels] us] _. cbn [mbind prog_bind bindp].
  change (use_upd g0 _) with g0. apply wp_bind, wp_neutral; [by apply (idle_invoke use_upd use_quiet) | intros pa].
  case_decide; [done|]. apply wp_bind, recursion_start_wp; [cbn [negb] | done].
  apply wp_bind, choose_local_wp. intros f. cbn [need_create ch_handle ch_format ch_voice].
  apply wp_bind, wp_neutral; [by intros ? ? _ | intros timer_name].
  apply wp_bind, wp_neutral; [by apply (idle_invoke use_upd use_quiet) | intros _]. cbn zeta.
  apply wp_bind. intros [st fmt] _. cbn [wp]. case_decide as Hst.
  - replace (use_upd _ _) with (marked args g0); [apply speak_fail_wp|].
    cbn. by rewrite decide_False.
  - subst st. replace (use_upd _ _) with (opened args false false) by by destruct args.
    apply wp_bind, wp_neutral; [by apply (idle_invoke use_upd use_quiet) | intros pa']. case_decide.
    + intros [] _. cbn [mbind prog_bind bindp].
      replace (use_upd _ _) with (marked args g0) by by destruct args. by apply wp_bind, recursion_stop_wp.
    + by apply speak_codec_wp.
Qed.

(** [C29] A call of [switch_ivr_speak_text] that caches nothing leaves nothing
    behind: on every path on which it returns, the speech handle, the codec and
    the timer it opened are closed exactly once, the thread that absorbs audio
    is ended, and the recursion marks are taken back. *)
Theorem speak_text_balanced fuel tts voice text args tr st :
  exec (switch_ivr_speak_text fuel tts voice text args) tr (Some st) -> legal_trace no_cache use_upd g0 tr ->
  ghost use_upd g0 tr = g0.
Proof.
  intros Hex Hl. by apply (wp_sound _ _ _ _ _ _ _ (speak_text_wp fuel tts voice text args) Hex Hl).
Qed.

(** ** A cached handle of another engine *)

(** Whether the cached handle is open, how many handles were opened, and how
    many texts were fed to an open and to a closed handle. *)
Record fed := mkFed { f_open : bool; f_opens : Z; f_live : Z; f_dead : Z }.

Definition fed_upd (g : fed) (e : event sresp) : fed :=
  match e with
  | Ev (s_speech_open _ _ _ _ _ _) _ => mkFed true (f_opens g + 1) (f_live g) (f_dead g)
  | Ev (s_speech_close _) _ => mkFed false (f_opens g) (f_live g) (f_dead g)
  | Ev (s_feed_tts _ _) _ =>
      if f_open g then mkFed true (f_opens g) (f_live g + 1) (f_dead g)
      else mkFed false (f_opens g) (f_live g) (f_dead g + 1)
  | _ => g
  end.

(** Caching is on, and an open handle of another engine is cached. *)
Definition engine_changed (tts : string) (_ : fed) (e : event sresp) : Prop :=
  match e with
  | Ev (s_get_variable n) v =>
      n = SWITCH_CACHE_SPEECH_HANDLES_VARIABLE -> exists x, v = Some x /\ s_true x = true
  | Ev s_get_private o => exists c, o = Some c /\ speech_interface c = true /\ strcaseeq (tts_name c) tts = false
  | _ => True
  end.

Definition nothing_open (g : fed) : Prop := f_open g = false /\ f_opens g = 0 /\ f_live g = 0.

Lemma fed_quiet c g r : quiet c = true -> fed_upd g (Ev c r) = g.
Proof. by destruct c. Qed.

Section Changed.
Context (tts : string).
Notation wpf := (wp (engine_changed tts) fed_upd).

Definition keeps {A} (m : SM A) : Prop := forall g, nothing_open g -> wpf m g (fun g' _ => nothing_open g').

Lemma keeps_ret {A} (a : A) : keeps (mret a).
Proof. by intros g. Qed.

Lemma keeps_neutral {A} (m : SM A) : neutral fed_upd m -> keeps m.
Proof. intros Hm g Hg. by apply wp_neutral. Qed.

Lemma keeps_bind {A B} (m : SM A) (f : A -> SM B) : keeps m -> (forall a, keeps (f a)) -> keeps (m ≫= f).
Proof. intros Hm Hf g Hg. apply wp_bind. eapply wp_mono, Hm; [|done]. intros g' a Hg'. by apply Hf. Qed.

Lemma keeps_invoke c : (forall h a b x y z, c <> s_speech_open h a b x y z) -> keeps (invoke c).
Proof.
  intros Hc g (H1 & H2 & H3) r _. destruct c; cbn; rewrite ?H1; try done; try (by split_and!).
  by destruct (Hc h tts0 voice rate interval channels).
Qed.

Ltac keeps_step :=
  first
    [ apply keeps_ret | apply keeps_bind; [|intros ?]
    | apply keeps_invoke; intros; discriminate
    | apply keeps_neutral; first [ apply (idle_speak_loop fed_upd fed_quiet) | apply (idle_expand_text fed_upd fed_quiet) ]
    | match goal with |- keeps (match ?x with _ => _ end) => destruct x end
    | progress cbn zeta ].
Ltac keeps_run := repeat keeps_step.

Lemma keeps_handle fuel h samples channels timer text args :
  keeps (switch_ivr_speak_text_handle fuel h samples channels timer text args).
Proof. unfold switch_ivr_speak_text_handle, recursion_start, recursion_stop. keeps_run. Qed.

Lemma keeps_fail args status : keeps (speak_fail args status).
Proof. unfold speak_fail, switch_ivr_clear_speech_cache, recursion_stop. keeps_run. Qed.

Lemma keeps_and_close fuel c timer_name text args : keeps (speak_and_close fuel c timer_name text args).
Proof. unfold speak_and_close, recursion_stop. cbn zeta. repeat first [apply keeps_handle | keeps_step]. Qed.

Lemma choose_changed voice d (Q : fed -> speech_choice -> Prop) :
  (forall g f v, nothing_open g -> Q g (mkChoice Cached f false v)) ->
  wpf (choose_handle tts voice) (mkFed true 0 0 d) Q.
Proof.
  intros HQ var Hv. destruct (Hv eq_refl) as (x & -> & Hx). cbn. rewrite Hx. cbn.
  intros o (c & -> & _ & Hc). rewrite Hc. cbn.
  intros o' (c' & -> & Hi & _). rewrite Hi. cbn.
  destruct (timer_interval c'); cbn; intros; by apply HQ.
Qed.

Lemma speak_text_changed fuel voice text args :
  wpf (switch_ivr_speak_text fuel tts voice text args) (mkFed true 0 0 0) (fun g _ => f_opens g = 0 /\ f_live g = 0).
Proof.
  unfold switch_ivr_speak_text. intros [[rate channels] us] _ pa _. cbn [mbind prog_bind bindp].
  case_decide; [done|]. apply wp_bind.
  apply wp_mono with (Q := fun g _ => g = mkFed true 0 0 0); [|by destruct args; [intros ok _|]].
  intros g ok ->. destruct (negb ok); [done|]. apply wp_bind, choose_changed. intros g f v Hg.
  cbn [need_create ch_handle ch_format ch_voice].
  eapply wp_mono with (Q := fun g _ => nothing_open g); [by intros g' _ (_ & H1 & H2)|]. revert g Hg.
  match goal with |- forall g, _ -> wp _ _ ?m _ _ => change (keeps m) end.
  unfold speak_codec, recursion_stop. cbn [need_create ch_handle].
  repeat first [apply keeps_fail | apply keeps_and_close | keeps_step].
Qed.

End Changed.

(** When caching is on and the cached handle belongs to another engine, the
    cached handle is closed, no handle is opened in its place, and the text is
    only ever fed to the closed handle. *)
Theorem changed_engine_feeds_closed fuel tts voice text args tr r :
  exec (switch_ivr_speak_text fuel tts voice text args) tr r ->
  legal_trace (engine_changed tts) fed_upd (mkFed true 0 0 0) tr ->
  f_opens (ghost fed_upd (mkFed true 0 0 0) tr) = 0 /\ f_live (ghost fed_upd (mkFed true 0 0 0) tr) = 0.
Proof. intros Hex Hl. exact (wp_sound _ _ _ _ _ _ _ (speak_text_changed tts fuel voice text args) Hex Hl). Qed.

End SpeakText.

(** ** Witnesses *)

#[local] Instance sample_speech : SpeechDefs := {
  S_READ_ACCEPTABLE s := bool_decide (s = SUCCESS \/ s = BREAK);
  s_true v := String.eqb v "true";
  SWITCH_CACHE_SPEECH_HANDLES_VARIABLE := "cache_speech_handles";
}.

(** A channel that speaks two packets; the cache holds [cached]. *)
Definition speech_answers (cached : option cached_speech_handle) (packets : nat) (c : scall) : sresp c * nat :=
  match c return sresp c * nat with
  | s_get_read_impl => ((8000, 1, 20000), packets)
  | s_pre_answer => (SUCCESS, packets)
  | s_recursion_start => (true, packets)
  | s_get_variable n =>
      (match cached with
       | Some _ => if String.eqb n "cache_speech_handles" then Some "true" else None
       | None => if String.eqb n "timer_name" then Some "soft" else None
       end, packets)
  | s_get_private => (cached, packets)
  | s_speech_open _ _ _ _ _ _ => ((SUCCESS, (160, 1)), packets)
  | s_codec_init _ _ _ _ => (SUCCESS, packets)
  | s_timer_init _ _ _ _ => (SUCCESS, packets)
  | s_codec_ready _ => (true, packets)
  | s_malloc _ => (true, packets)
  | s_channel_ready => (true, packets)
  | s_test_flag _ => (false, packets)
  | s_has_dtmf => (false, packets)
  | s_buf_is_break => (false, packets)
  | s_dequeue_dtmf => ("1"%char, packets)
  | s_dmachine_feed _ => (SUCCESS, packets)
  | s_input_callback_dtmf _ => (SUCCESS, packets)
  | s_dequeue_event => (false, packets)
  | s_input_callback_event => (SUCCESS, packets)
  | s_speech_paused _ => (false, packets)
  | s_timer_next _ => (SUCCESS, packets)
  | s_read_frame => (SUCCESS, packets)
  | s_dmachine_ping => (SUCCESS, packets)
  | s_read_frame_callback => (SUCCESS, packets)
  | s_read_tts _ ilen => match packets with O => ((BREAK, 0), O) | S n => ((SUCCESS, ilen), n) end
  | s_write_frame _ _ => (SUCCESS, packets)
  | _ => (tt, packets)
  end.

Definition speak_run (cached : option cached_speech_handle) : option switch_status_t * list (event sresp) :=
  let '(r, _, tr) := run (speech_answers cached) 2%nat
    (switch_ivr_speak_text 5 "flite" "kal" "press #" (Some (mkArgs true true false false))) in (r, tr).

Lemma speak_run_exec cached :
  exec (switch_ivr_speak_text 5 "flite" "kal" "press #" (Some (mkArgs true true false false)))
    (speak_run cached).2 (speak_run cached).1.
Proof.
  unfold speak_run. pose proof (run_exec (speech_answers cached)
    (switch_ivr_speak_text 5 "flite" "kal" "press #" (Some (mkArgs true true false false))) 2%nat) as E.
  by destruct (run (speech_answers cached) _ _) as [[r w] tr].
Qed.

Lemma speak_run_answers {S} (legal : S -> event sresp -> Prop) upd cached s :
  (forall s n c, legal s (Ev c (speech_answers cached n c).1)) -> legal_trace legal upd s (speak_run cached).2.
Proof.
  intros Hc. pose proof (run_answers legal upd (speech_answers cached)
    (switch_ivr_speak_text 5 "flite" "kal" "press #" (Some (mkArgs true true false false))) 2%nat s Hc) as E.
  unfold speak_run. by destruct (run (speech_answers cached) _ _) as [[r w] tr].
Qed.

Lemma spoken_text_witness :
  c_string (fill_text "star" "pound" "1*2#") = "1star2pound" /\
  strlen (fill_text "star" "pound" "1*2#") + 1 <= strlen "1*2#" + count_extra "star" "pound" "1*2#" + 1.
Proof.
  apply (spoken_text "star" "pound" "1*2#"); [vm_compute; congruence.. | | |]; repeat constructor; discriminate.
Defined.

Lemma long_replacement_truncates_witness :
  c_string (fill_text "asterisk" "pound" ("press " ++ String "*" " to go on")) = "press asteris".
Proof.
  apply (long_replacement_truncates "asterisk" "pound" "press " " to go on"); [reflexivity | | |];
    repeat constructor; discriminate.
Defined.

Lemma speak_text_balanced_witness :
  ghost use_upd g0 (speak_run None).2 = g0 /\ (speak_run None).1 = Some SUCCESS.
Proof.
  split; [|vm_compute; reflexivity].
  apply (speak_text_balanced 5 "flite" "kal" "press #" (Some (mkArgs true true false false)) _ SUCCESS).
  - exact (speak_run_exec None).
  - apply speak_run_answers. intros g n []; try exact I. by intros ->.
Defined.

Definition cepstral_cached : cached_speech_handle := mkCachedHandle "cepstral" "allison" true true 160 1.

Lemma changed_engine_feeds_closed_witness :
  (f_opens (ghost fed_upd (mkFed true 0 0 0) (speak_run (Some cepstral_cached)).2) = 0 /\
   f_live (ghost fed_upd (mkFed true 0 0 0) (speak_run (Some cepstral_cached)).2) = 0) /\
  f_dead (ghost fed_upd (mkFed true 0 0 0) (speak_run (Some cepstral_cached)).2) = 1.
Proof.
  split; [|vm_compute; reflexivity].
  apply (changed_engine_feeds_closed 5 "flite" "kal" "press #" (Some (mkArgs true true false false)) _
    (speak_run (Some cepstral_cached)).1).
  - exact (speak_run_exec (Some cepstral_cached)).
  - apply speak_run_answers. intros g n []; try exact I.
    + intros ->. by exists "true".
    + by exists cepstral_cached.
Defined.
