(* ===== verification/FileCalls.v ===== *)
(** * The core as seen by recording, tones and playback

    [switch_ivr_record_file_event], [switch_ivr_gentones] and
    [switch_ivr_play_file] of [src/switch_ivr_play_say.c] work on file handles,
    codecs, buffers and a timer of the FreeSWITCH core.  The calls of the
    signature [fcall] act on them by name.  The fields and flags of a file
    handle belong to the core too, and other threads change them (a recording
    is paused, a playback sped up, from the API): they are read and written by
    calls.  The parts of the loops the three functions share are here. *)

From Stdlib Require Import Ascii String.
From S2P Require Import Prelude Interaction SwitchCore SpeakText.

#[local] Open Scope list_scope.
#[local] Open Scope string_scope.
#[local] Open Scope Z_scope.

(** ** What the calls act on *)

(** [fh] (the caller's or the local [lfh]), [vfh] and [ind_fh]. *)
Inductive handle := FH | VFH | IND_FH.
(** [codec] and [write_codec]. *)
Inductive codec_id := CODEC | WRITE_CODEC.
(** [fh->audio_buffer], [fh->sp_audio_buffer] and the buffer of the tones. *)
Inductive buffer := AUDIO_BUFFER | SP_AUDIO_BUFFER | TONE_BUFFER.

Inductive file_flag :=
| SWITCH_FILE_FLAG_READ | SWITCH_FILE_FLAG_WRITE | SWITCH_FILE_DATA_SHORT | SWITCH_FILE_FLAG_VIDEO
| SWITCH_FILE_WRITE_APPEND | SWITCH_FILE_WRITE_OVER | SWITCH_FILE_NATIVE | SWITCH_FILE_PAUSE
| SWITCH_FILE_OPEN | SWITCH_FILE_SEEK | SWITCH_FILE_FLAG_VIDEO_EOF | SWITCH_FILE_BREAK_ON_CHANGE
| SWITCH_FILE_CALLBACK.

Inductive channel_flag :=
| CF_VIDEO | CF_VIDEO_DECODED_READ | CF_VIDEO_ECHO | CF_VIDEO_BLANK | CF_BREAK | CF_HOLD.

(** The fields of [switch_file_handle_t] that are used. *)
Inductive fh_field :=
| fh_channels | fh_cur_channels | fh_native_rate | fh_samplerate | fh_samples | fh_samples_in
| fh_samples_out | fh_pre_buffer_datalen | fh_prebuf | fh_thresh | fh_silence_hits | fh_speed
| fh_vol | fh_volgranular | fh_offset_pos | fh_vw | fh_vh | fh_fps.

#[export] Instance handle_eq : EqDecision handle.
Proof. solve_decision. Defined.
#[export] Instance codec_id_eq : EqDecision codec_id.
Proof. solve_decision. Defined.
#[export] Instance buffer_eq : EqDecision buffer.
Proof. solve_decision. Defined.
#[export] Instance file_flag_eq : EqDecision file_flag.
Proof. solve_decision. Defined.
#[export] Instance channel_flag_eq : EqDecision channel_flag.
Proof. solve_decision. Defined.
#[export] Instance fh_field_eq : EqDecision fh_field.
Proof. solve_decision. Defined.

(** [switch_codec_implementation_t], the fields used. *)
Record codec_implementation := mkImplementation {
  iananame : string;
  actual_samples_per_second : Z;
  samples_per_second : Z;
  samples_per_packet : Z;
  microseconds_per_packet : Z;
  number_of_channels : Z;
  encoded_bytes_per_packet : Z;
  decoded_bytes_per_packet : Z;
}.

(** A [switch_frame_t] that was read: [datalen], the 16-bit samples in the
    memory [data] points to, from the start of the frame to the end of the
    buffer, and [SFF_CNG]. *)
Record read_frame := mkReadFrame { rf_datalen : Z; rf_data : list Z; rf_cng : bool }.

(** The audio given to [switch_core_file_write]: that of the frame read, or
    bytes of [write_frame]. *)
Inductive audio := FromRead (f : read_frame) | FromBytes (data : list Z).

(** The variables of an event. *)
Notation headers := (list (string * string)).

(** ** The calls *)

Inductive fcall :=
| f_pre_answer
| f_media_ready
| f_channel_ready
| f_get_read_impl
| f_recursion_start
| f_recursion_stop
| f_get_variable (name : string)
| f_set_variable (name : string) (value : option var_value)
| f_test_flag (flag : channel_flag)
| f_set_flag (flag : channel_flag) (recursive : bool)
| f_clear_flag (flag : channel_flag) (recursive : bool)
| f_set_private (fh : bool)
| f_get_private
| f_io_read_lock
| f_io_write_lock
| f_io_rwunlock
| f_audio_sync
| f_hangup
| f_session_reset (flush_dtmf reset_read_codec : bool)
| f_epoch_time_now
| f_get (h : handle) (field : fh_field)
| f_set (h : handle) (field : fh_field) (v : Z)
| f_file_flag (h : handle) (flag : file_flag)
| f_set_file_flag (flag : file_flag)
| f_clear_file_flag (flag : file_flag)
| f_has_prefix
| f_set_prefix (prefix : string)
| f_param (name : string)
| f_file_open (h : handle) (path : string) (channels rate : Z) (flags : list file_flag)
| f_file_pre_close
| f_file_close (h : handle)
| f_handle_zero (h : handle)
| f_file_read (h : handle) (olen : Z)
| f_file_write (data : audio) (len : Z)
| f_file_seek (samples : Z) (whence : Z)
| f_file_flush_audio
| f_file_get_string (col : string)
| f_file_set_string (col value : string)
| f_has_video (h : handle) (check_open : bool)
| f_set_video_file (h : option handle) (write : bool)
| f_gen_key_frame
| f_request_video_refresh
| f_wait_for_video_input_params (ms : Z)
| f_get_vid_params
| f_lock_video_file
| f_unlock_video_file
| f_codec_init (c : codec_id) (rate ms channels : Z)
| f_codec_destroy (c : codec_id)
| f_codec_ready (c : codec_id)
| f_set_read_codec (c : codec_id)
| f_event_create (id : string)
| f_event_set_data
| f_event_add_header (name value : string)
| f_event_merge_params
| f_event_fire (id : string)
| f_execute_on_value (app : string)
| f_execute_on (var : string)
| f_api_on (var : string)
| f_expand_variables (s : string)
| f_api_execute (cmd : string) (arg : option string)
| f_parse_all_events
| f_parse_all_messages
| f_yield (us : Z)
| f_has_dtmf
| f_dequeue_dtmf
| f_dmachine_feed (digit : ascii)
| f_dmachine_ping
| f_dmachine_is_parsing
| f_input_callback_dtmf (digit : ascii)
| f_input_callback_event
| f_buf_store (digit : ascii)
| f_dequeue_event
| f_event_destroy
| f_read_frame (single : bool)
| f_read_frame_callback
| f_write_frame (data : list Z) (datalen samples : Z)
| f_generate_silence (samples channels divisor : Z)
| f_change_volume (granular : bool) (vol : Z) (data : list Z)
| f_phrase_macro (name : string) (arg lang : option string)
| f_speak_text (engine : string) (voice : option string) (text : string)
| f_sleep (ms : Z)
| f_separate_string (s : string) (delim : ascii) (arraylen : nat)
| f_alloc (len : Z)
| f_realloc (len : Z)
| f_free
| f_timer_init (name : string) (interval samples : Z)
| f_timer_sync
| f_timer_next
| f_timer_samplecount
| f_timer_destroy
| f_service_session
| f_thread_session_end
| f_buffer_exists (b : buffer)
| f_buffer_create (b : buffer)
| f_buffer_destroy (b : buffer)
| f_buffer_inuse (b : buffer)
| f_buffer_read (b : buffer) (len : Z)
| f_buffer_write (b : buffer) (data : list Z)
| f_buffer_zero (b : buffer)
| f_buffer_set_loops (b : buffer) (loops : Z)
| f_buffer_read_loop (b : buffer) (len : Z)
| f_teletone_init
| f_teletone_run (script : string)
| f_teletone_mux_tones
| f_teletone_destroy.

(** [f_codec_init] also gives the implementation the codec has then,
    [f_file_read] the value of [*len] afterwards and the bytes stored,
    [f_buffer_read] the bytes read, [f_realloc] the bytes of the new part,
    [f_teletone_run] how many tones it hands to the handler. *)
Definition fresp (c : fcall) : Type :=
  match c with
  | f_pre_answer | f_wait_for_video_input_params _ | f_file_open _ _ _ _ _ | f_file_write _ _ | f_dmachine_feed _
  | f_dmachine_ping | f_input_callback_dtmf _ | f_input_callback_event | f_read_frame_callback | f_write_frame _ _ _
  | f_phrase_macro _ _ _ | f_speak_text _ _ _ | f_sleep _ | f_timer_init _ _ _ | f_timer_next => switch_status_t
  | f_media_ready | f_channel_ready | f_recursion_start | f_get_private | f_file_flag _ _ | f_has_prefix
  | f_has_video _ _ | f_codec_ready _ | f_event_create _ | f_has_dtmf | f_dmachine_is_parsing | f_dequeue_event
  | f_buffer_exists _ => bool
  | f_get_read_impl => codec_implementation
  | f_get_variable _ | f_param _ => option string
  | f_test_flag _ | f_epoch_time_now | f_get _ _ | f_timer_samplecount | f_buffer_inuse _ => Z
  | f_file_read _ _ => switch_status_t * Z * list Z
  | f_file_get_string _ => switch_status_t * option string
  | f_get_vid_params => Z * Z * Z
  | f_codec_init _ _ _ _ => switch_status_t * codec_implementation
  | f_expand_variables _ => string
  | f_dequeue_dtmf => ascii
  | f_read_frame _ => switch_status_t * read_frame
  | f_generate_silence _ _ _ | f_change_volume _ _ _ | f_buffer_read _ _ | f_buffer_read_loop _ _
  | f_teletone_mux_tones | f_realloc _ => list Z
  | f_teletone_run _ => nat
  | f_separate_string _ _ _ => list string
  | _ => unit
  end%type.

Notation FM A := (prog fresp A).
Notation ftrace := (list (event fresp)).

(** Constants, directories and pure helpers of the core.
    [switch_find_end_paren] gives the offset of the parenthesis it finds. *)
Class FileDefs := {
  F_READ_ACCEPTABLE : switch_status_t -> bool;
  F_MORE_DATA : switch_status_t;
  f_true : option string -> bool;
  switch_is_valid_rate : Z -> bool;
  switch_is_file_path : string -> bool;
  switch_find_end_paren : string -> ascii -> ascii -> option nat;
  switch_event_get_header : headers -> string -> option string;
  SWITCH_PATH_SEPARATOR : string;
  SWITCH_URL_SEPARATOR : string;
  sounds_dir : string;
  base_dir : string;
  SWITCH_DEFAULT_FILE_BUFFER_LEN : Z;
}.

Section Shared.
Context `{FileDefs}.

(** ** Paths *)

(** The loop over the groups of parameters in braces before the name of a
    file: [tfile], [None] once it is set to NULL, and [file], which points into
    it; a group found is cut off [tfile]. *)
Fixpoint param_groups (fuel : nat) (tfile file : string) : option string * string :=
  match fuel with
  | O => (Some tfile, file)
  | S fuel' =>
      if bool_decide (String.get 0 file = Some "{"%char) then
        match switch_find_end_paren tfile "{" "}" with
        | Some e =>
            param_groups fuel' (substring 0 e tfile)
              (skip_char " " (substring (S e) (String.length tfile - S e) tfile))
        | None => (None, file)
        end
      else (Some tfile, file)
  end.

(** [if (!switch_is_file_path(file)) { ... }] *)
Definition prefixed_path (prefix file : string) : string :=
  if switch_is_file_path file then file
  else
    let '(tfile, file) :=
      if bool_decide (String.get 0 file = Some "{"%char) then param_groups (S (String.length file)) file file
      else (None, file) in
    (str_nil tfile ++ (if tfile then "}" else "") ++ prefix ++ SWITCH_PATH_SEPARATOR ++ file)%string.

(** ** Recording variables *)

(** [merge_recording_variables]: each name is cut to the 1023 characters that
    fit [buf]. *)
Definition recording_header (name : string) : string := substring 0 1023 ("Recording-Variable-" ++ name)%string.

Fixpoint merge_headers (vars : headers) : FM unit :=
  match vars with
  | [] => mret tt
  | (n, v) :: vars' => invoke (f_event_add_header (recording_header n) v) ;; merge_headers vars'
  end.
Definition merge_recording_variables (vars : option headers) : FM unit :=
  match vars with Some v => merge_headers v | None => mret tt end.

(** [get_recording_var]: [fh] is whether the handle is not NULL; [f_param]
    gives NULL when it has no [params]. *)
Definition get_recording_var (vars : option headers) (fh : bool) (name : string) : FM (option string) :=
  let val := match vars with Some v => switch_event_get_header v name | None => None end in
  val ← match val with
        | None => if fh then invoke (f_param name) else mret None
        | Some v => mret (Some v)
        end;
  match val with
  | Some v => mret (Some v)
  | None => invoke (f_get_variable name)
  end.

Definition recording_var_true (vars : option headers) (fh : bool) (name : string) : FM bool :=
  v ← get_recording_var vars fh name; mret (f_true v).

(** ** Inputs *)

(** [arg_recursion_check_start(args)] and [_stop] do nothing without arguments. *)
Definition check_start (args : option input_args) : FM bool :=
  match args with Some _ => invoke f_recursion_start | None => mret true end.
Definition check_stop (args : option input_args) : FM unit :=
  match args with Some _ => invoke f_recursion_stop | None => mret tt end.

(** A digit that was dequeued: the state machine, then the callback or the
    buffer.  Leaving is the [break] after a failure of the state machine. *)
Definition feed_digit (a : input_args) (digit : ascii) (status : switch_status_t)
  : FM (flow switch_status_t switch_status_t) :=
  st ⟵ (if args_dmachine a then
           st ← invoke (f_dmachine_feed digit);
           if decide (st <> SUCCESS) then leave st else next st
         else next status);
  if input_callback a then st ← invoke (f_input_callback_dtmf digit); next st
  else if args_buf a then invoke (f_buf_store digit) ;; next BREAK
  else next st.

(** [if (args->input_callback) { ... }]: an event of the session. *)
Definition input_event (a : input_args) (status : switch_status_t) : FM switch_status_t :=
  if input_callback a then
    ev ← invoke f_dequeue_event;
    if ev : bool then
      ostatus ← invoke f_input_callback_event;
      invoke f_event_destroy ;;
      mret (if decide (ostatus <> SUCCESS) then ostatus else status)
    else mret status
  else mret status.

(** Nobody takes digits. *)
Definition no_handler (a : input_args) : bool :=
  negb (input_callback a) && negb (args_buf a) && negb (args_dmachine a).

(** [switch_ivr_dmachine_ping] and [read_frame_callback] on a frame that was
    read; leaving is a [break] with their status. *)
Definition frame_callbacks (args : option input_args) (status : switch_status_t)
  : FM (flow switch_status_t switch_status_t) :=
  match args with
  | None => next status
  | Some a =>
      st ⟵ (if args_dmachine a then
               st ← invoke f_dmachine_ping;
               if decide (st <> SUCCESS) then leave st else next st
             else next status);
      if read_frame_callback a then
        st ← invoke f_read_frame_callback;
        if decide (st <> SUCCESS) then leave st else next st
      else next st
  end.

(** [if (event_create(...) == SUCCESS) { set_data; ...; fire }] *)
Definition with_event (id : string) (body : FM unit) : FM unit :=
  ok ← invoke (f_event_create id);
  if ok : bool then invoke f_event_set_data ;; body ;; invoke (f_event_fire id) else mret tt.

End Shared.

(** The result of a function from its flow. *)
Definition returned (m : FM (flow result result)) : FM result :=
  x ← m; match x with Next r | Leave r => mret r end.

(** ** For the examples: a benign core *)

(** The offset of the brace that closes the one at the start. *)
Fixpoint end_brace (depth : nat) (i : nat) (s : string) (open close : ascii) : option nat :=
  match s with
  | EmptyString => None
  | String c s' =>
      if decide (c = open) then end_brace (S depth) (S i) s' open close
      else if decide (c = close) then
        match depth with O | S O => Some i | S d => end_brace d (S i) s' open close end
      else end_brace depth (S i) s' open close
  end.

Definition sample_files : FileDefs := {|
  F_READ_ACCEPTABLE st := is_success st;
  F_MORE_DATA := SWITCH_STATUS_OTHER 17;
  f_true v := match v with Some s => String.eqb s "true" | None => false end;
  switch_is_valid_rate r := bool_decide (r = 8000 \/ r = 16000);
  switch_is_file_path s := bool_decide (String.get 0 s = Some "/"%char);
  switch_find_end_paren s o c := end_brace 0 0 s o c;
  switch_event_get_header hs n := snd <$> find (fun h => String.eqb h.1 n) hs;
  SWITCH_PATH_SEPARATOR := "/";
  SWITCH_URL_SEPARATOR := "://";
  sounds_dir := "/sounds";
  base_dir := "/usr/local/freeswitch";
  SWITCH_DEFAULT_FILE_BUFFER_LEN := 65536;
|}.

(** 20 ms of 16-bit samples at 8 kHz. *)
Definition sample_impl : codec_implementation := mkImplementation "PCMU" 8000 8000 160 20000 1 160 320.

(** Every call succeeds, nothing is set, nobody dials. *)
Definition benign (c : fcall) : fresp c :=
  match c with
  | f_pre_answer | f_wait_for_video_input_params _ | f_file_open _ _ _ _ _ | f_file_write _ _ | f_dmachine_feed _
  | f_dmachine_ping | f_input_callback_dtmf _ | f_input_callback_event | f_read_frame_callback | f_write_frame _ _ _
  | f_phrase_macro _ _ _ | f_speak_text _ _ _ | f_sleep _ | f_timer_init _ _ _ | f_timer_next => SUCCESS
  | f_media_ready | f_channel_ready | f_recursion_start | f_has_prefix | f_codec_ready _ | f_event_create _ => true
  | f_get_private | f_file_flag _ _ | f_has_video _ _ | f_has_dtmf | f_dmachine_is_parsing | f_dequeue_event
  | f_buffer_exists _ => false
  | f_get_read_impl => sample_impl
  | f_get_variable _ | f_param _ => None
  | f_get _ fh_channels => 1
  | f_get _ fh_samplerate | f_get _ fh_native_rate => 8000
  | f_test_flag _ | f_epoch_time_now | f_get _ _ | f_timer_samplecount | f_buffer_inuse _ => 0
  | f_file_read _ n => (SUCCESS, n, [])
  | f_file_get_string _ => (SWITCH_STATUS_FALSE, None)
  | f_get_vid_params => (0, 0, 0)
  | f_codec_init _ _ _ _ => (SUCCESS, sample_impl)
  | f_expand_variables s => s
  | f_dequeue_dtmf => "1"%char
  | f_read_frame _ => (SUCCESS, mkReadFrame 320 (replicate 160 100) false)
  | f_generate_silence _ _ _ | f_buffer_read _ _ | f_buffer_read_loop _ _ | f_teletone_mux_tones | f_realloc _ => []
  | f_change_volume _ _ d => d
  | f_teletone_run _ => O
  | f_separate_string s _ _ => [s]
  | _ => tt
  end.
