(* ===== verification/RecordFile.v ===== *)
(** * Recording: [switch_ivr_record_file_event] of [src/switch_ivr_play_say.c]

    The function opens the file, the indication file, the codecs and the video
    files, loops over the frames of the call until the channel, the caller, the
    limit or silence ends the recording, and closes what it opened. *)

From Stdlib Require Import Ascii String.
From S2P Require Import Prelude Interaction SwitchCore SpeakText FileCalls.

#[local] Open Scope string_scope.
#[local] Open Scope list_scope.
#[local] Open Scope Z_scope.

Section RecordFile.
Context `{FileDefs}.

(** The parameters of a call: [vars], whether [fh] was given, [args], [limit]. *)
Context (vars : option headers) (fh_given : bool) (args : option input_args) (limit : Z).

Notation var name := (get_recording_var vars true name).
Notation flag name := (recording_var_true vars true name).

(** What the set-up leaves to the loop and to the end. *)
Record recording := mkRecording {
  r_impl : codec_implementation;
  r_file : string;
  r_asis : bool;
  r_fill_cng : Z;
  r_waste_resources : Z;
  r_packet : Z;
  r_video_file : string;
  r_echo_on : bool;
  r_restart_limit : bool;
  r_org_silence_hits : Z;
}.

(** [fill_cng || waste_resources]: there is a [write_codec], and
    [write_frame.codec] and [write_frame.data] are set. *)
Definition raw_write (r : recording) : bool :=
  bool_decide (r_fill_cng r <> 0) || bool_decide (r_waste_resources r <> 0).

(** [divisor] *)
Definition divisor (impl : codec_implementation) : Z :=
  let d := actual_samples_per_second impl / 8000 in if decide (d = 0) then 1 else d.

(** ** Setting up *)

(** The path of the recording, and [asis]. *)
Definition record_path (impl : codec_implementation) (prefix file : string) : string * bool :=
  if strstr file SWITCH_URL_SEPARATOR then (file, false)
  else
    let file := prefixed_path prefix file in
    if strchr file "." then (file, false) else ((file ++ "." ++ iananame impl)%string, true).

(** "true" is 1400, a negative number 0. *)
Definition level_of (p : string) : Z :=
  if strcaseeq p "true" then 1400 else if decide (atoi p < 0) then 0 else atoi p.

(** The fields of [fh] set from the channel and from [record_sample_rate];
    gives [sample_start]. *)
Definition record_format (impl : codec_implementation) : FM Z :=
  invoke (f_set FH fh_channels (number_of_channels impl)) ;;
  invoke (f_set FH fh_native_rate (actual_samples_per_second impl)) ;;
  s ← invoke (f_get FH fh_samples);
  sample_start ← (if decide (0 < s) then invoke (f_set FH fh_samples 0) ;; mret (i32 s) else mret 0);
  p ← var "record_sample_rate";
  match p with
  | Some p => if switch_is_valid_rate (atoi p) then invoke (f_set FH fh_samplerate (atoi p)) else mret tt
  | None => mret tt
  end ;;
  mret sample_start.

(** [SWITCH_FILE_WRITE_APPEND], [SWITCH_FILE_WRITE_OVER]: by flag or variable. *)
Definition write_flag (f : file_flag) (name : string) : FM (list file_flag) :=
  set ← invoke (f_file_flag FH f);
  set ← (if set : bool then mret true else flag name);
  mret (if set : bool then [f] else []).

(** The inbound video, when the channel has some. *)
Definition record_video_flag : FM (list file_flag) :=
  video ← invoke (f_test_flag CF_VIDEO);
  if decide (video <> 0) then
    invoke (f_set_flag CF_VIDEO_DECODED_READ true) ;;
    invoke f_request_video_refresh ;;
    st ← invoke (f_wait_for_video_input_params 10000);
    if decide (st <> SUCCESS) then
      invoke (f_session_reset true true) ;; check_stop args ;; mret []
    else
      '(w, h, fps) ← invoke f_get_vid_params;
      invoke (f_set FH fh_vw w) ;; invoke (f_set FH fh_vh h) ;; invoke (f_set FH fh_fps fps) ;;
      mret [SWITCH_FILE_FLAG_VIDEO]
  else mret [].

Definition record_flags (prefix : string) : FM (list file_flag) :=
  vval ← var "enable_file_write_buffering";
  (if bool_decide (vval = None) || f_true vval
   then invoke (f_set FH fh_pre_buffer_datalen SWITCH_DEFAULT_FILE_BUFFER_LEN) else mret tt) ;;
  append ← write_flag SWITCH_FILE_WRITE_APPEND "RECORD_APPEND";
  over ← write_flag SWITCH_FILE_WRITE_OVER "RECORD_WRITE_OVER";
  set ← invoke f_has_prefix;
  (if set : bool then mret tt else invoke (f_set_prefix prefix)) ;;
  video ← record_video_flag;
  mret ([SWITCH_FILE_FLAG_WRITE; SWITCH_FILE_DATA_SHORT] ++ append ++ over ++ video).

(** [record_fill_cng] and [record_waste_resources]. *)
Definition record_level (name : string) (dflt : Z) : FM Z :=
  p ← var name; mret (match p with Some p => level_of p | None => dflt end).

(** [record_indication]: the value of [waste_resources]. *)
Definition record_indication (impl : codec_implementation) : FM unit :=
  p ← invoke (f_get_variable "record_indication");
  p ← match p with Some p => mret (Some p) | None => invoke (f_param "record_indication") end;
  match p with
  | Some p =>
      invoke (f_file_open IND_FH p (number_of_channels impl) (actual_samples_per_second impl)
                [SWITCH_FILE_FLAG_READ; SWITCH_FILE_DATA_SHORT]) ;; mret tt
  | None => mret tt
  end.

Definition raw_codec (c : codec_id) (impl : codec_implementation) : FM (switch_status_t * codec_implementation) :=
  invoke (f_codec_init c (actual_samples_per_second impl) (microseconds_per_packet impl / 1000)
            (number_of_channels impl)).

Definition vid_play_file_flags : list file_flag :=
  [SWITCH_FILE_FLAG_READ; SWITCH_FILE_DATA_SHORT; SWITCH_FILE_FLAG_VIDEO].

(** Opening the video that is played while recording. *)
Definition open_video (impl : codec_implementation) (file : string) : FM bool :=
  ch ← invoke (f_get FH fh_channels);
  st ← invoke (f_file_open VFH file ch (actual_samples_per_second impl) vid_play_file_flags);
  (if decide (st <> SUCCESS) then invoke (f_handle_zero VFH) else mret tt) ;;
  invoke (f_has_video VFH true).

Definition play_video (impl : codec_implementation) (file : string) : FM unit :=
  hv ← open_video impl file;
  if hv : bool then (invoke (f_set_video_file (Some VFH) true) ;; invoke f_gen_key_frame : FM unit)
  else invoke (f_file_close VFH) ;; invoke (f_handle_zero VFH).

(** The video files: [video_file] and [echo_on]. *)
Definition record_video_files (impl : codec_implementation) : FM (string * bool) :=
  hv ← invoke (f_has_video FH true);
  if hv : bool then
    invoke f_request_video_refresh ;;
    p ← var "record_play_video";
    match p with Some p => play_video impl p | None => mret tt end ;;
    playing ← invoke (f_file_flag VFH SWITCH_FILE_OPEN);
    (if playing : bool then mret tt
     else invoke (f_set_flag CF_VIDEO_DECODED_READ true) ;; invoke (f_set_flag CF_VIDEO_ECHO false)) ;;
    invoke (f_set_video_file (Some FH) false) ;;
    mret (default "" p, negb playing)
  else
    video ← invoke (f_test_flag CF_VIDEO);
    (if decide (video <> 0) then invoke (f_set_flag CF_VIDEO_BLANK false) else mret tt) ;;
    mret ("", false).

Definition record_seek (sample_start : Z) : FM unit :=
  if decide (0 < sample_start) then
    invoke (f_file_seek sample_start 0) ;; invoke (f_clear_file_flag SWITCH_FILE_SEEK) ;;
    invoke (f_set FH fh_samples 0)
  else mret tt.

(** The strings stored in the file, whose variables are unset. *)
Definition record_columns : list (string * string) :=
  [("record_title", "TITLE"); ("record_copyright", "COPYRIGHT"); ("record_software", "SOFTWARE");
   ("record_artist", "ARTIST"); ("record_comment", "COMMENT"); ("record_date", "DATE")].

Fixpoint set_columns (cols : list (string * string)) : FM unit :=
  match cols with
  | [] => mret tt
  | (name, col) :: cols' =>
      p ← var name;
      match p with
      | Some v => invoke (f_file_set_string col v) ;; invoke (f_set_variable name None)
      | None => mret tt
      end ;; set_columns cols'
  end.

(** Giving back the video. *)
Definition end_video (echo_on : bool) : FM unit :=
  hv ← invoke (f_has_video FH false);
  (if hv : bool then
     (if echo_on then
        invoke (f_clear_flag CF_VIDEO_ECHO false) ;; invoke (f_clear_flag CF_VIDEO_DECODED_READ true)
      else mret tt) ;;
     invoke (f_set_video_file None false) ;; invoke (f_set_video_file None true)
   else mret tt) ;;
  invoke (f_clear_flag CF_VIDEO_BLANK false).

(** The codec of the session, when the file is not native. *)
Definition record_codec (impl : codec_implementation) (echo_on : bool) : FM (flow unit result) :=
  '(st, _) ← raw_codec CODEC impl;
  if decide (st = SUCCESS) then invoke (f_set_read_codec CODEC) ;; next tt
  else
    end_video echo_on ;; invoke (f_file_close FH) ;; invoke (f_session_reset true true) ;;
    check_stop args ;; leave (Finished SWITCH_STATUS_GENERR).

(** [fh->silence_hits] in packets: [org_silence_hits].  A division by zero is
    undefined. *)
Definition record_hits (impl : codec_implementation) (asis : bool) : FM (option Z) :=
  thresh ← invoke (f_get FH fh_thresh);
  if bool_decide (thresh = 0) || asis then mret (Some 0)
  else
    hits ← invoke (f_get FH fh_silence_hits);
    rate ← invoke (f_get FH fh_samplerate);
    if decide (samples_per_packet impl = 0) then mret None
    else
      let n := u32 (rate * (if decide (hits <> 0) then hits else 3)) / samples_per_packet impl in
      invoke (f_set FH fh_silence_hits n) ;; mret (Some n).

(** The event at the start and at the end, with the scripts run then. *)
Definition record_event (id file app api : string) : FM unit :=
  with_event id (invoke (f_event_add_header "Record-File-Path" file) ;; merge_recording_variables vars) ;;
  match vars with
  | Some v => match switch_event_get_header v app with
              | Some a => invoke (f_execute_on_value a)
              | None => mret tt
              end
  | None => mret tt
  end ;;
  invoke (f_execute_on app) ;; invoke (f_api_on api).

(** ** The loop *)

(** [start], [status], and the bytes of [write_buf]. *)
Record record_state := mkState { st_start : Z; st_status : switch_status_t; st_write : list Z }.

(** How the loop ends: with a status, or with undefined behaviour. *)
Inductive stop := Ended (status : switch_status_t) | Faulted.

Notation step A := (FM (flow A stop)).

(** The [break] of a part that leaves with a status. *)
Definition breaking {A} (m : FM (flow A switch_status_t)) : step A :=
  x ← m; mret (match x with Next a => Next a | Leave st => Leave (Ended st) end).

(** [if (args) { ... }]: digits and events; also the new [start]. *)
Definition record_input (r : recording) (start : Z) (status : switch_status_t) : step (Z * switch_status_t) :=
  match args with
  | None => next (start, status)
  | Some a =>
      dtmf ← invoke f_has_dtmf;
      '(start, status) ⟵
        (if dtmf : bool then
           start ← (if decide (limit <> 0) then if r_restart_limit r then invoke f_epoch_time_now else mret start
                    else mret start);
           if no_handler a then leave (Ended BREAK)
           else
             digit ← invoke f_dequeue_dtmf;
             status ⟵ breaking (feed_digit a digit status);
             next (start, status)
         else next (start, status));
      status ← input_event a status;
      if decide (status <> SUCCESS) then leave (Ended status) else next (start, status)
  end.

(** The video that is played starts again at its end. *)
Definition record_video (r : recording) : FM unit :=
  playing ← invoke (f_file_flag VFH SWITCH_FILE_OPEN);
  if negb playing then (mret tt : FM unit)
  else
    invoke f_file_flush_audio ;;
    eof ← invoke (f_file_flag VFH SWITCH_FILE_FLAG_VIDEO_EOF);
    if negb eof then (mret tt : FM unit)
    else
      invoke f_lock_video_file ;; invoke (f_file_close VFH) ;; invoke (f_handle_zero VFH) ;;
      hv ← open_video (r_impl r) (r_video_file r);
      (if hv : bool then (invoke f_gen_key_frame : FM unit)
       else invoke (f_set_video_file None true) ;; invoke (f_file_close VFH) ;; invoke (f_handle_zero VFH)) ;;
      invoke f_unlock_video_file.

(** [for (count = 0; count < n; count++) energy += abs(fdata[j++]);], a sum of
    integers below [2^53], exact as a double; [None] is a read past the memory. *)
Fixpoint sum_abs (n : nat) (data : list Z) : option Z :=
  match n, data with
  | O, _ => Some 0
  | S n', d :: data' => (fun e => Z.abs d + e) <$> sum_abs n' data'
  | S _, [] => None
  end.

(** [(uint32_t) (energy / (samples / divisor))] *)
Definition record_score (impl : codec_implementation) (f : read_frame) : option Z :=
  let samples := rf_datalen f / 2 in
  energy ← sum_abs (Z.to_nat (u32 (samples * number_of_channels impl))) (rf_data f);
  let n := samples / divisor impl in
  if decide (n = 0) then None
  else if decide (energy / n < 2 ^ 32) then Some (energy / n) else None.

Definition record_silence (r : recording) (f : read_frame) (status : switch_status_t) : step unit :=
  if r_asis r then next tt
  else
    thresh ← invoke (f_get FH fh_thresh);
    if decide (thresh = 0) then next tt
    else
      match record_score (r_impl r) f with
      | None => leave Faulted
      | Some score =>
          thresh ← invoke (f_get FH fh_thresh);
          if decide (score < thresh) then
            hits ← invoke (f_get FH fh_silence_hits);
            invoke (f_set FH fh_silence_hits (u32 (hits - 1))) ;;
            if decide (u32 (hits - 1) = 0) then
              invoke (f_set_variable "silence_hits_exhausted" (Some (VString "true"))) ;; leave (Ended status)
            else next tt
          else invoke (f_set FH fh_silence_hits (r_org_silence_hits r)) ;; next tt
      end.

(** The packet for the call: a packet of the indication file, or silence.  The
    bytes of [write_buf], [datalen] and [samples].  Without a [write_codec] the
    pointer [write_frame.codec] is NULL. *)
Definition record_packet (r : recording) (data : list Z) : step (list Z * Z * Z) :=
  let datalen := decoded_bytes_per_packet (r_impl r) in
  let samples := datalen / 2 in
  let silence level :=
    d ← invoke (f_generate_silence samples (number_of_channels (r_impl r)) level); next (d, datalen, samples) in
  ind ← invoke (f_file_flag IND_FH SWITCH_FILE_OPEN);
  if ind : bool then
    if negb (raw_write r) then leave Faulted
    else
      '(st, olen, d) ← invoke (f_file_read IND_FH (r_packet r));
      if decide (st = SUCCESS) then
        ch ← invoke (f_get IND_FH fh_channels); next (d, u32 (olen * 2 * ch), u32 olen)
      else invoke (f_file_close IND_FH) ;; next (d, datalen, samples)
  else if decide (r_fill_cng r <> 0) then silence (r_fill_cng r)
  else if decide (r_waste_resources r <> 0) then silence (r_waste_resources r)
  else next (data, datalen, samples).

(** Writing [datalen / 2 / fh->channels] samples, or all bytes of a native frame. *)
Definition record_write_len (native : bool) (datalen : Z) : step Z :=
  if native then next datalen
  else
    ch ← invoke (f_get FH fh_channels);
    if decide (ch = 0) then leave Faulted else next (datalen / 2 / ch).

Definition record_write_audio (a : audio) (len : Z) (status : switch_status_t) : step unit :=
  st ← invoke (f_file_write a len);
  if decide (st <> SUCCESS) then leave (Ended status) else next tt.

Definition record_write (r : recording) (f : read_frame) (data : list Z) (datalen : Z) (status : switch_status_t)
  : step unit :=
  paused ← invoke (f_file_flag FH SWITCH_FILE_PAUSE);
  if negb paused && negb (rf_cng f) then
    len ⟵ record_write_len (r_asis r) (rf_datalen f);
    record_write_audio (FromRead f) len status
  else if rf_cng f && bool_decide (r_fill_cng r <> 0) then
    len ⟵ record_write_len false datalen;
    record_write_audio (FromBytes data) len status
  else next tt.

(** Writing the packet to the call. *)
Definition record_send (r : recording) (data : list Z) (datalen samples : Z) (status : switch_status_t) : step unit :=
  ind ← (if decide (r_waste_resources r <> 0) then mret true else invoke (f_file_flag IND_FH SWITCH_FILE_OPEN));
  if ind : bool then
    st ← invoke (f_write_frame data datalen samples);
    if decide (st <> SUCCESS) then leave (Ended status) else next tt
  else next tt.

(** What comes after a frame was read. *)
Definition record_frame (r : recording) (f : read_frame) (status : switch_status_t) (data : list Z)
  : step (switch_status_t * list Z) :=
  status ⟵ breaking (frame_callbacks args status);
  record_video r ;;
  _ ⟵ record_silence r f status;
  '(data, datalen, samples) ⟵ record_packet r data;
  _ ⟵ record_write r f data datalen status;
  _ ⟵ record_send r data datalen samples status;
  next (status, data).

Definition record_body (r : recording) (s : record_state) : step record_state :=
  ready ← invoke f_channel_ready;
  if negb ready then leave (Ended SWITCH_STATUS_FALSE)
  else
    brk ← invoke (f_test_flag CF_BREAK);
    if decide (brk <> 0) then invoke (f_clear_flag CF_BREAK false) ;; leave (Ended BREAK)
    else
      invoke f_parse_all_events ;;
      over ← (if decide (st_start s <> 0) then
                now ← invoke f_epoch_time_now; mret (bool_decide (limit < now - st_start s))
              else mret false);
      if over : bool then leave (Ended (st_status s))
      else
        '(start, status) ⟵ record_input r (st_start s) (st_status s);
        '(status, f) ← invoke (f_read_frame false);
        if negb (F_READ_ACCEPTABLE status) then leave (Ended status)
        else
          '(status, data) ⟵ record_frame r f status (st_write s);
          next (mkState start status data).

(** ** The end *)

(** A string of the closed file, in two variables. *)
Definition report_column (v : option string) (names : list string) : FM unit :=
  match v, names with
  | Some s, [a; b] => invoke (f_set_variable a (Some (VString s))) ;; invoke (f_set_variable b (Some (VString s)))
  | _, _ => mret tt
  end.

(** [record_post_process_exec_api]: a command, and after a colon its argument. *)
Definition record_post_process : FM unit :=
  p ← invoke (f_get_variable "record_post_process_exec_api");
  match p with
  | Some cmd =>
      match split_at ":" cmd with
      | Some (cmd, data) => expanded ← invoke (f_expand_variables data); invoke (f_api_execute cmd (Some expanded))
      | None => invoke (f_api_execute cmd None)
      end
  | None => mret tt
  end.

Definition record_rates : FM unit :=
  rate ← invoke (f_get FH fh_native_rate);
  if decide (1000 <= rate) then
    out ← invoke (f_get FH fh_samples_out);
    invoke (f_set_variable "record_seconds" (Some (VInt (i32 (out / rate))))) ;;
    invoke (f_set_variable "record_ms" (Some (VInt (i32 (out / (rate / 1000)))))) ;; mret tt
  else mret tt.

Definition record_length (impl : codec_implementation) : FM unit :=
  (if decide (actual_samples_per_second impl <> 0) then record_rates else mret tt) ;;
  out ← invoke (f_get FH fh_samples_out);
  (invoke (f_set_variable "record_samples" (Some (VInt (i32 out)))) : FM unit).

(** Closing the file and reporting on it. *)
Definition record_close (impl : codec_implementation) : FM unit :=
  invoke f_file_pre_close ;;
  '(_, size) ← invoke (f_file_get_string "FILE_SIZE");
  '(_, trimmed) ← invoke (f_file_get_string "FILE_TRIMMED");
  '(_, trimmed_ms) ← invoke (f_file_get_string "FILE_TRIMMED_MS");
  report_column trimmed_ms ["record_record_trimmed_ms"; "record_trimmed_ms"] ;;
  report_column size ["record_record_file_size"; "record_file_size"] ;;
  report_column trimmed ["record_record_trimmed"; "record_trimmed"] ;;
  invoke (f_file_close FH) ;;
  record_post_process ;;
  record_length impl.

Definition record_end (r : recording) : FM unit :=
  (if raw_write r then invoke (f_codec_destroy WRITE_CODEC) else mret tt) ;;
  end_video (r_echo_on r) ;;
  record_close (r_impl r) ;;
  record_event "RECORD_STOP" (r_file r) "execute_on_record_stop" "api_on_record_stop" ;;
  invoke (f_session_reset true true) ;;
  check_stop args.

(** ** The function *)

Definition record_loop (fuel : nat) (r : recording) (start : Z) : FM (option stop) :=
  iterp (record_body r) fuel (mkState start SUCCESS []).

(** From the event at the start on. *)
Definition record_run (fuel : nat) (r : recording) : FM result :=
  start ← (if decide (limit <> 0) then invoke f_epoch_time_now else mret 0);
  hits ← record_hits (r_impl r) (r_asis r);
  match hits with
  | None => mret Undefined
  | Some hits =>
      let r := mkRecording (r_impl r) (r_file r) (r_asis r) (r_fill_cng r) (r_waste_resources r) (r_packet r)
                 (r_video_file r) (r_echo_on r) (r_restart_limit r) hits in
      record_event "RECORD_START" (r_file r) "execute_on_record_start" "api_on_record_start" ;;
      x ← record_loop fuel r start;
      match x with
      | None => mret OutOfFuel
      | Some (Ended status) => record_end r ;; mret (Finished status)
      | Some Faulted => mret Undefined
      end
  end.

(** From the opening of the file on. *)
Definition record_open (fuel : nat) (impl : codec_implementation) (file : string) (asis : bool)
    (flags : list file_flag) (sample_start : Z) : FM (flow result result) :=
  ch ← invoke (f_get FH fh_channels);
  st ← invoke (f_file_open FH file ch (actual_samples_per_second impl) flags);
  if decide (st <> SUCCESS) then
    invoke f_hangup ;; invoke (f_session_reset true true) ;; check_stop args ;;
    leave (Finished SWITCH_STATUS_GENERR)
  else
    fill_cng ← record_level "record_fill_cng" 0;
    record_indication impl ;;
    waste ← record_level "record_waste_resources" 1400;
    let raw := bool_decide (fill_cng <> 0) || bool_decide (waste <> 0) in
    '(st, write_impl) ← (if raw then raw_codec WRITE_CODEC impl else mret (SUCCESS, impl));
    if decide (st <> SUCCESS) then check_stop args ;; leave (Finished SWITCH_STATUS_FALSE)
    else
      '(video_file, echo_on) ← record_video_files impl;
      record_seek sample_start ;;
      native ← invoke (f_file_flag FH SWITCH_FILE_NATIVE);
      let asis := asis || native in
      restart ← flag "record_restart_limit_on_dtmf";
      set_columns record_columns ;;
      invoke (f_set_variable "silence_hits_exhausted" (Some (VString "false"))) ;;
      _ ⟵ (if asis then next tt else record_codec impl echo_on);
      x ← record_run fuel (mkRecording impl file asis fill_cng waste (samples_per_packet write_impl)
                             video_file echo_on restart 0);
      next x.

Definition switch_ivr_record_file_event (fuel : nat) (file : option string) : FM result :=
  pa ← invoke f_pre_answer;
  if decide (pa <> SUCCESS) then mret (Finished SWITCH_STATUS_FALSE)
  else
    match file with
    | None => mret (Finished SWITCH_STATUS_FALSE)
    | Some file =>
        prefix ← get_recording_var vars fh_given "sound_prefix";
        let prefix := default sounds_dir prefix in
        media ← invoke f_media_ready;
        if negb media then mret (Finished SWITCH_STATUS_FALSE)
        else
          impl ← invoke f_get_read_impl;
          ok ← check_start args;
          if negb ok then mret (Finished SWITCH_STATUS_GENERR)
          else
            sample_start ← record_format impl;
            let '(file, asis) := record_path impl prefix file in
            if asis && bool_decide (encoded_bytes_per_packet impl = 0) then
              invoke (f_session_reset true true) ;; check_stop args ;; mret (Finished SWITCH_STATUS_GENERR)
            else
              flags ← record_flags prefix;
              returned (record_open fuel impl file asis flags sample_start)
    end.

(** ** What is opened and closed *)

(** The calls that open, close, mark, report or write nothing, and read
    neither the clock nor what silence is counted in: the set-up and the parts
    of the loop make few others. *)
Definition plain (c : fcall) : bool :=
  match c with
  | f_recursion_start | f_recursion_stop | f_file_open FH _ _ _ _ | f_file_close FH
  | f_wait_for_video_input_params _ | f_codec_init _ _ _ _ | f_codec_destroy _ | f_epoch_time_now
  | f_event_create _ | f_event_fire _ | f_event_add_header _ _ | f_file_write _ _ | f_read_frame _
  | f_file_flag _ SWITCH_FILE_PAUSE | f_get _ fh_thresh | f_get _ fh_silence_hits | f_set _ fh_silence_hits _
  | f_generate_silence _ _ _ | f_file_read _ _ | f_get IND_FH fh_channels | f_set_read_codec _
  | f_set_variable "silence_hits_exhausted" _ => false
  | f_get_variable name =>
      negb (String.eqb name "record_restart_limit_on_dtmf") && negb (String.eqb name "record_fill_cng")
  | f_param name => negb (String.eqb name "record_fill_cng")
  | _ => true
  end.

(** Those of them that do not touch the video of the channel. *)
Definition video_call (c : fcall) : bool :=
  match c with f_set_video_file _ _ | f_set_flag _ _ => true | f_clear_flag f _ => bool_decide (f <> CF_BREAK) | _ => false end.
Definition calm (c : fcall) : bool := plain c && negb (video_call c).

Lemma only_plain {A} (m : FM A) : only calm m -> only plain m.
Proof. apply only_mono. by intros c [Hc _]%andb_prop. Qed.
#[local] Hint Resolve only_plain | 6 : only.

Lemma calm_var name fh :
  calm (f_get_variable name) = true -> calm (f_param name) = true -> only calm (get_recording_var vars fh name).
Proof using Type.
  intros Hn Hp. unfold get_recording_var. apply only_bind; [|intros [v|]; [done | by apply only_invoke]].
  destruct (match vars with Some v => _ | None => _ end); [done|]. destruct fh; [by apply only_invoke | done].
Qed.

Lemma calm_flag name fh :
  calm (f_get_variable name) = true -> calm (f_param name) = true -> only calm (recording_var_true vars fh name).
Proof using Type. intros Hn Hp. apply only_bind; [by apply calm_var | done]. Qed.

#[local] Hint Extern 2 (only calm (get_recording_var _ _ _)) => apply calm_var; reflexivity : only.
#[local] Hint Extern 2 (only calm (recording_var_true _ _ _)) => apply calm_flag; reflexivity : only.

Lemma calm_format impl : only calm (record_format impl).
Proof using Type. unfold record_format. only_run. Qed.

Lemma calm_indication impl : only calm (record_indication impl).
Proof using Type. unfold record_indication. only_run. Qed.

Lemma calm_open_video impl file : only calm (open_video impl file).
Proof using Type. unfold open_video. only_run. Qed.
#[local] Hint Resolve calm_open_video : only.

Lemma plain_video_files impl : only plain (record_video_files impl).
Proof using Type. unfold record_video_files, play_video. only_run. Qed.

Lemma calm_seek sample_start : only calm (record_seek sample_start).
Proof using Type. unfold record_seek. only_run. Qed.

Lemma calm_columns : only calm (set_columns record_columns).
Proof using Type. cbn [set_columns record_columns]. only_run. Qed.

Lemma plain_end_video echo_on : only plain (end_video echo_on).
Proof using Type. unfold end_video. only_run. Qed.

Lemma plain_record_video r : only plain (record_video r).
Proof using Type. unfold record_video. only_run. Qed.

Lemma calm_frame_callbacks status : only calm (frame_callbacks args status).
Proof using Type. unfold frame_callbacks. only_run. Qed.

Lemma calm_feed_digit a digit status : only calm (feed_digit a digit status).
Proof using Type. unfold feed_digit. only_run. Qed.

Lemma calm_input_event a status : only calm (input_event a status).
Proof using Type. unfold input_event. only_run. Qed.

Lemma calm_write_len native datalen : only calm (record_write_len native datalen).
Proof using Type. unfold record_write_len. only_run. Qed.

Lemma calm_send r data datalen samples status : only calm (record_send r data datalen samples status).
Proof using Type. unfold record_send. only_run. Qed.

Lemma calm_post_process : only calm record_post_process.
Proof using Type. unfold record_post_process. only_run. Qed.

Lemma calm_length impl : only calm (record_length impl).
Proof using Type. unfold record_length, record_rates. only_run. Qed.

Lemma calm_report v names :
  Forall (fun n => calm (f_set_variable n None) = true) names -> only calm (report_column v names).
Proof using Type.
  intros Hn. unfold report_column. destruct v; [|done]. destruct names as [|a [|b []]]; try done.
  apply Forall_cons in Hn as [Ha Hn]. apply Forall_cons in Hn as [Hb _].
  split; [exact Ha | intros r]. by split.
Qed.

#[local] Hint Resolve calm_format calm_indication plain_video_files calm_seek calm_columns plain_end_video
  plain_record_video calm_frame_callbacks calm_feed_digit calm_input_event calm_write_len
  calm_send calm_post_process calm_length : only.

(** The open files [fh], the codecs [write_codec], the recursion marks, and
    which of three things failed: the wait for the video, [write_codec] and
    [codec]. *)
Record rec_use := mkUse {
  n_fh : Z; n_write : Z; n_mark : Z; no_video : bool; no_write : bool; no_codec : bool;
}.

Definition use_upd (g : rec_use) (e : event fresp) : rec_use :=
  let '(mkUse fh w m nv nw nc) := g in
  match e with
  | Ev (f_file_open FH _ _ _ _) st => mkUse (if decide (st = SUCCESS) then fh + 1 else fh) w m nv nw nc
  | Ev (f_file_close FH) _ => mkUse (fh - 1) w m nv nw nc
  | Ev (f_codec_init WRITE_CODEC _ _ _) r =>
      if decide (r.1 = SUCCESS) then mkUse fh (w + 1) m nv nw nc else mkUse fh w m nv true nc
  | Ev (f_codec_init CODEC _ _ _) r => if decide (r.1 = SUCCESS) then g else mkUse fh w m nv nw true
  | Ev (f_codec_destroy WRITE_CODEC) _ => mkUse fh (w - 1) m nv nw nc
  | Ev f_recursion_start ok => if ok : bool then mkUse fh w (m + 1) nv nw nc else g
  | Ev f_recursion_stop _ => mkUse fh w (m - 1) nv nw nc
  | Ev (f_wait_for_video_input_params _) st => if decide (st = SUCCESS) then g else mkUse fh w m true nw nc
  | _ => g
  end.

(** The calls that this account does not see. *)
Definition keeps (c : fcall) : bool :=
  match c with
  | f_recursion_start | f_recursion_stop | f_file_open FH _ _ _ _ | f_file_close FH
  | f_wait_for_video_input_params _ | f_codec_init _ _ _ _ | f_codec_destroy _ => false
  | _ => true
  end.

Lemma use_keeps c g r : keeps c = true -> use_upd g (Ev c r) = g.
Proof.
  intros Hc. destruct g, c; try discriminate Hc; try reflexivity; destruct h; first [reflexivity | discriminate Hc].
Qed.

Lemma plain_keeps c : plain c = true -> keeps c = true.
Proof. destruct c; try done; by destruct h. Qed.

Lemma only_keeps {A} (m : FM A) : only plain m -> only keeps m.
Proof. apply only_mono, plain_keeps. Qed.
#[local] Hint Resolve only_keeps | 5 : only.

Lemma keeps_merge v : only keeps (merge_recording_variables v).
Proof.
  destruct v as [v|]; [|done]. cbn. induction v as [|[n x] v IH]; [done|]. cbn [merge_headers]. only_run.
Qed.
#[local] Hint Resolve keeps_merge : only.

Lemma keeps_event id file app api : only keeps (record_event id file app api).
Proof. unfold record_event, with_event. only_run. Qed.

Lemma keeps_input r start status : only keeps (record_input r start status).
Proof. unfold record_input, breaking. only_run. Qed.

Lemma keeps_silence r f status : only keeps (record_silence r f status).
Proof. unfold record_silence. only_run. Qed.

Lemma keeps_packet r data : only keeps (record_packet r data).
Proof. unfold record_packet. only_run. Qed.

Lemma keeps_write r f data datalen status : only keeps (record_write r f data datalen status).
Proof. unfold record_write, record_write_audio. only_run. Qed.
#[local] Hint Resolve keeps_event keeps_input keeps_silence keeps_packet keeps_write : only.

Lemma keeps_frame r f status data : only keeps (record_frame r f status data).
Proof. unfold record_frame, breaking. only_run. Qed.
#[local] Hint Resolve keeps_frame : only.

Lemma keeps_loop fuel r start : only keeps (record_loop fuel r start).
Proof. apply only_iterp. intros s. unfold record_body. only_run. Qed.

Lemma keeps_hits impl asis : only keeps (record_hits impl asis).
Proof. unfold record_hits. only_run. Qed.

Notation wpu := (wp any_answer use_upd).

Lemma wp_keeps {A} (m : FM A) g (Q : rec_use -> A -> Prop) : only keeps m -> (forall a, Q g a) -> wpu m g Q.
Proof. apply wp_only. intros c s r. apply use_keeps. Qed.

(** The mark of a call with arguments. *)
Definition mark : Z := match args with Some _ => 1 | None => 0 end.

(** What a finished call leaves: the file is open and the write codec was never
    there exactly when that codec could not be initialised, the write codec
    stays when the other one could not, and the mark taken is given back, twice
    when there was no video. *)
Definition accounted (g : rec_use) : Prop :=
  n_fh g = (if no_write g then 1 else 0) /\
  (no_codec g = false -> n_write g = 0) /\
  n_mark g = (if no_video g then - mark else 0).

(** With the file and [w] write codecs open. *)
Definition in_progress (w : Z) (nv : bool) : rec_use :=
  mkUse 1 w (if nv then 0 else mark) nv false false.

Lemma stop_wp fh w m nv nw nc (Q : rec_use -> unit -> Prop) :
  Q (mkUse fh w (m - mark) nv nw nc) tt -> wpu (check_stop args) (mkUse fh w m nv nw nc) Q.
Proof. unfold check_stop, mark. destruct args; [by intros HQ [] _ | by rewrite Z.sub_0_r]. Qed.

Lemma wp_keeps_bind {A B} (m : FM A) (f : A -> FM B) g (Q : rec_use -> B -> Prop) :
  only keeps m -> (forall a, wpu (f a) g Q) -> wpu (m ≫= f) g Q.
Proof. intros Hm Hf. apply wp_bind, wp_keeps; [exact Hm | exact Hf]. Qed.

Ltac keeps_next := apply wp_keeps_bind; [only_run|].

Lemma marks_even (nv : bool) : (if nv then 0 else mark) - mark = (if nv then - mark else 0).
Proof. destruct nv; lia. Qed.

Lemma close_wp impl fh w m nv nw nc (Q : rec_use -> unit -> Prop) :
  Q (mkUse (fh - 1) w m nv nw nc) tt -> wpu (record_close impl) (mkUse fh w m nv nw nc) Q.
Proof.
  intros HQ. unfold record_close.
  keeps_next; intros _. do 3 (keeps_next; intros [? ?]).
  do 3 (apply wp_keeps_bind; [apply only_keeps, only_plain, calm_report; repeat constructor | intros _]).
  intros [] _. cbn [mbind prog_bind bindp use_upd].
  keeps_next. intros _. apply wp_keeps; [only_run | intros []; exact HQ].
Qed.

Lemma end_wp r nv :
  wpu (record_end r) (in_progress (if raw_write r then 1 else 0) nv) (fun g _ => accounted g).
Proof.
  unfold record_end. apply wp_bind.
  apply wp_mono with (Q := fun g _ => g = in_progress 0 nv).
  - intros g _ ->. unfold in_progress. keeps_next; intros _. apply wp_bind, close_wp.
    keeps_next; intros _. keeps_next; intros _. apply stop_wp.
    unfold accounted. cbn. rewrite marks_even. done.
  - destruct (raw_write r); [by intros [] _ | done].
Qed.

Lemma run_wp fuel r nv :
  wpu (record_run fuel r) (in_progress (if raw_write r then 1 else 0) nv)
    (fun g x => forall st, x = Finished st -> accounted g).
Proof.
  unfold record_run. apply wp_keeps_bind; [only_run | intros start].
  apply wp_keeps_bind; [apply keeps_hits | intros [hits|]; [|by intros st]].
  cbv zeta. keeps_next; intros _. apply wp_keeps_bind; [apply keeps_loop | intros [[st|]|]].
  - apply wp_bind. eapply wp_mono; [|match goal with |- wp _ _ (record_end ?x) _ _ => apply (end_wp x nv) end]. intros g [] Hg st' _. exact Hg.
  - by intros st.
  - by intros st.
Qed.

Lemma codec_wp impl echo_on w nv (Q : rec_use -> flow unit result -> Prop) :
  Q (in_progress w nv) (Next tt) ->
  (forall r, Q (mkUse 0 w (if nv then - mark else 0) nv false true) (Leave r)) ->
  wpu (record_codec impl echo_on) (in_progress w nv) Q.
Proof.
  intros H1 H2. unfold record_codec, raw_codec. apply wp_bind. intros [st ci] _. cbn [wp in_progress use_upd fst].
  destruct (decide (st = SUCCESS)) as [Hst|Hst].
  - by intros [] _.
  - apply wp_keeps_bind; [only_run | intros _]. intros [] _. cbn [mbind prog_bind bindp use_upd].
    keeps_next; intros _. apply wp_bind, stop_wp. rewrite marks_even. apply H2.
Qed.

Lemma video_flag_wp fh w (Q : rec_use -> list file_flag -> Prop) :
  (forall nv fs, Q (mkUse fh w (if nv : bool then 0 else mark) nv false false) fs) ->
  wpu record_video_flag (mkUse fh w mark false false false) Q.
Proof.
  intros HQ. unfold record_video_flag. keeps_next; intros video. case_decide; [|apply (HQ false)].
  do 2 (keeps_next; intros _). intros st _. cbn [mbind prog_bind bindp use_upd].
  destruct (decide (st = SUCCESS)) as [Hst|Hst].
  - rewrite decide_False by (by intros Hn). apply wp_keeps; [only_run | apply (HQ false)].
  - rewrite decide_True by done. keeps_next; intros _. apply wp_bind, stop_wp. rewrite Z.sub_diag. apply (HQ true).
Qed.

Lemma keeps_level name dflt : only keeps (record_level name dflt).
Proof. unfold record_level, get_recording_var. only_run. Qed.
#[local] Hint Resolve keeps_level : only.

(** Every call but a close of [fh] and the like. *)
Lemma keeps_flag name : only keeps (recording_var_true vars true name).
Proof. unfold recording_var_true, get_recording_var. only_run. Qed.
#[local] Hint Resolve keeps_flag : only.

Lemma open_wp fuel impl file asis flags sample_start (nv : bool) :
  wpu (returned (record_open fuel impl file asis flags sample_start)) (mkUse 0 0 (if nv then 0 else mark) nv false false)
    (fun g x => forall st, x = Finished st -> accounted g).
Proof.
  unfold returned, record_open. apply wp_bind. keeps_next; intros ch.
  intros st _. cbn [mbind prog_bind bindp use_upd]. destruct (decide (st = SUCCESS)) as [Hst|Hst].
  2: { rewrite decide_True by done. do 2 (keeps_next; intros _). apply wp_bind, stop_wp.
    rewrite marks_even. by intros st' _. }
  rewrite decide_False by (by intros Hn). change (0 + 1) with 1.
  keeps_next; intros fill. keeps_next; intros _. keeps_next; intros waste. cbv zeta.
  set (raw := bool_decide (fill <> 0) || bool_decide (waste <> 0)). apply wp_bind.
  apply wp_mono with (Q := fun g x => g = (if decide (x.1 = SUCCESS) then in_progress (if raw then 1 else 0) nv
                                           else mkUse 1 0 (if nv then 0 else mark) nv true false)).
  - intros g [st' wi]. cbn [fst]. destruct (decide (st' = SUCCESS)) as [Hs|Hs]; intros ->.
    2: { rewrite decide_True by done. apply wp_bind, stop_wp. rewrite marks_even. by intros st'' _. }
    rewrite decide_False by (by intros Hn).
    keeps_next; intros [video_file echo_on]. keeps_next; intros _. keeps_next; intros native.
    keeps_next; intros restart. keeps_next; intros _. keeps_next; intros _. apply wp_fbind.
    assert (forall r, raw_write r = raw ->
      wpu (x ← record_run fuel r; next x) (in_progress (if raw then 1 else 0) nv)
        (fun g (x : flow result result) =>
           wpu (match x with Next r | Leave r => mret r end) g (fun g x => forall st, x = Finished st -> accounted g))) as Hrun.
    { intros r Hr. apply wp_bind. rewrite <- Hr. eapply wp_mono; [|apply run_wp]. intros g x Hx. exact Hx. }
    destruct (asis || native); [apply Hrun; reflexivity|].
    apply codec_wp; [apply Hrun; reflexivity | by intros r' st'' _].
  - destruct raw; [|done]. intros [st' wi] _. cbn [wp use_upd fst].
    by destruct (decide (st' = SUCCESS)).
Qed.

(** ** The video of the channel *)

(** What the recording set and did not undo: the files installed for reading
    and for writing, and the flags; and whether it ever made the channel echo. *)
Record screen := mkScreen {
  v_read : bool; v_write : bool; v_echo : bool; v_blank : bool; v_decoded : bool; v_echoed : bool;
}.

Definition untouched : screen := mkScreen false false false false false false.

Definition flag_upd (f : channel_flag) (b : bool) (g : screen) : screen :=
  match f with
  | CF_VIDEO_ECHO => mkScreen (v_read g) (v_write g) b (v_blank g) (v_decoded g) (v_echoed g || b)
  | CF_VIDEO_BLANK => mkScreen (v_read g) (v_write g) (v_echo g) b (v_decoded g) (v_echoed g)
  | CF_VIDEO_DECODED_READ => mkScreen (v_read g) (v_write g) (v_echo g) (v_blank g) b (v_echoed g)
  | _ => g
  end.

Definition screen_upd (g : screen) (e : event fresp) : screen :=
  match e with
  | Ev (f_set_video_file h write) _ =>
      let b := bool_decide (h <> None) in
      if write : bool then mkScreen (v_read g) b (v_echo g) (v_blank g) (v_decoded g) (v_echoed g)
      else mkScreen b (v_write g) (v_echo g) (v_blank g) (v_decoded g) (v_echoed g)
  | Ev (f_set_flag f _) _ => flag_upd f true g
  | Ev (f_clear_flag f _) _ => flag_upd f false g
  | _ => g
  end.

(** The recording is a file with video throughout, or one without. *)
Definition has_video_is (hv : bool) (_ : screen) (e : event fresp) : Prop :=
  match e with Ev (f_has_video FH _) b => b = hv | _ => True end.

(** No file is installed, the channel neither echoes nor is blank, and it does
    not decode the video it reads when it was made to echo. *)
Definition screen_left (g : screen) : Prop :=
  v_read g = false /\ v_write g = false /\ v_echo g = false /\ v_blank g = false /\
  (v_echoed g = true -> v_decoded g = false).

Definition unseen (c : fcall) : bool := negb (video_call c).

Lemma screen_unseen c g r : unseen c = true -> screen_upd g (Ev c r) = g.
Proof.
  destruct c; try done. intros Hf. match goal with x : channel_flag |- _ => by destruct x end.
Qed.

Lemma only_unseen {A} (m : FM A) : only calm m -> only unseen m.
Proof. apply only_mono. by intros c [_ Hc]%andb_prop. Qed.
#[local] Hint Resolve only_unseen | 5 : only.

Lemma unseen_merge v : only unseen (merge_recording_variables v).
Proof.
  destruct v as [v|]; [|done]. cbn. induction v as [|[n x] v IH]; [done|]. cbn [merge_headers]. only_run.
Qed.
#[local] Hint Resolve unseen_merge : only.

Lemma unseen_event id file app api : only unseen (record_event id file app api).
Proof. unfold record_event, with_event. only_run. Qed.
Lemma unseen_input r start status : only unseen (record_input r start status).
Proof. unfold record_input, breaking. only_run. Qed.
Lemma unseen_silence r f status : only unseen (record_silence r f status).
Proof. unfold record_silence. only_run. Qed.
Lemma unseen_packet r data : only unseen (record_packet r data).
Proof. unfold record_packet. only_run. Qed.
Lemma unseen_write r f data datalen status : only unseen (record_write r f data datalen status).
Proof. unfold record_write, record_write_audio. only_run. Qed.
Lemma unseen_hits impl asis : only unseen (record_hits impl asis).
Proof. unfold record_hits. only_run. Qed.
Lemma unseen_stop : only unseen (check_stop args).
Proof. unfold check_stop. only_run. Qed.
Lemma unseen_level name dflt : only unseen (record_level name dflt).
Proof. unfold record_level, get_recording_var. only_run. Qed.
Lemma unseen_flag name : only unseen (recording_var_true vars true name).
Proof. unfold recording_var_true, get_recording_var. only_run. Qed.
#[local] Hint Resolve unseen_event unseen_input unseen_silence unseen_packet unseen_write unseen_hits unseen_stop
  unseen_level unseen_flag : only.
Lemma unseen_write_flag f name : only unseen (write_flag f name).
Proof. unfold write_flag. only_run. Qed.
Lemma unseen_close impl : only unseen (record_close impl).
Proof. unfold record_close, report_column. only_run. Qed.
#[local] Hint Resolve unseen_write_flag unseen_close : only.

Section Video.
Context (hv : bool).
Notation wpv := (wp (has_video_is hv) screen_upd).

Lemma wp_unseen_bind {A B} (m : FM A) (f : A -> FM B) g (Q : screen -> B -> Prop) :
  only unseen m -> (forall a, wpv (f a) g Q) -> wpv (m ≫= f) g Q.
Proof. intros Hm Hf. apply wp_bind, (wp_only unseen); [apply screen_unseen | exact Hm | exact Hf]. Qed.

Ltac unseen_next := apply wp_unseen_bind; [only_run|].

(** While recording: without video nothing is installed and the channel does
    not echo; it echoes only when [echo_on]. *)
Definition on_screen (echo_on : bool) (g : screen) : Prop :=
  (hv = false -> v_read g = false /\ v_write g = false /\ echo_on = false) /\
  (echo_on = false -> v_echo g = false /\ v_echoed g = false).

(** Before the video files are opened. *)
Definition off_screen (g : screen) : Prop := exists b, g = mkScreen false false false false b false.

Lemma off_screen_left g : off_screen g -> screen_left g.
Proof. by intros [b ->]. Qed.

Lemma end_video_screen echo_on g : on_screen echo_on g -> wpv (end_video echo_on) g (fun g' _ => screen_left g').
Proof.
  destruct g as [r w e b d ed]. intros [Hhv He]. cbn in Hhv, He. unfold end_video.
  intros hv' Hl. cbn in Hl. subst hv'. destruct hv; cbn.
  - destruct echo_on; cbn; [repeat intros ?; unfold screen_left; cbn; by destruct ed|].
    destruct He as [-> ->]; [done|]. repeat intros ?. by unfold screen_left.
  - destruct Hhv as (-> & -> & ->); [done|]. destruct He as [-> ->]; [done|]. repeat intros ?. by unfold screen_left.
Qed.

Lemma record_video_screen r echo_on g :
  on_screen echo_on g -> wpv (record_video r) g (fun g' _ => on_screen echo_on g').
Proof.
  intros Hg. unfold record_video. unseen_next; intros playing. destruct playing; cbn [negb]; [|exact Hg].
  unseen_next; intros _. unseen_next; intros eof. destruct eof; cbn [negb]; [|exact Hg].
  do 3 (unseen_next; intros _). unseen_next; intros has.
  apply wp_bind. apply wp_mono with (Q := fun g' _ => on_screen echo_on g').
  - intros g' [] Hg' [] _. exact Hg'.
  - destruct has; [by intros [] _|]. repeat intros [] _. destruct Hg as [Hh He]. split; [|exact He].
    intros Hn. cbn. by destruct (Hh Hn) as (? & _ & ?).
Qed.

Lemma body_screen r s echo_on g : on_screen echo_on g ->
  wpv (record_body r s) g (fun g' _ => on_screen echo_on g').
Proof.
  intros Hg. unfold record_body. unseen_next; intros ready. destruct (negb ready); [exact Hg|].
  unseen_next; intros brk. case_decide; [unseen_next; intros _; exact Hg|].
  unseen_next; intros _. unseen_next; intros over. destruct over; [exact Hg|].
  apply wp_fbind, (wp_only unseen); [apply screen_unseen | only_run | intros [[start st]|x]; [|exact Hg]].
  unseen_next; intros [st' f]. destruct (negb _); [exact Hg|].
  apply wp_fbind. apply wp_mono with (Q := fun g' _ => on_screen echo_on g').
  { by intros g' [[? ?]|?]. }
  unfold record_frame, breaking.
  apply wp_fbind, (wp_only unseen); [apply screen_unseen | only_run | intros [st''|x]; [|exact Hg]].
  apply wp_bind. eapply wp_mono; [|by apply record_video_screen]. intros g' [] Hg'.
  apply (wp_only unseen); [apply screen_unseen | only_run | by intros [[? ?]|x]].
Qed.

Definition finished_left (g : screen) (x : result) : Prop := forall st, x = Finished st -> screen_left g.

Lemma run_screen fuel r g : on_screen (r_echo_on r) g -> wpv (record_run fuel r) g finished_left.
Proof.
  intros Hg. unfold record_run. unseen_next; intros start. unseen_next; intros [hits|]; [cbv zeta | done].
  unseen_next; intros _. apply wp_bind. set (r' := mkRecording _ _ _ _ _ _ _ _ _ hits).
  apply wp_mono with (Q := fun g _ => on_screen (r_echo_on r) g).
  - intros g' [[st|]|] Hg'; [|done..]. apply wp_bind. unfold record_end. unseen_next; intros _.
    apply wp_bind. eapply wp_mono; [|by apply end_video_screen]. intros g2 [] H2.
    apply (wp_only unseen); [apply screen_unseen | only_run | by intros [] st' _].
  - unfold record_loop. eapply wp_mono; [|apply (wp_iterp _ _ _ (fun g _ => on_screen (r_echo_on r) g)
      (fun g _ => on_screen (r_echo_on r) g)); [|exact Hg]].
    + intros g' [x|]; [done | by intros [s Hs]].
    + intros g' s Hs. eapply wp_mono; [|by apply body_screen]. by intros g2 [s'|x].
Qed.

Lemma video_files_screen impl g : off_screen g ->
  wpv (record_video_files impl) g (fun g' x => on_screen x.2 g').
Proof.
  intros [d ->]. unfold record_video_files. intros hv' Hl. cbn in Hl.
  cbn [mbind prog_bind bindp screen_upd]. destruct hv'.
  - unseen_next; intros _. unseen_next; intros p. apply wp_bind.
    apply wp_mono with (Q := fun g' _ => v_echo g' = false /\ v_echoed g' = false).
    + intros g' [] [He Hd]. unseen_next; intros playing. assert (hv = false -> False) by congruence.
      destruct playing; repeat intros [] _; by split; [intros|].
    + destruct p as [p|]; [|done]. unfold play_video. unseen_next; intros has.
      destruct has; [repeat intros [] _; done|]. apply (wp_only unseen); [apply screen_unseen | only_run | done].
  - unseen_next; intros video. case_decide; [intros [] _|]; by repeat split.
Qed.

Lemma open_screen fuel impl file asis flags sample_start g : off_screen g ->
  wpv (returned (record_open fuel impl file asis flags sample_start)) g finished_left.
Proof.
  intros Hg. pose proof (off_screen_left g Hg) as H0.
  unfold returned, record_open. apply wp_bind. unseen_next; intros ch. unseen_next; intros st.
  case_decide; [apply (wp_only unseen); [apply screen_unseen | only_run | by intros [x|x] st' _]|].
  unseen_next; intros fill. unseen_next; intros _. unseen_next; intros waste. cbv zeta.
  unseen_next; intros [st' wi].
  case_decide; [apply (wp_only unseen); [apply screen_unseen | only_run | by intros [x|x] st'' _]|].
  apply wp_bind. eapply wp_mono; [|by apply video_files_screen]. clear g Hg H0. intros g [video_file echo_on] Hg.
  unseen_next; intros _. unseen_next; intros native. unseen_next; intros restart. do 2 (unseen_next; intros _).
  apply wp_fbind.
  apply wp_mono with (Q := fun g x => match x with Next _ => on_screen echo_on g | Leave _ => screen_left g end).
  - intros g' [[]|x] Hg'; [|by intros st'' _]. apply wp_bind.
    eapply wp_mono; [|by apply run_screen]. intros g2 x Hx. exact Hx.
  - destruct (asis || native); [exact Hg|]. unfold record_codec. unseen_next; intros [st'' ci].
    case_decide; [by intros [] _|]. apply wp_bind. eapply wp_mono; [|by apply end_video_screen]. intros g' [] Hg'.
    do 3 (unseen_next; intros _). exact Hg'.
Qed.

Lemma record_screen fuel file : wpv (switch_ivr_record_file_event fuel file) untouched finished_left.
Proof.
  assert (H0 : screen_left untouched) by by repeat split.
  unfold switch_ivr_record_file_event. unseen_next; intros pa. case_decide; [done|].
  destruct file as [file|]; [|done]. apply wp_unseen_bind; [unfold get_recording_var; only_run | intros prefix].
  unseen_next; intros media. destruct media; [cbn [negb] | done]. unseen_next; intros impl.
  apply wp_unseen_bind; [unfold check_start; only_run | intros ok]. destruct ok; [cbn [negb] | done].
  unseen_next; intros sample_start. destruct (record_path impl (default sounds_dir prefix) file) as [path asis].
  destruct (asis && _); [by do 2 (unseen_next; intros _)|].
  apply wp_bind. apply wp_mono with (Q := fun g _ => off_screen g); [intros g fs Hg; by apply open_screen|].
  unfold record_flags. apply wp_unseen_bind; [unfold get_recording_var; only_run | intros vval].
  unseen_next; intros _. do 3 (unseen_next; intros ?). unseen_next; intros _. apply wp_bind.
  apply wp_mono with (Q := fun g _ => off_screen g); [by intros g fs Hg|].
  unfold record_video_flag. unseen_next; intros video. case_decide; [|by exists false].
  intros [] _. cbn [mbind prog_bind bindp].
  apply (wp_only unseen); [apply screen_unseen | only_run | intros fs; by exists true].
Qed.
End Video.

Lemma record_accounted fuel file tr st :
  exec (switch_ivr_record_file_event fuel file) tr (Finished st) ->
  accounted (ghost use_upd (mkUse 0 0 0 false false false) tr).
Proof.
  intros Hex. refine (wp_any use_upd _ _ (fun g x => forall st, x = Finished st -> accounted g) _ _ _ Hex _ eq_refl).
  assert (H0 : accounted (mkUse 0 0 0 false false false)) by done.
  clear - H0. unfold switch_ivr_record_file_event. keeps_next; intros pa. case_decide; [done|].
  destruct file as [file|]; [|done]. keeps_next; intros prefix. keeps_next; intros media.
  destruct media; [cbn [negb] | done]. keeps_next; intros impl. apply wp_bind.
  apply wp_mono with (Q := fun g ok => g = mkUse 0 0 (if ok : bool then mark else 0) false false false).
  2: { unfold check_start, mark. destruct args; [by intros [] _ | done]. }
  intros g ok ->. destruct ok; cbn [negb]; [|done].
  keeps_next; intros sample_start. destruct (record_path impl (default sounds_dir prefix) file) as [path asis].
  destruct (asis && _).
  { keeps_next; intros _. apply wp_bind, stop_wp. rewrite Z.sub_diag. done. }
  unfold record_flags. apply wp_bind. keeps_next; intros vval. keeps_next; intros _.
  unfold write_flag. keeps_next; intros append. keeps_next; intros over. keeps_next; intros set. keeps_next; intros _.
  apply wp_bind, video_flag_wp. intros nv fs. apply open_wp.
Qed.

(** [C19] Every return of a recording accounts for what it opened: the mark of the
    arguments is given back, and the file and the codec of the packets are
    closed exactly once, except that the file stays open when that codec could
    not be initialised, that codec stays when the one of the session could not,
    and the mark is given back twice when the inbound video did not come.  And of
    the video, when the recording has one or has none throughout: no file stays
    installed for reading or writing, the channel does not echo and is not
    blank, and it does not go on decoding the video it reads when it was made to
    echo (it does when a video file was played: [video_file_leaves_decoding]). *)
Theorem record_accounts fuel file tr st :
  exec (switch_ivr_record_file_event fuel file) tr (Finished st) ->
  accounted (ghost use_upd (mkUse 0 0 0 false false false) tr) /\
  (forall has_video, legal_trace (has_video_is has_video) screen_upd untouched tr ->
     screen_left (ghost screen_upd untouched tr)).
Proof.
  intros Hex. split; [by eapply record_accounted|]. intros hv Hl.
  exact (wp_sound _ _ _ _ _ _ _ (record_screen hv fuel file) Hex Hl st eq_refl).
Qed.

(** ** The events of a recording *)

(** The events fired, the paths reported, and whether audio was written to
    the file other than between the two events. *)
Record rec_log := mkLog { fired : list string; paths : list string; stray : bool }.

Definition log_upd (g : rec_log) (e : event fresp) : rec_log :=
  match e with
  | Ev (f_event_fire id) _ => mkLog (fired g ++ [id]) (paths g) (stray g)
  | Ev (f_event_add_header n v) _ =>
      if String.eqb n "Record-File-Path" then mkLog (fired g) (paths g ++ [v]) (stray g) else g
  | Ev (f_file_write _ _) _ =>
      mkLog (fired g) (paths g) (stray g || negb (bool_decide (fired g = ["RECORD_START"])))
  | _ => g
  end.

(** Events can be created. *)
Definition creates (_ : rec_log) (e : event fresp) : Prop :=
  match e with Ev (f_event_create _) ok => ok = true | _ => True end.

Definition reported (g : rec_log) : Prop :=
  stray g = false /\
  ((fired g = [] /\ paths g = []) \/
   (fired g = ["RECORD_START"; "RECORD_STOP"] /\ exists p, paths g = [p; p])).

Notation wpl := (wp creates log_upd).

(** The calls that report nothing, and those that write nothing either. *)
Definition unreported (c : fcall) : bool :=
  match c with f_event_fire _ | f_event_add_header _ _ => false | _ => true end.
Definition unwritten (c : fcall) : bool :=
  match c with f_event_fire _ | f_event_add_header _ _ | f_file_write _ _ => false | _ => true end.

Lemma only_unwritten {A} (m : FM A) : only plain m -> only unwritten m.
Proof. apply only_mono. by intros []. Qed.
Lemma only_unreported {A} (m : FM A) : only plain m -> only unreported m.
Proof. apply only_mono. by intros []. Qed.
#[local] Hint Resolve only_unwritten only_unreported | 5 : only.

Lemma unreported_body r s : only unreported (record_body r s).
Proof.
  unfold record_body, record_input, record_frame, record_silence, record_packet, record_write, record_write_audio,
    breaking. only_run.
Qed.

Lemma wp_quiet_bind {A B} (m : FM A) (f : A -> FM B) g (Q : rec_log -> B -> Prop) :
  only unwritten m -> (forall a, wpl (f a) g Q) -> wpl (m ≫= f) g Q.
Proof.
  intros Hm Hf. apply wp_bind, (wp_only unwritten); [|exact Hm | exact Hf].
  intros c s r. by destruct c.
Qed.

Lemma merge_log v g : wpl (merge_recording_variables v) g (fun g' _ => g' = g).
Proof.
  destruct v as [v|]; [|done]. cbn [merge_recording_variables].
  induction v as [|[n x] v IH]; [done|]. cbn [merge_headers]. intros [] _. exact IH.
Qed.

Lemma event_log id file app api g (Q : rec_log -> unit -> Prop) :
  Q (mkLog (fired g ++ [id]) (paths g ++ [file]) (stray g)) tt ->
  wpl (record_event id file app api) g Q.
Proof.
  intros HQ. unfold record_event. apply wp_bind. unfold with_event.
  intros ok Hok. cbn in Hok. subst ok. cbn [mbind prog_bind bindp].
  intros [] _. cbn [bindp]. apply wp_bind, wp_bind. intros [] _. cbn [wp bindp].
  eapply wp_mono, merge_log.
  intros g' [] ->. intros [] _. cbn [wp].
  apply wp_quiet_bind; [only_run | intros _]. apply wp_quiet_bind; [only_run | intros _].
  intros [] _. exact HQ.
Qed.

Ltac quiet_next := apply wp_quiet_bind; [only_run|].

Lemma unwritten_stop : only unwritten (check_stop args).
Proof. unfold check_stop. only_run. Qed.
Lemma unwritten_codec c impl : only unwritten (raw_codec c impl).
Proof. by apply only_invoke. Qed.
Lemma unwritten_video : only unwritten record_video_flag.
Proof. unfold record_video_flag, check_stop. only_run. Qed.
Lemma unwritten_hits impl asis : only unwritten (record_hits impl asis).
Proof. unfold record_hits. only_run. Qed.
Lemma unwritten_flag name : only unwritten (recording_var_true vars true name).
Proof. unfold recording_var_true, get_recording_var. only_run. Qed.
Lemma unwritten_level name dflt : only unwritten (record_level name dflt).
Proof. unfold record_level, get_recording_var. only_run. Qed.
#[local] Hint Resolve unwritten_stop unwritten_codec unwritten_video unwritten_hits unwritten_flag unwritten_level : only.

Lemma unwritten_close impl : only unwritten (record_close impl).
Proof. unfold record_close, report_column. only_run. Qed.
Lemma unwritten_write_flag f name : only unwritten (write_flag f name).
Proof. unfold write_flag. only_run; by destruct f. Qed.
Lemma unwritten_record_codec impl echo_on : only unwritten (record_codec impl echo_on).
Proof. unfold record_codec. only_run. Qed.
#[local] Hint Resolve unwritten_close unwritten_write_flag unwritten_record_codec : only.

Definition log0 : rec_log := mkLog [] [] false.

Lemma run_log fuel r : wpl (record_run fuel r) log0 (fun g x => forall st, x = Finished st -> reported g).
Proof.
  unfold record_run. quiet_next; intros start. quiet_next; intros [hits|]; [cbv zeta | done].
  apply wp_bind, event_log. cbn [fired paths stray log0 app].
  set (g1 := mkLog _ _ _). apply wp_bind.
  apply (wp_only_at unreported).
  - by intros [] e.
  - apply only_iterp, unreported_body.
  - intros [[st|]|]; [|done..]. apply wp_bind. unfold record_end.
    quiet_next; intros _. quiet_next; intros _. quiet_next; intros _. apply wp_bind, event_log.
    quiet_next; intros _. apply (wp_only_at unwritten); [by intros [] e | only_run | intros [] st' _].
    split; [done|]. right. split; [done|]. by eexists.
Qed.

Lemma open_log fuel impl file asis flags sample_start :
  wpl (returned (record_open fuel impl file asis flags sample_start)) log0
    (fun g x => forall st, x = Finished st -> reported g).
Proof.
  assert (H0 : reported log0) by (split; [done | by left]).
  unfold returned, record_open. apply wp_bind. quiet_next; intros ch. quiet_next; intros st.
  case_decide; [apply (wp_only_at unwritten); [by intros [] e | only_run | intros [x|x] st' _; exact H0]|].
  quiet_next; intros fill. quiet_next; intros _. quiet_next; intros waste. cbv zeta.
  quiet_next; intros [st' wi].
  case_decide; [apply (wp_only_at unwritten); [by intros [] e | only_run | intros [x|x] st'' _; exact H0]|].
  quiet_next; intros [video_file echo_on]. do 2 (quiet_next; intros ?). quiet_next; intros restart.
  do 2 (quiet_next; intros ?). apply wp_fbind.
  apply (wp_only_at unwritten); [by intros [] e | only_run | intros [_|x]].
  - apply wp_bind. eapply wp_mono; [|apply run_log]. intros g x Hx. exact Hx.
  - intros st'' _. exact H0.
Qed.

(** A recording that returns reported nothing, or exactly its start and then
    its end, both with the same path, whatever way it ended; and audio was
    written to the file only between the two. *)
Theorem record_reported fuel file tr st :
  exec (switch_ivr_record_file_event fuel file) tr (Finished st) -> legal_trace creates log_upd log0 tr ->
  reported (ghost log_upd log0 tr).
Proof.
  intros Hex Hl. refine (wp_sound _ _ _ _ (fun g x => forall st, x = Finished st -> reported g) _ _ _ Hex Hl _ eq_refl).
  assert (H0 : reported log0) by (split; [done | by left]).
  clear - H0. unfold switch_ivr_record_file_event. quiet_next; intros pa. case_decide; [by intros ? _|].
  destruct file as [file|]; [|by intros ? _]. apply wp_quiet_bind; [unfold get_recording_var; only_run | intros prefix].
  quiet_next; intros media. destruct media; [cbn [negb] | by intros ? _]. quiet_next; intros impl.
  apply wp_quiet_bind; [unfold check_start; only_run | intros ok]. destruct ok; [cbn [negb] | by intros ? _].
  quiet_next; intros sample_start. destruct (record_path impl (default sounds_dir prefix) file) as [path asis].
  destruct (asis && _); [do 2 (quiet_next; intros _); by intros ? _|].
  apply wp_quiet_bind; [unfold record_flags; only_run | intros flags]. apply open_log.
Qed.

(** ** What is recorded *)

(** The packet that stands for a frame of comfort noise: it is to be made, it
    was made (its bytes and its samples, in all channels), or the indication
    file ended and what was in the buffer is sent again. *)
Inductive noise := Awaited | Packet (data : list Z) (samples : Z) | Stale.

(** What a frame read from the call asks to be written: its audio, or noise. *)
Inductive due := Heard (f : read_frame) | Noise (n : noise).

(** The level of the noise that was asked for, 0 for none; whether the frames
    are decoded by the codec of the session; what was asked by the frames before
    the last one; by the last one; and what was written, with its length. *)
Record rec_tape := mkTape {
  noise_level : Z; decoded : bool; heard : list due; at_hand : option due; taped : list (audio * Z);
}.

Definition with_hand (h : option due) (g : rec_tape) : rec_tape :=
  mkTape (noise_level g) (decoded g) (heard g) h (taped g).
Definition with_level (l : Z) (g : rec_tape) : rec_tape :=
  mkTape l (decoded g) (heard g) (at_hand g) (taped g).

(** A packet was made of [n]. *)
Definition packed (n : noise) (g : rec_tape) : rec_tape :=
  match at_hand g with Some (Noise Awaited) => with_hand (Some (Noise n)) g | _ => g end.

Definition frame_due (level : Z) (f : read_frame) : option due :=
  if rf_cng f then if decide (level <> 0) then Some (Noise Awaited) else None else Some (Heard f).

Definition level_upd (name : string) (v : option string) (g : rec_tape) : rec_tape :=
  match v with Some p => if String.eqb name "record_fill_cng" then with_level (level_of p) g else g | None => g end.

Definition tape_upd (g : rec_tape) (e : event fresp) : rec_tape :=
  match e with
  | Ev (f_get_variable name) v => level_upd name v g
  | Ev (f_param name) v => level_upd name v g
  | Ev (f_set_read_codec CODEC) _ => mkTape (noise_level g) true (heard g) (at_hand g) (taped g)
  | Ev (f_read_frame _) r =>
      mkTape (noise_level g) (decoded g) (heard g ++ option_list (at_hand g))
        (if F_READ_ACCEPTABLE r.1 then frame_due (noise_level g) r.2 else None) (taped g)
  | Ev (f_file_flag FH SWITCH_FILE_PAUSE) paused =>
      match at_hand g with
      | Some (Heard _) => if paused : bool then with_hand None g else g
      | _ => g
      end
  | Ev (f_generate_silence samples _ level) d =>
      if decide (level = noise_level g) then packed (Packet d samples) g else g
  | Ev (f_file_read IND_FH _) (st, olen, d) =>
      packed (if decide (st = SUCCESS) then Packet d olen else Stale) g
  | Ev (f_get IND_FH fh_channels) ch =>
      match at_hand g with
      | Some (Noise (Packet d n)) => with_hand (Some (Noise (Packet d (u32 (n * 2 * ch) / 2)))) g
      | _ => g
      end
  | Ev (f_file_write a len) _ =>
      mkTape (noise_level g) (decoded g) (heard g) (at_hand g) (taped g ++ [(a, len)])
  | _ => g
  end.

(** The calls that this account does not see. *)
Definition untaped (c : fcall) : bool :=
  match c with
  | f_read_frame _ | f_file_write _ _ | f_file_flag FH SWITCH_FILE_PAUSE | f_set_read_codec CODEC
  | f_generate_silence _ _ _ | f_file_read IND_FH _ | f_get IND_FH fh_channels => false
  | f_get_variable name | f_param name => negb (String.eqb name "record_fill_cng")
  | _ => true
  end.

(** The file keeps [channels] channels. *)
Definition channels_are (channels : Z) (_ : rec_tape) (e : event fresp) : Prop :=
  match e with Ev (f_get FH fh_channels) ch => ch = channels | _ => True end.

Definition frame_len (native : bool) (channels : Z) (f : read_frame) : Z :=
  if native then rf_datalen f else rf_datalen f / 2 / channels.

(** What is written is what was asked for: a frame with all its bytes or
    samples, the packet of noise with all its samples. *)
Definition matches (native : bool) (channels : Z) (d : due) (w : audio * Z) : Prop :=
  match d, w with
  | Heard f, (FromRead f', len) => f' = f /\ len = frame_len native channels f
  | Noise (Packet d n), (FromBytes d', len) => d' = d /\ len = n / channels
  | Noise Stale, (FromBytes _, _) => True
  | _, _ => False
  end.

(** What was asked for is written, up to the frame at which the recording ended. *)
Definition recorded (channels : Z) (g : rec_tape) : Prop :=
  let written l := Forall2 (matches (negb (decoded g)) channels) l (taped g) in
  written (heard g) \/ written (heard g ++ option_list (at_hand g)).

Lemma level_upd_other name v g : String.eqb name "record_fill_cng" = false -> level_upd name v g = g.
Proof. intros Hn. unfold level_upd. destruct v; [by rewrite Hn | done]. Qed.

Lemma untaped_upd c g r : untaped c = true -> tape_upd g (Ev c r) = g.
Proof.
  intros Hc. destruct c; try reflexivity; try discriminate Hc.
  all: first [by apply level_upd_other, negb_true_iff
    | match goal with x : handle, y : fh_field |- _ => destruct x, y; reflexivity || discriminate Hc end
    | match goal with x : handle, y : file_flag |- _ => destruct x, y; reflexivity || discriminate Hc end
    | match goal with x : handle |- _ => destruct x; reflexivity || discriminate Hc end
    | match goal with x : codec_id |- _ => destruct x; reflexivity || discriminate Hc end].
Qed.

Lemma only_untaped {A} (m : FM A) : only plain m -> only untaped m.
Proof.
  apply only_mono. intros []; try done.
  - by intros [_ Hn]%andb_prop.
  - match goal with x : handle, y : fh_field |- _ => by destruct x, y end.
  - match goal with x : handle, y : file_flag |- _ => by destruct x, y end.
Qed.
#[local] Hint Resolve only_untaped | 5 : only.

Section Tape.
Context (channels : Z).
Notation wpt := (wp (channels_are channels) tape_upd).

Lemma wp_untaped {A} (m : FM A) g (Q : rec_tape -> A -> Prop) : only untaped m -> (forall a, Q g a) -> wpt m g Q.
Proof using Type. apply wp_only. intros c s r. apply untaped_upd. Qed.

Lemma wp_untaped_bind {A B} (m : FM A) (f : A -> FM B) g (Q : rec_tape -> B -> Prop) :
  only untaped m -> (forall a, wpt (f a) g Q) -> wpt (m ≫= f) g Q.
Proof using Type. intros Hm Hf. apply wp_bind, wp_untaped; [exact Hm | exact Hf]. Qed.

Ltac untaped_next := apply wp_untaped_bind; [only_run|].

(** The tape runs as the recording was set up. *)
Definition runs (r : recording) (g : rec_tape) : Prop := decoded g = negb (r_asis r) /\ noise_level g = r_fill_cng r.

Notation asked_is r := (matches (r_asis r) channels).

(** The state between two frames: everything that was asked for is written. *)
Definition all_taped (r : recording) (g : rec_tape) : Prop :=
  runs r g /\ Forall2 (asked_is r) (heard g ++ option_list (at_hand g)) (taped g).

(** The turn of a frame: what was asked before is written. *)
Definition turn (r : recording) (g : rec_tape) : Prop := runs r g /\ Forall2 (asked_is r) (heard g) (taped g).

Lemma all_taped_recorded r g : all_taped r g -> recorded channels g.
Proof using Type. intros [[Hd _] Hf]. right. by rewrite Hd, negb_involutive. Qed.

Lemma turn_recorded r g : turn r g -> recorded channels g.
Proof using Type. intros [[Hd _] Hf]. left. by rewrite Hd, negb_involutive. Qed.

Lemma turn_hand r g h : turn r g -> turn r (with_hand h g).
Proof using Type. done. Qed.

(** The end of a part of an iteration. *)
Definition tape_post {A} (r : recording) (g : rec_tape) (x : flow A stop) : Prop :=
  match x with Next _ => all_taped r g | Leave _ => recorded channels g end.

(** The noise that was asked for, made of [data]. *)
Definition packet_due (r : recording) (h0 h : option due) (data : list Z) (datalen : Z) : Prop :=
  match h0 with
  | Some (Noise _) => exists n, h = Some (Noise n) /\ asked_is r (Noise n) (FromBytes data, datalen / 2 / channels)
  | _ => h = h0
  end.

Definition packet_post (r : recording) (g g' : rec_tape) (x : flow (list Z * Z * Z) stop) : Prop :=
  exists h, g' = with_hand h g /\ match x with Next (d, dl, _) => packet_due r (at_hand g) h d dl | Leave _ => True end.

(** What is asked for when a frame was just read. *)
Inductive asked (g : rec_tape) : Prop :=
| asked_audio : (forall n, at_hand g <> Some (Noise n)) -> asked g
| asked_noise : at_hand g = Some (Noise Awaited) -> noise_level g <> 0 -> asked g.

Lemma frame_asked g f : at_hand g = frame_due (noise_level g) f -> asked g.
Proof using Type.
  unfold frame_due. destruct (rf_cng f); [case_decide|]; intros Hh; [by apply asked_noise | left; by rewrite Hh..].
Qed.

(** Audio is not changed by the making of a packet. *)
Lemma audio_post r g d dl sm : (forall n, at_hand g <> Some (Noise n)) -> packet_post r g g (Next (d, dl, sm)).
Proof using Type.
  intros Hg. exists (at_hand g). split; [by destruct g|]. unfold packet_due. destruct (at_hand g) as [[f|n]|]; [done| |done].
  by destruct (Hg n).
Qed.

Lemma packed_audio n g : (forall n, at_hand g <> Some (Noise n)) -> packed n g = g.
Proof using Type. intros Hg. unfold packed. destruct (at_hand g) as [[f|[]]|] eqn:E; try done. by destruct (Hg Awaited). Qed.

Lemma sized_audio g ch : (forall n, at_hand g <> Some (Noise n)) -> tape_upd g (Ev (f_get IND_FH fh_channels) ch) = g.
Proof using Type. intros Hg. cbn. destruct (at_hand g) as [[f|n]|]; [done | by destruct (Hg n) | done]. Qed.

Lemma noise_post r g n d dl sm :
  at_hand g = Some (Noise Awaited) -> asked_is r (Noise n) (FromBytes d, dl / 2 / channels) ->
  packet_post r g (with_hand (Some (Noise n)) g) (Next (d, dl, sm)).
Proof using Type. intros Hg Hn. eexists. split; [done|]. rewrite Hg. by exists n. Qed.

Lemma packed_noise n g : at_hand g = Some (Noise Awaited) -> packed n g = with_hand (Some (Noise n)) g.
Proof using Type. intros Hg. unfold packed. by rewrite Hg. Qed.

Lemma packet_tape r data g :
  runs r g -> asked g -> wpt (record_packet r data) g (packet_post r g).
Proof using Type.
  intros [_ Hl] Hg. unfold record_packet. untaped_next; intros ind. destruct ind.
  - destruct (negb (raw_write r)); [exists (at_hand g); by destruct g|].
    intros [[st olen] d] _. cbn [mbind prog_bind bindp tape_upd].
    destruct Hg as [Hg|Hg _]; [rewrite packed_audio by exact Hg | rewrite packed_noise by exact Hg];
      destruct (decide (st = SUCCESS)) as [Hst|Hst].
    + intros ch _. rewrite sized_audio by exact Hg. apply audio_post, Hg.
    + untaped_next; intros _. apply audio_post, Hg.
    + intros ch _. apply (noise_post r g (Packet d _) d _ _ Hg). done.
    + untaped_next; intros _. by apply (noise_post r g Stale _ _ _ Hg).
  - case_decide as Hf; [|case_decide as Hw].
    + intros d _. cbn [mbind prog_bind bindp next mret prog_ret wp tape_upd]. rewrite decide_True by done.
      destruct Hg as [Hg|Hg _]; [rewrite packed_audio by exact Hg; apply audio_post, Hg|].
      rewrite packed_noise by exact Hg. by apply noise_post.
    + intros d _. cbn [mbind prog_bind bindp next mret prog_ret wp tape_upd].
      destruct Hg as [Hg|_ Hn]; [|congruence]. rewrite packed_audio by exact Hg. case_decide; apply audio_post, Hg.
    + destruct Hg as [Hg|_ Hn]; [apply audio_post, Hg | congruence].
Qed.

(** The turn of a frame whose packet was made. *)
Lemma write_tape r f data datalen status g :
  turn r g -> packet_due r (frame_due (r_fill_cng r) f) (at_hand g) data datalen ->
  wpt (record_write r f data datalen status) g (tape_post r).
Proof using Type.
  intros Ht Hdue. destruct Ht as [[Hd Hl] Hf]. destruct g as [l dd hs h ts]. cbn in Hd, Hl, Hf, Hdue. subst dd l.
  assert (Hw : forall a len d, h = Some d -> asked_is r d (a, len) ->
    wpt (record_write_audio a len status) (mkTape (r_fill_cng r) (negb (r_asis r)) hs h ts) (tape_post r)).
  { intros a len d -> Hm st _. cbn [mbind prog_bind bindp tape_upd noise_level decoded heard at_hand taped].
    assert (all_taped r (mkTape (r_fill_cng r) (negb (r_asis r)) hs (Some d) (ts ++ [(a, len)]))) as Ha.
    { split; [done|]. cbn. apply Forall2_app; [done|]. by constructor. }
    case_decide; [by eapply all_taped_recorded | exact Ha]. }
  assert (Ht : forall h, turn r (mkTape (r_fill_cng r) (negb (r_asis r)) hs h ts)) by done.
  assert (Hlen : forall (native : bool) n (k : Z -> FM (flow unit stop)),
    (forall len : Z, len = (if native then n else n / 2 / channels) ->
       wpt (k len) (mkTape (r_fill_cng r) (negb (r_asis r)) hs h ts) (tape_post r)) ->
    wpt (len ⟵ record_write_len native n; k len) (mkTape (r_fill_cng r) (negb (r_asis r)) hs h ts) (tape_post r)).
  { intros native n k Hk. apply wp_fbind. unfold record_write_len. destruct native; [by apply Hk|].
    intros ch Hch. cbn in Hch. subst ch. cbn [mbind prog_bind bindp]. case_decide; [by eapply turn_recorded | by apply Hk]. }
  unfold record_write. intros paused _. cbn [mbind prog_bind bindp]. unfold frame_due in Hdue.
  destruct (rf_cng f) eqn:Hcng; cbn [negb].
  - rewrite andb_false_r. cbn [andb]. case_decide as Hfill.
    + destruct Hdue as (n & -> & Hn). rewrite bool_decide_true by done. cbn [tape_upd at_hand]. 
      apply Hlen. intros len ->. by apply (Hw _ _ (Noise n)).
    + cbn in Hdue. subst h. rewrite bool_decide_false by lia. cbn. split; [done|]. cbn. by rewrite app_nil_r.
  - cbn in Hdue. subst h. rewrite andb_true_r. cbn [tape_upd at_hand]. destruct paused; cbn [negb andb].
    + split; [done|]. cbn. by rewrite app_nil_r.
    + apply Hlen. intros len ->. by apply (Hw _ _ (Heard f)).
Qed.

Lemma untaped_silence r f status : only untaped (record_silence r f status).
Proof using Type. unfold record_silence. only_run. Qed.
Lemma untaped_input r start status : only untaped (record_input r start status).
Proof using Type. unfold record_input, breaking. only_run. Qed.
Lemma untaped_hits impl asis : only untaped (record_hits impl asis).
Proof using Type. unfold record_hits. only_run. Qed.
Lemma untaped_stop : only untaped (check_stop args).
Proof using Type. unfold check_stop. only_run. Qed.
Lemma untaped_event id file app api : only untaped (record_event id file app api).
Proof using Type.
  unfold record_event, with_event. only_run. destruct vars as [v|]; [|done]. cbn [merge_recording_variables].
  induction v as [|[n x] v IH]; [done|]. cbn [merge_headers]. only_run.
Qed.
#[local] Hint Resolve untaped_silence untaped_input untaped_hits untaped_stop untaped_event : only.

Lemma frame_tape r f status data g :
  turn r g -> at_hand g = frame_due (noise_level g) f ->
  wpt (record_frame r f status data) g (tape_post r).
Proof using Type.
  intros Hg Hh. pose proof (turn_recorded r g Hg) as H1. unfold record_frame, breaking.
  apply wp_fbind, wp_untaped; [only_run | intros [st|x]; [|exact H1]].
  apply wp_untaped_bind; [only_run | intros _].
  apply wp_fbind, wp_untaped; [only_run | intros [_|x]; [|exact H1]].
  apply wp_fbind. eapply wp_mono; [|apply packet_tape; [apply Hg | by eapply frame_asked]].
  intros g' [[[d dl] sm]|x] (h & -> & Hp); [|by eapply turn_recorded].
  apply wp_fbind. eapply wp_mono; [|apply (write_tape r f)]; [|exact Hg|].
  2: { destruct Hg as [[_ Hl] _]. rewrite <- Hl, <- Hh. exact Hp. }
  intros g' [[]|x] Hg'; [|exact Hg'].
  apply wp_fbind, wp_untaped; [only_run | intros [_|x]; [exact Hg' | by eapply all_taped_recorded]].
Qed.

Lemma body_tape r s g : all_taped r g -> wpt (record_body r s) g (tape_post r).
Proof using Type.
  intros Hg. pose proof (all_taped_recorded r g Hg) as H1. unfold record_body.
  untaped_next; intros ready. destruct (negb ready); [exact H1|].
  untaped_next; intros brk. case_decide; [untaped_next; intros _; exact H1|].
  untaped_next; intros _. untaped_next; intros over. destruct over; [exact H1|].
  apply wp_fbind, wp_untaped; [only_run | intros [[start st]|x]; [|exact H1]].
  intros [st' f] _. cbn [mbind prog_bind bindp tape_upd fst snd]. destruct Hg as [Hr Hf].
  destruct (F_READ_ACCEPTABLE st'); cbn [negb]; [|by apply (turn_recorded r)].
  apply wp_fbind. eapply wp_mono; [|by apply frame_tape]. by intros g' [[st'' d]|x].
Qed.

(** Before the first frame. *)
Definition idle (level : Z) (dec : bool) : rec_tape := mkTape level dec [] None [].

Lemma idle_recorded level dec : recorded channels (idle level dec).
Proof using Type. by left. Qed.

Lemma run_tape fuel r : wpt (record_run fuel r) (idle (r_fill_cng r) (negb (r_asis r))) (fun g _ => recorded channels g).
Proof using Type.
  unfold record_run. untaped_next; intros start. untaped_next; intros [hits|]; [cbv zeta | apply idle_recorded].
  untaped_next; intros _. apply wp_bind. set (r' := mkRecording _ _ _ _ _ _ _ _ _ hits).
  apply wp_mono with (Q := fun g _ => recorded channels g).
  - intros g [[st|]|] Hg; [|exact Hg..]. apply wp_untaped; [|done].
    unfold record_end, record_close, report_column. only_run.
  - unfold record_loop. eapply wp_mono; [|apply (wp_iterp _ _ _ (fun g _ => all_taped r' g)
      (fun g _ => recorded channels g)); [|by repeat split; constructor]].
    + intros g [x|]; [done | intros [s Hs]; by eapply all_taped_recorded].
    + intros g s Hs. eapply wp_mono; [|by apply body_tape]. by intros g' [s'|x].
Qed.

Lemma untaped_var name fh :
  String.eqb name "record_fill_cng" = false -> only untaped (get_recording_var vars fh name).
Proof using Type.
  intros Hn. assert (forall c, c = f_param name \/ c = f_get_variable name -> untaped c = true) as Hc.
  { intros c [-> | ->]; cbn; by rewrite Hn. }
  unfold get_recording_var. destruct (match vars with Some v => _ | None => _ end); [done|].
  destruct fh; [split; [by apply Hc; left | intros [v|]; [done|]]|]; split; auto; by intros.
Qed.
Lemma untaped_flag name : String.eqb name "record_fill_cng" = false -> only untaped (recording_var_true vars true name).
Proof using Type. intros Hn. apply only_bind; [by apply untaped_var | done]. Qed.
Lemma untaped_level name dflt : String.eqb name "record_fill_cng" = false -> only untaped (record_level name dflt).
Proof using Type. intros Hn. apply only_bind; [by apply untaped_var | done]. Qed.
#[local] Hint Extern 2 (only untaped (get_recording_var _ _ _)) => apply untaped_var; reflexivity : only.
#[local] Hint Extern 2 (only untaped (recording_var_true _ _ _)) => apply untaped_flag; reflexivity : only.
#[local] Hint Extern 2 (only untaped (record_level _ _)) => apply untaped_level; reflexivity : only.
Lemma untaped_codec c impl : only untaped (raw_codec c impl).
Proof using Type. by apply only_invoke. Qed.
#[local] Hint Resolve untaped_codec : only.

Lemma untaped_flags prefix : only untaped (record_flags prefix).
Proof using Type.
  unfold record_flags, record_video_flag, check_stop.
  assert (forall f name, f <> SWITCH_FILE_PAUSE -> String.eqb name "record_fill_cng" = false ->
    only untaped (write_flag f name)) as Hw.
  { intros f name Hf Hn. apply only_bind; [apply only_invoke; by destruct f | intros b].
    apply only_bind; [destruct b; [done | by apply untaped_flag] | by intros []]. }
  only_run; by apply Hw.
Qed.
#[local] Hint Resolve untaped_flags : only.

(** The level of the noise in [vars]. *)
Definition vars_level : Z :=
  match (match vars with Some v => switch_event_get_header v "record_fill_cng" | None => None end) with
  | Some p => level_of p
  | None => 0
  end.

Definition tape0 : rec_tape := idle vars_level false.

Lemma level_tape : wpt (record_level "record_fill_cng" 0) tape0 (fun g level => g = idle level false).
Proof using Type.
  unfold record_level, get_recording_var, tape0, vars_level.
  destruct (match vars with Some v => _ | None => _ end) as [p|]; [done|].
  intros [v|] _; [done|]. cbn [mbind prog_bind bindp]. intros [v|] _; done.
Qed.

Lemma open_tape fuel impl file asis flags sample_start :
  wpt (returned (record_open fuel impl file asis flags sample_start)) tape0 (fun g _ => recorded channels g).
Proof using Type.
  assert (H0 : forall level dec, recorded channels (idle level dec)) by by left.
  unfold returned, record_open. apply wp_bind. untaped_next; intros ch. untaped_next; intros st.
  case_decide; [apply wp_untaped; [only_run | intros [x|x]; apply H0]|].
  apply wp_bind. eapply wp_mono; [|apply level_tape]. intros g fill ->.
  untaped_next; intros _. untaped_next; intros waste. cbv zeta.
  untaped_next; intros [st' wi]. case_decide; [apply wp_untaped; [only_run | intros [x|x]; apply H0]|].
  untaped_next; intros [video_file echo_on]. untaped_next; intros ?. untaped_next; intros native. untaped_next; intros restart.
  do 2 (untaped_next; intros ?). apply wp_fbind.
  apply wp_mono with (Q := fun g x => match x with Next _ => g = idle fill (negb (asis || native)) | Leave _ => recorded channels g end).
  - intros g [_|x]; [intros -> | done]. apply wp_bind.
    match goal with |- wp _ _ (record_run _ ?r) _ _ => eapply wp_mono; [|apply (run_tape fuel r)] end. intros g x Hx. exact Hx.
  - destruct (asis || native); [done|]. unfold record_codec.
    untaped_next; intros [st'' ci]. case_decide; [by intros [] _|]. do 3 (untaped_next; intros _).
    untaped_next; intros _. apply H0.
Qed.

End Tape.

(** ** A limit ends a recording *)

Section Limit.
(** The clock gains a second in at most [n] readings. *)
Context (n : Z) (Hn : 0 < n) (Hlimit : 0 < limit).

(** The first reading of the clock, and how many came after it. *)
Definition clock_upd (g : option Z * Z) (e : event fresp) : option Z * Z :=
  match e with
  | Ev f_epoch_time_now t => match g.1 with None => (Some t, 0) | Some t0 => (Some t0, g.2 + 1) end
  | _ => g
  end.

(** The clock runs, and nobody dials a digit (which may start the limit again). *)
Definition clock_runs (g : option Z * Z) (e : event fresp) : Prop :=
  match e with
  | Ev f_epoch_time_now t => 0 < t /\ (forall t0, g.1 = Some t0 -> t0 + (g.2 + 1) / n <= t)
  | Ev f_has_dtmf dtmf => dtmf = false
  | _ => True
  end.

Notation wpc := (wp clock_runs clock_upd).

Definition timeless (c : fcall) : bool := match c with f_epoch_time_now => false | _ => true end.

Lemma only_timeless {A} (m : FM A) : only plain m -> only timeless m.
Proof using Type. apply only_mono. by intros []. Qed.
#[local] Hint Resolve only_timeless | 5 : only.

Lemma wp_timeless {A} (m : FM A) g (Q : option Z * Z -> A -> Prop) :
  only timeless m -> (forall a, Q g a) -> wpc m g Q.
Proof using Type. apply wp_only. by intros []. Qed.

Lemma wp_timeless_bind {A B} (m : FM A) (f : A -> FM B) g (Q : option Z * Z -> B -> Prop) :
  only timeless m -> (forall a, wpc (f a) g Q) -> wpc (m ≫= f) g Q.
Proof using Type. intros Hm Hf. apply wp_bind, wp_timeless; [exact Hm | exact Hf]. Qed.

Ltac timeless_next := apply wp_timeless_bind; [only_run|].

Lemma input_clock r start status g :
  wpc (record_input r start status) g
    (fun g' x => g' = g /\ match x with Next (start', _) => start' = start | Leave _ => True end).
Proof using Type.
  unfold record_input. destruct args as [a|]; [|done].
  intros dtmf Hd. cbn in Hd. subst dtmf. cbn [mbind prog_bind bindp]. apply wp_fbind. cbn [wp next mret prog_ret].
  timeless_next; intros st. by case_decide.
Qed.

Lemma timeless_silence r f status : only timeless (record_silence r f status).
Proof using Type. unfold record_silence. only_run. Qed.
Lemma timeless_packet r data : only timeless (record_packet r data).
Proof using Type. unfold record_packet. only_run. Qed.
Lemma timeless_write r f data datalen status : only timeless (record_write r f data datalen status).
Proof using Type. unfold record_write, record_write_audio. only_run. Qed.
Lemma timeless_hits impl asis : only timeless (record_hits impl asis).
Proof using Type. unfold record_hits. only_run. Qed.
Lemma timeless_stop : only timeless (check_stop args).
Proof using Type. unfold check_stop. only_run. Qed.
Lemma timeless_event id file app api : only timeless (record_event id file app api).
Proof using Type.
  unfold record_event, with_event. only_run. destruct vars as [v|]; [|done]. cbn [merge_recording_variables].
  induction v as [|[m x] v IH]; [done|]. cbn [merge_headers]. only_run.
Qed.
Lemma timeless_end r : only timeless (record_end r).
Proof using Type. pose proof timeless_event. unfold record_end, record_close, report_column, check_stop. only_run. Qed.
Lemma timeless_flag name : only timeless (recording_var_true vars true name).
Proof using Type. unfold recording_var_true, get_recording_var. only_run. Qed.
Lemma timeless_level name dflt : only timeless (record_level name dflt).
Proof using Type. unfold record_level, get_recording_var. only_run. Qed.
Lemma timeless_flags prefix : only timeless (record_flags prefix).
Proof using Type.
  unfold record_flags, record_video_flag, check_stop, write_flag, recording_var_true, get_recording_var. only_run.
Qed.
#[local] Hint Resolve timeless_end timeless_flag timeless_level timeless_flags timeless_silence timeless_packet timeless_write timeless_hits timeless_stop timeless_event : only.

(** Readings that are left before the limit is over. *)
Definition readings_left (g : option Z * Z) : nat := Z.to_nat (n * (limit + 1) - g.2).

Definition started (g : option Z * Z) (s : record_state) : Prop :=
  g.1 = Some (st_start s) /\ 0 < st_start s /\ 0 <= g.2 < n * (limit + 1).

Lemma body_clock r s g : started g s ->
  wpc (record_body r s) g (fun g' x =>
    match x with Next s' => started g' s' /\ (readings_left g' < readings_left g)%nat | Leave _ => True end).
Proof using Hn.
  destruct g as [first k]. intros (Hf & Hs & Hk). cbn in Hf, Hk. subst first. unfold record_body.
  timeless_next; intros ready. destruct (negb ready); [exact I|].
  timeless_next; intros brk. case_decide; [by timeless_next; intros _|].
  timeless_next; intros _. rewrite decide_True by lia.
  intros now [Hnow Hlate]. cbn [mbind prog_bind bindp mret prog_ret clock_upd ev_call ev_resp fst snd].
  specialize (Hlate _ eq_refl). cbn [snd] in Hlate.
  destruct (bool_decide (limit < now - st_start s)) eqn:Ho; [exact I|]. apply bool_decide_eq_false in Ho.
  assert (Hk1 : k + 1 < n * (limit + 1)).
  { assert ((k + 1) / n <= limit) by lia.
    pose proof (Z.div_mod (k + 1) n ltac:(lia)). pose proof (Z.mod_pos_bound (k + 1) n Hn). nia. }
  apply wp_fbind. eapply wp_mono; [|apply input_clock]. intros g' [[start st]|x] [-> Hx]; [subst start | exact I].
  timeless_next; intros [st' f]. destruct (negb _); [exact I|]. apply wp_fbind, wp_timeless.
  - unfold record_frame, breaking. only_run.
  - intros [[st'' d]|x]; [|exact I]. unfold started, readings_left. cbn. repeat split; lia.
Qed.

Notation bounded := (fun (_ : option Z * Z) x => x <> OutOfFuel).

Lemma run_clock fuel r : (Z.to_nat (n * (limit + 1)) < fuel)%nat -> wpc (record_run fuel r) (None, 0) bounded.
Proof using Hn Hlimit.
  intros Hfuel. unfold record_run. rewrite decide_True by lia. intros t0 [Ht0 _].
  cbn [mbind prog_bind bindp clock_upd ev_call ev_resp fst snd].
  timeless_next; intros [hits|]; [cbv zeta | done]. timeless_next; intros _. apply wp_bind. unfold record_loop.
  eapply wp_mono; [|apply (wp_iterp_total _ _ _ started (fun g _ => readings_left g) (fun _ _ => True))].
  - intros g [[st|]|]; [intros _; by timeless_next; intros _ | done..].
  - intros g s Hs. apply body_clock, Hs.
  - unfold started. cbn. repeat split; lia.
  - unfold readings_left. cbn. lia.
Qed.

Lemma open_clock fuel impl file asis flags sample_start : (Z.to_nat (n * (limit + 1)) < fuel)%nat ->
  wpc (returned (record_open fuel impl file asis flags sample_start)) (None, 0) bounded.
Proof using Hn Hlimit.
  intros Hfuel. unfold returned, record_open. apply wp_bind. timeless_next; intros ch. timeless_next; intros st.
  case_decide; [by do 3 (timeless_next; intros _)|].
  timeless_next; intros fill. timeless_next; intros _. timeless_next; intros waste. cbv zeta.
  timeless_next; intros [st' wi]. case_decide; [by timeless_next; intros _|].
  timeless_next; intros [video_file echo_on]. timeless_next; intros _. timeless_next; intros native. timeless_next; intros restart.
  do 2 (timeless_next; intros ?).
  apply wp_fbind. apply wp_mono with (Q := fun g x => g = (None, 0) /\ match x with Leave x => x <> OutOfFuel | _ => True end).
  - intros g [_|x] [-> Hx]; [|exact Hx].
    apply wp_bind. eapply wp_mono; [|by apply run_clock]. intros g x Hx'. exact Hx'.
  - destruct (asis || native); [done|]. unfold record_codec.
    timeless_next; intros [st'' ci]. case_decide; [by timeless_next; intros _|]. by do 4 (timeless_next; intros _).
Qed.

(** [C38] A limit ends a recording: when the clock gains a second in every [n]
    readings and no digits are dialled, a recording with a limit of [limit]
    seconds is over within [n * (limit + 1)] frames, whatever the call, the file
    and the callbacks do. *)
Theorem record_limit_ends fuel file tr x : (Z.to_nat (n * (limit + 1)) < fuel)%nat ->
  exec (switch_ivr_record_file_event fuel file) tr x -> legal_trace clock_runs clock_upd (None, 0) tr ->
  x <> OutOfFuel.
Proof using Hn Hlimit.
  intros Hfuel Hex Hl. refine (wp_sound _ _ _ _ bounded _ _ _ Hex Hl).
  unfold switch_ivr_record_file_event. timeless_next; intros pa. case_decide; [done|].
  destruct file as [file|]; [|done]. apply wp_timeless_bind; [unfold get_recording_var; only_run | intros prefix].
  timeless_next; intros media. destruct media; [cbn [negb] | done]. timeless_next; intros impl.
  apply wp_timeless_bind; [unfold check_start; only_run | intros ok]. destruct ok; [cbn [negb] | done].
  timeless_next; intros sample_start. destruct (record_path impl (default sounds_dir prefix) file) as [path asis].
  destruct (asis && _); [by do 2 (timeless_next; intros _)|].
  timeless_next; intros flags. by apply open_clock.
Qed.
End Limit.
End RecordFile.

(** [switch_ivr_record_file] *)
Definition switch_ivr_record_file `{FileDefs} (fh_given : bool) (args : option input_args) (limit : Z)
    (fuel : nat) (file : option string) : FM result :=
  switch_ivr_record_file_event None fh_given args limit fuel file.

(** ** Witnesses *)

#[local] Existing Instance sample_files.

Definition tone (level : Z) : read_frame := mkReadFrame 320 (replicate 160 level) false.
Definition quiet_frame : read_frame := mkReadFrame 320 (replicate 160 0) true.

(** Four frames are read: a tone, comfort noise, a tone while recording is
    paused, a tone; then the caller hangs up. *)
Definition call_env (k : nat) (c : fcall) : fresp c * nat :=
  match c return fresp c * nat with
  | f_channel_ready => ((k <? 4)%nat, k)
  | f_read_frame _ =>
      ((SUCCESS, match k with 1%nat => quiet_frame | _ => tone (Z.of_nat k) end), S k)
  | f_file_flag FH SWITCH_FILE_PAUSE => ((k =? 3)%nat, k)
  | f_generate_silence samples _ _ => (replicate (Z.to_nat samples) 3, k)
  | c => (benign c, k)
  end.

(** What a run does, for a run that returns. *)
Definition recording_of (limit : Z) : FM result :=
  switch_ivr_record_file_event (Some [("caller", "1001"); ("record_fill_cng", "400")]) true (Some (mkArgs false true false false)) limit 10
    (Some "vm/msg").

Definition call_run : result * ftrace :=
  let '(x, _, tr) := run call_env 0%nat (recording_of 0) in (x, tr).

Lemma call_exec : exec (recording_of 0) call_run.2 (Finished SWITCH_STATUS_FALSE).
Proof.
  assert (call_run.1 = Finished SWITCH_STATUS_FALSE) as <- by (vm_compute; reflexivity).
  unfold call_run. pose proof (run_exec call_env (recording_of 0) 0%nat) as E.
  by destruct (run call_env 0%nat (recording_of 0)) as [[x w] tr].
Qed.

Lemma call_legal {S} (legal : S -> event fresp -> Prop) upd s :
  (forall s w c, legal s (Ev c (call_env w c).1)) -> legal_trace legal upd s call_run.2.
Proof.
  intros Hl. unfold call_run. pose proof (run_answers legal upd call_env (recording_of 0) 0%nat s Hl) as L.
  by destruct (run call_env 0%nat (recording_of 0)) as [[x w] tr].
Qed.

(** A video call whose recording has video: it echoes. *)
Definition video_env (k : nat) (c : fcall) : fresp c * nat :=
  match c return fresp c * nat with
  | f_test_flag CF_VIDEO => (1, k)
  | f_has_video FH _ => (true, k)
  | c => call_env k c
  end.

Definition video_trace : ftrace := (run video_env 0%nat (recording_of 0)).2.

Lemma video_exec : exec (recording_of 0) video_trace (Finished SWITCH_STATUS_FALSE).
Proof.
  assert ((run video_env 0%nat (recording_of 0)).1.1 = Finished SWITCH_STATUS_FALSE) as <- by (vm_compute; reflexivity).
  apply run_exec.
Qed.

Lemma video_legal : legal_trace (has_video_is true) screen_upd untouched video_trace.
Proof. apply run_answers. intros s w c. destruct c; try exact I. by destruct h. Qed.

Lemma record_accounts_witness :
  accounted (Some (mkArgs false true false false)) (ghost use_upd (mkUse 0 0 0 false false false) video_trace) /\
  screen_left (ghost screen_upd untouched video_trace) /\ v_echoed (ghost screen_upd untouched video_trace) = true.
Proof.
  destruct (record_accounts (Some [("caller", "1001"); ("record_fill_cng", "400")]) true
    (Some (mkArgs false true false false)) 0 10%nat (Some "vm/msg") _ _ video_exec) as [Ha Hv].
  split; [exact Ha|]. split; [exact (Hv true video_legal) | vm_compute; reflexivity].
Defined.

Lemma call_creates : legal_trace creates log_upd log0 call_run.2.
Proof. apply call_legal. intros s w c. by destruct c. Qed.

Lemma record_reported_witness :
  reported (ghost log_upd log0 call_run.2) /\
  paths (ghost log_upd log0 call_run.2) = ["/sounds/vm/msg.PCMU"; "/sounds/vm/msg.PCMU"].
Proof.
  split; [|vm_compute; reflexivity].
  exact (record_reported _ _ _ _ 10%nat (Some "vm/msg") _ _ call_exec call_creates).
Defined.

Definition call_tape0 : rec_tape := tape0 (Some [("caller", "1001"); ("record_fill_cng", "400")]).

Lemma call_channels : legal_trace (channels_are 1) tape_upd call_tape0 call_run.2.
Proof. apply call_legal. intros s w c. destruct c; try exact I. by destruct h, field. Qed.


(** Comfort noise is recorded although the recording is paused. *)
Definition paused_noise_env (k : nat) (c : fcall) : fresp c * nat :=
  match c return fresp c * nat with
  | f_channel_ready => ((k <? 1)%nat, k)
  | f_read_frame _ => ((SUCCESS, quiet_frame), S k)
  | f_file_flag FH SWITCH_FILE_PAUSE => (true, k)
  | c => (benign c, k)
  end.
Example noise_recorded_while_paused :
  taped (ghost tape_upd call_tape0 (run paused_noise_env 0%nat (recording_of 0)).2) = [(FromBytes [], 160)].
Proof. vm_compute. reflexivity. Qed.

(** A call that never ends, with a clock that gains a second at every reading. *)
Definition clock_env (g : option Z * Z) (c : fcall) : fresp c * (option Z * Z) :=
  match c return fresp c * (option Z * Z) with
  | f_epoch_time_now => match g.1 with None => (1000, (Some 1000, 0)) | Some t0 => (Z.max 1 (t0 + (g.2 + 1)), (Some t0, g.2 + 1)) end
  | c => (benign c, g)
  end.

Lemma record_limit_ends_witness :
  (run clock_env (None, 0) (recording_of 5)).1.1 <> OutOfFuel.
Proof.
  eapply (record_limit_ends _ _ _ 5 1 ltac:(lia) ltac:(lia) 10%nat (Some "vm/msg")); [lia | apply run_exec |].
  apply run_legal. intros [first k] c. destruct c; try (split; [exact I | reflexivity]); [|by split].
  destruct first as [t0|]; cbn.
  - split; [|done]. split; [lia|]. intros t [= <-]. rewrite Z.div_1_r. lia.
  - by split.
Defined.

(** ** Recordings that go wrong *)

(** A run with the answers [answer], its result and its account. *)
Definition with_answers (answer : forall c, fresp c) : result * rec_use :=
  let '(x, _, tr) := run (fun (w : unit) c => (answer c, w)) tt
    (switch_ivr_record_file_event (Some [("caller", "1001")]) true (Some (mkArgs false true false false)) 0 10
       (Some "vm/msg")) in
  (x, ghost use_upd (mkUse 0 0 0 false false false) tr).

(** When the inbound video does not come, the mark of the arguments is given
    back twice: the caller's count of nested calls goes below what it was. *)
Definition no_video_answers (c : fcall) : fresp c :=
  match c with
  | f_test_flag CF_VIDEO => 1
  | f_wait_for_video_input_params _ => SWITCH_STATUS_FALSE
  | f_channel_ready => false
  | c => benign c
  end.
Example no_video_stops_twice :
  with_answers no_video_answers = (Finished SWITCH_STATUS_FALSE, mkUse 0 0 (-1) true false false).
Proof. vm_compute. reflexivity. Qed.

(** When the codec of the packets cannot be initialised, the file stays open. *)
Definition no_codec_answers (c : fcall) : fresp c :=
  match c with
  | f_codec_init WRITE_CODEC _ _ _ => (SWITCH_STATUS_FALSE, sample_impl)
  | c => benign c
  end.
Example no_codec_leaves_file_open :
  with_answers no_codec_answers = (Finished SWITCH_STATUS_FALSE, mkUse 1 0 0 false true false).
Proof. vm_compute. reflexivity. Qed.

(** An indication file with [record_waste_resources] 0: there is no codec of
    packets, and the first packet dereferences NULL. *)
Definition indication_answers (c : fcall) : fresp c :=
  match c with
  | f_get_variable "record_indication" => Some "beep.wav"
  | f_get_variable "record_waste_resources" => Some "0"
  | f_file_flag IND_FH SWITCH_FILE_OPEN => true
  | c => benign c
  end.
Example indication_without_codec_faults : (with_answers indication_answers).1 = Undefined.
Proof. vm_compute. reflexivity. Qed.

(** How often a file is opened and closed. *)
Definition opens_of (h : handle) : event fresp -> bool :=
  fun e => match ev_call e with f_file_open h' _ _ _ _ => bool_decide (h' = h) | _ => false end.
Definition closes_of (h : handle) : event fresp -> bool :=
  fun e => match ev_call e with f_file_close h' => bool_decide (h' = h) | _ => false end.

(** A video file is played during a video call: at the end the channel goes on
    decoding the video it reads, and the video file stays open. *)
Definition video_file_env (k : nat) (c : fcall) : fresp c * nat :=
  match c return fresp c * nat with
  | f_param "record_play_video" => (Some "clip.mp4", k)
  | f_has_video VFH _ => (true, k)
  | f_file_flag VFH SWITCH_FILE_OPEN => (true, k)
  | c => video_env k c
  end.
Example video_file_leaves_decoding :
  let '(x, _, tr) := run video_file_env 0%nat (recording_of 0) in
  x = Finished SWITCH_STATUS_FALSE /\ v_decoded (ghost screen_upd untouched tr) = true /\
  count_events (opens_of VFH) tr = 1%nat /\ count_events (closes_of VFH) tr = 0%nat.
Proof. vm_compute. repeat split. Qed.

(** The indication is still being played when the recording ends: its file
    stays open. *)
Definition indication_env (k : nat) (c : fcall) : fresp c * nat :=
  match c return fresp c * nat with
  | f_get_variable "record_indication" => (Some "beep.wav", k)
  | f_file_flag IND_FH SWITCH_FILE_OPEN => (true, k)
  | c => call_env k c
  end.
Example indication_stays_open :
  let '(x, _, tr) := run indication_env 0%nat (recording_of 0) in
  x = Finished SWITCH_STATUS_FALSE /\
  count_events (opens_of IND_FH) tr = 1%nat /\ count_events (closes_of IND_FH) tr = 0%nat.
Proof. vm_compute. repeat split. Qed.

(** The score of a stereo frame reads as many samples past the frame as it has. *)
Example stereo_score_reads_past_frame :
  record_score (mkImplementation "L16" 8000 8000 160 20000 2 640 640) (mkReadFrame 640 (replicate 320 7) false) = None.
Proof. vm_compute. reflexivity. Qed.

(** A short frame at 16 kHz: the score divides by [1 / 2], which is 0. *)
Example short_frame_score_divides_by_zero :
  record_score (mkImplementation "L16" 16000 16000 320 20000 1 640 640) (mkReadFrame 2 (replicate 320 7) false) = None.
Proof. vm_compute. reflexivity. Qed.

(** One group of parameters before a relative path is kept in front of the
    prefixed path; of two groups the first is lost and the second ends up in the
    path. *)
Example one_group_kept :
  prefixed_path "/sounds" "{rate=8000} vm/msg.wav" = "{rate=8000}/sounds/vm/msg.wav".
Proof. vm_compute. reflexivity. Qed.
Example second_group_breaks_path :
  prefixed_path "/sounds" "{rate=8000}{title=a}vm/msg.wav" = "/sounds/{title=a}vm/msg.wav".
Proof. vm_compute. reflexivity. Qed.
