(* ===== verification/GenTones.v ===== *)
(** * Tones and the handle of a playback: [switch_ivr_gentones],
    [teletone_handler], [switch_ivr_get_file_handle] and
    [switch_ivr_release_file_handle] of [src/switch_ivr_play_say.c]

    The tone generator of the core parses the script and hands every tone to
    the handler, which renders it into a buffer; the loop plays the buffer. *)

From Stdlib Require Import Ascii String.
From S2P Require Import Prelude Interaction SwitchCore SpeakText FileCalls.

#[local] Open Scope string_scope.
#[local] Open Scope list_scope.
#[local] Open Scope Z_scope.

Section GenTones.
Context `{FileDefs}.
Context (args : option input_args).

(** ** The tone generator *)

(** [teletone_handler]: [audio_buffer] is whether there is a buffer. *)
Definition teletone_handler (audio_buffer : bool) : FM Z :=
  if negb audio_buffer then mret (-1)
  else
    tone ← invoke f_teletone_mux_tones;
    invoke (f_buffer_write TONE_BUFFER tone) ;; mret 0.

(** [teletone_run]: the handler is called for every tone of the script. *)
Fixpoint call_handler (tones : nat) : FM unit :=
  match tones with
  | O => mret tt
  | S tones' => teletone_handler true ;; call_handler tones'
  end.
Definition teletone_run (script : string) : FM unit :=
  tones ← invoke (f_teletone_run script); call_handler tones.

(** ** The loop, left without a result *)

Notation step A := (FM (flow A unit)).

Definition breaking {A} (m : FM (flow A switch_status_t)) : step A :=
  x ← m; mret (match x with Next a => Next a | Leave _ => Leave tt end).

(** [if (args) { ... }]: digits and events. *)
Definition tone_input (status : switch_status_t) : step unit :=
  match args with
  | None => next tt
  | Some a =>
      dtmf ← invoke f_has_dtmf;
      status ⟵ (if dtmf : bool then
                   if no_handler a then leave tt
                   else digit ← invoke f_dequeue_dtmf; breaking (feed_digit a digit status)
                 else next status);
      status ← input_event a status;
      if decide (status <> SUCCESS) then leave tt else next tt
  end.

(** A packet of the buffer; an empty one ends the tones. *)
Definition tone_packet (impl : codec_implementation) : step unit :=
  data ← invoke (f_buffer_read_loop TONE_BUFFER (decoded_bytes_per_packet impl));
  let datalen := Z.of_nat (length data) in
  if decide (datalen <= 0) then leave tt
  else
    st ← invoke (f_write_frame data datalen (datalen / 2));
    if decide (st <> SUCCESS) then leave tt else next tt.

Definition tone_body (impl : codec_implementation) (_ : unit) : step unit :=
  ready ← invoke f_channel_ready;
  if negb ready then leave tt
  else
    brk ← invoke (f_test_flag CF_BREAK);
    if decide (brk <> 0) then invoke (f_clear_flag CF_BREAK false) ;; leave tt
    else
      '(status, f) ← invoke (f_read_frame false);
      if negb (F_READ_ACCEPTABLE status) then leave tt
      else
        status ⟵ breaking (frame_callbacks args status);
        invoke f_parse_all_events ;;
        _ ⟵ tone_input status;
        tone_packet impl.

(** ** The function *)

Definition tone_end : FM unit :=
  invoke (f_codec_destroy WRITE_CODEC) ;; invoke (f_buffer_destroy TONE_BUFFER) ;; invoke f_teletone_destroy ;;
  check_stop args.

(** [arg_recursion_check_start] returns after the codec was initialised. *)
Definition switch_ivr_gentones (fuel : nat) (script : string) (loops : Z) : FM result :=
  impl ← invoke f_get_read_impl;
  pa ← invoke f_pre_answer;
  if decide (pa <> SUCCESS) then mret (Finished SWITCH_STATUS_FALSE)
  else
    '(st, _) ← invoke (f_codec_init WRITE_CODEC (actual_samples_per_second impl)
                         (microseconds_per_packet impl / 1000) (number_of_channels impl));
    if decide (st <> SUCCESS) then mret (Finished SWITCH_STATUS_FALSE)
    else
      ok ← check_start args;
      if negb ok then mret (Finished SWITCH_STATUS_GENERR)
      else
        invoke (f_buffer_create TONE_BUFFER) ;;
        invoke f_teletone_init ;;
        teletone_run script ;;
        (if decide (loops <> 0) then invoke (f_buffer_set_loops TONE_BUFFER loops) else mret tt) ;;
        x ← iterp (tone_body impl) fuel tt;
        match x with
        | None => mret OutOfFuel
        | Some _ => tone_end ;; mret (Finished SUCCESS)
        end.

(** ** The handle of the file that is played *)

(** [switch_ivr_get_file_handle]: [*fh] is set when there is one. *)
Definition switch_ivr_get_file_handle : FM (switch_status_t * bool) :=
  invoke f_io_read_lock ;;
  fhp ← invoke f_get_private;
  if fhp : bool then mret (SUCCESS, true)
  else invoke f_io_rwunlock ;; mret (SWITCH_STATUS_FALSE, false).

Definition switch_ivr_release_file_handle : FM switch_status_t :=
  invoke f_io_rwunlock ;; mret SUCCESS.

(** ** What is opened and closed *)

(** Codecs, buffers, generators and marks in use; whether the mark was refused. *)
Record tone_use := mkToneUse { t_codec : Z; t_buffer : Z; t_session : Z; t_mark : Z; refused : bool }.

Definition tone_upd (g : tone_use) (e : event fresp) : tone_use :=
  let '(mkToneUse c b s m r) := g in
  match e with
  | Ev (f_codec_init _ _ _ _) x => mkToneUse (if decide (x.1 = SUCCESS) then c + 1 else c) b s m r
  | Ev (f_codec_destroy _) _ => mkToneUse (c - 1) b s m r
  | Ev (f_buffer_create _) _ => mkToneUse c (b + 1) s m r
  | Ev (f_buffer_destroy _) _ => mkToneUse c (b - 1) s m r
  | Ev f_teletone_init _ => mkToneUse c b (s + 1) m r
  | Ev f_teletone_destroy _ => mkToneUse c b (s - 1) m r
  | Ev f_recursion_start ok => if ok : bool then mkToneUse c b s (m + 1) r else mkToneUse c b s m true
  | Ev f_recursion_stop _ => mkToneUse c b s (m - 1) r
  | _ => g
  end.

Definition tone_keeps (c : fcall) : bool :=
  match c with
  | f_codec_init _ _ _ _ | f_codec_destroy _ | f_buffer_create _ | f_buffer_destroy _ | f_teletone_init
  | f_teletone_destroy | f_recursion_start | f_recursion_stop => false
  | _ => true
  end.

Notation wpg := (wp any_answer tone_upd).

Lemma tone_next {A B} (m : FM A) (f : A -> FM B) g (Q : tone_use -> B -> Prop) :
  only tone_keeps m -> (forall a, wpg (f a) g Q) -> wpg (m ≫= f) g Q.
Proof using Type.
  intros Hm Hf. apply wp_bind, (wp_only tone_keeps); [|exact Hm | exact Hf].
  intros c [] r Hc. destruct c; try reflexivity; discriminate Hc.
Qed.

Lemma keeps_run script : only tone_keeps (teletone_run script).
Proof using Type.
  unfold teletone_run. only_run. induction a as [|n IH]; [exact I|]. cbn [call_handler].
  unfold teletone_handler. only_run.
Qed.

Lemma keeps_body impl i : only tone_keeps (tone_body impl i).
Proof using Type.
  unfold tone_body, tone_input, tone_packet, breaking, frame_callbacks, feed_digit, input_event. only_run.
Qed.

(** Generating tones gives back the codec, the buffer, the generator and the
    mark of the arguments exactly once on every path on which it returns, but
    for one: when the nesting of calls is refused, the codec that was already
    initialised is not destroyed. *)
Theorem gentones_releases fuel script loops tr st :
  exec (switch_ivr_gentones fuel script loops) tr (Finished st) ->
  exists r, ghost tone_upd (mkToneUse 0 0 0 0 false) tr = mkToneUse (if r : bool then 1 else 0) 0 0 0 r /\
    (r = true -> st = SWITCH_STATUS_GENERR).
Proof using Type.
  intros Hex.
  refine (wp_any tone_upd _ _ (fun g x => forall st, x = Finished st ->
    exists r, g = mkToneUse (if r : bool then 1 else 0) 0 0 0 r /\ (r = true -> st = SWITCH_STATUS_GENERR)) _ _ _ Hex _ eq_refl).
  assert (H0 : forall st, exists r, mkToneUse 0 0 0 0 false = mkToneUse (if r : bool then 1 else 0) 0 0 0 r /\
    (r = true -> st = SWITCH_STATUS_GENERR)) by (intros st'; by exists false).
  clear - H0. unfold switch_ivr_gentones.
  apply tone_next; [only_run | intros impl]. apply tone_next; [only_run | intros pa].
  case_decide; [intros st _; apply H0|].
  intros [st ci] _. cbn [mbind prog_bind bindp tone_upd fst]. destruct (decide (st = SUCCESS)) as [Hs|Hs].
  2: { rewrite decide_True by done. intros st' _. apply H0. }
  rewrite decide_False by (by intros Hn). apply wp_bind. change (0 + 1) with 1.
  apply wp_mono with (Q := fun g ok =>
    if ok : bool then g = mkToneUse 1 0 0 (match args with Some _ => 1 | None => 0 end) false
    else g = mkToneUse 1 0 0 0 true).
  2: { unfold check_start. destruct args; [by intros [] _ | done]. }
  intros g [] ->; cbn [negb].
  2: { intros st' [= <-]. by exists true. }
  intros [] _. cbn [mbind prog_bind bindp]. intros [] _. cbn [bindp].
  cbn [tone_upd ev_call ev_resp]. change (0 + 1) with 1.
  apply tone_next; [apply keeps_run | intros _]. apply tone_next; [only_run | intros _].
  apply tone_next; [apply only_iterp, keeps_body | intros [[]|]]; [|done].
  unfold tone_end, check_stop. apply wp_bind. intros [] _ [] _ [] _.
  destruct args; [intros [] _|]; intros st' _; by exists false.
Qed.

(** The lock of the session is held exactly after a successful
    [switch_ivr_get_file_handle], until the handle is released. *)
Definition lock_upd (n : Z) (e : event fresp) : Z :=
  match e with
  | Ev f_io_read_lock _ | Ev f_io_write_lock _ => n + 1
  | Ev f_io_rwunlock _ => n - 1
  | _ => n
  end.

Lemma file_handle_lock tr st fh :
  exec switch_ivr_get_file_handle tr (st, fh) ->
  ghost lock_upd 0 tr = (if fh then 1 else 0) /\ (fh = true <-> st = SUCCESS).
Proof using Type.
  intros Hex. refine (wp_any lock_upd _ _ (fun n x => n = (if x.2 : bool then 1 else 0) /\ (x.2 = true <-> x.1 = SUCCESS)) _ _ _ Hex).
  intros [] _ fhp _. destruct fhp; [done|]. intros [] _. done.
Qed.

End GenTones.

(** ** Witnesses *)

#[local] Existing Instance sample_files.

(** Two tones are rendered and played in four packets, then the buffer is empty. *)
Definition tone_env (packets : nat) (c : fcall) : fresp c * nat :=
  match c return fresp c * nat with
  | f_teletone_run _ => (2%nat, packets)
  | f_teletone_mux_tones => (replicate 640 1, packets)
  | f_buffer_read_loop _ n => (match packets with O => [] | _ => replicate (Z.to_nat n) 1 end, pred packets)
  | c => (benign c, packets)
  end.

Definition beep : FM result := switch_ivr_gentones (Some (mkArgs true true false false)) 10 "%(200,0,440)" 1.
Definition beep_run : result * ftrace := let '(x, _, tr) := run tone_env 4%nat beep in (x, tr).

Lemma beep_exec : exec beep beep_run.2 (Finished SUCCESS).
Proof.
  assert (beep_run.1 = Finished SUCCESS) as <- by (vm_compute; reflexivity).
  unfold beep_run. pose proof (run_exec tone_env beep 4%nat) as E.
  by destruct (run tone_env 4%nat beep) as [[x w] tr].
Qed.

Definition packets_played (tr : ftrace) : nat :=
  count_events (fun e => match ev_call e with f_write_frame _ _ _ => true | _ => false end) tr.

Lemma gentones_releases_witness :
  (exists r, ghost tone_upd (mkToneUse 0 0 0 0 false) beep_run.2 = mkToneUse (if r : bool then 1 else 0) 0 0 0 r /\
    (r = true -> SUCCESS = SWITCH_STATUS_GENERR)) /\
  packets_played beep_run.2 = 4%nat.
Proof.
  split; [|vm_compute; reflexivity]. exact (gentones_releases _ 10%nat "%(200,0,440)" 1 _ _ beep_exec).
Defined.

(** The nesting is refused: the codec stays. *)
Definition nested_answers (c : fcall) : fresp c := match c with f_recursion_start => false | c => benign c end.
Example nested_tones_keep_codec :
  ghost tone_upd (mkToneUse 0 0 0 0 false) (run (fun (w : unit) c => (nested_answers c, w)) tt beep).2 =
  mkToneUse 1 0 0 0 true.
Proof. vm_compute. reflexivity. Qed.
