(* ===== verification/PlaySpeed.v ===== *)
(** * Playing faster and slower: the speed of [switch_ivr_play_file] in
    [src/switch_ivr_play_say.c]

    A packet of [olen] samples is written to the second buffer of the handle
    without every [step + 1]-th sample, or with an average after every [step]
    samples.  [data] is the memory of the packet buffer as 16-bit samples; a
    read past it is [None]. *)

From S2P Require Import Prelude.

#[local] Open Scope list_scope.
#[local] Open Scope Z_scope.

(** [n] samples at [bp]. *)
Definition chunk (data : list Z) (bp n : Z) : option (list Z) :=
  if decide (0 <= bp /\ 0 <= n /\ bp + n <= Z.of_nat (length data))
  then Some (take (Z.to_nat n) (drop (Z.to_nat bp) data)) else None.

(** [s = (short) ((float) ( *bp + *(bp + 1) + *(bp - 1)) / 3)]: the sum is exact
    in a [float], and rounding the quotient does not reach an integer. *)
Definition average (data : list Z) (bp : Z) : option Z :=
  a ← rd data bp; b ← rd data (bp + 1); c ← rd data (bp - 1); Some (Z.quot (a + b + c) 3).

(** [factor = 0.25 * abs(speed); supplement = (int) (factor * olen)], at least 1. *)
Definition supplement (speed olen : Z) : Z :=
  let s := Z.abs speed * olen / 4 in if decide (s = 0) then 1 else s.

Definition newlen (speed olen : Z) : Z :=
  if decide (0 < speed) then olen - supplement speed olen else olen + supplement speed olen.

Definition speed_step (speed olen : Z) : Z :=
  if decide (0 < speed) then newlen speed olen / supplement speed olen else olen / supplement speed olen.

(** The loop: what is written to the buffer from [bp] and [wrote] on, with the
    [bp] and [wrote] it ends with. *)
Fixpoint speed_loop (fuel : nat) (speed : Z) (data : list Z) (step newlen bp wrote : Z)
  : option (list (list Z) * Z * Z) :=
  match fuel with
  | O => None
  | S fuel' =>
      if decide (wrote + step < newlen) then
        c ← chunk data bp step;
        if decide (0 < speed) then
          '(out, bp', wrote') ← speed_loop fuel' speed data step newlen (bp + step + 1) (wrote + step);
          Some (c :: out, bp', wrote')
        else
          s ← average data (bp + step);
          '(out, bp', wrote') ← speed_loop fuel' speed data step newlen (bp + step) (wrote + step + 1);
          Some (c :: [s] :: out, bp', wrote')
      else Some ([], bp, wrote)
  end.

(** The writes to the second buffer, one list each. *)
Definition change_speed (speed : Z) (data : list Z) (olen : Z) : option (list (list Z)) :=
  let n := newlen speed olen in
  '(out, bp, wrote) ← speed_loop (S (Z.to_nat n)) speed data (speed_step speed olen) n 0 0;
  if decide (wrote < n) then c ← chunk data bp (n - wrote); Some (out ++ [c]) else Some out.

(** ** The lengths *)

Lemma supplement_pos speed olen : 0 <= olen -> 1 <= supplement speed olen.
Proof.
  intros Ho. unfold supplement. pose proof (Z.div_pos (Z.abs speed * olen) 4 ltac:(nia) ltac:(lia)).
  cbv zeta. case_decide; lia.
Qed.

Lemma chunk_Some data bp n : 0 <= bp -> 0 <= n -> bp + n <= Z.of_nat (length data) ->
  chunk data bp n = Some (take (Z.to_nat n) (drop (Z.to_nat bp) data)).
Proof. intros. unfold chunk. by rewrite decide_True. Qed.

Lemma average_Some data bp : 1 <= bp -> bp + 1 < Z.of_nat (length data) -> is_Some (average data bp).
Proof.
  intros Hb Hl. unfold average. rewrite !rd_nat by lia.
  destruct (lookup_lt_is_Some_2 data (Z.to_nat bp)) as [a ->]; [lia|].
  destruct (lookup_lt_is_Some_2 data (Z.to_nat (bp + 1))) as [b ->]; [lia|].
  destruct (lookup_lt_is_Some_2 data (Z.to_nat (bp - 1))) as [c ->]; [lia|].
  cbn [mbind option_bind]. by eexists.
Qed.

(** The samples between [bp] and [bp + n]. *)
Definition span (data : list Z) (bp n : Z) : list Z := take (Z.to_nat n) (drop (Z.to_nat bp) data).

Lemma span_split data bp n k : 0 <= bp -> 0 <= n -> 0 <= k ->
  span data bp (n + k) = span data bp n ++ span data (bp + n) k.
Proof.
  intros Hb Hn Hk. unfold span. rewrite !Z2Nat.inj_add by lia. by rewrite <- take_take_drop, drop_drop.
Qed.

Lemma length_span data bp n : 0 <= bp -> 0 <= n -> bp + n <= Z.of_nat (length data) ->
  Z.of_nat (length (span data bp n)) = n.
Proof. intros. unfold span. rewrite length_take, length_drop. lia. Qed.

Section Fast.
Context (speed : Z) (Hspeed : 0 < speed) (data : list Z) (step n sup : Z).
Hypothesis Hstep : 1 <= step.
Hypothesis Hsup : forall j, 0 <= j -> j * step < n -> j <= sup.
Hypothesis Hlen : n + sup <= Z.of_nat (length data).

(** After [i] rounds, [i * step] samples were written of [i * (step + 1)]. *)
Lemma fast_loop fuel : forall i, 0 <= i <= sup -> Z.max 0 (n - i * step) < Z.of_nat fuel ->
  exists out i', speed_loop fuel speed data step n (i * (step + 1)) (i * step) = Some (out, i' * (step + 1), i' * step) /\
    i <= i' <= sup /\ n <= i' * step + step /\ (i' = i \/ i' * step < n) /\
    Z.of_nat (length (concat out)) = (i' - i) * step /\
    concat out `sublist_of` span data (i * (step + 1)) ((i' - i) * (step + 1)).
Proof using Hspeed Hstep Hsup Hlen.
  induction fuel as [|fuel IH]; intros i Hi Hf; [lia|]. cbn [speed_loop].
  destruct (decide (i * step + step < n)) as [Hlt|Hge].
  - assert (Hi1 : i + 1 <= sup) by (apply Hsup; lia).
    rewrite chunk_Some by nia. cbn [mbind option_bind]. rewrite decide_True by done.
    replace (i * (step + 1) + step + 1) with ((i + 1) * (step + 1)) by ring.
    replace (i * step + step) with ((i + 1) * step) by ring.
    destruct (IH (i + 1)) as (out & i' & E & Hi' & Hn & Hw & Hl & Hs); [lia..|].
    rewrite E. cbn [mbind option_bind]. eexists _, i'. split; [reflexivity|].
    split; [lia|]. split; [lia|]. split; [destruct Hw as [->|Hw]; lia|].
    cbn [concat]. rewrite length_app, Nat2Z.inj_add, Hl.
    change (take (Z.to_nat step) (drop (Z.to_nat (i * (step + 1))) data)) with (span data (i * (step + 1)) step).
    rewrite length_span by nia. split; [ring|].
    replace ((i' - i) * (step + 1)) with (step + (1 + (i' - (i + 1)) * (step + 1))) by ring.
    rewrite !span_split by nia. apply sublist_app; [done|]. apply sublist_inserts_l.
    by replace (i * (step + 1) + step + 1) with ((i + 1) * (step + 1)) by ring.
  - eexists [], i. split; [reflexivity|]. replace (i - i) with 0 by lia. split; [lia|]. split; [lia|].
    split; [by left|]. split; [reflexivity | apply sublist_nil_l].
Qed.
End Fast.

Section Slow.
Context (speed : Z) (Hspeed : speed < 0) (data : list Z) (step n sup : Z).
Hypothesis Hstep : 1 <= step.
Hypothesis Hsup : forall j, 0 <= j -> j * (step + 1) + step < n -> j < sup.
Hypothesis Hlen : sup * step + 2 <= Z.of_nat (length data).

Lemma slow_loop fuel : forall i, 0 <= i <= sup -> Z.max 0 (n - i * (step + 1)) < Z.of_nat fuel ->
  exists out i', speed_loop fuel speed data step n (i * step) (i * (step + 1)) = Some (out, i' * step, i' * (step + 1)) /\
    i <= i' <= sup /\ n <= i' * (step + 1) + step /\
    Z.of_nat (length (concat out)) = (i' - i) * (step + 1) /\
    span data (i * step) ((i' - i) * step) `sublist_of` concat out.
Proof using Hspeed Hstep Hsup Hlen.
  induction fuel as [|fuel IH]; intros i Hi Hf; [lia|]. cbn [speed_loop].
  destruct (decide (i * (step + 1) + step < n)) as [Hlt|Hge].
  - assert (Hi1 : i < sup) by (apply Hsup; lia).
    rewrite chunk_Some by nia. cbn [mbind option_bind]. rewrite decide_False by lia.
    destruct (average_Some data (i * step + step)) as [a ->]; [nia..|]. cbn [mbind option_bind].
    replace (i * step + step) with ((i + 1) * step) by ring.
    replace (i * (step + 1) + step + 1) with ((i + 1) * (step + 1)) by ring.
    destruct (IH (i + 1)) as (out & i' & E & Hi' & Hn & Hl & Hs); [lia..|].
    rewrite E. cbn [mbind option_bind]. eexists _, i'. split; [reflexivity|].
    split; [lia|]. split; [lia|]. cbn [concat]. rewrite !length_app, !Nat2Z.inj_add, Hl.
    change (take (Z.to_nat step) (drop (Z.to_nat (i * step)) data)) with (span data (i * step) step).
    rewrite length_span by nia. split; [cbn [length]; ring|].
    replace ((i' - i) * step) with (step + (i' - (i + 1)) * step) by ring. rewrite span_split by nia.
    apply sublist_app; [done|]. apply sublist_inserts_l. by replace (i * step + step) with ((i + 1) * step) by ring.
  - eexists [], i. split; [reflexivity|]. replace (i - i) with 0 by lia.
    split; [lia|]. split; [lia|]. split; [reflexivity|]. unfold span. apply sublist_nil_l.
Qed.
End Slow.

(** ** The numbers *)

(** A packet of at least two samples: [olen = d * a + b] for a supplement [a]. *)
Lemma supplement_spec speed olen : 1 <= Z.abs speed <= 2 -> 1 <= olen ->
  let s := supplement speed olen in
  1 <= s /\ ((olen < 4 /\ s = 1) \/ (Z.abs speed = 1 /\ 4 * s <= olen < 4 * s + 4) \/
             (Z.abs speed = 2 /\ 2 * s <= olen < 2 * s + 2)).
Proof.
  intros Hs Ho. unfold supplement. cbv zeta.
  assert (Z.abs speed = 1 \/ Z.abs speed = 2) as [E|E] by lia; rewrite E; case_decide; div_lia.
Qed.

(** A remainder is at most the quotient when the number is not far above a
    multiple of the divisor. *)
Lemma remainder_small m s c : 1 <= s -> 1 <= c -> c * s <= m < c * s + c + 1 -> m - m / s * s <= m / s.
Proof.
  intros Hs Hc Hm. pose proof (Z.div_mod m s ltac:(lia)) as E. pose proof (Z.mod_pos_bound m s ltac:(lia)).
  assert (c <= m / s) by (apply Z.div_le_lower_bound; lia).
  destruct (decide (m / s = c)) as [->|]; [lia|]. assert ((c + 1) * s <= m / s * s) by (apply Z.mul_le_mono_nonneg_r; lia). lia.
Qed.

Lemma rounds_bound m s j : 1 <= s -> 0 <= j -> m - m / s * s <= m / s -> j * (m / s) < m -> j <= s.
Proof.
  intros Hs Hj Hr Hlt. destruct (Z.le_gt_cases j s) as [|Hgt]; [done|].
  pose proof (Z.div_mod m s ltac:(lia)). pose proof (Z.mod_pos_bound m s ltac:(lia)).
  assert ((s + 1) * (m / s) <= j * (m / s)) by (apply Z.mul_le_mono_nonneg_r; lia). lia.
Qed.

(** [C39] Changing the speed stays inside the packet and has the announced length:
    a faster packet has [olen - supplement] samples, all of them samples of the
    packet in order; a slower one has [olen + supplement], and every sample of
    the packet is among them in order.  A slower packet also reads the two
    samples of memory after the packet. *)
Theorem change_speed_ok speed data olen :
  1 <= Z.abs speed <= 2 -> 1 <= olen -> olen + (if decide (0 < speed) then 0 else 2) <= Z.of_nat (length data) ->
  exists out, change_speed speed data olen = Some out /\
    Z.of_nat (length (concat out)) = newlen speed olen /\
    if decide (0 < speed) then concat out `sublist_of` take (Z.to_nat olen) data
    else take (Z.to_nat olen) data `sublist_of` concat out.
Proof.
  intros Hs Ho Hl. destruct (supplement_spec speed olen Hs Ho) as [Hp Hcase].
  unfold change_speed, newlen, speed_step, newlen. cbv zeta. set (sup := supplement speed olen) in *.
  destruct (decide (0 < speed)) as [Hpos|Hneg].
  - set (n := olen - sup). assert (Hn : sup <= n \/ (n = 0 /\ sup = 1 /\ olen = 1)) by lia.
    destruct Hn as [Hn|(-> & _ & ->)].
    2: { exists []. repeat split. apply sublist_nil_l. }
    assert (Hr : n - n / sup * sup <= n / sup).
    { destruct Hcase as [[_ ->]|[[E1 E2]|[E1 E2]]].
      - rewrite Z.div_1_r. lia.
      - apply (remainder_small n sup 3); lia.
      - apply (remainder_small n sup 1); lia. }
    assert (Hq : 1 <= n / sup) by (apply Z.div_le_lower_bound; lia).
    destruct (fast_loop speed Hpos data (n / sup) n sup Hq (fun j Hj => rounds_bound n sup j Hp Hj Hr) ltac:(lia)
      (S (Z.to_nat n)) 0 ltac:(lia) ltac:(lia)) as (out & i & E & Hi & Hw & Hlast & Hlo & Hsub).
    change (0 * (n / sup + 1)) with 0 in E, Hsub. change (0 * (n / sup)) with 0 in E.
    rewrite E. cbn [mbind option_bind]. rewrite Z.sub_0_r in Hsub, Hlo.
    assert (Hb : i * (n / sup + 1) + (n - i * (n / sup)) <= olen) by lia.
    change (take (Z.to_nat olen) data) with (span data 0 olen).
    rewrite decide_True by (destruct Hlast as [->|]; lia).
    rewrite chunk_Some by nia. cbn [mbind option_bind]. eexists. split; [reflexivity|].
    change (take _ (drop _ data)) with (span data (i * (n / sup + 1)) (n - i * (n / sup))).
    rewrite concat_app, length_app, Nat2Z.inj_add, Hlo. cbn [concat]. rewrite app_nil_r, length_span by nia.
    split; [lia|].
    replace olen with (i * (n / sup + 1) + ((n - i * (n / sup)) + (olen - i * (n / sup + 1) - (n - i * (n / sup))))) by ring.
    rewrite !span_split by nia. rewrite Z.add_0_l. apply sublist_app; [done|]. by apply sublist_inserts_r.
  - set (n := olen + sup). set (q := olen / sup).
    pose proof (Z.div_mod olen sup ltac:(lia)) as Eq. pose proof (Z.mod_pos_bound olen sup ltac:(lia)) as Er.
    fold q in Eq. set (r := olen mod sup) in *.
    assert (Hr : olen - q * sup <= q).
    { destruct Hcase as [[_ E]|[[E1 E2]|[E1 E2]]].
      - unfold q. rewrite E, Z.div_1_r. lia.
      - apply (remainder_small olen sup 4); lia.
      - apply (remainder_small olen sup 2); lia. }
    assert (Hq : 1 <= q) by (apply Z.div_le_lower_bound; lia).
    assert (Hsup : forall j, 0 <= j -> j * (q + 1) + q < n -> j < sup).
    { intros j Hj Hlt. destruct (Z.lt_ge_cases j sup) as [|Hge]; [done|].
      assert (sup * (q + 1) <= j * (q + 1)) by (apply Z.mul_le_mono_nonneg_r; lia). lia. }
    destruct (slow_loop speed ltac:(lia) data q n sup Hq Hsup ltac:(lia) (S (Z.to_nat n)) 0 ltac:(lia) ltac:(lia))
      as (out & i & E & Hi & Hw & Hlo & Hsub).
    assert (i = sup) as ->.
    { destruct (decide (i = sup)); [done|].
      assert (i * (q + 1) <= (sup - 1) * (q + 1)) by (apply Z.mul_le_mono_nonneg_r; lia). lia. }
    change (0 * q) with 0 in E, Hsub. change (0 * (q + 1)) with 0 in E.
    rewrite E. cbn [mbind option_bind]. rewrite Z.sub_0_r in Hsub, Hlo.
    change (take (Z.to_nat olen) data) with (span data 0 olen).
    case_decide as Hleft.
    + rewrite chunk_Some by lia. cbn [mbind option_bind]. eexists. split; [reflexivity|].
      change (take _ (drop _ data)) with (span data (sup * q) (n - sup * (q + 1))).
      rewrite concat_app, length_app, Nat2Z.inj_add, Hlo. cbn [concat]. rewrite app_nil_r, length_span by lia.
      split; [lia|]. replace olen with (sup * q + (n - sup * (q + 1))) by lia.
      rewrite span_split by lia. by apply sublist_app.
    + eexists. split; [reflexivity|]. split; [lia|]. by replace olen with (sup * q) by lia.
Qed.

Lemma change_speed_ok_witness :
  (exists out, change_speed 2 (seqZ 0 160) 160 = Some out /\ Z.of_nat (length (concat out)) = newlen 2 160 /\
     concat out `sublist_of` take 160 (seqZ 0 160)) /\
  newlen 2 160 = 80.
Proof.
  split; [|reflexivity].
  exact (change_speed_ok 2 (seqZ 0 160) 160 ltac:(lia) ltac:(lia) ltac:(vm_compute; discriminate)).
Defined.

(** The last average of a slower packet is made of the last sample and two
    samples that do not belong to the packet. *)
Example slow_packet_reads_past : forall a b,
  change_speed (-1) ([0; 0; 0; 0; 0; 0; 0; 3] ++ [a; b]) 8 =
  Some [[0; 0; 0; 0]; [0]; [0; 0; 0; 3]; [Z.quot (a + b + 3) 3]].
Proof. reflexivity. Qed.
