(* ===== verification/PlayFile.v ===== *)
(** * Playing files: [switch_ivr_play_file] of [src/switch_ivr_play_say.c]

    A list of files is played one after the other: each is opened, its audio
    goes through the buffer of its handle into packets, packets are sped up,
    padded, timed and written to the call, and everything is closed.  The
    packet buffer [abuf] is a list of bytes; the variables that live from one
    file to the next are the record [player]. *)

From Stdlib Require Import Ascii String.
From S2P Require Import Prelude Interaction SwitchCore SpeakText FileCalls PlaySpeed.

#[local] Open Scope string_scope.
#[local] Open Scope list_scope.
#[local] Open Scope Z_scope.

(** ** Memory *)

(** Bytes as little-endian 16-bit samples, and back. *)
Definition i16 (z : Z) : Z := (z + 2 ^ 15) mod 2 ^ 16 - 2 ^ 15.
Fixpoint samples_of (bytes : list Z) : list Z :=
  match bytes with
  | lo :: hi :: bytes' => i16 (lo + 256 * hi) :: samples_of bytes'
  | _ => []
  end.
Fixpoint bytes_of (samples : list Z) : list Z :=
  match samples with
  | [] => []
  | s :: samples' => (s mod 256) :: ((s / 256) mod 256) :: bytes_of samples'
  end.

(** [memset(buf + off, b, n)], for a pointer to bytes. *)
Definition mem_set (buf : list Z) (off b n : Z) : option (list Z) :=
  splice buf (Z.to_nat off) (replicate (Z.to_nat n) b).

Definition FILE_STARTSAMPLES : Z := 1024 * 32.

(** What a read of [framelen] bytes leaves in [abuf], which points to 16-bit
    samples: [memset(abuf + bread, 255, framelen - bread)] starts at the byte
    [2 * bread]. *)
Definition fill_packet (abuf data : list Z) (framelen : Z) : option (list Z) :=
  let bread := Z.of_nat (length data) in
  abuf ← splice abuf 0 data;
  if decide (bread < framelen) then mem_set abuf (2 * bread) 255 (framelen - bread) else Some abuf.

(** Padding a packet of [olen] to [llen], by bytes. *)
Definition pad_packet (abuf : list Z) (olen llen : Z) : option (list Z * Z) :=
  if decide (olen < llen) then (fun b => (b, llen)) <$> mem_set abuf olen 255 (llen - olen) else Some (abuf, olen).

(** ** The state *)

(** The variables that live across the files.  [p_codec] is the implementation
    of [codec] once it is initialised; [p_alloc] is [abuf != NULL], and the
    length of [p_abuf] is [write_frame.buflen]. *)
Record player := mkPlayer {
  p_alloc : bool;
  p_abuf : list Z;
  p_codec : option codec_implementation;
  p_timeout : Z;
  p_last_speed : Z;
  p_llen : Z;
  p_more : bool;
  p_backup : option string;
  p_sample_start : Z;
  p_status : switch_status_t;
  p_done : bool;
}.

Definition set_abuf (b : list Z) (p : player) : player :=
  mkPlayer true b (p_codec p) (p_timeout p) (p_last_speed p) (p_llen p) (p_more p) (p_backup p) (p_sample_start p)
    (p_status p) (p_done p).
Definition set_codec (c : option codec_implementation) (p : player) : player :=
  mkPlayer (p_alloc p) (p_abuf p) c (p_timeout p) (p_last_speed p) (p_llen p) (p_more p) (p_backup p)
    (p_sample_start p) (p_status p) (p_done p).
Definition set_timeout (t : Z) (p : player) : player :=
  mkPlayer (p_alloc p) (p_abuf p) (p_codec p) t (p_last_speed p) (p_llen p) (p_more p) (p_backup p)
    (p_sample_start p) (p_status p) (p_done p).
Definition set_last_speed (s : Z) (p : player) : player :=
  mkPlayer (p_alloc p) (p_abuf p) (p_codec p) (p_timeout p) s (p_llen p) (p_more p) (p_backup p)
    (p_sample_start p) (p_status p) (p_done p).
Definition set_packet (llen : Z) (more : bool) (p : player) : player :=
  mkPlayer (p_alloc p) (p_abuf p) (p_codec p) (p_timeout p) (p_last_speed p) llen more (p_backup p)
    (p_sample_start p) (p_status p) (p_done p).
Definition set_backup (b : option string) (p : player) : player :=
  mkPlayer (p_alloc p) (p_abuf p) (p_codec p) (p_timeout p) (p_last_speed p) (p_llen p) (p_more p) b
    (p_sample_start p) (p_status p) (p_done p).
Definition set_sample_start (n : Z) (p : player) : player :=
  mkPlayer (p_alloc p) (p_abuf p) (p_codec p) (p_timeout p) (p_last_speed p) (p_llen p) (p_more p) (p_backup p)
    n (p_status p) (p_done p).
Definition set_status (st : switch_status_t) (p : player) : player :=
  mkPlayer (p_alloc p) (p_abuf p) (p_codec p) (p_timeout p) (p_last_speed p) (p_llen p) (p_more p) (p_backup p)
    (p_sample_start p) st (p_done p).
Definition set_done (p : player) : player :=
  mkPlayer (p_alloc p) (p_abuf p) (p_codec p) (p_timeout p) (p_last_speed p) (p_llen p) (p_more p) (p_backup p)
    (p_sample_start p) (p_status p) true.

(** The variables of a file: [eof], [framelen], [last_native]. *)
Record playing := mkPlaying { l_player : player; l_eof : bool; l_framelen : Z; l_last_native : bool }.

Definition on_player (f : player -> player) (l : playing) : playing :=
  mkPlaying (f (l_player l)) (l_eof l) (l_framelen l) (l_last_native l).
Definition at_eof (l : playing) : playing := mkPlaying (l_player l) true (l_framelen l) (l_last_native l).
Definition with_format (framelen : Z) (native : bool) (l : playing) : playing :=
  mkPlaying (l_player l) (l_eof l) framelen native.

(** What does not change: the format of the call, [prefix], [timer_name],
    [timeout_as_success], [sleep_val_i]. *)
Record play_config := mkConfig {
  c_impl : codec_implementation;
  c_prefix : option string;
  c_timer_name : option string;
  c_timeout_as_success : bool;
  c_sleep_val : Z;
}.

Section PlayFile.
Context `{FileDefs}.
Context (args : option input_args).

(** ** The loop over the packets of a file *)

(** How it ends: with the variables at a [break], with undefined behaviour, or
    out of fuel while the call is on hold. *)
Inductive stop := Broke (l : playing) | Faulted | Starved.

Notation step A := (FM (flow A stop)).

Definition break_with {A} (st : switch_status_t) (l : playing) : step A := leave (Broke (on_player (set_status st) l)).
Definition break_done {A} (st : switch_status_t) (l : playing) : step A :=
  leave (Broke (on_player (fun p => set_done (set_status st p)) l)).

(** [if (args) { ... }]: digits and events; a digit nobody takes was dequeued. *)
Definition play_input (l : playing) : step playing :=
  match args with
  | None => next l
  | Some a =>
      dtmf ← invoke f_has_dtmf;
      status ⟵ (if dtmf : bool then
                   digit ← invoke f_dequeue_dtmf;
                   if no_handler a then break_done BREAK l
                   else
                     x ← feed_digit a digit (p_status (l_player l));
                     match x with Next st => next st | Leave st => break_with st l end
                 else next (p_status (l_player l)));
      status ← input_event a status;
      if decide (status <> SUCCESS) then break_done status l else next (on_player (set_status status) l)
  end.

(** The packet buffer grows with the channels of the file. *)
Definition play_grow (l : playing) : FM playing :=
  cur ← invoke (f_get FH fh_cur_channels);
  ch ← (if decide (0 < cur) then mret cur else invoke (f_get FH fh_channels));
  let old := p_abuf (l_player l) in
  let buflen := u32 (FILE_STARTSAMPLES * 2 * ch) in
  if decide (Z.of_nat (length old) < buflen) then
    ext ← invoke (f_realloc buflen);
    let n := (Z.to_nat buflen - length old)%nat in
    mret (on_player (set_abuf (old ++ take n (ext ++ replicate n 0))) l)
  else mret l.

(** Where a packet comes from: it has [olen] samples (bytes, when native) and may
    be changed in speed, or the loop goes on without one. *)
Inductive packet := Got (l : playing) (olen : Z) (do_speed : bool) | Again (l : playing).

(** A paused file. *)
Definition source_pause (ilen : Z) (l : playing) : step packet :=
  let framelen := Z.min (l_framelen l) FILE_STARTSAMPLES in
  match mem_set (p_abuf (l_player l)) 0 255 framelen with
  | None => leave Faulted
  | Some b => next (Got (with_format framelen (l_last_native l) (on_player (set_abuf b) l)) ilen false)
  end.

(** [fh->b && (eof || inuse(fh->b) > framelen)] *)
Definition buffer_ready (b : buffer) (l : playing) : FM bool :=
  there ← invoke (f_buffer_exists b);
  if there : bool then
    if l_eof l then mret true else n ← invoke (f_buffer_inuse b); mret (bool_decide (l_framelen l < n))
  else mret false.

Definition native : FM bool := invoke (f_file_flag FH SWITCH_FILE_NATIVE).

Definition add_offset (n : Z) : FM unit :=
  pos ← invoke (f_get FH fh_offset_pos); (invoke (f_set FH fh_offset_pos (u32 (pos + n))) : FM unit).

(** A packet out of a buffer: of [fh->audio_buffer] the position is counted. *)
Definition source_buffer (b : buffer) (ilen : Z) (l : playing) : step packet :=
  data ← invoke (f_buffer_read b (l_framelen l));
  let bread := Z.of_nat (length data) in
  if decide (bread = 0) then if l_eof l then leave (Broke l) else next (Again l)
  else
    (if decide (b = AUDIO_BUFFER) then n ← native; add_offset (if n : bool then bread else bread / 2) else mret tt) ;;
    match fill_packet (p_abuf (l_player l)) data (l_framelen l) with
    | None => leave Faulted
    | Some abuf =>
        n ← native;
        next (Got (on_player (set_abuf abuf) l) (if n : bool then l_framelen l else ilen) (bool_decide (b = AUDIO_BUFFER)))
    end.

(** The format of the file changed while it was read; [None] when the file
    is native now and the packets of the call have no size: [framelen] is 0. *)
Definition change_format (c : play_config) (test_native : bool) (l : playing) : step (option playing) :=
  if bool_decide (test_native = l_last_native l) then next (Some (with_format (l_framelen l) test_native l))
  else if test_native then
    if decide (encoded_bytes_per_packet (c_impl c) = 0) then next None
    else
      invoke (f_buffer_zero AUDIO_BUFFER) ;;
      next (Some (with_format (encoded_bytes_per_packet (c_impl c)) test_native l))
  else
    match p_codec (l_player l) with
    | None => leave Faulted
    | Some ci =>
        invoke (f_buffer_zero AUDIO_BUFFER) ;; next (Some (with_format (decoded_bytes_per_packet ci) test_native l))
    end.

(** [abuf], of which [n] bytes are written to the buffer of the file, and a
    packet that is read back. *)
Definition buffer_file (n : Z) (l : playing) : step packet :=
  let abuf := p_abuf (l_player l) in
  if decide (Z.of_nat (length abuf) < n) then leave Faulted
  else
    invoke (f_buffer_write AUDIO_BUFFER (take (Z.to_nat n) abuf)) ;;
    data ← invoke (f_buffer_read AUDIO_BUFFER (l_framelen l));
    let olen := Z.of_nat (length data) in
    add_offset (olen / 2) ;;
    match splice abuf 0 data with
    | None => leave Faulted
    | Some abuf =>
        nat ← native;
        next (Got (on_player (set_abuf abuf) l) (if nat : bool then olen else olen / 2) true)
    end.

(** Reading from the file. *)
Definition source_file (c : play_config) (l : playing) : step packet :=
  if l_eof l then leave (Broke l)
  else
    nat ← native;
    invoke (f_set_file_flag SWITCH_FILE_BREAK_ON_CHANGE) ;;
    '(rstatus, olen, data) ← invoke (f_file_read FH (if nat : bool then FILE_STARTSAMPLES else FILE_STARTSAMPLES / 2));
    match splice (p_abuf (l_player l)) 0 data with
    | None => leave Faulted
    | Some abuf =>
        let l := on_player (set_abuf abuf) l in
        if decide (rstatus = BREAK) then next (Again l)
        else if decide (rstatus <> SUCCESS) then next (Again (at_eof l))
        else
          test_native ← native;
          f ⟵ change_format c test_native l;
          match f with
          | None => next (Again (at_eof (with_format 0 (l_last_native l) l)))
          | Some l =>
              nat ← native;
              n ← (if nat : bool then mret olen else ch ← invoke (f_get FH fh_channels); mret (olen * 2 * ch));
              buffer_file n l
          end
    end.

Definition play_source (c : play_config) (ilen : Z) (l : playing) : step packet :=
  paused ← invoke (f_file_flag FH SWITCH_FILE_PAUSE);
  if paused : bool then source_pause ilen l
  else
    sp ← buffer_ready SP_AUDIO_BUFFER l;
    if sp : bool then source_buffer SP_AUDIO_BUFFER ilen l
    else
      audio ← buffer_ready AUDIO_BUFFER l;
      if audio : bool then source_buffer AUDIO_BUFFER ilen l else source_file c l.

(** ** What is done with a packet *)

(** [fh->speed] is kept between -2 and 2. *)
Definition clamp_speed : FM Z :=
  s ← invoke (f_get FH fh_speed);
  if decide (2 < s) then invoke (f_set FH fh_speed 2) ;; mret 2
  else if decide (s < -2) then invoke (f_set FH fh_speed (-2)) ;; mret (-2)
  else mret s.

Fixpoint write_chunks (chunks : list (list Z)) : FM unit :=
  match chunks with
  | [] => mret tt
  | c :: chunks' => invoke (f_buffer_write SP_AUDIO_BUFFER (bytes_of c)) ;; write_chunks chunks'
  end.

(** The speed of a file that is not native (0 otherwise), read once; what is in
    the second buffer is dropped when it has changed. *)
Definition play_flush (l : playing) : FM Z :=
  n ← native;
  if n : bool then mret 0
  else
    speed ← clamp_speed;
    audio ← invoke (f_buffer_exists AUDIO_BUFFER);
    let last := p_last_speed (l_player l) in
    (if audio && bool_decide (-1 < last) && bool_decide (last <> speed)
     then invoke (f_buffer_zero SP_AUDIO_BUFFER) else mret tt) ;;
    mret speed.

(** The file position has changed: the buffer is flushed. *)
Definition play_seek : FM unit :=
  seek ← invoke (f_file_flag FH SWITCH_FILE_SEEK);
  if seek : bool then (invoke (f_buffer_zero AUDIO_BUFFER) ;; invoke (f_clear_file_flag SWITCH_FILE_SEEK) : FM unit)
  else mret tt.

(** A packet in another speed goes to the second buffer. *)
Definition play_stretch (speed olen : Z) (do_speed : bool) (l : playing) : step packet :=
  n ← native;
  if negb n && bool_decide (speed <> 0) && do_speed then
    sp ← invoke (f_buffer_exists SP_AUDIO_BUFFER);
    (if sp : bool then mret tt else invoke (f_buffer_create SP_AUDIO_BUFFER)) ;;
    match change_speed speed (samples_of (p_abuf (l_player l))) olen with
    | None => leave Faulted
    | Some chunks => write_chunks chunks ;; next (Again (on_player (set_last_speed speed) l))
    end
  else next (Got l olen do_speed).

(** [while (ready && CF_HOLD)] *)
Definition hold_body (_ : unit) : FM (flow unit unit) :=
  ready ← invoke f_channel_ready;
  if negb ready then leave tt
  else
    hold ← invoke (f_test_flag CF_HOLD);
    if decide (hold <> 0) then invoke f_parse_all_messages ;; invoke (f_yield 10000) ;; next tt else leave tt.

(** The callbacks on the frame read from the call. *)
Definition play_callbacks (l : playing) : step playing :=
  match args with
  | None => next l
  | Some a =>
      l ⟵ (if args_dmachine a then
              st ← invoke f_dmachine_ping;
              if decide (st <> SUCCESS) then break_with st l else next (on_player (set_status st) l)
            else next l);
      if read_frame_callback a then
        invoke (f_set_file_flag SWITCH_FILE_CALLBACK) ;;
        st ← invoke f_read_frame_callback;
        invoke (f_clear_file_flag SWITCH_FILE_CALLBACK) ;;
        if decide (st <> SUCCESS) then break_with st l else next (on_player (set_status st) l)
      else next l
  end.

(** The time of a packet: a tick of the timer, or a frame read from the call. *)
Definition play_wait (fuel : nat) (c : play_config) (l : playing) : step playing :=
  if p_more (l_player l) then next l
  else if c_timer_name c then
    st ← invoke f_timer_next;
    if decide (st <> SUCCESS) then leave (Broke l) else next l
  else
    held ← iterp hold_body fuel tt;
    match held with
    | None => leave Starved
    | Some _ =>
        '(tstatus, f) ← invoke (f_read_frame true);
        if negb (F_READ_ACCEPTABLE tstatus) then leave (Broke l) else play_callbacks l
    end.

(** The volume, of a file that is not native. *)
Definition play_volume (nat : bool) (data : list Z) : FM (list Z) :=
  if nat then mret data
  else
    g ← invoke (f_get FH fh_volgranular);
    if decide (g <> 0) then invoke (f_change_volume true g data)
    else v ← invoke (f_get FH fh_vol); if decide (v <> 0) then invoke (f_change_volume false v data) else mret data.

(** Silence while the state machine reads. *)
Definition play_mute (data : list Z) : FM (list Z) :=
  match args with
  | Some a =>
      if args_dmachine a then
        parsing ← invoke f_dmachine_is_parsing;
        mret (if parsing : bool then replicate (length data) 0 else data)
      else mret data
  | None => mret data
  end.

(** [timeout_samples] after a packet. *)
Definition play_timeout (c : play_config) (samples : Z) (l : playing) : step playing :=
  let t := p_timeout (l_player l) in
  if decide (t <> 0) then
    let t := i32 (t - samples) in
    if decide (t <= 0) then
      break_done (if c_timeout_as_success c then SUCCESS else SWITCH_STATUS_TIMEOUT) (on_player (set_timeout 0) l)
    else next (on_player (set_timeout t) l)
  else next l.

(** Writing the packet to the call. *)
Definition play_write (c : play_config) (olen : Z) (l : playing) : step playing :=
  nat ← native;
  let samples := u32 olen in
  let datalen := if nat : bool then samples else u32 (samples * 2) in
  let abuf := p_abuf (l_player l) in
  if decide (Z.of_nat (length abuf) < datalen) then leave Faulted
  else
    data ← play_volume nat (take (Z.to_nat datalen) abuf);
    data ← play_mute data;
    status ← invoke (f_write_frame data datalen samples);
    match splice abuf 0 data with
    | None => leave Faulted
    | Some abuf =>
        let l := on_player (fun p => set_status status (set_packet olen false (set_abuf abuf p))) l in
        l ⟵ play_timeout c samples l;
        if decide (status = F_MORE_DATA) then next (on_player (fun p => set_status SUCCESS (set_packet olen true p)) l)
        else if decide (status <> SUCCESS) then break_done status l
        else next l
    end.

(** From a packet on. *)
Definition play_packet (fuel : nat) (c : play_config) (l : playing) (olen : Z) (do_speed : bool) : step playing :=
  if p_done (l_player l) || bool_decide (olen <= 0) then leave (Broke l)
  else
    speed ← play_flush l;
    play_seek ;;
    x ⟵ play_stretch speed olen do_speed l;
    match x with
    | Again l => next l
    | Got l olen _ =>
        match pad_packet (p_abuf (l_player l)) olen (p_llen (l_player l)) with
        | None => leave Faulted
        | Some (abuf, olen) =>
            let l := on_player (set_abuf abuf) l in
            l ⟵ play_wait fuel c l;
            play_write c olen l
        end
    end.

Definition play_body (fuel : nat) (c : play_config) (ilen : Z) (l : playing) : step playing :=
  ready ← invoke f_channel_ready;
  if negb ready then break_with SWITCH_STATUS_FALSE l
  else
    f ← invoke (f_test_flag CF_BREAK);
    if decide (f <> 0) then
      invoke (f_clear_flag CF_BREAK false) ;;
      if decide (f = 2) then break_done BREAK l else break_with BREAK l
    else
      invoke f_parse_all_events ;;
      l ⟵ play_input l;
      l ← play_grow l;
      x ⟵ play_source c ilen l;
      match x with
      | Again l => next l
      | Got l olen do_speed => play_packet fuel c l olen do_speed
      end.

(** ** A file *)

(** [playback_timeout_sec...]: the number of samples. *)
Definition timeout_of (impl : codec_implementation) (v : option string) : Z :=
  match v with
  | Some v => if decide (1 < atoi v) then i32 (actual_samples_per_second impl * atoi v) else 0
  | None => 0
  end.

(** The path of a file, and [backup_file], which keeps its value when the file
    has an extension. *)
Definition play_path (impl : codec_implementation) (prefix file : string) (backup : option string)
  : FM (string * option string) :=
  if strstr file SWITCH_URL_SEPARATOR then mret (file, backup)
  else
    let file := prefixed_path prefix file in
    if strchr file "." then mret (file, backup)
    else
      e ← invoke (f_get_variable "native_backup_extension");
      mret ((file ++ "." ++ iananame impl)%string, Some (file ++ "." ++ default "wav" e)%string).

(** Opening the file, or else its backup: the path that was tried last. *)
Definition play_open (impl : codec_implementation) (file : string) (backup : option string) (flags : list file_flag)
  : FM (string * option string) :=
  let open path := invoke (f_file_open FH path (number_of_channels impl) (actual_samples_per_second impl) flags) in
  st ← open file;
  if decide (st = SUCCESS) then mret (file, backup)
  else match backup with
       | Some b => open b ;; mret (b, None)
       | None => mret (file, None)
       end.

(** [io_write_lock; set_private("__fh", ...); io_rwunlock] *)
Definition set_fh (fh : bool) : FM unit :=
  invoke f_io_write_lock ;; invoke (f_set_private fh) ;; invoke f_io_rwunlock.

(** Giving a file up: the next one is tried. *)
Definition play_fail (p : player) : FM player :=
  set_fh false ;; invoke (f_set_video_file None true) ;; invoke (f_file_close FH) ;;
  invoke (f_session_reset true false) ;; mret (set_status SWITCH_STATUS_GENERR p).

Definition play_columns : list (string * string) :=
  [("TITLE", "RECORD_TITLE"); ("COPYRIGHT", "RECORD_COPYRIGHT"); ("SOFTWARE", "RECORD_SOFTWARE");
   ("ARTIST", "RECORD_ARTIST"); ("COMMENT", "RECORD_COMMENT"); ("DATE", "RECORD_DATE")].

Fixpoint get_columns (cols : list (string * string)) : FM unit :=
  match cols with
  | [] => mret tt
  | (col, name) :: cols' =>
      '(st, v) ← invoke (f_file_get_string col);
      (if decide (st = SUCCESS) then invoke (f_set_variable name (VString <$> v)) else mret tt) ;;
      get_columns cols'
  end.

(** The file is open: it is announced, and [abuf] is allocated once. *)
Definition play_announce (p : player) : FM player :=
  invoke f_audio_sync ;; set_fh true ;;
  hv ← invoke (f_has_video FH true);
  (if hv : bool then invoke (f_set_video_file (Some FH) true) else mret tt) ;;
  p ← (if p_alloc p then mret p
       else
         ch ← invoke (f_get FH fh_channels);
         let buflen := u32 (FILE_STARTSAMPLES * 2 * ch) in
         invoke (f_alloc buflen) ;; mret (set_abuf (replicate (Z.to_nat buflen) 0) p));
  (if decide (0 < p_sample_start p) then
     (invoke (f_file_seek 0 0) ;; invoke (f_file_seek (p_sample_start p) 1) ;;
      invoke (f_clear_file_flag SWITCH_FILE_SEEK) : FM unit)
   else mret tt) ;;
  get_columns play_columns ;;
  mret p.

(** The codec of the files that are not native is initialised once. *)
Definition play_codec (c : play_config) (p : player) : FM (flow player player) :=
  ready ← invoke (f_codec_ready CODEC);
  if ready : bool then next p
  else
    rate ← invoke (f_get FH fh_samplerate);
    '(st, ci) ← invoke (f_codec_init CODEC rate (microseconds_per_packet (c_impl c) / 1000) (number_of_channels (c_impl c)));
    if decide (st = SUCCESS) then next (set_codec (Some ci) p) else p ← play_fail p; leave p.

(** The timer is initialised once. *)
Definition play_timer (c : play_config) (samples : Z) (p : player) : FM (flow player player) :=
  match c_timer_name c with
  | None => next p
  | Some name =>
      sc ← invoke f_timer_samplecount;
      if decide (sc <> 0) then next p
      else
        st ← invoke (f_timer_init name (microseconds_per_packet (c_impl c) / 1000) samples);
        if decide (st <> SUCCESS) then
          invoke (f_codec_destroy CODEC) ;; p ← play_fail (set_codec None p); leave p
        else invoke f_timer_sync ;; next p
  end.

(** The format of the packets: native, [samples], [framelen], [channels]; [None]
    is a codec that says it is ready and was never initialised. *)
Definition play_format (c : play_config) (nat : bool) (p : player) : option (Z * Z * Z) :=
  let fmt i framelen := (samples_per_packet i, framelen, number_of_channels i) in
  if nat then Some (fmt (c_impl c) (encoded_bytes_per_packet (c_impl c)))
  else (fun i => fmt i (decoded_bytes_per_packet i)) <$> p_codec p.

(** [switch_event_merge] is called when the handle has [params]. *)
Definition playback_event (id path : string) (more : FM unit) : FM unit :=
  with_event id
    ((if strncaseeq path "local_stream:" 13 then invoke (f_event_add_header "Playback-File-Type" "local_stream") else mret tt) ;;
     (if strncaseeq path "tone_stream:" 12 then invoke (f_event_add_header "Playback-File-Type" "tone_stream") else mret tt) ;;
     invoke (f_event_add_header "Playback-File-Path" path) ;;
     more ;;
     invoke f_event_merge_params).

(** What is reported of a file, and its closing. *)
Definition play_lengths (impl : codec_implementation) : FM unit :=
  pos ← invoke (f_get FH fh_offset_pos);
  invoke (f_set_variable "playback_last_offset_pos" (Some (VInt (i32 pos)))) ;;
  rate ← invoke (f_get FH fh_native_rate);
  (if decide (samples_per_second impl <> 0 /\ 1000 <= rate) then
     i ← invoke (f_get FH fh_samples_in);
     (invoke (f_set_variable "playback_seconds" (Some (VInt (i32 (i / rate))))) ;;
      invoke (f_set_variable "playback_ms" (Some (VInt (i32 (i / (rate / 1000)))))) : FM unit)
   else mret tt) ;;
  i ← invoke (f_get FH fh_samples_in);
  (invoke (f_set_variable "playback_samples" (Some (VInt (i32 i)))) : FM unit).

Definition destroy_buffer (b : buffer) : FM unit :=
  there ← invoke (f_buffer_exists b); if there : bool then invoke (f_buffer_destroy b) else mret tt.

Definition play_close (c : play_config) (path : string) (status : switch_status_t) : FM unit :=
  play_lengths (c_impl c) ;;
  playback_event "PLAYBACK_STOP" path
    (invoke (f_event_add_header "Playback-Status" (if decide (status = BREAK) then "break" else "done"))) ;;
  set_fh false ;;
  invoke (f_set_video_file None true) ;; invoke (f_file_close FH) ;;
  destroy_buffer AUDIO_BUFFER ;; destroy_buffer SP_AUDIO_BUFFER.

(** The two ways not to return. *)
Inductive dead := Fault | NoFuel.

(** From the format on: the timer, the events, the packets and the closing. *)
Definition play_run (fuel : nat) (c : play_config) (path : string) (nat : bool) (p : player) : FM (flow player dead) :=
  match play_format c nat p with
  | None => leave Fault
  | Some (samples, framelen, channels) =>
      if nat && bool_decide (framelen = 0) then p ← play_fail p; next p
      else
        x ← play_timer c samples p;
        match x with
        | Leave p => next p
        | Next p =>
            (if c_timer_name c then invoke f_service_session else mret tt) ;;
            playback_event "PLAYBACK_START" path (mret tt) ;;
            there ← invoke (f_buffer_exists AUDIO_BUFFER);
            (if there : bool then mret tt else invoke (f_buffer_create AUDIO_BUFFER)) ;;
            r ← iterp (play_body fuel c (u32 (samples * channels))) fuel (mkPlaying p false framelen nat);
            match r with
            | Some (Broke l) => play_close c path (p_status (l_player l)) ;; next (l_player l)
            | Some Faulted => leave Fault
            | Some Starved | None => leave NoFuel
            end
        end
  end.

Definition play_flags : FM (list file_flag) :=
  video ← invoke (f_test_flag CF_VIDEO);
  mret ([SWITCH_FILE_FLAG_READ; SWITCH_FILE_DATA_SHORT] ++ if decide (video <> 0) then [SWITCH_FILE_FLAG_VIDEO] else []).

(** A file that is not a phrase or a text. *)
Definition play_audio (fuel : nat) (c : play_config) (file : string) (p : player) : FM (flow player dead) :=
  let prefix := default base_dir (c_prefix c) in
  '(path, backup) ← play_path (c_impl c) prefix file (p_backup p);
  prebuf ← invoke (f_get_variable "stream_prebuffer");
  match prebuf with
  | Some v => if decide (0 < atoi v) then invoke (f_set FH fh_prebuf (atoi v)) else mret tt
  | None => mret tt
  end ;;
  set ← invoke f_has_prefix;
  (if set : bool then mret tt else invoke (f_set_prefix prefix)) ;;
  flags ← play_flags;
  '(path, backup) ← play_open (c_impl c) path backup flags;
  let p := set_backup backup p in
  op ← invoke (f_file_flag FH SWITCH_FILE_OPEN);
  if negb op then invoke (f_session_reset true false) ;; next (set_status SWITCH_STATUS_NOTFOUND p)
  else
    p ← play_announce p;
    x ← play_codec c p;
    match x with
    | Leave p => next p
    | Next p => nat ← native; play_run fuel c path nat p
    end.

Definition after (n : nat) (s : string) : string := substring n (String.length s - n) s.

(** [phrase:name:data] and [say:text]: the status. *)
Definition play_phrase (alt : string) : FM switch_status_t :=
  lang ← invoke (f_get_variable "language");
  let '(name, arg) := match split_at ":" alt with Some (n, a) => (n, Some a) | None => (alt, None) end in
  (invoke (f_phrase_macro name arg lang) : FM switch_status_t).
Definition play_say (text : string) : FM switch_status_t :=
  engine ← invoke (f_get_variable "tts_engine");
  voice ← invoke (f_get_variable "tts_voice");
  match engine with
  | Some engine => (invoke (f_speak_text engine voice text) : FM switch_status_t)
  | None => mret SUCCESS
  end.

(** An element of the list; [false] is the [break] that ends the list. *)
Definition play_one (fuel : nat) (c : play_config) (first : bool) (file : string) (p : player)
  : FM (flow (player * bool) dead) :=
  status ← (if first then mret SUCCESS
            else
              invoke (f_set FH fh_samples 0) ;;
              if decide (c_sleep_val c <> 0) then invoke (f_sleep (c_sleep_val c)) else mret SUCCESS);
  let p := if first then p else set_sample_start 0 p in
  if decide (status <> SUCCESS) then next (set_status status p, false)
  else
    let p := set_status SUCCESS p in
    let special (m : FM switch_status_t) := st ← m; next (set_status st p, bool_decide (st = SUCCESS)) in
    if strchr file ":" && strncaseeq file "phrase:" 7 then special (play_phrase (after 7 file))
    else if strchr file ":" && strncaseeq file "say:" 4 then special (play_say (after 4 file))
    else p ⟵ play_audio fuel c file p; next (p, true).

(** [for (cur = 0; switch_channel_ready(channel) && !done && cur < argc; cur++)] *)
Fixpoint play_files (fuel : nat) (c : play_config) (first : bool) (files : list string) (p : player)
  : FM (flow player dead) :=
  ready ← invoke f_channel_ready;
  if negb ready || p_done p then next p
  else
    match files with
    | [] => next p
    | file :: files' =>
        '(p, go_on) ⟵ play_one fuel c first file p;
        if go_on : bool then play_files fuel c false files' p else next p
    end.

(** ** The function *)

(** What was opened for all files. *)
Definition play_end (impl : codec_implementation) (cumulative : bool) (p : player) : FM unit :=
  ready ← invoke (f_codec_ready CODEC);
  (if ready : bool then invoke (f_codec_destroy CODEC) else mret tt) ;;
  sc ← invoke f_timer_samplecount;
  (if decide (sc <> 0) then (invoke f_thread_session_end ;; invoke f_timer_destroy : FM unit) else mret tt) ;;
  (if p_alloc p then invoke f_free else mret tt) ;;
  invoke (f_session_reset false false) ;;
  check_stop args ;;
  if bool_decide (p_timeout p <> 0) && cumulative then
    invoke (f_set_variable "playback_timeout_sec_cumulative"
              (Some (VInt (i32 (u32 (p_timeout p) / actual_samples_per_second impl)))))
  else mret tt.

(** [playback_delimiter] and [playback_sleep_val]. *)
Definition play_delimiter : FM (option ascii * Z) :=
  d ← invoke (f_get_variable "playback_delimiter");
  match d with
  | None => mret (None, 250)
  | Some d =>
      s ← invoke (f_get_variable "playback_sleep_val");
      mret (String.get 0 d, match s with Some s => if decide (0 <= atoi s) then atoi s else 250 | None => 250 end)
  end.

(** The timeout in samples, and whether it is cumulative. *)
Definition play_timeouts (impl : codec_implementation) : FM (Z * bool) :=
  v ← invoke (f_get_variable "playback_timeout_sec_cumulative");
  match v with
  | Some s => mret (timeout_of impl v, bool_decide (1 < atoi s))
  | None => v ← invoke (f_get_variable "playback_timeout_sec"); mret (timeout_of impl v, false)
  end.

Definition play_list (fuel : nat) (c : play_config) (delimiter : option ascii) (file : string) (fh_given : bool)
    (timeout : Z) : FM (flow player dead) :=
  files ← match delimiter with
          | Some d => invoke (f_separate_string file d 128)
          | None => mret [file]
          end;
  (if fh_given then mret tt else invoke (f_handle_zero FH)) ;;
  s ← invoke (f_get FH fh_samples);
  sample_start ← (if decide (0 < s) then invoke (f_set FH fh_samples 0) ;; mret s else mret 0);
  play_files fuel c true files (mkPlayer false [] None timeout (-1) 0 false None sample_start SUCCESS false).

Definition switch_ivr_play_file (fuel : nat) (fh_given : bool) (file : option string) : FM result :=
  pa ← invoke f_pre_answer;
  if decide (pa <> SUCCESS) then mret (Finished SWITCH_STATUS_FALSE)
  else
    impl ← invoke f_get_read_impl;
    '(timeout, cumulative) ← play_timeouts impl;
    as_success ← invoke (f_get_variable "playback_timeout_as_success");
    '(delimiter, sleep_val) ← play_delimiter;
    prefix ← invoke (f_get_variable "sound_prefix");
    timer_name ← invoke (f_get_variable "timer_name");
    media ← (if zstr file then mret false else invoke f_media_ready);
    if negb media then mret (Finished SWITCH_STATUS_FALSE)
    else
      ok ← check_start args;
      if negb ok then mret (Finished SWITCH_STATUS_GENERR)
      else
        let c := mkConfig impl prefix timer_name (f_true as_success) sleep_val in
        x ← play_list fuel c delimiter (str_nil file) fh_given timeout;
        match x with
        | Leave Fault => mret Undefined
        | Leave NoFuel => mret OutOfFuel
        | Next p => play_end impl cumulative p ;; mret (Finished (p_status p))
        end.

(** ** What the loop leaves alone *)

(** The codec is not touched, and the buffer stays allocated. *)
Definition same (p p' : player) : Prop := p_codec p' = p_codec p /\ (p_alloc p = true -> p_alloc p' = true).
Definition same_file (l l' : playing) : Prop := same (l_player l) (l_player l').
Definition kept {A} (l : playing) (R : A -> Prop) (x : flow A stop) : Prop :=
  match x with Next a => R a | Leave (Broke l') => same_file l l' | Leave _ => True end.

#[export] Instance same_preorder : PreOrder same_file.
Proof using Type. split; [by intros [[]] | intros x y z [] []; split; [congruence | auto]]. Qed.

Lemma same_on f l : (forall p, same p (f p)) -> same_file l (on_player f l).
Proof using Type. intros Hf. apply Hf. Qed.

(** Composition of parts of the body. *)
Lemma kept_fbind {A B} l (m : FM (flow A stop)) (f : A -> FM (flow B stop)) R Q :
  yields m (kept l R) -> (forall a, R a -> yields (f a) (kept l Q)) -> yields (fbind f m) (kept l Q).
Proof using Type.
  intros Hm Hf. apply yields_fbind. eapply yields_mono, Hm. intros [a|r]; [apply Hf | done].
Qed.

Lemma kept_from {A} l l' (m : FM (flow A stop)) (R R' : A -> Prop) :
  same_file l l' -> (forall a, R a -> R' a) -> yields m (kept l' R) -> yields m (kept l R').
Proof using Type.
  intros Hs HR. apply yields_mono. intros [a|[l''| |]]; cbn; [apply HR | intros; by etrans | done..].
Qed.

Definition same_packet (l : playing) (x : packet) : Prop :=
  match x with Got l' _ _ | Again l' => same_file l l' end.

Ltac kept_leaf :=
  cbn [kept same_packet] in *; try exact I; try reflexivity; try assumption;
  try (split; [reflexivity | cbn; tauto]).
Ltac kept_run := yields_run; kept_leaf.

Lemma kept_feed_digit a digit status : yields (feed_digit a digit status) (fun _ => True).
Proof using Type. apply yields_any. Qed.

Lemma kept_input l : yields (play_input l) (kept l (same_file l)).
Proof using Type.
  unfold play_input. destruct args as [a|]; [|kept_leaf]. intros dtmf. apply (kept_fbind _ _ _ (fun _ => True)).
  - destruct dtmf; [|exact I]. intros digit. destruct (no_handler a); [by split|].
    apply yields_bind. eapply yields_mono, yields_any. intros [st|st] _; [exact I | by split].
  - intros st _. apply yields_bind. eapply yields_mono, yields_any. intros st' _. case_decide; by split.
Qed.

Lemma kept_grow l : yields (play_grow l) (same_file l).
Proof using Type. unfold play_grow. kept_run. Qed.

Lemma kept_pause ilen l : yields (source_pause ilen l) (kept l (same_packet l)).
Proof using Type. unfold source_pause. kept_run. Qed.

Lemma kept_buffer b ilen l : yields (source_buffer b ilen l) (kept l (same_packet l)).
Proof using Type. unfold source_buffer, native, add_offset. kept_run. Qed.

Lemma kept_format c t l :
  yields (change_format c t l) (kept l (fun x => match x with Some l' => same_file l l' | None => True end)).
Proof using Type. unfold change_format. kept_run. Qed.

Lemma kept_buffer_file n l : yields (buffer_file n l) (kept l (same_packet l)).
Proof using Type. unfold buffer_file, native, add_offset. kept_run. Qed.

Lemma kept_file c l : yields (source_file c l) (kept l (same_packet l)).
Proof using Type.
  unfold source_file, native. destruct (l_eof l); [kept_leaf|]. intros nat [] [[rstatus olen] data].
  cbn [mbind prog_bind bindp]. destruct (splice _ 0 data) as [abuf|]; [cbv zeta | exact I].
  set (l' := on_player (set_abuf abuf) l). assert (Hl : same_file l l') by (split; [reflexivity | cbn; tauto]).
  case_decide; [exact Hl|]. case_decide; [exact Hl|]. intros test_native. cbn [bindp].
  apply (kept_from l l' _ (same_packet l')); [done | intros []; cbn; intros; by etrans |].
  eapply kept_fbind; [apply kept_format|]. intros [l''|] Hf; [|by split].
  apply yields_bind. eapply yields_mono, yields_any. intros nat' _. apply yields_bind.
  eapply yields_mono, yields_any. intros n _.
  eapply (kept_from l' l''); [done | | apply kept_buffer_file]. intros []; cbn; intros; by etrans.
Qed.

Lemma kept_source c ilen l : yields (play_source c ilen l) (kept l (same_packet l)).
Proof using Type.
  unfold play_source. intros []; [apply kept_pause|]. cbn [bindp].
  apply yields_bind. eapply yields_mono, yields_any. intros [] _; [apply kept_buffer|].
  apply yields_bind. eapply yields_mono, yields_any. intros [] _; [apply kept_buffer | apply kept_file].
Qed.

Lemma kept_stretch speed olen d l : yields (play_stretch speed olen d l) (kept l (same_packet l)).
Proof using Type.
  unfold play_stretch. apply yields_bind. eapply yields_mono, yields_any. intros n _.
  destruct (_ && d); [|kept_leaf]. intros sp. apply yields_bind. eapply yields_mono, yields_any. intros _ _.
  destruct (change_speed _ _ _); [|exact I]. apply yields_bind. eapply yields_mono, yields_any. intros _ _. kept_leaf.
Qed.

Lemma kept_callbacks l : yields (play_callbacks l) (kept l (same_file l)).
Proof using Type. unfold play_callbacks, break_with. kept_run. Qed.

Lemma kept_wait fuel c l : yields (play_wait fuel c l) (kept l (same_file l)).
Proof using Type.
  unfold play_wait. destruct (p_more _); [kept_leaf|]. destruct (c_timer_name c); [kept_run|].
  apply yields_bind. eapply yields_mono, yields_any. intros [[]|] _; [|exact I].
  intros [st f]. cbn [mbind prog_bind bindp]. destruct (negb (F_READ_ACCEPTABLE st)); [kept_leaf | apply kept_callbacks].
Qed.

Lemma kept_timeout c samples l : yields (play_timeout c samples l) (kept l (same_file l)).
Proof using Type. unfold play_timeout, break_done. kept_run. Qed.

Lemma kept_write c olen l : yields (play_write c olen l) (kept l (same_file l)).
Proof using Type.
  unfold play_write. intros nat. cbn [mbind prog_bind bindp]. cbv zeta. case_decide; [exact I|].
  do 2 (apply yields_bind; eapply yields_mono, yields_any; intros ? _). intros status. cbn [mbind prog_bind bindp].
  destruct (splice _ 0 _) as [abuf|]; [|exact I].
  match goal with |- yields (fbind _ (play_timeout _ _ ?x)) _ => set (l' := x) end.
  assert (Hl : same_file l l') by (split; [reflexivity | cbn; tauto]).
  apply (kept_from l l' _ (same_file l')); [done | intros; by etrans |].
  eapply kept_fbind; [apply kept_timeout|]. intros l'' Hs. case_decide; [|case_decide]; cbn;
    (etrans; [exact Hs|]); by split.
Qed.

Lemma kept_packet fuel c l olen d : yields (play_packet fuel c l olen d) (kept l (same_file l)).
Proof using Type.
  unfold play_packet. destruct (_ || _); [kept_leaf|].
  do 2 (apply yields_bind; eapply yields_mono, yields_any; intros ? _).
  eapply kept_fbind; [apply kept_stretch|]. intros [l1 olen1 d1|l1] Hs; [|exact Hs].
  destruct (pad_packet _ _ _) as [[abuf olen2]|]; [|exact I].
  set (l2 := on_player (set_abuf abuf) l1).
  assert (H2 : same_file l l2) by (etrans; [exact Hs|]; split; [reflexivity | cbn; tauto]).
  apply (kept_from l l2 _ (same_file l2)); [done | intros; by etrans |].
  eapply kept_fbind; [apply kept_wait|]. intros l3 H3.
  apply (kept_from l2 l3 _ (same_file l3)); [done | intros; by etrans | apply kept_write].
Qed.

Lemma kept_body fuel c ilen l : yields (play_body fuel c ilen l) (kept l (same_file l)).
Proof using Type.
  unfold play_body. intros ready. cbn [mbind prog_bind bindp]. destruct (negb ready); [by split|]. intros f. cbn [mbind prog_bind bindp]. case_decide.
  - intros []. cbn [mbind prog_bind bindp]. case_decide; by split.
  - intros []. cbn [mbind prog_bind bindp]. eapply kept_fbind; [apply kept_input|]. intros l1 H1.
    apply yields_bind. eapply yields_mono, kept_grow. intros l2 H2.
    assert (H12 : same_file l l2) by by etrans.
    apply (kept_from l l2 _ (same_file l2)); [done | intros; by etrans |].
    eapply kept_fbind; [apply kept_source|]. intros [l3 olen d|l3] H3; [|exact H3].
    apply (kept_from l2 l3 _ (same_file l3)); [done | intros; by etrans | apply kept_packet].
Qed.

(** ** What is opened and closed *)

(** The open files, whether the handle is published ([__fh]), the codecs, the
    two buffers of the handle, the timer, the thread that absorbs audio, the
    allocated packet buffers, the recursion marks and the locks. *)
Record play_use := mkUse {
  u_open : Z; u_private : bool; u_codec : Z; u_audio : bool; u_sp : bool; u_timer : bool; u_thread : bool;
  u_alloc : Z; u_mark : Z; u_lock : Z;
}.

Definition use_upd (g : play_use) (e : event fresp) : play_use :=
  let '(mkUse o pr c a s t th al m lk) := g in
  match e with
  | Ev (f_file_open FH _ _ _ _) st => if decide (st = SUCCESS) then mkUse (o + 1) pr c a s t th al m lk else g
  | Ev (f_file_close FH) _ => mkUse (o - 1) pr c a s t th al m lk
  | Ev (f_set_private b) _ => mkUse o b c a s t th al m lk
  | Ev (f_codec_init _ _ _ _) r => if decide (r.1 = SUCCESS) then mkUse o pr (c + 1) a s t th al m lk else g
  | Ev (f_codec_destroy _) _ => mkUse o pr (c - 1) a s t th al m lk
  | Ev (f_buffer_create AUDIO_BUFFER) _ => mkUse o pr c true s t th al m lk
  | Ev (f_buffer_destroy AUDIO_BUFFER) _ => mkUse o pr c false s t th al m lk
  | Ev (f_buffer_create SP_AUDIO_BUFFER) _ => mkUse o pr c a true t th al m lk
  | Ev (f_buffer_destroy SP_AUDIO_BUFFER) _ => mkUse o pr c a false t th al m lk
  | Ev (f_timer_init _ _ _) st => if decide (st = SUCCESS) then mkUse o pr c a s true th al m lk else g
  | Ev f_timer_destroy _ => mkUse o pr c a s false th al m lk
  | Ev f_service_session _ => mkUse o pr c a s t true al m lk
  | Ev f_thread_session_end _ => mkUse o pr c a s t false al m lk
  | Ev (f_alloc _) _ => mkUse o pr c a s t th (al + 1) m lk
  | Ev f_free _ => mkUse o pr c a s t th (al - 1) m lk
  | Ev f_recursion_start ok => if ok : bool then mkUse o pr c a s t th al (m + 1) lk else g
  | Ev f_recursion_stop _ => mkUse o pr c a s t th al (m - 1) lk
  | Ev (f_io_write_lock) _ | Ev f_io_read_lock _ => mkUse o pr c a s t th al m (lk + 1)
  | Ev f_io_rwunlock _ => mkUse o pr c a s t th al m (lk - 1)
  | _ => g
  end.

(** The core says truly what is open, and a timer that was initialised counts. *)
Definition truthful (g : play_use) (e : event fresp) : Prop :=
  match e with
  | Ev (f_file_flag FH SWITCH_FILE_OPEN) b => b = bool_decide (u_open g <> 0)
  | Ev (f_codec_ready CODEC) b => b = bool_decide (u_codec g <> 0)
  | Ev (f_buffer_exists AUDIO_BUFFER) b => b = u_audio g
  | Ev (f_buffer_exists SP_AUDIO_BUFFER) b => b = u_sp g
  | Ev f_timer_samplecount n => bool_decide (n <> 0) = u_timer g
  | _ => True
  end.

(** The calls that this account does not see. *)
Definition keeps (c : fcall) : bool :=
  match c with
  | f_file_open FH _ _ _ _ | f_file_close FH | f_set_private _ | f_codec_init _ _ _ _ | f_codec_destroy _
  | f_buffer_create AUDIO_BUFFER | f_buffer_create SP_AUDIO_BUFFER | f_buffer_destroy AUDIO_BUFFER
  | f_buffer_destroy SP_AUDIO_BUFFER | f_timer_init _ _ _ | f_timer_destroy | f_service_session
  | f_thread_session_end | f_alloc _ | f_free | f_recursion_start | f_recursion_stop | f_io_write_lock
  | f_io_read_lock | f_io_rwunlock => false
  | _ => true
  end.

Lemma play_keeps c g r : keeps c = true -> use_upd g (Ev c r) = g.
Proof.
  intros Hc. destruct g, c; try discriminate Hc; try reflexivity;
    match goal with x : handle |- _ => destruct x | x : buffer |- _ => destruct x end;
    first [reflexivity | discriminate Hc].
Qed.

Notation wpu := (wp truthful use_upd).

Lemma play_wp_keeps_bind {A B} (m : FM A) (f : A -> FM B) g (Q : play_use -> B -> Prop) :
  only keeps m -> (forall a, wpu (f a) g Q) -> wpu (m ≫= f) g Q.
Proof using Type.
  intros Hm Hf. apply wp_bind, (wp_only keeps); [|exact Hm | exact Hf]. intros c s r. apply play_keeps.
Qed.

Ltac keeps_next := apply play_wp_keeps_bind; [only_run|].

Definition mark : Z := match args with Some _ => 1 | None => 0 end.

(** Between two files, with the variables [p]. *)
Definition idle (p : player) (t th : bool) : play_use :=
  mkUse 0 false (if p_codec p then 1 else 0) false false t th (if p_alloc p then 1 else 0) mark 0.

(** While a file is open. *)
Definition busy (p : player) (a s t th : bool) : play_use :=
  mkUse 1 true (if p_codec p then 1 else 0) a s t th (if p_alloc p then 1 else 0) mark 0.

(** A thread only runs with a timer. *)
Definition resting (p : player) (g : play_use) : Prop := exists t th, g = idle p t th /\ (th = true -> t = true).

Lemma resting_eq p p' g : p_codec p' = p_codec p -> p_alloc p' = p_alloc p -> resting p g -> resting p' g.
Proof using Type. intros Hc Ha (t & th & -> & Ht). exists t, th. split; [|done]. unfold idle. by rewrite Hc, Ha. Qed.

(** The body touches one thing only: the second buffer. *)
Definition looping (p : player) (t th : bool) (g : play_use) (l : playing) : Prop :=
  (exists s, g = busy p true s t th) /\ same p (l_player l).

Definition in_body (c : fcall) : bool :=
  match c with
  | f_buffer_create SP_AUDIO_BUFFER => true
  | f_event_fire _ | f_event_add_header _ _ | f_get_read_impl | f_file_open _ _ _ _ _ | f_file_close _ => false
  | c => keeps c
  end.

Lemma body_calls fuel c ilen l : only in_body (play_body fuel c ilen l).
Proof using Type.
  assert (Hch : forall chunks, only in_body (write_chunks chunks)).
  { induction chunks as [|x chunks IH]; [exact I|]. cbn [write_chunks]. only_run. }
  assert (Hh : only in_body (iterp hold_body fuel tt)) by (apply only_iterp; intros i; unfold hold_body; only_run).
  unfold play_body, play_input, break_with, break_done, feed_digit, input_event, play_grow, play_source, source_pause,
    buffer_ready, source_buffer, source_file, change_format, buffer_file, add_offset, native, play_packet, play_flush,
    clamp_speed, play_seek, play_stretch, play_wait, play_callbacks, play_write, play_volume, play_mute, play_timeout.
  only_run.
Qed.

Lemma in_body_wp {A} (m : FM A) (Q : A -> Prop) p t th : only in_body m -> yields m Q -> forall s,
  wpu m (busy p true s t th) (fun g x => (exists s, g = busy p true s t th) /\ Q x).
Proof using Type.
  induction m as [a|c k IH]; intros Ho Hy s; [by split; [exists s|]|]. destruct Ho as [Hc Hk].
  intros r _. assert (exists s', use_upd (busy p true s t th) (Ev c r) = busy p true s' t th) as [s' ->].
  { destruct (keeps c) eqn:E; [exists s; by apply play_keeps|]. exists true.
    destruct c; try (cbn in Hc, E; congruence).
    match goal with x : buffer |- _ => destruct x end; first [discriminate Hc | discriminate E | reflexivity]. }
  apply IH; auto.
Qed.

Lemma loop_wp fuel fuel' c ilen p framelen nat s t th :
  wpu (iterp (play_body fuel c ilen) fuel' (mkPlaying p false framelen nat)) (busy p true s t th)
    (fun g r => forall l, r = Some (Broke l) -> looping p t th g l).
Proof using Type.
  eapply wp_mono; [|apply (wp_iterp _ _ _ (looping p t th)
    (fun g r => match r with Broke l => looping p t th g l | _ => True end))].
  - intros g [r|] Hr l Hl; [injection Hl as ->; exact Hr | discriminate Hl].
  - intros g l [[s' ->] Hs]. eapply wp_mono; [|apply in_body_wp; [apply body_calls | apply kept_body]].
    assert (Htrans : forall l', same_file l l' -> same p (l_player l')).
    { intros l' Hl. destruct Hs as [H1 H2], Hl as [H3 H4]. split; [congruence | auto]. }
    intros g [l'|[l'| |]] [Hg Hk]; [split; auto | split; auto | done..].
  - split; [by exists s | by split].
Qed.

Lemma play_keeps_event id path more : only keeps more -> only keeps (playback_event id path more).
Proof using Type. intros Hm. unfold playback_event, with_event. only_run. Qed.

Lemma keeps_lengths impl : only keeps (play_lengths impl).
Proof using Type. unfold play_lengths. only_run. Qed.

Lemma set_fh_wp b o pr c a s t th al m lk (Q : play_use -> unit -> Prop) :
  Q (mkUse o b c a s t th al m lk) tt -> wpu (set_fh b) (mkUse o pr c a s t th al m lk) Q.
Proof using Type.
  intros HQ. intros [] _ [] _ [] _. cbn [wp use_upd ev_call ev_resp]. by rewrite Z.add_simpl_r.
Qed.

Lemma play_close_wp c path status p s t th :
  wpu (play_close c path status) (busy p true s t th) (fun g _ => g = idle p t th).
Proof using Type.
  unfold play_close, busy. apply play_wp_keeps_bind; [apply keeps_lengths | intros _].
  apply play_wp_keeps_bind; [apply play_keeps_event; by apply only_invoke | intros _].
  apply wp_bind, set_fh_wp. keeps_next; intros _. intros [] _. cbn [mbind prog_bind bindp].
  cbn [use_upd ev_call ev_resp]. change (1 - 1) with 0. unfold destroy_buffer.
  intros a Ha. cbn in Ha. subst a. intros [] _. cbn [mbind prog_bind bindp].
  intros b Hb. cbn in Hb. subst b. destruct s; [intros [] _|]; reflexivity.
Qed.

(** Giving a file up before its buffers exist. *)
Lemma fail_wp p p0 t th (Q : play_use -> player -> Prop) :
  (forall p', p_codec p' = p_codec p0 -> p_alloc p' = p_alloc p0 -> Q (idle p t th) p') ->
  wpu (play_fail p0) (busy p false false t th) Q.
Proof using Type.
  intros HQ. unfold play_fail, busy. apply wp_bind, set_fh_wp. keeps_next; intros _.
  intros [] _. cbn [mbind prog_bind bindp]. cbn [use_upd ev_call ev_resp]. change (1 - 1) with 0.
  keeps_next; intros _. by apply HQ.
Qed.

Lemma timer_wp c samples p ci t th :
  p_codec p = Some ci -> (th = true -> t = true) ->
  wpu (play_timer c samples p) (busy p false false t th) (fun g x =>
    match x with
    | Next p' => p' = p /\ exists t', g = busy p false false t' th /\
                 (th = true \/ c_timer_name c <> None -> t' = true)
    | Leave p' => resting p' g
    end).
Proof using Type.
  intros Hci Ht. unfold play_timer. destruct (c_timer_name c) as [name|].
  2: { split; [done|]. exists t. split; [done|]. intros [|]; [auto | done]. }
  intros sc Hsc. cbn [mbind prog_bind bindp truthful busy u_timer ev_call ev_resp] in *.
  destruct (decide (not (@eq Z sc 0))) as [Hn|Hn].
  { split; [done|]. exists t. split; [done|]. intros _. rewrite <- Hsc. by apply bool_decide_eq_true. }
  assert (t = false) as -> by (rewrite <- Hsc; by apply bool_decide_eq_false).
  intros st _. cbn [mbind prog_bind bindp]. destruct (decide (st = SUCCESS)) as [Hs|Hs].
  - rewrite decide_False by (by intros Hx). intros [] _. split; [done|]. exists true. split; [|done].
    cbn. by rewrite decide_True.
  - rewrite decide_True by done. intros [] _. cbn [mbind prog_bind bindp].
    replace (use_upd (use_upd _ _) _) with (busy (set_codec None p) false false false th)
      by (cbn; rewrite decide_False by done; unfold busy; by rewrite Hci).
    apply wp_bind, fail_wp. intros p' Hc Ha. exists false, th. split; [|done]. cbn.
    unfold idle. by rewrite Hc, Ha.
Qed.

Lemma play_run_wp fuel c path nat p ci t th :
  p_codec p = Some ci -> p_alloc p = true -> (th = true -> t = true) ->
  wpu (play_run fuel c path nat p) (busy p false false t th)
    (fun g x => forall p', x = Next p' -> resting p' g).
Proof using Type.
  intros Hci Hal Ht. unfold play_run. destruct (play_format c nat p) as [[[samples framelen] channels]|]; [|done].
  destruct (nat && _).
  { apply wp_bind, fail_wp. intros p' Hc Ha p'' [= <-]. exists t, th. split; [|done]. unfold idle. by rewrite Hc, Ha. }
  apply wp_bind. eapply wp_mono; [|by eapply timer_wp].
  intros g [p'|p'] Hg; [|intros p'' [= <-]; exact Hg]. destruct Hg as (-> & t' & -> & Ht').
  apply wp_bind. apply wp_mono with (Q := fun g _ => exists th', g = busy p false false t' th' /\ (th' = true -> t' = true)).
  2: { destruct (c_timer_name c); [intros [] _; exists true | exists th]; (split; [done|]); intros; apply Ht'; [by right | by left]. }
  intros g _ (th' & -> & Hth). apply play_wp_keeps_bind; [by apply play_keeps_event | intros _].
  intros a Ha. cbn in Ha. subst a. cbn [mbind prog_bind bindp]. intros [] _. cbn [mbind prog_bind bindp].
  replace (use_upd (use_upd _ _) _) with (busy p true false t' th') by done.
  apply wp_bind. eapply wp_mono; [|apply loop_wp].
  intros g [[l| |]|] Hl; [|done..]. destruct (Hl l eq_refl) as [[s ->] [Hs1 Hs2]].
  apply wp_bind. eapply wp_mono; [|apply play_close_wp]. intros g _ -> p' [= <-]. exists t', th'. split; [|done].
  unfold idle. by rewrite Hs1, Hs2, Hal.
Qed.

Lemma play_codec_wp c p t th :
  (th = true -> t = true) ->
  wpu (play_codec c p) (busy p false false t th) (fun g x =>
    match x with
    | Next p' => g = busy p' false false t th /\ p_codec p' <> None /\ p_alloc p' = p_alloc p
    | Leave p' => resting p' g
    end).
Proof using Type.
  intros Ht. unfold play_codec. intros ready Hr. cbn [truthful busy u_codec ev_call ev_resp] in Hr. subst ready.
  cbn [mbind prog_bind bindp]. change (use_upd _ _) with (busy p false false t th).
  destruct (p_codec p) as [ci|] eqn:Hci; [by repeat split; rewrite ?Hci|].
  intros rate _. cbn [mbind prog_bind bindp]. intros [st ci] _. cbn [mbind prog_bind bindp].
  destruct (decide (@eq switch_status_t st SUCCESS)) as [Hs|Hs].
  - split; [|done]. cbn. rewrite decide_True by done. unfold busy. by rewrite Hci.
  - replace (use_upd _ _) with (busy p false false t th) by (cbn; by rewrite decide_False).
    apply wp_bind, fail_wp. intros p' Hc Ha. exists t, th. split; [|done]. unfold idle. by rewrite Hc, Ha.
Qed.

Lemma keeps_columns cols : only keeps (get_columns cols).
Proof using Type. induction cols as [|[col name] cols IH]; [done|]. cbn [get_columns]. only_run. Qed.

(** With the file open and not yet published. *)
Lemma announce_wp p t th :
  wpu (play_announce p) (mkUse 1 false (if p_codec p then 1 else 0) false false t th (if p_alloc p then 1 else 0) mark 0)
    (fun g p' => g = busy p' false false t th /\ p_alloc p' = true).
Proof using Type.
  unfold play_announce. keeps_next; intros _. apply wp_bind, set_fh_wp.
  keeps_next; intros hv. keeps_next; intros _. apply wp_bind.
  apply wp_mono with (Q := fun g p' => g = busy p' false false t th /\ p_alloc p' = true).
  - intros g p' [-> Hp']. keeps_next; intros _. apply play_wp_keeps_bind; [apply keeps_columns | intros _]. done.
  - destruct (p_alloc p) eqn:Ha; [by split; [unfold busy; rewrite Ha|]|].
    intros ch _ [] _. done.
Qed.

Lemma keeps_path impl prefix file backup : only keeps (play_path impl prefix file backup).
Proof using Type. unfold play_path. only_run. Qed.

(** After opening, the flag says whether the file is open. *)
Lemma play_open_wp impl file backup flags p t th :
  wpu (play_open impl file backup flags) (idle p t th)
    (fun g _ => g = idle p t th \/
       g = mkUse 1 false (if p_codec p then 1 else 0) false false t th (if p_alloc p then 1 else 0) mark 0).
Proof using Type.
  unfold play_open. cbv zeta. intros st _. cbn [mbind prog_bind bindp].
  destruct (decide (@eq switch_status_t st SUCCESS)) as [Hs|Hs].
  - right. cbn. by rewrite decide_True.
  - replace (use_upd _ _) with (idle p t th) by (cbn; by rewrite decide_False).
    destruct backup as [b|]; [|by left]. intros st' _. cbn.
    destruct (decide (@eq switch_status_t st' SUCCESS)) as [Hs'|Hs']; [right | left]; reflexivity.
Qed.

Lemma audio_wp fuel c file p g : resting p g ->
  wpu (play_audio fuel c file p) g (fun g x => forall p', x = Next p' -> resting p' g).
Proof using Type.
  intros (t & th & -> & Ht). unfold play_audio. cbv zeta.
  apply play_wp_keeps_bind; [apply keeps_path | intros [path backup]]. keeps_next; intros prebuf. keeps_next; intros _.
  keeps_next; intros set. keeps_next; intros _. apply play_wp_keeps_bind; [unfold play_flags; only_run | intros flags].
  apply wp_bind. eapply wp_mono; [|apply play_open_wp]. intros g [path' backup'] Hg.
  intros op Hop. cbn [truthful ev_call ev_resp] in Hop. subst op. cbn [mbind prog_bind bindp].
  rewrite play_keeps by done. destruct Hg as [->| ->]; cbn [u_open idle bool_decide negb].
  - apply play_wp_keeps_bind; [only_run | intros _]. intros p' [= <-]. by exists t, th.
  - apply wp_bind. eapply wp_mono; [|apply (announce_wp (set_backup backup' p))]. intros g p1 [-> Ha].
    apply wp_bind. eapply wp_mono; [|by apply play_codec_wp]. intros g [p2|p2] Hg; [|intros p' [= <-]; exact Hg].
    destruct Hg as (-> & Hc & Ha2). apply play_wp_keeps_bind; [unfold native; only_run | intros nat].
    destruct (p_codec p2) as [ci|] eqn:Hci; [|done]. eapply play_run_wp; [done | congruence | done].
Qed.

Lemma one_wp fuel c first file p g : resting p g ->
  wpu (play_one fuel c first file p) g (fun g x => forall p' b, x = Next (p', b) -> resting p' g).
Proof using Type.
  intros Hg. unfold play_one. apply play_wp_keeps_bind; [only_run | intros status]. cbv zeta.
  assert (Hr : forall p', p_codec p' = p_codec p -> p_alloc p' = p_alloc p -> resting p' g)
    by (intros; by eapply resting_eq).
  case_decide; [intros p' b [= <- <-]; apply Hr; by destruct first|].
  set (p1 := set_status SUCCESS (if first then p else set_sample_start 0 p)).
  assert (H1 : resting p1 g) by (apply Hr; by destruct first).
  destruct (_ && _).
  { unfold play_phrase. apply play_wp_keeps_bind; [only_run | intros st]. intros p' b [= <- <-]. apply Hr; by destruct first. }
  destruct (_ && _).
  { unfold play_say. apply play_wp_keeps_bind; [only_run | intros st]. intros p' b [= <- <-]. apply Hr; by destruct first. }
  apply wp_fbind. eapply wp_mono; [|by apply audio_wp]. intros g' [p2|r] Hp; [|done].
  intros p' b [= <- <-]. by apply Hp.
Qed.

Lemma files_wp fuel c files : forall first p g, resting p g ->
  wpu (play_files fuel c first files p) g (fun g x => forall p', x = Next p' -> resting p' g).
Proof using Type.
  induction files as [|file files IH]; intros first p g Hg; cbn [play_files].
  all: apply play_wp_keeps_bind; [only_run | intros ready]; destruct (_ || _); [by intros p' [= <-]|].
  - by intros p' [= <-].
  - apply wp_fbind. eapply wp_mono; [|by apply one_wp]. intros g' [[p' []]|r] Hp; [| |done].
    + apply IH. by eapply Hp.
    + intros p'' [= <-]. by eapply Hp.
Qed.

Definition nothing : play_use := mkUse 0 false 0 false false false false 0 0 0.

Lemma play_end_wp impl cumulative p g : resting p g ->
  wpu (play_end impl cumulative p) g (fun g _ => g = nothing).
Proof using Type.
  intros (t & th & -> & Ht). unfold play_end.
  intros ready Hr. cbn [truthful ev_call ev_resp idle u_codec] in Hr. subst ready. cbn [mbind prog_bind bindp].
  rewrite play_keeps by done. apply wp_bind.
  apply wp_mono with (Q := fun g _ => g = mkUse 0 false 0 false false t th (if p_alloc p then 1 else 0) mark 0).
  2: { unfold idle. destruct (p_codec p); [intros [] _; reflexivity | reflexivity]. }
  intros g _ ->. intros sc Hsc. cbn [truthful ev_call ev_resp u_timer] in Hsc. cbn [mbind prog_bind bindp].
  rewrite play_keeps by done. apply wp_bind.
  apply wp_mono with (Q := fun g _ => g = mkUse 0 false 0 false false false false (if p_alloc p then 1 else 0) mark 0).
  2: { destruct (decide (not (@eq Z sc 0))) as [Hn|Hn].
       - by intros [] _ [] _.
       - assert (t = false) as -> by (rewrite <- Hsc; by apply bool_decide_eq_false).
         destruct th; [by specialize (Ht eq_refl) | reflexivity]. }
  intros g _ ->. apply wp_bind.
  apply wp_mono with (Q := fun g _ => g = mkUse 0 false 0 false false false false 0 mark 0).
  2: { destruct (p_alloc p); [by intros [] _ | reflexivity]. }
  intros g _ ->. keeps_next; intros _. apply wp_bind.
  apply wp_mono with (Q := fun g _ => g = nothing).
  2: { unfold check_stop, mark. destruct args; [by intros [] _ | reflexivity]. }
  intros g _ ->. destruct (_ && _); [by intros [] _ | done].
Qed.


(** ** What is played *)

(** The bytes read from the file, those in its buffer, those of the packet at
    hand, and the packets written to the call with the bytes they were made of. *)
Record tape := mkTape { t_in : list Z; t_queue : list Z; t_hand : list Z; t_out : list (list Z * list Z) }.

Definition tape_upd (g : tape) (e : event fresp) : tape :=
  match e with
  | Ev (f_file_read FH _) r =>
      if decide (r.1.1 = SUCCESS) then mkTape (t_in g ++ r.2) (t_queue g) (t_hand g) (t_out g) else g
  | Ev (f_buffer_write AUDIO_BUFFER d) _ => mkTape (t_in g) (t_queue g ++ d) (t_hand g) (t_out g)
  | Ev (f_buffer_read AUDIO_BUFFER n) d => mkTape (t_in g) (drop (length d) (t_queue g)) d (t_out g)
  | Ev (f_write_frame w _ _) _ => mkTape (t_in g) (t_queue g) [] (t_out g ++ [(t_hand g, w)])
  | _ => g
  end.

Definition silent (c : fcall) : bool :=
  match c with
  | f_file_read FH _ | f_buffer_write AUDIO_BUFFER _ | f_buffer_read AUDIO_BUFFER _ | f_write_frame _ _ _ => false
  | _ => true
  end.

Lemma silent_upd c g r : silent c = true -> tape_upd g (Ev c r) = g.
Proof.
  intros Hc. destruct c; try discriminate Hc; try reflexivity;
    match goal with x : handle |- _ => destruct x | x : buffer |- _ => destruct x end;
    first [reflexivity | discriminate Hc].
Qed.

Section Tape.
(** A file of [channels] channels in packets of [framelen] bytes. *)
Context (channels framelen ilen : Z).
Hypothesis Hframelen : framelen = 2 * ilen.
Hypothesis Hilen : 0 < ilen < 2 ^ 31.

(** Played plainly: not native, not paused, not moved, neither sped up nor made
    louder; and the buffer of the core is a queue of bytes. *)
Definition plainly (g : tape) (e : event fresp) : Prop :=
  match e with
  | Ev (f_file_flag FH SWITCH_FILE_PAUSE) b | Ev (f_file_flag FH SWITCH_FILE_NATIVE) b
  | Ev (f_file_flag FH SWITCH_FILE_SEEK) b => b = false
  | Ev (f_get FH fh_speed) v | Ev (f_get FH fh_vol) v | Ev (f_get FH fh_volgranular) v => v = 0
  | Ev (f_get FH fh_channels) v => v = channels
  | Ev (f_buffer_exists AUDIO_BUFFER) b => b = true
  | Ev (f_buffer_exists SP_AUDIO_BUFFER) b => b = false
  | Ev (f_buffer_inuse AUDIO_BUFFER) n => n = Z.of_nat (length (t_queue g))
  | Ev (f_buffer_read AUDIO_BUFFER n) d => d = take (Z.to_nat n) (t_queue g)
  | Ev (f_file_read FH _) r => r.1.1 = SUCCESS -> Z.of_nat (length r.2) = r.1.2 * 2 * channels
  | Ev f_dmachine_is_parsing b => b = false
  | _ => True
  end.

Notation wpt := (wp plainly tape_upd).

(** Everything read from the file is in a packet, at hand or in the buffer, in
    order, and a full packet was written as it is. *)
Definition balanced (g : tape) : Prop :=
  t_in g = concat (fst <$> t_out g) ++ t_hand g ++ t_queue g /\
  Forall (fun '(src, w) => Z.of_nat (length src) = framelen -> w = src) (t_out g).

Definition steady (l : playing) : Prop :=
  l_last_native l = false /\ l_framelen l = framelen /\ p_llen (l_player l) <= ilen.

(** What the parts around the packet leave alone. *)
Definition tame (l l' : playing) : Prop :=
  l_last_native l' = l_last_native l /\ l_framelen l' = l_framelen l /\ p_llen (l_player l') = p_llen (l_player l) /\
  p_abuf (l_player l') = p_abuf (l_player l).
Definition tamed {A} (R : A -> Prop) (x : flow A stop) : Prop := match x with Next a => R a | _ => True end.

Lemma tame_steady l l' : tame l l' -> steady l -> steady l'.
Proof using Type. intros (H1 & H2 & H3 & _) (G1 & G2 & G3). repeat split; congruence || lia. Qed.

Lemma tame_input l : yields (play_input l) (tamed (tame l)).
Proof using Type.
  unfold play_input. destruct args as [a|]; [|done]. intros dtmf. cbn [mbind prog_bind bindp].
  apply yields_fbind. eapply yields_mono, yields_any. intros [st|x] _; [|exact I].
  apply yields_bind. eapply yields_mono, yields_any. intros st' _. by case_decide.
Qed.

Lemma tame_wait fuel c l : yields (play_wait fuel c l) (tamed (tame l)).
Proof using Type.
  unfold play_wait. destruct (p_more _); [done|]. destruct (c_timer_name c).
  { intros st. cbn [mbind prog_bind bindp]. by case_decide. }
  apply yields_bind. eapply yields_mono, yields_any. intros [[]|] _; [|exact I].
  intros [st f]. cbn [mbind prog_bind bindp]. destruct (negb (F_READ_ACCEPTABLE st)); [exact I|].
  unfold play_callbacks, break_with. destruct args as [a|]; [|done]. apply yields_fbind.
  apply (yields_mono _ (tamed (tame l))).
  - intros [l'|x] Hl; [|exact I]. destruct (read_frame_callback a); [|exact Hl].
    intros [] st' []. cbn [mbind prog_bind bindp]. by case_decide.
  - destruct (args_dmachine a); [|done]. intros st'. cbn [mbind prog_bind bindp]. by case_decide.
Qed.

Lemma wp_silent_bind {A B} (m : FM A) (f : A -> FM B) g (Q : tape -> B -> Prop) :
  only silent m -> (forall a, wpt (f a) g Q) -> wpt (m ≫= f) g Q.
Proof using Type.
  intros Hm Hf. apply wp_bind, (wp_only silent); [|exact Hm | exact Hf]. intros c s r. apply silent_upd.
Qed.

Ltac silent_next := apply wp_silent_bind; [only_run|].

(** A packet that was found. *)
Definition found (g : tape) (l : playing) (olen : Z) : Prop :=
  balanced g /\ steady l /\ olen <= ilen /\
  (Z.of_nat (length (t_hand g)) = framelen ->
   olen = ilen /\ take (length (t_hand g)) (p_abuf (l_player l)) = t_hand g).

Definition ready (g : tape) (l : playing) : Prop := balanced g /\ t_hand g = [] /\ steady l.

Definition source_post (g : tape) (x : flow packet stop) : Prop :=
  match x with
  | Next (Got l olen _) => found g l olen
  | Next (Again l) => ready g l
  | Leave (Broke _) => balanced g
  | Leave _ => True
  end.

Lemma splice_0 (buf d b : list Z) : splice buf 0 d = Some b -> take (length d) b = d.
Proof using Type. unfold splice. case_decide; [|done]. intros [= <-]. cbn. apply take_app_length. Qed.

(** Reading the queue: what is read and what stays are the queue. *)
Lemma read_queue n (q : list Z) : take n q ++ drop (length (take n q)) q = q.
Proof using Type. rewrite length_take. destruct (Nat.le_gt_cases n (length q)).
  - rewrite Nat.min_l by lia. apply take_drop.
  - rewrite Nat.min_r by lia. rewrite take_ge, drop_all by lia. apply app_nil_r.
Qed.

Lemma balanced_read g n : balanced g -> t_hand g = [] ->
  balanced (mkTape (t_in g) (drop (length (take n (t_queue g))) (t_queue g)) (take n (t_queue g)) (t_out g)).
Proof using Type. intros [Hb Ho] Hh. split; [|done]. cbn. rewrite Hb, Hh, read_queue. done. Qed.

Lemma fill_full abuf d b : Z.of_nat (length d) = framelen -> fill_packet abuf d framelen = Some b ->
  take (length d) b = d.
Proof using Type.
  intros Hd. unfold fill_packet. cbv zeta. destruct (splice abuf 0 d) as [b'|] eqn:E; [|done].
  cbn [mbind option_bind]. rewrite decide_False by lia. intros [= <-]. by apply splice_0 in E.
Qed.

Lemma source_buffer_wp l g : ready g l ->
  wpt (source_buffer AUDIO_BUFFER ilen l) g source_post.
Proof using Hframelen Hilen.
  intros (Hb & Hh & Hs). pose proof Hs as (Hn & Hf & Hl). unfold source_buffer.
  intros d Hd. cbn [plainly ev_call ev_resp] in Hd. cbn [mbind prog_bind bindp tape_upd ev_call ev_resp].
  set (g1 := mkTape _ _ _ _). assert (Hb1 : balanced g1) by (subst g1; rewrite Hd; by apply balanced_read).
  assert (Hle : Z.of_nat (length d) <= framelen) by (rewrite Hd, length_take, Hf; lia).
  case_decide as Hz.
  { destruct (l_eof l); [exact Hb1|]. repeat split; [apply Hb1 | apply Hb1 | | done..].
    cbn. destruct d; [done | cbn in Hz; lia]. }
  apply wp_silent_bind; [|intros _].
  { rewrite decide_True by done. unfold native, add_offset. only_run. }
  rewrite Hf. destruct (fill_packet _ d framelen) as [abuf|] eqn:Ef; [|exact I].
  intros nat Hnat. cbn in Hnat. subst nat. cbn [mbind prog_bind bindp next wp mret prog_ret source_post].
  split; [exact Hb1|]. split; [done|]. split; [lia|]. intros Hd'. split; [done|]. cbn in *. by eapply fill_full.
Qed.

Lemma source_file_wp c l g : ready g l -> wpt (source_file c l) g source_post.
Proof using Hframelen Hilen.
  intros (Hb & Hh & Hs). pose proof Hs as (Hn & Hf & Hl). unfold source_file.
  destruct (l_eof l); [exact Hb|].
  apply wp_silent_bind; [by apply only_invoke | intros nat]. silent_next; intros _.
  intros [[rstatus olen] data] Hdata. cbn [plainly ev_call ev_resp fst snd] in Hdata. cbn [mbind prog_bind bindp].
  destruct (splice (p_abuf (l_player l)) 0 data) as [abuf|] eqn:Es; [|exact I]. cbv zeta.
  set (l1 := on_player (set_abuf abuf) l). assert (Hs1 : steady l1) by done.
  destruct (decide (rstatus = SUCCESS)) as [->|Hr].
  2: { replace (tape_upd _ _) with g by (cbn; by rewrite decide_False).
       case_decide; [by repeat split; try apply Hb|]. rewrite decide_True by done.
       split; [exact Hb|]. split; [exact Hh | exact Hs1]. }
  rewrite decide_False by done. rewrite decide_False by (by intros Hx). specialize (Hdata eq_refl).
  replace (tape_upd _ _) with (mkTape (t_in g ++ data) (t_queue g) (t_hand g) (t_out g)) by done.
  intros test Htest. cbn in Htest. subst test. cbn [mbind prog_bind bindp]. rewrite silent_upd by done.
  unfold change_format. rewrite bool_decide_true by done. apply wp_fbind. cbn [wp next mret prog_ret].
  intros nat' Hnat. cbn in Hnat. subst nat'. cbn [mbind prog_bind bindp]. rewrite silent_upd by done.
  intros ch Hch. cbn in Hch. subst ch. cbn [mbind prog_bind bindp mret prog_ret]. rewrite silent_upd by done.
  unfold buffer_file. cbv zeta. case_decide as Hlen; [exact I|].
  replace (take _ (p_abuf (l_player (with_format (l_framelen l1) false l1)))) with data.
  2: { cbn. rewrite <- Hdata, Nat2Z.id. symmetry. by eapply splice_0. }
  intros [] _. cbn [mbind prog_bind bindp]. cbn [tape_upd ev_call ev_resp t_in t_queue t_hand t_out].
  intros d Hd. cbn [plainly ev_call ev_resp t_queue] in Hd. cbn [mbind prog_bind bindp].
  set (g2 := tape_upd _ _).
  assert (Hb2 : balanced g2).
  { subst g2. rewrite Hd. apply (balanced_read (mkTape (t_in g ++ data) (t_queue g ++ data) (t_hand g) (t_out g))); [|done].
    split; [|apply Hb]. cbn. destruct Hb as [-> _]. by rewrite <- !app_assoc. }
  assert (Hle : Z.of_nat (length d) <= framelen) by (rewrite Hd, length_take; cbn; lia).
  apply wp_silent_bind; [unfold add_offset; only_run | intros _].
  destruct (splice _ 0 d) as [abuf2|] eqn:Es2; [|exact I].
  intros nat2 Hnat2. cbn in Hnat2. subst nat2. cbn [mbind prog_bind bindp]. rewrite silent_upd by done.
  split; [exact Hb2|]. split; [done|]. split; [div_lia|]. intros Hd'. split; [cbn in Hd'; div_lia|].
  cbn. by eapply splice_0.
Qed.

Lemma source_wp c l g : ready g l -> wpt (play_source c ilen l) g source_post.
Proof using Hframelen Hilen.
  intros Hr. unfold play_source. intros p Hp. cbn in Hp. subst p. cbn [mbind prog_bind bindp]. rewrite silent_upd by done.
  unfold buffer_ready. apply wp_bind. intros sp Hsp. cbn in Hsp. subst sp. cbn [mbind prog_bind bindp wp].
  rewrite silent_upd by done. apply wp_bind. intros a Ha. cbn in Ha. subst a. cbn [mbind prog_bind bindp].
  rewrite silent_upd by done. destruct (l_eof l); [by apply source_buffer_wp|].
  intros n _. cbn [mbind prog_bind bindp]. rewrite silent_upd by done.
  destruct (bool_decide _); [by apply source_buffer_wp | by apply source_file_wp].
Qed.

Definition body_post (g : tape) (x : flow playing stop) : Prop :=
  match x with
  | Next l => ready g l
  | Leave (Broke _) => balanced g
  | Leave _ => True
  end.

(** A part that only waits or asks. *)
Lemma wp_tame (m : FM (flow playing stop)) (f : playing -> FM (flow playing stop)) l g :
  only silent m -> yields m (tamed (tame l)) -> balanced g ->
  (forall l', tame l l' -> wpt (f l') g body_post) -> wpt (fbind f m) g body_post.
Proof using Type.
  intros Ho Hy Hb Hf. apply wp_fbind. eapply (wp_yields silent); [|exact Ho|].
  - intros c r. apply silent_upd.
  - eapply yields_mono, Hy. intros [l'|[l'| |]] Hl; [by apply Hf | exact Hb | done..].
Qed.

Lemma flush_wp l g (Q : tape -> Z -> Prop) : Q g 0 -> wpt (play_flush l) g Q.
Proof using Type.
  intros HQ. unfold play_flush. intros n _. cbn [mbind prog_bind bindp]. rewrite silent_upd by done.
  destruct n; [exact HQ|]. unfold clamp_speed. apply wp_bind, wp_bind. intros sp Hsp. cbn in Hsp. subst sp.
  cbn [mbind prog_bind bindp wp]. rewrite silent_upd by done. rewrite decide_False by lia. rewrite decide_False by lia.
  cbn [wp mret prog_ret].
  silent_next; intros audio. silent_next; intros _. exact HQ.
Qed.

Lemma seek_wp g (Q : tape -> unit -> Prop) : Q g tt -> wpt play_seek g Q.
Proof using Type.
  intros HQ. unfold play_seek. intros b Hb. cbn in Hb. subst b. cbn [mbind prog_bind bindp].
  by rewrite silent_upd by done.
Qed.

Lemma stretch_wp olen d l g (Q : tape -> flow packet stop -> Prop) :
  Q g (Next (Got l olen d)) -> wpt (play_stretch 0 olen d l) g Q.
Proof using Type.
  intros HQ. unfold play_stretch, native. intros n _. cbn [mbind prog_bind bindp]. rewrite silent_upd by done.
  rewrite bool_decide_false by lia. rewrite andb_false_r. exact HQ.
Qed.

Lemma volume_wp data g (Q : tape -> list Z -> Prop) : Q g data -> wpt (play_volume false data) g Q.
Proof using Type.
  intros HQ. unfold play_volume. intros v Hv. cbn in Hv. subst v. cbn [mbind prog_bind bindp].
  rewrite silent_upd by done. rewrite decide_False by lia. intros v Hv. cbn in Hv. subst v.
  cbn [mbind prog_bind bindp]. rewrite silent_upd by done. by rewrite decide_False by lia.
Qed.

Lemma mute_wp data g (Q : tape -> list Z -> Prop) : Q g data -> wpt (play_mute data) g Q.
Proof using Type.
  intros HQ. unfold play_mute. destruct args as [a|]; [|exact HQ]. destruct (args_dmachine a); [|exact HQ].
  intros v Hv. cbn in Hv. subst v. cbn [mbind prog_bind bindp mret prog_ret]. by rewrite silent_upd by done.
Qed.

Lemma timeout_tame c samples l : yields (play_timeout c samples l) (tamed (tame l)).
Proof using Type. unfold play_timeout, break_done. case_decide; [|done]. cbv zeta. by case_decide. Qed.

Lemma write_wp c l olen g : found g l olen -> wpt (play_write c olen l) g body_post.
Proof using Hframelen Hilen.
  intros (Hb & Hs & Ho & Hfull). unfold play_write. intros nat Hnat. cbn in Hnat. subst nat.
  cbn [mbind prog_bind bindp]. rewrite silent_upd by done. cbv zeta. case_decide as Hlen; [exact I|].
  set (data := take _ _). apply wp_bind, volume_wp, wp_bind, mute_wp.
  intros status _. cbn [mbind prog_bind bindp tape_upd ev_call ev_resp].
  set (g1 := mkTape _ _ _ _). destruct (splice _ 0 data) as [abuf|]; [|exact I].
  assert (Hb1 : balanced g1).
  { destruct Hb as [Hin Hall]. split.
    - cbn. rewrite fmap_app, concat_app. cbn. by rewrite app_nil_r, Hin, <- app_assoc.
    - apply Forall_app. split; [exact Hall|]. constructor; [|constructor]. intros Hd. destruct (Hfull Hd) as [-> <-].
      subst data. rewrite (u32_small ilen) by lia. rewrite u32_small by lia. f_equal. lia. }
  match goal with |- wp _ _ (fbind _ (play_timeout _ _ ?x)) _ _ => set (l1 := x) end.
  apply (wp_tame _ _ l1); [unfold play_timeout, break_done; only_run | apply timeout_tame | exact Hb1|].
  intros l2 Ht. assert (Hs2 : forall f, (forall p, p_llen (f p) = p_llen p \/ p_llen (f p) = olen) -> steady (on_player f l2)).
  { intros f Hf. destruct Hs as (H1 & H2 & H3), Ht as (G1 & G2 & G3 & _). split; [by etrans|]. split; [by etrans|].
    cbn. destruct (Hf (l_player l2)) as [->| ->]; [rewrite G3; cbn|]; lia. }
  case_decide; [|case_decide].
  - split; [exact Hb1|]. split; [done|]. apply Hs2. by right.
  - exact Hb1.
  - split; [exact Hb1|]. split; [done|]. apply (Hs2 id). by left.
Qed.

Lemma packet_wp fuel c l olen d g : found g l olen -> wpt (play_packet fuel c l olen d) g body_post.
Proof using Hframelen Hilen.
  intros Hfound. pose proof Hfound as (Hb & Hs & Ho & Hfull). unfold play_packet.
  destruct (_ || _); [exact Hb|]. apply wp_bind, flush_wp, wp_bind, seek_wp, wp_fbind, stretch_wp.
  assert (Hpad : forall abuf olen', pad_packet (p_abuf (l_player l)) olen (p_llen (l_player l)) = Some (abuf, olen') ->
    found g (on_player (set_abuf abuf) l) olen').
  { intros abuf olen'. unfold pad_packet. destruct Hs as (H1 & H2 & H3). case_decide as Hp.
    - destruct (mem_set _ _ _ _) as [b|]; [|done]. intros [= <- <-].
      split; [exact Hb|]. split; [done|]. split; [done|]. intros Hd. destruct (Hfull Hd). lia.
    - intros [= <- <-]. done. }
  destruct (pad_packet _ _ _) as [[abuf olen']|]; [|exact I]. specialize (Hpad _ _ eq_refl). cbv zeta.
  apply (wp_tame _ _ (on_player (set_abuf abuf) l)); [ | apply tame_wait | exact Hb|].
  - assert (only silent (iterp hold_body fuel tt)) by (apply only_iterp; intros i; unfold hold_body; only_run).
    unfold play_wait, play_callbacks, break_with. only_run.
  - intros l' Ht. apply write_wp. destruct Hpad as (_ & Hs' & Ho' & Hf').
    split; [exact Hb|]. split; [by eapply tame_steady|]. split; [exact Ho'|]. destruct Ht as (_ & _ & _ & ->). exact Hf'.
Qed.

Lemma grow_wp l g (Q : tape -> playing -> Prop) :
  (forall l', l_last_native l' = l_last_native l -> l_framelen l' = l_framelen l ->
     p_llen (l_player l') = p_llen (l_player l) -> Q g l') -> wpt (play_grow l) g Q.
Proof using Type.
  intros HQ. eapply (wp_yields silent); [|unfold play_grow; only_run|].
  - intros c r. apply silent_upd.
  - unfold play_grow. intros cur. apply yields_bind. eapply yields_mono, yields_any. intros ch _. cbv zeta.
    case_decide; [|by apply HQ]. intros ext. by apply HQ.
Qed.

Lemma body_wp fuel c l g : ready g l -> wpt (play_body fuel c ilen l) g body_post.
Proof using Hframelen Hilen.
  intros (Hb & Hh & Hs). unfold play_body. silent_next; intros rdy. destruct (negb rdy); [exact Hb|].
  silent_next; intros f. case_decide; [silent_next; intros _; by case_decide|]. silent_next; intros _.
  apply (wp_tame _ _ l); [ | apply tame_input | exact Hb|].
  { unfold play_input, break_with, break_done, feed_digit, input_event. only_run. }
  intros l1 H1. apply wp_bind, grow_wp. intros l2 G1 G2 G3. apply wp_fbind.
  assert (Hs2 : steady l2).
  { destruct (tame_steady l l1 H1 Hs) as (S1 & S2 & S3). split; [congruence|]. split; [congruence | lia]. }
  eapply wp_mono; [|apply source_wp; by split]. intros g' [[l3 olen d|l3]|[l3| |]] Hg; [|exact Hg | exact Hg | done..].
  by apply packet_wp.
Qed.

End Tape.

(** ** The events of a playback *)

(** What the answers of the core ask to be reported: the bytes of a packet in the
    format of the call; the path of the file that is open; whether that file is
    given up (no codec, no timer, or a native file without a packet size), and
    whether it was asked if it is native; and the events of the files closed. *)
Record expected := mkExpected {
  x_bytes : Z; x_open : option string; x_given_up : bool; x_asked : bool; due : list (string * string);
}.

Definition events_of (path : string) : list (string * string) :=
  [("PLAYBACK_START", path); ("PLAYBACK_STOP", path)].

Definition abandon (b : bool) (x : expected) : expected :=
  mkExpected (x_bytes x) (x_open x) (x_given_up x || b) (x_asked x) (due x).

Definition expect_upd (x : expected) (e : event fresp) : expected :=
  match e with
  | Ev f_get_read_impl i => mkExpected (encoded_bytes_per_packet i) (x_open x) (x_given_up x) (x_asked x) (due x)
  | Ev (f_file_open FH path _ _ _) st =>
      if decide (st = SUCCESS) then mkExpected (x_bytes x) (Some path) false false (due x) else x
  | Ev (f_codec_init _ _ _ _) r => abandon (bool_decide (r.1 <> SUCCESS)) x
  | Ev (f_timer_init _ _ _) st => abandon (bool_decide (st <> SUCCESS)) x
  | Ev (f_file_flag FH SWITCH_FILE_NATIVE) nat =>
      if x_asked x then x
      else mkExpected (x_bytes x) (x_open x) (x_given_up x || nat && bool_decide (x_bytes x = 0)) true (due x)
  | Ev (f_file_close FH) _ =>
      match x_open x with
      | Some path => mkExpected (x_bytes x) None false false (due x ++ if x_given_up x then [] else events_of path)
      | None => x
      end
  | _ => x
  end.

(** The events fired with the path they report, the path that was put last,
    whether a file is being played, whether a packet was written otherwise, and
    what is expected. *)
Record play_log := mkLog {
  fired : list (string * string); path_put : string; on : bool; stray : bool; expects : expected;
}.

Definition log_upd (g : play_log) (e : event fresp) : play_log :=
  let x := expect_upd (expects g) e in
  match e with
  | Ev (f_event_fire id) _ =>
      mkLog (fired g ++ [(id, path_put g)]) (path_put g) (String.eqb id "PLAYBACK_START") (stray g) x
  | Ev (f_event_add_header n v) _ =>
      mkLog (fired g) (if String.eqb n "Playback-File-Path" then v else path_put g) (on g) (stray g) x
  | Ev (f_write_frame _ _ _) _ => mkLog (fired g) (path_put g) (on g) (stray g || negb (on g)) x
  | _ => mkLog (fired g) (path_put g) (on g) (stray g) x
  end.

(** Events can be created, and a file is open when it was opened and not closed. *)
Definition creates (g : play_log) (e : event fresp) : Prop :=
  match e with
  | Ev (f_event_create _) ok => ok = true
  | Ev (f_file_flag FH SWITCH_FILE_OPEN) op => op = bool_decide (x_open (expects g) <> None)
  | _ => True
  end.

(** No file is open, what is expected was fired, and packets were written only
    between a start and its stop. *)
Definition reported (g : play_log) : Prop :=
  stray g = false /\ on g = false /\ x_open (expects g) = None /\ fired g = due (expects g).

Notation wpl := (wp creates log_upd).

Definition unreported (c : fcall) : bool :=
  match c with
  | f_event_fire _ | f_event_add_header _ _ | f_get_read_impl | f_file_open _ _ _ _ _ | f_codec_init _ _ _ _
  | f_timer_init _ _ _ | f_file_close _ => false
  | _ => true
  end.
Definition quiet (c : fcall) : bool :=
  unreported c && match c with f_write_frame _ _ _ | f_file_flag _ SWITCH_FILE_NATIVE => false | _ => true end.

Lemma quiet_upd c g r : quiet c = true -> log_upd g (Ev c r) = g.
Proof using Type.
  intros Hc. destruct g, c; try discriminate Hc; try reflexivity.
  match goal with x : handle, y : file_flag |- _ => destruct x, y; reflexivity || discriminate Hc end.
Qed.

Lemma play_wp_quiet_bind {A B} (m : FM A) (f : A -> FM B) g (Q : play_log -> B -> Prop) :
  only quiet m -> (forall a, wpl (f a) g Q) -> wpl (m ≫= f) g Q.
Proof using Type. intros Hm Hf. apply wp_bind, (wp_only quiet); [apply quiet_upd | exact Hm | exact Hf]. Qed.

Ltac quiet_next := apply play_wp_quiet_bind; [only_run|].

Lemma play_unreported_body fuel c ilen l : only unreported (play_body fuel c ilen l).
Proof using Type.
  apply (only_mono in_body unreported); [by intros [] | apply body_calls].
Qed.

(** The event of a file: whatever else is put into it, it reports the path. *)
Lemma play_event_log id path more g (Q : play_log -> unit -> Prop) :
  (forall g', wpl more g' (fun g'' _ => g'' = g')) ->
  Q (mkLog (fired g ++ [(id, path)]) path (String.eqb id "PLAYBACK_START") (stray g) (expects g)) tt ->
  wpl (playback_event id path more) g Q.
Proof using Type.
  intros Hm HQ. unfold playback_event, with_event. intros ok Hok. cbn in Hok. subst ok. cbn [mbind prog_bind bindp].
  assert (Hput : forall (b : bool) v g', wpl (if b then invoke (f_event_add_header "Playback-File-Type" v) else mret tt) g'
    (fun g'' _ => g'' = g')) by (intros [] v []; [by intros [] _ | done]).
  intros [] _. cbn [mbind prog_bind bindp]. apply wp_bind, wp_bind. eapply wp_mono, Hput.
  intros g' _ ->. apply wp_bind. eapply wp_mono, Hput.
  intros g' _ ->. intros [] _. cbn [mbind prog_bind bindp]. apply wp_bind. eapply wp_mono, Hm.
  intros g' _ ->. intros [] _ [] _. exact HQ.
Qed.

(** A file is open: what was expected before it was fired. *)
Definition playing_file (bytes : Z) (path : string) (given_up asked : bool) (g : play_log) : Prop :=
  stray g = false /\ on g = false /\ expects g = mkExpected bytes (Some path) given_up asked (fired g).

(** Between two files. *)
Definition between (bytes : Z) (g : play_log) : Prop := reported g /\ x_bytes (expects g) = bytes.

Lemma fail_log bytes path asked p g : playing_file bytes path true asked g ->
  wpl (play_fail p) g (fun g' _ => between bytes g').
Proof using Type.
  intros (Hs & Ho & Hx). unfold play_fail, set_fh. quiet_next; intros _. quiet_next; intros _.
  intros [] _. cbn [mbind prog_bind bindp]. quiet_next; intros _. unfold between, reported. cbn. rewrite Hx. cbn.
  by rewrite app_nil_r.
Qed.

Lemma codec_log c p bytes path g : playing_file bytes path false false g ->
  wpl (play_codec c p) g (fun g' x =>
    match x with Next _ => playing_file bytes path false false g' | Leave _ => between bytes g' end).
Proof using Type.
  intros Hg. unfold play_codec. quiet_next; intros ready. destruct ready; [exact Hg|].
  quiet_next; intros rate. intros [st ci] _. cbn [mbind prog_bind bindp]. destruct Hg as (Hs & Ho & Hx).
  destruct (decide (st = SUCCESS)) as [Hst|Hst].
  - subst st. repeat split; [exact Hs | exact Ho|]. cbn. by rewrite Hx.
  - apply wp_bind. eapply wp_mono; [|apply (fail_log bytes path false)]; [by intros g' p'|].
    repeat split; [exact Hs | exact Ho|]. cbn. rewrite Hx. by rewrite bool_decide_true.
Qed.

Lemma timer_log c samples p bytes path g : playing_file bytes path false true g ->
  wpl (play_timer c samples p) g (fun g' x =>
    match x with Next _ => playing_file bytes path false true g' | Leave _ => between bytes g' end).
Proof using Type.
  intros Hg. unfold play_timer. destruct (c_timer_name c) as [name|]; [|exact Hg].
  quiet_next; intros sc. case_decide; [exact Hg|]. intros st _. cbn [mbind prog_bind bindp]. destruct Hg as (Hs & Ho & Hx).
  case_decide as Hst.
  - quiet_next; intros _. apply wp_bind. eapply wp_mono; [|apply (fail_log bytes path true)]; [by intros g' p'|].
    repeat split; [exact Hs | exact Ho|]. cbn. rewrite Hx. by rewrite bool_decide_true.
  - quiet_next; intros _. repeat split; [exact Hs | exact Ho|]. cbn. rewrite Hx. rewrite bool_decide_false by (intros Hn; exact (Hn Hst)). done.
Qed.

Lemma quiet_announce p : only quiet (play_announce p).
Proof using Type. unfold play_announce, set_fh. only_run. Qed.

Lemma play_run_log fuel c path nat p g :
  let bytes := encoded_bytes_per_packet (c_impl c) in
  playing_file bytes path (nat && bool_decide (bytes = 0)) true g ->
  wpl (play_run fuel c path nat p) g (fun g x => forall p', x = Next p' -> between bytes g).
Proof using Type.
  intros bytes Hg. unfold play_run. destruct (play_format c nat p) as [[[samples framelen] channels]|] eqn:Hf; [|done].
  assert (nat && bool_decide (bytes = 0) = nat && bool_decide (framelen = 0)) as E.
  { destruct nat; [|done]. by injection Hf as _ <- _. }
  rewrite E in Hg. destruct (nat && _).
  { apply wp_bind. eapply wp_mono; [|by eapply fail_log]. by intros g' p1 Hg' p' _. }
  apply wp_bind. eapply wp_mono; [|by eapply timer_log]. clear g Hg E. intros g [p1|p1] Hg; [|by intros p' _].
  quiet_next; intros _. apply wp_bind, play_event_log; [done|]. cbn [String.eqb].
  quiet_next; intros there. quiet_next; intros _. apply wp_bind.
  destruct Hg as (Hs & Ho & Hx).
  apply (wp_only_at unreported).
  - intros e r He. cbn [expects]. rewrite Hx. destruct e; try discriminate He; try reflexivity; unfold log_upd; cbn.
    + match goal with x : handle, y : file_flag |- _ => by destruct x, y end.
    + by rewrite Hs.
  - apply only_iterp. intros l. apply play_unreported_body.
  - intros [[l| |]|]; [|done..]. unfold play_close.
    apply wp_bind, play_wp_quiet_bind; [unfold play_lengths; only_run | intros _].
    apply wp_bind, play_event_log; [intros []; by intros [] _|].
    apply play_wp_quiet_bind; [unfold set_fh; only_run | intros _]. quiet_next; intros _.
    intros [] _. cbn [mbind prog_bind bindp].
    apply (wp_only_at quiet); [intros e r He; by apply quiet_upd | unfold destroy_buffer; only_run | intros _].
    intros p' _. unfold between, reported. cbn. rewrite Hx. cbn. by rewrite <- app_assoc.
Qed.

Lemma opened_log bytes path ch rate flags st g : between bytes g ->
  let g' := log_upd g (Ev (f_file_open FH path ch rate flags) st) in
  (st = SUCCESS /\ playing_file bytes path false false g') \/ (st <> SUCCESS /\ between bytes g').
Proof using Type.
  intros [(Hs & Ho & Hn & Hf) Hb]. unfold playing_file, between, reported. cbn.
  destruct (decide (st = SUCCESS)) as [E|E]; [left | right]; (split; [exact E|]).
  - rewrite E. cbn. by rewrite Hf, Hb.
  - cbn. case_decide; [done | by repeat split].
Qed.

(** Whether a file is open, and then the path that was opened. *)
Definition open_post (bytes : Z) (path : string) (g : play_log) : Prop :=
  playing_file bytes path false false g \/ between bytes g.

Lemma play_open_log impl file backup flags bytes g : between bytes g ->
  wpl (play_open impl file backup flags) g (fun g' r => open_post bytes r.1 g').
Proof using Type.
  intros Hg. unfold play_open. intros st _. cbn [mbind prog_bind bindp].
  destruct (opened_log bytes file (number_of_channels impl) (actual_samples_per_second impl) flags st g Hg) as [[E H1]|[E H1]];
    [rewrite decide_True by exact E; by left | rewrite decide_False by exact E].
  destruct backup as [b|]; [|by right].
  intros st' _.
  destruct (opened_log bytes b (number_of_channels impl) (actual_samples_per_second impl) flags st' _ H1) as [[_ H2]|[_ H2]];
    [by left | by right].
Qed.

Lemma audio_log fuel c file p g : between (encoded_bytes_per_packet (c_impl c)) g ->
  wpl (play_audio fuel c file p) g (fun g x => forall p', x = Next p' -> between (encoded_bytes_per_packet (c_impl c)) g).
Proof using Type.
  intros Hg. unfold play_audio. cbv zeta.
  apply play_wp_quiet_bind; [unfold play_path; only_run | intros [path backup]]. quiet_next; intros prebuf.
  quiet_next; intros _. quiet_next; intros set. quiet_next; intros _.
  apply play_wp_quiet_bind; [unfold play_flags; only_run | intros flags].
  apply wp_bind. eapply wp_mono; [|by apply play_open_log]. clear g Hg. intros g [path' backup'] Hg. cbn [fst] in Hg.
  intros op Hop. cbn in Hop. cbn [mbind prog_bind bindp]. rewrite quiet_upd by done.
  destruct Hg as [Hg|Hg].
  2: { destruct Hg as ((Hs & Ho & Hn & Hf) & Hb). rewrite Hn, bool_decide_false in Hop by tauto. subst op. cbn [negb].
    quiet_next. by intros _ p' _. }
  assert (op = true) as ->. { destruct Hg as (_ & _ & Hx). by rewrite Hx, bool_decide_true in Hop. }
  cbn [negb]. apply play_wp_quiet_bind; [apply quiet_announce | intros p1].
  apply wp_bind. eapply wp_mono; [|by apply codec_log]. clear g Hg Hop. intros g [p2|p2] Hg; [|by intros p' _].
  intros nat _. cbn [mbind prog_bind bindp]. apply play_run_log. destruct Hg as (Hs & Ho & Hx).
  repeat split; [exact Hs | exact Ho|]. cbn. by rewrite Hx.
Qed.

Lemma one_log fuel c first file p g : between (encoded_bytes_per_packet (c_impl c)) g ->
  wpl (play_one fuel c first file p) g (fun g x => forall p', x = Next p' -> between (encoded_bytes_per_packet (c_impl c)) g).
Proof using Type.
  intros Hg. unfold play_one. quiet_next; intros status. cbv zeta. case_decide; [by intros p' _|].
  destruct (_ && _); [apply play_wp_quiet_bind; [unfold play_phrase; only_run | by intros st p' _]|].
  destruct (_ && _); [apply play_wp_quiet_bind; [unfold play_say; only_run | by intros st p' _]|].
  apply wp_fbind. eapply wp_mono; [|by apply audio_log]. intros g' [p2|r] Hp; [|done].
  intros p' _. by eapply Hp.
Qed.

Lemma files_log fuel c files : forall first p g, between (encoded_bytes_per_packet (c_impl c)) g ->
  wpl (play_files fuel c first files p) g (fun g x => forall p', x = Next p' -> reported g).
Proof using Type.
  induction files as [|file files IH]; intros first p g Hg; cbn [play_files].
  all: quiet_next; intros ready; destruct (_ || _); [by intros p' _; apply Hg|].
  - by intros p' _; apply Hg.
  - apply wp_fbind. eapply wp_mono; [|by apply one_log]. intros g' [[p' []]|r] Hp; [| |done].
    + apply IH. by eapply Hp.
    + intros p'' _. by eapply Hp.
Qed.

Definition no_log : play_log := mkLog [] "" false false (mkExpected 0 None false false []).

(** [C20] A call of [switch_ivr_play_file] that returns has fired, for each file
    that it opened and did not give up and in the order of their closing, a start
    and a stop with the path under which the file was opened (the backup when the
    first one failed), whatever way each file ended and even when no packet of it
    was played; a file is given up when its codec or the timer cannot be
    initialised, or it is native and the call's packets have no size.  Nothing
    else is fired, every file was closed, and packets are written to the call
    only between a start and its stop. *)
Theorem play_reported fuel fh_given file tr st :
  exec (switch_ivr_play_file fuel fh_given file) tr (Finished st) -> legal_trace creates log_upd no_log tr ->
  reported (ghost log_upd no_log tr).
Proof using Type.
  intros Hex Hl.
  refine (wp_sound _ _ _ _ (fun g x => forall st, x = Finished st -> reported g) _ _ _ Hex Hl _ eq_refl).
  assert (H0 : reported no_log) by by repeat split.
  clear - H0. unfold switch_ivr_play_file. quiet_next; intros pa. case_decide; [by intros st _|].
  intros impl _. cbn [mbind prog_bind bindp]. set (g := log_upd _ _).
  assert (Hg : between (encoded_bytes_per_packet impl) g) by by repeat split. clearbody g.
  apply play_wp_quiet_bind; [unfold play_timeouts; only_run | intros [timeout cumulative]].
  quiet_next; intros as_success. apply play_wp_quiet_bind; [unfold play_delimiter; only_run | intros [delimiter sleep_val]].
  quiet_next; intros prefix. quiet_next; intros timer_name. quiet_next; intros media.
  destruct media; [cbn [negb] | by intros st _; apply Hg].
  apply play_wp_quiet_bind; [unfold check_start; only_run | intros ok]. destruct ok; [cbn [negb] | by intros st _; apply Hg].
  cbv zeta. apply wp_bind. unfold play_list.
  quiet_next; intros files. quiet_next; intros _. quiet_next; intros s. quiet_next; intros sample_start.
  eapply wp_mono; [|by apply files_log]. intros g' [p|[]] Hp; [|done..].
  apply play_wp_quiet_bind; [unfold play_end, check_stop; only_run | intros _ st _]. by eapply Hp.
Qed.
End PlayFile.

(** ** Witnesses *)

#[local] Existing Instance sample_files.

(** A core that keeps account of what is open, with files of 480 bytes. *)
Record play_world := mkWorld { w_use : play_use; w_reads : nat; w_queue : list Z }.

Definition file_bytes : list Z := (fun n => Z.of_nat n mod 256) <$> seq 0 480.

Definition play_answer (w : play_world) (c : fcall) : fresp c :=
  match c with
  | f_file_flag FH SWITCH_FILE_OPEN => bool_decide (u_open (w_use w) <> 0)
  | f_codec_ready CODEC => bool_decide (u_codec (w_use w) <> 0)
  | f_buffer_exists AUDIO_BUFFER => u_audio (w_use w)
  | f_buffer_exists SP_AUDIO_BUFFER => u_sp (w_use w)
  | f_timer_samplecount => if u_timer (w_use w) then 160 else 0
  | f_buffer_inuse AUDIO_BUFFER => Z.of_nat (length (w_queue w))
  | f_buffer_read AUDIO_BUFFER n => take (Z.to_nat n) (w_queue w)
  | f_file_read FH _ => match w_reads w with O => (SUCCESS, 240, file_bytes) | _ => (SWITCH_STATUS_FALSE, 0, []) end
  | f_get_variable "playback_delimiter" => Some "!"
  | f_get_variable "timer_name" => Some "soft"
  | f_get_variable "tts_engine" => Some "aliyun"
  | f_separate_string _ _ _ => ["vm/one.wav"; "say:two"; "three"]
  | c => benign c
  end.

Definition play_next (w : play_world) (c : fcall) (r : fresp c) : play_world :=
  let u := use_upd (w_use w) (Ev c r) in
  match Ev c r with
  | Ev (f_file_open FH _ _ _ _) _ => mkWorld u 0 (w_queue w)
  | Ev (f_file_read FH _) _ => mkWorld u (S (w_reads w)) (w_queue w)
  | Ev (f_buffer_write AUDIO_BUFFER d) _ => mkWorld u (w_reads w) (w_queue w ++ d)
  | Ev (f_buffer_read AUDIO_BUFFER _) d => mkWorld u (w_reads w) (drop (length d) (w_queue w))
  | _ => mkWorld u (w_reads w) (w_queue w)
  end.

Definition play_env (w : play_world) (c : fcall) : fresp c * play_world :=
  let r := play_answer w c in (r, play_next w c r).

Lemma play_next_use w c r : w_use (play_next w c r) = use_upd (w_use w) (Ev c r).
Proof. destruct w as [u n q], c; try reflexivity; match goal with x : handle |- _ => destruct x | x : buffer |- _ => destruct x end; reflexivity. Qed.

Lemma play_answer_truthful w c : truthful (w_use w) (Ev c (play_answer w c)).
Proof.
  destruct c; try exact I; repeat match goal with
    | x : handle |- _ => destruct x | x : file_flag |- _ => destruct x
    | x : codec_id |- _ => destruct x | x : buffer |- _ => destruct x end; try exact I; try reflexivity.
  cbn. by destruct (u_timer (w_use w)).
Qed.

(** Three files, one of which is a text to speak. *)
Definition playback : FM result := switch_ivr_play_file (Some (mkArgs true false false false)) 50 false (Some "list").
Definition world0 : play_world := mkWorld nothing 0 [].
Definition playback_out := run (resp := fresp) play_env world0 playback.

Lemma playback_exec : exec playback playback_out.2 (Finished SUCCESS).
Proof.
  assert (E : playback_out.1.1 = Finished SUCCESS) by (vm_compute; reflexivity).
  rewrite <- E. exact (run_exec play_env playback world0).
Qed.

Lemma playback_truthful : legal_trace truthful use_upd nothing playback_out.2.
Proof.
  refine (run_legal_in truthful use_upd w_use play_env playback world0 _).
  intros w c. split; [apply play_answer_truthful | apply play_next_use].
Qed.


(** The world with what is expected of it: a file is open when it was opened. *)
Lemma playback_creates : legal_trace creates log_upd no_log playback_out.2.
Proof. vm_compute. repeat split. Qed.

Lemma play_reported_witness :
  reported (ghost log_upd no_log playback_out.2) /\
  fired (ghost log_upd no_log playback_out.2) =
    events_of "/usr/local/freeswitch/vm/one.wav" ++ events_of "/usr/local/freeswitch/three.PCMU".
Proof.
  split; [|vm_compute; reflexivity].
  exact (play_reported _ 50%nat false (Some "list") _ _ playback_exec playback_creates).
Defined.

(** A file alone, played plainly. *)
Definition tape_answer (w : tape * nat) (c : fcall) : fresp c :=
  match c with
  | f_buffer_exists AUDIO_BUFFER => true
  | f_buffer_inuse AUDIO_BUFFER => Z.of_nat (length (t_queue w.1))
  | f_buffer_read AUDIO_BUFFER n => take (Z.to_nat n) (t_queue w.1)
  | f_file_read FH _ => match w.2 with O => (SUCCESS, 240, file_bytes) | _ => (SWITCH_STATUS_FALSE, 0, []) end
  | c => benign c
  end.
Definition tape_env (w : tape * nat) (c : fcall) : fresp c * (tape * nat) :=
  let r := tape_answer w c in
  (r, (tape_upd w.1 (Ev c r), match c with f_file_read _ _ => S w.2 | _ => w.2 end)).

Definition player0 : player :=
  mkPlayer true (replicate 65536 0) (Some sample_impl) 0 (-1) 0 false None 0 SUCCESS false.
Definition config0 : play_config := mkConfig sample_impl None None false 250.
Definition tape0 : tape * nat := (mkTape [] [] [] [], 0%nat).
Definition tape_loop := iterp (play_body None 50 config0 160) 50 (mkPlaying player0 false 320 false).
Definition tape_out := run (resp := fresp) tape_env tape0 tape_loop.

Lemma tape_plain : legal_trace (plainly 1) tape_upd (mkTape [] [] [] []) tape_out.2.
Proof.
  refine (run_legal_in (plainly 1) tape_upd fst tape_env tape_loop tape0 _). intros [g n] c. split; [|done].
  destruct c; try exact I; try reflexivity;
    repeat match goal with
    | x : handle |- _ => destruct x | x : file_flag |- _ => destruct x | x : fh_field |- _ => destruct x
    | x : buffer |- _ => destruct x end; try exact I; try reflexivity.
  destruct n; cbn; done.
Qed.

Lemma tape_exec : exec tape_loop tape_out.2 tape_out.1.1.
Proof. exact (run_exec tape_env tape_loop tape0). Qed.


(** ** What the packets and the lists of files do not get right *)

(** Two of four bytes were read: the bytes after them are kept from an earlier
    packet, and bytes past the packet are set. *)
Example short_read_keeps_old_samples : fill_packet [9; 9; 9; 9; 9; 9; 9; 9] [1; 2] 4 = Some [1; 2; 9; 9; 255; 255; 9; 9].
Proof. reflexivity. Qed.

(** A last packet of two samples is padded to four from its second sample on. *)
Example padding_hits_valid_samples :
  pad_packet [1; 2; 3; 4; 0; 0; 0; 0] 2 4 = Some ([1; 2; 255; 255; 0; 0; 0; 0], 4).
Proof. reflexivity. Qed.

(** The remaining second that [play_end] stores is not a timeout for the next
    call, and a timeout that ran out is not stored. *)
Definition spent_second : player := mkPlayer false [] None 8000 (-1) 0 false None 0 SUCCESS false.
Definition stored (p : player) : list Z :=
  omap (fun e => match ev_call e with f_set_variable "playback_timeout_sec_cumulative" (Some (VInt v)) => Some v | _ => None end)
    (run (resp := fresp) (fun u c => (benign c, u)) tt (play_end None sample_impl true p)).2.
Example last_second_is_no_timeout :
  stored spent_second = [1] /\ timeout_of sample_impl (Some "1") = 0 /\ stored (set_timeout 0 spent_second) = [].
Proof. vm_compute. repeat split. Qed.

(** [a] was played from its native file; [b.wav] cannot be opened. *)
Definition missing (c : fcall) : fresp c :=
  match c with
  | f_file_open _ path _ _ _ => if String.eqb path "/b.wav" then SWITCH_STATUS_FALSE else SUCCESS
  | c => benign c
  end.
Definition list_of_two : FM (string * option string) :=
  '(path, backup) ← play_path sample_impl "" "/a" None;
  '(path, backup) ← play_open sample_impl path backup [];
  '(path, backup) ← play_path sample_impl "" "/b.wav" backup;
  play_open sample_impl path backup [].
Example other_file_is_played : (run (fun u c => (missing c, u)) tt list_of_two).1.1 = ("/a.wav", None).
Proof. vm_compute. reflexivity. Qed.

(** The second file starts at another speed: a buffer that was destroyed with
    the first file is emptied. *)
Definition next_file : playing :=
  mkPlaying (mkPlayer true [] (Some sample_impl) 0 1 0 false None 0 SUCCESS false) false 320 false.
Definition speed_answer (u : play_use) (c : fcall) : fresp c :=
  match c with
  | f_buffer_exists AUDIO_BUFFER => u_audio u
  | f_buffer_exists SP_AUDIO_BUFFER => u_sp u
  | c => benign c
  end.
Definition speed_env (u : play_use) (c : fcall) : fresp c * play_use :=
  (speed_answer u c, use_upd u (Ev c (speed_answer u c))).
Example flush_without_buffer :
  let out := run speed_env (mkUse 1 true 1 true false false false 1 0 0) (play_flush next_file) in
  (exists r, Ev (f_buffer_zero SP_AUDIO_BUFFER) r ∈ out.2) /\ u_sp out.1.2 = false.
Proof. vm_compute. split; [|reflexivity]. exists tt. repeat constructor. Qed.
