(* ===== verification/CollectInput.v ===== *)
(** * Collecting digits or speech: [switch_ivr_play_and_collect_input] with its
    callback, and [switch_ivr_soft_hold], of [src/switch_ivr_play_say.c]

    [switch_ivr_play_file] and [switch_ivr_sleep] call the callback back with
    the inputs that come in.  They are modelled as coroutines: their answer is
    an input to deliver or the status they return, and [c_callback_return]
    resumes them with the status of the callback. *)

From Stdlib Require Import Ascii String.
From S2P Require Import Prelude Interaction SwitchCore.

#[local] Open Scope string_scope.
#[local] Open Scope list_scope.
#[local] Open Scope Z_scope.

(** JSON values are not part of the repository. *)
Class CollectDefs := {
  cJSON : Type;
  cJSON_GetObjectCstr : cJSON -> string -> option string;
}.

(** An input: a digit, or an event with [event_id == SWITCH_EVENT_DETECTED_SPEECH],
    its header [Speech-Type] and its body. *)
Inductive input :=
| INPUT_DTMF (digit : ascii)
| INPUT_EVENT (detected : bool) (speech_type body : option string).

Inductive delivery := Deliver (i : input) | Returned (st : switch_status_t).

Section CollectInput.
Context `{CollectDefs}.

Inductive ccall :=
| c_recursion_start
| c_recursion_stop
| c_session_alloc (size : Z)
| c_detect_speech (mod_name grammar : string)
| c_play_file (prompt : option string)
| c_sleep (ms : Z)
| c_callback_return (st : switch_status_t)
| c_last_ping
| c_start_input_timers
| c_pause_detect_speech
| c_micro_time_now
| c_channel_ready
| c_deliver_asr (detected : bool) (speech_type body : option string)
| c_cJSON_Parse (s : string)
| c_cJSON_Delete (j : cJSON).

Definition cresp (c : ccall) : Type :=
  match c with
  | c_recursion_start | c_channel_ready => bool
  | c_detect_speech _ _ | c_last_ping => switch_status_t
  | c_play_file _ | c_sleep _ | c_callback_return _ => delivery
  | c_micro_time_now => Z
  | c_cJSON_Parse _ => option cJSON
  | _ => unit
  end%type.

Notation CM A := (prog cresp A).

(** [switch_collect_input_state_t], the flags as five booleans; [digits] is the
    string in the buffer ([None]: NULL), [terminator] is NUL when unset. *)
Record switch_collect_input_state_t := mkCollect {
  f_prompt : bool;
  f_speech : bool;
  f_speech_done : bool;
  f_digits : bool;
  f_digits_done : bool;
  recognition_result : option cJSON;
  digits : option string;
  min_digits : Z;
  max_digits : Z;
  c_terminators : option string;
  terminator : ascii;
  last_digit_time : Z;
  is_speech : bool;
  original_callback : bool;
}.

Notation NUL := "000"%char.

(** Updates of a field. *)
Definition set_prompt (b : bool) s := mkCollect b (f_speech s) (f_speech_done s) (f_digits s) (f_digits_done s)
  (recognition_result s) (digits s) (min_digits s) (max_digits s) (c_terminators s) (terminator s)
  (last_digit_time s) (is_speech s) (original_callback s).
Definition set_speech s := mkCollect (f_prompt s) true (f_speech_done s) (f_digits s) (f_digits_done s)
  (recognition_result s) (digits s) (min_digits s) (max_digits s) (c_terminators s) (terminator s)
  (last_digit_time s) (is_speech s) (original_callback s).
Definition set_speech_done s := mkCollect (f_prompt s) (f_speech s) true (f_digits s) (f_digits_done s)
  (recognition_result s) (digits s) (min_digits s) (max_digits s) (c_terminators s) (terminator s)
  (last_digit_time s) (is_speech s) (original_callback s).
Definition set_digits_done s := mkCollect (f_prompt s) (f_speech s) (f_speech_done s) (f_digits s) true
  (recognition_result s) (digits s) (min_digits s) (max_digits s) (c_terminators s) (terminator s)
  (last_digit_time s) (is_speech s) (original_callback s).
Definition set_result r s := mkCollect (f_prompt s) (f_speech s) (f_speech_done s) (f_digits s) (f_digits_done s)
  r (digits s) (min_digits s) (max_digits s) (c_terminators s) (terminator s)
  (last_digit_time s) (is_speech s) (original_callback s).
Definition set_digits d s := mkCollect (f_prompt s) (f_speech s) (f_speech_done s) (f_digits s) (f_digits_done s)
  (recognition_result s) d (min_digits s) (max_digits s) (c_terminators s) (terminator s)
  (last_digit_time s) (is_speech s) (original_callback s).
Definition set_terminator c s := mkCollect (f_prompt s) (f_speech s) (f_speech_done s) (f_digits s) (f_digits_done s)
  (recognition_result s) (digits s) (min_digits s) (max_digits s) (c_terminators s) c
  (last_digit_time s) (is_speech s) (original_callback s).
Definition set_time t s := mkCollect (f_prompt s) (f_speech s) (f_speech_done s) (f_digits s) (f_digits_done s)
  (recognition_result s) (digits s) (min_digits s) (max_digits s) (c_terminators s) (terminator s)
  t (is_speech s) (original_callback s).
Definition set_is_speech b s := mkCollect (f_prompt s) (f_speech s) (f_speech_done s) (f_digits s) (f_digits_done s)
  (recognition_result s) (digits s) (min_digits s) (max_digits s) (c_terminators s) (terminator s)
  (last_digit_time s) b (original_callback s).

(** ** The callback *)

(** [strchr(s, c) != NULL], true of the terminating NUL. *)
Definition strchr_nul (s : string) (c : ascii) : bool := bool_decide (c = NUL) || strchr s c.

(** A NUL stored at the end of a string leaves the string as it is. *)
Definition put_digit (s : string) (c : ascii) : string := if decide (c = NUL) then s else (s ++ String c "")%string.

(** The branch of the events of the recogniser. *)
Definition collect_speech (speech_type body : option string) (s : switch_collect_input_state_t)
  : CM (switch_collect_input_state_t * switch_status_t) :=
  let t := default "" speech_type in
  (if original_callback s then invoke (c_deliver_asr true speech_type body) else mret tt) ;;
  if strcaseeq t "detected-speech" then
    let s := set_speech_done s in
    match body with
    | None | Some EmptyString => mret (s, BREAK)
    | Some result =>
        r ← invoke (c_cJSON_Parse result);
        let s := set_result r s in
        mret (match r with
              | Some j => if zstr (cJSON_GetObjectCstr j "text") then s else set_digits_done s
              | None => s
              end, BREAK)
    end
  else if strcaseeq t "detected-partial-speech" then mret (s, SUCCESS)
  else if strcaseeq "closed" t then mret (set_speech_done s, BREAK)
  else if strcaseeq t "begin-speaking" then
    mret (set_is_speech true s, if f_prompt s then BREAK else SUCCESS)
  else mret (s, SUCCESS).

Definition is_terminator (terms : option string) (d : ascii) : bool :=
  match terms with None | Some EmptyString => false | Some t => strchr_nul t d end.

(** The branch of the digits. *)
Definition collect_digit (d : ascii) (s : switch_collect_input_state_t)
  : CM (switch_collect_input_state_t * switch_status_t) :=
  now ← invoke c_micro_time_now;
  let s := set_is_speech false (set_time now s) in
  if is_terminator (c_terminators s) d then
    let s := set_digits_done (set_terminator d s) in
    mret (if f_digits s && negb (zstr (digits s)) then set_speech_done s else s, BREAK)
  else if f_digits_done s then mret (s, BREAK)
  else
    let n := strlen (default "" (digits s)) in
    let s := if decide (n < max_digits s) then set_digits (Some (put_digit (default "" (digits s)) d)) s else s in
    mret (if decide (n + 1 >= max_digits s) then set_speech_done (set_digits_done s) else s, BREAK).

(** [switch_collect_input_callback] *)
Definition switch_collect_input_callback (i : input) (s : switch_collect_input_state_t)
  : CM (switch_collect_input_state_t * switch_status_t) :=
  match i with
  | INPUT_EVENT detected speech_type body =>
      if f_speech s && detected && negb (zstr speech_type) then collect_speech speech_type body s
      else mret (s, SUCCESS)
  | INPUT_DTMF d => if f_digits s then collect_digit d s else mret (s, SUCCESS)
  end.

(** The function that calls back, until it returns; [None] is out of fuel. *)
Fixpoint deliver (fuel : nat) (d : delivery) (s : switch_collect_input_state_t)
  : CM (option (switch_collect_input_state_t * switch_status_t)) :=
  match d with
  | Returned st => mret (Some (s, st))
  | Deliver i =>
      match fuel with
      | O => mret None
      | S fuel' =>
          '(s, st) ← switch_collect_input_callback i s;
          d ← invoke (c_callback_return st);
          deliver fuel' d s
      end
  end.

(** ** Waiting for the result *)

(** [if (state.is_speech == SWITCH_FALSE) { ... }]: the state, the next sleep
    and the status.  [digit_timeout] is unsigned, [sleep_time] an [int]. *)
Definition inter_digit (digit_timeout sleep_time : Z) (s : switch_collect_input_state_t) (status : switch_status_t)
  : CM (switch_collect_input_state_t * Z * switch_status_t) :=
  if is_speech s then mret (s, sleep_time, status)
  else
    now ← invoke c_micro_time_now;
    let elapsed := i32 (Z.quot (now - last_digit_time s) 1000) in
    if decide (u32 elapsed >= digit_timeout) then
      mret (if f_digits_done s then s else set_digits_done s, i32 digit_timeout, SUCCESS)
    else mret (s, i32 (u32 (digit_timeout - elapsed)), status).

(** The loop; [dmachine]: [args && args->dmachine].  [None] is out of fuel. *)
Fixpoint wait_result (fuel : nat) (dmachine : bool) (digit_timeout sleep_time : Z)
    (s : switch_collect_input_state_t) (status : switch_status_t)
  : CM (option (switch_collect_input_state_t * switch_status_t)) :=
  match fuel with
  | O => mret None
  | S fuel' =>
      if f_digits_done s && f_speech_done s then mret (Some (s, status))
      else
        ready ← invoke c_channel_ready;
        if negb ready then mret (Some (s, status))
        else
          d ← invoke (c_sleep (u32 sleep_time));
          r ← deliver fuel' d s;
          match r with
          | None => mret None
          | Some (s, status) =>
              ping ← (if dmachine then invoke c_last_ping else mret SUCCESS);
              if decide (ping <> SUCCESS) then mret (Some (set_speech_done (set_digits_done s), SUCCESS))
              else if decide (terminator s <> NUL) then
                wait_result fuel' dmachine digit_timeout (i32 digit_timeout) (set_speech_done s) SUCCESS
              else
                '(s, sleep_time, status) ← inter_digit digit_timeout sleep_time s status;
                if decide (status <> BREAK /\ status <> SUCCESS) then mret (Some (s, SWITCH_STATUS_FALSE))
                else wait_result fuel' dmachine digit_timeout sleep_time s status
          end
  end.

(** ** [switch_ivr_play_and_collect_input] *)

(** The parts of [args] that matter here. *)
Record collect_args := mkCollectArgs { ca_dmachine : bool; ca_input_callback : bool }.

(** What is returned and stored through the three result pointers. *)
Record collected := mkCollected {
  col_status : switch_status_t;
  col_result : option cJSON;
  col_digits : option string;
  col_terminator : ascii;
}.

(** The limits that are used, from the parameters. *)
Definition norm_timeout (digit_timeout : Z) : Z := if decide (digit_timeout <= 0) then 5000 else digit_timeout.
Definition norm_min (min : Z) : Z := if decide (min < 0) then 0 else min.
Definition norm_max (min max : Z) : Z :=
  if decide (norm_min min > 0) then
    let max := if decide (max < norm_min min) then norm_min min else max in
    if decide (max > 100) then 100 else max
  else max.

Definition norm_terminators (terminators : option string) : option string :=
  match terminators with
  | None | Some EmptyString => None
  | Some t =>
      if strcaseeq t "any" then Some "1234567890*#" else if strcaseeq t "none" then None else Some t
  end.

(** The state when the digits are configured. *)
Definition initial_state (min max : Z) (terminators : option string) (args : option collect_args)
  : switch_collect_input_state_t :=
  let enabled := bool_decide (norm_min min > 0) in
  mkCollect false false false enabled (negb enabled) None (if enabled then Some "" else None)
    (norm_min min) (norm_max min max) (norm_terminators terminators) NUL 0 false
    match args with Some a => ca_input_callback a | None => false end.

Definition has_dmachine (args : option collect_args) : bool :=
  match args with Some a => ca_dmachine a | None => false end.

(** From the label [done] on; the result pointers [recognition_result] and
    [digits_collected] may be NULL. *)
Definition collect_done (want_result want_digits : bool) (args : option collect_args)
    (s : switch_collect_input_state_t) (status : switch_status_t) : CM collected :=
  let status := if decide (status = BREAK) then SUCCESS else status in
  (if f_speech s then invoke c_pause_detect_speech else mret tt) ;;
  '(result, ds) ← (if negb (zstr (digits s)) && bool_decide (strlen (default "" (digits s)) >= min_digits s) then
                     match recognition_result s with
                     | Some j => invoke (c_cJSON_Delete j)
                     | None => mret tt
                     end ;;
                     mret (None, if want_digits then digits s else None)
                   else
                     match recognition_result s with
                     | Some j => if want_result then mret (Some j, None) else invoke (c_cJSON_Delete j) ;; mret (None, None)
                     | None => mret (None, None)
                     end);
  match args with Some _ => invoke c_recursion_stop | None => mret tt end ;;
  mret (mkCollected status result ds (terminator s)).

(** From the playing of the prompt to [done]. *)
Definition collect_run (fuel : nat) (prompt : option string) (digit_timeout : Z) (args : option collect_args)
    (s : switch_collect_input_state_t) : CM (option (switch_collect_input_state_t * switch_status_t)) :=
  d ← invoke (c_play_file prompt);
  r ← deliver fuel d (set_prompt true s);
  match r with
  | None => mret None
  | Some (s, status) =>
      let s := set_prompt false s in
      ping ← (if has_dmachine args then invoke c_last_ping else mret SUCCESS);
      let '(s, status) :=
        if decide (ping <> SUCCESS) then (set_speech_done (set_digits_done s), SUCCESS) else (s, status) in
      if decide (status <> BREAK /\ status <> SUCCESS) then mret (Some (s, SWITCH_STATUS_FALSE))
      else if f_digits_done s && f_speech_done s then mret (Some (s, status))
      else
        (if f_speech s then invoke c_start_input_timers else mret tt) ;;
        now ← invoke c_micro_time_now;
        wait_result fuel (has_dmachine args) digit_timeout (i32 digit_timeout) (set_time now s) status
  end.

(** The recogniser, when it is enabled. *)
Definition start_speech (recognizer_mod_name recognizer_grammar : option string) (s : switch_collect_input_state_t)
  : CM (switch_collect_input_state_t * switch_status_t) :=
  match recognizer_grammar, recognizer_mod_name with
  | Some g, Some m =>
      st ← invoke (c_detect_speech m g);
      if decide (st <> SUCCESS) then
        mret (s, if decide (st = SWITCH_STATUS_FALSE) then SWITCH_STATUS_GENERR else st)
      else mret (set_speech s, SUCCESS)
  | _, _ => mret (set_speech_done s, SUCCESS)
  end.

Definition switch_ivr_play_and_collect_input (fuel : nat) (prompt recognizer_mod_name recognizer_grammar : option string)
    (min max : Z) (terminators : option string) (digit_timeout : Z) (want_result want_digits : bool)
    (args : option collect_args) : CM (option collected) :=
  ok ← match args with Some _ => invoke c_recursion_start | None => mret true end;
  if negb ok then mret (Some (mkCollected SWITCH_STATUS_GENERR None None NUL))
  else
    (if decide (norm_min min > 0) then invoke (c_session_alloc (norm_max min max + 1)) else mret tt) ;;
    '(s, status) ← start_speech recognizer_mod_name recognizer_grammar (initial_state min max terminators args);
    if decide (status <> SUCCESS) then r ← collect_done want_result want_digits args s status; mret (Some r)
    else
      r ← collect_run fuel prompt (norm_timeout digit_timeout) args s;
      match r with
      | None => mret None
      | Some (s, status) => r ← collect_done want_result want_digits args s status; mret (Some r)
      end.

(** ** The digits *)

(** The inputs that are delivered. *)
Definition delivered (e : event cresp) : option input :=
  match e with
  | Ev (c_play_file _) (Deliver i) | Ev (c_sleep _) (Deliver i) | Ev (c_callback_return _) (Deliver i) => Some i
  | _ => None
  end.

(** The digits that are pressed. *)
Definition press (pressed : list ascii) (e : event cresp) : list ascii :=
  match delivered e with Some (INPUT_DTMF d) => pressed ++ [d] | _ => pressed end.

(** A digit is a character other than NUL. *)
Definition real_digits (_ : list ascii) (e : event cresp) : Prop :=
  match delivered e with Some (INPUT_DTMF d) => d <> NUL | _ => True end.

(** The digits before the first terminator, at most [max] of them. *)
Fixpoint before_terminator (terms : option string) (pressed : list ascii) : list ascii :=
  match pressed with
  | [] => []
  | d :: l => if is_terminator terms d then [] else d :: before_terminator terms l
  end.
Definition expected_digits (max : Z) (terms : option string) (pressed : list ascii) : list ascii :=
  take (Z.to_nat max) (before_terminator terms pressed).

Definition held_digits (s : switch_collect_input_state_t) : list ascii :=
  list_ascii_of_string (default "" (digits s)).

(** What the state holds after [pressed]. *)
Record digits_ok (pressed : list ascii) (s : switch_collect_input_state_t) : Prop := {
  dk_prefix : held_digits s `prefix_of` expected_digits (max_digits s) (c_terminators s) pressed;
  dk_open : f_digits_done s = false ->
    held_digits s = before_terminator (c_terminators s) pressed /\
    Z.of_nat (length (held_digits s)) < max_digits s /\
    Forall (fun d => is_terminator (c_terminators s) d = false) pressed;
  dk_terminator : terminator s <> NUL -> is_terminator (c_terminators s) (terminator s) = true /\ terminator s ∈ pressed;
  dk_off : f_digits s = false -> f_digits_done s = true /\ digits s = None;
}.

Lemma before_terminator_app terms p d :
  Forall (fun d => is_terminator terms d = false) p ->
  before_terminator terms (p ++ [d]) = before_terminator terms p ++ before_terminator terms [d].
Proof.
  induction 1 as [|x p Hx Hp IH]; cbn; [done|]. rewrite Hx. cbn. by rewrite IH.
Qed.

Lemma before_terminator_grows terms p q :
  before_terminator terms p `prefix_of` before_terminator terms (p ++ q).
Proof.
  induction p as [|x p IH]; cbn; [apply prefix_nil|].
  destruct (is_terminator terms x); [done|]. by apply prefix_cons.
Qed.

Lemma take_prefix {A} n (a b : list A) : a `prefix_of` b -> take n a `prefix_of` take n b.
Proof. intros [k ->]. rewrite take_app. by exists (take (n - length a) k). Qed.

Lemma expected_grows max terms p q : expected_digits max terms p `prefix_of` expected_digits max terms (p ++ q).
Proof. apply take_prefix, before_terminator_grows. Qed.

Lemma ascii_of_append (a b : string) :
  list_ascii_of_string (a ++ b)%string = list_ascii_of_string a ++ list_ascii_of_string b.
Proof.
  induction a as [|c a IH]; [done|].
  change (String c a ++ b)%string with (String c (a ++ b)%string). cbn [list_ascii_of_string app]. by rewrite IH.
Qed.

Lemma length_ascii s : Z.of_nat (length (list_ascii_of_string s)) = strlen s.
Proof. unfold strlen. f_equal. induction s; cbn; auto. Qed.

(** The state between two inputs does not depend on the other fields. *)
Lemma digits_ok_same pressed s s' :
  digits_ok pressed s -> digits s' = digits s -> max_digits s' = max_digits s ->
  c_terminators s' = c_terminators s -> terminator s' = terminator s -> f_digits s' = f_digits s ->
  (f_digits_done s' = f_digits_done s \/ f_digits_done s' = true) -> digits_ok pressed s'.
Proof.
  intros [H1 H2 H3 H4] E1 E2 E3 E4 E5 E6. constructor; unfold held_digits in *; rewrite ?E1, ?E2, ?E3, ?E4; auto.
  - intros Hd. destruct E6 as [E6|E6]; [|congruence]. apply H2. congruence.
  - intros Hd. destruct H4 as [H5 H6]; [congruence|]. split; [|done]. destruct E6; congruence.
Qed.

(** A digit that comes too late. *)
Lemma digits_ok_more pressed d s :
  digits_ok pressed s -> f_digits_done s = true -> digits_ok (pressed ++ [d]) s.
Proof.
  intros [H1 H2 H3 H4] Hd. constructor; [| congruence | | done].
  - etrans; [exact H1|]. apply expected_grows.
  - intros Ht. destruct (H3 Ht) as [H5 H6]. split; [done|]. rewrite elem_of_app. by left.
Qed.

(** The accepted digit. *)
Lemma digits_ok_accept pressed d s s' :
  digits_ok pressed s -> d <> NUL -> f_digits s = true -> f_digits_done s = false ->
  is_terminator (c_terminators s) d = false ->
  digits s' = Some (put_digit (default "" (digits s)) d) -> max_digits s' = max_digits s ->
  c_terminators s' = c_terminators s -> terminator s' = terminator s -> f_digits s' = f_digits s ->
  (f_digits_done s' = false -> strlen (default "" (digits s)) + 1 < max_digits s) ->
  digits_ok (pressed ++ [d]) s'.
Proof.
  intros [H1 H2 H3 H4] Hd Hon Ho Ht E1 E2 E3 E4 E5 E6.
  destruct (H2 Ho) as (H5 & H6 & H7). unfold put_digit in E1. rewrite decide_False in E1 by done.
  assert (Eh : held_digits s' = held_digits s ++ [d]).
  { unfold held_digits. rewrite E1. cbn [from_option id]. apply ascii_of_append. }
  assert (Eb : before_terminator (c_terminators s) (pressed ++ [d]) = held_digits s ++ [d]).
  { rewrite before_terminator_app by done. cbn. by rewrite Ht, H5. }
  constructor; rewrite ?E2, ?E3, ?E4, ?Eh.
  - unfold expected_digits. rewrite Eb, take_ge; [done|]. rewrite length_app. cbn. lia.
  - intros Ho'. split_and!; [by rewrite Eb | | by apply Forall_app_2; [|repeat constructor]].
    specialize (E6 Ho'). unfold held_digits in *. rewrite length_app. cbn [length]. rewrite <- length_ascii in E6. lia.
  - intros Hn. destruct (H3 Hn). split; [done|]. rewrite elem_of_app. by left.
  - congruence.
Qed.

Lemma digits_ok_terminated pressed d s s' :
  digits_ok pressed s -> f_digits s = true -> is_terminator (c_terminators s) d = true ->
  digits s' = digits s -> max_digits s' = max_digits s -> c_terminators s' = c_terminators s ->
  terminator s' = d -> f_digits s' = f_digits s -> f_digits_done s' = true ->
  digits_ok (pressed ++ [d]) s'.
Proof.
  intros [H1 H2 H3 H4] Hon Ht E1 E2 E3 E4 E5 E6. constructor; unfold held_digits in *; rewrite ?E1, ?E2, ?E3, ?E4.
  - etrans; [exact H1|]. apply expected_grows.
  - congruence.
  - intros _. split; [done|]. rewrite elem_of_app, list_elem_of_singleton. by right.
  - congruence.
Qed.

(** The limits, and the buffer when digits are looked for. *)
Definition limits (mn mx : Z) (s : switch_collect_input_state_t) : Prop :=
  (f_digits s = true <-> 1 <= mn) /\ (f_digits s = true -> mx <= 100 /\ is_Some (digits s)).

Lemma limits_same mn mx s s' : limits mn mx s -> f_digits s' = f_digits s ->
  (digits s' = digits s \/ is_Some (digits s')) -> limits mn mx s'.
Proof.
  intros [H1 H2] E1 E2. split; rewrite E1; [done|]. intros Hf. destruct (H2 Hf). split; [done|].
  destruct E2 as [->|]; done.
Qed.

(** What the loop carries: the state after the inputs so far, its limits fixed. *)
Definition collecting (mn mx : Z) (ts : option string) (pressed : list ascii) (s : switch_collect_input_state_t) : Prop :=
  min_digits s = mn /\ max_digits s = mx /\ c_terminators s = ts /\ limits mn mx s /\ digits_ok pressed s.

Section Digits.
Context (mn mx : Z) (ts : option string).
Notation wpd := (wp real_digits press).
Notation inv := (collecting mn mx ts).

Lemma collecting_same p s s' :
  inv p s -> digits s' = digits s -> min_digits s' = min_digits s -> max_digits s' = max_digits s ->
  c_terminators s' = c_terminators s -> terminator s' = terminator s -> f_digits s' = f_digits s ->
  (f_digits_done s' = f_digits_done s \/ f_digits_done s' = true) -> inv p s'.
Proof.
  intros (E1 & E2 & E3 & E4 & Hs) F0 F1 F2 F3 F4 F5 F6. split_and!; [congruence.. | apply (limits_same _ _ s); auto |].
  by apply (digits_ok_same p s).
Qed.

Ltac same_fields := eapply collecting_same; [eassumption | try reflexivity; auto ..].

Lemma collect_digit_wp p d s : d <> NUL -> f_digits s = true -> inv p s ->
  wpd (collect_digit d s) (p ++ [d]) (fun g r => inv g r.1).
Proof.
  intros Hd Hon (E1 & E2 & E3 & E4 & Hs) now _. cbn -[is_terminator put_digit strlen].
  destruct (is_terminator (c_terminators s) d) eqn:Ht.
  - cbn. split_and!; try (by destruct (f_digits s && _)).
    apply (digits_ok_terminated p d s); try done; by destruct (f_digits s && _).
  - destruct (f_digits_done s) eqn:Ho; cbn -[put_digit strlen].
    + split_and!; try done. apply (digits_ok_same _ s); try done; [by apply digits_ok_more | by left].
    + destruct (dk_open _ _ Hs Ho) as (_ & Hlt & _). unfold held_digits in Hlt. rewrite length_ascii in Hlt.
      rewrite (decide_True _ _ Hlt). split_and!; try (by case_decide).
      { apply (limits_same _ _ s); [done | by case_decide | right; case_decide; by eexists]. }
      apply (digits_ok_accept p d s); try done; case_decide as Hn; cbn -[strlen] in *; try done. lia.
Qed.

Lemma collect_speech_wp p t b s : inv p s -> wpd (collect_speech t b s) p (fun g r => inv g r.1).
Proof.
  intros Hs. unfold collect_speech. apply wp_bind.
  apply wp_mono with (Q := fun g _ => g = p); [|by destruct (original_callback s); [intros r _|]].
  intros g _ ->. repeat case_match; cbn; try (by same_fields).
  intros r _. cbn. same_fields; try (by repeat case_match). repeat case_match; auto.
Qed.

Lemma callback_wp p i s : inv p s ->
  match i with INPUT_DTMF d => d <> NUL | _ => True end ->
  wpd (switch_collect_input_callback i s) (match i with INPUT_DTMF d => p ++ [d] | _ => p end) (fun g r => inv g r.1).
Proof.
  intros Hs Hi. destruct i as [d|det t b]; cbn [switch_collect_input_callback].
  - destruct (f_digits s) eqn:Hon; [by apply collect_digit_wp|].
    destruct Hs as (E1 & E2 & E3 & E4 & Hs). destruct (dk_off _ _ Hs Hon) as [Hd _].
    split_and!; try done. by apply digits_ok_more.
  - case_match; [by apply collect_speech_wp | done].
Qed.

(** The ghost state after an answer. *)
Definition after (p : list ascii) (d : delivery) : list ascii :=
  match d with Deliver (INPUT_DTMF x) => p ++ [x] | _ => p end.
Definition real (d : delivery) : Prop := match d with Deliver (INPUT_DTMF x) => x <> NUL | _ => True end.

Notation some_inv := (fun g (r : option (switch_collect_input_state_t * switch_status_t)) =>
  match r with Some (s, _) => inv g s | None => True end).

Lemma deliver_wp fuel : forall p d s, inv p s -> real d -> wpd (deliver fuel d s) (after p d) some_inv.
Proof.
  induction fuel as [|fuel IH]; intros p d s Hs Hd; destruct d as [i|st]; cbn [deliver]; try done.
  apply wp_bind. change (after p (Deliver i)) with (match i with INPUT_DTMF d => p ++ [d] | _ => p end).
  eapply wp_mono; [|by apply callback_wp; [|destruct i]].
  intros g [s' st] Hs' d' Hd'. cbn [mbind prog_bind bindp].
  replace (press g _) with (after g d') by by destruct d' as [[]|]. apply IH; [done|]. by destruct d' as [[]|].
Qed.

Lemma inter_digit_wp p t sl s st : inv p s -> wpd (inter_digit t sl s st) p (fun g r => inv g r.1.1).
Proof.
  intros Hs. unfold inter_digit. destruct (is_speech s); [done|]. intros now _. cbn. case_decide; [|done].
  destruct (f_digits_done s) eqn:E; [done|]. same_fields.
Qed.

Lemma wait_result_wp fuel dm t : forall p sl s st, inv p s -> wpd (wait_result fuel dm t sl s st) p some_inv.
Proof.
  induction fuel as [|fuel IH]; intros p sl s st Hs; cbn [wait_result]; [done|].
  destruct (f_digits_done s && f_speech_done s); [done|]. intros ready _. cbn [mbind prog_bind bindp].
  destruct (negb ready); [done|]. intros d Hd. cbn [mbind prog_bind bindp]. apply wp_bind.
  replace (press _ _) with (after p d) by by destruct d as [[]|].
  eapply wp_mono; [|apply (deliver_wp fuel p d s Hs); by destruct d as [[]|]].
  intros g [[s1 st1]|] Hs1; [|done]. apply wp_bind.
  apply wp_mono with (Q := fun g' _ => g' = g); [|by destruct dm; [intros r _|]].
  intros g' ping ->. repeat case_decide; try (by same_fields).
  - apply IH. same_fields.
  - apply wp_bind. eapply wp_mono; [|by apply inter_digit_wp].
    intros g' [[s2 sl2] st2] Hs2. cbn in *. case_decide; [done|]. by apply IH.
Qed.

Lemma collect_run_wp fuel prompt t args p s : inv p s -> wpd (collect_run fuel prompt t args s) p some_inv.
Proof.
  intros Hs d Hd. cbn [mbind prog_bind bindp]. apply wp_bind.
  replace (press _ _) with (after p d) by by destruct d as [[]|].
  eapply wp_mono; [|apply (deliver_wp fuel p d (set_prompt true s)); [by same_fields | by destruct d as [[]|]]].
  intros g [[s1 st1]|] Hs1; [|done]. cbn zeta. apply wp_bind.
  apply wp_mono with (Q := fun g' _ => g' = g); [|by destruct (has_dmachine args); [intros r _|]].
  intros g' ping ->. destruct (if decide (ping <> SUCCESS) then _ else _) as [s2 st2] eqn:E2.
  assert (Hs2 : inv g s2).
  { case_decide; injection E2 as <- <-; same_fields. }
  clear E2. case_decide; [exact Hs2|]. destruct (f_digits_done s2 && f_speech_done s2); [exact Hs2|]. apply wp_bind.
  apply wp_mono with (Q := fun g' _ => g' = g); [|by destruct (f_speech s2); [intros r _|]].
  intros g' _ -> now _. cbn [mbind prog_bind bindp]. apply wait_result_wp. same_fields.
Qed.

End Digits.

(** What the initial state and the end make of it. *)
Lemma collecting_initial mn mx ts args :
  collecting (norm_min mn) (norm_max mn mx) (norm_terminators ts) [] (initial_state mn mx ts args).
Proof.
  split_and!; try done.
  { unfold limits. cbn. rewrite bool_decide_eq_true. split; [lia|]. unfold norm_max. intros Hm.
    rewrite decide_True by done. split; [repeat case_decide; lia|]. rewrite bool_decide_true by done. by eexists. }
  constructor; unfold held_digits; cbn.
  - case_bool_decide; apply prefix_nil.
  - case_bool_decide as Hm; [|done]. intros _. split_and!; [done | cbn | by constructor].
    unfold norm_max. rewrite decide_True by done. repeat case_decide; lia.
  - done.
  - by case_bool_decide.
Qed.

Definition digits_result (mn mx : Z) (ts : option string) (pressed : list ascii) (r : collected) : Prop :=
  (forall ds, col_digits r = Some ds ->
     1 <= norm_min mn <= strlen ds /\ strlen ds <= norm_max mn mx <= 100 /\
     list_ascii_of_string ds `prefix_of` expected_digits (norm_max mn mx) (norm_terminators ts) pressed) /\
  (col_terminator r <> NUL ->
     is_terminator (norm_terminators ts) (col_terminator r) = true /\ col_terminator r ∈ pressed).

Lemma collect_done_wp mn mx ts wr wd args s status p :
  collecting (norm_min mn) (norm_max mn mx) (norm_terminators ts) p s ->
  wp real_digits press (collect_done wr wd args s status) p (fun g r => digits_result mn mx ts g r).
Proof.
  intros (E1 & E2 & E3 & E4 & [H1 H2 H3 H4]).
  assert (Ht : terminator s <> NUL -> is_terminator (norm_terminators ts) (terminator s) = true /\ terminator s ∈ p).
  { by rewrite <- E3. }
  unfold collect_done. apply wp_bind.
  apply wp_mono with (Q := fun g _ => g = p); [|by destruct (f_speech s); [intros r _|]].
  intros g _ ->. apply wp_bind.
  apply wp_mono with (Q := fun g r => g = p /\ (forall ds, r.2 = Some ds ->
     1 <= norm_min mn <= strlen ds /\ strlen ds <= norm_max mn mx <= 100 /\
     list_ascii_of_string ds `prefix_of` expected_digits (norm_max mn mx) (norm_terminators ts) p)).
  { intros g [res ds] [-> Hds]. apply wp_bind.
    apply wp_mono with (Q := fun g _ => g = p); [|by destruct args; [intros r _|]].
    intros g _ ->. split; [exact Hds | exact Ht]. }
  destruct (negb (zstr (digits s)) && _) eqn:Ec.
  - apply andb_true_iff in Ec as [Ez Em]. apply bool_decide_eq_true in Em.
    apply wp_bind. apply wp_mono with (Q := fun g _ => g = p); [|by destruct (recognition_result s); [intros r _|]].
    intros g _ ->. split; [done|]. intros ds. cbn [snd]. destruct wd; [|done]. intros Eds. rewrite Eds in *. cbn in Em.
    unfold held_digits in H1. rewrite Eds in H1. cbn in H1. rewrite E2, E3 in H1.
    destruct (f_digits s) eqn:Hf; [|destruct (H4 eq_refl); congruence]. destruct E4 as [H5 H6]. destruct (H6 Hf) as [H7 _]. apply H5 in Hf as H8.
    apply prefix_length in H1 as Hl. unfold expected_digits in Hl. rewrite length_take in Hl.
    pose proof (length_ascii ds). pose proof (strlen_nonneg ds). split_and!; try done; lia.
  - destruct (recognition_result s); [destruct wr|]; try by intros; split.
Qed.

Lemma start_speech_wp mn mx ts rm rg p s : collecting mn mx ts p s ->
  wp real_digits press (start_speech rm rg s) p (fun g r => collecting mn mx ts g r.1).
Proof.
  intros Hs. assert (Hs' : collecting mn mx ts p (set_speech_done s)) by (by eapply collecting_same; eauto).
  unfold start_speech. destruct rg as [g|]; [destruct rm as [m|]|]; [|exact Hs'..].
  intros st _. cbn [mbind prog_bind bindp]. case_decide; [exact Hs|].
  eapply collecting_same; eauto.
Qed.

Lemma play_and_collect_wp fuel prompt rm rg mn mx ts t wr wd args :
  wp real_digits press (switch_ivr_play_and_collect_input fuel prompt rm rg mn mx ts t wr wd args) []
    (fun g r => forall c, r = Some c -> digits_result mn mx ts g c).
Proof.
  unfold switch_ivr_play_and_collect_input. apply wp_bind.
  apply wp_mono with (Q := fun g _ => g = []); [|by destruct args; [intros r _|]].
  intros g ok ->. destruct (negb ok).
  { intros c [= <-]. by split. }
  apply wp_bind. apply wp_mono with (Q := fun g _ => g = []); [|by case_decide; [intros r _|]].
  intros g _ ->. apply wp_bind. eapply wp_mono; [|apply start_speech_wp, collecting_initial].
  intros g [s st] Hs. cbn [fst] in Hs. case_decide.
  - apply wp_bind. eapply wp_mono; [|by apply collect_done_wp]. intros g' r Hr c [= <-]. exact Hr.
  - apply wp_bind. eapply wp_mono; [|by apply collect_run_wp]. intros g' [[s' st']|] Hs'; [|by intros c].
    apply wp_bind. eapply wp_mono; [|by apply collect_done_wp]. intros g'' r Hr c [= <-]. exact Hr.
Qed.

(** *** Without a recogniser *)

(** No further digit changes what is expected. *)
Definition closed (mx : Z) (ts : option string) (p : list ascii) : Prop :=
  forall q, expected_digits mx ts (p ++ q) = expected_digits mx ts p.

(** Nothing but digits ends the collection, and it has what is expected. *)
Definition settled (p : list ascii) (s : switch_collect_input_state_t) : Prop :=
  f_speech s = false /\ f_speech_done s = true /\
  (f_digits s = true -> f_digits_done s = true ->
   held_digits s = expected_digits (max_digits s) (c_terminators s) p /\ closed (max_digits s) (c_terminators s) p).

Definition exactly (p : list ascii) (s : switch_collect_input_state_t) : Prop :=
  f_digits s = true -> held_digits s = expected_digits (max_digits s) (c_terminators s) p.

Lemma before_terminator_stop ts p d q : is_terminator ts d = true ->
  before_terminator ts ((p ++ [d]) ++ q) = before_terminator ts p.
Proof.
  intros Hd. induction p as [|x p IH]; cbn; [by rewrite Hd|]. by destruct (is_terminator ts x); [|rewrite IH].
Qed.

Lemma closed_terminator mx ts p d : is_terminator ts d = true -> closed mx ts (p ++ [d]).
Proof.
  intros Hd q. unfold expected_digits. rewrite before_terminator_stop by done.
  by rewrite <- (app_nil_r (p ++ [d])), before_terminator_stop.
Qed.

Lemma closed_full mx ts p : Z.of_nat (length (before_terminator ts p)) >= mx -> closed mx ts p.
Proof.
  intros Hl q. unfold expected_digits. destruct (before_terminator_grows ts p q) as [k ->].
  rewrite take_app_le; [done|]. lia.
Qed.

Lemma closed_more mx ts p d : closed mx ts p -> closed mx ts (p ++ [d]).
Proof. intros Hc q. rewrite <- app_assoc. by rewrite !Hc. Qed.

Lemma open_exact p s : digits_ok p s -> f_digits_done s = false ->
  held_digits s = expected_digits (max_digits s) (c_terminators s) p.
Proof.
  intros Hs Ho. destruct (dk_open _ _ Hs Ho) as (H1 & H2 & _). unfold expected_digits.
  rewrite take_ge; [done|]. rewrite <- H1. lia.
Qed.

Lemma settled_exactly p s : digits_ok p s -> settled p s -> exactly p s.
Proof.
  intros Hs (_ & _ & H1) Hf. destruct (f_digits_done s) eqn:Ho; [by apply H1 | by apply open_exact].
Qed.

Lemma settled_digit p d s : d <> NUL -> f_digits s = true -> digits_ok p s -> settled p s ->
  wp real_digits press (collect_digit d s) (p ++ [d]) (fun g r => settled g r.1).
Proof.
  intros Hd Hon Hs (S1 & S2 & S3) now _. cbn -[is_terminator put_digit strlen expected_digits].
  destruct (is_terminator (c_terminators s) d) eqn:Ht.
  - assert (E : settled (p ++ [d]) (set_digits_done (set_terminator d (set_is_speech false (set_time now s))))).
    { split_and!; try done. intros _ _. split; [|by apply closed_terminator].
      change (held_digits s = expected_digits (max_digits s) (c_terminators s) (p ++ [d])).
      rewrite (settled_exactly p s) by done. unfold expected_digits.
      by rewrite <- (app_nil_r (p ++ [d])), before_terminator_stop. }
    destruct (f_digits s && _); [|exact E]. destruct E as (E1 & E2 & E3). by split_and!.
  - destruct (f_digits_done s) eqn:Ho; cbn -[put_digit strlen].
    + destruct (S3 Hon eq_refl) as [H1 H2]. split_and!; try done. intros _ _. split; [|by apply closed_more].
      change (held_digits s = expected_digits (max_digits s) (c_terminators s) (p ++ [d])). by rewrite H2.
    + destruct (dk_open _ _ Hs Ho) as (H1 & Hlt & H3). unfold held_digits in *. rewrite length_ascii in Hlt.
      rewrite (decide_True _ _ Hlt).
      assert (Eb : list_ascii_of_string (put_digit (default "" (digits s)) d) =
        before_terminator (c_terminators s) (p ++ [d])).
      { unfold put_digit. rewrite decide_False by done. rewrite ascii_of_append, before_terminator_app, H1 by done.
        cbn. by rewrite Ht. }
      case_decide as Hn; split_and!; try done; cbn -[strlen put_digit expected_digits].
      * intros _ _. unfold held_digits. cbn -[strlen put_digit expected_digits]. unfold expected_digits.
        pose proof (length_ascii (default "" (digits s))) as Hl. rewrite Eb. split.
        -- rewrite take_ge; [done|]. rewrite before_terminator_app, length_app, <- H1 by done. cbn. rewrite Ht. cbn. lia.
        -- apply closed_full. rewrite before_terminator_app, length_app, <- H1 by done. cbn [before_terminator]. rewrite Ht.
           cbn -[strlen] in *. lia.
      * congruence.
Qed.

Section Exact.
Context (mn mx : Z) (ts : option string).
Notation wpd := (wp real_digits press).
Notation inv2 := (fun p s => collecting mn mx ts p s /\ settled p s).
Notation outcome := (fun g (r : option (switch_collect_input_state_t * switch_status_t)) =>
  match r with Some (s, _) => collecting mn mx ts g s /\ exactly g s | None => True end).

Lemma inv2_outcome p s : inv2 p s -> collecting mn mx ts p s /\ exactly p s.
Proof. intros [Hs Ht]. split; [done|]. destruct Hs as (_ & _ & _ & _ & Hs). by apply settled_exactly. Qed.

Lemma callback_exact_wp p i s : inv2 p s -> match i with INPUT_DTMF d => d <> NUL | _ => True end ->
  wpd (switch_collect_input_callback i s) (match i with INPUT_DTMF d => p ++ [d] | _ => p end) (fun g r => inv2 g r.1).
Proof.
  intros [Hs Ht] Hi. apply wp_and; [by apply callback_wp|].
  destruct i as [d|det t b]; cbn [switch_collect_input_callback].
  - destruct (f_digits s) eqn:Hon.
    + destruct Hs as (_ & _ & _ & _ & Hs). by apply settled_digit.
    + destruct Ht as (S1 & S2 & S3). split_and!; try done. cbn. congruence.
  - destruct Ht as (S1 & S2 & S3). rewrite S1. by split_and!.
Qed.

Lemma deliver_exact_wp fuel : forall p d s, inv2 p s -> real d ->
  wpd (deliver fuel d s) (after p d) (fun g r => match r with Some (s, _) => inv2 g s | None => True end).
Proof.
  induction fuel as [|fuel IH]; intros p d s Hs Hd; destruct d as [i|st]; cbn [deliver]; try done.
  apply wp_bind. change (after p (Deliver i)) with (match i with INPUT_DTMF d => p ++ [d] | _ => p end).
  eapply wp_mono; [|by apply callback_exact_wp; [|destruct i]].
  intros g [s' st] Hs' d' Hd'. cbn [mbind prog_bind bindp mret prog_ret].
  replace (press g _) with (after g d') by by destruct d' as [[]|]. apply IH; [done|]. by destruct d' as [[]|].
Qed.

Lemma wait_exact_wp fuel t : forall p sl s st,
  inv2 p s \/ (collecting mn mx ts p s /\ exactly p s) /\ f_digits_done s = true /\ f_speech_done s = true ->
  wpd (wait_result fuel false t sl s st) p outcome.
Proof.
  induction fuel as [|fuel IH]; intros p sl s st Hs; cbn [wait_result]; [done|].
  assert (Ho : collecting mn mx ts p s /\ exactly p s) by (destruct Hs as [Hs|[Hs _]]; [by apply inv2_outcome | done]).
  destruct (f_digits_done s && f_speech_done s) eqn:Hdone; [exact Ho|].
  destruct Hs as [Hs|(_ & H1 & H2)]; [|by rewrite H1, H2 in Hdone]. clear Ho Hdone.
  intros ready _. cbn [mbind prog_bind bindp mret prog_ret].
  destruct (negb ready); [by apply inv2_outcome|]. intros d Hd. cbn [mbind prog_bind bindp mret prog_ret]. apply wp_bind.
  replace (press _ _) with (after p d) by by destruct d as [[]|].
  eapply wp_mono; [|apply (deliver_exact_wp fuel p d s Hs); by destruct d as [[]|]].
  intros g [[s1 st1]|] Hs1; [|done]. cbn [mbind prog_bind bindp mret prog_ret]. case_decide; [done|].
  assert (Hi : collecting mn mx ts g s1 /\ exactly g s1) by by apply inv2_outcome.
  case_decide.
  - apply IH. left. destruct Hs1 as [Hs1 (S1 & S2 & S3)]. split; [by apply (collecting_same _ _ _ g s1); auto | by split_and!].
  - unfold inter_digit. destruct (is_speech s1).
    + cbn [mbind prog_bind bindp mret prog_ret]. case_decide; [exact Hi|]. apply IH. by left.
    + intros now _. cbn [mbind prog_bind bindp mret prog_ret]. case_decide.
      * cbn [mbind prog_bind bindp mret prog_ret]. rewrite decide_False by naive_solver. apply IH. right.
        destruct Hs1 as [Hs1 (S1 & S2 & S3)]. destruct Hi as [Hi1 Hi2].
        destruct (f_digits_done s1) eqn:E; split_and!; try done. by apply (collecting_same _ _ _ g s1); auto.
      * cbn [mbind prog_bind bindp mret prog_ret]. case_decide; [exact Hi|]. apply IH. by left.
Qed.

Lemma collect_run_exact_wp fuel prompt t args p s : has_dmachine args = false -> inv2 p s ->
  wpd (collect_run fuel prompt t args s) p outcome.
Proof.
  intros Ha [Hs Ht] d Hd. cbn [mbind prog_bind bindp mret prog_ret]. rewrite Ha. apply wp_bind.
  replace (press _ _) with (after p d) by by destruct d as [[]|].
  eapply wp_mono; [|apply (deliver_exact_wp fuel p d (set_prompt true s)); [|by destruct d as [[]|]]].
  2: { split; [by eapply collecting_same; eauto | exact Ht]. }
  intros g [[s1 st1]|] Hs1; [|done]. destruct Hs1 as [Hs1 Ht1]. cbn zeta.
  cbn [mbind prog_bind bindp mret prog_ret]. case_decide; [done|].
  assert (Hp : inv2 g (set_prompt false s1)) by (split; [by eapply collecting_same; eauto | exact Ht1]).
  case_decide; [by apply inv2_outcome in Hp|].
  destruct (f_digits_done _ && f_speech_done _); [by apply inv2_outcome in Hp|]. apply wp_bind.
  apply wp_mono with (Q := fun g' _ => g' = g); [|by destruct (f_speech _); [intros r _|]].
  intros g' _ -> now _. cbn [mbind prog_bind bindp mret prog_ret]. apply wait_exact_wp. left.
  split; [by eapply collecting_same; eauto | exact Ht1].
Qed.

End Exact.

(** What is given when only digits can end the collection. *)
Definition given_digits (want_digits : bool) (mn mx : Z) (ts : option string) (pressed : list ascii) : option string :=
  let ds := string_of_list_ascii (expected_digits (norm_max mn mx) (norm_terminators ts) pressed) in
  if want_digits && bool_decide (0 < mn) && bool_decide (0 < strlen ds) && bool_decide (mn <= strlen ds) then Some ds
  else None.
Lemma digits_held s : digits s <> None -> digits s = Some (string_of_list_ascii (held_digits s)).
Proof.
  unfold held_digits. destruct (digits s) as [d|]; [|done]. intros _. cbn [from_option id].
  by rewrite string_of_list_ascii_of_string.
Qed.

Lemma given_done mn mx ts p s (wd : bool) :
  collecting (norm_min mn) (norm_max mn mx) (norm_terminators ts) p s -> exactly p s ->
  (if negb (zstr (digits s)) && bool_decide (strlen (default "" (digits s)) >= min_digits s)
   then (if wd then digits s else None) else None) = given_digits wd mn mx ts p.
Proof.
  intros (E1 & E2 & E3 & [Hf Hn] & Hs) Hx. unfold given_digits. destruct (f_digits s) eqn:Ef.
  - specialize (Hx Ef). rewrite E2, E3 in Hx. destruct (Hn eq_refl) as [_ [d Hd]]. rewrite (digits_held s), Hx by by rewrite Hd. cbn [from_option id]. clear d Hd.
    assert (Hm : 0 < mn) by (destruct Hf as [Hf _]; specialize (Hf eq_refl); unfold norm_min in Hf; case_decide; lia).
    rewrite E1. unfold norm_min. rewrite decide_False by lia.
    rewrite (bool_decide_true (0 < mn)) by done. destruct wd; cbn [andb]; [|by destruct (_ && _)].
    set (ds := string_of_list_ascii _). destruct (decide (ds = "")) as [->|Hds]; [done|].
    assert (0 < strlen ds) by (destruct ds; unfold strlen; cbn; [done|lia]).
    rewrite (bool_decide_true (0 < strlen ds)) by done. cbn [andb].
    replace (zstr (Some ds)) with false by by destruct ds. cbn [andb negb].
    repeat case_bool_decide; try done; lia.
  - destruct (dk_off _ _ Hs Ef) as [_ ->]. cbn. rewrite (bool_decide_false (0 < mn)); [by rewrite andb_false_r|].
    intros Hm. destruct Hf as [_ Hf]. unfold norm_min in Hf. rewrite decide_False in Hf by lia.
    discriminate Hf. lia.
Qed.

Lemma collect_done_exact_wp mn mx ts wr wd args s status p :
  collecting (norm_min mn) (norm_max mn mx) (norm_terminators ts) p s -> exactly p s ->
  wp real_digits press (collect_done wr wd args s status) p (fun g r => col_digits r = given_digits wd mn mx ts g).
Proof.
  intros Hs Hx. pose proof (given_done mn mx ts p s wd Hs Hx) as E.
  unfold collect_done. apply wp_bind.
  apply wp_mono with (Q := fun g _ => g = p); [|by destruct (f_speech s); [intros r _|]].
  intros g _ ->. apply wp_bind.
  apply wp_mono with (Q := fun g r => g = p /\ r.2 = given_digits wd mn mx ts p).
  { intros g [res ds] [-> Hds]. apply wp_bind.
    apply wp_mono with (Q := fun g _ => g = p); [|by destruct args; [intros r _|]].
    intros g _ ->. exact Hds. }
  destruct (negb (zstr (digits s)) && _).
  - apply wp_bind. apply wp_mono with (Q := fun g _ => g = p); [|by destruct (recognition_result s); [intros r _|]].
    intros g _ ->. by split.
  - destruct (recognition_result s); [destruct wr|]; by intros; split.
Qed.

(** Only digits can end the collection. *)
Definition digits_only (rm rg : option string) (args : option collect_args) : Prop :=
  (rm = None \/ rg = None) /\ has_dmachine args = false.

Lemma given_nothing wd mn mx ts : given_digits wd mn mx ts [] = None.
Proof.
  unfold given_digits. replace (expected_digits _ _ []) with (@nil ascii); [|symmetry; apply take_nil].
  cbn. by rewrite andb_false_r.
Qed.

Lemma play_and_collect_exact_wp fuel prompt rm rg mn mx ts t wr wd args : digits_only rm rg args ->
  wp real_digits press (switch_ivr_play_and_collect_input fuel prompt rm rg mn mx ts t wr wd args) []
    (fun g r => forall c, r = Some c -> col_digits c = given_digits wd mn mx ts g).
Proof.
  intros [Hr Ha]. unfold switch_ivr_play_and_collect_input. apply wp_bind.
  apply wp_mono with (Q := fun g _ => g = []); [|by destruct args; [intros r _|]].
  intros g ok ->. destruct (negb ok).
  { intros c [= <-]. by rewrite given_nothing. }
  apply wp_bind. apply wp_mono with (Q := fun g _ => g = []); [|by case_decide; [intros r _|]].
  intros g _ ->. pose proof (collecting_initial mn mx ts args) as Hs.
  replace (start_speech rm rg (initial_state mn mx ts args)) with
    (mret (set_speech_done (initial_state mn mx ts args), SUCCESS) : CM _)
    by (unfold start_speech; destruct rg, rm, Hr; done).
  cbn [mbind prog_bind bindp mret prog_ret]. case_decide; [done|]. apply wp_bind.
  eapply wp_mono; [|apply collect_run_exact_wp; [done | split; [by eapply collecting_same; eauto|]]].
  - intros g' [[s' st']|] Hs'; [|by intros c]. destruct Hs' as [Hs' Hx].
    apply wp_bind. eapply wp_mono; [|by apply collect_done_exact_wp]. intros g'' r Hr' c [= <-]. exact Hr'.
  - split_and!; [done..|]. cbn. case_bool_decide; done.
Qed.


(** ** Recognition results *)

Definition one {A} (o : option A) : Z := match o with Some _ => 1 | None => 0 end.

(** Whether the last result that was parsed is a value, how many values are
    alive, how many were replaced by a later result, and recursion marks. *)
Record results := mkResults { g_held : bool; g_live : Z; g_replaced : Z; g_marks : Z }.

Definition results_upd (g : results) (e : event cresp) : results :=
  match e with
  | Ev (c_cJSON_Parse _) r =>
      mkResults (bool_decide (is_Some r)) (g_live g + (one r))
        (g_replaced g + (if g_held g then 1 else 0)) (g_marks g)
  | Ev (c_cJSON_Delete _) _ => mkResults (g_held g) (g_live g - 1) (g_replaced g) (g_marks g)
  | Ev c_recursion_start ok => mkResults (g_held g) (g_live g) (g_replaced g) (if ok : bool then g_marks g + 1 else g_marks g)
  | Ev c_recursion_stop _ => mkResults (g_held g) (g_live g) (g_replaced g) (g_marks g - 1)
  | _ => g
  end.

Section Results.
Notation wpr := (wp any_answer results_upd).

(** The state has the last result, and all the others that were parsed are lost. *)
Definition has_result (m : Z) (g : results) (s : switch_collect_input_state_t) : Prop :=
  g_held g = bool_decide (is_Some (recognition_result s)) /\
  g_live g = g_replaced g + (if g_held g then 1 else 0) /\ g_marks g = m.

Context (m : Z).
Notation inv3 := (has_result m).
Notation some3 := (fun g (r : option (switch_collect_input_state_t * switch_status_t)) =>
  match r with Some (s, _) => inv3 g s | None => True end).

Lemma callback_results_wp i g s : inv3 g s -> wpr (switch_collect_input_callback i s) g (fun g r => inv3 g r.1).
Proof.
  intros Hs. destruct i as [d|det t b]; cbn [switch_collect_input_callback].
  - case_match; [|exact Hs]. intros now _. cbn -[strlen put_digit]. by repeat case_match.
  - case_match; [|exact Hs]. unfold collect_speech. apply wp_bind.
    apply wp_mono with (Q := fun g' _ => g' = g); [|by destruct (original_callback s); [intros r _|]].
    intros g' _ ->. repeat case_match; try exact Hs.
    intros r _. cbn. destruct Hs as (G1 & G2 & G3).
    assert (E : inv3 (mkResults (bool_decide (is_Some r)) (g_live g + (one r))
        (g_replaced g + (if g_held g then 1 else 0)) (g_marks g)) (set_result r (set_speech_done s))).
    { split_and!; try done. cbn. by destruct r; cbn in *; lia. }
    by repeat case_match.
Qed.

Lemma deliver_results_wp fuel : forall g d s, inv3 g s -> wpr (deliver fuel d s) g some3.
Proof.
  induction fuel as [|fuel IH]; intros g d s Hs; destruct d as [i|st]; cbn [deliver]; try done.
  apply wp_bind. eapply wp_mono; [|by apply callback_results_wp].
  intros g' [s' st] Hs' d' _. cbn [mbind prog_bind bindp]. by apply IH.
Qed.

Lemma wait_results_wp fuel dm t : forall g sl s st, inv3 g s -> wpr (wait_result fuel dm t sl s st) g some3.
Proof.
  induction fuel as [|fuel IH]; intros g sl s st Hs; cbn [wait_result]; [done|].
  case_match; [exact Hs|]. intros ready _. cbn [mbind prog_bind bindp].
  destruct (negb ready); [exact Hs|]. intros d _. cbn [mbind prog_bind bindp]. apply wp_bind.
  eapply wp_mono; [|by apply deliver_results_wp].
  intros g' [[s1 st1]|] Hs1; [|done]. apply wp_bind.
  apply wp_mono with (Q := fun g'' _ => g'' = g'); [|by destruct dm; [intros r _|]].
  intros g'' ping ->. case_decide; [exact Hs1|]. case_decide; [by apply IH|]. apply wp_bind.
  apply wp_mono with (Q := fun g'' r => inv3 g'' r.1.1).
  - intros g'' [[s2 sl2] st2] Hs2. cbn in *. case_decide; [exact Hs2|]. by apply IH.
  - unfold inter_digit. case_match; [exact Hs1|]. intros now _. cbn. case_decide; [|exact Hs1]. by case_match.
Qed.

Lemma collect_run_results_wp fuel prompt t args g s : inv3 g s -> wpr (collect_run fuel prompt t args s) g some3.
Proof.
  intros Hs d _. cbn [mbind prog_bind bindp]. apply wp_bind.
  eapply wp_mono; [|by apply deliver_results_wp]. intros g' [[s1 st1]|] Hs1; [|done]. cbn zeta. apply wp_bind.
  apply wp_mono with (Q := fun g'' _ => g'' = g'); [|by destruct (has_dmachine args); [intros r _|]].
  intros g'' ping ->. destruct (if decide (ping <> SUCCESS) then _ else _) as [s2 st2] eqn:E2.
  assert (Hs2 : inv3 g' s2) by (case_decide; injection E2 as <- <-; exact Hs1).
  clear E2. case_decide; [exact Hs2|]. case_match; [exact Hs2|]. apply wp_bind.
  apply wp_mono with (Q := fun g'' _ => g'' = g'); [|by destruct (f_speech s2); [intros r _|]].
  intros g'' _ -> now _. cbn [mbind prog_bind bindp]. by apply wait_results_wp.
Qed.

End Results.

Definition marked (args : option collect_args) : Z := match args with Some _ => 1 | None => 0 end.

Lemma collect_done_results_wp wr wd args s status g : has_result (marked args) g s ->
  wp any_answer results_upd (collect_done wr wd args s status) g (fun g r =>
    g_live g = g_replaced g + one (col_result r) /\ g_marks g = 0).
Proof.
  intros (H1 & H2 & H3). unfold collect_done. apply wp_bind.
  apply wp_mono with (Q := fun g' _ => g' = g); [|by destruct (f_speech s); [intros r _|]].
  intros g' _ ->. apply wp_bind.
  apply wp_mono with (Q := fun g r =>
    g_live g = g_replaced g + (one r.1) /\ g_marks g = marked args).
  { intros g' [res ds] [H4 H5]. apply wp_bind. destruct args; [intros r _|]; cbn in *; split; try done; lia. }
  destruct (recognition_result s) as [j|] eqn:Er; rewrite H1 in H2; cbn in H2.
  - case_match; [intros r _; cbn; split; [lia|done]|]. destruct wr; [cbn; split; [lia|done]|].
    intros r _; cbn; split; [lia|done].
  - case_match; cbn; split; try done; lia.
Qed.

Lemma play_and_collect_results_wp fuel prompt rm rg mn mx ts t wr wd args :
  wp any_answer results_upd (switch_ivr_play_and_collect_input fuel prompt rm rg mn mx ts t wr wd args)
    (mkResults false 0 0 0) (fun g r => forall c, r = Some c ->
      g_live g = g_replaced g + one (col_result c) /\ g_marks g = 0).
Proof.
  unfold switch_ivr_play_and_collect_input. apply wp_bind.
  apply wp_mono with (Q := fun g (ok : bool) => g = mkResults false 0 0 (if ok then marked args else 0));
    [|by destruct args; [intros [] _|]].
  intros g ok ->. destruct ok; cbn [negb]; [|by intros c [= <-]].
  assert (Hs : has_result (marked args) (mkResults false 0 0 (marked args)) (initial_state mn mx ts args)) by done.
  apply wp_bind. apply wp_mono with (Q := fun g _ => g = mkResults false 0 0 (marked args)); [|by case_decide; [intros r _|]].
  intros g _ ->. apply wp_bind. apply wp_mono with (Q := fun g r => has_result (marked args) g r.1).
  - intros g [s st] Hs1. cbn [fst] in Hs1. case_decide.
    + apply wp_bind. eapply wp_mono; [|by apply collect_done_results_wp]. by intros g' r Hr c [= <-].
    + apply wp_bind. eapply wp_mono; [|by apply (collect_run_results_wp (marked args))].
      intros g' [[s' st']|] Hs'; [|by intros c]. apply wp_bind.
      eapply wp_mono; [|by apply collect_done_results_wp]. by intros g'' r Hr c [= <-].
  - unfold start_speech. destruct rg as [x|]; [destruct rm as [y|]|]; try exact Hs.
    intros st _. cbn [mbind prog_bind bindp]. by case_decide.
Qed.

(** A call gives back its recursion mark, and of the recognition results it
    parsed exactly one value is left alive when a result is given and none
    otherwise, apart from the results that a later result replaced: those are
    never deleted. *)
Theorem collect_input_results fuel prompt rm rg mn mx ts t wr wd args tr c :
  exec (switch_ivr_play_and_collect_input fuel prompt rm rg mn mx ts t wr wd args) tr (Some c) ->
  let g := ghost results_upd (mkResults false 0 0 0) tr in
  g_live g = g_replaced g + one (col_result c) /\ g_marks g = 0.
Proof.
  intros Hex g. apply (wp_any results_upd _ _ (fun g r => forall c, r = Some c ->
    g_live g = g_replaced g + one (col_result c) /\ g_marks g = 0) _ _
    (play_and_collect_results_wp fuel prompt rm rg mn mx ts t wr wd args) Hex c eq_refl).
Qed.

(** ** Termination without a recogniser *)

(** The time is at least [lower]; a sleep that is not cut short ends after
    [due]; [budget] inputs are still to come. *)
Record clock := mkClock { lower : Z; due : Z; budget : Z }.

Definition clock_upd (g : clock) (e : event cresp) : clock :=
  match e with
  | Ev c_micro_time_now t => mkClock t (due g) (budget g)
  | Ev (c_play_file _) (Deliver _) => mkClock (lower g) (lower g) (budget g - 1)
  | Ev (c_sleep ms) (Deliver _) => mkClock (lower g) (lower g + 1000 * ms) (budget g - 1)
  | Ev (c_sleep ms) (Returned _) => mkClock (lower g + 1000 * ms) (due g) (budget g)
  | Ev (c_callback_return _) (Deliver _) => mkClock (lower g) (due g) (budget g - 1)
  | Ev (c_callback_return st) (Returned _) =>
      mkClock (if decide (st = BREAK) then lower g else lower g `max` due g) (due g) (budget g)
  | _ => g
  end.

(** The clock, in microseconds, does not run backwards, and stays within 2^31
    milliseconds of [start]; a bounded number of inputs comes in. *)
Definition clock_legal (start : Z) (g : clock) (e : event cresp) : Prop :=
  match e with
  | Ev c_micro_time_now t => lower g <= t < start + 1000 * 2 ^ 31
  | _ => match delivered e with Some _ => 0 < budget g | None => True end
  end.

Section Clock.
Context (start timeout : Z) (Htimeout : 0 < timeout < 2 ^ 31).
Notation wpc := (wp (clock_legal start) clock_upd).

Record timed (g : clock) (s : switch_collect_input_state_t) : Prop := {
  tm_speech : f_speech s = false;
  tm_done : f_speech_done s = true;
  tm_silent : is_speech s = false;
  tm_terminator : terminator s <> NUL -> f_digits_done s = true;
  tm_start : start <= lower g;
  tm_budget : 0 <= budget g;
}.

(** [last_digit_time] has been read from the clock. *)
Definition since (g : clock) (s : switch_collect_input_state_t) : Prop := start <= last_digit_time s <= lower g.

Lemma timed_same g g' s s' : timed g s -> lower g <= lower g' -> 0 <= budget g' ->
  f_speech s' = f_speech s -> f_speech_done s' = f_speech_done s -> is_speech s' = is_speech s ->
  (terminator s' <> NUL -> f_digits_done s' = true) -> timed g' s'.
Proof. intros [] ? ? ? ? ? ?. constructor; try congruence; auto; lia. Qed.

Lemma callback_timed_wp i g s : timed g s ->
  wpc (switch_collect_input_callback i s) g (fun g' r =>
    timed g' r.1 /\ budget g' = budget g /\ (since g s -> since g' r.1)).
Proof using Htimeout.
  intros Hs. destruct i as [d|det t b]; cbn [switch_collect_input_callback].
  - case_match; [|done]. intros now Hnow. cbn in Hnow. destruct Hs as [T1 T2 T3 T4 T5 T6].
    unfold since. cbn -[strlen put_digit is_terminator]. repeat case_match; cbn; split_and!; try done; try lia;
      constructor; cbn; auto; try lia; intros Ht; specialize (T4 Ht); congruence.
  - destruct Hs as [T1 T2 T3 T4 T5 T6]. rewrite T1. cbn. split_and!; try done.
Qed.

Lemma deliver_timed_wp fuel : forall g d s, timed g s -> (budget g < Z.of_nat fuel \/ exists st, d = Returned st) ->
  wpc (deliver fuel d s) g (fun g' r => match r with
    | Some (s', _) => timed g' s' /\ budget g' <= budget g /\ (since g s -> since g' s')
    | None => False end).
Proof using Htimeout.
  induction fuel as [|fuel IH]; intros g d s Hs Hf; destruct d as [i|st]; cbn [deliver]; try done.
  - destruct Hf as [Hf|[st Hf]]; [|done]. destruct Hs. lia.
  - destruct Hf as [Hf|[st Hf]]; [|done]. apply wp_bind. eapply wp_mono; [|by apply callback_timed_wp].
    intros g' [s' st] (Hs' & Eb & Hsince) d' Hd'. cbn [fst] in *. cbn [mbind prog_bind bindp].
    destruct d' as [i'|st'].
    + eapply wp_mono; [|apply IH; [|left]].
      * intros g'' [[s'' st'']|]; cbn; [|done]. intros (H1 & H2 & H3). split_and!; [done | lia | auto].
      * eapply timed_same; try done; try (cbn in *; lia). apply Hs'.
      * cbn in *. lia.
    + assert (E : timed (clock_upd g' (Ev (c_callback_return st) (Returned st'))) s').
      { destruct Hs'. constructor; cbn; auto; case_decide; lia. }
      destruct fuel; cbn; split_and!; try exact E; try lia; intros Hg; specialize (Hsince Hg);
        unfold since in *; cbn; case_decide; lia.
Qed.

(** The sleep to come reaches the inter-digit timeout. *)
Definition reaches (g : clock) (sl : Z) (s : switch_collect_input_state_t) : Prop :=
  0 <= sl < 2 ^ 31 /\ last_digit_time s + 1000 * timeout <= lower g + 1000 * sl.

Definition returns (g : clock) (r : option (switch_collect_input_state_t * switch_status_t)) : Prop := r <> None.

Lemma i32_timeout : i32 timeout = timeout.
Proof using Htimeout. apply i32_small. lia. Qed.

(** After the inputs of an iteration: the end is reached, or the next sleep is
    long enough; it is reached when the sleep ran its course. *)
Lemma inter_digit_timed_wp g sl s st : timed g s -> since g s ->
  wpc (inter_digit timeout sl s st) g (fun g' r =>
    timed g' r.1.1 /\ budget g' = budget g /\ since g' r.1.1 /\
    (f_digits_done r.1.1 = true \/ reaches g' r.1.2 r.1.1) /\
    (last_digit_time s + 1000 * timeout <= lower g -> f_digits_done r.1.1 = true)).
Proof using Htimeout.
  intros Hs Hl. unfold inter_digit. rewrite (tm_silent _ _ Hs). intros now Hnow. cbn in Hnow. cbn [mbind prog_bind bindp].
  destruct Hs as [T1 T2 T3 T4 T5 T6]. unfold since, reaches in *.
  assert (Hq : Z.quot (now - last_digit_time s) 1000 = (now - last_digit_time s) / 1000) by (apply Z.quot_div_nonneg; lia).
  rewrite Hq. set (el := (now - last_digit_time s) / 1000).
  assert (He : 0 <= el < 2 ^ 31) by (subst el; split; [apply Z.div_pos; lia | apply Z.div_lt_upper_bound; lia]).
  assert (Hl1 : 1000 * el <= now - last_digit_time s) by (subst el; apply Z.mul_div_le; lia).
  assert (Hl2 : now - last_digit_time s < 1000 * el + 1000) by (subst el; pose proof (Z.mod_pos_bound (now - last_digit_time s) 1000); 
    pose proof (Z.div_mod (now - last_digit_time s) 1000); lia).
  rewrite i32_small by lia. rewrite u32_small by lia. case_decide as Hd; cbn.
  - destruct (f_digits_done s) eqn:E; cbn; split_and!; auto; try lia; constructor; cbn; auto; lia.
  - rewrite u32_small by lia. rewrite i32_small by lia. split_and!; auto; try lia.
    + constructor; cbn; auto; lia.
Qed.

(** The rest of an iteration, once the sleep is over. *)
Lemma after_sleep_wp fuel dm sl g s st :
  (forall g sl s st, timed g s -> since g s ->
     (f_digits_done s = true /\ (0 < fuel)%nat \/ reaches g sl s /\ budget g + 2 < Z.of_nat fuel) ->
     wpc (wait_result fuel dm timeout sl s st) g returns) ->
  timed g s -> since g s ->
  (last_digit_time s + 1000 * timeout <= lower g /\ (0 < fuel)%nat \/ budget g + 2 < Z.of_nat fuel) ->
  wpc (ping ← (if dm then invoke c_last_ping else mret SUCCESS);
       if decide (ping <> SUCCESS) then mret (Some (set_speech_done (set_digits_done s), SUCCESS))
       else if decide (terminator s <> NUL) then
         wait_result fuel dm timeout (i32 timeout) (set_speech_done s) SUCCESS
       else
         '(s, sleep_time, status) ← inter_digit timeout sl s st;
         if decide (status <> BREAK /\ status <> SUCCESS) then mret (Some (s, SWITCH_STATUS_FALSE))
         else wait_result fuel dm timeout sleep_time s status) g returns.
Proof using Htimeout.
  intros IH Hs Hl Hf. assert (0 < fuel)%nat by (destruct Hf as [[_ ?]|?]; destruct Hs; lia). apply wp_bind.
  apply wp_mono with (Q := fun g' _ => g' = g); [|by destruct dm; [intros r _|]]. intros g' ping ->.
  case_decide; [done|]. case_decide as Ht.
  - apply IH; [|done|left; split; [by apply (tm_terminator _ _ Hs)|done]]. by destruct Hs.
  - apply wp_bind. eapply wp_mono; [|by apply inter_digit_timed_wp].
    intros g' [[s2 sl2] st2] (Hs2 & Eb & Hl2 & Hr & Hd). cbn [fst snd] in *. case_decide; [done|].
    apply IH; [done..|]. destruct Hf as [[Hf _]|Hf]; [left; by split; [apply Hd|]|].
    destruct Hr as [Hr|Hr]; [left; by split | right]. split; [done|lia].
Qed.

Lemma wait_timed_wp fuel dm : forall g sl s st, timed g s -> since g s ->
  (f_digits_done s = true /\ (0 < fuel)%nat \/ reaches g sl s /\ budget g + 2 < Z.of_nat fuel) ->
  wpc (wait_result fuel dm timeout sl s st) g returns.
Proof using Htimeout.
  induction fuel as [|fuel IH]; intros g sl s st Hs Hl Hf; [destruct Hf as [[_ Hf]|[_ Hf]]; destruct Hs; lia|].
  cbn [wait_result]. rewrite (tm_done _ _ Hs). destruct (f_digits_done s) eqn:Ed; [done|].
  destruct Hf as [[? _]|[[Hsl Hr] Hb]]; [done|]. intros ready _. cbn [mbind prog_bind bindp clock_upd].
  destruct (negb ready); [done|]. intros d Hd. cbn [mbind prog_bind bindp]. rewrite (u32_small sl) in * by lia.
  apply wp_bind. destruct d as [i|st'].
  - cbn in Hd. eapply wp_mono; [|apply deliver_timed_wp; [|left]].
    + intros g' [[s1 st1]|]; [|done]. intros (Hs1 & Hb1 & Hl1). apply after_sleep_wp; [exact IH | done | by apply Hl1 | right].
      cbn in Hb1. lia.
    + destruct Hs. constructor; cbn; auto; lia.
    + cbn. lia.
  - replace (deliver fuel (Returned st') s) with (mret (Some (s, st')) : CM _) by by destruct fuel.
    cbn [wp mret prog_ret]. apply after_sleep_wp; [exact IH | | |].
    + destruct Hs. constructor; cbn; auto; lia.
    + unfold since in *. cbn. lia.
    + left. cbn. split; [lia|]. destruct Hs. lia.
Qed.

Lemma collect_run_timed_wp fuel prompt args g s : timed g s -> budget g + 2 < Z.of_nat fuel ->
  wpc (collect_run fuel prompt timeout args s) g returns.
Proof using Htimeout.
  intros Hs Hb d Hd. cbn [mbind prog_bind bindp]. apply wp_bind.
  set (g1 := clock_upd g _).
  assert (Hg : lower g1 = lower g /\ 0 <= budget g1 <= budget g) by (subst g1; destruct Hs, d; cbn in *; lia). clearbody g1.
  eapply wp_mono; [|apply (deliver_timed_wp fuel g1 d (set_prompt true s)); [destruct Hs; constructor; cbn; auto; lia | left; lia]].
  intros g' [[s1 st1]|]; [|done]. intros (Hs1 & Hb1 & _). cbn zeta. apply wp_bind.
  apply wp_mono with (Q := fun g'' _ => g'' = g'); [|by destruct (has_dmachine args); [intros r _|]].
  intros g'' ping ->. destruct (if decide (ping <> SUCCESS) then _ else _) as [s2 st2] eqn:E2.
  assert (Hs2 : timed g' s2) by (destruct Hs1; case_decide; injection E2 as <- <-; constructor; cbn; auto).
  clear E2. case_decide; [done|]. case_match; [done|]. rewrite (tm_speech _ _ Hs2).
  cbn [mbind prog_bind bindp mret prog_ret]. intros now Hnow. cbn in Hnow. rewrite i32_timeout.
  cbn [mbind prog_bind bindp]. destruct Hs2. apply wait_timed_wp.
  - constructor; cbn; auto; lia.
  - unfold since. cbn. lia.
  - right. unfold reaches. cbn. lia.
Qed.

End Clock.

Lemma play_and_collect_timed_wp start n fuel prompt rm rg mn mx ts t wr wd args :
  rm = None \/ rg = None -> 0 <= t < 2 ^ 31 -> 0 <= n -> n + 2 < Z.of_nat fuel ->
  wp (clock_legal start) clock_upd (switch_ivr_play_and_collect_input fuel prompt rm rg mn mx ts t wr wd args)
    (mkClock start start n) (fun _ r => r <> None).
Proof.
  intros Hr Ht Hn Hf. unfold switch_ivr_play_and_collect_input. apply wp_bind.
  apply wp_mono with (Q := fun g (ok : bool) => g = mkClock start start n); [|by destruct args; [intros ok _|]].
  intros g ok ->. destruct (negb ok); [done|]. apply wp_bind.
  apply wp_mono with (Q := fun g _ => g = mkClock start start n); [|by case_decide; [intros r _|]].
  intros g _ ->.
  replace (start_speech rm rg (initial_state mn mx ts args)) with
    (mret (set_speech_done (initial_state mn mx ts args), SUCCESS) : CM _)
    by (unfold start_speech; destruct rg, rm, Hr; done).
  cbn [mbind prog_bind bindp mret prog_ret]. case_decide; [done|]. apply wp_bind.
  assert (Htn : 0 < norm_timeout t < 2 ^ 31) by (unfold norm_timeout; case_decide; lia).
  eapply wp_mono; [|apply (collect_run_timed_wp start (norm_timeout t) Htn); [|done]].
  - intros g [[s st]|] Hs; [|by destruct Hs]. apply wp_bind.
    by eapply wp_mono; [|apply wp_true].
  - constructor; cbn; auto; try done; lia.
Qed.

(** Without a recogniser the call returns: when the clock does not run
    backwards and every sleep that no input cuts short takes its time, a fuel of
    three more than the number of inputs that come in is enough, whatever the
    statuses of the called functions. *)
Theorem collect_input_terminates start n fuel prompt rm rg mn mx ts t wr wd args tr r :
  rm = None \/ rg = None -> 0 <= t < 2 ^ 31 -> 0 <= n -> n + 2 < Z.of_nat fuel ->
  exec (switch_ivr_play_and_collect_input fuel prompt rm rg mn mx ts t wr wd args) tr r ->
  legal_trace (clock_legal start) clock_upd (mkClock start start n) tr -> r <> None.
Proof.
  intros Hr Ht Hn Hf Hex Hl. exact (wp_sound _ _ _ _ _ _ _
    (play_and_collect_timed_wp start n fuel prompt rm rg mn mx ts t wr wd args Hr Ht Hn Hf) Hex Hl).
Qed.

(** ** Speech that is not understood *)

(** The caller starts to speak during the prompt, what he said has no text, and
    then nothing comes in any more; the state counts the events delivered. *)
Definition speech_upd (n : nat) (e : event cresp) : nat := if delivered e then S n else n.

Definition not_understood (body : string) (n : nat) (e : event cresp) : Prop :=
  match e with
  | Ev c_recursion_start ok | Ev c_channel_ready ok => ok = true
  | Ev (c_detect_speech _ _) st | Ev c_last_ping st => st = SUCCESS
  | Ev (c_play_file _) d => d = Deliver (INPUT_EVENT true (Some "begin-speaking") None)
  | Ev (c_callback_return _) d => d = Returned BREAK
  | Ev (c_sleep _) d =>
      d = if Nat.eqb n 1 then Deliver (INPUT_EVENT true (Some "detected-speech") (Some body)) else Returned SUCCESS
  | Ev (c_cJSON_Parse _) r => exists j, r = Some j /\ zstr (cJSON_GetObjectCstr j "text") = true
  | _ => True
  end.

Section NotUnderstood.
Context (body : string) (Hbody : body <> "").
Notation wpn := (wp (not_understood body) speech_upd).

(** Speech was heard and is no longer waited for; digits are. *)
Record waiting (speech_done : bool) (s : switch_collect_input_state_t) : Prop := {
  wt_speech : f_speech s = true;
  wt_speech_done : f_speech_done s = speech_done;
  wt_digits : f_digits_done s = false;
  wt_is_speech : is_speech s = true;
  wt_terminator : terminator s = NUL;
}.

Lemma wait_silent_wp fuel dm t : forall sl s st, waiting true s ->
  wpn (wait_result fuel dm t sl s st) 2%nat (fun _ r => r = None).
Proof.
  induction fuel as [|fuel IH]; intros sl s st Hs; cbn [wait_result]; [done|].
  rewrite (wt_digits _ _ Hs). cbn [andb]. intros ready Hr. cbn in Hr. subst ready.
  intros d Hd. cbn in Hd. subst d. cbn [mbind prog_bind bindp].
  replace (deliver fuel (Returned SUCCESS) s) with (mret (Some (s, SUCCESS)) : CM _) by by destruct fuel.
  cbn [mbind prog_bind bindp mret prog_ret]. apply wp_bind.
  apply wp_mono with (Q := fun g r => g = 2%nat /\ r = SUCCESS); [|by destruct dm; [intros r Hr|]].
  intros g r [-> ->]. case_decide; [done|]. rewrite (wt_terminator _ _ Hs). case_decide; [done|].
  unfold inter_digit. rewrite (wt_is_speech _ _ Hs). cbn [mbind prog_bind bindp mret prog_ret].
  case_decide; [naive_solver|]. by apply IH.
Qed.

Lemma wait_speech_wp fuel dm t sl s st : waiting false s ->
  wpn (wait_result fuel dm t sl s st) 1%nat (fun _ r => r = None).
Proof using Hbody.
  intros Hs. destruct fuel as [|fuel]; [done|]. cbn [wait_result].
  rewrite (wt_digits _ _ Hs). cbn [andb]. intros ready Hr. cbn in Hr. subst ready.
  intros d Hd. cbn in Hd. subst d. cbn [mbind prog_bind bindp]. apply wp_bind.
  apply wp_mono with (Q := fun g r => match r with Some (s', st') => g = 2%nat /\ waiting true s' /\ st' = BREAK | None => True end).
  - intros g [[s' st']|]; [|done]. intros (-> & Hs' & ->). apply wp_bind.
    apply wp_mono with (Q := fun g r => g = 2%nat /\ r = SUCCESS); [|by destruct dm; [intros r Hr|]].
    intros g r [-> ->]. case_decide; [done|]. rewrite (wt_terminator _ _ Hs'). case_decide; [done|].
    unfold inter_digit. rewrite (wt_is_speech _ _ Hs'). cbn [mbind prog_bind bindp mret prog_ret].
    case_decide; [naive_solver|]. by apply wait_silent_wp.
  - destruct fuel as [|fuel]; [done|]. cbn [deliver switch_collect_input_callback]. rewrite (wt_speech _ _ Hs).
    cbn [andb negb zstr]. unfold collect_speech. apply wp_bind, wp_bind.
    apply wp_mono with (Q := fun g _ => g = 2%nat); [|by destruct (original_callback s); [intros r Hr|]].
    intros g _ ->. cbn [from_option id]. replace (strcaseeq _ _) with true by reflexivity.
    destruct body as [|c b]; [done|]. intros r (j & -> & Hj). cbn [mbind prog_bind bindp mret prog_ret]. rewrite Hj.
    intros d Hd. cbn in Hd. subst d. destruct fuel, Hs; split_and!; done.
Qed.

Lemma run_speech_wp fuel prompt t args s :
  f_speech s = true -> f_speech_done s = false -> f_digits_done s = false -> terminator s = NUL ->
  wpn (collect_run fuel prompt t args s) 0%nat (fun _ r => r = None).
Proof using Hbody.
  intros S1 S2 S3 S4 d Hd. cbn in Hd. subst d. cbn [mbind prog_bind bindp]. apply wp_bind.
  apply wp_mono with (Q := fun g r => match r with Some (s', st') => g = 1%nat /\ waiting false s' /\ st' = BREAK | None => True end).
  - intros g [[s' st']|]; [|done]. intros (-> & Hs' & ->). cbn zeta. apply wp_bind.
    apply wp_mono with (Q := fun g r => g = 1%nat /\ r = SUCCESS); [|by destruct (has_dmachine args); [intros r Hr|]].
    intros g r [-> ->]. case_decide; [done|]. case_decide; [naive_solver|].
    assert (Hw : waiting false (set_prompt false s')) by (destruct Hs'; done).
    rewrite (wt_digits _ _ Hw), (wt_speech _ _ Hw). cbn [andb]. intros u _ now _. cbn [mbind prog_bind bindp].
    apply wait_speech_wp. by destruct Hw.
  - destruct fuel as [|fuel]; [done|]. cbn [deliver switch_collect_input_callback].
    change (f_speech (set_prompt true s)) with (f_speech s). rewrite S1.
    cbn [andb negb zstr]. unfold collect_speech. apply wp_bind, wp_bind.
    apply wp_mono with (Q := fun g _ => g = 1%nat); [|by destruct (original_callback _); [intros r Hr|]].
    intros g _ ->. cbn [from_option id]. repeat (case_match; [discriminate|]).
    cbn [f_prompt set_prompt]. case_match; [|discriminate].
    cbn [wp mret prog_ret]. intros d Hd. cbn in Hd. subst d. destruct fuel; split_and!; done.
Qed.

End NotUnderstood.

(** [C36] When digits are looked for too, a caller who began to speak and was not
    understood, and who presses no key, keeps the call in its loop for ever:
    [is_speech] stays set, so no inter-digit timeout is ever taken. *)
Theorem collect_input_stuck fuel prompt rm rg mn mx ts t wr wd args body tr r :
  body <> "" -> 1 <= mn ->
  exec (switch_ivr_play_and_collect_input fuel prompt (Some rm) (Some rg) mn mx ts t wr wd args) tr r ->
  legal_trace (not_understood body) speech_upd 0%nat tr -> r = None.
Proof.
  intros Hb Hm Hex Hl.
  refine (wp_sound _ _ _ _ (fun _ r => r = None) _ _ _ Hex Hl).
  unfold switch_ivr_play_and_collect_input. apply wp_bind.
  apply wp_mono with (Q := fun g (ok : bool) => g = 0%nat /\ ok = true); [|by destruct args; [intros ok ->|]].
  intros g ok [-> ->]. cbn [negb]. apply wp_bind.
  apply wp_mono with (Q := fun g _ => g = 0%nat); [|by case_decide; [intros r' _|]].
  intros g _ ->. intros st Hst. cbn in Hst. subst st. cbn [mbind prog_bind bindp speech_upd delivered].
  case_decide; [done|]. cbn [mbind prog_bind bindp mret prog_ret]. case_decide; [done|]. apply wp_bind.
  assert (Hi : f_digits_done (initial_state mn mx ts args) = false).
  { cbn. rewrite bool_decide_true; [done|]. unfold norm_min. rewrite decide_False by lia. lia. }
  eapply wp_mono; [|by apply (run_speech_wp body Hb)]. by intros g r' ->.
Qed.

End CollectInput.

(** ** [switch_ivr_soft_hold] *)

Inductive hold_call :=
| h_get_partner_uuid
| h_session_locate (uuid : string)
| h_get_hold_music (other : bool)
| h_test_flag_broadcast
| h_broadcast (uuid moh : string)
| h_play_file (moh : string)
| h_collect_digits_callback
| h_stop_broadcast
| h_rwunlock.

Definition hold_resp (c : hold_call) : Type :=
  match c with
  | h_get_partner_uuid | h_get_hold_music _ => option string
  | h_session_locate _ | h_test_flag_broadcast => bool
  | h_play_file _ | h_collect_digits_callback => switch_status_t
  | _ => unit
  end%type.

Notation HM A := (prog hold_resp A).

(** [hold_on_dtmf], the callback of both ways of waiting *)
Definition hold_on_dtmf (unhold_key : string) (i : input) : switch_status_t :=
  match i with
  | INPUT_DTMF d =>
      if decide (d = match unhold_key with String c _ => c | EmptyString => "000"%char end) then BREAK else SUCCESS
  | INPUT_EVENT _ _ _ => SUCCESS
  end.

Definition music (moh : option string) : bool := negb (zstr moh) && negb (strcaseeq (default "" moh) "silence").

(** [switch_ivr_soft_hold] *)
Definition switch_ivr_soft_hold (moh_a moh_b : option string) : HM switch_status_t :=
  u ← invoke h_get_partner_uuid;
  match u with
  | None => mret SWITCH_STATUS_FALSE
  | Some other_uuid =>
      found ← invoke (h_session_locate other_uuid);
      if negb found then mret SWITCH_STATUS_FALSE
      else
        moh ← (match moh_b with Some _ => mret moh_b | None => invoke (h_get_hold_music true) end : HM (option string));
        moh_br ← (if music moh then
                    flag ← invoke h_test_flag_broadcast;
                    if flag : bool then mret false
                    else invoke (h_broadcast other_uuid (default "" moh)) ;; mret true
                  else mret false : HM bool);
        moh ← (match moh_a with Some _ => mret moh_a | None => invoke (h_get_hold_music false) end : HM (option string));
        res ← (if music moh then invoke (h_play_file (default "" moh)) else invoke h_collect_digits_callback : HM switch_status_t);
        (if moh_br : bool then invoke h_stop_broadcast else mret tt) ;;
        invoke h_rwunlock ;;
        mret SUCCESS
  end.

(** Sessions that are locked, broadcasts that play, and waits for the key. *)
Definition hold_upd (g : Z * Z * Z) (e : event hold_resp) : Z * Z * Z :=
  let '(locks, playing, waits) := g in
  match e with
  | Ev (h_session_locate _) ok => if ok : bool then (locks + 1, playing, waits) else g
  | Ev h_rwunlock _ => (locks - 1, playing, waits)
  | Ev (h_broadcast _ _) _ => (locks, playing + 1, waits)
  | Ev h_stop_broadcast _ => (locks, playing - 1, waits)
  | Ev (h_play_file _) _ | Ev h_collect_digits_callback _ => (locks, playing, waits + 1)
  | _ => g
  end.

(** The other session is unlocked again, its music stopped if it was started
    here, and the caller was held exactly once iff the result is a success. *)
Theorem soft_hold_balanced moh_a moh_b tr st :
  exec (switch_ivr_soft_hold moh_a moh_b) tr st ->
  ghost hold_upd (0, 0, 0) tr = (0, 0, if decide (st = SUCCESS) then 1 else 0).
Proof.
  intros Hex. apply (wp_any hold_upd (switch_ivr_soft_hold moh_a moh_b) (0, 0, 0)
    (fun g st => g = (0, 0, if decide (st = SUCCESS) then 1 else 0)) tr st); [|exact Hex].
  unfold switch_ivr_soft_hold. intros [u|] _; [|done]. cbn [mbind prog_bind bindp].
  intros [] _; [|done]. cbn [mbind prog_bind bindp negb hold_upd]. apply wp_bind.
  apply wp_mono with (Q := fun g _ => g = (1, 0, 0)); [|by destruct moh_b; [|intros r _]].
  intros g moh ->. apply wp_bind.
  apply wp_mono with (Q := fun g (br : bool) => g = (1, if br then 1 else 0, 0)).
  2: { destruct (music moh); [|done]. intros [] _; [done|]. by intros r _. }
  intros g br ->. apply wp_bind.
  apply wp_mono with (Q := fun g _ => g = (1, if br then 1 else 0, 0)); [|by destruct moh_a; [|intros r _]].
  intros g moh' ->. apply wp_bind.
  apply wp_mono with (Q := fun g _ => g = (1, if br then 1 else 0, 1)); [|by destruct (music moh'); intros r _].
  intros g _ ->. destruct br; repeat intros ?; done.
Qed.

(** ** Witnesses *)

(** A JSON value is its text. *)
#[local] Instance sample_json : CollectDefs := {
  cJSON := option string;
  cJSON_GetObjectCstr j _ := j;
}.

Notation CM A := (prog cresp A).

(** A caller whose inputs come one per wait; the state is the clock and what he
    still does. *)
Definition caller (w : Z * list input) (c : ccall) : cresp c * (Z * list input) :=
  let '(now, todo) := w in
  match c return cresp c * (Z * list input) with
  | c_recursion_start => (true, w)
  | c_channel_ready => (true, w)
  | c_detect_speech _ _ => (SUCCESS, w)
  | c_last_ping => (SUCCESS, w)
  | c_play_file _ => match todo with [] => (Returned SUCCESS, w) | i :: l => (Deliver i, (now, l)) end
  | c_sleep ms => match todo with [] => (Returned SUCCESS, (now + 1000 * ms, [])) | i :: l => (Deliver i, (now, l)) end
  | c_callback_return st => (Returned (if decide (st = BREAK) then BREAK else SUCCESS), (now, todo))
  | c_micro_time_now => (now, w)
  | c_cJSON_Parse s => (Some None, w)
  | _ => (tt, w)
  end.

Definition typed_pin : CM (option collected) :=
  switch_ivr_play_and_collect_input 6 (Some "pin.wav") None None 2 4 (Some "#") 3000 true true None.
Definition typed_run : option collected * list (event cresp) :=
  let '(r, _, tr) := run caller (0, [INPUT_DTMF "1"; INPUT_DTMF "2"; INPUT_DTMF "#"]%char) typed_pin in (r, tr).

Definition mumbled : CM (option collected) :=
  switch_ivr_play_and_collect_input 6 (Some "pin.wav") (Some "vosk") (Some "pin") 2 4 None 3000 true true None.
Definition mumbled_run : option collected * list (event cresp) :=
  let '(r, _, tr) := run caller (0, [INPUT_EVENT true (Some "begin-speaking") None;
    INPUT_EVENT true (Some "detected-speech") (Some "{}")]) mumbled in (r, tr).

Definition pin_12 : collected := mkCollected SUCCESS None (Some "12") "#"%char.

Lemma typed_exec : exec typed_pin typed_run.2 (Some pin_12).
Proof.
  assert (E : typed_run.1 = Some pin_12) by (vm_compute; reflexivity). rewrite <- E. unfold typed_run.
  pose proof (run_exec caller typed_pin (0, [INPUT_DTMF "1"; INPUT_DTMF "2"; INPUT_DTMF "#"]%char)) as R.
  by destruct (run caller _ typed_pin) as [[r w] tr].
Qed.

Lemma mumbled_exec : exec mumbled mumbled_run.2 mumbled_run.1.
Proof.
  unfold mumbled_run. match goal with |- context [run caller ?w mumbled] => pose proof (run_exec caller mumbled w) as R end.
  by destruct (run caller _ mumbled) as [[r w] tr].
Qed.


(** Two results of the recogniser, then digits: the first result is lost. *)
Definition spoken_twice : CM (option collected) :=
  switch_ivr_play_and_collect_input 9 (Some "pin.wav") (Some "vosk") (Some "pin") 2 4 (Some "#") 3000 true true None.
Definition twice_run : option collected * list (event cresp) :=
  let '(r, _, tr) := run caller (0, [INPUT_EVENT true (Some "detected-speech") (Some "{}");
    INPUT_EVENT true (Some "detected-speech") (Some "{}"); INPUT_DTMF "1"%char; INPUT_DTMF "2"%char; INPUT_DTMF "#"%char])
    spoken_twice in (r, tr).

Lemma twice_exec : exec spoken_twice twice_run.2 (Some pin_12).
Proof.
  assert (E : twice_run.1 = Some pin_12) by (vm_compute; reflexivity). rewrite <- E. unfold twice_run.
  match goal with |- context [run caller ?w spoken_twice] => pose proof (run_exec caller spoken_twice w) as R end.
  by destruct (run caller _ spoken_twice) as [[r w] tr].
Qed.

Lemma collect_input_results_witness :
  (g_live (ghost results_upd (mkResults false 0 0 0) twice_run.2) =
   g_replaced (ghost results_upd (mkResults false 0 0 0) twice_run.2) + one (col_result pin_12) /\
   g_marks (ghost results_upd (mkResults false 0 0 0) twice_run.2) = 0) /\
  g_replaced (ghost results_upd (mkResults false 0 0 0) twice_run.2) = 1.
Proof.
  split; [|vm_compute; reflexivity].
  exact (collect_input_results 9 (Some "pin.wav") (Some "vosk") (Some "pin") 2 4 (Some "#") 3000 true true None _ _
    twice_exec).
Defined.

Lemma collect_input_terminates_witness : typed_run.1 <> None.
Proof.
  refine (collect_input_terminates 0 3 6 (Some "pin.wav") None None 2 4 (Some "#") 3000 true true None typed_run.2 _
    (or_introl eq_refl) _ _ _ _ _); [lia | lia | lia | |].
  - assert (E : typed_run.1 = Some pin_12) by (vm_compute; reflexivity). rewrite E. exact typed_exec.
  - vm_compute. repeat split; discriminate.
Defined.

Lemma collect_input_stuck_witness : mumbled_run.1 = None /\ length mumbled_run.2 = 20%nat.
Proof.
  split; [|vm_compute; reflexivity].
  refine (collect_input_stuck 6 (Some "pin.wav") "vosk" "pin" 2 4 None 3000 true true None "{}" mumbled_run.2 _ _ _ mumbled_exec _);
    [discriminate | lia |].
  vm_compute. repeat split. by exists None.
Defined.
