(* ===== verification/DigitInput.v ===== *)
(** * Collecting digits: [switch_ivr_read] and [switch_play_and_get_digits]
    of [src/switch_ivr_play_say.c]

    The digit buffer is represented by the C string it holds; its capacity is
    the argument [digit_buffer_length]. *)

From Stdlib Require Import Ascii String.
From S2P Require Import Prelude Interaction SwitchCore.

Section DigitInput.
Context `{SwitchDefs}.

Definition channel_set (name : string) (v : option string) : M unit :=
  invoke (switch_channel_set_variable (Some name) v).

(** The prompt: played unless empty or ["silence"]; a break is a success. *)
Definition read_play_prompt (prompt : option string) (buf : string) : M (switch_status_t * string) :=
  match prompt with
  | Some f =>
      if zstr prompt || strcaseeq f "silence" then Ret (SUCCESS, buf)
      else
        '(st, buf') ← invoke (switch_ivr_play_file prompt (Some buf));
        Ret (if decide (st = BREAK) then SUCCESS else st, buf')
  | None => Ret (SUCCESS, buf)
  end.

(** The digits still missing after the prompt, with the terminator used. *)
Definition read_collect (min_digits max_digits : Z) (buf : string) (buflen : Z)
    (timeout : Z) (terms : option string) (digit_timeout : Z) (status : switch_status_t)
  : M (switch_status_t * string * option ascii) :=
  let len := strlen buf in
  if (negb (min_digits =? 0) && (len <? min_digits)) || (len <? max_digits)
  then invoke (switch_ivr_collect_digits_count buf buflen max_digits terms
                 (if len =? 0 then timeout else digit_timeout) digit_timeout 0)
  else Ret (status, buf, None).

(** [if (tb[0]) ... else if (term_required) ...] *)
Definition read_terminator (buf : string) (buflen : Z) (terms : option string)
    (tb : option ascii) (term_required : bool) (status : switch_status_t)
  : M (switch_status_t * string) :=
  match tb with
  | Some t =>
      _ ← channel_set SWITCH_READ_TERMINATOR_USED_VARIABLE (Some (String t ""));
      match terms with
      | Some ts =>
          match strchr_prev None ts t with
          | Some (Some p) =>
              if decide (p = "+"%char ∨ p = "x"%char) then
                Ret (if decide (p = "x"%char) then SWITCH_STATUS_RESTART else status,
                     snprintf_append buf (buflen - strlen buf) (String t ""))
              else Ret (status, buf)
          | _ => Ret (status, buf)
          end
      | None => Ret (status, buf)
      end
  | None => Ret (if term_required then SWITCH_STATUS_TOO_SMALL else status, buf)
  end.

(** The result variable for a status. *)
Definition read_result (status : switch_status_t) : string :=
  match status with
  | SWITCH_STATUS_SUCCESS => "success"
  | SWITCH_STATUS_TIMEOUT => "timeout"
  | _ => "failure"
  end.

(** The buffer after [end:]: a single digit that is a terminator is dropped;
    [len] is the length computed last. *)
Definition end_buffer (max_digits len : Z) (buf : string) (terms : option string)
    (status : switch_status_t) : string :=
  match terms, buf with
  | Some ts, String d _ =>
      if bool_decide (status <> SWITCH_STATUS_RESTART) && (max_digits =? 1) && (len =? 1)
         && strchr ts d
      then "" else buf
  | _, _ => buf
  end.

(** The code after [end:]. *)
Definition read_end (max_digits len : Z) (var_name : option string) (buf : string)
    (terms : option string) (status : switch_status_t) : M (switch_status_t * string) :=
  let buf' := end_buffer max_digits len buf terms status in
  match var_name with
  | Some v =>
      if zstr (Some buf') then Ret (status, buf')
      else _ ← channel_set v (Some buf'); Ret (status, buf')
  | None => Ret (status, buf')
  end.

(** From the prompt to the return, once the guards have passed. *)
Definition read_body (min_digits max_digits : Z) (prompt var_name : option string)
    (buflen timeout : Z) (terms : option string) (digit_timeout : Z) (term_required : bool)
  : M (switch_status_t * string) :=
  '(st, buf) ← read_play_prompt prompt "";
  if decide (st <> SUCCESS /\ st <> BREAK) then read_end max_digits 0 var_name buf terms st
  else
    '(st1, buf1, tb) ← read_collect min_digits max_digits buf buflen timeout terms digit_timeout st;
    '(st2, buf2) ← read_terminator buf1 buflen terms tb term_required st1;
    let len := strlen buf2 in
    let st3 := if negb (min_digits =? 0) && (len <? min_digits)
               then SWITCH_STATUS_TOO_SMALL else st2 in
    _ ← channel_set SWITCH_READ_RESULT_VARIABLE (Some (read_result st3));
    read_end max_digits len var_name buf2 terms st3.

(** [*valid_terminators == '='] *)
Definition term_required (terms : option string) : bool :=
  match terms with Some (String "=" _) => true | _ => false end.

(** [switch_ivr_read]: the status and the string left in the digit buffer. *)
Definition switch_ivr_read (min_digits max_digits : Z) (prompt var_name : option string)
    (digit_buffer : string) (buflen timeout : Z) (terms : option string) (digit_timeout : Z)
  : M (switch_status_t * string) :=
  let digit_timeout := if digit_timeout =? 0 then timeout else digit_timeout in
  let max_digits := if max_digits <? min_digits then min_digits else max_digits in
  _ ← channel_set SWITCH_READ_RESULT_VARIABLE None;
  _ ← match var_name with Some v => channel_set v None | None => Ret tt end;
  if (negb (min_digits =? 0) && (buflen <? min_digits)) || (buflen <? max_digits)
  then Ret (SWITCH_STATUS_FALSE, digit_buffer)
  else
    pa ← invoke switch_channel_pre_answer;
    if decide (pa <> SUCCESS) then Ret (SWITCH_STATUS_FALSE, digit_buffer)
    else read_body min_digits max_digits prompt var_name buflen timeout terms
           digit_timeout (term_required terms).

(** ** [switch_play_and_get_digits] *)

Definition invalid_var (v : string) : string := v ++ "_invalid".

(** What one attempt decides: return a status, or try again. *)
Inductive attempt := Return (st : switch_status_t) | Again.

(** Validating successful digits against the regex; a mismatch is recorded in
    the variable [<var_name>_invalid]. *)
Definition pagd_validate (var_name digits_regex : option string) (buf : string) : M attempt :=
  match digits_regex with
  | Some re =>
      if zstr digits_regex then Ret (Return SUCCESS)
      else
        m ← invoke (switch_regex_match buf re);
        if decide (m = SUCCESS) then Ret (Return SUCCESS)
        else
          _ ← invoke (switch_channel_set_variable var_name None);
          _ ← match var_name with
              | Some v => if zstr var_name then Ret tt
                          else channel_set (invalid_var v) (Some buf)
              | None => Ret tt
              end;
          Ret Again
  | None => Ret (Return SUCCESS)
  end.

(** The checks after [switch_ivr_read] in the loop body. *)
Definition pagd_check (min_digits : Z) (var_name digits_regex : option string)
    (st : switch_status_t) (buf : string) : M attempt :=
  if decide (st = SWITCH_STATUS_RESTART) then Ret (Return st)
  else
    let st := if bool_decide (st = SWITCH_STATUS_TIMEOUT) && (min_digits <=? strlen buf)
              then SUCCESS else st in
    used ← (if (min_digits =? 0) && (strlen buf =? 0)
            then v ← invoke (switch_channel_get_variable SWITCH_READ_TERMINATOR_USED_VARIABLE);
                 Ret (bool_decide (is_Some v))
            else Ret false);
    if (used : bool) then Ret (Return SUCCESS)
    else if bool_decide (st = SUCCESS) && negb (zstr (Some buf))
    then pagd_validate var_name digits_regex buf
    else Ret Again.

(** The [while] loop; [None] when it ends without a return. *)
Fixpoint pagd_loop (tries : nat) (min_digits max_digits timeout : Z)
    (terms prompt bad_input var_name : option string) (buflen : Z)
    (digits_regex : option string) (digit_timeout : Z) : M (option (switch_status_t * string)) :=
  match tries with
  | O => _ ← invoke switch_channel_ready; Ret None
  | S tries' =>
      ready ← invoke switch_channel_ready;
      if negb ready then Ret None
      else
        '(st, buf) ← switch_ivr_read min_digits max_digits prompt var_name "" buflen timeout
                       terms digit_timeout;
        a ← pagd_check min_digits var_name digits_regex st buf;
        match a with
        | Return r => Ret (Some (r, buf))
        | Again =>
            ready' ← invoke switch_channel_ready;
            if negb ready' then Ret None
            else
              _ ← invoke (switch_ivr_play_file bad_input None);
              pagd_loop tries' min_digits max_digits timeout terms prompt bad_input var_name
                buflen digits_regex digit_timeout
        end
  end.

(** The transfer after the last attempt. *)
Definition pagd_transfer (transfer_on_failure : option string) : M unit :=
  match transfer_on_failure with
  | Some t =>
      if zstr transfer_on_failure then Ret tt
      else
        target ← invoke (switch_separate_string t " " 4);
        match target with
        | [] => Ret tt
        | _ => _ ← invoke (switch_ivr_session_transfer (target !! 0%nat) (target !! 1%nat) (target !! 2%nat));
               Ret tt
        end
  | None => Ret tt
  end.

Definition switch_play_and_get_digits (min_digits max_digits : Z) (max_tries : nat) (timeout : Z)
    (terms prompt bad_input var_name : option string) (buflen : Z)
    (digits_regex : option string) (digit_timeout : Z) (transfer_on_failure : option string)
  : M (switch_status_t * string) :=
  _ ← match var_name with
      | Some v => if zstr digits_regex || zstr var_name then Ret tt
                  else channel_set (invalid_var v) None
      | None => Ret tt
      end;
  r ← pagd_loop max_tries min_digits max_digits timeout terms prompt bad_input var_name buflen
        digits_regex digit_timeout;
  match r with
  | Some res => Ret res
  | None => _ ← pagd_transfer transfer_on_failure; Ret (SWITCH_STATUS_FALSE, "")
  end.


(** ** What [switch_ivr_read] guarantees *)

(** The channel variables as set by the calls of a trace. *)
Definition var_upd (vars : gmap string (option string)) (e : event resp) : gmap string (option string) :=
  match ev_call e with
  | switch_channel_set_variable (Some n) v => <[n := v]> vars
  | _ => vars
  end.

Definition set_by (tr : trace) : gmap string (option string) := ghost var_upd ∅ tr.

Notation wpv := (wp any_answer var_upd).
Notation RESULT := SWITCH_READ_RESULT_VARIABLE.
Notation TERM := SWITCH_READ_TERMINATOR_USED_VARIABLE.

Lemma end_buffer_cases max_digits len buf terms st :
  end_buffer max_digits len buf terms st = buf
  \/ (end_buffer max_digits len buf terms st = "" /\ max_digits = 1 /\ st <> SWITCH_STATUS_RESTART).
Proof.
  unfold end_buffer. destruct terms as [ts|]; [|by left]. destruct buf as [|d buf]; [by left|].
  destruct (bool_decide _ && _ && _ && _) eqn:E; [right|by left].
  rewrite !andb_true_iff, bool_decide_eq_true in E. split; [done|]. split; [lia|tauto].
Qed.

Section ReadSpec.
Context (var_name : option string).
Context (Hres : var_name <> Some RESULT) (Hterm : var_name <> Some TERM) (Hrt : RESULT <> TERM).

(** [read_end] keeps the status and the two reporting variables. *)
Lemma read_end_wp max_digits len buf terms st (vars : gmap string (option string)) Q :
  (forall vars', vars' !! RESULT = vars !! RESULT -> vars' !! TERM = vars !! TERM ->
     Q vars' (st, end_buffer max_digits len buf terms st)) ->
  wpv (read_end max_digits len var_name buf terms st) vars Q.
Proof.
  intros HQ. unfold read_end. destruct var_name as [v|]; [|by apply HQ].
  destruct (zstr _); [by apply HQ|]. intros ? _. cbn. apply HQ.
  - by rewrite lookup_insert_ne by congruence.
  - by rewrite lookup_insert_ne by congruence.
Qed.

Lemma read_play_prompt_wp prompt buf vars Q :
  (forall st b, Q vars (st, b)) -> wpv (read_play_prompt prompt buf) vars Q.
Proof.
  intros HQ. unfold read_play_prompt. destruct prompt; [|apply HQ].
  destruct (_ || _); [apply HQ|]. intros [st b] _. apply HQ.
Qed.

Lemma read_collect_wp min_digits max_digits buf buflen timeout terms dt st vars Q :
  (forall st' b tb, Q vars (st', b, tb)) ->
  wpv (read_collect min_digits max_digits buf buflen timeout terms dt st) vars Q.
Proof. intros HQ. unfold read_collect. case_match; [|apply HQ]. intros [[??]?] _. apply HQ. Qed.

(** A required terminator that is missing excludes success. *)
Lemma read_terminator_wp buf buflen terms tb st vars Q :
  (forall vars' st' b, vars' !! RESULT = vars !! RESULT ->
     (st' = SUCCESS -> term_required terms = true -> exists t, vars' !! TERM = Some (Some t)) ->
     Q vars' (st', b)) ->
  wpv (read_terminator buf buflen terms tb (term_required terms) st) vars Q.
Proof.
  intros HQ. unfold read_terminator. destruct tb as [t|].
  - intros ? _. cbn.
    assert (forall st' b, Q (<[TERM := Some (String t "")]> vars) (st', b)) as HQ'.
    { intros. apply HQ; [by rewrite lookup_insert_ne|].
      intros. eexists. apply lookup_insert_eq. }
    destruct terms as [ts|]; [|apply HQ']. destruct (strchr_prev None ts t) as [[p|]|]; try apply HQ'.
    case_decide; apply HQ'.
  - destruct (term_required terms) eqn:E; apply HQ; done || congruence.
Qed.

(** What a caller of [switch_ivr_read] may rely on. *)
Definition read_post (min_digits max_digits : Z) (terms : option string)
    (vars : gmap string (option string)) (r : switch_status_t * string) : Prop :=
  (vars !! RESULT = Some (Some "success") <-> r.1 = SUCCESS) /\
  (r.1 = SUCCESS ->
    (min_digits <= strlen r.2 \/ (r.2 = "" /\ Z.max max_digits min_digits = 1)) /\
    (term_required terms = true -> exists t, vars !! TERM = Some (Some t))).

Lemma read_result_success st : read_result st = "success" <-> st = SUCCESS.
Proof. destruct st; simpl; split; congruence. Qed.

Lemma read_body_wp min_digits max_digits prompt buflen timeout terms dt vars :
  0 <= min_digits <= max_digits -> vars !! RESULT = Some None ->
  wpv (read_body min_digits max_digits prompt var_name buflen timeout terms dt
         (term_required terms)) vars (read_post min_digits max_digits terms).
Proof.
  intros Hmin Hvars. unfold read_body. apply wp_bind, read_play_prompt_wp. intros st b. cbn.
  case_decide as Hst.
  - apply read_end_wp. intros vars' Hr _. rewrite Hvars in Hr. split; simpl; [|tauto].
    rewrite Hr. intuition congruence.
  - apply wp_bind, read_collect_wp. intros st1 b1 tb.
    apply wp_bind, read_terminator_wp. intros vars2 st2 b2 Hr2 Ht2.
    cbn zeta. set (st3 := if _ && _ then _ else st2). cbn. intros _ _.
    apply read_end_wp. cbn. intros vars' Hr Ht.
    rewrite lookup_insert_eq in Hr. rewrite lookup_insert_ne in Ht by done.
    split; cbn [fst snd].
    + rewrite Hr. rewrite <- read_result_success. split; congruence.
    + intros E. assert (st2 = SUCCESS /\ min_digits <= strlen b2) as [-> Hlen].
      { subst st3. destruct (_ && _) eqn:C in E; [done|].
        pose proof (strlen_nonneg b2). split; [done|]. lia. }
      split; [|rewrite Ht; by apply Ht2].
      destruct (end_buffer_cases max_digits (strlen b2) b2 terms st3) as [->|(-> & Hm & _)];
        [by left | right; split; [done|lia]].
Qed.
Lemma clear_var_wp (vars : gmap string (option string)) (Q : _ -> unit -> Prop) :
  (forall vars', vars' !! RESULT = vars !! RESULT -> Q vars' tt) ->
  wpv (match var_name with Some v => channel_set v None | None => Ret tt end) vars Q.
Proof.
  intros HQ. destruct var_name as [v|]; [intros [] _; cbn|]; apply HQ; [|done].
  by rewrite lookup_insert_ne by congruence.
Qed.

(** After the guards: the early returns are failures. *)
Lemma read_guarded_wp min_digits max_digits prompt buf0 buflen timeout terms dt vars :
  0 <= min_digits <= max_digits -> vars !! RESULT = Some None ->
  wpv (if (negb (min_digits =? 0) && (buflen <? min_digits)) || (buflen <? max_digits)
       then Ret (SWITCH_STATUS_FALSE, buf0)
       else
         pa ← invoke switch_channel_pre_answer;
         if decide (pa <> SUCCESS) then Ret (SWITCH_STATUS_FALSE, buf0)
         else read_body min_digits max_digits prompt var_name buflen timeout terms dt
                (term_required terms)) vars (read_post min_digits max_digits terms).
Proof.
  intros Hmin Hv.
  assert (forall b, read_post min_digits max_digits terms vars (SWITCH_STATUS_FALSE, b)) as Hf.
  { intros b. split; simpl; [rewrite Hv|]; split; congruence. }
  case_match; [apply Hf|]. intros pa _. cbn. case_decide; [apply Hf|]. by apply read_body_wp.
Qed.

Lemma switch_ivr_read_wp min_digits max_digits prompt buf0 buflen timeout terms dt vars :
  0 <= min_digits ->
  wpv (switch_ivr_read min_digits max_digits prompt var_name buf0 buflen timeout terms dt)
    vars (read_post min_digits max_digits terms).
Proof.
  intros Hmin. unfold switch_ivr_read. intros ? _. cbn zeta.
  set (max' := if max_digits <? min_digits then min_digits else max_digits).
  assert (min_digits <= max' /\ Z.max max' min_digits = Z.max max_digits min_digits) as [Hm Hmm]
    by (subst max'; case_match; lia).
  apply wp_mono with (Q := read_post min_digits max' terms).
  { intros vars' res. unfold read_post. by rewrite Hmm. }
  apply wp_bind, clear_var_wp. intros vars' Hv.
  apply read_guarded_wp; [lia|]. rewrite Hv. apply lookup_insert_eq.
Qed.
End ReadSpec.

(** [switch_ivr_read] reports what it collected: whatever the core
    answers, the variable [read_result] ends as "success" exactly when the
    function returns success, and then at least [min_digits] digits are in the
    buffer (or the only digit was a terminator and was removed) and, when the
    terminator string starts with '=', a terminator was used. *)
Theorem switch_ivr_read_post min_digits max_digits prompt var_name buf0 buflen timeout terms dt tr r :
  var_name <> Some RESULT -> var_name <> Some TERM -> RESULT <> TERM -> 0 <= min_digits ->
  exec (switch_ivr_read min_digits max_digits prompt var_name buf0 buflen timeout terms dt) tr r ->
  read_post min_digits max_digits terms (set_by tr) r.
Proof.
  intros Hres Hterm Hrt Hmin Hex.
  by eapply (wp_any var_upd); [apply switch_ivr_read_wp|].
Qed.

(** ** What [switch_play_and_get_digits] guarantees *)

(** The digits of a successful [switch_ivr_read], whatever the channel variables are. *)
Lemma read_end_buf max_digits len var_name buf terms st tr r :
  exec (read_end max_digits len var_name buf terms st) tr r ->
  r = (st, end_buffer max_digits len buf terms st).
Proof.
  unfold read_end. destruct var_name; [|by intros [_ ->]].
  destruct (zstr _); [by intros [_ ->]|]. by intros (? & ? & _ & _ & ->).
Qed.

Definition read_digits_ok (min_digits : Z) (r : switch_status_t * string) : Prop :=
  r.1 = SUCCESS -> min_digits <= strlen r.2 \/ r.2 = "".

Lemma read_body_digits min_digits max_digits prompt var_name buflen timeout terms dt tr r :
  0 <= min_digits ->
  exec (read_body min_digits max_digits prompt var_name buflen timeout terms dt
          (term_required terms)) tr r -> read_digits_ok min_digits r.
Proof.
  intros Hmin Hex. unfold read_body in Hex.
  apply exec_bind in Hex as (t1 & t2 & [st b] & -> & _ & Hex). cbn in Hex.
  case_decide as Hst.
  { apply read_end_buf in Hex as ->. unfold read_digits_ok. cbn. tauto. }
  apply exec_bind in Hex as (? & ? & [[st1 b1] tb] & _ & _ & Hex).
  apply exec_bind in Hex as (? & ? & [st2 b2] & _ & _ & Hex). cbn zeta in Hex.
  destruct Hex as (? & ? & _ & Hex). apply read_end_buf in Hex as ->.
  unfold read_digits_ok. cbn. destruct (_ && _) eqn:C; [done|]. intros ->.
  pose proof (strlen_nonneg b2).
  destruct (end_buffer_cases max_digits (strlen b2) b2 terms SUCCESS) as [->|[-> _]]; [left; lia|by right].
Qed.

Lemma switch_ivr_read_digits min_digits max_digits prompt var_name buf0 buflen timeout terms dt tr r :
  0 <= min_digits ->
  exec (switch_ivr_read min_digits max_digits prompt var_name buf0 buflen timeout terms dt) tr r ->
  read_digits_ok min_digits r.
Proof.
  intros Hmin Hex. unfold switch_ivr_read in Hex.
  apply exec_bind in Hex as (? & ? & [] & _ & _ & Hex). apply exec_bind in Hex as (? & ? & [] & _ & _ & Hex).
  destruct (_ || _); [by destruct Hex as [_ ->]|].
  destruct Hex as (pa & ? & _ & Hex). simpl in Hex. case_decide; [by destruct Hex as [_ ->]|].
  by apply read_body_digits in Hex.
Qed.

(** What a returned status says of the digits, given the calls made so far. *)
Definition pagd_post (min_digits : Z) (digits_regex : option string) (tr : trace)
    (r : switch_status_t * string) : Prop :=
  match r.1 with
  | SWITCH_STATUS_SUCCESS =>
      (r.2 <> "" /\ min_digits <= strlen r.2 /\
         (zstr digits_regex = true \/
          exists re, digits_regex = Some re /\ Ev (switch_regex_match r.2 re) SUCCESS ∈ tr))
      \/ (r.2 = "" /\ min_digits = 0)
  | SWITCH_STATUS_RESTART => True
  | SWITCH_STATUS_FALSE => r.2 = ""
  | _ => False
  end.

Notation wpt := (wp any_answer snoc).

Lemma zstr_Some_false s : zstr (Some s) = false -> s <> "".
Proof. by destruct s. Qed.

(** One attempt returns only digits that passed the checks. *)
Definition attempt_ok (min_digits : Z) (digits_regex : option string) (buf : string)
    (t : trace) (a : attempt) : Prop :=
  match a with
  | Return r => pagd_post min_digits digits_regex t (r, buf)
  | Again => True
  end.

Lemma pagd_validate_wp min_digits var_name digits_regex buf t :
  min_digits <= strlen buf -> buf <> "" ->
  wpt (pagd_validate var_name digits_regex buf) t (attempt_ok min_digits digits_regex buf).
Proof.
  intros Hmin Hne. unfold pagd_validate. destruct digits_regex as [re|]; [|left; simpl; auto].
  destruct (zstr (Some re)) eqn:Ez; [left; simpl; auto|].
  intros m _. cbn. case_decide as Hm.
  - subst. left. split; [done|]. split; [done|]. right. exists re. split; [done|].
    unfold snoc. set_solver.
  - intros ? _. destruct var_name as [v|]; [|done]. destruct (zstr (Some v)); [done|].
    by intros ? _.
Qed.

Lemma pagd_check_wp min_digits var_name digits_regex st buf t :
  0 <= min_digits -> read_digits_ok min_digits (st, buf) ->
  wpt (pagd_check min_digits var_name digits_regex st buf) t
    (attempt_ok min_digits digits_regex buf).
Proof.
  intros Hmin Hok. unfold pagd_check. case_decide as Hr; [by subst|]. cbn zeta.
  set (st' := if _ && _ then SUCCESS else st).
  assert (st' = SUCCESS -> min_digits <= strlen buf \/ buf = "") as Hok'.
  { subst st'. destruct (_ && _) eqn:C; [left; lia | apply Hok]. }
  clearbody st'.
  assert (forall t', wpt (if bool_decide (st' = SUCCESS) && negb (zstr (Some buf))
      then pagd_validate var_name digits_regex buf else Ret Again) t'
      (attempt_ok min_digits digits_regex buf)) as Hv.
  { intros t'. destruct (_ && _) eqn:C; [|done].
    rewrite andb_true_iff, bool_decide_eq_true, negb_true_iff in C. destruct C as [C1 C2%zstr_Some_false].
    apply pagd_validate_wp; [|done]. by destruct (Hok' C1). }
  destruct ((min_digits =? 0) && (strlen buf =? 0)) eqn:C; [|apply Hv].
  intros v _. cbn. destruct (bool_decide (is_Some v)); [|apply Hv].
  right. cbn. split; [apply strlen_0 | ]; lia.
Qed.

Lemma pagd_loop_wp tries min_digits max_digits timeout terms prompt bad_input var_name buflen
    digits_regex dt t :
  0 <= min_digits ->
  wpt (pagd_loop tries min_digits max_digits timeout terms prompt bad_input var_name buflen
         digits_regex dt) t
    (fun t' r => match r with
                 | Some r => pagd_post min_digits digits_regex t' r
                 | None => True end).
Proof.
  intros Hmin. revert t. induction tries as [|n IH]; intros t; [by intros ? _|].
  intros ready _. destruct ready; [|done]. apply wp_bind, wp_exec.
  intros tr [st buf] Hex%switch_ivr_read_digits; [|done].
  apply wp_bind. eapply wp_mono; [|by apply pagd_check_wp].
  intros t' [r|] Ha; [exact Ha|]. intros ready' _. destruct ready'; [|done].
  intros ? _. apply IH.
Qed.

(** [C24] Whatever the core answers, [switch_play_and_get_digits] returns only
    success, restart or false.  Success means that the digits returned are at
    least [min_digits] long and were matched by the regex (when there is one),
    or that none were asked for and none are returned; false leaves the buffer
    empty. *)
Theorem play_and_get_digits_post min_digits max_digits max_tries timeout terms prompt bad_input
    var_name buflen digits_regex dt transfer tr r :
  0 <= min_digits ->
  exec (switch_play_and_get_digits min_digits max_digits max_tries timeout terms prompt bad_input
          var_name buflen digits_regex dt transfer) tr r ->
  pagd_post min_digits digits_regex tr r.
Proof.
  intros Hmin Hex. eapply (wp_trace _ (pagd_post min_digits digits_regex)); [|exact Hex].
  apply wp_bind. apply wp_exec. intros t1 [] _.
  apply wp_bind. eapply wp_mono; [|by apply pagd_loop_wp].
  intros t' [r'|] Hr; [done|]. apply wp_bind, wp_exec. by intros t2 [] _.
Qed.

(** ** Bounds on the attempts *)

Definition is_collect (e : event resp) : bool :=
  match ev_call e with switch_ivr_collect_digits_count _ _ _ _ _ _ _ => true | _ => false end.

Notation wpn := (wp any_answer (tally is_collect)).

Lemma switch_ivr_read_collects min_digits max_digits prompt var_name buf0 buflen timeout terms dt n :
  wpn (switch_ivr_read min_digits max_digits prompt var_name buf0 buflen timeout terms dt) n
    (fun n' _ => (n' <= S n)%nat).
Proof.
  unfold switch_ivr_read, read_body, read_play_prompt, read_collect, read_terminator, read_end, channel_set.
  wp_run; cbn; lia.
Qed.

Lemma pagd_check_collects min_digits var_name digits_regex st buf n :
  wpn (pagd_check min_digits var_name digits_regex st buf) n (fun n' _ => n' = n).
Proof. unfold pagd_check, pagd_validate, channel_set. wp_run; done. Qed.

Lemma pagd_loop_collects tries min_digits max_digits timeout terms prompt bad_input var_name buflen
    digits_regex dt n :
  wpn (pagd_loop tries min_digits max_digits timeout terms prompt bad_input var_name buflen
         digits_regex dt) n (fun n' _ => (n' <= n + tries)%nat).
Proof.
  revert n. induction tries as [|k IH]; intros n; [intros ? _; cbn; lia|].
  intros ready _. destruct ready; [|cbn; lia].
  apply wp_bind. eapply wp_mono; [|apply switch_ivr_read_collects]. intros n1 [st buf] Hn1.
  apply wp_bind. eapply wp_mono; [|apply pagd_check_collects]. intros ? [r|] ->; [cbn in *; lia|].
  intros ready' _. destruct ready'; [|cbn in *; lia]. intros ? _.
  eapply wp_mono; [|apply IH]. intros ? ?. cbn in *. lia.
Qed.

(** Bounded interaction: a call of [switch_play_and_get_digits] starts
    digit collection at most [max_tries] times, whatever the core answers (the
    function always returns: the loop is bounded by [max_tries]). *)
Theorem play_and_get_digits_attempts min_digits max_digits max_tries timeout terms prompt bad_input
    var_name buflen digits_regex dt transfer tr r :
  exec (switch_play_and_get_digits min_digits max_digits max_tries timeout terms prompt bad_input
          var_name buflen digits_regex dt transfer) tr r ->
  (count_events is_collect tr <= max_tries)%nat.
Proof.
  intros Hex. eapply (wp_any (tally is_collect) _ 0%nat (fun n _ => (n <= max_tries)%nat)); [|exact Hex].
  apply wp_bind. eapply wp_mono with (Q := fun n _ => n = 0%nat).
  - intros n [] ->. apply wp_bind. eapply wp_mono; [|apply pagd_loop_collects].
    intros n' [r'|] Hn'; [done|]. unfold pagd_transfer. wp_run; cbn in *; lia.
  - unfold channel_set. wp_run; done.
Qed.

(** ** A stale terminator *)

(** The core keeps channel variables: a read answers the last value set. *)
Definition legal_vars (vars : gmap string (option string)) (e : event resp) : Prop :=
  match e with
  | Ev (switch_channel_get_variable n) v => v = default None (vars !! n)
  | _ => True
  end.

Definition is_terminator_answer (e : event resp) : bool :=
  match e with
  | Ev (switch_ivr_collect_digits_count _ _ _ _ _ _ _) (_, _, Some _) => true
  | _ => false
  end.

(** A caller who never presses a key. *)
Definition silent_answers (vars : gmap string (option string)) (e : event resp) : Prop :=
  match e with
  | Ev (switch_channel_get_variable n) v => v = default None (vars !! n)
  | Ev switch_channel_ready b => b = true
  | Ev switch_channel_pre_answer st => st = SUCCESS
  | Ev (switch_ivr_collect_digits_count _ _ _ _ _ _ _) r => r = (SWITCH_STATUS_TIMEOUT, "", None)
  | _ => True
  end.

Definition silent_env (vars : gmap string (option string)) (c : call)
  : resp c * gmap string (option string) :=
  let r : resp c :=
    match c with
    | switch_channel_ready => true
    | switch_channel_get_variable n => default None (vars !! n)
    | switch_channel_set_variable _ _ => tt
    | switch_channel_pre_answer => SUCCESS
    | switch_ivr_play_file _ b => (SUCCESS, default "" b)
    | switch_ivr_collect_digits_count _ _ _ _ _ _ _ => (SWITCH_STATUS_TIMEOUT, "", None)
    | switch_regex_match _ _ => SUCCESS
    | switch_separate_string _ _ _ => []
    | switch_ivr_session_transfer _ _ _ => SUCCESS
    end in
  (r, var_upd vars (Ev c r)).

Lemma silent_env_ok vars c :
  silent_answers vars (Ev c (silent_env vars c).1)
  /\ (silent_env vars c).2 = var_upd vars (Ev c (silent_env vars c).1).
Proof. by destruct c. Qed.

Lemma silent_attempt terms prompt timeout dt tries :
  RESULT <> TERM -> zstr prompt = true ->
  wp silent_answers var_upd
    (switch_play_and_get_digits 0 4 (S tries) timeout terms prompt None None 10 None dt None)
    {[ TERM := Some "#" ]} (fun _ r => r = (SUCCESS, "")).
Proof.
  intros Hrt Hp. assert (read_play_prompt prompt "" = Ret (SUCCESS, "")) as Hpp
    by (destruct prompt as [[]|]; done).
  cbn. intros ready ->. cbn. intros [] _. intros st ->. cbn.
  unfold read_body. rewrite Hpp. cbn. intros r ->. cbn.
  assert (forall st, end_buffer 4 (strlen "") "" terms st = "") as He
    by (intros; unfold end_buffer; by destruct terms).
  destruct (term_required terms); intros [] _; rewrite He; cbn; intros v ->;
    rewrite !lookup_insert_ne by done; by rewrite lookup_singleton_eq.
Qed.

(** [switch_ivr_read] does not clear [read_terminator_used]: with
    [min_digits = 0], a prompt that times out without any key makes
    [switch_play_and_get_digits] return success at the first attempt when an
    earlier prompt left the variable set. *)
Theorem stale_terminator_is_success terms prompt timeout dt tries :
  RESULT <> TERM -> zstr prompt = true ->
  exists tr,
    exec (switch_play_and_get_digits 0 4 (S tries) timeout terms prompt None None 10 None dt None)
      tr (SUCCESS, "") /\
    legal_trace legal_vars var_upd {[ TERM := Some "#" ]} tr /\
    count_events is_terminator_answer tr = 0%nat.
Proof.
  intros Hrt Hp.
  set (m := switch_play_and_get_digits 0 4 (S tries) timeout terms prompt None None 10 None dt None).
  pose proof (run_exec silent_env m {[ TERM := Some "#" ]}) as Hex.
  pose proof (run_legal silent_answers var_upd silent_env m {[ TERM := Some "#" ]} silent_env_ok)
    as Hl.
  assert (wp silent_answers var_upd m {[ TERM := Some "#" ]} (fun _ r => r = (SUCCESS, ""))) as Hwp
    by by apply silent_attempt.
  rewrite (wp_sound _ _ _ _ _ _ _ Hwp Hex Hl) in Hex.
  exists (run silent_env {[ TERM := Some "#" ]} m).2. split; [done|]. split.
  - eapply legal_mono; [|exact Hl]. by intros vars [[] r].
  - eapply count_events_0; [|exact Hl]. intros vars [[] r]; try done. by intros ->.
Qed.

End DigitInput.

(** ** Concrete instances *)

#[export] Instance sample_defs : SwitchDefs :=
  {| SWITCH_READ_RESULT_VARIABLE := "read_result";
     SWITCH_READ_TERMINATOR_USED_VARIABLE := "read_terminator_used" |}.

(** An environment in which the caller dials 1, 2, 3 and #. *)
Definition dial_env (w : unit) (c : call) : resp c * unit :=
  (match c as c return resp c with
   | switch_channel_ready => true
   | switch_channel_get_variable _ => None
   | switch_channel_set_variable _ _ => tt
   | switch_channel_pre_answer => SUCCESS
   | switch_ivr_play_file _ b => (SUCCESS, default "" b)
   | switch_ivr_collect_digits_count _ _ _ _ _ _ _ => (SUCCESS, "123", Some "#"%char)
   | switch_regex_match _ _ => SUCCESS
   | switch_separate_string _ _ _ => []
   | switch_ivr_session_transfer _ _ _ => SUCCESS
   end, w).

Definition sample_read : M (switch_status_t * string) :=
  switch_ivr_read 3 5 (Some "p.wav") (Some "pin") "" 20 3000 (Some "=#") 1000.

Lemma switch_ivr_read_post_witness :
  read_post 3 5 (Some "=#") (set_by (run dial_env tt sample_read).2) (SUCCESS, "123").
Proof.
  apply (switch_ivr_read_post 3 5 (Some "p.wav") (Some "pin") "" 20 3000 (Some "=#") 1000
           (run dial_env tt sample_read).2); try discriminate.
  exact (run_exec dial_env sample_read tt).
Defined.

Definition sample_pagd : M (switch_status_t * string) :=
  switch_play_and_get_digits 3 5 2 3000 (Some "#") (Some "p.wav") None (Some "pin") 20
    (Some "^1") 1000 None.

Lemma play_and_get_digits_post_witness :
  pagd_post 3 (Some "^1") (run dial_env tt sample_pagd).2 (SUCCESS, "123").
Proof.
  apply (play_and_get_digits_post 3 5 2 3000 (Some "#") (Some "p.wav") None (Some "pin") 20
           (Some "^1") 1000 None); [discriminate|].
  exact (run_exec dial_env sample_pagd tt).
Defined.

Lemma play_and_get_digits_attempts_witness :
  (count_events is_collect (run dial_env tt sample_pagd).2 <= 2)%nat.
Proof.
  apply (play_and_get_digits_attempts 3 5 2 3000 (Some "#") (Some "p.wav") None (Some "pin") 20
           (Some "^1") 1000 None _ (SUCCESS, "123")).
  exact (run_exec dial_env sample_pagd tt).
Defined.

Lemma stale_terminator_is_success_witness :
  exists tr,
    exec (switch_play_and_get_digits 0 4 3 3000 (Some "#") None None None 10 None 1000 None)
      tr (SUCCESS, "") /\
    legal_trace legal_vars var_upd {[ SWITCH_READ_TERMINATOR_USED_VARIABLE := Some "#" ]} tr /\
    count_events is_terminator_answer tr = 0%nat.
Proof.
  apply (stale_terminator_is_success (Some "#") None 3000 1000 2); [discriminate | reflexivity].
Defined.
